(* ===== verification/_CoqProject ===== *)
-Q . S2P
Prelude.v
LruCache.v
Errors.v
MetadataTypes.v
Cache.v
Engine.v
Metadata.v
MetadataFacts.v
MemEngine.v
Float64.v
PieceCalc.v
Wire.v
PieceProtocol.v
Storage.v
StorageFacts.v
UrmaBuffer.v
UrmaBufferFacts.v
UrmaLane.v
UrmaCompletion.v
UrmaPost.v
UrmaOwnerFacts.v
UrmaPostFacts.v
UrmaFrame.v
UrmaLedger.v
UrmaRuntime.v
UrmaRuntimeFacts.v
UrmaFabric.v
UrmaFabricFacts.v
UrmaTheorems.v
UrmaSession.v
UrmaSessionFacts.v
UrmaSessionTheorems.v
GC.v
GCFacts.v
UrmaControl.v
UrmaControlFacts.v
FileIO.v
FileIOFacts.v
FileWriteFacts.v
ParentSelector.v
ParentSelectorFacts.v
PieceCollector.v
PieceCollectorFacts.v
TaskDownload.v
TaskDownloadFacts.v
TaskDownloadTheorems.v
PieceDownload.v
PieceDownloadFacts.v
PieceManager.v
PersistentDownload.v
PersistentDownloadFacts.v
RateLimiter.v
RateLimiterFacts.v
PersistentUpload.v
PersistentUploadFacts.v
