(* ===== verification/Prelude.v ===== *)
(** * Verification of the Dragonfly client

    Dragonfly is a peer-to-peer file distribution system.  The client of this
    repository (a workspace of Rust crates) downloads a task as numbered pieces
    from other peers or from the source, keeps the pieces and their metadata,
    and serves them to other peers.  This library models the downloads of tasks,
    of persistent tasks and of their pieces, with the selection of parents and
    the collection of pieces; the storage layer under them, the protocol by which
    concurrent downloads share a piece, garbage collection, and the splitting of
    a task into pieces; and the URMA transport (remote memory access over a
    native library) from its registered buffers up to the piece transfers; and
    proves the properties that make them correct.

    ** The program and its model

    - [src/dragonfly-client-storage/src/cache/lru_cache.rs], a recency cache
      built on raw pointers: file LruCache, module [Lru].  The heap of boxed
      entries is explicit; dereferencing a box that is not live, or taking it
      twice, is a stuck computation ([UB], below).  The reference behaviour is a
      recency list ([spec_get], [spec_put], ..).  [LruApi] and [LruSpec] are the
      interface the cache above it uses.
    - [cache/mod.rs], the in-memory piece cache with byte accounting: file
      Cache, proved against [LruSpec].
    - [src/dragonfly-client-core/src/error]: file Errors.
    - The records of [metadata.rs]: file MetadataTypes.
    - [storage_engine/mod.rs] and [storage_engine/rocksdb.rs]: file Engine.  The
      trait [Operations] is a class; the RocksDB library and bincode are
      parameters ([RocksDB], [Bincode]) with their documented behaviour as laws.
      [OperationsLaws] is what the engine promises; [rocksdb_operations_laws]
      shows the RocksDB engine keeps it.
    - [metadata.rs], the metadata store: file Metadata (every method, over the
      [Operations] interface), properties in MetadataFacts.
    - [resource/piece.rs] of [src/dragonfly-client], the arithmetic of pieces:
      file PieceCalc, over the double-precision arithmetic of Float64.
    - [rendezvous.rs] and [urma/rendezvous.rs], the framing and the URMA frames:
      file Wire.
    - [piece_notifier.rs] and the claim, wait, finish and fail paths of
      [lib.rs], as a step relation over any number of interleaved tasks: file
      PieceProtocol.
    - [lib.rs], the facade [Storage] over metadata, cache, notifiers and
      content, as one task sees it, with its four kinds of pieces and the URMA
      forms of storing and mapping a piece: file Storage, properties in
      StorageFacts.
    - MemEngine instantiates the parameters with an in-memory database and a
      codec, which shows their laws can be met, and holds the witnesses.
    - [urma/error.rs] and [urma/buffer.rs], the pool of registered slots and its
      leases: file UrmaBuffer, properties in UrmaBufferFacts.  The native segment
      is the class [NativeSegment].
    - [urma/lane.rs], lanes, their states, credits and tokens, and the posting of
      windows: files UrmaLane and UrmaPost.  The native jetty is the class
      [NativeJetty].
    - [urma/completion.rs], the completion router: file UrmaCompletion.
      UrmaOwnerFacts and UrmaPostFacts relate router, lanes and pool (which work
      request owns which slot); UrmaFrame (what a call leaves alone) and
      UrmaLedger (how many permits the leases stand for) carry that to the owner.
    - [urma/runtime.rs], start, polling, reaping and shutdown: file UrmaRuntime,
      properties in UrmaRuntimeFacts.
    - [urma/fabric.rs], the owner thread: file UrmaFabric, properties in
      UrmaFabricFacts.  Its theorems and a concrete device are in UrmaTheorems.
    - [urma/session.rs], the two sides of a piece transfer: file UrmaSession,
      properties in UrmaSessionFacts, theorems and a concrete transfer in
      UrmaSessionTheorems.
    - [urma/control.rs], the dispatcher that shares the control stream of a lane
      among its transfers: file UrmaControl, properties in UrmaControlFacts.
    - [io.rs] and the [buffer_pool] of the utilities, reading and writing a range
      of a file: file FileIO, properties in FileIOFacts and FileWriteFacts.
    - [gc/mod.rs] of [src/dragonfly-client], the garbage collector: file GC,
      properties in GCFacts.
    - [resource/parent_selector.rs]: file ParentSelector, properties in
      ParentSelectorFacts.
    - [resource/piece_collector.rs], as a step relation over the tasks of the
      parents, their timers and the main task: file PieceCollector, properties in
      PieceCollectorFacts.
    - [resource/task.rs], the download of a task: file TaskDownload, over the
      interface [PieceApi]; TaskDownloadFacts states what it relies on
      ([PieceApiLaws]), TaskDownloadTheorems what follows.
    - [resource/piece.rs], the download of a piece over the storage facade: file
      PieceDownload, properties in PieceDownloadFacts.  PieceManager makes it an
      instance of [PieceApi], shows the laws, and puts the two together.
    - [resource/persistent_task.rs] and [persistent_cache_task.rs], the downloads:
      file PersistentDownload, properties in PersistentDownloadFacts; their uploads:
      file PersistentUpload, properties in PersistentUploadFacts.
    - [ratelimiter/bbr.rs] of the utilities, the adaptive rate limiter of the gRPC
      services, as operations and as interleaved requests: file RateLimiter,
      properties in RateLimiterFacts.
    The interfaces go upwards: a session sends and receives windows through the
    fabric's commands; the owner thread runs them on the runtime, which owns the
    lanes, the router and the pool; the downloaded bytes reach the storage facade,
    which records the piece in the metadata store and wakes the waiting tasks.

    ** What the theorems show

    - The pointer cache refines the recency list under every sequence of
      operations, never exceeds its capacity, has no undefined behaviour and
      frees every box ([lru_run_refines], [lru_run_bounded],
      [lru_drop_frees_all]).  The piece cache admits a task by evicting the
      fewest least recently used ones, accounts its bytes, and returns the bytes
      that were written, for every range ([put_task_admits],
      [delete_task_accounts], [write_read_piece]); admitting a task twice leaks
      bytes of the accounting ([put_task_existing_leaks]).
    - Every sequence of metadata operations, failing ones included, keeps the
      store well formed ([run_keeps_wf]); finished pieces survive failed
      downloads ([piece_failed_guard]); the life of pieces, tasks and persistent
      tasks ([piece_lifecycle], [download_then_reuse], [persistent_task_restart],
      ..); listing and prefix deletion are exact ([get_tasks_complete],
      [delete_pieces_exact]), for which piece identifiers are unambiguous; upload
      counts are exact, except across a deletion ([upload_counts_exact],
      [upload_count_lost_on_delete]).
    - Pieces partition the content and cover a requested range, with the loops'
      termination ([calculate_interested_partition],
      [calculate_interested_range]) and their divergence on a zero length;
      resuming a download loses no piece ([remove_then_merge]); the
      floating-point piece length and count are what integer arithmetic gives.
    - The wire format: frames round-trip ([frames_roundtrip]), the reader accepts
      only what the writer writes ([read_frame_canonical]) and no truncated frame.
    - Concurrent downloads: what [download_piece_started] returns; without
      timeouts one task owns a piece ([single_downloader]) and finished pieces
      stay; what timeouts and the non-atomic guards allow
      ([two_downloaders_after_timeout], [finished_piece_erased]).
    - The facade: digest checks over streams and URMA, a mismatch poisons the
      cache, waiting, balanced upload counts, complete deletion.
    - The URMA buffers: the pool stays well formed under every call, with its
      leases owning their slots as long as no posted send fails or is rolled back
      ([pool_reachable_well_formed]); a lease returns as a whole or not at all
      ([recycle_all_or_nothing]); spans name exactly the received bytes; tokens
      and descriptors round-trip; lanes never go back ([lane_never_revives]).
    - The owner thread: every turn ends in a state that keeps the invariant of
      pool, router and lanes, whatever the device answers ([owner_turn_safe]); no
      admission permit is lost or made up ([fabric_permits_conserved]); an
      admitted window is served ([admitted_acquire_served]); a poisoned fabric
      refuses; a shutdown releases everything or keeps what is in use
      ([shutdown_releases_everything]).  Failed receives strand their lane, an
      idle owner does not poll, and a failed window blocks the shutdown
      ([failed_receive_strands_lane], [idle_owner_never_polls],
      [failed_window_blocks_shutdown]).
    - The sessions: the windows tile the piece ([windows_tile_piece]); chunks are
      put in order by their identity ([reorder_by_identity]); if the client gives
      delivered leases back, receiving a window ends, with its window or an abort
      whose books balance ([receive_window_ends]), and a download comes to its end
      ([download_completes]), while a client that keeps them all blocks the
      session ([kept_leases_block]); an uploader sends nothing but the plan
      ([uploader_sends_the_plan]); two peers always agree on the next window and
      both close the transfer ([peers_agree]).

    - A download that succeeds has shown every interested piece to its client,
      with the content of that piece in full when it is asked for
      ([download_shows_everything]); it succeeds whenever the source works and
      the scheduler closes its stream, whatever else the scheduler and the parents
      do ([download_survives]).  A scheduler that keeps its stream open makes it
      hang ([open_stream_hangs]).  On the
      storage facade this holds of the real piece manager
      ([storage_download_shows_everything]).  The parents of a piece are tried
      once each ([parents_tried_once]), the scheduler is asked a bounded number of
      times ([schedule_bounded]), and the books of the selector balance
      ([registrations_counted], [download_balances_selector]) unless a
      registration failed ([failed_registration_unbalances]) or came while
      another download cleaned the host up (second part of
      [registrations_counted]).
    - A download of a piece returns a piece that is finished on record, or
      releases its claim ([piece_download_outcome]); a failure over URMA keeps the
      claim for the fall-back ([urma_failure_keeps_claim]).
    - The collector yields a piece at most once and, when some parent has it, does
      yield it ([collected_at_most_once], [collector_completes]), except for a
      piece that waits for room when the last one is taken
      ([collected_piece_lost]).
    - Persistent tasks and their replication show everything too
      ([persistent_download_shows_everything]), although their download from the
      source under the scheduler looks for content in the wrong place
      ([scheduled_source_finishes_nothing]); a persistent cache task trusts
      pieces that are not finished ([cache_download_trusts_unfinished]).  An upload
      that succeeds has stored and reported everything, one that fails after it
      began to write has deleted it, if the database can, and reported the failure
      ([upload_outcome]), but a piece that is imported late can survive
      ([late_piece_survives]); without room on the disk the scheduler is left in doubt
      ([no_space_unreported]).
    - Files: the two writers of a range agree and what is written is read back
      ([writers_agree], [written_range_reads_back]).
    - Garbage collection: eviction by disk usage takes the oldest tasks that may go
      and no more than needed ([space_eviction_greedy]); the eviction by age does
      not spare uploads ([ttl_evicts_uploading]), and thresholds in the wrong
      order evict everything ([inverted_thresholds_evict_all]).
    - The rate limiter: its window is what the history of requests makes of it
      ([window_refines_history]), a request is refused exactly when the estimate,
      computed in floating point, says so ([acquire_decision]), the count of
      requests in flight is exact under every interleaving ([in_flight_exact]),
      and an estimate of zero refuses everything while the overload lasts
      ([zero_estimate_starves]).
    - The control dispatcher delivers frames to their transfer only
      ([transfers_isolated]), but a dropped transfer can close the lane
      ([dropped_transfer_race]).

    ** Conventions, bounds and fuel

    Machine integers are [Z] with the wrap-around of the release profile written
    out; a method is a state-passing function that returns a [result] and the
    state, also on errors.  A [None] of the monad [PR] is a panic or a wait that
    never ends, which the weakest preconditions [wp] exclude.  Waits without a
    timeout are not assumed to end: whether the scheduler closes its stream
    ([stream_closes]) and whether the client drops a lease ([awaited_lease]) are
    input, and what a theorem needs of them is among its hypotheses.  [Utc::now()] is the [n]-th reading of a
    clock.  The iteration order of a [HashMap] is any function on its keys.
    Loops that are not structural take fuel: the eviction loop of [put_task]
    needs one more than the number of cached tasks, the loops of
    [calculate_interested] one more than the number of pieces, the pipeline of a
    transfer one more than its depth, and the theorems prove these amounts are
    enough; the waiting loops of the storage wait for other tasks and have no
    such bound.  The polls a shutdown makes before its deadline are a list.
    The tasks of a [JoinSet] run one after the other in the order in which they
    complete, which is any order; the tasks of one that is dropped are aborted,
    but some may complete later ([late]).  The calls of the content of the storage
    and of the cache are single steps.  The registrations of the selector are
    taken apart into their accesses to the shared maps for the interleavings; the
    reader of the control dispatcher looks up a route and hands the frame over in
    one step.  A download that waits for pieces in flight is
    woken [wakes] times before the others are done, any number; sends to the
    client and to the scheduler fail or not as a function of their count.
    Sessions assume at most [2 ^ 32] chunks, beyond which [transfer_sequence]
    refuses.

    ** Not modelled

    The content files on disk (an interface of Storage), the gRPC services, the
    proxy, the command-line tools, the schedulers and announcers, back-ends,
    metrics, tracing, configuration and start-up, the TCP and QUIC transports,
    and of the URMA transport the native library
    (parameters of the model), the connection handshakes, the pools of connections
    and the transport-only test profile: they are input and output around the
    modelled code, or code that is not in the repository. *)

(** This file: machine integers, results, lists and the monads of the models. *)

From Stdlib Require Import ZArith Lia String Strings.Byte.
From stdpp Require Import base tactics list gmap strings pretty numbers.

Local Open Scope Z_scope.

(** ** Machine integers

    A [w]-bit unsigned Rust integer is a [Z] in [0, 2^w).  The release profile
    of the workspace ([src/Cargo.toml]) keeps Rust's default of wrapping on
    overflow, so [+], [-], [*] are written with their wrap-around; the
    [saturating_*] and [checked_*] methods have their own definitions. *)

Definition u_max (w : Z) : Z := 2 ^ w - 1.
Definition u_wrap (w z : Z) : Z := z mod 2 ^ w.
Definition u_in (w z : Z) : Prop := 0 ≤ z < 2 ^ w.

Definition u64_add (a b : Z) : Z := u_wrap 64 (a + b).
Definition u64_sub (a b : Z) : Z := u_wrap 64 (a - b).
Definition u64_mul (a b : Z) : Z := u_wrap 64 (a * b).

(** [u64::checked_add], [usize::checked_mul] on a 64-bit target. *)
Definition u64_checked_add (a b : Z) : option Z :=
  if decide (a + b ≤ u_max 64) then Some (a + b) else None.
Definition u64_checked_mul (a b : Z) : option Z :=
  if decide (a * b ≤ u_max 64) then Some (a * b) else None.

Lemma u64_checked_add_Some a b c : u64_checked_add a b = Some c → c = a + b.
Proof. unfold u64_checked_add. case_decide; congruence. Qed.
Lemma u64_checked_mul_Some a b c : u64_checked_mul a b = Some c → c = a * b.
Proof. unfold u64_checked_mul. case_decide; congruence. Qed.

(** Packing a low field of [n] bits under a high one. *)
Lemma lor_pack a b n : 0 ≤ n → 0 ≤ b < 2 ^ n → Z.lor (Z.shiftl a n) b = a * 2 ^ n + b.
Proof.
  intros Hn Hb. rewrite <- Z.shiftl_mul_pow2 by done.
  assert (Z.land (Z.shiftl a n) b = 0) as Hz.
  { apply Z.bits_inj'. intros i Hi. rewrite Z.land_spec, Z.bits_0.
    destruct (Z.lt_ge_cases i n) as [Hin|Hin]; [by rewrite Z.shiftl_spec_low|].
    rewrite <- (Z.mod_small b (2 ^ n)) by done. rewrite Z.mod_pow2_bits_high by lia. apply andb_false_r. }
  rewrite <- Z.lxor_lor by done. by rewrite Z.add_nocarry_lxor.
Qed.

Lemma pack_high a b n : 0 ≤ n → 0 ≤ b < 2 ^ n → Z.shiftr (a * 2 ^ n + b) n = a.
Proof.
  intros Hn Hb. assert (0 < 2 ^ n) by lia.
  rewrite Z.shiftr_div_pow2, Z.div_add_l, Z.div_small by lia. lia.
Qed.

Lemma pack_low a b n : 0 ≤ b < 2 ^ n → u_wrap n (a * 2 ^ n + b) = b.
Proof. intros Hb. unfold u_wrap. rewrite Z.add_comm, Z_mod_plus_full. by apply Z.mod_small. Qed.

Lemma u_wrap_small n a : 0 ≤ a < 2 ^ n → u_wrap n a = a.
Proof. apply Z.mod_small. Qed.

(** [i64] keeps its sign; addition wraps in two's complement and
    [saturating_sub] stops at [i64::MIN]. *)
Definition i64_min : Z := - 2 ^ 63.
Definition i64_max : Z := 2 ^ 63 - 1.
Definition i64_wrap (z : Z) : Z := (z + 2 ^ 63) mod 2 ^ 64 - 2 ^ 63.
Definition i64_add (a b : Z) : Z := i64_wrap (a + b).
Definition i64_sub (a b : Z) : Z := i64_wrap (a - b).
Definition i64_saturating_sub (a b : Z) : Z := Z.max i64_min (Z.min i64_max (a - b)).

(** [u64::div_ceil]; [None] is the division-by-zero panic. *)
Definition u64_div_ceil (a b : Z) : option Z :=
  if decide (b = 0) then None
  else Some (if decide (a mod b = 0) then a / b else a / b + 1).

Lemma u_wrap_id (w z : Z) : u_in w z → u_wrap w z = z.
Proof. unfold u_in, u_wrap. intros. by apply Z.mod_small. Qed.

Lemma u_wrap_in (w z : Z) : 0 ≤ w → u_in w (u_wrap w z).
Proof. intros. unfold u_in, u_wrap. apply Z.mod_pos_bound. lia. Qed.

Lemma u64_add_id (a b : Z) : u_in 64 (a + b) → u64_add a b = a + b.
Proof. apply u_wrap_id. Qed.

Lemma u64_sub_id (a b : Z) : u_in 64 (a - b) → u64_sub a b = a - b.
Proof. apply u_wrap_id. Qed.

Lemma u64_mul_id (a b : Z) : u_in 64 (a * b) → u64_mul a b = a * b.
Proof. apply u_wrap_id. Qed.

Lemma i64_wrap_id (z : Z) : i64_min ≤ z ≤ i64_max → i64_wrap z = z.
Proof. unfold i64_wrap, i64_min, i64_max. intros. rewrite Z.mod_small; lia. Qed.

Lemma u64_div_ceil_spec (a b q : Z) :
  0 ≤ a → 0 < b → u64_div_ceil a b = Some q → b * (q - 1) < a + (if decide (a = 0) then 1 else 0) ∧ a ≤ b * q.
Proof.
  unfold u64_div_ceil. intros Ha Hb. rewrite decide_False by lia. intros [= <-].
  pose proof (Z.div_mod a b ltac:(lia)). pose proof (Z.mod_pos_bound a b Hb).
  repeat case_decide; nia.
Qed.

#[global] Arguments u_wrap : simpl never.
#[global] Arguments u64_add : simpl never.
#[global] Arguments u64_sub : simpl never.
#[global] Arguments u64_mul : simpl never.
#[global] Arguments i64_wrap : simpl never.
#[global] Arguments i64_add : simpl never.
#[global] Arguments i64_sub : simpl never.

Create HintDb machine_int.
#[export] Hint Rewrite u64_add_id u64_sub_id u64_mul_id i64_wrap_id u_wrap_id
  using (unfold u_in in *; lia) : machine_int.

(** Decides the range side conditions of the machine-integer lemmas. *)
Ltac solve_range := unfold u_in, u_max, i64_min, i64_max in *; lia.

(** Replaces the wrapping operations whose operands are in range. *)
Ltac unwrap := autorewrite with machine_int in *.

(** ** Results

    [result E A] is Rust's [Result<A, E>]. *)

Inductive result (E A : Type) : Type :=
| Ok (a : A)
| Err (e : E).
Arguments Ok {E A} a.
Arguments Err {E A} e.

#[export] Instance result_mret {E} : MRet (result E) := λ A, Ok.
#[export] Instance result_mbind {E} : MBind (result E) :=
  λ A B f r, match r with Ok a => f a | Err e => Err e end.
#[export] Instance result_fmap {E} : FMap (result E) :=
  λ A B f r, match r with Ok a => Ok (f a) | Err e => Err e end.

Definition is_ok {E A} (r : result E A) : bool := if r is Ok _ then true else false.

(** [Option::ok_or]. *)
Definition ok_or {E A} (e : E) (o : option A) : result E A :=
  match o with Some a => Ok a | None => Err e end.

Lemma ok_or_Ok {E A} (e : E) (o : option A) a : ok_or e o = Ok a → o = Some a.
Proof. destruct o; simpl; congruence. Qed.

(** [iter.map(f).collect::<Result<Vec<_>>>()]: stops at the first error. *)
Fixpoint collect {E A B} (f : A → result E B) (l : list A) : result E (list B) :=
  match l with
  | [] => Ok []
  | x :: l => y ← f x; ys ← collect f l; Ok (y :: ys)
  end.

Lemma result_bind_Ok {E A B} (m : result E A) (f : A → result E B) (b : B) :
  (m ≫= f) = Ok b ↔ ∃ a, m = Ok a ∧ f a = Ok b.
Proof. destruct m; cbv [mbind result_mbind]; naive_solver. Qed.

Lemma collect_Ok {E A B} (f : A → result E B) (l : list A) (l' : list B) :
  collect f l = Ok l' ↔ Forall2 (λ x y, f x = Ok y) l l'.
Proof.
  revert l'. induction l as [|x l IH]; intros l'; simpl.
  - split; [intros [= <-]; constructor | by inversion 1].
  - rewrite result_bind_Ok. split.
    + intros (y & Hy & (ys & Hys & [= <-])%result_bind_Ok). constructor; [done|]. by apply IH.
    + inversion 1 as [|? y ? ys Hy Hys]; subst. exists y. split; [done|].
      apply result_bind_Ok. exists ys. split; [by apply IH | done].
Qed.

(** ** Lists *)
Lemma filter_all {A} (P : A → Prop) `{∀ x, Decision (P x)} (l : list A) :
  (∀ x, x ∈ l → P x) → filter P l = l.
Proof.
  induction l as [|x l IH]; intros HP; [done|].
  rewrite filter_cons_True by (apply HP; left). f_equal. apply IH. intros y Hy. apply HP. by right.
Qed.

(** ** The state and error monad

    [ST S E A] is a method of an object of type [S] returning
    [Result<A, E>].  As in Rust, an early return with an error keeps the
    mutations made before it: the final state is part of both outcomes. *)

Definition ST (S E A : Type) : Type := S → result E A * S.

#[export] Instance st_mret {S E} : MRet (ST S E) := λ A a s, (Ok a, s).
#[export] Instance st_mbind {S E} : MBind (ST S E) :=
  λ A B f m s, match m s with
               | (Ok a, s') => f a s'
               | (Err e, s') => (Err e, s')
               end.

(** [return Err(e)]. *)
Definition throw {S E A} (e : E) : ST S E A := λ s, (Err e, s).
(** The [?] operator on a result that does not touch the state. *)
Definition lift {S E A} (r : result E A) : ST S E A := λ s, (r, s).
(** A read of the state. *)
Definition gets {S E A} (f : S → A) : ST S E A := λ s, (Ok (f s), s).
(** A fallible read of the state. *)
Definition reads {S E A} (f : S → result E A) : ST S E A := λ s, (f s, s).
(** An infallible update of the state. *)
Definition modify {S E} (f : S → S) : ST S E unit := λ s, (Ok tt, f s).
(** [m.inspect_err(|_| h)]. *)
Definition inspect_err {S E A} (h : S → S) (m : ST S E A) : ST S E A :=
  λ s, match m s with (Ok a, s') => (Ok a, s') | (Err e, s') => (Err e, h s') end.
(** [m.unwrap_or_else(|err| log)] on a unit result: errors are only logged. *)
Definition ignore_err {S E} (m : ST S E unit) : ST S E unit := λ s, (Ok tt, (m s).2).
(** The result of [m] as a value, for [match m { Ok .. Err .. }]. *)
Definition catch {S E A} (m : ST S E A) : ST S E (result E A) :=
  λ s, let '(r, s') := m s in (Ok r, s').
(** Runs a method of a sub-object. *)
Definition zoom {S T E A} (get : S → T) (set : T → S → S) (m : ST T E A) : ST S E A :=
  λ s, let '(r, t) := m (get s) in (r, set t s).

Lemma st_bind_Ok {S E A B} (m : ST S E A) (f : A → ST S E B) (s s' : S) (b : B) :
  (m ≫= f) s = (Ok b, s') ↔ ∃ a s1, m s = (Ok a, s1) ∧ f a s1 = (Ok b, s').
Proof. cbv [mbind st_mbind]. destruct (m s) as [[a|e] s1]; naive_solver. Qed.

Lemma st_bind_Err {S E A B} (m : ST S E A) (f : A → ST S E B) (s s' : S) (e : E) :
  (m ≫= f) s = (Err e, s') ↔
    m s = (Err e, s') ∨ ∃ a s1, m s = (Ok a, s1) ∧ f a s1 = (Err e, s').
Proof. cbv [mbind st_mbind]. destruct (m s) as [[a|e'] s1]; naive_solver. Qed.

(** Invariant reasoning on monadic code: [m] keeps [P]. *)
Definition keeps {S E A} (P : S → Prop) (m : ST S E A) : Prop :=
  ∀ s, P s → P (m s).2.

Section keeps.
Context {S E : Type} (P : S → Prop).

Lemma keeps_bind {A B} (m : ST S E A) (f : A → ST S E B) :
  keeps P m → (∀ a, keeps P (f a)) → keeps P (m ≫= f).
Proof.
  intros Hm Hf s Hs. cbv [mbind st_mbind]. specialize (Hm s Hs).
  destruct (m s) as [[a|e] s1]; simpl in *; [by apply Hf | done].
Qed.
Lemma keeps_ret {A} (a : A) : keeps P (mret a : ST S E A).
Proof. by intros s. Qed.
Lemma keeps_throw {A} (e : E) : keeps P (throw e : ST S E A).
Proof. by intros s. Qed.
Lemma keeps_lift {A} (r : result E A) : keeps P (lift r : ST S E A).
Proof. by intros s. Qed.
Lemma keeps_gets {A} (f : S → A) : keeps P (gets f : ST S E A).
Proof. by intros s. Qed.
Lemma keeps_reads {A} (f : S → result E A) : keeps P (reads f).
Proof. by intros s. Qed.
Lemma keeps_modify (f : S → S) : (∀ s, P s → P (f s)) → keeps P (modify f : ST S E unit).
Proof. intros H s Hs. by apply H. Qed.
Lemma keeps_ignore_err (m : ST S E unit) : keeps P m → keeps P (ignore_err m).
Proof. intros H s Hs. by apply H. Qed.
Lemma keeps_catch {A} (m : ST S E A) : keeps P m → keeps P (catch m).
Proof. intros H s Hs. specialize (H s Hs). unfold catch. by destruct (m s). Qed.
Lemma keeps_inspect_err {A} (h : S → S) (m : ST S E A) :
  keeps P m → (∀ s, P s → P (h s)) → keeps P (inspect_err h m).
Proof.
  intros Hm Hh s Hs. specialize (Hm s Hs). unfold inspect_err.
  destruct (m s) as [[a|e] s1]; simpl in *; auto.
Qed.
End keeps.

Create HintDb keeps.
#[export] Hint Resolve keeps_bind keeps_ret keeps_throw keeps_lift keeps_gets keeps_reads
  keeps_modify keeps_ignore_err keeps_catch keeps_inspect_err : keeps.

(** ** Partial state passing

    [UB S A] is a computation that may not return: [None] is undefined
    behaviour (dereferencing a pointer to a box that is not live) or a panic. *)

Definition UB (S A : Type) : Type := S → option (A * S).

#[export] Instance ub_mret {S} : MRet (UB S) := λ A a s, Some (a, s).
#[export] Instance ub_mbind {S} : MBind (UB S) :=
  λ A B f m s, match m s with Some (a, s') => f a s' | None => None end.

Definition ub_gets {S A} (f : S → A) : UB S A := λ s, Some (f s, s).
Definition ub_modify {S} (f : S → S) : UB S unit := λ s, Some (tt, f s).

(** A panic when there is no value. *)
Definition ub_some {S A} (o : option A) : UB S A := λ s, (λ a, (a, s)) <$> o.

Lemma ub_bind_Some {S A B} (m : UB S A) (f : A → UB S B) (s s1 : S) (a : A) :
  m s = Some (a, s1) → (m ≫= f) s = f a s1.
Proof. intros H. cbv [mbind ub_mbind]. by rewrite H. Qed.

(** ** Fallible computations that may panic

    [PR S E A] is a method returning [Result<A, E>] that may also panic
    ([expect], an index out of range): [None] is the panic. *)

Definition PR (S E A : Type) : Type := S → option (result E A * S).

#[global] Typeclasses Opaque PR.

#[export] Instance pr_mret {S E} : MRet (PR S E) := λ A a s, Some (Ok a, s).
#[export] Instance pr_mbind {S E} : MBind (PR S E) :=
  λ A B f m s, match m s with
               | Some (Ok a, s') => f a s'
               | Some (Err e, s') => Some (Err e, s')
               | None => None
               end.

Definition pr_throw {S E A} (e : E) : PR S E A := λ s, Some (Err e, s).
Definition pr_lift {S E A} (r : result E A) : PR S E A := λ s, Some (r, s).
Definition pr_gets {S E A} (f : S → A) : PR S E A := λ s, Some (Ok (f s), s).
Definition pr_modify {S E} (f : S → S) : PR S E unit := λ s, Some (Ok tt, f s).
(** [o.expect(..)]. *)
Definition pr_expect {S E A} (o : option A) : PR S E A := λ s, (λ a, (Ok a, s)) <$> o.
(** [if b { return Err(e) }]. *)
Definition pr_guard {S E} (b : bool) (e : E) : PR S E unit := if b then pr_throw e else mret tt.
(** The result as a value. *)
Definition pr_catch {S E A} (m : PR S E A) : PR S E (result E A) :=
  λ s, match m s with Some (r, s') => Some (Ok r, s') | None => None end.
(** A method of a sub-object. *)
Definition pr_zoom {S T E A} (get : S → T) (set : T → S → S) (m : PR T E A) : PR S E A :=
  λ s, match m (get s) with Some (r, t) => Some (r, set t s) | None => None end.
(** [for x in l { f(x)?; }]. *)
Fixpoint pr_for {S E X} (f : X → PR S E unit) (l : list X) : PR S E unit :=
  match l with
  | [] => mret tt
  | x :: l => _ ← f x; pr_for f l
  end.

(** The weakest precondition: [m] does not panic, and its outcome satisfies [Q]. *)
Definition wp {S E A} (m : PR S E A) (Q : result E A → S → Prop) (s : S) : Prop :=
  match m s with Some (r, s') => Q r s' | None => False end.

Section wp.
Context {S E : Type}.

Lemma wp_bind {A B} (m : PR S E A) (f : A → PR S E B) Q s :
  wp m (λ r s', match r with Ok a => wp (f a) Q s' | Err e => Q (Err e) s' end) s →
  wp (m ≫= f) Q s.
Proof. unfold wp. cbv [mbind pr_mbind]. by destruct (m s) as [[[a|e] s']|]. Qed.

Lemma wp_mono {A} (m : PR S E A) (Q Q' : result E A → S → Prop) s :
  wp m Q s → (∀ r s', Q r s' → Q' r s') → wp m Q' s.
Proof. unfold wp. destruct (m s) as [[r s']|]; auto. Qed.

Lemma wp_and {A} (m : PR S E A) (Q Q' : result E A → S → Prop) s :
  wp m Q s → wp m Q' s → wp m (λ r s', Q r s' ∧ Q' r s') s.
Proof. unfold wp. destruct (m s) as [[r s']|]; auto. Qed.

Lemma wp_run {A} (m : PR S E A) (Q : result E A → S → Prop) s r s' :
  wp m Q s → m s = Some (r, s') → Q r s'.
Proof. unfold wp. intros H Hm. by rewrite Hm in H. Qed.

Lemma wp_catch {A} (m : PR S E A) (Q : result E (result E A) → S → Prop) s :
  wp m (λ r s', Q (Ok r) s') s → wp (pr_catch m) Q s.
Proof. unfold wp, pr_catch. by destruct (m s) as [[r s']|]. Qed.

Lemma wp_zoom {T A} (get : S → T) (set : T → S → S) (m : PR T E A) Q s :
  wp m (λ r t, Q r (set t s)) (get s) → wp (pr_zoom get set m) Q s.
Proof. unfold wp, pr_zoom. by destruct (m (get s)) as [[r t]|]. Qed.

(** A loop keeps an invariant that every iteration keeps. *)
Lemma wp_for {X} (f : X → PR S E unit) (l : list X) (I : S → Prop) (Qe : E → S → Prop) s :
  I s →
  (∀ x s, x ∈ l → I s → wp (f x) (λ r s', match r with Ok _ => I s' | Err e => Qe e s' end) s) →
  wp (pr_for f l) (λ r s', match r with Ok _ => I s' | Err e => Qe e s' end) s.
Proof.
  intros Hs Hf. induction l as [|x l IH] in s, Hs, Hf |- *; [done|]. simpl. apply wp_bind.
  eapply wp_mono; [apply Hf; [by left | done]|]. intros [[]|e] s' H; [|done].
  apply IH; [done|]. intros. apply Hf; [by right | done].
Qed.

(** A loop of checks changes nothing and passes when every check does. *)
Lemma wp_checks {X} (f : X → PR S E unit) (P : X → Prop) (l : list X) s :
  (∀ x, x ∈ l → wp (f x) (λ r s', s' = s ∧ match r with Ok _ => P x | Err _ => ¬ P x end) s) →
  wp (pr_for f l) (λ r s', s' = s ∧
    match r with Ok _ => ∀ x, x ∈ l → P x | Err _ => ¬ ∀ x, x ∈ l → P x end) s.
Proof.
  intros Hf. induction l as [|x l IH]; simpl; [split; [done|]; by intros ? ?%not_elem_of_nil|].
  apply wp_bind. eapply wp_mono; [apply Hf; by left|]. intros [[]|e] s' [-> Hx].
  - eapply wp_mono; [apply IH; intros; apply Hf; by right|]. intros [[]|e] s' [-> Hl]; split; try done.
    + by intros y [->|Hy]%elem_of_cons; auto.
    + intros Hall. apply Hl. intros. apply Hall. by right.
  - split; [done|]. intros Hall. apply Hx, Hall. by left.
Qed.

(** A loop over calls of a sub-object is a call of the loop. *)
Lemma wp_for_zoom {T X} (get : S → T) (set : T → S → S) (f : X → PR T E unit) (l : list X) Q s :
  (∀ s, set (get s) s = s) → (∀ t s, get (set t s) = t) → (∀ t t' s, set t' (set t s) = set t' s) →
  wp (pr_for f l) (λ r t, Q r (set t s)) (get s) →
  wp (pr_for (λ x, pr_zoom get set (f x)) l) Q s.
Proof.
  intros Hgs Hsg Hss. induction l as [|x l IH] in s, Q |- *; simpl.
  - unfold wp. simpl. by rewrite Hgs.
  - intros Hw. apply wp_bind, wp_zoom. unfold wp in Hw |- * at 1. cbv [mbind pr_mbind] in Hw.
    destruct (f x (get s)) as [[[[]|e] t]|]; [|done|done]. apply IH. rewrite Hsg.
    unfold wp. destruct (pr_for f l t) as [[r t']|]; [|done]. by rewrite Hss.
Qed.

(** The steps that need no specification of their own. *)
Lemma wp_bind_gets {A B} (f : S → A) (k : A → PR S E B) Q s :
  wp (k (f s)) Q s → wp (pr_gets f ≫= k) Q s.
Proof. done. Qed.
Lemma wp_bind_modify {B} (f : S → S) (k : unit → PR S E B) Q s :
  wp (k tt) Q (f s) → wp (pr_modify f ≫= k) Q s.
Proof. done. Qed.
Lemma wp_bind_lift {A B} (r : result E A) (k : A → PR S E B) Q s :
  (∀ a, r = Ok a → wp (k a) Q s) → (∀ e, r = Err e → Q (Err e) s) → wp (pr_lift r ≫= k) Q s.
Proof. intros Hok He. destruct r; [by apply Hok | by apply He]. Qed.
Lemma wp_bind_guard {B} (b : bool) e (k : unit → PR S E B) Q s :
  (b = true → Q (Err e) s) → (b = false → wp (k tt) Q s) → wp (pr_guard b e ≫= k) Q s.
Proof. intros Ht Hf. destruct b; [by apply Ht | by apply Hf]. Qed.
Lemma wp_bind_catch {A B} (m : PR S E A) (k : result E A → PR S E B) Q s :
  wp m (λ r s', wp (k r) Q s') s → wp (pr_catch m ≫= k) Q s.
Proof. intros Hm. apply wp_bind, wp_catch. exact Hm. Qed.
End wp.

(** ** Frames: what a computation never changes

    [respects R m]: every run of [m] relates the states before and after by [R],
    whatever [m] returns. *)

Definition respects {S E A} (R : S → S → Prop) (m : PR S E A) : Prop :=
  ∀ s r s', m s = Some (r, s') → R s s'.

Create HintDb respects.

Section respects.
Context {S E : Type} (R : S → S → Prop) `{!PreOrder R}.

Lemma respects_id {A} (m : PR S E A) : (∀ s r s', m s = Some (r, s') → s' = s) → respects R m.
Proof. intros Hm s r s' Hs. rewrite (Hm _ _ _ Hs). reflexivity. Qed.
Lemma respects_ret {A} (a : A) : respects R (mret (M := PR S E) a).
Proof. apply respects_id. by intros s r s' [= _ <-]. Qed.
Lemma respects_throw {A} (e : E) : respects (A := A) R (pr_throw e).
Proof. apply respects_id. by intros s r s' [= _ <-]. Qed.
Lemma respects_lift {A} (x : result E A) : respects R (pr_lift (S := S) x).
Proof. apply respects_id. by intros s r s' [= _ <-]. Qed.
Lemma respects_gets {A} (f : S → A) : respects R (pr_gets (E := E) f).
Proof. apply respects_id. by intros s r s' [= _ <-]. Qed.
Lemma respects_expect {A} (o : option A) : respects R (pr_expect (S := S) (E := E) o).
Proof. apply respects_id. intros s r s'. unfold pr_expect. destruct o; simpl; congruence. Qed.
Lemma respects_guard (b : bool) (e : E) : respects R (pr_guard (S := S) b e).
Proof. destruct b; [apply respects_throw|apply respects_ret]. Qed.
Lemma respects_modify (f : S → S) : (∀ s, R s (f s)) → respects R (pr_modify (E := E) f).
Proof. intros Hf s r s' [= _ <-]. apply Hf. Qed.
Lemma respects_bind {A B} (m : PR S E A) (f : A → PR S E B) :
  respects R m → (∀ a, respects R (f a)) → respects R (m ≫= f).
Proof.
  intros Hm Hf s r s'. cbv [mbind pr_mbind]. destruct (m s) as [[[a|e] s1]|] eqn:Hs; [| |done].
  - intros Hr. etrans; [by eapply Hm|by eapply Hf].
  - intros [= _ <-]. by eapply Hm.
Qed.
Lemma respects_catch {A} (m : PR S E A) : respects R m → respects R (pr_catch m).
Proof.
  intros Hm s r s'. unfold pr_catch. destruct (m s) as [[r0 s1]|] eqn:Hs; [|done].
  intros [= _ <-]. by eapply Hm.
Qed.
Lemma respects_for {X} (f : X → PR S E unit) (l : list X) :
  (∀ x, respects R (f x)) → respects R (pr_for f l).
Proof.
  intros Hf. induction l as [|x l IH]; simpl; [apply respects_ret|].
  by apply respects_bind.
Qed.
Lemma wp_respects {A} (m : PR S E A) Q s : respects R m → wp m Q s → wp m (λ r s', Q r s' ∧ R s s') s.
Proof. unfold wp. intros Hm. destruct (m s) as [[r s']|] eqn:Hs; [|done]. split; [done|]. by eapply Hm. Qed.
End respects.

Lemma respects_zoom {S T E A} (R : S → S → Prop) (R' : T → T → Prop) (get : S → T) (set : T → S → S)
    (m : PR T E A) :
  (∀ s t, R' (get s) t → R s (set t s)) → respects R' m → respects R (pr_zoom get set m).
Proof.
  intros Hset Hm s r s'. unfold pr_zoom. destruct (m (get s)) as [[r0 t]|] eqn:Hs; [|done].
  intros [= _ <-]. by eapply Hset, Hm.
Qed.

(** Walks through a computation; the facts of its parts are hints. *)
Ltac respects_step :=
  lazymatch goal with
  | |- ∀ _, _ => intros ?
  | |- PreOrder _ => exact _
  | |- respects _ (mret _) => apply respects_ret
  | |- respects _ (pr_throw _) => apply respects_throw
  | |- respects _ (pr_lift _) => apply respects_lift
  | |- respects _ (pr_gets _) => apply respects_gets
  | |- respects _ (pr_expect _) => apply respects_expect
  | |- respects _ (pr_guard _ _) => apply respects_guard
  | |- respects _ (_ ≫= _) => apply respects_bind
  | |- respects _ (pr_catch _) => apply respects_catch
  | |- respects _ (pr_for _ _) => apply respects_for
  | |- respects _ (match _ with _ => _ end) => case_match
  | |- _ => solve [auto 2 with respects nocore]
  end.
Ltac respects := repeat respects_step.
