(* ===== verification/LruCache.v ===== *)
(** * The least recently used cache

    Models [src/dragonfly-client-storage/src/cache/lru_cache.rs].  The entries
    are boxes in a heap, linked by raw [prev]/[next] pointers; the hash map
    owns the boxes.  Every dereference of a raw pointer is checked: a pointer
    to a freed box is undefined behaviour ([None]).  The refinement theorems
    show that no operation reaches undefined behaviour and that each one
    computes the textbook operation on a recency-ordered list. *)

From S2P Require Import Prelude.
From Stdlib Require Import ZArith Lia.
From stdpp Require Import base tactics list gmap strings.
Local Open Scope Z_scope.

Module Lru.
Section lru.
Context {K : Type} `{Countable K} {V : Type}.

(** Addresses of boxes. *)
Abbreviation addr := positive.

(** [struct Entry<K, V>]. *)
Record Entry := mkEntry {
  key : K;
  value : V;
  prev : option addr;
  next : option addr;
}.

(** [Entry::new]. *)
Definition Entry_new (k : K) (v : V) : Entry :=
  {| key := k; value := v; prev := None; next := None |}.

(** [struct LruCache<K, V>].  [map] sends a key (compared through [KeyRef])
    to the box it owns; [heap] holds the live boxes. *)
Record LruCache := mkLru {
  capacity : Z;
  map : gmap K addr;
  head : option addr;
  tail : option addr;
  heap : gmap addr Entry;
}.

Definition set_prev (p : option addr) (e : Entry) : Entry :=
  {| key := key e; value := value e; prev := p; next := next e |}.
Definition set_next (n : option addr) (e : Entry) : Entry :=
  {| key := key e; value := value e; prev := prev e; next := n |}.
Definition set_value (v : V) (e : Entry) : Entry :=
  {| key := key e; value := v; prev := prev e; next := next e |}.

Definition set_map (m : gmap K addr) (s : LruCache) : LruCache :=
  {| capacity := capacity s; map := m; head := head s; tail := tail s; heap := heap s |}.
Definition set_head (h : option addr) (s : LruCache) : LruCache :=
  {| capacity := capacity s; map := map s; head := h; tail := tail s; heap := heap s |}.
Definition set_tail (t : option addr) (s : LruCache) : LruCache :=
  {| capacity := capacity s; map := map s; head := head s; tail := t; heap := heap s |}.
Definition set_heap (h : gmap addr Entry) (s : LruCache) : LruCache :=
  {| capacity := capacity s; map := map s; head := head s; tail := tail s; heap := h |}.

(** [*a] for reading. *)
Definition deref (a : addr) : UB LruCache Entry :=
  λ s, e ← heap s !! a; Some (e, s).

(** [*a] for writing a field. *)
Definition write (a : addr) (f : Entry → Entry) : UB LruCache unit :=
  λ s, e ← heap s !! a; Some (tt, set_heap (<[a := f e]> (heap s)) s).

(** [Box::new] followed by [Box::into_raw]. *)
Definition alloc (e : Entry) : UB LruCache addr :=
  λ s, let a := fresh (dom (heap s)) in Some (a, set_heap (<[a := e]> (heap s)) s).

(** Dropping a box, moving its entry out. *)
Definition free (a : addr) : UB LruCache Entry :=
  λ s, e ← heap s !! a; Some (e, set_heap (delete a (heap s)) s).

(** [LruCache::new]. *)
Definition new (cap : Z) : LruCache :=
  {| capacity := cap; map := ∅; head := None; tail := None; heap := ∅ |}.

(** [LruCache::detach]. *)
Definition detach (entry : addr) : UB LruCache unit :=
  e ← deref entry;
  let p := prev e in
  let n := next e in
  _ ← match p with
      | Some p => write p (set_next n)
      | None => ub_modify (set_head n)
      end;
  _ ← match n with
      | Some n => write n (set_prev p)
      | None => ub_modify (set_tail p)
      end;
  _ ← write entry (set_prev None);
  write entry (set_next None).

(** [LruCache::attach]. *)
Definition attach (entry : addr) : UB LruCache unit :=
  h ← ub_gets head;
  match h with
  | Some h =>
      _ ← write entry (set_next (Some h));
      _ ← write h (set_prev (Some entry));
      ub_modify (set_head (Some entry))
  | None =>
      _ ← ub_modify (set_head (Some entry));
      ub_modify (set_tail (Some entry))
  end.

(** [LruCache::get]. *)
Definition get (k : K) : UB LruCache (option V) :=
  m ← ub_gets map;
  match m !! k with
  | Some entry =>
      _ ← detach entry;
      _ ← attach entry;
      e ← deref entry;
      mret (Some (value e))
  | None => mret None
  end.

(** [self.map.remove(k)]: the box leaves the map and is returned by value. *)
Definition map_remove (k : K) : UB LruCache (option addr) :=
  m ← ub_gets map;
  _ ← ub_modify (set_map (delete k m));
  mret (m !! k).

(** [LruCache::put]. *)
Definition put (k : K) (v : V) : UB LruCache (option V) :=
  m ← ub_gets map;
  match m !! k with
  | Some existing_entry =>
      e ← deref existing_entry;
      _ ← write existing_entry (set_value v);
      _ ← detach existing_entry;
      _ ← attach existing_entry;
      mret (Some (value e))
  | None =>
      cap ← ub_gets capacity;
      evicted_value ←
        (if decide (cap ≤ Z.of_nat (size m)) then
           t ← ub_gets tail;
           match t with
           | Some t =>
               _ ← detach t;
               te ← deref t;
               removed ← map_remove (key te);
               match removed with
               | Some b => entry ← free b; mret (Some (value entry))
               | None => mret None
               end
           | None => mret None
           end
         else mret None);
      entry_ptr ← alloc (Entry_new k v);
      _ ← attach entry_ptr;
      m ← ub_gets map;
      _ ← ub_modify (set_map (<[k := entry_ptr]> m));
      mret evicted_value
  end.

(** [LruCache::contains]. *)
Definition contains (k : K) (s : LruCache) : bool := bool_decide (is_Some (map s !! k)).

(** [LruCache::peek]. *)
Definition peek (k : K) : UB LruCache (option V) :=
  m ← ub_gets map;
  match m !! k with
  | Some entry => e ← deref entry; mret (Some (value e))
  | None => mret None
  end.

(** [LruCache::is_empty]. *)
Definition is_empty (s : LruCache) : bool := bool_decide (map s = ∅).

(** [LruCache::pop_lru]. *)
Definition pop_lru : UB LruCache (option (K * V)) :=
  empty ← ub_gets is_empty;
  if (empty : bool) then mret None
  else
    t ← ub_gets tail;
    match t with
    | None => mret None
    | Some t =>
        _ ← detach t;
        te ← deref t;
        removed ← map_remove (key te);
        match removed with
        | Some b => entry ← free b; mret (Some (key entry, value entry))
        | None => mret None
        end
    end.

(** [LruCache::pop]. *)
Definition pop (k : K) : UB LruCache (option (K * V)) :=
  removed ← map_remove k;
  match removed with
  | None => mret None
  | Some entry_ptr =>
      _ ← detach entry_ptr;
      entry ← free entry_ptr;
      mret (Some (key entry, value entry))
  end.

(** [Drop for LruCache]: clearing the map drops the boxes it owns. *)
Definition drop (s : LruCache) : LruCache :=
  {| capacity := capacity s; map := ∅; head := None; tail := None;
     heap := foldr delete (heap s) (map_to_list (map s)).*2 |}.

(** ** The reference behaviour: a recency list, most recent first *)

Definition remove_key (k : K) (l : list (K * V)) : list (K * V) :=
  filter (λ p, p.1 ≠ k) l.

Fixpoint find_key (k : K) (l : list (K * V)) : option V :=
  match l with
  | [] => None
  | (k', v) :: l => if decide (k' = k) then Some v else find_key k l
  end.

Definition spec_get (k : K) (l : list (K * V)) : option V * list (K * V) :=
  match find_key k l with
  | Some v => (Some v, (k, v) :: remove_key k l)
  | None => (None, l)
  end.

(** The list without its last element, and that element. *)
Fixpoint split_last {A} (l : list A) : option (list A * A) :=
  match l with
  | [] => None
  | [x] => Some ([], x)
  | x :: l => '(l', y) ← split_last l; Some (x :: l', y)
  end.

Definition spec_pop_lru (l : list (K * V)) : option (K * V) * list (K * V) :=
  match split_last l with
  | Some (l', p) => (Some p, l')
  | None => (None, [])
  end.

Definition spec_put (cap : Z) (k : K) (v : V) (l : list (K * V)) : option V * list (K * V) :=
  match find_key k l with
  | Some old => (Some old, (k, v) :: remove_key k l)
  | None =>
      if decide (cap ≤ Z.of_nat (length l)) then
        let '(evicted, l') := spec_pop_lru l in (snd <$> evicted, (k, v) :: l')
      else (None, (k, v) :: l)
  end.

Definition spec_pop (k : K) (l : list (K * V)) : option (K * V) * list (K * V) :=
  match find_key k l with
  | Some v => (Some (k, v), remove_key k l)
  | None => (None, l)
  end.

(** ** The representation invariant

    A node is an address with the key and value stored there. *)

Abbreviation node := (addr * (K * V))%type.

Definition first_or (ns : list node) (d : option addr) : option addr :=
  match ns with [] => d | n :: _ => Some n.1 end.
Fixpoint last_or (d : option addr) (ns : list node) : option addr :=
  match ns with [] => d | n :: ns => last_or (Some n.1) ns end.

(** The entries of [ns] are linked from [p] to [nx]. *)
Fixpoint dseg (h : gmap addr Entry) (p : option addr) (ns : list node) (nx : option addr) : Prop :=
  match ns with
  | [] => True
  | n :: ns =>
      h !! n.1 = Some {| key := n.2.1; value := n.2.2; prev := p; next := first_or ns nx |} ∧
      dseg h (Some n.1) ns nx
  end.

(** The list threaded through [head] and [tail]. *)
Record dll (s : LruCache) (ns : list node) : Prop := {
  dll_nodup : NoDup ns.*1;
  dll_seg : dseg (heap s) None ns None;
  dll_head : head s = first_or ns None;
  dll_tail : tail s = last_or None ns;
}.

(** The whole object: the list, the map, and no live box outside the list. *)
Record repr (s : LruCache) (ns : list node) : Prop := {
  repr_dll : dll s ns;
  repr_keys : NoDup ns.*2.*1;
  repr_map : ∀ k a, map s !! k = Some a ↔ ∃ v, (a, (k, v)) ∈ ns;
  repr_heap : ∀ a, is_Some (heap s !! a) ↔ a ∈ ns.*1;
}.

(** [s] represents the recency list [l]. *)
Definition represents (s : LruCache) (l : list (K * V)) : Prop :=
  ∃ ns, repr s ns ∧ ns.*2 = l.

(** *** Linked segments *)
Lemma last_or_app d l1 l2 : last_or d (l1 ++ l2) = last_or (last_or d l1) l2.
Proof. revert d. induction l1; intros d; simpl; auto. Qed.

Lemma first_or_app l1 l2 d : first_or (l1 ++ l2) d = first_or l1 (first_or l2 d).
Proof. by destruct l1. Qed.

Lemma dseg_app h p l1 l2 nx :
  dseg h p (l1 ++ l2) nx ↔ dseg h p l1 (first_or l2 nx) ∧ dseg h (last_or p l1) l2 nx.
Proof.
  revert p. induction l1 as [|n l1 IH]; intros p; simpl; [naive_solver|].
  rewrite IH, first_or_app. naive_solver.
Qed.

Lemma dseg_frame h a e p ns nx :
  a ∉ ns.*1 → dseg h p ns nx → dseg (<[a := e]> h) p ns nx.
Proof.
  revert p. induction ns as [|n ns IH]; intros p; simpl; [done|].
  rewrite not_elem_of_cons. intros [Hne Hni] [Hn Hns].
  split; [by rewrite lookup_insert_ne by done | by apply IH].
Qed.

Lemma dseg_frame_delete h a p ns nx :
  a ∉ ns.*1 → dseg h p ns nx → dseg (delete a h) p ns nx.
Proof.
  revert p. induction ns as [|n ns IH]; intros p; simpl; [done|].
  rewrite not_elem_of_cons. intros [Hne Hni] [Hn Hns].
  split; [by rewrite lookup_delete_ne by done | by apply IH].
Qed.

Lemma dseg_lookup h p ns nx n :
  n ∈ ns → dseg h p ns nx → ∃ e, h !! n.1 = Some e ∧ key e = n.2.1 ∧ value e = n.2.2.
Proof.
  intros Hin. revert p. induction Hin as [n ns | n m ns Hin IH]; intros p [Hn Hns]; [|by eapply IH].
  eexists. split; [exact Hn | done].
Qed.

(** Rewiring the outgoing pointer of a segment. *)
Lemma dseg_set_next h p ns m nx nx' :
  NoDup (ns ++ [m]).*1 → dseg h p (ns ++ [m]) nx →
  ∃ e, h !! m.1 = Some e ∧ dseg (<[m.1 := set_next nx' e]> h) p (ns ++ [m]) nx'.
Proof.
  rewrite fmap_app, NoDup_app. intros (Hns & Hdisj & _) [Hl [Hm _]]%dseg_app.
  eexists. split; [exact Hm|]. apply dseg_app. simpl. split.
  - apply dseg_frame; [|exact Hl]. intros Hin. apply (Hdisj _ Hin). simpl. by left.
  - by rewrite lookup_insert_eq.
Qed.

(** Rewiring the incoming pointer of a segment. *)
Lemma dseg_set_prev h p p' m ns nx :
  NoDup (m :: ns).*1 → dseg h p (m :: ns) nx →
  ∃ e, h !! m.1 = Some e ∧ dseg (<[m.1 := set_prev p' e]> h) p' (m :: ns) nx.
Proof.
  simpl. rewrite NoDup_cons. intros [Hni _] [Hm Hns].
  eexists. split; [exact Hm|]. split; [by rewrite lookup_insert_eq|].
  by apply dseg_frame.
Qed.

(** *** Single steps *)
Lemma write_step a f s e :
  heap s !! a = Some e → write a f s = Some (tt, set_heap (<[a := f e]> (heap s)) s).
Proof. unfold write. by intros ->. Qed.

Lemma deref_step a s e : heap s !! a = Some e → deref a s = Some (e, s).
Proof. unfold deref. by intros ->. Qed.

Lemma free_step a s e :
  heap s !! a = Some e → free a s = Some (e, set_heap (delete a (heap s)) s).
Proof. unfold free. by intros ->. Qed.

(** What the pointer surgery leaves alone. *)
Record frame (s s' : LruCache) : Prop := {
  frame_map : map s' = map s;
  frame_capacity : capacity s' = capacity s;
  frame_dom : ∀ a, is_Some (heap s' !! a) ↔ is_Some (heap s !! a);
}.

Lemma frame_trans s1 s2 s3 : frame s1 s2 → frame s2 s3 → frame s1 s3.
Proof. intros [] []. constructor; [congruence..|naive_solver]. Qed.

Lemma frame_write s a e e' :
  heap s !! a = Some e → frame s (set_heap (<[a := e']> (heap s)) s).
Proof.
  intros Ha. constructor; [done..|]. intros b. simpl.
  rewrite lookup_insert_is_Some'. naive_solver.
Qed.

Lemma detach_prev_step s l1 n l2 :
  dll s (l1 ++ n :: l2) →
  ∃ s1, (match last_or None l1 with
         | Some p => write p (set_next (first_or l2 None))
         | None => ub_modify (set_head (first_or l2 None))
         end) s = Some (tt, s1) ∧
    dseg (heap s1) None l1 (first_or l2 None) ∧ dseg (heap s1) (Some n.1) l2 None ∧
    heap s1 !! n.1 = heap s !! n.1 ∧ head s1 = first_or (l1 ++ l2) None ∧
    tail s1 = tail s ∧ frame s s1.
Proof.
  intros [Hnd Hseg Hh Ht]. apply dseg_app in Hseg as [Hl1 [Hn Hl2]].
  rewrite fmap_app, fmap_cons in Hnd. apply NoDup_app in Hnd as (Hnd1 & Hdisj & Hnd2).
  destruct l1 as [|p l1 _] using rev_ind; simpl in *.
  { eexists. split; [done|]. repeat split; naive_solver. }
  rewrite last_or_app. simpl.
  destruct (dseg_set_next _ _ _ _ _ (first_or l2 None) Hnd1 Hl1) as (e & He & Hl1').
  assert (p.1 ∈ (l1 ++ [p]).*1) as Hp.
  { rewrite fmap_app. apply elem_of_app. right. simpl. by left. }
  specialize (Hdisj _ Hp). apply not_elem_of_cons in Hdisj as [Hne Hni].
  rewrite (write_step _ _ _ _ He). eexists. split; [done|]. simpl.
  split_and!; [done | by apply dseg_frame | by apply lookup_insert_ne |
    | done | by eapply frame_write].
  rewrite Hh, !first_or_app. by destruct l1.
Qed.

Lemma detach_next_step s l1 a l2 :
  NoDup (l1 ++ l2).*1 → a ∉ (l1 ++ l2).*1 →
  dseg (heap s) None l1 (first_or l2 None) → dseg (heap s) (Some a) l2 None →
  tail s = last_or (Some a) l2 →
  ∃ s1, (match first_or l2 None with
         | Some n => write n (set_prev (last_or None l1))
         | None => ub_modify (set_tail (last_or None l1))
         end) s = Some (tt, s1) ∧
    dseg (heap s1) None (l1 ++ l2) None ∧ heap s1 !! a = heap s !! a ∧
    head s1 = head s ∧ tail s1 = last_or None (l1 ++ l2) ∧ frame s s1.
Proof.
  rewrite fmap_app. intros (Hnd1 & Hdisj & Hnd2)%NoDup_app Ha Hl1 Hl2 Ht.
  destruct l2 as [|q l2]; simpl in *.
  { rewrite !app_nil_r. eexists. split; [done|]. repeat split; naive_solver. }
  destruct (dseg_set_prev _ _ (last_or None l1) _ _ _ Hnd2 Hl2) as (e & He & Hl2').
  rewrite (write_step _ _ _ _ He). eexists. split; [done|]. simpl.
  split_and!; [| by apply lookup_insert_ne; set_solver | done
    | by rewrite last_or_app | by eapply frame_write].
  apply dseg_app. simpl. split; [|done].
  apply dseg_frame; [|done]. intros Hq. apply (Hdisj _ Hq). by left.
Qed.

(** [detach] unlinks its entry and clears its pointers. *)
Lemma detach_spec s l1 n l2 :
  dll s (l1 ++ n :: l2) →
  ∃ s', detach n.1 s = Some (tt, s') ∧ dll s' (l1 ++ l2) ∧ frame s s' ∧
    heap s' !! n.1 = Some (Entry_new n.2.1 n.2.2).
Proof.
  intros Hdll. pose proof Hdll as [Hnd Hseg Hh Ht].
  apply dseg_app in Hseg as [_ [Hn _]].
  destruct (detach_prev_step _ _ _ _ Hdll) as (s1 & Hs1 & Hl1 & Hl2 & Hn1 & Hh1 & Ht1 & Hf1).
  rewrite fmap_app, fmap_cons in Hnd. rewrite <- Permutation_middle, <- fmap_app in Hnd.
  apply NoDup_cons in Hnd as [Hni Hnd].
  destruct (detach_next_step s1 l1 n.1 l2) as (s2 & Hs2 & Hseg2 & Hn2 & Hh2 & Ht2 & Hf2);
    [done..| by rewrite Ht1, Ht, last_or_app |].
  unfold detach. rewrite (ub_bind_Some _ _ _ _ _ (deref_step _ _ _ Hn)). simpl.
  rewrite (ub_bind_Some _ _ _ _ _ Hs1), (ub_bind_Some _ _ _ _ _ Hs2).
  rewrite Hn1, Hn in Hn2.
  rewrite (ub_bind_Some _ _ _ _ _ (write_step _ (set_prev None) _ _ Hn2)).
  erewrite write_step by apply lookup_insert_eq. simpl.
  eexists. split; [done|]. rewrite insert_insert_eq. split_and!.
  - constructor; simpl; [done | by apply dseg_frame | congruence | done].
  - eapply frame_trans; [exact Hf1|]. eapply frame_trans; [exact Hf2|].
    destruct Hf2. constructor; [done..|]. intros b. simpl.
    rewrite lookup_insert_is_Some'. naive_solver.
  - simpl. by rewrite lookup_insert_eq.
Qed.

(** [attach] links a detached entry in front. *)
Lemma attach_spec s ns a k v :
  dll s ns → a ∉ ns.*1 → heap s !! a = Some (Entry_new k v) →
  ∃ s', attach a s = Some (tt, s') ∧ dll s' ((a, (k, v)) :: ns) ∧ frame s s'.
Proof.
  intros [Hnd Hseg Hh Ht] Hni Ha. unfold attach.
  rewrite (ub_bind_Some _ _ s s (head s)) by done. rewrite Hh.
  destruct ns as [|m ns]; simpl in *.
  { eexists. split; [done|]. split; [|by constructor].
    constructor; simpl; [by apply NoDup_singleton | done..]. }
  rewrite (ub_bind_Some _ _ _ _ _ (write_step _ _ _ _ Ha)).
  destruct (dseg_set_prev _ _ (Some a) m ns None Hnd Hseg) as (e & He & Hseg').
  apply not_elem_of_cons in Hni as [Hne Hni].
  assert (<[a := set_next (Some m.1) (Entry_new k v)]> (heap s) !! m.1 = Some e) as He'
    by (by rewrite lookup_insert_ne).
  erewrite ub_bind_Some by (apply write_step; exact He').
  eexists. split; [done|]. split.
  - constructor; simpl; [constructor; [set_solver|done] | | done..].
    rewrite (insert_insert_ne (heap s)) by done.
    rewrite lookup_insert_eq. split; [done|].
    pose proof (dseg_frame _ a (set_next (Some m.1) (Entry_new k v)) _ (m :: ns) None
      ltac:(set_solver) Hseg') as Hx. exact Hx.
  - constructor; [done..|]. intros b. simpl. rewrite !lookup_insert_is_Some'. naive_solver.
Qed.

(** *** Recency lists *)
Lemma find_key_None k l : find_key k l = None ↔ k ∉ l.*1.
Proof.
  induction l as [|[k' v] l IH]; simpl; [set_solver|].
  case_decide; [set_solver|]. rewrite IH, not_elem_of_cons. naive_solver.
Qed.

Lemma find_key_middle k v l1 l2 :
  k ∉ l1.*1 → find_key k (l1 ++ (k, v) :: l2) = Some v.
Proof.
  induction l1 as [|[k' v'] l1 IH]; simpl; [by rewrite decide_True|].
  rewrite not_elem_of_cons. intros [??]. rewrite decide_False by done. auto.
Qed.

Lemma find_key_Some k v l :
  find_key k l = Some v → ∃ l1 l2, l = l1 ++ (k, v) :: l2 ∧ k ∉ l1.*1.
Proof.
  induction l as [|[k' v'] l IH]; simpl; [done|]. case_decide as Hk.
  - intros [= ->]. exists [], l. subst. split; [done | set_solver].
  - intros (l1 & l2 & -> & Hni)%IH. exists ((k', v') :: l1), l2. split; [done|].
    simpl. set_solver.
Qed.

Lemma remove_key_absent k l : k ∉ l.*1 → remove_key k l = l.
Proof.
  unfold remove_key. induction l as [|[k' v'] l IH]; simpl; [done|].
  rewrite not_elem_of_cons. intros [??]. rewrite filter_cons_True by done. by rewrite IH.
Qed.

Lemma remove_key_middle k v l1 l2 :
  NoDup (l1 ++ (k, v) :: l2).*1 → remove_key k (l1 ++ (k, v) :: l2) = l1 ++ l2.
Proof.
  rewrite fmap_app, NoDup_app. simpl. rewrite NoDup_cons. intros (_ & Hd & Hni & _).
  unfold remove_key. rewrite filter_app, filter_cons_False by naive_solver.
  f_equal; apply remove_key_absent; [|done]. intros Hin. apply (Hd _ Hin). by left.
Qed.

Lemma split_last_snoc {A} (l : list A) (x : A) : split_last (l ++ [x]) = Some (l, x).
Proof.
  induction l as [|y l IH]; [done|]. simpl. rewrite IH. by destruct l.
Qed.

(** *** The representation under each kind of change *)
Lemma repr_map_node s ns n : repr s ns → n ∈ ns → map s !! n.2.1 = Some n.1.
Proof. intros Hr Hin. apply (repr_map _ _ Hr). exists n.2.2. by destruct n as [? []]. Qed.

Lemma repr_size s ns : repr s ns → size (map s) = length ns.
Proof.
  intros [_ Hk Hm _].
  assert (map s = list_to_map ((λ n : node, (n.2.1, n.1)) <$> ns)) as ->.
  { apply map_eq. intros k. apply option_eq. intros a. rewrite Hm.
    rewrite <- elem_of_list_to_map.
    - rewrite list_elem_of_fmap. split.
      + intros [v Hin]. by exists (a, (k, v)).
      + intros ([a' [k' v']] & [= -> ->] & Hin). by exists v'.
    - rewrite <- list_fmap_compose. by rewrite <- list_fmap_compose in Hk. }
  rewrite map_size_list_to_map; [by rewrite length_fmap|].
  rewrite <- list_fmap_compose. by rewrite <- list_fmap_compose in Hk.
Qed.

Lemma repr_lookup_Some s ns k a :
  repr s ns → map s !! k = Some a → ∃ v l1 l2, ns = l1 ++ (a, (k, v)) :: l2.
Proof.
  intros Hr [v (l1 & l2 & ->)%list_elem_of_split]%(repr_map _ _ Hr). eauto.
Qed.

Lemma repr_lookup_None s ns k : repr s ns → map s !! k = None → find_key k ns.*2 = None.
Proof.
  intros Hr Hk. apply find_key_None. intros ([k' v] & -> & Hin)%list_elem_of_fmap.
  apply list_elem_of_fmap in Hin as (n & Heq & Hin).
  pose proof (repr_map_node _ _ _ Hr Hin). rewrite <- Heq in *. simpl in *. congruence.
Qed.

Lemma repr_find s l1 a k v l2 :
  repr s (l1 ++ (a, (k, v)) :: l2) →
  find_key k (l1 ++ (a, (k, v)) :: l2).*2 = Some v ∧
  remove_key k (l1 ++ (a, (k, v)) :: l2).*2 = l1.*2 ++ l2.*2.
Proof.
  intros [_ Hk _ _]. rewrite fmap_app, fmap_cons in *. simpl in *. split.
  - apply find_key_middle. rewrite fmap_app, NoDup_app in Hk. set_solver.
  - by apply remove_key_middle.
Qed.

Lemma repr_moved s s' l1 n l2 :
  repr s (l1 ++ n :: l2) → dll s' (n :: l1 ++ l2) → frame s s' → repr s' (n :: l1 ++ l2).
Proof.
  intros [_ Hk Hm Hp] Hdll [Hfm _ Hfd].
  assert (n :: l1 ++ l2 ≡ₚ l1 ++ n :: l2) as Hperm by apply Permutation_middle.
  constructor; [done| by rewrite Hperm |..].
  - intros k a. rewrite Hfm, Hm. by setoid_rewrite Hperm.
  - intros a. rewrite Hfd, Hp. by rewrite Hperm.
Qed.

Lemma repr_removed s s' l1 n l2 :
  repr s (l1 ++ n :: l2) → dll s' (l1 ++ l2) → map s' = delete n.2.1 (map s) →
  (∀ a, is_Some (heap s' !! a) ↔ is_Some (heap s !! a) ∧ a ≠ n.1) →
  repr s' (l1 ++ l2).
Proof.
  intros [[Hnd _ _ _] Hk Hm Hp] Hdll Hmap Hheap.
  assert (l1 ++ n :: l2 ≡ₚ n :: l1 ++ l2) as Hperm by (symmetry; apply Permutation_middle).
  rewrite Hperm in Hnd, Hk. simpl in Hnd, Hk.
  apply NoDup_cons in Hnd as [Hna Hnd]. apply NoDup_cons in Hk as [Hnk Hk].
  constructor; [done..| |].
  - intros k a. rewrite Hmap. rewrite lookup_delete_Some, Hm. setoid_rewrite Hperm.
    setoid_rewrite elem_of_cons. split; [naive_solver|]. intros [v Hin]. split; [|eauto].
    intros <-. apply Hnk. apply (list_elem_of_fmap_2 fst (l1 ++ l2).*2 (n.2.1, v)).
    by apply (list_elem_of_fmap_2 snd _ (a, (n.2.1, v))).
  - intros a. rewrite Hheap, Hp, Hperm. simpl. rewrite elem_of_cons. split; [naive_solver|].
    intros Hin. split; [by right|]. by intros ->.
Qed.

Lemma repr_added s s' ns a k v :
  repr s ns → map s !! k = None → a ∉ ns.*1 → dll s' ((a, (k, v)) :: ns) →
  map s' = <[k := a]> (map s) →
  (∀ b, is_Some (heap s' !! b) ↔ is_Some (heap s !! b) ∨ b = a) →
  repr s' ((a, (k, v)) :: ns).
Proof.
  intros Hr Hk0 Ha Hdll Hmap Hheap.
  pose proof (repr_lookup_None _ _ _ Hr Hk0) as Hni%find_key_None.
  destruct Hr as [_ Hk Hm Hp]. constructor; [done| by constructor |..].
  - intros k' a'. rewrite Hmap, lookup_insert_Some, Hm. setoid_rewrite elem_of_cons.
    split; [naive_solver|]. intros [v' [[= -> -> ->]|Hin]]; [by left|]. right.
    split; [|eauto]. intros ->. apply Hni.
    apply (list_elem_of_fmap_2 fst ns.*2 (k', v')). by apply (list_elem_of_fmap_2 snd _ (a', (k', v'))).
  - intros b. rewrite Hheap, Hp. simpl. rewrite elem_of_cons. naive_solver.
Qed.

Lemma repr_set_value s l1 a k v v' l2 e :
  repr s (l1 ++ (a, (k, v)) :: l2) → heap s !! a = Some e →
  repr (set_heap (<[a := set_value v' e]> (heap s)) s) (l1 ++ (a, (k, v')) :: l2).
Proof.
  intros [[Hnd Hseg Hh Ht] Hk Hm Hp] He. apply dseg_app in Hseg as [Hl1 [Ha Hl2]].
  simpl in *. rewrite He in Ha. injection Ha as ->.
  assert (a ∉ l1.*1 ∧ a ∉ l2.*1) as [Ha1 Ha2].
  { rewrite fmap_app, fmap_cons in Hnd. rewrite <- Permutation_middle in Hnd.
    apply NoDup_cons in Hnd as [Hni _]. set_solver. }
  constructor; simpl.
  - constructor; simpl.
    + by rewrite fmap_app, fmap_cons in *.
    + apply dseg_app. simpl. rewrite lookup_insert_eq.
      split_and!; [by apply dseg_frame | done | by apply dseg_frame].
    + rewrite Hh, !first_or_app. by destruct l1.
    + rewrite Ht, !last_or_app. done.
  - by rewrite !fmap_app, !fmap_cons in *.
  - intros k' a'. rewrite Hm. setoid_rewrite elem_of_app. setoid_rewrite elem_of_cons.
    naive_solver.
  - intros b. rewrite lookup_insert_is_Some', Hp, !fmap_app, !fmap_cons. simpl.
    rewrite !elem_of_app, !elem_of_cons. naive_solver.
Qed.

Lemma repr_node_entry s l1 n l2 :
  repr s (l1 ++ n :: l2) → ∃ e, heap s !! n.1 = Some e ∧ key e = n.2.1 ∧ value e = n.2.2.
Proof.
  intros Hr. eapply dseg_lookup; [|apply (dll_seg _ _ (repr_dll _ _ Hr))].
  apply elem_of_app. right. by left.
Qed.

Lemma repr_not_in_rest s l1 n l2 : repr s (l1 ++ n :: l2) → n.1 ∉ (l1 ++ l2).*1.
Proof.
  intros [[Hnd _ _ _] _ _ _]. rewrite <- Permutation_middle in Hnd. by apply NoDup_cons in Hnd as [].
Qed.

(** *** The operations *)
Lemma new_represents cap : represents (new cap) [].
Proof.
  exists []. split; [|done]. constructor; [constructor|..]; try done; simpl.
  - constructor.
  - constructor.
  - intros k a. rewrite lookup_empty. set_solver.
  - intros a. rewrite lookup_empty. split; [by intros [] | set_solver].
Qed.

(** [detach] then [attach] moves an entry to the front. *)
Lemma touch_spec s l1 n l2 :
  repr s (l1 ++ n :: l2) →
  ∃ s1 s2 e, detach n.1 s = Some (tt, s1) ∧ attach n.1 s1 = Some (tt, s2) ∧
    repr s2 (n :: l1 ++ l2) ∧ capacity s2 = capacity s ∧
    heap s2 !! n.1 = Some e ∧ value e = n.2.2.
Proof.
  intros Hr. destruct (detach_spec _ _ _ _ (repr_dll _ _ Hr)) as (s1 & Hs1 & Hd1 & Hf1 & He1).
  destruct (attach_spec s1 (l1 ++ l2) n.1 n.2.1 n.2.2 Hd1) as (s2 & Hs2 & Hd2 & Hf2);
    [by eapply repr_not_in_rest | done |].
  destruct n as [a [k v]]. simpl in *.
  pose proof (repr_moved _ _ _ _ _ Hr Hd2 (frame_trans _ _ _ Hf1 Hf2)) as Hr2.
  destruct (repr_node_entry s2 [] (a, (k, v)) (l1 ++ l2) Hr2) as (e & He & _ & Hv).
  exists s1, s2, e. split_and!; try done. destruct Hf1, Hf2. congruence.
Qed.

Theorem get_represents k s l :
  represents s l →
  ∃ s', get k s = Some ((spec_get k l).1, s') ∧ represents s' (spec_get k l).2 ∧
    capacity s' = capacity s.
Proof.
  intros (ns & Hr & <-). unfold get, spec_get. erewrite ub_bind_Some by done.
  destruct (map s !! k) as [a|] eqn:Hk.
  - destruct (repr_lookup_Some _ _ _ _ Hr Hk) as (v & l1 & l2 & ->).
    destruct (touch_spec _ _ _ _ Hr) as (s1 & s2 & e & H1 & H2 & Hr2 & Hc & He & Hv). simpl in *.
    destruct (repr_find _ _ _ _ _ _ Hr) as [-> ->].
    erewrite ub_bind_Some by exact H1. erewrite ub_bind_Some by exact H2.
    erewrite ub_bind_Some by (by apply deref_step). simpl. exists s2.
    split_and!; [by rewrite <- Hv | | done]. exists ((a, (k, v)) :: l1 ++ l2).
    split; [done|]. simpl. by rewrite fmap_app.
  - rewrite (repr_lookup_None _ _ _ Hr Hk). exists s. split_and!; [done| by exists ns | done].
Qed.

(** Removing the last entry, the common part of [put] and [pop_lru]. *)
Lemma evict_spec s l1 n :
  repr s (l1 ++ [n]) →
  ∃ s1 s2 e, detach n.1 s = Some (tt, s1) ∧ heap s1 !! n.1 = Some e ∧ key e = n.2.1 ∧
    value e = n.2.2 ∧ map_remove (key e) s1 = Some (Some n.1, s2) ∧ heap s2 !! n.1 = Some e ∧
    repr (set_heap (delete n.1 (heap s2)) s2) l1 ∧ capacity s2 = capacity s.
Proof.
  intros Hr. destruct (detach_spec _ _ _ _ (repr_dll _ _ Hr)) as (s1 & Hs1 & Hd1 & Hf1 & He1).
  rewrite app_nil_r in Hd1. exists s1, (set_map (delete n.2.1 (map s1)) s1), (Entry_new n.2.1 n.2.2).
  pose proof (repr_not_in_rest _ _ _ _ Hr) as Hni. rewrite app_nil_r in Hni.
  destruct Hf1 as [Hfm Hfc Hfd].
  assert (map s1 !! n.2.1 = Some n.1) as Hn1.
  { rewrite Hfm. eapply repr_map_node; [done|]. apply elem_of_app. right. by left. }
  split_and!; try done.
  - unfold map_remove. cbv [mbind ub_mbind ub_gets ub_modify mret ub_mret]. simpl. by rewrite Hn1.
  - destruct Hd1 as [Hnd Hseg Hh Ht].
    rewrite <- (app_nil_r l1). eapply repr_removed; [exact Hr|..].
    + rewrite app_nil_r. constructor; [done| by apply dseg_frame_delete | done..].
    + simpl. by rewrite Hfm.
    + intros a. simpl. rewrite lookup_delete_is_Some, Hfd. naive_solver.
Qed.

Lemma repr_tail s ns : repr s ns → tail s = last_or None ns.
Proof. intros [[]]. done. Qed.

Lemma insert_new_spec s ns k v :
  repr s ns → map s !! k = None →
  ∃ s1 a s2, alloc (Entry_new k v) s = Some (a, s1) ∧ attach a s1 = Some (tt, s2) ∧
    repr (set_map (<[k := a]> (map s2)) s2) ((a, (k, v)) :: ns) ∧ capacity s2 = capacity s.
Proof.
  intros Hr Hk. set (a := fresh (dom (heap s))).
  assert (heap s !! a = None) as Ha.
  { apply not_elem_of_dom. apply is_fresh. }
  assert (a ∉ ns.*1) as Hni.
  { intros Hin. apply (repr_heap _ _ Hr) in Hin as [? ?]. congruence. }
  set (s1 := set_heap (<[a := Entry_new k v]> (heap s)) s).
  assert (dll s1 ns) as Hd1.
  { destruct (repr_dll _ _ Hr) as [Hnd Hseg Hh Ht]. constructor; [done| by apply dseg_frame | done..]. }
  destruct (attach_spec s1 ns a k v Hd1 Hni) as (s2 & Hs2 & Hd2 & [Hfm Hfc Hfd]).
  { simpl. apply lookup_insert_eq. }
  exists s1, a, s2. split_and!; [done..| |done].
  eapply repr_added; [exact Hr | done | done | by destruct Hd2 | simpl; by rewrite Hfm |].
  intros b. simpl. rewrite Hfd. simpl. rewrite lookup_insert_is_Some'. naive_solver.
Qed.

Theorem put_represents k v s l :
  represents s l →
  ∃ s', put k v s = Some ((spec_put (capacity s) k v l).1, s') ∧
    represents s' (spec_put (capacity s) k v l).2 ∧ capacity s' = capacity s.
Proof.
  intros (ns & Hr & <-). unfold put, spec_put. erewrite ub_bind_Some by done.
  destruct (map s !! k) as [a|] eqn:Hk.
  - destruct (repr_lookup_Some _ _ _ _ Hr Hk) as (v0 & l1 & l2 & ->).
    destruct (repr_node_entry _ _ _ _ Hr) as (e & He & _ & Hv). simpl in *.
    destruct (repr_find _ _ _ _ _ _ Hr) as [-> ->].
    destruct (touch_spec _ _ _ _ (repr_set_value _ _ _ _ _ v _ _ Hr He))
      as (s1 & s2 & _ & H1 & H2 & Hr2 & Hc & _). simpl in *.
    erewrite ub_bind_Some by (by apply deref_step).
    erewrite ub_bind_Some by (by apply write_step).
    erewrite ub_bind_Some by exact H1. erewrite ub_bind_Some by exact H2. simpl. exists s2.
    split_and!; [by rewrite <- Hv | | done]. exists ((a, (k, v)) :: l1 ++ l2).
    split; [done|]. simpl. by rewrite fmap_app.
  - rewrite (repr_lookup_None _ _ _ Hr Hk), length_fmap, (repr_size _ _ Hr).
    erewrite ub_bind_Some by done. case_decide as Hcap.
    + destruct ns as [|n ns _] using rev_ind.
      * assert (tail s = None) as Ht by by rewrite (repr_tail _ _ Hr).
        destruct (insert_new_spec _ _ k v Hr Hk) as (s1 & a & s2 & H1 & H2 & Hr2 & Hc).
        erewrite ub_bind_Some; [|erewrite ub_bind_Some by done; by rewrite Ht].
        erewrite ub_bind_Some by exact H1. erewrite ub_bind_Some by exact H2.
        eexists. split_and!; [done | by eexists; split; [exact Hr2|] | done].
      * destruct (evict_spec _ _ _ Hr) as (s1 & s2 & e & H1 & He & Hke & Hve & H2 & He2 & Hr2 & Hc).
        assert (tail s = Some n.1) as Ht by by rewrite (repr_tail _ _ Hr), last_or_app.
        assert (map s2 !! k = None) as Hk2.
        { destruct (map s2 !! k) as [b|] eqn:Hb; [|done].
          apply (repr_map _ _ Hr2) in Hb as [v' Hin].
          assert (map s !! k = Some b); [|congruence]. apply (repr_map _ _ Hr). exists v'. set_solver. }
        destruct (insert_new_spec _ _ k v Hr2 Hk2) as (s3 & a & s4 & H3 & H4 & Hr4 & Hc4).
        erewrite ub_bind_Some.
        2:{ erewrite ub_bind_Some by done. rewrite Ht. erewrite ub_bind_Some by exact H1.
            erewrite ub_bind_Some by (by apply deref_step). erewrite ub_bind_Some by exact H2.
            cbv beta iota. erewrite ub_bind_Some by (by apply free_step). done. }
        erewrite ub_bind_Some by exact H3. erewrite ub_bind_Some by exact H4.
        unfold spec_pop_lru. rewrite fmap_app. simpl. rewrite split_last_snoc. simpl.
        eexists. split_and!; [by rewrite Hve | by eexists; split; [exact Hr4|] |].
        simpl in *. congruence.
    + destruct (insert_new_spec _ _ k v Hr Hk) as (s1 & a & s2 & H1 & H2 & Hr2 & Hc).
      erewrite ub_bind_Some by done.
      erewrite ub_bind_Some by exact H1. erewrite ub_bind_Some by exact H2.
      eexists. split_and!; [done | by eexists; split; [exact Hr2|] | done].
Qed.

Lemma is_empty_represents s l : represents s l → is_empty s = bool_decide (l = []).
Proof.
  intros (ns & Hr & <-). unfold is_empty. apply bool_decide_ext.
  rewrite <- map_size_empty_iff, (repr_size _ _ Hr). by destruct ns.
Qed.

Theorem pop_lru_represents s l :
  represents s l →
  ∃ s', pop_lru s = Some ((spec_pop_lru l).1, s') ∧ represents s' (spec_pop_lru l).2 ∧
    capacity s' = capacity s.
Proof.
  intros Hrep. unfold pop_lru. erewrite ub_bind_Some by done.
  rewrite (is_empty_represents _ _ Hrep). destruct Hrep as (ns & Hr & <-).
  destruct ns as [|n ns _] using rev_ind.
  - rewrite bool_decide_eq_true_2 by done. exists s. split_and!; [done| by exists [] | done].
  - rewrite bool_decide_eq_false_2 by (by destruct ns).
    destruct (evict_spec _ _ _ Hr) as (s1 & s2 & e & H1 & He & Hke & Hve & H2 & He2 & Hr2 & Hc).
    assert (tail s = Some n.1) as Ht by by rewrite (repr_tail _ _ Hr), last_or_app.
    erewrite ub_bind_Some by done. rewrite Ht. erewrite ub_bind_Some by exact H1.
    erewrite ub_bind_Some by (by apply deref_step). erewrite ub_bind_Some by exact H2.
    cbv beta iota. erewrite ub_bind_Some by (by apply free_step).
    unfold spec_pop_lru. rewrite fmap_app. simpl. rewrite split_last_snoc. simpl.
    eexists. split_and!; [by rewrite Hke, Hve; destruct n as [? []] | by eexists | done].
Qed.

Theorem pop_represents k s l :
  represents s l →
  ∃ s', pop k s = Some ((spec_pop k l).1, s') ∧ represents s' (spec_pop k l).2 ∧
    capacity s' = capacity s.
Proof.
  intros (ns & Hr & <-). unfold pop, spec_pop.
  set (s1 := set_map (delete k (map s)) s).
  assert (map_remove k s = Some (map s !! k, s1)) as Hm by done.
  erewrite ub_bind_Some by exact Hm. destruct (map s !! k) as [a|] eqn:Hk.
  - destruct (repr_lookup_Some _ _ _ _ Hr Hk) as (v & l1 & l2 & ->).
    destruct (repr_find _ _ _ _ _ _ Hr) as [-> ->].
    assert (dll s1 (l1 ++ (a, (k, v)) :: l2)) as Hd1.
    { destruct (repr_dll _ _ Hr). by constructor. }
    destruct (detach_spec _ _ _ _ Hd1) as (s2 & Hs2 & Hd2 & [Hfm Hfc Hfd] & He2). simpl in *.
    erewrite ub_bind_Some by exact Hs2. erewrite ub_bind_Some by (by apply free_step). simpl.
    eexists. split_and!; [done | | done]. exists (l1 ++ l2). split; [|by rewrite fmap_app].
    eapply repr_removed; [exact Hr | | by simpl; rewrite Hfm |].
    + destruct Hd2 as [Hnd Hseg Hh Ht]. constructor; [done| |done..].
      apply dseg_frame_delete; [|done]. by apply (repr_not_in_rest _ _ _ _ Hr).
    + intros b. simpl. rewrite lookup_delete_is_Some, Hfd. naive_solver.
  - rewrite (repr_lookup_None _ _ _ Hr Hk). exists s1. split_and!; [done| |done].
    exists ns. split; [|done]. unfold s1. rewrite delete_id by done. by destruct s.
Qed.

Lemma peek_represents k s l : represents s l → peek k s = Some (find_key k l, s).
Proof.
  intros (ns & Hr & <-). unfold peek. erewrite ub_bind_Some by done.
  destruct (map s !! k) as [a|] eqn:Hk.
  - destruct (repr_lookup_Some _ _ _ _ Hr Hk) as (v & l1 & l2 & ->).
    destruct (repr_node_entry _ _ _ _ Hr) as (e & He & _ & Hv). simpl in *.
    destruct (repr_find _ _ _ _ _ _ Hr) as [-> _].
    erewrite ub_bind_Some by (by apply deref_step). by rewrite Hv.
  - by rewrite (repr_lookup_None _ _ _ Hr Hk).
Qed.

Lemma contains_represents k s l :
  represents s l → contains k s = bool_decide (is_Some (find_key k l)).
Proof.
  intros (ns & Hr & <-). unfold contains. destruct (map s !! k) as [a|] eqn:Hk.
  - destruct (repr_lookup_Some _ _ _ _ Hr Hk) as (v & l1 & l2 & ->).
    by destruct (repr_find _ _ _ _ _ _ Hr) as [-> _].
  - by rewrite (repr_lookup_None _ _ _ Hr Hk).
Qed.

(** *** Sequences of operations *)

Inductive Op : Type :=
| OpGet (k : K)
| OpPut (k : K) (v : V)
| OpPop (k : K)
| OpPopLru
| OpPeek (k : K)
| OpContains (k : K).

Inductive Out : Type :=
| OutValue (o : option V)
| OutPair (o : option (K * V))
| OutBool (b : bool).

Definition exec (o : Op) : UB LruCache Out :=
  match o with
  | OpGet k => r ← get k; mret (OutValue r)
  | OpPut k v => r ← put k v; mret (OutValue r)
  | OpPop k => r ← pop k; mret (OutPair r)
  | OpPopLru => r ← pop_lru; mret (OutPair r)
  | OpPeek k => r ← peek k; mret (OutValue r)
  | OpContains k => r ← ub_gets (contains k); mret (OutBool r)
  end.

Fixpoint run (os : list Op) : UB LruCache (list Out) :=
  match os with
  | [] => mret []
  | o :: os => r ← exec o; rs ← run os; mret (r :: rs)
  end.

Definition spec_exec (cap : Z) (o : Op) (l : list (K * V)) : Out * list (K * V) :=
  match o with
  | OpGet k => let '(r, l') := spec_get k l in (OutValue r, l')
  | OpPut k v => let '(r, l') := spec_put cap k v l in (OutValue r, l')
  | OpPop k => let '(r, l') := spec_pop k l in (OutPair r, l')
  | OpPopLru => let '(r, l') := spec_pop_lru l in (OutPair r, l')
  | OpPeek k => (OutValue (find_key k l), l)
  | OpContains k => (OutBool (bool_decide (is_Some (find_key k l))), l)
  end.

Fixpoint spec_run (cap : Z) (os : list Op) (l : list (K * V)) : list Out * list (K * V) :=
  match os with
  | [] => ([], l)
  | o :: os =>
      let '(r, l1) := spec_exec cap o l in
      let '(rs, l2) := spec_run cap os l1 in (r :: rs, l2)
  end.

Lemma exec_refines o s l :
  represents s l →
  ∃ s', exec o s = Some ((spec_exec (capacity s) o l).1, s') ∧
    represents s' (spec_exec (capacity s) o l).2 ∧ capacity s' = capacity s.
Proof.
  intros Hr. destruct o as [k|k v|k| |k|k]; simpl.
  - destruct (get_represents k s l Hr) as (s' & He & Hr' & Hc).
    erewrite ub_bind_Some by exact He. destruct (spec_get k l). eauto.
  - destruct (put_represents k v s l Hr) as (s' & He & Hr' & Hc).
    erewrite ub_bind_Some by exact He. destruct (spec_put _ k v l). eauto.
  - destruct (pop_represents k s l Hr) as (s' & He & Hr' & Hc).
    erewrite ub_bind_Some by exact He. destruct (spec_pop k l). eauto.
  - destruct (pop_lru_represents s l Hr) as (s' & He & Hr' & Hc).
    erewrite ub_bind_Some by exact He. destruct (spec_pop_lru l). eauto.
  - erewrite ub_bind_Some by (by apply peek_represents). eauto.
  - erewrite ub_bind_Some by done. rewrite (contains_represents _ _ _ Hr). eauto.
Qed.

Lemma run_represents os s l :
  represents s l →
  ∃ s', run os s = Some ((spec_run (capacity s) os l).1, s') ∧
    represents s' (spec_run (capacity s) os l).2 ∧ capacity s' = capacity s.
Proof.
  revert s l. induction os as [|o os IH]; intros s l Hr; simpl; [by eauto|].
  destruct (exec_refines o s l Hr) as (s1 & He & Hr1 & Hc1).
  destruct (spec_exec (capacity s) o l) as [r l1]. simpl in *.
  destruct (IH s1 l1 Hr1) as (s2 & He2 & Hr2 & Hc2). rewrite Hc1 in *.
  destruct (spec_run (capacity s) os l1) as [rs l2]. simpl in *.
  erewrite ub_bind_Some by exact He. erewrite ub_bind_Some by exact He2. eauto.
Qed.

(** C5: every sequence of operations on a fresh [LruCache] runs without
    undefined behaviour (no dangling pointer is ever dereferenced), returns
    exactly what the recency-list specification returns, and ends in a state
    that represents the specification's list. *)
Theorem lru_run_refines (cap : Z) (os : list Op) :
  ∃ s', run os (new cap) = Some ((spec_run cap os []).1, s') ∧
    represents s' (spec_run cap os []).2.
Proof.
  destruct (run_represents os (new cap) [] (new_represents cap)) as (s' & H1 & H2 & _). eauto.
Qed.

Lemma length_remove_key k l : (length (remove_key k l) ≤ length l)%nat.
Proof. apply length_filter. Qed.

Lemma length_remove_key_lt k l v :
  find_key k l = Some v → (length (remove_key k l) < length l)%nat.
Proof.
  intros (l1 & l2 & -> & _)%find_key_Some. unfold remove_key.
  rewrite filter_app, filter_cons_False by naive_solver.
  rewrite !length_app. simpl.
  pose proof (length_filter (λ p : K * V, p.1 ≠ k) l1).
  pose proof (length_filter (λ p : K * V, p.1 ≠ k) l2). lia.
Qed.

Lemma split_last_length {A} (l l' : list A) x :
  split_last l = Some (l', x) → length l = S (length l').
Proof.
  destruct l as [|y l _] using rev_ind; [done|]. rewrite split_last_snoc.
  intros [= <- <-]. rewrite length_app. simpl. lia.
Qed.

Lemma split_last_None {A} (l : list A) : split_last l = None → l = [].
Proof. destruct l as [|y l _] using rev_ind; [done|]. by rewrite split_last_snoc. Qed.

Lemma spec_exec_length cap o l :
  Z.of_nat (length l) ≤ Z.max 1 cap →
  Z.of_nat (length (spec_exec cap o l).2) ≤ Z.max 1 cap.
Proof.
  intros Hl. destruct o as [k|k v|k| |k|k]; simpl;
    unfold spec_get, spec_put, spec_pop, spec_pop_lru; try done.
  - destruct (find_key k l) eqn:Hk; simpl; [|done].
    pose proof (length_remove_key_lt _ _ _ Hk). lia.
  - destruct (find_key k l) eqn:Hk; simpl.
    { pose proof (length_remove_key_lt _ _ _ Hk). lia. }
    case_decide; simpl; [|lia].
    destruct (split_last l) as [[l' p]|] eqn:Hs; simpl; [|lia].
    apply split_last_length in Hs. lia.
  - destruct (find_key k l) eqn:Hk; simpl; [|done]. pose proof (length_remove_key k l). lia.
  - destruct (split_last l) as [[l' p]|] eqn:Hs; simpl; [|lia].
    apply split_last_length in Hs. lia.
Qed.

(** after any sequence of operations on [LruCache::new(cap)] the number of
    live boxes equals the number of cached keys and is at most [max 1 cap]: the
    capacity is respected, except that a capacity of zero still holds the last
    inserted entry. *)
Theorem lru_run_bounded (cap : Z) (os : list Op) :
  ∃ rs s', run os (new cap) = Some (rs, s') ∧
    size (map s') = size (heap s') ∧ Z.of_nat (size (heap s')) ≤ Z.max 1 cap.
Proof.
  destruct (run_represents os (new cap) [] (new_represents cap)) as (s' & H1 & H2 & _).
  simpl in *. eexists _, s'. split; [exact H1|].
  assert (Z.of_nat (length (spec_run cap os []).2) ≤ Z.max 1 cap) as Hlen.
  { clear. assert (Z.of_nat (length (@nil (K * V))) ≤ Z.max 1 cap) as Hl by (simpl; lia).
    revert Hl. generalize (@nil (K * V)). induction os as [|o os IH]; intros l Hl; simpl; [done|].
    pose proof (spec_exec_length cap o l Hl). destruct (spec_exec cap o l) as [r l1].
    specialize (IH l1 ltac:(done)). by destruct (spec_run cap os l1). }
  destruct H2 as (ns & Hr & Hl). rewrite <- Hl, length_fmap in Hlen.
  assert (size (heap s') = length ns) as ->.
  { assert (dom (heap s') = list_to_set ns.*1) as Hd.
    { apply set_eq. intros a. rewrite elem_of_dom, (repr_heap _ _ Hr). by rewrite elem_of_list_to_set. }
    rewrite <- size_dom, Hd, size_list_to_set by apply (dll_nodup _ _ (repr_dll _ _ Hr)).
    by rewrite length_fmap. }
  by rewrite (repr_size _ _ Hr).
Qed.

Lemma foldr_delete_lookup (h : gmap addr Entry) (l : list addr) a :
  foldr delete h l !! a = if decide (a ∈ l) then None else h !! a.
Proof.
  induction l as [|b l IH]; [by rewrite decide_False by set_solver|].
  cbn [foldr]. rewrite lookup_delete. repeat case_decide; set_solver.
Qed.

(** dropping a cache frees every box exactly through the map that owns it:
    after any sequence of operations, [Drop] leaves no live box behind. *)
Theorem lru_drop_frees_all (cap : Z) (os : list Op) rs (s' : LruCache) :
  run os (new cap) = Some (rs, s') → heap (drop s') = ∅.
Proof.
  intros Hrun. destruct (run_represents os (new cap) [] (new_represents cap)) as (s1 & H1 & H2 & _).
  rewrite H1 in Hrun. injection Hrun as _ <-. destruct H2 as (ns & Hr & _).
  apply map_eq. intros a. simpl. rewrite lookup_empty, foldr_delete_lookup. case_decide as Ha; [done|].
  destruct (heap s1 !! a) as [e|] eqn:He; [|done]. exfalso. apply Ha.
  assert (a ∈ ns.*1) as Hin by (apply (repr_heap _ _ Hr); eauto).
  apply list_elem_of_fmap in Hin as ([a' [k v]] & -> & Hin).
  apply list_elem_of_fmap. exists (k, a'). split; [done|].
  apply elem_of_map_to_list. apply (repr_map_node _ _ _ Hr Hin).
Qed.

End lru.
Arguments Entry : clear implicits.
Arguments LruCache K {_ _} V.
End Lru.

(** A run that evicts, replaces and pops, then drops. *)
Lemma lru_drop_frees_all_witness :
  ∃ rs s', Lru.run (K:=nat) (V:=nat)
      [Lru.OpPut 1%nat 10%nat; Lru.OpPut 2%nat 20%nat; Lru.OpGet 1%nat; Lru.OpPut 3%nat 30%nat]
      (Lru.new 2) = Some (rs, s') ∧ Lru.heap (Lru.drop s') = ∅.
Proof.
  eexists _, _. split; [vm_compute; reflexivity|].
  eapply (Lru.lru_drop_frees_all (K:=nat) (V:=nat) 2
    [Lru.OpPut 1%nat 10%nat; Lru.OpPut 2%nat 20%nat; Lru.OpGet 1%nat; Lru.OpPut 3%nat 30%nat]).
  vm_compute. reflexivity.
Defined.

(** ** The interface of the recency cache

    What a client of [LruCache<K, V>] relies on: the operations, and a
    representation relation for which every operation succeeds with the result
    of the recency-list specification. *)

Class LruApi (K V L : Type) := {
  lru_new : Z → L;
  lru_get : K → UB L (option V);
  lru_put : K → V → UB L (option V);
  lru_pop : K → UB L (option (K * V));
  lru_pop_lru : UB L (option (K * V));
  lru_peek : K → UB L (option V);
  lru_contains : K → L → bool;
}.

Class LruSpec (K V L : Type) `{Countable K} `{LruApi K V L} := {
  lru_cap : L → Z;
  lru_represents : L → list (K * V) → Prop;
  lru_new_ok cap : lru_represents (lru_new cap) [] ∧ lru_cap (lru_new cap) = cap;
  lru_get_ok k s l : lru_represents s l →
    ∃ s', lru_get k s = Some ((Lru.spec_get k l).1, s') ∧
      lru_represents s' (Lru.spec_get k l).2 ∧ lru_cap s' = lru_cap s;
  lru_put_ok k v s l : lru_represents s l →
    ∃ s', lru_put k v s = Some ((Lru.spec_put (lru_cap s) k v l).1, s') ∧
      lru_represents s' (Lru.spec_put (lru_cap s) k v l).2 ∧ lru_cap s' = lru_cap s;
  lru_pop_ok k s l : lru_represents s l →
    ∃ s', lru_pop k s = Some ((Lru.spec_pop k l).1, s') ∧
      lru_represents s' (Lru.spec_pop k l).2 ∧ lru_cap s' = lru_cap s;
  lru_pop_lru_ok s l : lru_represents s l →
    ∃ s', lru_pop_lru s = Some ((Lru.spec_pop_lru l).1, s') ∧
      lru_represents s' (Lru.spec_pop_lru l).2 ∧ lru_cap s' = lru_cap s;
  lru_peek_ok k s l : lru_represents s l → lru_peek k s = Some (Lru.find_key k l, s);
  lru_contains_ok k s l : lru_represents s l →
    lru_contains k s = bool_decide (is_Some (Lru.find_key k l));
}.

#[export] Instance lru_api {K V} `{Countable K} : LruApi K V (Lru.LruCache K V) := {
  lru_new := Lru.new;
  lru_get := Lru.get;
  lru_put := Lru.put;
  lru_pop := Lru.pop;
  lru_pop_lru := Lru.pop_lru;
  lru_peek := Lru.peek;
  lru_contains := Lru.contains;
}.

#[export] Instance lru_spec {K V} `{Countable K} : LruSpec K V (Lru.LruCache K V) := {
  lru_cap := Lru.capacity;
  lru_represents := Lru.represents;
  lru_new_ok cap := conj (Lru.new_represents cap) eq_refl;
  lru_get_ok := Lru.get_represents;
  lru_put_ok := Lru.put_represents;
  lru_pop_ok := Lru.pop_represents;
  lru_pop_lru_ok := Lru.pop_lru_represents;
  lru_peek_ok := Lru.peek_represents;
  lru_contains_ok := Lru.contains_represents;
}.
