(* ===== verification/Errors.v ===== *)
(** * Errors of the client

    Models the error enumeration of [src/dragonfly-client-core/src/error/mod.rs]
    and the external error classes of [error/errors.rs].  A payload that is an
    error of another crate is kept as its rendered text. *)

From S2P Require Import Prelude.
From Stdlib Require Import ZArith String.
From stdpp Require Import base strings.

(** [enum ErrorType]. *)
Inductive ErrorType : Type :=
| StorageError
| ConfigError
| SerializeError
| ErrorType_ValidationError
| ParseError
| CertificateError
| TLSConfigError
| AsyncRuntimeError
| StreamError
| ConnectError
| PluginError.

(** [enum DFError], with the source's constructors. *)
Inductive DFError : Type :=
| IO (msg : string)
| VarError (msg : string)
| MpscSend (msg : string)
| SendTimeout
| HashRing (msg : string)
| NoSpace (msg : string)
| HostNotFound (id : string)
| TaskNotFound (id : string)
| PieceNotFound (id : string)
| PieceStateIsFailed (id : string)
| DownloadPieceFinishedTimeout (id : string)
| WaitForPieceFinishedTimeout (id : string)
| AvailableManagerNotFound
| AvailableSchedulersNotFound
| DownloadFromParentFailed (msg : string)
| ColumnFamilyNotFound (name : string)
| InvalidStateTransition (from to : string)
| InvalidState (state : string)
| InvalidURI (uri : string)
| InvalidPeer (peer : string)
| SchedulerClientNotFound
| UnexpectedResponse
| DigestMismatch (expected actual : string)
| ContentLengthMismatch (expected actual : Z)
| MaxScheduleCountExceeded (count : Z)
| InvalidContentLength
| InvalidPieceLength
| InvalidParameter
| NetAddrParseError (msg : string)
| ConvertInfallible
| Utf8 (msg : string)
| MutexPoisoned (msg : string)
| Unknown (msg : string)
| Busy (msg : string)
| Unimplemented
| PermissionDenied
| EmptyHTTPRangeError
| Unauthorized
| ArrayTryFromSliceError (msg : string)
| VortexProtocolStatus (code : Z) (msg : string)
| VortexProtocolError (msg : string)
| TonicStatus (msg : string)
| TonicTransportError (msg : string)
| TonicReflectionServerError (msg : string)
| TokioStreamElapsed (msg : string)
| TokioTimeErrorElapsed (msg : string)
| HTTTHeaderInvalidHeaderName (msg : string)
| HTTTHeaderInvalidHeaderValue (msg : string)
| HTTTHeaderToStrError (msg : string)
| URLParseError (msg : string)
| ReqwestError (msg : string)
| ReqwestMiddlewareError (msg : string)
| OpenDALError (msg : string)
| HyperError (msg : string)
| BackendError (msg : string)
| HyperUtilClientLegacyError (msg : string)
| ExternalError (etype : ErrorType)
| MaxDownloadFilesExceeded (limit : Z)
| Unsupported (what : string)
| TokioJoinError (msg : string)
| ValidationError (msg : string)
| CgroupsFSError (msg : string).

#[export] Instance ErrorType_eq_dec : EqDecision ErrorType.
Proof. solve_decision. Defined.
#[export] Instance DFError_eq_dec : EqDecision DFError.
Proof. solve_decision. Defined.

(** [dragonfly_client_core::Result]. *)
Abbreviation Result := (result DFError).

(** [r.or_err(etype)]: wraps an external failure in its class. *)
Definition or_err {X A} (etype : ErrorType) (r : result X A) : Result A :=
  match r with Ok a => Ok a | Err _ => Err (ExternalError etype) end.
