(* ===== verification/MetadataTypes.v ===== *)
(** * The metadata records and their predicates

    Models the structs of [src/dragonfly-client-storage/src/metadata.rs] and
    their pure methods.  A [NaiveDateTime] is the number of nanoseconds since
    the epoch, a [Duration] a number of nanoseconds.  A method that reads
    [Utc::now()] takes the time read as an argument. *)

From S2P Require Import Prelude.
From Stdlib Require Import ZArith Lia String.
From stdpp Require Import base tactics strings gmap.
Local Open Scope Z_scope.

Abbreviation NaiveDateTime := Z.
Abbreviation Duration := Z.

(** [NaiveDateTime::default()] is the epoch. *)
Definition default_time : NaiveDateTime := 0.

Definition secs (n : Z) : Duration := n * 1000000000.

(** [DEFAULT_DOWNLOAD_TASK_TIMEOUT]. *)
Definition DEFAULT_DOWNLOAD_TASK_TIMEOUT : Duration := secs (24 * 60 * 60).

(** A byte range [start, start + length) of a task ([common::v2::Range]). *)
Record Range := mkRange { r_start : Z; r_length : Z }.

(** ** Tasks *)

Module Task.
(** [struct Task]. *)
Record Task := mkTask {
  id : string;
  piece_length : option Z;
  content_length : option Z;
  response_header : gmap string string;
  uploading_count : Z;
  uploaded_count : Z;
  updated_at : NaiveDateTime;
  created_at : NaiveDateTime;
  prefetched_at : option NaiveDateTime;
  failed_at : option NaiveDateTime;
  finished_at : option NaiveDateTime;
}.

(** [Task::default()]. *)
Definition default : Task :=
  mkTask "" None None ∅ 0 0 default_time default_time None None None.

(** The field assignments of the handlers. *)
Definition set_lengths (pl cl : option Z) (t : Task) : Task :=
  mkTask (id t) pl cl (response_header t) (uploading_count t) (uploaded_count t)
    (updated_at t) (created_at t) (prefetched_at t) (failed_at t) (finished_at t).
Definition set_response_header (h : gmap string string) (t : Task) : Task :=
  mkTask (id t) (piece_length t) (content_length t) h (uploading_count t) (uploaded_count t)
    (updated_at t) (created_at t) (prefetched_at t) (failed_at t) (finished_at t).
Definition set_counts (uploading uploaded : Z) (t : Task) : Task :=
  mkTask (id t) (piece_length t) (content_length t) (response_header t) uploading uploaded
    (updated_at t) (created_at t) (prefetched_at t) (failed_at t) (finished_at t).
Definition set_updated_at (x : NaiveDateTime) (t : Task) : Task :=
  mkTask (id t) (piece_length t) (content_length t) (response_header t) (uploading_count t)
    (uploaded_count t) x (created_at t) (prefetched_at t) (failed_at t) (finished_at t).
Definition set_prefetched_at (x : option NaiveDateTime) (t : Task) : Task :=
  mkTask (id t) (piece_length t) (content_length t) (response_header t) (uploading_count t)
    (uploaded_count t) (updated_at t) (created_at t) x (failed_at t) (finished_at t).
Definition set_failed_at (x : option NaiveDateTime) (t : Task) : Task :=
  mkTask (id t) (piece_length t) (content_length t) (response_header t) (uploading_count t)
    (uploaded_count t) (updated_at t) (created_at t) (prefetched_at t) x (finished_at t).
Definition set_finished_at (x : option NaiveDateTime) (t : Task) : Task :=
  mkTask (id t) (piece_length t) (content_length t) (response_header t) (uploading_count t)
    (uploaded_count t) (updated_at t) (created_at t) (prefetched_at t) (failed_at t) x.

Definition is_started (t : Task) : bool := bool_decide (finished_at t = None).
Definition is_uploading (t : Task) : bool := 0 <? uploading_count t.
Definition is_expired (now : NaiveDateTime) (ttl : Duration) (t : Task) : bool :=
  updated_at t + ttl <? now.
Definition is_prefetched (t : Task) : bool := bool_decide (is_Some (prefetched_at t)).
Definition is_failed (t : Task) : bool := bool_decide (is_Some (failed_at t)).
Definition is_finished (t : Task) : bool := bool_decide (is_Some (finished_at t)).
Definition need_drop_page_cache (now : NaiveDateTime) (idle_timeout : Duration) (t : Task) : bool :=
  is_finished t && negb (is_uploading t) && (updated_at t + idle_timeout <? now).
Definition need_evict (now : NaiveDateTime) (t : Task) : bool :=
  is_finished t || is_failed t || (created_at t + DEFAULT_DOWNLOAD_TASK_TIMEOUT <? now).
Definition is_empty (t : Task) : bool :=
  match content_length t with Some content_length => content_length =? 0 | None => false end.

(** The outer option is [None] when [div_ceil] panics. *)
Definition piece_count (t : Task) : option (option Z) :=
  match content_length t, piece_length t with
  | Some content_length, Some piece_length =>
      Some <$> u64_div_ceil content_length piece_length
  | _, _ => Some None
  end.
End Task.
Abbreviation Task := Task.Task.

(** ** Persistent tasks

    [PersistentTask] and [PersistentCacheTask] are two structs with the same
    fields and methods; one record indexed by the kind models both, so the two
    remain distinct types with distinct namespaces. *)

Inductive PersistentKind : Type := KPersistent | KPersistentCache.

#[export] Instance PersistentKind_eq_dec : EqDecision PersistentKind.
Proof. solve_decision. Defined.

Module PTask.
(** [struct PersistentTask], [struct PersistentCacheTask]. *)
Record PTask (k : PersistentKind) := mkPTask {
  id : string;
  persistent : bool;
  ttl : Duration;
  piece_length : Z;
  content_length : Z;
  uploading_count : Z;
  uploaded_count : Z;
  updated_at : NaiveDateTime;
  created_at : NaiveDateTime;
  failed_at : option NaiveDateTime;
  finished_at : option NaiveDateTime;
}.
Arguments mkPTask {k}.
Arguments id {k}.
Arguments persistent {k}.
Arguments ttl {k}.
Arguments piece_length {k}.
Arguments content_length {k}.
Arguments uploading_count {k}.
Arguments uploaded_count {k}.
Arguments updated_at {k}.
Arguments created_at {k}.
Arguments failed_at {k}.
Arguments finished_at {k}.

Section ptask.
Context {k : PersistentKind}.
Abbreviation PTask := (PTask k).

Definition default : PTask :=
  mkPTask "" false 0 0 0 0 0 default_time default_time None None.

Definition set_counts (uploading uploaded : Z) (t : PTask) : PTask :=
  mkPTask (id t) (persistent t) (ttl t) (piece_length t) (content_length t) uploading uploaded
    (updated_at t) (created_at t) (failed_at t) (finished_at t).
Definition set_download (ttl' : Duration) (p : bool) (pl : Z) (t : PTask) : PTask :=
  mkPTask (id t) p ttl' pl (content_length t) (uploading_count t) (uploaded_count t)
    (updated_at t) (created_at t) (failed_at t) (finished_at t).
Definition set_persistent (p : bool) (t : PTask) : PTask :=
  mkPTask (id t) p (ttl t) (piece_length t) (content_length t) (uploading_count t)
    (uploaded_count t) (updated_at t) (created_at t) (failed_at t) (finished_at t).
Definition set_updated_at (x : NaiveDateTime) (t : PTask) : PTask :=
  mkPTask (id t) (persistent t) (ttl t) (piece_length t) (content_length t) (uploading_count t)
    (uploaded_count t) x (created_at t) (failed_at t) (finished_at t).
Definition set_failed_at (x : option NaiveDateTime) (t : PTask) : PTask :=
  mkPTask (id t) (persistent t) (ttl t) (piece_length t) (content_length t) (uploading_count t)
    (uploaded_count t) (updated_at t) (created_at t) x (finished_at t).
Definition set_finished_at (x : option NaiveDateTime) (t : PTask) : PTask :=
  mkPTask (id t) (persistent t) (ttl t) (piece_length t) (content_length t) (uploading_count t)
    (uploaded_count t) (updated_at t) (created_at t) (failed_at t) x.

Definition is_started (t : PTask) : bool := bool_decide (finished_at t = None).
Definition is_uploading (t : PTask) : bool := 0 <? uploading_count t.
Definition is_expired (now : NaiveDateTime) (t : PTask) : bool := created_at t + ttl t <? now.
Definition is_failed (t : PTask) : bool := bool_decide (is_Some (failed_at t)).
Definition is_finished (t : PTask) : bool := bool_decide (is_Some (finished_at t)).
Definition is_empty (t : PTask) : bool := content_length t =? 0.
Definition is_persistent (t : PTask) : bool := persistent t.
Definition need_drop_page_cache (now : NaiveDateTime) (idle_timeout : Duration) (t : PTask) : bool :=
  is_finished t && negb (is_uploading t) && (updated_at t + idle_timeout <? now).
Definition need_evict (now : NaiveDateTime) (t : PTask) : bool :=
  negb (is_persistent t) &&
  (is_finished t || is_failed t || (created_at t + DEFAULT_DOWNLOAD_TASK_TIMEOUT <? now)).
Definition piece_count (t : PTask) : option Z :=
  u64_div_ceil (content_length t) (piece_length t).
End ptask.
End PTask.

Abbreviation PersistentTask := (PTask.PTask KPersistent).
Abbreviation PersistentCacheTask := (PTask.PTask KPersistentCache).

(** ** Cache tasks *)

Module CacheTask.
(** [struct CacheTask]. *)
Record CacheTask := mkCacheTask {
  id : string;
  piece_length : option Z;
  content_length : option Z;
  response_header : gmap string string;
  uploading_count : Z;
  uploaded_count : Z;
  updated_at : NaiveDateTime;
  created_at : NaiveDateTime;
  failed_at : option NaiveDateTime;
  finished_at : option NaiveDateTime;
}.

Definition default : CacheTask :=
  mkCacheTask "" None None ∅ 0 0 default_time default_time None None.

Definition set_lengths (pl cl : option Z) (t : CacheTask) : CacheTask :=
  mkCacheTask (id t) pl cl (response_header t) (uploading_count t) (uploaded_count t)
    (updated_at t) (created_at t) (failed_at t) (finished_at t).
Definition set_response_header (h : gmap string string) (t : CacheTask) : CacheTask :=
  mkCacheTask (id t) (piece_length t) (content_length t) h (uploading_count t) (uploaded_count t)
    (updated_at t) (created_at t) (failed_at t) (finished_at t).
Definition set_counts (uploading uploaded : Z) (t : CacheTask) : CacheTask :=
  mkCacheTask (id t) (piece_length t) (content_length t) (response_header t) uploading uploaded
    (updated_at t) (created_at t) (failed_at t) (finished_at t).
Definition set_updated_at (x : NaiveDateTime) (t : CacheTask) : CacheTask :=
  mkCacheTask (id t) (piece_length t) (content_length t) (response_header t) (uploading_count t)
    (uploaded_count t) x (created_at t) (failed_at t) (finished_at t).
Definition set_failed_at (x : option NaiveDateTime) (t : CacheTask) : CacheTask :=
  mkCacheTask (id t) (piece_length t) (content_length t) (response_header t) (uploading_count t)
    (uploaded_count t) (updated_at t) (created_at t) x (finished_at t).
Definition set_finished_at (x : option NaiveDateTime) (t : CacheTask) : CacheTask :=
  mkCacheTask (id t) (piece_length t) (content_length t) (response_header t) (uploading_count t)
    (uploaded_count t) (updated_at t) (created_at t) (failed_at t) x.

Definition is_started (t : CacheTask) : bool := bool_decide (finished_at t = None).
Definition is_uploading (t : CacheTask) : bool := 0 <? uploading_count t.
Definition is_expired (now : NaiveDateTime) (ttl : Duration) (t : CacheTask) : bool :=
  updated_at t + ttl <? now.
Definition is_failed (t : CacheTask) : bool := bool_decide (is_Some (failed_at t)).
Definition is_finished (t : CacheTask) : bool := bool_decide (is_Some (finished_at t)).
Definition is_empty (t : CacheTask) : bool :=
  match content_length t with Some content_length => content_length =? 0 | None => false end.
Definition piece_count (t : CacheTask) : option (option Z) :=
  match content_length t, piece_length t with
  | Some content_length, Some piece_length =>
      Some <$> u64_div_ceil content_length piece_length
  | _, _ => Some None
  end.
End CacheTask.
Abbreviation CacheTask := CacheTask.CacheTask.

(** ** Pieces *)

Module Piece.
(** [struct Piece]. *)
Record Piece := mkPiece {
  number : Z;
  offset : Z;
  length : Z;
  digest : string;
  parent_id : option string;
  uploading_count : Z;
  uploaded_count : Z;
  updated_at : NaiveDateTime;
  created_at : NaiveDateTime;
  finished_at : option NaiveDateTime;
}.

Definition default : Piece :=
  mkPiece 0 0 0 "" None 0 0 default_time default_time None.

Definition set_length (l : Z) (p : Piece) : Piece :=
  mkPiece (number p) (offset p) l (digest p) (parent_id p) (uploading_count p)
    (uploaded_count p) (updated_at p) (created_at p) (finished_at p).

(** The assignments of [download_piece_finished]. *)
Definition set_finished (off len : Z) (dig : string) (parent : option string)
    (updated finished : NaiveDateTime) (p : Piece) : Piece :=
  mkPiece (number p) off len dig parent (uploading_count p) (uploaded_count p)
    updated (created_at p) (Some finished).

Definition is_started (p : Piece) : bool := bool_decide (finished_at p = None).
Definition is_finished (p : Piece) : bool := bool_decide (is_Some (finished_at p)).

(** [Piece::cost]: [to_std] fails on a negative difference. *)
Definition cost (p : Piece) : option Duration :=
  match (λ f, f - created_at p) <$> finished_at p with
  | Some cost => if decide (0 ≤ cost) then Some cost else None
  | None => None
  end.
End Piece.
Abbreviation Piece := Piece.Piece.

(** [struct UploadStats]. *)
Record UploadStats := mkUploadStats {
  us_uploading_count : Z;
  us_uploaded_count : Z;
}.

Definition UploadStats_default : UploadStats := mkUploadStats 0 0.
