(* ===== verification/Cache.v ===== *)
(** * The in-memory piece cache

    Models [src/dragonfly-client-storage/src/cache/mod.rs] on top of the
    [LruApi] interface.  A cached task holds an [Arc] to its map of pieces;
    the map lives in a store indexed by reference, so a write through the task
    handed out by [LruCache::get] is seen by every later reader.  Each method
    runs under the write (or read) lock of [tasks], so it is one atomic step.
    [None] is a computation that does not return normally (undefined behaviour
    in the recency cache, or the panic of [Bytes::slice]). *)

From S2P Require Import Prelude Errors LruCache MetadataTypes.
From Stdlib Require Import ZArith Lia String Strings.Byte.
From stdpp Require Import base tactics list gmap strings.
Local Open Scope Z_scope.

Abbreviation Bytes := (list byte).

(** [Bytes::slice(begin..end)], which panics outside the buffer. *)
Definition slice (b e : Z) (content : Bytes) : option Bytes :=
  if decide (b ≤ e ∧ e ≤ Z.of_nat (List.length content))
  then Some (take (Z.to_nat (e - b)) (drop (Z.to_nat b) content))
  else None.

Module Cache.

(** [struct Task] of the cache: its length and the reference to its pieces. *)
Record CTask := mkCTask {
  content_length : Z;
  pieces : positive;
}.

(** [usize::MAX], the capacity given to the recency cache. *)
Definition usize_max : Z := u_max 64.

Section cache.
Context {L : Type} `{LruApi string CTask L}.

(** [struct Cache], with the store of the piece maps. *)
Record Cache := mkCache {
  size : Z;
  capacity : Z;
  tasks : L;
  store : gmap positive (gmap string Bytes);
}.

Definition set_size (n : Z) (c : Cache) : Cache :=
  mkCache n (capacity c) (tasks c) (store c).
Definition set_tasks (t : L) (c : Cache) : Cache :=
  mkCache (size c) (capacity c) t (store c).
Definition set_store (s : gmap positive (gmap string Bytes)) (c : Cache) : Cache :=
  mkCache (size c) (capacity c) (tasks c) s.

(** [Cache::new]. *)
Definition new (cache_capacity : Z) : Cache :=
  mkCache 0 cache_capacity (lru_new usize_max) ∅.

(** A method of the recency cache. *)
Definition with_tasks {A} (m : UB L A) : UB Cache A :=
  λ c, match m (tasks c) with
       | Some (a, t) => Some (a, set_tasks t c)
       | None => None
       end.

(** [Task::new]: the length and a new empty map of pieces. *)
Definition Task_new (content_length : Z) : UB Cache CTask :=
  λ c, let r := fresh (dom (store c)) in
       Some (mkCTask content_length r, set_store (<[r := ∅]> (store c)) c).

(** [Task::write_piece]. *)
Definition Task_write_piece (t : CTask) (id : string) (piece : Bytes) : UB Cache unit :=
  ub_modify (λ c, set_store (alter (insert id piece) (pieces t) (store c)) c).

(** [Task::read_piece]. *)
Definition Task_read_piece (t : CTask) (id : string) : UB Cache (option Bytes) :=
  ub_gets (λ c, store c !! pieces t ≫= lookup id).

(** [Task::contains]. *)
Definition Task_contains (t : CTask) (id : string) : UB Cache bool :=
  ub_gets (λ c, bool_decide (is_Some (store c !! pieces t ≫= lookup id))).

(** The byte range of [read_piece], with the source's [u64] arithmetic. *)
Definition target_range (piece : Piece) (range : option Range) : Z * Z :=
  match range with
  | Some range =>
      let target_offset := u64_sub (Z.max (Piece.offset piece) (r_start range)) (Piece.offset piece) in
      let target_length :=
        u64_add
          (u64_sub
             (u64_sub
                (Z.min (u64_sub (u64_add (Piece.offset piece) (Piece.length piece)) 1)
                       (u64_sub (u64_add (r_start range) (r_length range)) 1))
                target_offset)
             (Piece.offset piece))
          1 in
      (target_offset, target_length)
  | None => (0, Piece.length piece)
  end.

(** [Cache::read_piece]. *)
Definition read_piece (task_id piece_id : string) (piece : Piece) (range : option Range)
    : UB Cache (Result Bytes) :=
  task ← with_tasks (lru_get task_id);
  match task with
  | None => mret (Err (TaskNotFound task_id))
  | Some task =>
      piece_content ← Task_read_piece task piece_id;
      match piece_content with
      | None => mret (Err (PieceNotFound piece_id))
      | Some piece_content =>
          let target_offset := (target_range piece range).1 in
          let target_length := (target_range piece range).2 in
          let b := target_offset in
          let e := u64_add target_offset target_length in
          let len := Z.of_nat (List.length piece_content) in
          if decide (len ≤ b ∨ len < e) then mret (Err InvalidParameter)
          else content ← ub_some (slice b e piece_content); mret (Ok content)
      end
  end.

(** [Cache::write_piece]. *)
Definition write_piece (task_id piece_id : string) (content : Bytes) : UB Cache (Result unit) :=
  task ← with_tasks (lru_get task_id);
  match task with
  | None => mret (Err (TaskNotFound task_id))
  | Some task =>
      c ← Task_contains task piece_id;
      if (c : bool) then mret (Ok tt)
      else _ ← Task_write_piece task piece_id content; mret (Ok tt)
  end.

(** The eviction loop of [put_task]; [fuel] bounds the iterations. *)
Fixpoint evict (fuel : nat) (content_length' : Z) : UB Cache unit :=
  match fuel with
  | O => λ _, None
  | S fuel =>
      λ c,
        if decide (capacity c < u64_add (size c) content_length') then
          (popped ← with_tasks lru_pop_lru;
           match popped with
           | Some (_, task) =>
               _ ← ub_modify (λ c, set_size (u64_sub (size c) (content_length task)) c);
               evict fuel content_length'
           | None => mret tt
           end) c
        else Some (tt, c)
  end.

(** [Cache::put_task]. *)
Definition put_task (fuel : nat) (task_id : string) (content_length' : Z) : UB Cache unit :=
  if decide (content_length' = 0) then mret tt
  else
    cap ← ub_gets capacity;
    if decide (cap < content_length') then mret tt
    else
      _ ← evict fuel content_length';
      task ← Task_new content_length';
      _ ← with_tasks (lru_put task_id task);
      ub_modify (λ c, set_size (u64_add (size c) content_length') c).

(** [Cache::delete_task]. *)
Definition delete_task (task_id : string) : UB Cache (Result unit) :=
  popped ← with_tasks (lru_pop task_id);
  match popped with
  | None => mret (Err (TaskNotFound task_id))
  | Some (_, task) =>
      _ ← ub_modify (λ c, set_size (u64_sub (size c) (content_length task)) c);
      mret (Ok tt)
  end.

(** [Cache::contains_task]. *)
Definition contains_task (id : string) (c : Cache) : bool := lru_contains id (tasks c).

(** [Cache::contains_piece]. *)
Definition contains_piece (task_id piece_id : string) : UB Cache bool :=
  task ← with_tasks (lru_peek task_id);
  match task with
  | Some task => Task_contains task piece_id
  | None => mret false
  end.

(** ** The accounting invariant *)

Context `{!LruSpec string CTask L}.

(** The bytes accounted to a recency list. *)
Definition total (l : list (string * CTask)) : Z :=
  foldr (λ p acc, content_length p.2 + acc) 0 l.

(** [c] caches exactly the tasks of [l], most recently used first, and its
    [size] is the number of bytes they account for. *)
Record inv (c : Cache) (l : list (string * CTask)) : Prop := {
  inv_rep : lru_represents (tasks c) l;
  inv_lru_cap : lru_cap (tasks c) = usize_max;
  inv_keys : NoDup l.*1;
  inv_size : size c = total l;
  inv_fit : total l ≤ capacity c;
  inv_pos : Forall (λ p, 0 < content_length p.2) l;
  inv_capacity : 0 ≤ capacity c < 2 ^ 63;
  inv_store : Forall (λ p, is_Some (store c !! pieces p.2)) l;
  inv_refs : NoDup (pieces <$> l.*2);
}.

(** [keep] is what remains of [l] after dropping the fewest least recently used
    tasks that make room for [n] bytes. *)
Definition evicts_minimal (cap n : Z) (l keep : list (string * CTask)) : Prop :=
  ∃ dropped, l = keep ++ dropped ∧ total keep + n ≤ cap ∧
    ∀ d rest, dropped = d :: rest → cap < total (keep ++ [d]) + n.

Lemma total_app l1 l2 : total (l1 ++ l2) = total l1 + total l2.
Proof. induction l1; simpl; lia. Qed.

Lemma total_ge_length l :
  Forall (λ p, 0 < content_length p.2) l → Z.of_nat (List.length l) ≤ total l.
Proof. induction 1; simpl; lia. Qed.

Lemma new_inv cap : 0 ≤ cap < 2 ^ 63 → inv (new cap) [].
Proof.
  intros Hc. destruct (lru_new_ok usize_max) as [Hr Hcap].
  constructor; simpl; try done; try lia; constructor.
Qed.

Lemma with_tasks_step {A} (m : UB L A) c a t :
  m (tasks c) = Some (a, t) → with_tasks m c = Some (a, set_tasks t c).
Proof. unfold with_tasks. by intros ->. Qed.

Lemma inv_remove c l1 p l2 t' :
  inv c (l1 ++ p :: l2) → lru_represents t' (l1 ++ l2) → lru_cap t' = usize_max →
  inv (set_size (u64_sub (size c) (content_length p.2)) (set_tasks t' c)) (l1 ++ l2) .
Proof.
  intros [Hr Hlc Hk Hs Hf Hp Hcap Hst Hrf] Hr' Hlc'.
  assert (l1 ++ p :: l2 ≡ₚ p :: l1 ++ l2) as Hperm by (symmetry; apply Permutation_middle).
  rewrite Hperm in Hk, Hp, Hst, Hrf. apply NoDup_cons in Hk as [_ Hk].
  apply Forall_cons in Hp as [Hp0 Hp]. apply Forall_cons in Hst as [_ Hst].
  apply NoDup_cons in Hrf as [_ Hrf].
  pose proof (total_ge_length _ Hp). rewrite total_app in *. simpl in *.
  constructor; simpl; try done; rewrite ?total_app; [|lia].
  rewrite Hs, u64_sub_id by solve_range. lia.
Qed.

Lemma spec_pop_lru_snoc (l : list (string * CTask)) p :
  Lru.spec_pop_lru (l ++ [p]) = (Some p, l).
Proof. unfold Lru.spec_pop_lru. by rewrite Lru.split_last_snoc. Qed.

Lemma evict_inv fuel n c l :
  inv c l → (List.length l < fuel)%nat → 0 < n ≤ capacity c →
  ∃ c' keep, evict fuel n c = Some (tt, c') ∧ inv c' keep ∧
    evicts_minimal (capacity c) n l keep ∧ capacity c' = capacity c ∧ store c' = store c.
Proof.
  revert c l. induction fuel as [|fuel IH]; intros c l Hinv Hlen Hn; [lia|].
  pose proof Hinv as [Hr Hlc Hk Hs Hf Hp Hcap _ _].
  pose proof (total_ge_length _ Hp).
  cbn [evict]. rewrite u64_add_id by solve_range. rewrite Hs. case_decide as Hfull.
  - destruct l as [|p l _] using rev_ind; [simpl in *; lia|].
    destruct (lru_pop_lru_ok _ _ Hr) as (t' & Ht' & Hr' & Hlc').
    rewrite spec_pop_lru_snoc in Ht', Hr'. simpl in *.
    erewrite ub_bind_Some by (by apply with_tasks_step). destruct p as [k t]. simpl.
    erewrite ub_bind_Some by done.
    pose proof (inv_remove _ _ _ [] t' Hinv) as Hinv'. rewrite app_nil_r in Hinv'.
    specialize (Hinv' Hr' ltac:(congruence)). simpl in Hinv'. rewrite length_app in Hlen.
    destruct (IH _ _ Hinv') as (c' & keep & He & Hi & (dropped & -> & Hfit & Hmin) & Hc' & Hst);
      [simpl in *; lia | done |].
    exists c', keep. split_and!; [exact He | done | | done | done].
    exists (dropped ++ [(k, t)]). split; [by rewrite app_assoc|]. split; [done|].
    intros d rest Hd. destruct dropped as [|d' dropped]; simpl in Hd; simplify_eq.
    + by rewrite app_nil_r in Hfull.
    + by eapply Hmin.
  - exists c, l. split_and!; try done. exists []. split; [by rewrite app_nil_r|].
    split; [lia|]. done.
Qed.

Lemma spec_put_fresh k v (l : list (string * CTask)) cap :
  Lru.find_key k l = None → Z.of_nat (List.length l) < cap →
  Lru.spec_put cap k v l = (None, (k, v) :: l).
Proof. intros Hk Hl. unfold Lru.spec_put. rewrite Hk. by rewrite decide_False by lia. Qed.

(** Inserting a task that fits. *)
Lemma insert_inv id n c l :
  inv c l → Lru.find_key id l = None → 0 < n → total l + n ≤ capacity c →
  ∃ c' t, (task ← Task_new n; _ ← with_tasks (lru_put id task);
           ub_modify (λ c, set_size (u64_add (size c) n) c)) c = Some (tt, c') ∧
    inv c' ((id, t) :: l) ∧ content_length t = n ∧ store c' !! pieces t = Some ∅ ∧
    capacity c' = capacity c.
Proof.
  intros [Hr Hlc Hk Hs Hf Hp Hcap Hst Hrf] Hid Hn Hfit.
  pose proof (total_ge_length _ Hp).
  set (r := fresh (dom (store c))). set (t := mkCTask n r).
  set (c1 := set_store (<[r := ∅]> (store c)) c).
  assert (Task_new n c = Some (t, c1)) as H1 by done.
  assert (store c !! r = None) as Hr0 by (apply not_elem_of_dom, is_fresh).
  destruct (lru_put_ok id t _ _ Hr) as (t' & Ht' & Hr' & Hlc').
  rewrite Hlc, spec_put_fresh in Ht', Hr' by (try done; unfold usize_max; solve_range).
  simpl in *. erewrite ub_bind_Some by exact H1.
  erewrite ub_bind_Some by (by apply with_tasks_step).
  eexists _, t. split; [reflexivity|]. split_and!; [|done| |done].
  2:{ simpl. by rewrite lookup_insert_eq. }
  constructor; simpl; try done; [congruence | | | lia | | |].
  - constructor; [|done]. by apply Lru.find_key_None.
  - rewrite Hs, u64_add_id by solve_range. lia.
  - by constructor.
  - constructor; [by rewrite lookup_insert_eq|]. eapply Forall_impl; [exact Hst|].
    intros p Hsp. simpl. destruct (decide (r = pieces p.2)) as [<-|]; [by rewrite lookup_insert_eq|].
    by rewrite lookup_insert_ne.
  - constructor; [|done]. intros (x & Hx & Hin)%list_elem_of_fmap.
    apply list_elem_of_fmap in Hin as (p & -> & Hin).
    rewrite Forall_forall in Hst. specialize (Hst p Hin). rewrite <- Hx in Hst.
    destruct Hst. congruence.
Qed.

(** C11: admission of a new task. On a well-accounted cache, [put_task] of a
    task that is not cached returns (the eviction loop terminates), keeps
    [size] equal to the bytes of the cached tasks and within the capacity, and
    evicts exactly the shortest least-recently-used suffix that makes room; a
    task of length 0 or larger than the whole cache changes nothing. *)
Theorem put_task_admits (fuel : nat) (id : string) (n : Z) (c : Cache) (l : list (string * CTask)) :
  inv c l → Lru.find_key id l = None → u_in 64 n → (List.length l < fuel)%nat →
  ∃ c', put_task fuel id n c = Some (tt, c') ∧
    if decide (n = 0 ∨ capacity c < n) then c' = c
    else ∃ keep t, evicts_minimal (capacity c) n l keep ∧ inv c' ((id, t) :: keep) ∧
           content_length t = n ∧ store c' !! pieces t = Some ∅.
Proof.
  intros Hinv Hid Hn Hfuel. unfold put_task.
  destruct (decide (n = 0 ∨ capacity c < n)) as [Hskip|Hskip].
  { exists c. split; [|done]. destruct (decide (n = 0)); [done|].
    erewrite ub_bind_Some by done. by rewrite decide_True by tauto. }
  rewrite decide_False by tauto. erewrite ub_bind_Some by done.
  rewrite decide_False by tauto.
  destruct (evict_inv fuel n c l) as (c1 & keep & He & Hi & Hmin & Hcap & _);
    [done | done | unfold u_in in *; lia |].
  erewrite ub_bind_Some by exact He.
  pose proof Hmin as (dropped & Hl & Hfit & _).
  destruct (insert_inv id n c1 keep) as (c' & t & Hput & Hi' & Hct & Hst & _);
    [done | | unfold u_in in *; lia | congruence |].
  { apply Lru.find_key_None. apply Lru.find_key_None in Hid. subst l.
    rewrite fmap_app in Hid. set_solver. }
  exists c'. split; [exact Hput|]. by exists keep, t.
Qed.

(** [delete_task] on both branches. *)
Lemma delete_task_inv (id : string) (c : Cache) (l : list (string * CTask)) :
  inv c l →
  ∃ c', match Lru.find_key id l with
        | Some t => delete_task id c = Some (Ok tt, c') ∧ size c' = size c - content_length t
        | None => delete_task id c = Some (Err (TaskNotFound id), c') ∧ size c' = size c
        end ∧ inv c' (Lru.remove_key id l).
Proof.
  intros Hinv. pose proof Hinv as [Hr Hlc Hk Hs Hf Hp Hcap Hst Hrf]. unfold delete_task.
  destruct (lru_pop_ok id _ _ Hr) as (t' & Ht' & Hr' & Hlc'). unfold Lru.spec_pop in *.
  destruct (Lru.find_key id l) as [t|] eqn:Hid; simpl in *;
    (erewrite ub_bind_Some by (by apply with_tasks_step)); simpl.
  - destruct (Lru.find_key_Some _ _ _ Hid) as (l1 & l2 & -> & _).
    rewrite Lru.remove_key_middle in * by done.
    erewrite ub_bind_Some by done. eexists. split; [split; [reflexivity|]|].
    + simpl. rewrite u64_sub_id; [done|].
      rewrite Hs in *. pose proof (total_ge_length _ Hp). rewrite total_app in *. simpl in *.
      apply Forall_app in Hp as [Hp1 [Hp0 Hp2]%Forall_cons].
      pose proof (total_ge_length _ Hp1). pose proof (total_ge_length _ Hp2).
      simpl in *. solve_range.
    + apply (inv_remove c l1 (id, t) l2 t'); [done..|congruence].
  - eexists. split; [split; reflexivity|]. apply Lru.find_key_None in Hid.
    rewrite Lru.remove_key_absent by done. constructor; simpl; try done. congruence.
Qed.

(** [delete_task] of a cached task gives back exactly its bytes and keeps
    every other task in its place; for a task that is not cached it reports
    [TaskNotFound] and keeps the accounting. *)
Theorem delete_task_accounts (id : string) (c : Cache) (l : list (string * CTask)) :
  inv c l →
  ∃ c', match Lru.find_key id l with
        | Some t => delete_task id c = Some (Ok tt, c') ∧ size c' = size c - content_length t
        | None => delete_task id c = Some (Err (TaskNotFound id), c') ∧ size c' = size c
        end ∧ inv c' (Lru.remove_key id l).
Proof. apply delete_task_inv. Qed.

(** re-admitting a task that is already cached leaks its old size: when the
    second [put_task] fits, the task is replaced in the recency cache but the
    bytes of the replaced entry are never subtracted, so [size] exceeds the
    bytes of the cached tasks by the old length. *)
Theorem put_task_existing_leaks (fuel : nat) (id : string) (n : Z) (c : Cache)
    (l : list (string * CTask)) (old : CTask) :
  inv c l → Lru.find_key id l = Some old → 0 < n → total l + n ≤ capacity c →
  ∃ c' t, put_task (S fuel) id n c = Some (tt, c') ∧ content_length t = n ∧
    lru_represents (tasks c') ((id, t) :: Lru.remove_key id l) ∧
    size c' = total ((id, t) :: Lru.remove_key id l) + content_length old.
Proof.
  intros Hinv Hid Hn Hfit. pose proof Hinv as [Hr Hlc Hk Hs Hf Hp Hcap Hst Hrf].
  pose proof (total_ge_length _ Hp). unfold put_task.
  rewrite decide_False by lia. erewrite ub_bind_Some by done. rewrite decide_False by lia.
  assert (evict (S fuel) n c = Some (tt, c)) as He.
  { cbn [evict]. rewrite u64_add_id by solve_range. by rewrite decide_False by lia. }
  erewrite ub_bind_Some by exact He.
  set (t := mkCTask n (fresh (dom (store c)))).
  destruct (lru_put_ok id t _ _ Hr) as (t' & Ht' & Hr' & Hlc').
  unfold Lru.spec_put in Ht', Hr'. rewrite Hid in Ht', Hr'. simpl in Ht', Hr'.
  erewrite (ub_bind_Some (Task_new n)) by reflexivity.
  erewrite ub_bind_Some by (apply with_tasks_step; exact Ht').
  eexists _, t. split; [reflexivity|]. split; [done|]. split; [done|]. simpl.
  destruct (Lru.find_key_Some _ _ _ Hid) as (l1 & l2 & -> & _).
  rewrite Lru.remove_key_middle by done. rewrite Hs, u64_add_id by solve_range.
  rewrite !total_app. simpl. lia.
Qed.

(** ** Reading back what was written *)

(** The bytes of [content], stored for [piece], that the [range] asks for. *)
Definition requested (piece : Piece) (range : option Range) (content : Bytes) : Bytes :=
  match range with
  | None => content
  | Some range =>
      let lo := Z.max (Piece.offset piece) (r_start range) in
      let hi := Z.min (Piece.offset piece + Piece.length piece) (r_start range + r_length range) in
      take (Z.to_nat (hi - lo)) (drop (Z.to_nat (lo - Piece.offset piece)) content)
  end.

(** The piece describes [content] and the range overlaps the piece. *)
Definition readable (piece : Piece) (range : option Range) (content : Bytes) : Prop :=
  0 ≤ Piece.offset piece ∧ 0 < Piece.length piece ∧
  Piece.length piece = Z.of_nat (List.length content) ∧
  Piece.offset piece + Piece.length piece < 2 ^ 64 ∧
  match range with
  | None => True
  | Some r => 0 ≤ r_start r ∧ 0 < r_length r ∧ r_start r + r_length r < 2 ^ 64 ∧
      r_start r < Piece.offset piece + Piece.length piece ∧
      Piece.offset piece < r_start r + r_length r
  end.

Lemma target_range_requested piece range content :
  readable piece range content →
  let '(b, n) := target_range piece range in
  0 ≤ b ∧ 0 < n ∧ b + n ≤ Z.of_nat (List.length content) ∧
  slice b (u64_add b n) content = Some (requested piece range content).
Proof.
  intros (Ho & Hl & Hc & Hb & Hr). unfold target_range, requested, slice.
  destruct range as [r|].
  - destruct Hr as (Hs & Hn & Hm & H1 & H2).
    rewrite (u64_add_id (Piece.offset piece)), (u64_add_id (r_start r)) by solve_range.
    rewrite (u64_sub_id (Z.max _ _)) by solve_range.
    rewrite (u64_sub_id (_ + _) 1), (u64_sub_id (r_start r + _) 1) by solve_range.
    rewrite (u64_sub_id (Z.min _ _)) by solve_range.
    rewrite u64_sub_id by solve_range. rewrite (u64_add_id _ 1) by solve_range.
    rewrite u64_add_id by solve_range.
    split_and!; try lia. rewrite decide_True by lia. do 2 f_equal; lia.
  - rewrite u64_add_id by solve_range. split_and!; try lia. rewrite decide_True by lia.
    f_equal. replace (Z.to_nat _) with (List.length content) by lia. simpl. apply firstn_all.
Qed.

(** A task found in the cache moves to the front and stays represented. *)
Lemma lookup_inv id c l t :
  inv c l → Lru.find_key id l = Some t →
  ∃ c', with_tasks (lru_get id) c = Some (Some t, c') ∧ store c' = store c ∧
    inv c' ((id, t) :: Lru.remove_key id l).
Proof.
  intros [Hr Hlc Hk Hs Hf Hp Hcap Hst Hrf] Hid.
  destruct (lru_get_ok id _ _ Hr) as (t' & Ht' & Hr' & Hlc').
  unfold Lru.spec_get in *. rewrite Hid in *. simpl in *.
  eexists. split; [by apply with_tasks_step|]. split; [done|].
  destruct (Lru.find_key_Some _ _ _ Hid) as (l1 & l2 & -> & _).
  rewrite Lru.remove_key_middle in * by done.
  assert ((id, t) :: l1 ++ l2 ≡ₚ l1 ++ (id, t) :: l2) as Hperm by apply Permutation_middle.
  assert (total ((id, t) :: l1 ++ l2) = total (l1 ++ (id, t) :: l2)) as Htot.
  { simpl. rewrite !total_app. simpl. lia. }
  constructor; cbn [tasks size capacity store set_tasks]; rewrite ?Htot, ?Hperm; try done; congruence.
Qed.

(** The content of a piece of a cached task. *)
Definition cached (c : Cache) (t : CTask) (pid : string) : option Bytes :=
  store c !! pieces t ≫= lookup pid.

(** Writing a piece of a cached task succeeds; the first content stays. *)
Lemma write_piece_spec tid pid content c l t :
  inv c l → Lru.find_key tid l = Some t →
  ∃ c', write_piece tid pid content c = Some (Ok tt, c') ∧
    inv c' ((tid, t) :: Lru.remove_key tid l) ∧
    cached c' t pid = Some (default content (cached c t pid)).
Proof.
  intros Hinv Hid. destruct (lookup_inv _ _ _ _ Hinv Hid) as (c1 & H1 & Hst1 & Hinv1).
  pose proof (inv_store _ _ Hinv1) as Hs1. apply Forall_cons in Hs1 as [[m Hm] _]. simpl in Hm.
  unfold write_piece. erewrite ub_bind_Some by exact H1. cbv beta iota.
  erewrite ub_bind_Some by reflexivity. unfold cached. rewrite <- Hst1, Hm. simpl.
  destruct (m !! pid) as [b|] eqn:Hb.
  - rewrite bool_decide_eq_true_2 by done. exists c1. split; [done|]. split; [done|].
    by rewrite Hm; simpl; rewrite Hb.
  - rewrite bool_decide_eq_false_2 by (by intros []).
    eexists. split; [reflexivity|]. split.
    + destruct Hinv1 as [Hr Hlc Hk Hs Hf Hp Hcap Hst Hrf]. constructor; try done.
      eapply Forall_impl; [exact Hst|]. intros p Hsp. simpl. by rewrite lookup_alter_is_Some.
    + simpl. rewrite lookup_alter_eq, Hm. simpl. by rewrite lookup_insert_eq.
Qed.

(** C20: what [write_piece] stores is what [read_piece] returns.  On a cached
    task, writing a new piece and reading it back with a range that overlaps
    the piece returns exactly the requested bytes of the written content, for
    every offset, length and range that fit in [u64]. *)
Theorem write_read_piece (tid pid : string) (content : Bytes) (piece : Piece)
    (range : option Range) (c : Cache) (l : list (string * CTask)) (t : CTask) :
  inv c l → Lru.find_key tid l = Some t → store c !! pieces t ≫= lookup pid = None →
  readable piece range content →
  ∃ c1 c2, write_piece tid pid content c = Some (Ok tt, c1) ∧
    read_piece tid pid piece range c1 = Some (Ok (requested piece range content), c2).
Proof.
  intros Hinv Hid Hnew Hread.
  destruct (write_piece_spec tid pid content c l t Hinv Hid) as (c1 & H1 & Hinv1 & Hc1).
  unfold cached in Hc1. rewrite Hnew in Hc1. simpl in Hc1.
  destruct (lookup_inv tid c1 _ t Hinv1) as (c2 & H2 & Hst2 & _).
  { simpl. by rewrite decide_True. }
  exists c1, c2. split; [done|]. unfold read_piece. erewrite ub_bind_Some by exact H2.
  cbv beta iota. erewrite ub_bind_Some by reflexivity. rewrite Hst2, Hc1.
  pose proof (target_range_requested _ _ _ Hread) as Ht.
  destruct (target_range piece range) as [b n]. simpl. destruct Ht as (Hb & Hn & Hlen & Hslice).
  rewrite u64_add_id in * by (destruct Hread as (?&?&?&?&_); solve_range).
  rewrite decide_False by lia. by rewrite Hslice.
Qed.

End cache.
Arguments Cache : clear implicits.
End Cache.

(** ** Witnesses, on the pointer implementation of the recency cache *)

Module CacheWitness.
Import Cache.
Abbreviation PtrCache := (Cache.Cache (Lru.LruCache string CTask)).

(** A cache of capacity 100 holding one task ["a"] of 5 bytes. *)
Lemma one_task : ∃ (c : PtrCache) (t : CTask), inv c [("a", t)] ∧ content_length t = 5 ∧
  store c !! pieces t = Some ∅ ∧ capacity c = 100.
Proof.
  destruct (insert_inv (L := Lru.LruCache string CTask) "a" 5 (new 100) [])
    as (c & t & _ & Hinv & Hn & Hs & Hc); [apply new_inv; lia | done | lia | simpl; lia |].
  by exists c, t.
Qed.

Lemma put_task_admits_witness :
  ∃ c' : PtrCache, put_task 1 "a" 5 (new 100) = Some (tt, c') ∧
    ∃ keep t, evicts_minimal 100 5 [] keep ∧ inv c' (("a", t) :: keep) ∧
      content_length t = 5 ∧ store c' !! pieces t = Some ∅.
Proof.
  apply (put_task_admits (L := Lru.LruCache string CTask) 1 "a" 5 (new 100) []);
    [apply new_inv; lia | reflexivity | unfold u_in; lia | simpl; lia].
Defined.

Lemma delete_task_accounts_witness :
  ∃ (c c' : PtrCache) t, inv c [("a", t)] ∧ delete_task "a" c = Some (Ok tt, c') ∧
    size c' = size c - 5 ∧ inv c' [].
Proof.
  destruct one_task as (c & t & Hinv & Hn & _). 
  destruct (delete_task_accounts (L := Lru.LruCache string CTask) "a" c [("a", t)] Hinv)
    as (c' & [Hd Hs] & Hinv').
  exists c, c', t. rewrite Hn in Hs. split_and!; [exact Hinv | exact Hd | exact Hs | exact Hinv'].
Defined.

(** Admitting ["a"] twice accounts 11 bytes for the 6 that are cached. *)
Lemma put_task_existing_leaks_witness :
  ∃ (c c' : PtrCache) t old, inv c [("a", old)] ∧ put_task 1 "a" 6 c = Some (tt, c') ∧
    lru_represents (tasks c') [("a", t)] ∧ content_length t = 6 ∧ size c' = 11.
Proof.
  destruct one_task as (c & old & Hinv & Hn & _ & Hc).
  destruct (put_task_existing_leaks (L := Lru.LruCache string CTask) 0 "a" 6 c [("a", old)] old)
    as (c' & t & Hp & Ht & Hr & Hs);
    [exact Hinv | reflexivity | lia | simpl; rewrite Hn, Hc; lia |].
  exists c, c', t, old. split_and!; [exact Hinv | exact Hp | exact Hr | exact Ht |].
  rewrite Hs. simpl. rewrite Ht, Hn. reflexivity.
Defined.

Lemma write_read_piece_witness :
  ∃ (c c1 c2 : PtrCache), write_piece "a" "a-0" [x01; x02; x03; x04] c = Some (Ok tt, c1) ∧
    read_piece "a" "a-0" (Piece.mkPiece 0 10 4 "" None 0 0 0 0 None) (Some (mkRange 11 2)) c1
      = Some (Ok [x02; x03], c2).
Proof.
  destruct one_task as (c & t & Hinv & Hn & Hs & Hc).
  destruct (write_read_piece (L := Lru.LruCache string CTask) "a" "a-0" [x01; x02; x03; x04]
    (Piece.mkPiece 0 10 4 "" None 0 0 0 0 None) (Some (mkRange 11 2)) c [("a", t)] t)
    as (c1 & c2 & H1 & H2);
    [exact Hinv | reflexivity | by rewrite Hs | unfold readable; simpl; lia |].
  exists c, c1, c2. split; [exact H1 | exact H2].
Defined.
End CacheWitness.
