(* ===== verification/Engine.v ===== *)
(** * The storage engine

    Models [src/dragonfly-client-storage/src/storage_engine/mod.rs] and
    [storage_engine/rocksdb.rs].  The trait [Operations] is a type class; the
    RocksDB library and the bincode serializer are not part of the repository,
    so they are the parameters [RocksDB] and [Bincode], with the documented
    behaviour the engine relies on in [RocksDBLaws] and [BincodeLaws].
    [OperationsLaws] is what the engine promises to [Metadata]; the instance
    [rocksdb_operations_laws] shows that the RocksDB engine keeps it. *)

From S2P Require Import Prelude Errors MetadataTypes.
From Stdlib Require Import ZArith Lia String Strings.Byte.
From stdpp Require Import base tactics list gmap strings.

Abbreviation bytes := (list byte).

#[export] Instance byte_eq_dec : EqDecision byte := Byte.byte_eq_dec.
#[export] Program Instance byte_countable : Countable byte :=
  inj_countable Byte.to_N Byte.of_N _.
Next Obligation. apply Byte.of_to_N. Qed.

(** [str::as_bytes]. *)
Definition as_bytes (s : string) : bytes := String.list_byte_of_string s.

Lemma as_bytes_inj (s t : string) : as_bytes s = as_bytes t → s = t.
Proof.
  intros Heq%(f_equal String.string_of_list_byte). unfold as_bytes in Heq.
  by rewrite !String.string_of_list_byte_of_string in Heq.
Qed.

Lemma length_as_bytes (s : string) : List.length (as_bytes s) = String.length s.
Proof.
  unfold as_bytes, String.list_byte_of_string. rewrite length_map.
  induction s; simpl; congruence.
Qed.

Lemma as_bytes_app (s t : string) : as_bytes (s +:+ t) = as_bytes s ++ as_bytes t.
Proof.
  unfold as_bytes, String.list_byte_of_string. rewrite <- map_app. f_equal.
  induction s as [|a s IH]; [done|]. simpl. by f_equal.
Qed.

(** ** Objects *)

(** [bincode::serialize] and [bincode::deserialize] at a type. *)
Class Bincode (O : Type) := {
  bincode_serialize : O → result string bytes;
  bincode_deserialize : bytes → result string O;
}.

(** Decoding inverts encoding. *)
Class BincodeLaws (O : Type) `{Bincode O} :=
  bincode_roundtrip (o : O) (b : bytes) : bincode_serialize o = Ok b → bincode_deserialize b = Ok o.

(** [trait DatabaseObject]. *)
Class DatabaseObject (O : Type) := {
  NAMESPACE : string;
  object_bincode :: Bincode O;
}.

(** [DatabaseObject::serialized]. *)
Definition serialized {O} `{DatabaseObject O} (o : O) : Result bytes :=
  or_err SerializeError (bincode_serialize o).
(** [DatabaseObject::deserialize_from]. *)
Definition deserialize_from {O} `{DatabaseObject O} (b : bytes) : Result O :=
  or_err SerializeError (bincode_deserialize b).

Lemma deserialize_serialized {O} `{DatabaseObject O, !BincodeLaws O} (o : O) (b : bytes) :
  serialized o = Ok b → deserialize_from b = Ok o.
Proof.
  unfold serialized, deserialize_from. destruct (bincode_serialize o) as [b'|] eqn:Hs; [|done].
  intros [= <-]. by rewrite (bincode_roundtrip _ _ Hs).
Qed.

(** ** The trait [Operations]

    An iterator is the list of its items; each item may fail on its own. *)

Class Operations (E : Type) := {
  op_get {O} `{DatabaseObject O} : E → bytes → Result (option O);
  op_multi_get {O} `{DatabaseObject O} : E → list bytes → Result (list (option O));
  op_exists O `{DatabaseObject O} : E → bytes → Result bool;
  op_put {O} `{DatabaseObject O} : bytes → O → ST E DFError unit;
  op_delete O `{DatabaseObject O} : bytes → ST E DFError unit;
  op_iter O `{DatabaseObject O} : E → Result (list (Result (bytes * O)));
  op_iter_raw O `{DatabaseObject O} : E → Result (list (Result (bytes * bytes)));
  op_prefix_iter O `{DatabaseObject O} : E → bytes → Result (list (Result (bytes * O)));
  op_prefix_iter_raw O `{DatabaseObject O} : E → bytes → Result (list (Result (bytes * bytes)));
  op_batch_delete O `{DatabaseObject O} : list bytes → ST E DFError unit;
}.

(** The raw value under a key of a namespace, decoded. *)
Definition decodes {O} `{DatabaseObject O} (raw : option bytes) (r : option O) : Prop :=
  match raw with
  | None => r = None
  | Some b => ∃ o, deserialize_from b = Ok o ∧ r = Some o
  end.

Abbreviation Contents := (gmap (string * bytes) bytes).

Definition delete_all (ns : string) (keys : list bytes) (m : Contents) : Contents :=
  foldr (λ k, delete (ns, k)) m keys.

(** What an engine promises about its contents.  A failed write leaves the old
    or the new contents; a read that fails promises nothing. *)
Class OperationsLaws (E : Type) `{Operations E} := {
  contents : E → Contents;
  op_get_ok {O} `{DatabaseObject O} (e : E) k (r : option O) :
    op_get e k = Ok r → decodes (contents e !! (NAMESPACE (O := O), k)) r;
  op_multi_get_ok {O} `{DatabaseObject O} (e : E) ks (rs : list (option O)) :
    op_multi_get e ks = Ok rs →
    Forall2 (λ k r, decodes (contents e !! (NAMESPACE (O := O), k)) r) ks rs;
  op_exists_ok O `{DatabaseObject O} (e : E) k b :
    op_exists O e k = Ok b → b = bool_decide (is_Some (contents e !! (NAMESPACE (O := O), k)));
  op_put_ok {O} `{DatabaseObject O} (e e' : E) k (o : O) :
    op_put k o e = (Ok tt, e') →
    ∃ b, serialized o = Ok b ∧ contents e' = <[(NAMESPACE (O := O), k) := b]> (contents e);
  op_put_err {O} `{DatabaseObject O} (e e' : E) k (o : O) x :
    op_put k o e = (Err x, e') →
    contents e' = contents e ∨
    ∃ b, serialized o = Ok b ∧ contents e' = <[(NAMESPACE (O := O), k) := b]> (contents e);
  op_delete_ok O `{DatabaseObject O} (e e' : E) k :
    op_delete O k e = (Ok tt, e') → contents e' = delete (NAMESPACE (O := O), k) (contents e);
  op_delete_err O `{DatabaseObject O} (e e' : E) k x :
    op_delete O k e = (Err x, e') →
    contents e' = contents e ∨ contents e' = delete (NAMESPACE (O := O), k) (contents e);
  op_iter_raw_ok O `{DatabaseObject O} (e : E) l kvs :
    op_iter_raw O e = Ok l → collect id l = Ok kvs →
    NoDup kvs.*1 ∧ ∀ k v, (k, v) ∈ kvs ↔ contents e !! (NAMESPACE (O := O), k) = Some v;
  op_iter_ok O `{DatabaseObject O} (e : E) l (kos : list (bytes * O)) :
    op_iter O e = Ok l → collect id l = Ok kos →
    NoDup kos.*1 ∧
    ∀ k o, (k, o) ∈ kos ↔
      ∃ v, contents e !! (NAMESPACE (O := O), k) = Some v ∧ deserialize_from v = Ok o;
  op_prefix_iter_raw_ok O `{DatabaseObject O} (e : E) p l kvs :
    List.length p = 64%nat → op_prefix_iter_raw O e p = Ok l → collect id l = Ok kvs →
    NoDup kvs.*1 ∧
    ∀ k v, (k, v) ∈ kvs ↔ p `prefix_of` k ∧ contents e !! (NAMESPACE (O := O), k) = Some v;
  op_batch_delete_ok O `{DatabaseObject O} (e e' : E) ks :
    op_batch_delete O ks e = (Ok tt, e') →
    contents e' = delete_all (NAMESPACE (O := O)) ks (contents e);
  op_batch_delete_err O `{DatabaseObject O} (e e' : E) ks x :
    op_batch_delete O ks e = (Err x, e') →
    contents e' = contents e ∨ contents e' = delete_all (NAMESPACE (O := O)) ks (contents e);
}.

(** ** RocksDB *)

(** The operations of [rocksdb::DB] the engine calls, per column family. *)
Class RocksDB (DB : Type) := {
  has_cf : DB → string → bool;
  get_cf : DB → string → bytes → result string (option bytes);
  batched_multi_get_cf : DB → string → list bytes → list (result string (option bytes));
  put_cf_opt : string → bytes → bytes → ST DB string unit;
  delete_cf_opt : string → bytes → ST DB string unit;
  iterator_cf_opt : DB → string → list (result string (bytes * bytes));
  prefix_iterator_cf : DB → string → bytes → list (result string (bytes * bytes));
  write_opt_deletes : string → list bytes → ST DB string unit;
}.

(** Documented behaviour: a read that succeeds sees the contents, a write that
    succeeds is applied, a failed write or batch is applied entirely or not at
    all, and a prefix iterator over the 64-byte fixed prefix yields the keys
    with that prefix. *)
Class RocksDBLaws (DB : Type) `{RocksDB DB} := {
  db_contents : DB → Contents;
  get_cf_ok db cf k r : get_cf db cf k = Ok r → r = db_contents db !! (cf, k);
  batched_multi_get_cf_ok db cf ks :
    Forall2 (λ k r, ∀ v, r = Ok v → v = db_contents db !! (cf, k)) ks
      (batched_multi_get_cf db cf ks);
  put_cf_ok db cf k v : let '(r, db') := put_cf_opt cf k v db in
    if is_ok r then db_contents db' = <[(cf, k) := v]> (db_contents db)
    else db_contents db' = db_contents db ∨ db_contents db' = <[(cf, k) := v]> (db_contents db);
  delete_cf_ok db cf k : let '(r, db') := delete_cf_opt cf k db in
    if is_ok r then db_contents db' = delete (cf, k) (db_contents db)
    else db_contents db' = db_contents db ∨ db_contents db' = delete (cf, k) (db_contents db);
  iterator_cf_ok db cf kvs : collect id (iterator_cf_opt db cf) = Ok kvs →
    NoDup kvs.*1 ∧ ∀ k v, (k, v) ∈ kvs ↔ db_contents db !! (cf, k) = Some v;
  prefix_iterator_cf_ok db cf p kvs : List.length p = 64%nat →
    collect id (prefix_iterator_cf db cf p) = Ok kvs →
    NoDup kvs.*1 ∧ ∀ k v, (k, v) ∈ kvs ↔ p `prefix_of` k ∧ db_contents db !! (cf, k) = Some v;
  write_deletes_ok db cf ks : let '(r, db') := write_opt_deletes cf ks db in
    if is_ok r then db_contents db' = delete_all cf ks (db_contents db)
    else db_contents db' = db_contents db ∨ db_contents db' = delete_all cf ks (db_contents db);
}.

Module Rocksdb.
Section rocksdb.
Context {DB : Type} `{RocksDB DB}.

(** An effectful call whose failure is wrapped by [or_err]. *)
Definition st_or_err {A} (etype : ErrorType) (m : ST DB string A) : ST DB DFError A :=
  λ db, let '(r, db') := m db in (or_err etype r, db').

(** [cf_handle]. *)
Definition cf_handle O `{DatabaseObject O} (db : DB) : Result string :=
  let cf_name := NAMESPACE (O := O) in
  if has_cf db cf_name then Ok cf_name else Err (ColumnFamilyNotFound cf_name).

(** Decoding of one value returned by RocksDB. *)
Definition decode_value {O} `{DatabaseObject O} (value : option bytes) : Result (option O) :=
  match value with
  | Some value => o ← deserialize_from value; Ok (Some o)
  | None => Ok None
  end.

(** [RocksdbStorageEngine::get]. *)
Definition get {O} `{DatabaseObject O} (db : DB) (key : bytes) : Result (option O) :=
  cf ← cf_handle O db;
  value ← or_err StorageError (get_cf db cf key);
  decode_value value.

(** [RocksdbStorageEngine::multi_get]. *)
Definition multi_get {O} `{DatabaseObject O} (db : DB) (keys : list bytes)
    : Result (list (option O)) :=
  cf ← cf_handle O db;
  collect (λ value, v ← or_err StorageError value; decode_value v)
    (batched_multi_get_cf db cf keys).

(** [RocksdbStorageEngine::exists]. *)
Definition exists_ O `{DatabaseObject O} (db : DB) (key : bytes) : Result bool :=
  cf ← cf_handle O db;
  value ← or_err StorageError (get_cf db cf key);
  Ok (bool_decide (is_Some value)).

(** [RocksdbStorageEngine::put]. *)
Definition put {O} `{DatabaseObject O} (key : bytes) (value : O) : ST DB DFError unit :=
  cf ← reads (cf_handle O);
  data ← lift (serialized value);
  st_or_err StorageError (put_cf_opt cf key data).

(** [RocksdbStorageEngine::delete]. *)
Definition delete O `{DatabaseObject O} (key : bytes) : ST DB DFError unit :=
  cf ← reads (cf_handle O);
  st_or_err StorageError (delete_cf_opt cf key).

(** One decoded item of an iterator. *)
Definition decode_item {O} `{DatabaseObject O} (ele : result string (bytes * bytes))
    : Result (bytes * O) :=
  kv ← or_err StorageError ele; o ← deserialize_from kv.2; Ok (kv.1, o).

(** [RocksdbStorageEngine::iter]. *)
Definition iter O `{DatabaseObject O} (db : DB) : Result (list (Result (bytes * O))) :=
  cf ← cf_handle O db;
  Ok (decode_item <$> iterator_cf_opt db cf).

(** [RocksdbStorageEngine::iter_raw]. *)
Definition iter_raw O `{DatabaseObject O} (db : DB) : Result (list (Result (bytes * bytes))) :=
  cf ← cf_handle O db;
  Ok (or_err StorageError <$> iterator_cf_opt db cf).

(** [RocksdbStorageEngine::prefix_iter]. *)
Definition prefix_iter O `{DatabaseObject O} (db : DB) (prefix : bytes)
    : Result (list (Result (bytes * O))) :=
  cf ← cf_handle O db;
  Ok (decode_item <$> prefix_iterator_cf db cf prefix).

(** [RocksdbStorageEngine::prefix_iter_raw]. *)
Definition prefix_iter_raw O `{DatabaseObject O} (db : DB) (prefix : bytes)
    : Result (list (Result (bytes * bytes))) :=
  cf ← cf_handle O db;
  Ok (or_err StorageError <$> prefix_iterator_cf db cf prefix).

(** [RocksdbStorageEngine::batch_delete]: one write batch. *)
Definition batch_delete O `{DatabaseObject O} (keys : list bytes) : ST DB DFError unit :=
  cf ← reads (cf_handle O);
  st_or_err StorageError (write_opt_deletes cf keys).

End rocksdb.
End Rocksdb.

(** [impl Operations for RocksdbStorageEngine]. *)
#[export] Instance rocksdb_operations {DB} `{RocksDB DB} : Operations DB := {
  op_get O _ := Rocksdb.get;
  op_multi_get O _ := Rocksdb.multi_get;
  op_exists O _ := Rocksdb.exists_ O;
  op_put O _ := Rocksdb.put;
  op_delete O _ := Rocksdb.delete O;
  op_iter O _ := Rocksdb.iter O;
  op_iter_raw O _ := Rocksdb.iter_raw O;
  op_prefix_iter O _ := Rocksdb.prefix_iter O;
  op_prefix_iter_raw O _ := Rocksdb.prefix_iter_raw O;
  op_batch_delete O _ := Rocksdb.batch_delete O;
}.

(** ** The RocksDB engine keeps the promises of [OperationsLaws] *)

Module RocksdbLaws.
Import Rocksdb.
Section laws.
Context {DB : Type} `{RocksDBLaws DB}.

Lemma cf_handle_Ok O `{DatabaseObject O} (db : DB) cf :
  cf_handle O db = Ok cf → cf = NAMESPACE (O := O).
Proof. unfold cf_handle. by destruct (has_cf _ _); intros [= <-]. Qed.

Lemma or_err_Ok {X A} et (r : result X A) a : or_err et r = Ok a → r = Ok a.
Proof. destruct r; by intros [= ->]. Qed.

Lemma decode_value_Ok {O} `{DatabaseObject O} raw (r : option O) :
  decode_value raw = Ok r → decodes raw r.
Proof.
  destruct raw as [b|]; simpl; [|by intros [= <-]].
  intros (o & Ho & [= <-])%result_bind_Ok. eauto.
Qed.

Lemma get_ok {O} `{DatabaseObject O} (db : DB) k (r : option O) :
  get db k = Ok r → decodes (db_contents db !! (NAMESPACE (O := O), k)) r.
Proof.
  intros (cf & ->%cf_handle_Ok & (v & Hv%or_err_Ok & Hd)%result_bind_Ok)%result_bind_Ok.
  apply get_cf_ok in Hv as <-. by apply decode_value_Ok.
Qed.

Lemma multi_get_ok {O} `{DatabaseObject O} (db : DB) ks (rs : list (option O)) :
  multi_get db ks = Ok rs →
  Forall2 (λ k r, decodes (db_contents db !! (NAMESPACE (O := O), k)) r) ks rs.
Proof.
  intros (cf & ->%cf_handle_Ok & Hc%collect_Ok)%result_bind_Ok.
  eapply Forall2_trans; [|apply batched_multi_get_cf_ok | exact Hc].
  intros k v r Hk (w & Hw%or_err_Ok & Hd)%result_bind_Ok.
  rewrite <- (Hk _ Hw). by apply decode_value_Ok.
Qed.

Lemma exists_ok O `{DatabaseObject O} (db : DB) k b :
  exists_ O db k = Ok b → b = bool_decide (is_Some (db_contents db !! (NAMESPACE (O := O), k))).
Proof.
  intros (cf & ->%cf_handle_Ok & (v & Hv%or_err_Ok & [= <-])%result_bind_Ok)%result_bind_Ok.
  by apply get_cf_ok in Hv as <-.
Qed.

Lemma st_or_err_inv {A} et (m : ST DB string A) db r db' :
  st_or_err et m db = (r, db') → ∃ r', m db = (r', db') ∧ or_err et r' = r ∧ is_ok r' = is_ok r.
Proof. unfold st_or_err. destruct (m db) as [[a|x] db1]; intros [= <- <-]; eauto. Qed.

Lemma put_inv {O} `{DatabaseObject O} (db db' : DB) k (o : O) r :
  put k o db = (r, db') →
  db_contents db' = db_contents db ∧ is_ok r = false ∨
  ∃ b, serialized o = Ok b ∧
    let new := <[(NAMESPACE (O := O), k) := b]> (db_contents db) in
    if is_ok r then db_contents db' = new
    else db_contents db' = db_contents db ∨ db_contents db' = new.
Proof.
  unfold put. cbv [mbind st_mbind reads lift].
  destruct (cf_handle O db) as [cf|] eqn:Hcf; [|intros [= <- <-]; by left].
  apply cf_handle_Ok in Hcf as ->.
  destruct (serialized o) as [b|] eqn:Hs; [|intros [= <- <-]; by left].
  intros (r' & Hp & _ & Hok)%st_or_err_inv. right. exists b. split; [done|].
  pose proof (put_cf_ok db (NAMESPACE (O := O)) k b) as Hc. rewrite Hp, Hok in Hc. exact Hc.
Qed.

Lemma delete_inv O `{DatabaseObject O} (db db' : DB) k r :
  delete O k db = (r, db') →
  let new := base.delete (NAMESPACE (O := O), k) (db_contents db) in
  if is_ok r then db_contents db' = new
  else db_contents db' = db_contents db ∨ db_contents db' = new.
Proof.
  unfold delete. cbv [mbind st_mbind reads lift].
  destruct (cf_handle O db) as [cf|] eqn:Hcf; [|intros [= <- <-]; by left].
  apply cf_handle_Ok in Hcf as ->. intros (r' & Hp & _ & Hok)%st_or_err_inv.
  pose proof (delete_cf_ok db (NAMESPACE (O := O)) k) as Hc. rewrite Hp, Hok in Hc. exact Hc.
Qed.

Lemma batch_delete_inv O `{DatabaseObject O} (db db' : DB) ks r :
  batch_delete O ks db = (r, db') →
  let new := delete_all (NAMESPACE (O := O)) ks (db_contents db) in
  if is_ok r then db_contents db' = new
  else db_contents db' = db_contents db ∨ db_contents db' = new.
Proof.
  unfold batch_delete. cbv [mbind st_mbind reads lift].
  destruct (cf_handle O db) as [cf|] eqn:Hcf; [|intros [= <- <-]; by left].
  apply cf_handle_Ok in Hcf as ->. intros (r' & Hp & _ & Hok)%st_or_err_inv.
  pose proof (write_deletes_ok db (NAMESPACE (O := O)) ks) as Hc. rewrite Hp, Hok in Hc. exact Hc.
Qed.

(** Collecting wrapped items succeeds exactly when the items are all fine. *)
Lemma collect_or_err {X A} et (l : list (result X A)) xs :
  collect id (or_err et <$> l) = Ok xs → collect id l = Ok xs.
Proof.
  rewrite !collect_Ok, Forall2_fmap_l. intros Hf. eapply Forall2_impl; [exact Hf|].
  intros r x Hr%or_err_Ok. done.
Qed.

Lemma iter_raw_ok O `{DatabaseObject O} (db : DB) l kvs :
  iter_raw O db = Ok l → collect id l = Ok kvs →
  NoDup kvs.*1 ∧ ∀ k v, (k, v) ∈ kvs ↔ db_contents db !! (NAMESPACE (O := O), k) = Some v.
Proof.
  intros (cf & ->%cf_handle_Ok & [= <-])%result_bind_Ok Hc%collect_or_err.
  by apply iterator_cf_ok.
Qed.

Lemma prefix_iter_raw_ok O `{DatabaseObject O} (db : DB) p l kvs :
  List.length p = 64%nat → prefix_iter_raw O db p = Ok l → collect id l = Ok kvs →
  NoDup kvs.*1 ∧
  ∀ k v, (k, v) ∈ kvs ↔ p `prefix_of` k ∧ db_contents db !! (NAMESPACE (O := O), k) = Some v.
Proof.
  intros Hp (cf & ->%cf_handle_Ok & [= <-])%result_bind_Ok Hc%collect_or_err.
  by apply prefix_iterator_cf_ok.
Qed.

Lemma decode_items {O} `{DatabaseObject O} l (kos : list (bytes * O)) :
  collect id (decode_item <$> l) = Ok kos →
  ∃ kvs, collect id l = Ok kvs ∧
    Forall2 (λ kv ko, kv.1 = ko.1 ∧ deserialize_from kv.2 = Ok ko.2) kvs kos.
Proof.
  rewrite collect_Ok, Forall2_fmap_l. intros Hall.
  induction Hall as [|r ko l kos Hr Hall IH]; [by exists []|].
  destruct IH as (kvs & Hc & Hf).
  apply result_bind_Ok in Hr as (kv & Hkv%or_err_Ok & (o & Ho & [= <-])%result_bind_Ok).
  exists (kv :: kvs). split; [|by constructor]. simpl. rewrite Hkv. simpl. by rewrite Hc.
Qed.

Lemma iter_ok O `{DatabaseObject O} (db : DB) l (kos : list (bytes * O)) :
  iter O db = Ok l → collect id l = Ok kos →
  NoDup kos.*1 ∧
  ∀ k o, (k, o) ∈ kos ↔
    ∃ v, db_contents db !! (NAMESPACE (O := O), k) = Some v ∧ deserialize_from v = Ok o.
Proof.
  intros (cf & ->%cf_handle_Ok & [= <-])%result_bind_Ok (kvs & Hc & Hf)%decode_items.
  apply iterator_cf_ok in Hc as [Hnd Hin].
  assert (kvs.*1 = kos.*1) as Hk.
  { clear -Hf. induction Hf as [|kv ko kvs kos [Hk _] _ IH]; [done|].
    rewrite !fmap_cons. by f_equal. }
  split; [by rewrite <- Hk|]. intros k o. setoid_rewrite <- Hin. split.
  - intros (i & Hi)%list_elem_of_lookup.
    destruct (Forall2_lookup_r _ _ _ _ _ Hf Hi) as ([k' v] & Hi' & Heq & Hd). simpl in *. subst.
    exists v. split; [|done]. apply list_elem_of_lookup. eauto.
  - intros (v & (i & Hi)%list_elem_of_lookup & Hd).
    destruct (Forall2_lookup_l _ _ _ _ _ Hf Hi) as ([k' o'] & Hi' & Heq & Hd'). simpl in *.
    rewrite Hd in Hd'. injection Hd' as <-. subst. apply list_elem_of_lookup. eauto.
Qed.
End laws.
End RocksdbLaws.

#[export] Program Instance rocksdb_operations_laws {DB} `{RocksDBLaws DB} : OperationsLaws DB := {
  contents := db_contents;
}.
Next Obligation. intros. by apply RocksdbLaws.get_ok. Qed.
Next Obligation. intros. by apply RocksdbLaws.multi_get_ok. Qed.
Next Obligation. intros. by apply RocksdbLaws.exists_ok. Qed.
Next Obligation.
  intros * Hp. apply RocksdbLaws.put_inv in Hp as [[_ ?]|(b & Hs & Hc)]; [done|]. eauto.
Qed.
Next Obligation.
  intros * Hp. apply RocksdbLaws.put_inv in Hp as [[? _]|(b & Hs & Hc)]; [by left|].
  destruct Hc; [by left | right; eauto].
Qed.
Next Obligation. intros * Hp. by apply RocksdbLaws.delete_inv in Hp. Qed.
Next Obligation. intros * Hp. by apply RocksdbLaws.delete_inv in Hp. Qed.
Next Obligation. intros * Hi Hc. by apply (RocksdbLaws.iter_raw_ok _ _ _ _ Hi Hc). Qed.
Next Obligation. intros * Hi Hc. by apply (RocksdbLaws.iter_ok _ _ _ _ Hi Hc). Qed.
Next Obligation. intros * Hl Hi Hc. by apply (RocksdbLaws.prefix_iter_raw_ok _ _ _ _ _ Hl Hi Hc). Qed.
Next Obligation. intros * Hp. by apply RocksdbLaws.batch_delete_inv in Hp. Qed.
Next Obligation. intros * Hp. by apply RocksdbLaws.batch_delete_inv in Hp. Qed.
