(* ===== verification/Metadata.v ===== *)
(** * The metadata store

    Models [struct Metadata] of [src/dragonfly-client-storage/src/metadata.rs]:
    every method that reads or changes the stored tasks and pieces, over the
    [Operations] interface of the engine.  [Utc::now()] is a parameter: the
    [n]-th reading of the clock is [clock n], and the state counts the
    readings, so a handler that reads the clock twice sees two values. *)

From S2P Require Import Prelude Errors MetadataTypes Engine.
From Stdlib Require Import ZArith Lia String Strings.Byte.
From stdpp Require Import base tactics list gmap strings pretty.
Local Open Scope Z_scope.

(** [impl DatabaseObject for ..]: the namespaces. *)
#[export] Instance Task_object `{Bincode Task} : DatabaseObject Task :=
  {| NAMESPACE := "task" |}.
#[export] Instance PTask_object k `{Bincode (PTask.PTask k)} : DatabaseObject (PTask.PTask k) :=
  {| NAMESPACE := match k with
                  | KPersistent => "persistent_task"
                  | KPersistentCache => "persistent_cache_task"
                  end |}.
#[export] Instance CacheTask_object `{Bincode CacheTask} : DatabaseObject CacheTask :=
  {| NAMESPACE := "cache_task" |}.
#[export] Instance Piece_object `{Bincode Piece} : DatabaseObject Piece :=
  {| NAMESPACE := "piece" |}.

(** The serializer at the stored types. *)
Class MetadataBincode := {
  bincode_task :: Bincode Task;
  bincode_ptask k :: Bincode (PTask.PTask k);
  bincode_cache_task :: Bincode CacheTask;
  bincode_piece :: Bincode Piece;
}.
Class MetadataBincodeLaws `{MetadataBincode} := {
  bincode_task_laws :: BincodeLaws Task;
  bincode_ptask_laws k :: BincodeLaws (PTask.PTask k);
  bincode_cache_task_laws :: BincodeLaws CacheTask;
  bincode_piece_laws :: BincodeLaws Piece;
}.

#[export] Instance task_object_laws `{MetadataBincodeLaws} :
  @BincodeLaws Task (@object_bincode Task _) := bincode_task_laws.
#[export] Instance ptask_object_laws `{MetadataBincodeLaws} k :
  @BincodeLaws (PTask.PTask k) (@object_bincode (PTask.PTask k) _) := bincode_ptask_laws k.
#[export] Instance cache_task_object_laws `{MetadataBincodeLaws} :
  @BincodeLaws CacheTask (@object_bincode CacheTask _) := bincode_cache_task_laws.
#[export] Instance piece_object_laws `{MetadataBincodeLaws} :
  @BincodeLaws Piece (@object_bincode Piece _) := bincode_piece_laws.

(** A response header: its entries with the outcome of [HeaderValue::to_str]. *)
Abbreviation HeaderMap := (list (string * option string)).

(** [headermap_to_hashmap] ([src/dragonfly-client-util/src/http/mod.rs]). *)
Definition headermap_to_hashmap (header : HeaderMap) : gmap string string :=
  foldl (λ hashmap '(k, v), match v with Some v => <[k := v]> hashmap | None => hashmap end)
    ∅ header.

Module Metadata.
Section metadata.
Context {E : Type} `{Operations E} `{MetadataBincode} (clock : nat → NaiveDateTime).

(** [struct Metadata]; [ticks] counts the readings of the clock. *)
Record Metadata := mkMetadata {
  db : E;
  upload_stats : gmap string UploadStats;
  persistent_task_upload_stats : gmap string UploadStats;
  persistent_cache_task_upload_stats : gmap string UploadStats;
  ticks : nat;
}.

Definition set_db (d : E) (s : Metadata) : Metadata :=
  mkMetadata d (upload_stats s) (persistent_task_upload_stats s)
    (persistent_cache_task_upload_stats s) (ticks s).
Definition set_upload_stats (m : gmap string UploadStats) (s : Metadata) : Metadata :=
  mkMetadata (db s) m (persistent_task_upload_stats s)
    (persistent_cache_task_upload_stats s) (ticks s).
Definition set_ticks (n : nat) (s : Metadata) : Metadata :=
  mkMetadata (db s) (upload_stats s) (persistent_task_upload_stats s)
    (persistent_cache_task_upload_stats s) n.

(** The statistics of a kind of persistent task. *)
Definition ptask_upload_stats (k : PersistentKind) (s : Metadata) : gmap string UploadStats :=
  match k with
  | KPersistent => persistent_task_upload_stats s
  | KPersistentCache => persistent_cache_task_upload_stats s
  end.
Definition set_ptask_upload_stats (k : PersistentKind) (m : gmap string UploadStats)
    (s : Metadata) : Metadata :=
  match k with
  | KPersistent => mkMetadata (db s) (upload_stats s) m (persistent_cache_task_upload_stats s) (ticks s)
  | KPersistentCache => mkMetadata (db s) (upload_stats s) (persistent_task_upload_stats s) m (ticks s)
  end.

Abbreviation M A := (ST Metadata DFError A).

(** [Metadata::new], given the opened engine. *)
Definition new (db : E) : Metadata := mkMetadata db ∅ ∅ ∅ 0.

(** [Utc::now().naive_utc()]. *)
Definition now : M NaiveDateTime :=
  λ s, (Ok (clock (ticks s)), set_ticks (S (ticks s)) s).

(** [self.db.get::<O>(id.as_bytes())?] and the other engine calls. *)
Definition db_get {O} `{DatabaseObject O} (id : string) : M (option O) :=
  reads (λ s, op_get (db s) (as_bytes id)).
Definition db_exists O `{DatabaseObject O} (id : string) : M bool :=
  reads (λ s, op_exists O (db s) (as_bytes id)).
Definition db_put {O} `{DatabaseObject O} (id : string) (o : O) : M unit :=
  zoom db set_db (op_put (as_bytes id) o).
Definition db_delete O `{DatabaseObject O} (id : string) : M unit :=
  zoom db set_db (op_delete O (as_bytes id)).

(** [match self.db.get(id)? { Some(mut task) => f, None => TaskNotFound }],
    stored back and returned. *)
Definition update_task {O} `{DatabaseObject O} (id : string) (f : O → M O) : M O :=
  r ← db_get id;
  task ← match r with
         | Some task => f task
         | None => throw (TaskNotFound id)
         end;
  _ ← db_put id task;
  mret task.

(** [.entry(id).or_default()] of an upload statistics map, updated by [f]. *)
Definition update_stats (f : UploadStats → UploadStats) (id : string)
    (m : gmap string UploadStats) : gmap string UploadStats :=
  <[id := f (default UploadStats_default (m !! id))]> m.

Definition stats_started (s : UploadStats) : UploadStats :=
  mkUploadStats (i64_add (us_uploading_count s) 1) (us_uploaded_count s).
Definition stats_finished (s : UploadStats) : UploadStats :=
  mkUploadStats (i64_saturating_sub (us_uploading_count s) 1) (u64_add (us_uploaded_count s) 1).
Definition stats_failed (s : UploadStats) : UploadStats :=
  mkUploadStats (i64_saturating_sub (us_uploading_count s) 1) (us_uploaded_count s).

(** ** Tasks *)

(** [Metadata::prepare_download_task]. *)
Definition prepare_download_task (id : string) : M (Task * bool) :=
  r ← db_get id;
  match r with
  | Some task =>
      if bool_decide (is_Some (Task.content_length task))
         && bool_decide (is_Some (Task.piece_length task))
         && negb (Task.is_failed task)
      then mret (task, true)
      else
        t ← now;
        let task := Task.set_failed_at None (Task.set_updated_at t task) in
        _ ← db_put id task;
        mret (task, false)
  | None =>
      u ← now;
      c ← now;
      let task := Task.mkTask id None None ∅ 0 0 u c None None None in
      _ ← db_put id task;
      mret (task, false)
  end.

(** [Metadata::download_task_started]. *)
Definition download_task_started (id : string) (piece_length content_length : Z)
    (response_header : option HeaderMap) : M Task :=
  let response_header := default ∅ (headermap_to_hashmap <$> response_header) in
  r ← db_get id;
  task ← match r with
         | Some task =>
             t ← now;
             mret (Task.set_response_header response_header
                     (Task.set_lengths (Some piece_length) (Some content_length)
                        (Task.set_failed_at None (Task.set_updated_at t task))))
         | None =>
             u ← now;
             c ← now;
             mret (Task.mkTask id (Some piece_length) (Some content_length) response_header
                     0 0 u c None None None)
         end;
  _ ← db_put id task;
  mret task.

(** [Metadata::download_task_finished]. *)
Definition download_task_finished (id : string) : M Task :=
  update_task id (λ task,
    t ← now;
    f ← now;
    mret (Task.set_finished_at (Some f) (Task.set_failed_at None (Task.set_updated_at t task)))).

(** [Metadata::download_task_failed]. *)
Definition download_task_failed (id : string) : M Task :=
  update_task id (λ task,
    t ← now;
    f ← now;
    mret (Task.set_failed_at (Some f) (Task.set_updated_at t task))).

(** [Metadata::prefetch_task_started]. *)
Definition prefetch_task_started (id : string) : M Task :=
  update_task id (λ task,
    if Task.is_prefetched task then throw (InvalidState "prefetched")
    else
      t ← now;
      p ← now;
      mret (Task.set_failed_at None (Task.set_prefetched_at (Some p) (Task.set_updated_at t task)))).

(** [Metadata::prefetch_task_failed]. *)
Definition prefetch_task_failed (id : string) : M Task :=
  update_task id (λ task,
    t ← now;
    f ← now;
    mret (Task.set_failed_at (Some f) (Task.set_prefetched_at None (Task.set_updated_at t task)))).

(** [Metadata::upload_task_started], [upload_task_finished],
    [upload_task_failed]: in-memory only. *)
Definition upload_task_started (id : string) (s : Metadata) : Metadata :=
  set_upload_stats (update_stats stats_started id (upload_stats s)) s.
Definition upload_task_finished (id : string) (s : Metadata) : Metadata :=
  set_upload_stats (update_stats stats_finished id (upload_stats s)) s.
Definition upload_task_failed (id : string) (s : Metadata) : Metadata :=
  set_upload_stats (update_stats stats_failed id (upload_stats s)) s.

(** [Metadata::fill_upload_stats]. *)
Definition fill_upload_stats (s : Metadata) (task : Task) : Task :=
  match upload_stats s !! Task.id task with
  | Some stats =>
      Task.set_counts (us_uploading_count stats)
        (u64_add (Task.uploaded_count task) (us_uploaded_count stats)) task
  | None => task
  end.

(** [Metadata::get_task]. *)
Definition get_task (id : string) : M (option Task) :=
  r ← db_get id;
  gets (λ s, fill_upload_stats s <$> r).

(** [Metadata::is_task_exists]. *)
Definition is_task_exists (id : string) : M bool := db_exists Task id.

(** The values of [iter_raw], collected. *)
Definition raw_values (l : list (Result (bytes * bytes))) : Result (list bytes) :=
  collect (λ ele : Result (bytes * bytes), snd <$> ele) l.

(** [Metadata::get_tasks]. *)
Definition get_tasks : M (list Task) :=
  l ← reads (λ s, op_iter_raw Task (db s));
  tasks ← lift (raw_values l);
  reads (λ s, collect (λ task, fill_upload_stats s <$> deserialize_from task) tasks).

(** [Metadata::delete_task]. *)
Definition delete_task (id : string) : M unit :=
  _ ← modify (λ s, set_upload_stats (delete id (upload_stats s)) s);
  db_delete Task id.

(** ** Persistent tasks and persistent cache tasks *)

(** [create_persistent_task_started], [create_persistent_cache_task_started]. *)
Definition create_ptask_started (k : PersistentKind) (id : string) (ttl : Duration)
    (piece_length content_length : Z) : M (PTask.PTask k) :=
  u ← now;
  c ← now;
  let task := PTask.mkPTask id true ttl piece_length content_length 0 0 u c None None in
  _ ← db_put id task;
  mret task.

(** [if task.finished_at.is_none() { task.finished_at = Some(now) }]. *)
Definition finish_if_unfinished {k} (task : PTask.PTask k) : M (PTask.PTask k) :=
  match PTask.finished_at task with
  | None => f ← now; mret (PTask.set_finished_at (Some f) task)
  | Some _ => mret task
  end.

(** [create_persistent_task_finished], [create_persistent_cache_task_finished]. *)
Definition create_ptask_finished (k : PersistentKind) (id : string) : M (PTask.PTask k) :=
  update_task id (λ task,
    t ← now;
    finish_if_unfinished (PTask.set_failed_at None (PTask.set_updated_at t task))).

(** [download_persistent_task_started], [download_persistent_cache_task_started]. *)
Definition download_ptask_started (k : PersistentKind) (id : string) (ttl : Duration)
    (persistent : bool) (piece_length content_length : Z) (created_at : NaiveDateTime)
    : M (PTask.PTask k) :=
  r ← db_get id;
  task ← match r with
         | Some task =>
             let task := PTask.set_download ttl persistent piece_length task in
             t ← now;
             mret (PTask.set_failed_at None (PTask.set_updated_at t task))
         | None =>
             u ← now;
             mret (PTask.mkPTask id persistent ttl piece_length content_length 0 0 u created_at
                     None None)
         end;
  _ ← db_put id task;
  mret task.

(** [download_persistent_task_finished], [download_persistent_cache_task_finished]. *)
Definition download_ptask_finished (k : PersistentKind) (id : string) : M (PTask.PTask k) :=
  update_task id (λ task,
    t ← now;
    finish_if_unfinished (PTask.set_failed_at None (PTask.set_updated_at t task))).

(** [download_persistent_task_failed], [download_persistent_cache_task_failed]. *)
Definition download_ptask_failed (k : PersistentKind) (id : string) : M (PTask.PTask k) :=
  update_task id (λ task,
    t ← now;
    f ← now;
    mret (PTask.set_failed_at (Some f) (PTask.set_updated_at t task))).

(** [upload_persistent_task_*], [upload_persistent_cache_task_*]. *)
Definition upload_ptask_started (k : PersistentKind) (id : string) (s : Metadata) : Metadata :=
  set_ptask_upload_stats k (update_stats stats_started id (ptask_upload_stats k s)) s.
Definition upload_ptask_finished (k : PersistentKind) (id : string) (s : Metadata) : Metadata :=
  set_ptask_upload_stats k (update_stats stats_finished id (ptask_upload_stats k s)) s.
Definition upload_ptask_failed (k : PersistentKind) (id : string) (s : Metadata) : Metadata :=
  set_ptask_upload_stats k (update_stats stats_failed id (ptask_upload_stats k s)) s.

(** [fill_persistent_task_upload_stats], [fill_persistent_cache_task_upload_stats]. *)
Definition fill_ptask_upload_stats {k} (s : Metadata) (task : PTask.PTask k) : PTask.PTask k :=
  match ptask_upload_stats k s !! PTask.id task with
  | Some stats =>
      PTask.set_counts (us_uploading_count stats)
        (u64_add (PTask.uploaded_count task) (us_uploaded_count stats)) task
  | None => task
  end.

(** [persist_persistent_task], [persist_persistent_cache_task]. *)
Definition persist_ptask (k : PersistentKind) (id : string) : M (PTask.PTask k) :=
  update_task id (λ task,
    let task := PTask.set_persistent true task in
    t ← now;
    mret (PTask.set_updated_at t task)).

(** [get_persistent_task], [get_persistent_cache_task]. *)
Definition get_ptask (k : PersistentKind) (id : string) : M (option (PTask.PTask k)) :=
  r ← db_get id;
  gets (λ s, fill_ptask_upload_stats s <$> r).

(** [is_persistent_task_exists], [is_persistent_cache_task_exists]. *)
Definition is_ptask_exists (k : PersistentKind) (id : string) : M bool :=
  db_exists (PTask.PTask k) id.

(** [get_persistent_tasks], [get_persistent_cache_tasks]. *)
Definition get_ptasks (k : PersistentKind) : M (list (PTask.PTask k)) :=
  iter ← reads (λ s, op_iter (PTask.PTask k) (db s));
  reads (λ s, collect (λ ele : Result (bytes * PTask.PTask k),
                         (λ kv, fill_ptask_upload_stats s kv.2) <$> ele) iter).

(** [delete_persistent_task], [delete_persistent_cache_task]. *)
Definition delete_ptask (k : PersistentKind) (id : string) : M unit :=
  _ ← modify (λ s, set_ptask_upload_stats k (delete id (ptask_upload_stats k s)) s);
  db_delete (PTask.PTask k) id.

(** ** Cache tasks *)

(** [Metadata::download_cache_task_started]. *)
Definition download_cache_task_started (id : string) (piece_length content_length : Z)
    (response_header : option HeaderMap) : M CacheTask :=
  let response_header := default ∅ (headermap_to_hashmap <$> response_header) in
  r ← db_get id;
  task ← match r with
         | Some task =>
             t ← now;
             mret (CacheTask.set_response_header response_header
                     (CacheTask.set_lengths (Some piece_length) (Some content_length)
                        (CacheTask.set_failed_at None (CacheTask.set_updated_at t task))))
         | None =>
             u ← now;
             c ← now;
             mret (CacheTask.mkCacheTask id (Some piece_length) (Some content_length)
                     response_header 0 0 u c None None)
         end;
  _ ← db_put id task;
  mret task.

(** [Metadata::download_cache_task_finished]. *)
Definition download_cache_task_finished (id : string) : M CacheTask :=
  update_task id (λ task,
    t ← now;
    f ← now;
    mret (CacheTask.set_finished_at (Some f)
            (CacheTask.set_failed_at None (CacheTask.set_updated_at t task)))).

(** [Metadata::download_cache_task_failed]. *)
Definition download_cache_task_failed (id : string) : M CacheTask :=
  update_task id (λ task,
    t ← now;
    f ← now;
    mret (CacheTask.set_failed_at (Some f) (CacheTask.set_updated_at t task))).

(** [Metadata::upload_cache_task_started]. *)
Definition upload_cache_task_started (id : string) : M CacheTask :=
  update_task id (λ task,
    let task := CacheTask.set_counts (i64_add (CacheTask.uploading_count task) 1)
                  (CacheTask.uploaded_count task) task in
    t ← now;
    mret (CacheTask.set_updated_at t task)).

(** [Metadata::upload_cache_task_finished]. *)
Definition upload_cache_task_finished (id : string) : M CacheTask :=
  update_task id (λ task,
    let task := CacheTask.set_counts (i64_sub (CacheTask.uploading_count task) 1)
                  (u64_add (CacheTask.uploaded_count task) 1) task in
    t ← now;
    mret (CacheTask.set_updated_at t task)).

(** [Metadata::upload_cache_task_failed]. *)
Definition upload_cache_task_failed (id : string) : M CacheTask :=
  update_task id (λ task,
    let task := CacheTask.set_counts (i64_sub (CacheTask.uploading_count task) 1)
                  (CacheTask.uploaded_count task) task in
    t ← now;
    mret (CacheTask.set_updated_at t task)).

(** [Metadata::get_cache_task], [is_cache_task_exists]. *)
Definition get_cache_task (id : string) : M (option CacheTask) := db_get id.
Definition is_cache_task_exists (id : string) : M bool := db_exists CacheTask id.

(** [Metadata::get_cache_tasks]. *)
Definition get_cache_tasks : M (list CacheTask) :=
  l ← reads (λ s, op_iter_raw CacheTask (db s));
  tasks ← lift (raw_values l);
  lift (collect deserialize_from tasks).

(** [Metadata::delete_cache_task]. *)
Definition delete_cache_task (id : string) : M unit := db_delete CacheTask id.

(** ** Pieces *)

(** [create_persistent_piece], [create_persistent_cache_piece]. *)
Definition create_persistent_piece (piece_id : string) (number offset length : Z)
    (digest : string) : M Piece :=
  u ← now;
  c ← now;
  f ← now;
  let piece := Piece.mkPiece number offset length digest None 0 0 u c (Some f) in
  _ ← db_put piece_id piece;
  mret piece.
Definition create_persistent_cache_piece (piece_id : string) (number offset length : Z)
    (digest : string) : M Piece :=
  u ← now;
  c ← now;
  f ← now;
  let piece := Piece.mkPiece number offset length digest None 0 0 u c (Some f) in
  _ ← db_put piece_id piece;
  mret piece.

(** [Metadata::download_piece_started]. *)
Definition download_piece_started (piece_id : string) (number offset length : Z) : M Piece :=
  u ← now;
  c ← now;
  let piece := Piece.mkPiece number offset length "" None 0 0 u c None in
  _ ← db_put piece_id piece;
  mret piece.

(** [Metadata::download_piece_finished]. *)
Definition download_piece_finished (piece_id : string) (offset length : Z) (digest : string)
    (parent_id : option string) : M Piece :=
  r ← db_get piece_id;
  piece ← match r with
          | Some piece =>
              u ← now;
              f ← now;
              mret (Piece.set_finished offset length digest parent_id u f piece)
          | None => throw (PieceNotFound piece_id)
          end;
  _ ← db_put piece_id piece;
  mret piece.

(** [Metadata::get_piece], [Metadata::delete_piece]. *)
Definition get_piece (piece_id : string) : M (option Piece) := db_get piece_id.
Definition delete_piece (piece_id : string) : M unit := db_delete Piece piece_id.

(** [Metadata::download_piece_failed]. *)
Definition download_piece_failed (piece_id : string) : M unit :=
  r ← get_piece piece_id;
  match r with
  | Some piece => if Piece.is_finished piece then mret tt else delete_piece piece_id
  | None => delete_piece piece_id
  end.

(** [Metadata::wait_for_piece_finished_failed]. *)
Definition wait_for_piece_finished_failed (piece_id : string) : M unit :=
  r ← get_piece piece_id;
  match r with
  | Some piece => if Piece.is_finished piece then mret tt else delete_piece piece_id
  | None => delete_piece piece_id
  end.

(** [Metadata::get_pieces_by_ids]. *)
Definition get_pieces_by_ids (piece_ids : list string) : M (list (option Piece)) :=
  reads (λ s, op_multi_get (db s) (as_bytes <$> piece_ids)).

(** [Metadata::is_piece_exists]. *)
Definition is_piece_exists (piece_id : string) : M bool := db_exists Piece piece_id.

(** [Metadata::get_pieces]. *)
Definition get_pieces (task_id : string) : M (list Piece) :=
  l ← reads (λ s, op_prefix_iter_raw Piece (db s) (as_bytes task_id));
  pieces ← lift (raw_values l);
  lift (collect deserialize_from pieces).

(** [Metadata::delete_pieces]. *)
Definition delete_pieces (task_id : string) : M unit :=
  l ← reads (λ s, op_prefix_iter_raw Piece (db s) (as_bytes task_id));
  piece_ids ← lift (collect (λ ele : Result (bytes * bytes), fst <$> ele) l);
  zoom db set_db (op_batch_delete Piece piece_ids).

(** The persistent cache methods, by their names in the source: the same bodies
    over [PersistentCacheTask], its namespace and its statistics. *)
Definition create_persistent_cache_task_started := create_ptask_started KPersistentCache.
Definition create_persistent_cache_task_finished := create_ptask_finished KPersistentCache.
Definition download_persistent_cache_task_started := download_ptask_started KPersistentCache.
Definition download_persistent_cache_task_finished := download_ptask_finished KPersistentCache.
Definition download_persistent_cache_task_failed := download_ptask_failed KPersistentCache.
Definition upload_persistent_cache_task_started := upload_ptask_started KPersistentCache.
Definition upload_persistent_cache_task_finished := upload_ptask_finished KPersistentCache.
Definition upload_persistent_cache_task_failed := upload_ptask_failed KPersistentCache.
Definition fill_persistent_cache_task_upload_stats := fill_ptask_upload_stats (k := KPersistentCache).
Definition persist_persistent_cache_task := persist_ptask KPersistentCache.
Definition get_persistent_cache_task := get_ptask KPersistentCache.
Definition is_persistent_cache_task_exists := is_ptask_exists KPersistentCache.
Definition get_persistent_cache_tasks := get_ptasks KPersistentCache.
Definition delete_persistent_cache_task := delete_ptask KPersistentCache.

End metadata.
Arguments Metadata : clear implicits.

(** [Metadata::piece_id]. *)
Definition piece_id (task_id : string) (number : Z) : string :=
  (task_id +:+ "-" +:+ pretty (Z.to_N number))%string.
End Metadata.
