(* ===== verification/MetadataFacts.v ===== *)
(** * Properties of the metadata store

    Proved against [OperationsLaws], the interface of the storage engine:
    well-formedness under every sequence of operations, the lifecycle of tasks
    and pieces, the protection of finished pieces, the isolation of
    namespaces, piece identifiers and the upload statistics. *)

From S2P Require Import Prelude Errors MetadataTypes Engine Metadata.
From Stdlib Require Import ZArith Lia String Strings.Byte.
From stdpp Require Import base tactics list gmap strings pretty.
Local Open Scope Z_scope.

Module MetadataFacts.
Import Metadata.
Section facts.
Context {E : Type} `{OperationsLaws E} `{MetadataBincodeLaws} (clock : nat → NaiveDateTime).

Abbreviation Metadata := (Metadata E).
Abbreviation M A := (ST Metadata DFError A).

Implicit Types (s : Metadata) (id : string).

(** The raw contents of the database. *)
Definition raw (s : Metadata) : Contents := contents (db s).

(** The object [o] is stored under [id] in its namespace. *)
Definition holds {O} `{DatabaseObject O} (s : Metadata) (id : string) (o : O) : Prop :=
  ∃ b, raw s !! (NAMESPACE (O := O), as_bytes id) = Some b ∧ deserialize_from b = Ok o.

(** Nothing is stored under [id] in the namespace of [O]. *)
Definition absent O `{DatabaseObject O} (s : Metadata) (id : string) : Prop :=
  raw s !! (NAMESPACE (O := O), as_bytes id) = None.

(** [s] and [s'] differ at most at one key of the database. *)
Definition only_at (ns : string) (key : bytes) (s s' : Metadata) : Prop :=
  ∀ k, k ≠ (ns, key) → raw s' !! k = raw s !! k.

Lemma holds_fun {O} `{DatabaseObject O} s id (o o' : O) : holds s id o → holds s id o' → o = o'.
Proof. intros (b & Hb & Ho) (b' & Hb' & Ho'). congruence. Qed.

Lemma db_get_Ok {O} `{DatabaseObject O} id s s' (r : option O) :
  db_get id s = (Ok r, s') →
  s' = s ∧ match r with Some o => holds s id o | None => absent O s id end.
Proof.
  unfold db_get, reads. intros [= Hg <-]. split; [done|]. apply op_get_ok in Hg.
  unfold decodes in Hg. unfold holds, absent, raw.
  destruct (contents (db s) !! _) as [b|].
  - destruct Hg as (o & Ho & ->). eauto.
  - by subst.
Qed.

Lemma db_get_holds {O} `{DatabaseObject O} id s s' (r : option O) (o : O) :
  db_get id s = (Ok r, s') → holds s id o → r = Some o.
Proof.
  intros [-> Hr]%db_get_Ok Ho. destruct r as [o'|].
  - f_equal. by eapply holds_fun.
  - destruct Ho as (b & Hb & _). unfold absent in Hr. congruence.
Qed.

Lemma db_get_absent {O} `{DatabaseObject O} id s s' (r : option O) :
  db_get id s = (Ok r, s') → absent O s id → r = None.
Proof.
  intros [-> Hr]%db_get_Ok Ha. destruct r as [o|]; [|done].
  destruct Hr as (b & Hb & _). unfold absent in Ha. congruence.
Qed.

(** What a write leaves alone besides the database. *)
Definition same_memory (s s' : Metadata) : Prop :=
  upload_stats s' = upload_stats s ∧
  persistent_task_upload_stats s' = persistent_task_upload_stats s ∧
  persistent_cache_task_upload_stats s' = persistent_cache_task_upload_stats s.

Lemma db_put_inv {O} `{DatabaseObject O} id (o : O) s r s' :
  db_put id o s = (r, s') →
  same_memory s s' ∧ ticks s' = ticks s ∧
  (is_ok r = false ∧ raw s' = raw s ∨
   ∃ b, serialized o = Ok b ∧ raw s' = <[(NAMESPACE (O := O), as_bytes id) := b]> (raw s)).
Proof.
  unfold db_put, zoom, raw. destruct (op_put (as_bytes id) o (db s)) as [r1 e'] eqn:Hp.
  intros [= <- <-]. split; [done|]. split; [done|]. destruct r1 as [[]|x].
  - apply op_put_ok in Hp as (b & Hb & Hc). right. by exists b.
  - apply op_put_err in Hp as [Hc|(b & Hb & Hc)]; [by left | right; by exists b].
Qed.

Lemma db_put_Ok {O} `{DatabaseObject O, !BincodeLaws O} id (o : O) s u s' :
  db_put id o s = (Ok u, s') →
  holds s' id o ∧ only_at (NAMESPACE (O := O)) (as_bytes id) s s' ∧ same_memory s s'.
Proof.
  intros (Hm & _ & [[? _]|(b & Hb & Hc)])%db_put_inv; [done|]. split_and!; [| |done].
  - exists b. rewrite Hc, lookup_insert_eq. split; [done|]. by apply deserialize_serialized.
  - intros k Hk. by rewrite Hc, lookup_insert_ne.
Qed.

Lemma db_delete_inv O `{DatabaseObject O} id s r s' :
  db_delete O id s = (r, s') →
  same_memory s s' ∧
  (is_ok r = false ∧ raw s' = raw s ∨ raw s' = delete (NAMESPACE (O := O), as_bytes id) (raw s)).
Proof.
  unfold db_delete, zoom, raw. destruct (op_delete O (as_bytes id) (db s)) as [r1 e'] eqn:Hp.
  intros [= <- <-]. split; [done|]. destruct r1 as [[]|x].
  - apply op_delete_ok in Hp. by right.
  - apply op_delete_err in Hp as [Hc|Hc]; [by left | by right].
Qed.

(** The outcome of [update_task] on every branch. *)
Lemma update_task_Ok {O} `{DatabaseObject O, !BincodeLaws O} id (f : O → M O) s t' s' :
  update_task id f s = (Ok t', s') →
  ∃ t s1, holds s id t ∧ f t s = (Ok t', s1) ∧ holds s' id t' ∧
    only_at (NAMESPACE (O := O)) (as_bytes id) s1 s' ∧ same_memory s1 s'.
Proof.
  unfold update_task.
  intros (r & s0 & [-> Hr]%db_get_Ok & (t1 & s1 & Hf & Hrest)%st_bind_Ok)%st_bind_Ok.
  destruct r as [t|]; [|discriminate].
  apply st_bind_Ok in Hrest as ([] & s2 & Hp & [= <- <-]).
  apply db_put_Ok in Hp as (Hh & Ho & Hm). eauto 10.
Qed.

Lemma update_task_absent {O} `{DatabaseObject O} id (f : O → M O) s :
  absent O s id →
  (∃ e, update_task id f s = (Err e, s)) ∧
  (∀ r, op_get (O := O) (db s) (as_bytes id) = Ok r → update_task id f s = (Err (TaskNotFound id), s)).
Proof.
  intros Ha. unfold update_task, db_get. cbv [mbind st_mbind reads].
  destruct (op_get (db s) (as_bytes id)) as [r|e] eqn:Hg.
  - assert (r = None) as ->.
    { eapply (db_get_absent id s s); [|done]. unfold db_get, reads. by rewrite Hg. }
    split; [by eexists|]. done.
  - split; [by eexists|]. done.
Qed.

Lemma now_step s : now clock s = (Ok (clock (ticks s)), set_ticks (S (ticks s)) s).
Proof. done. Qed.

(** ** Well-formed stores *)

(** Every value of the namespace of [O] decodes, and its identifier is the key
    it is stored under. *)
Definition wf_ns O `{DatabaseObject O} (key_of : O → bytes → Prop) (m : Contents) : Prop :=
  ∀ k b, m !! (NAMESPACE (O := O), k) = Some b → ∃ o : O, deserialize_from b = Ok o ∧ key_of o k.

Definition task_key (t : Task) (k : bytes) : Prop := as_bytes (Task.id t) = k.
Definition ptask_key {p} (t : PTask.PTask p) (k : bytes) : Prop := as_bytes (PTask.id t) = k.
Definition cache_task_key (t : CacheTask) (k : bytes) : Prop := as_bytes (CacheTask.id t) = k.
Definition piece_key (p : Piece) (k : bytes) : Prop := True.

Record wf_contents (m : Contents) : Prop := {
  wf_tasks : wf_ns Task task_key m;
  wf_persistent : wf_ns PersistentTask ptask_key m;
  wf_persistent_cache : wf_ns PersistentCacheTask ptask_key m;
  wf_cache_tasks : wf_ns CacheTask cache_task_key m;
  wf_pieces : wf_ns Piece piece_key m;
}.

Definition wf (s : Metadata) : Prop := wf_contents (raw s).

Lemma wf_ns_insert_ne O `{DatabaseObject O} key_of m ns k b :
  wf_ns O key_of m → ns ≠ NAMESPACE (O := O) → wf_ns O key_of (<[(ns, k) := b]> m).
Proof. intros Hwf Hne k' b'. rewrite lookup_insert_ne by congruence. apply Hwf. Qed.

Lemma wf_ns_insert O `{DatabaseObject O, !BincodeLaws O} (key_of : O → bytes → Prop) m k b o :
  wf_ns O key_of m → serialized o = Ok b → key_of o k →
  wf_ns O key_of (<[(NAMESPACE (O := O), k) := b]> m).
Proof.
  intros Hwf Hs Hk k' b'. rewrite lookup_insert_Some. intros [[[= <-] <-]|[_ Hm]]; [|by apply Hwf].
  exists o. split; [by apply deserialize_serialized | done].
Qed.

Lemma wf_contents_delete m k : wf_contents m → wf_contents (delete k m).
Proof. intros []. constructor; intros k' b [_ Hm]%lookup_delete_Some; eauto. Qed.

Lemma wf_contents_delete_all m ns ks : wf_contents m → wf_contents (delete_all ns ks m).
Proof. intros Hm. induction ks; simpl; [done | by apply wf_contents_delete]. Qed.

(** The identifier discipline of each stored type. *)
Class Stored (O : Type) `{DatabaseObject O} := {
  key_of : O → bytes → Prop;
  stored_wf m k b (o : O) : wf_contents m → serialized o = Ok b → key_of o k →
    wf_contents (<[(NAMESPACE (O := O), k) := b]> m);
  stored_key m k b (o : O) : wf_contents m → m !! (NAMESPACE (O := O), k) = Some b →
    deserialize_from b = Ok o → key_of o k;
}.

Ltac stored := intros * [] Hs Hk; constructor;
  first [by (eapply wf_ns_insert; try apply _; eassumption) | apply wf_ns_insert_ne; [done | by intros [=]]].

#[local] Program Instance stored_task : Stored Task := { key_of := task_key }.
Next Obligation. stored. Qed.
Next Obligation. intros m k b o [Hwf _ _ _ _] Hb Ho. destruct (Hwf _ _ Hb) as (o' & ? & ?). congruence. Qed.
#[local] Program Instance stored_ptask k : Stored (PTask.PTask k) := { key_of := ptask_key }.
Next Obligation. intros []; stored. Qed.
Next Obligation.
  intros [] m k b o [_ Hwf Hwf' _ _] Hb Ho;
    [destruct (Hwf _ _ Hb) as (o' & ? & ?) | destruct (Hwf' _ _ Hb) as (o' & ? & ?)]; congruence.
Qed.
#[local] Program Instance stored_cache_task : Stored CacheTask := { key_of := cache_task_key }.
Next Obligation. stored. Qed.
Next Obligation. intros m k b o [_ _ _ Hwf _] Hb Ho. destruct (Hwf _ _ Hb) as (o' & ? & ?). congruence. Qed.
#[local] Program Instance stored_piece : Stored Piece := { key_of := piece_key }.
Next Obligation. stored. Qed.
Next Obligation. done. Qed.

Lemma keeps_db_put {O} `{Stored O} id (o : O) : key_of o (as_bytes id) → keeps wf (db_put id o).
Proof.
  intros Hk s Hwf. destruct (db_put id o s) as [r s'] eqn:Hp. simpl.
  apply db_put_inv in Hp as (_ & _ & [[_ Hr]|(b & Hb & Hr)]); unfold wf; rewrite Hr; [done|].
  by eapply stored_wf.
Qed.

Lemma keeps_db_delete O `{DatabaseObject O} id : keeps wf (db_delete O id).
Proof.
  intros s Hwf. destruct (db_delete O id s) as [r s'] eqn:Hp. simpl.
  apply db_delete_inv in Hp as (_ & [[_ Hr]|Hr]); unfold wf; rewrite Hr; [done|].
  by apply wf_contents_delete.
Qed.

Lemma keeps_batch_delete O `{DatabaseObject O} ks :
  keeps wf (zoom db set_db (op_batch_delete O ks)).
Proof.
  intros s Hwf. unfold wf, raw, zoom in *.
  destruct (op_batch_delete O ks (db s)) as [[[]|x] e'] eqn:Hp; simpl.
  - apply op_batch_delete_ok in Hp as ->. by apply wf_contents_delete_all.
  - apply op_batch_delete_err in Hp as [-> | ->]; [done | by apply wf_contents_delete_all].
Qed.

(** [f] only computes the new record: it leaves the database alone and keeps
    the identifier. *)
Definition pure_update {O} (same_id : O → O → Prop) (f : O → M O) : Prop :=
  ∀ t s, raw (f t s).2 = raw s ∧ ∀ t', (f t s).1 = Ok t' → same_id t t'.

Lemma keeps_update_task {O} `{Stored O} (f : O → M O) id :
  pure_update (λ t t', ∀ k, key_of t k → key_of t' k) f → keeps wf (update_task id f).
Proof.
  intros Hf s Hwf. unfold update_task. cbv [mbind st_mbind].
  destruct (db_get id s) as [[r|e] s0] eqn:Hg; simpl.
  2:{ unfold db_get, reads in Hg. by injection Hg as _ <-. }
  apply db_get_Ok in Hg as [-> Hr]. destruct r as [t|]; [|done].
  destruct Hr as (b & Hb & Ht). destruct (Hf t s) as [Hraw Hid].
  destruct (f t s) as [[t'|e] s1]; simpl in *; [|unfold wf; by rewrite Hraw].
  assert (wf s1) as Hwf1 by (unfold wf; by rewrite Hraw).
  pose proof (keeps_db_put id t' (Hid _ eq_refl _ (stored_key _ _ _ _ Hwf Hb Ht)) s1 Hwf1) as Hp.
  by destruct (db_put id t' s1) as [[]].
Qed.

Lemma keeps_now : keeps wf (now clock).
Proof. by intros s. Qed.

Lemma keeps_modify_memory (f : Metadata → Metadata) :
  (∀ s, db (f s) = db s) → keeps wf (modify f : M unit).
Proof. intros Hf s Hwf. unfold wf, raw in *. simpl. by rewrite Hf. Qed.

(** *** The state-changing operations, as data *)

Inductive Op : Type :=
| PrepareDownloadTask (id : string)
| DownloadTaskStarted (id : string) (piece_length content_length : Z) (h : option HeaderMap)
| DownloadTaskFinished (id : string)
| DownloadTaskFailed (id : string)
| PrefetchTaskStarted (id : string)
| PrefetchTaskFailed (id : string)
| UploadTaskStarted (id : string)
| UploadTaskFinished (id : string)
| UploadTaskFailed (id : string)
| DeleteTask (id : string)
| CreatePTaskStarted (k : PersistentKind) (id : string) (ttl : Duration) (pl cl : Z)
| CreatePTaskFinished (k : PersistentKind) (id : string)
| DownloadPTaskStarted (k : PersistentKind) (id : string) (ttl : Duration) (p : bool) (pl cl : Z)
    (created : NaiveDateTime)
| DownloadPTaskFinished (k : PersistentKind) (id : string)
| DownloadPTaskFailed (k : PersistentKind) (id : string)
| UploadPTaskStarted (k : PersistentKind) (id : string)
| UploadPTaskFinished (k : PersistentKind) (id : string)
| UploadPTaskFailed (k : PersistentKind) (id : string)
| PersistPTask (k : PersistentKind) (id : string)
| DeletePTask (k : PersistentKind) (id : string)
| DownloadCacheTaskStarted (id : string) (pl cl : Z) (h : option HeaderMap)
| DownloadCacheTaskFinished (id : string)
| DownloadCacheTaskFailed (id : string)
| UploadCacheTaskStarted (id : string)
| UploadCacheTaskFinished (id : string)
| UploadCacheTaskFailed (id : string)
| DeleteCacheTask (id : string)
| CreatePersistentPiece (id : string) (number offset length : Z) (digest : string)
| CreatePersistentCachePiece (id : string) (number offset length : Z) (digest : string)
| DownloadPieceStarted (id : string) (number offset length : Z)
| DownloadPieceFinished (id : string) (offset length : Z) (digest : string) (parent : option string)
| DownloadPieceFailed (id : string)
| WaitForPieceFinishedFailed (id : string)
| DeletePiece (id : string)
| DeletePieces (task_id : string).

Definition void {A} (m : M A) : M unit := _ ← m; mret tt.

Definition exec (o : Op) : M unit :=
  match o with
  | PrepareDownloadTask id => void (prepare_download_task clock id)
  | DownloadTaskStarted id pl cl h => void (download_task_started clock id pl cl h)
  | DownloadTaskFinished id => void (download_task_finished clock id)
  | DownloadTaskFailed id => void (download_task_failed clock id)
  | PrefetchTaskStarted id => void (prefetch_task_started clock id)
  | PrefetchTaskFailed id => void (prefetch_task_failed clock id)
  | UploadTaskStarted id => modify (upload_task_started id)
  | UploadTaskFinished id => modify (upload_task_finished id)
  | UploadTaskFailed id => modify (upload_task_failed id)
  | DeleteTask id => delete_task id
  | CreatePTaskStarted k id ttl pl cl => void (create_ptask_started clock k id ttl pl cl)
  | CreatePTaskFinished k id => void (create_ptask_finished clock k id)
  | DownloadPTaskStarted k id ttl p pl cl c =>
      void (download_ptask_started clock k id ttl p pl cl c)
  | DownloadPTaskFinished k id => void (download_ptask_finished clock k id)
  | DownloadPTaskFailed k id => void (download_ptask_failed clock k id)
  | UploadPTaskStarted k id => modify (upload_ptask_started k id)
  | UploadPTaskFinished k id => modify (upload_ptask_finished k id)
  | UploadPTaskFailed k id => modify (upload_ptask_failed k id)
  | PersistPTask k id => void (persist_ptask clock k id)
  | DeletePTask k id => delete_ptask k id
  | DownloadCacheTaskStarted id pl cl h => void (download_cache_task_started clock id pl cl h)
  | DownloadCacheTaskFinished id => void (download_cache_task_finished clock id)
  | DownloadCacheTaskFailed id => void (download_cache_task_failed clock id)
  | UploadCacheTaskStarted id => void (upload_cache_task_started clock id)
  | UploadCacheTaskFinished id => void (upload_cache_task_finished clock id)
  | UploadCacheTaskFailed id => void (upload_cache_task_failed clock id)
  | DeleteCacheTask id => delete_cache_task id
  | CreatePersistentPiece id n off len d => void (create_persistent_piece clock id n off len d)
  | CreatePersistentCachePiece id n off len d =>
      void (create_persistent_cache_piece clock id n off len d)
  | DownloadPieceStarted id n off len => void (download_piece_started clock id n off len)
  | DownloadPieceFinished id off len d p => void (download_piece_finished clock id off len d p)
  | DownloadPieceFailed id => download_piece_failed id
  | WaitForPieceFinishedFailed id => wait_for_piece_finished_failed id
  | DeletePiece id => delete_piece id
  | DeletePieces id => delete_pieces id
  end.

(** A client that issues operations one after the other, whatever they return. *)
Definition run (os : list Op) (s : Metadata) : Metadata := foldl (λ s o, (exec o s).2) s os.

Ltac pure_update :=
  intros t s; cbv [mbind st_mbind mret st_mret now finish_if_unfinished throw];
  repeat case_match; simplify_eq/=; (split; [done | by intros t' [= <-]]).

Ltac keeps_step :=
  first
    [ apply keeps_ret | apply keeps_throw | apply keeps_now | apply keeps_lift
    | apply keeps_gets | apply keeps_reads
    | apply keeps_db_delete | apply keeps_batch_delete
    | apply keeps_modify_memory; by intros ?
    | apply keeps_update_task; pure_update
    | apply keeps_db_put; done
    | apply keeps_bind; [|intros ?]
    | case_match ].

(** Putting back a task found under [id]. *)
Lemma keeps_get_then {O A} `{Stored O} id (f : option O → M A) :
  (∀ o, key_of o (as_bytes id) → keeps wf (f (Some o))) → keeps wf (f None) →
  keeps wf (db_get id ≫= f).
Proof.
  intros HS HN s Hwf. cbv [mbind st_mbind].
  destruct (db_get id s) as [[r|e] s0] eqn:Hg.
  2:{ unfold db_get, reads in Hg. by injection Hg as _ <-. }
  apply db_get_Ok in Hg as [-> Hr]. destruct r as [o|]; [|by apply HN].
  destruct Hr as (b & Hb & Ho). apply HS; [|done]. by eapply stored_key.
Qed.

(** A record built from the clock, then used. *)
Lemma keeps_now_then {A B} (g : NaiveDateTime → A) (h : A → M B) :
  (∀ t, keeps wf (h (g t))) → keeps wf ((now clock ≫= λ t, mret (g t)) ≫= h).
Proof. intros Hh s Hwf. by apply Hh. Qed.
Lemma keeps_now2_then {A B} (g : NaiveDateTime → NaiveDateTime → A) (h : A → M B) :
  (∀ t u, keeps wf (h (g t u))) →
  keeps wf ((now clock ≫= λ t, now clock ≫= λ u, mret (g t u)) ≫= h).
Proof. intros Hh s Hwf. by apply Hh. Qed.

Lemma keeps_void {A} (m : M A) : keeps wf m → keeps wf (void m).
Proof. intros. apply keeps_bind; [done|]. intros ?. apply keeps_ret. Qed.

Lemma exec_keeps_wf o : keeps wf (exec o).
Proof.
  destruct o; simpl; try apply keeps_void;
    try (unfold download_task_finished, download_task_failed, prefetch_task_started,
      prefetch_task_failed, create_ptask_finished, download_ptask_finished, download_ptask_failed,
      persist_ptask, download_cache_task_finished, download_cache_task_failed,
      upload_cache_task_started, upload_cache_task_finished, upload_cache_task_failed;
      apply keeps_update_task; pure_update);
    try (unfold delete_task, delete_ptask, delete_cache_task, create_persistent_piece,
      create_persistent_cache_piece, download_piece_started, download_piece_failed,
      wait_for_piece_finished_failed, delete_piece, delete_pieces, create_ptask_started,
      get_piece, delete_piece, download_piece_finished, db_get; repeat keeps_step; fail);
    try (by apply keeps_modify_memory; destruct k).
  - apply keeps_get_then; [intros o Ho|]; repeat keeps_step.
  - apply keeps_get_then; [intros o Ho; apply keeps_now_then | apply keeps_now2_then];
      intros; repeat keeps_step.
  - apply keeps_get_then; [intros o Ho|]; apply keeps_now_then; intros; repeat keeps_step.
  - apply keeps_bind; [by apply keeps_modify_memory; destruct k | intros _; apply keeps_db_delete].
  - apply keeps_get_then; [intros o Ho; apply keeps_now_then | apply keeps_now2_then];
      intros; repeat keeps_step.
Qed.

(** C6: every sequence of metadata operations, successful or failing, keeps
    the store well formed: every record of every namespace decodes, and a task
    is stored under its own identifier. *)
Theorem run_keeps_wf (os : list Op) (s : Metadata) : wf s → wf (run os s).
Proof.
  revert s. induction os as [|o os IH]; intros s Hwf; [done|]. apply IH. by apply exec_keeps_wf.
Qed.

(** ** Pieces *)
Lemma fail_guard_inv (m : M unit) pid s r s' :
  m = (r ← get_piece pid;
       match r with
       | Some piece => if Piece.is_finished piece then mret tt else delete_piece pid
       | None => delete_piece pid
       end) →
  m s = (r, s') →
  (∀ p, holds s pid p → Piece.is_finished p = true → raw s' = raw s) ∧
  (r = Ok tt → (∀ p, holds s pid p → Piece.is_finished p = false) → absent Piece s' pid) ∧
  only_at "piece" (as_bytes pid) s s'.
Proof.
  intros -> Hm. cbv [mbind st_mbind] in Hm.
  destruct (get_piece pid s) as [[g|e] s0] eqn:Hg.
  2:{ unfold get_piece, db_get, reads in Hg. injection Hg as _ <-. injection Hm as <- <-.
      split_and!; [done | done | by intros k _]. }
  pose proof Hg as Hg'. apply db_get_Ok in Hg as [-> Hh].
  assert (delete_piece pid s = (r, s') →
    (r = Ok tt → absent Piece s' pid) ∧ only_at "piece" (as_bytes pid) s s') as Hdel.
  { intros (_ & [[Hr Hraw]|Hraw])%db_delete_inv; unfold absent, only_at.
    - split; [by intros ->|]. intros k _. by rewrite Hraw.
    - rewrite Hraw. split; [intros _; apply lookup_delete_eq|].
      intros k Hk. by rewrite lookup_delete_ne. }
  destruct g as [p|]; [destruct (Piece.is_finished p) eqn:Hf|].
  - injection Hm as <- <-. split_and!; [done | | by intros k _].
    intros _ Hall. specialize (Hall p Hh). congruence.
  - split_and!; [|intros Hr _; by apply Hdel | by apply Hdel].
    intros p' Hp' Hf'. rewrite (holds_fun _ _ _ _ Hp' Hh) in Hf'. congruence.
  - split_and!; [|intros Hr _; by apply Hdel | by apply Hdel].
    intros p' (b & Hb & _) _. unfold absent in Hh. congruence.
Qed.

(** neither a failed download nor a timed-out waiter erases a finished
    piece: when the piece under [pid] is finished, [download_piece_failed] and
    [wait_for_piece_finished_failed] leave the whole database unchanged,
    whatever they return; when it is not finished and they succeed, the piece
    is gone; and they never touch another key. *)
Theorem piece_failed_guard (pid : string) (s s' : Metadata) (r : Result unit) :
  download_piece_failed pid s = (r, s') ∨ wait_for_piece_finished_failed pid s = (r, s') →
  (∀ p, holds s pid p → Piece.is_finished p = true → raw s' = raw s) ∧
  (r = Ok tt → (∀ p, holds s pid p → Piece.is_finished p = false) → absent Piece s' pid) ∧
  only_at "piece" (as_bytes pid) s s'.
Proof. intros [Hm|Hm]; by eapply fail_guard_inv; [|exact Hm]. Qed.

(** the life of a downloaded piece.  A successful start followed by a
    successful finish stores a finished piece with the number of the start and
    the offset, length, digest and parent of the finish; with a clock that
    never goes back its cost is the time between the two. *)
Theorem piece_lifecycle (pid : string) (n off len off' len' : Z) (dig : string)
    (parent : option string) (s s1 s2 : Metadata) (p1 p2 : Piece) :
  (∀ i j, (i ≤ j)%nat → clock i ≤ clock j) →
  download_piece_started clock pid n off len s = (Ok p1, s1) →
  download_piece_finished clock pid off' len' dig parent s1 = (Ok p2, s2) →
  holds s2 pid p2 ∧ Piece.is_finished p2 = true ∧
  p2 = Piece.mkPiece n off' len' dig parent 0 0 (clock (ticks s1)) (Piece.created_at p1)
         (Some (clock (S (ticks s1)))) ∧
  Piece.cost p2 = Some (clock (ticks s + 3)%nat - clock (ticks s + 1)%nat).
Proof.
  intros Hclock Hstart Hfin.
  unfold download_piece_started in Hstart. cbv [mbind st_mbind now] in Hstart.
  destruct (db_put pid _ _) as [[[]|e] s0] eqn:Hput; [|done]. injection Hstart as <- <-.
  pose proof Hput as (_ & Hticks & _)%db_put_inv. apply db_put_Ok in Hput as (Hh1 & _ & _).
  simpl in Hticks. unfold download_piece_finished in Hfin.
  apply st_bind_Ok in Hfin as (g & s3 & Hg & Hfin).
  pose proof (db_get_holds _ _ _ _ _ Hg Hh1) as ->. apply db_get_Ok in Hg as [-> _].
  cbv [mbind st_mbind now] in Hfin. simpl in Hfin.
  destruct (db_put pid _ _) as [[[]|e] s4] eqn:Hput; [|done]. injection Hfin as <- <-.
  apply db_put_Ok in Hput as (Hh2 & _ & _).
  split_and!; [exact Hh2 | done | done |].
  unfold Piece.cost. simpl. rewrite Hticks.
  replace (ticks s + 3)%nat with (S (S (S (ticks s)))) by lia.
  replace (ticks s + 1)%nat with (S (ticks s)) by lia.
  rewrite decide_True; [done|]. specialize (Hclock (S (ticks s)) (S (S (S (ticks s))))). lia.
Qed.

(** ** Downloads of tasks *)

(** [prepare_download_task] on every branch: a complete task that has not
    failed is reused and nothing is written; otherwise the stored task comes
    back with its failure cleared and its lengths kept, or a new record with
    unknown lengths is created; in both cases the result is what is stored. *)
Theorem prepare_download_task_branches (id : string) (s s' : Metadata) (t : Task) (reused : bool) :
  prepare_download_task clock id s = (Ok (t, reused), s') →
  holds s' id t ∧ only_at "task" (as_bytes id) s s' ∧
  if reused then
    s' = s ∧ is_Some (Task.content_length t) ∧ is_Some (Task.piece_length t) ∧
    Task.is_failed t = false
  else
    Task.is_failed t = false ∧
    ((∃ t0, holds s id t0 ∧
       (Task.content_length t0 = None ∨ Task.piece_length t0 = None ∨ Task.is_failed t0 = true) ∧
       t = Task.set_failed_at None (Task.set_updated_at (clock (ticks s)) t0)) ∨
     (absent Task s id ∧
      t = Task.mkTask id None None ∅ 0 0 (clock (ticks s)) (clock (S (ticks s))) None None None)).
Proof.
  unfold prepare_download_task.
  intros (r & s0 & [-> Hr]%db_get_Ok & Hm)%st_bind_Ok. destruct r as [t0|].
  - destruct (_ && _ && _) eqn:Hb; cbv [mbind st_mbind now] in Hm.
    + injection Hm as <- <- <-. rewrite !andb_true_iff, !bool_decide_eq_true, negb_true_iff in Hb.
      split; [done|]. split; [by intros k _|]. tauto.
    + destruct (db_put id _ _) as [[[]|e] s1] eqn:Hput; [|done]. injection Hm as <- <- <-.
      apply db_put_Ok in Hput as (Hh & Ho & _). split; [done|]. split; [exact Ho|].
      split; [done|]. left. exists t0. split; [done|]. split; [|done].
      rewrite !andb_false_iff, !bool_decide_eq_false, negb_false_iff in Hb.
      rewrite <- !eq_None_not_Some in Hb. tauto.
  - cbv [mbind st_mbind now] in Hm. simpl in Hm.
    destruct (db_put id _ _) as [[[]|e] s1] eqn:Hput; [|done]. injection Hm as <- <- <-.
    apply db_put_Ok in Hput as (Hh & Ho & _). split; [done|]. split; [exact Ho|].
    split; [done|]. by right.
Qed.

(** a finished download is reused and a failed one is not.  After a
    download started and finished, the task is stored as finished and not
    failed and [prepare_download_task] hands it out for reuse without writing;
    if it then fails, [prepare_download_task] asks for a new download. *)
Theorem download_then_reuse (id : string) (pl cl : Z) (h : option HeaderMap)
    (s s1 s2 s3 : Metadata) (t1 t2 : Task) (p : Task * bool) :
  download_task_started clock id pl cl h s = (Ok t1, s1) →
  download_task_finished clock id s1 = (Ok t2, s2) →
  Task.is_finished t2 = true ∧ Task.content_length t2 = Some cl ∧
  Task.piece_length t2 = Some pl ∧
  (prepare_download_task clock id s2 = (Ok p, s3) → p = (t2, true) ∧ s3 = s2) ∧
  (∀ t3 s4 s5 q, download_task_failed clock id s2 = (Ok t3, s4) →
     prepare_download_task clock id s4 = (Ok q, s5) →
     Task.is_failed t3 = true ∧ q.2 = false ∧ Task.is_failed q.1 = false).
Proof.
  intros Hstart Hfin. unfold download_task_started in Hstart.
  apply st_bind_Ok in Hstart as (r & s0 & [-> Hr]%db_get_Ok & Hstart).
  apply st_bind_Ok in Hstart as (t & sa & Ht & Hstart).
  apply st_bind_Ok in Hstart as ([] & sb & Hput & [= <- <-]).
  apply db_put_Ok in Hput as (Hh1 & _ & _).
  assert (Task.content_length t = Some cl ∧ Task.piece_length t = Some pl) as [Hcl Hpl].
  { destruct r; cbv [mbind st_mbind now] in Ht; by injection Ht as <- _. }
  unfold download_task_finished in Hfin.
  apply update_task_Ok in Hfin as (t' & sc & Hh' & Hf & Hh2 & _ & _).
  rewrite (holds_fun _ _ _ _ Hh' Hh1) in Hf. cbv [mbind st_mbind now] in Hf.
  injection Hf as <- _. split_and!; [done..| |].
  - unfold prepare_download_task. intros (g & sd & Hg & Hm)%st_bind_Ok.
    pose proof (db_get_holds _ _ _ _ _ Hg Hh2) as ->. apply db_get_Ok in Hg as [-> _].
    simpl in Hm. rewrite Hcl, Hpl in Hm. by injection Hm as <- <-.
  - intros t3 s4 s5 [q b] Hfail Hprep.
    apply update_task_Ok in Hfail as (t4 & se & Hh4 & Hf & Hh3 & _ & _).
    cbv [mbind st_mbind now] in Hf. injection Hf as <- _. split; [done|].
    unfold prepare_download_task in Hprep. apply st_bind_Ok in Hprep as (g & sd & Hg & Hm).
    pose proof (db_get_holds _ _ _ _ _ Hg Hh3) as ->. apply db_get_Ok in Hg as [-> _].
    rewrite andb_false_r in Hm. cbv [mbind st_mbind now] in Hm. simpl in Hm.
    destruct (db_put id _ _) as [[[]|e] sf]; [|done]. by injection Hm as <- <- <-.
Qed.

(** completing or failing an unknown task is refused without effect.  When
    the engine answers the lookup, [download_task_finished],
    [download_task_failed] and the prefetch handlers of an absent task return
    [TaskNotFound] in an unchanged state; if the engine fails they return its
    error, also in an unchanged state. *)
Theorem unknown_task_refused (id : string) (s : Metadata)
    (op : string → M Task) :
  op ∈ [download_task_finished clock; download_task_failed clock;
        prefetch_task_started clock; prefetch_task_failed clock] →
  absent Task s id →
  op id s = match op_get (O := Task) (db s) (as_bytes id) with
            | Ok _ => (Err (TaskNotFound id), s)
            | Err e => (Err e, s)
            end.
Proof.
  intros Hop Ha.
  assert (∃ f, op id = update_task id f) as [f ->] by (set_unfold; naive_solver).
  destruct (op_get (db s) (as_bytes id)) as [r|e] eqn:Hg.
  - by eapply update_task_absent.
  - unfold update_task, db_get. cbv [mbind st_mbind reads]. by rewrite Hg.
Qed.

(** ** Listing and deleting *)
Lemma raw_values_Ok l vs :
  raw_values l = Ok vs → ∃ kvs, collect id l = Ok kvs ∧ vs = kvs.*2.
Proof.
  unfold raw_values. revert vs. induction l as [|r l IH]; intros vs; simpl.
  - intros [= <-]. by exists [].
  - intros (v & Hv & (vs' & Hvs & [= <-])%result_bind_Ok)%result_bind_Ok.
    destruct (IH _ Hvs) as (kvs & Hc & ->).
    destruct r as [kv|]; [|done]. injection Hv as <-. exists (kv :: kvs). simpl.
    by rewrite Hc.
Qed.

Lemma raw_keys_Ok (l : list (Result (bytes * bytes))) ks :
  collect (λ ele, fst <$> ele) l = Ok ks → ∃ kvs, collect id l = Ok kvs ∧ ks = kvs.*1.
Proof.
  revert ks. induction l as [|r l IH]; intros ks; simpl.
  - intros [= <-]. by exists [].
  - intros (v & Hv & (ks' & Hks & [= <-])%result_bind_Ok)%result_bind_Ok.
    destruct (IH _ Hks) as (kvs & Hc & ->).
    destruct r as [kv|]; [|done]. injection Hv as <-. exists (kv :: kvs). simpl.
    by rewrite Hc.
Qed.

(** [get_tasks] lists exactly the stored tasks, each once and with its
    upload statistics filled in. *)
Theorem get_tasks_complete (s s' : Metadata) (ts : list Task) :
  wf s → get_tasks s = (Ok ts, s') →
  s' = s ∧ NoDup (Task.id <$> ts) ∧
  ∀ t, t ∈ ts ↔ ∃ t0, holds s (Task.id t0) t0 ∧ t = fill_upload_stats s t0.
Proof.
  intros Hwf (l & s0 & Hl & (vs & s1 & Hvs & Hm)%st_bind_Ok)%st_bind_Ok.
  unfold reads, lift in *. injection Hl as Hl <-. injection Hvs as Hvs <-. injection Hm as Hm <-.
  apply raw_values_Ok in Hvs as (kvs & Hc & ->).
  destruct (op_iter_raw_ok _ _ _ _ Hl Hc) as [Hnd Hin].
  apply collect_Ok, Forall2_fmap_l in Hm.
  assert (∀ t0, Task.id (fill_upload_stats s t0) = Task.id t0) as Hfid.
  { intros t0. unfold fill_upload_stats. by case_match. }
  assert (Forall2 (λ kv t, ∃ t0, deserialize_from kv.2 = Ok t0 ∧ as_bytes (Task.id t0) = kv.1 ∧
    t = fill_upload_stats s t0) kvs ts) as Hf.
  { apply Forall2_same_length_lookup_2; [by eapply Forall2_length|].
    intros i [k v] t Hi Ht. eapply Forall2_lookup_lr in Hm; [|exact Hi | exact Ht].
    simpl in *. destruct (deserialize_from v) as [t0|] eqn:Hd; [|done]. injection Hm as <-.
    exists t0. split; [done|]. split; [|done].
    assert (raw s !! ("task", k) = Some v) as Hraw.
    { apply Hin. apply list_elem_of_lookup. eauto. }
    destruct (wf_tasks _ Hwf _ _ Hraw) as (t' & Ht' & Hk). unfold task_key in Hk. congruence. }
  split; [done|]. split.
  - assert (as_bytes <$> (Task.id <$> ts) = kvs.*1) as Hk.
    { clear -Hf Hfid. induction Hf as [|kv t kvs ts (t0 & _ & Hk & ->) _ IH]; [done|].
      rewrite !fmap_cons, Hfid. by f_equal. }
    eapply NoDup_fmap_1. by rewrite Hk.
  - intros t. split.
    + intros (i & Hi)%list_elem_of_lookup.
      destruct (Forall2_lookup_r _ _ _ _ _ Hf Hi) as ([k v] & Hkv & t0 & Hd & Hk & ->).
      exists t0. split; [|done]. exists v. split; [|done]. simpl in *. rewrite Hk. apply Hin.
      apply list_elem_of_lookup. eauto.
    + intros (t0 & (b & Hb & Hd) & ->). apply Hin in Hb.
      apply list_elem_of_lookup in Hb as (i & Hi).
      destruct (Forall2_lookup_l _ _ _ _ _ Hf Hi) as (t & Ht & t1 & Hd1 & _ & ->).
      simpl in Hd1. rewrite Hd in Hd1. injection Hd1 as <-. apply list_elem_of_lookup. eauto.
Qed.

Lemma delete_all_lookup ns ks m k :
  delete_all ns ks m !! k = if decide (k.1 = ns ∧ k.2 ∈ ks) then None else m !! k.
Proof.
  induction ks as [|k0 ks IH].
  - rewrite decide_False by set_solver. done.
  - cbn [delete_all foldr]. fold (delete_all ns ks m). rewrite lookup_delete, IH.
    destruct k as [ns' k]. simpl. repeat case_decide; set_solver.
Qed.

Lemma delete_pieces_raw (tid : string) (s s' : Metadata) :
  String.length tid = 64%nat → delete_pieces tid s = (Ok tt, s') →
  ∀ ns k, raw s' !! (ns, k) =
    if decide (ns = "piece" ∧ as_bytes tid `prefix_of` k) then None else raw s !! (ns, k).
Proof.
  intros Hlen (l & s0 & Hl & (ks & s1 & Hks & Hdel)%st_bind_Ok)%st_bind_Ok ns k.
  unfold reads, lift in *. injection Hl as Hl <-. injection Hks as Hks <-.
  apply raw_keys_Ok in Hks as (kvs & Hc & ->).
  assert (List.length (as_bytes tid) = 64%nat) as Hlen' by by rewrite length_as_bytes.
  destruct (op_prefix_iter_raw_ok _ _ _ _ _ Hlen' Hl Hc) as [_ Hin].
  unfold zoom in Hdel. destruct (op_batch_delete Piece kvs.*1 (db s)) as [[[]|x] e'] eqn:Hb; [|done].
  injection Hdel as <-. apply op_batch_delete_ok in Hb. unfold raw. simpl. rewrite Hb.
  rewrite delete_all_lookup. simpl. destruct (decide (ns = "piece" ∧ k ∈ kvs.*1)) as [[-> Hk]|Hk].
  - apply list_elem_of_fmap in Hk as ([k' v] & -> & Hk). apply Hin in Hk as [Hp _].
    by rewrite decide_True.
  - destruct (decide (ns = "piece" ∧ as_bytes tid `prefix_of` k)) as [[-> Hp]|]; [|done].
    destruct (contents (db s) !! ("piece", k)) as [v|] eqn:Hv; [|done].
    exfalso. apply Hk. split; [done|]. apply list_elem_of_fmap. exists (k, v).
    split; [done|]. by apply Hin.
Qed.

(** Whatever it returns, [delete_pieces] touches only pieces. *)
Lemma delete_pieces_only (tid : string) (s s' : Metadata) (r : Result unit) :
  delete_pieces tid s = (r, s') →
  same_memory s s' ∧ ∀ k, k.1 ≠ "piece" → raw s' !! k = raw s !! k.
Proof.
  unfold delete_pieces. cbv [mbind st_mbind reads lift].
  destruct (op_prefix_iter_raw Piece (db s) (as_bytes tid)) as [l|e]; [|by intros [= _ <-]].
  destruct (collect _ l) as [ks|e]; [|by intros [= _ <-]].
  unfold zoom. destruct (op_batch_delete Piece ks (db s)) as [r' e'] eqn:Hb. intros [= _ <-].
  split; [done|]. intros k Hk. unfold raw. simpl.
  assert (contents e' = contents (db s) ∨ contents e' = delete_all "piece" ks (contents (db s))) as [-> | ->];
    [|done|by rewrite delete_all_lookup, decide_False by tauto].
  destruct r' as [[]|x]; [right; apply op_batch_delete_ok in Hb | apply op_batch_delete_err in Hb];
    exact Hb.
Qed.

(** [delete_pieces] of a task with a 64-byte identifier deletes exactly the
    pieces whose key starts with that identifier: the pieces of the task are
    gone, and every other key of every namespace keeps its value. *)
Theorem delete_pieces_exact (tid : string) (s s' : Metadata) :
  String.length tid = 64%nat → delete_pieces tid s = (Ok tt, s') →
  ∀ ns k, raw s' !! (ns, k) =
    if decide (ns = "piece" ∧ as_bytes tid `prefix_of` k) then None else raw s !! (ns, k).
Proof. apply delete_pieces_raw. Qed.

(** ** Persistent tasks *)

(** restarting the download of a known persistent task keeps its content
    length and creation time, whatever the caller passes, takes the caller's
    lifetime, persistence and piece length, and clears the failure; an unknown
    task is created from the caller's values. *)
Theorem persistent_task_restart (k : PersistentKind) (id : string) (ttl : Duration) (p : bool)
    (pl cl : Z) (created : NaiveDateTime) (s s1 : Metadata) (t1 : PTask.PTask k) :
  download_ptask_started clock k id ttl p pl cl created s = (Ok t1, s1) →
  (∃ t0 : PTask.PTask k, holds s id t0 ∧
     t1 = PTask.mkPTask (PTask.id t0) p ttl pl (PTask.content_length t0)
            (PTask.uploading_count t0) (PTask.uploaded_count t0) (clock (ticks s))
            (PTask.created_at t0) None (PTask.finished_at t0)) ∨
  (absent (PTask.PTask k) s id ∧
     t1 = PTask.mkPTask id p ttl pl cl 0 0 (clock (ticks s)) created None None).
Proof.
  unfold download_ptask_started.
  intros (r & s0 & [-> Hr]%db_get_Ok & (t & sa & Ht & ([] & sb & _ & [= <- <-])%st_bind_Ok)%st_bind_Ok)%st_bind_Ok.
  destruct r as [t0|]; cbv [mbind st_mbind now] in Ht; simpl in Ht; injection Ht as <- <-.
  - left. by exists t0.
  - by right.
Qed.

Lemma finish_if_unfinished_spec {k} (t t' : PTask.PTask k) s s' :
  finish_if_unfinished clock t s = (Ok t', s') →
  is_Some (PTask.finished_at t') ∧ PTask.failed_at t' = PTask.failed_at t ∧
  ∀ f, PTask.finished_at t = Some f → PTask.finished_at t' = Some f.
Proof.
  unfold finish_if_unfinished. destruct (PTask.finished_at t) eqn:Hf.
  - intros [= <- _]. rewrite Hf. naive_solver.
  - intros [= <- _]. split; [by eexists|]. naive_solver.
Qed.

(** completing a persistent task twice keeps the first finish time, for
    the download handlers and the creation handlers of both kinds. *)
Theorem persistent_finish_is_sticky (k : PersistentKind) (id : string)
    (first second : string → M (PTask.PTask k)) (s s1 s2 : Metadata) (t1 t2 : PTask.PTask k) :
  first ∈ [download_ptask_finished clock k; create_ptask_finished clock k] →
  second ∈ [download_ptask_finished clock k; create_ptask_finished clock k] →
  first id s = (Ok t1, s1) → second id s1 = (Ok t2, s2) →
  is_Some (PTask.finished_at t1) ∧ PTask.finished_at t2 = PTask.finished_at t1 ∧
  PTask.is_failed t2 = false.
Proof.
  set (f := λ task : PTask.PTask k, t ← now clock;
    finish_if_unfinished (E := E) clock (PTask.set_failed_at None (PTask.set_updated_at t task))).
  intros Hfirst Hsecond Hr1 Hr2.
  assert (first id = update_task id f) as Hf1 by (set_unfold; naive_solver).
  assert (second id = update_task id f) as Hf2 by (set_unfold; naive_solver).
  rewrite Hf1 in Hr1. rewrite Hf2 in Hr2.
  apply update_task_Ok in Hr1 as (t0 & sa & _ & Ha & Hh1 & _ & _).
  apply update_task_Ok in Hr2 as (t1' & sb & Hh1' & Hb & _ & _ & _).
  rewrite (holds_fun _ _ _ _ Hh1' Hh1) in Hb. unfold f in Ha, Hb.
  apply st_bind_Ok in Ha as (x & sx & _ & Ha). apply st_bind_Ok in Hb as (y & sy & _ & Hb).
  apply finish_if_unfinished_spec in Ha as ([z Hz] & _ & _).
  apply finish_if_unfinished_spec in Hb as (_ & Hfail & Hkeep).
  rewrite Hz. split; [by eexists|]. split; [by apply Hkeep|].
  unfold PTask.is_failed. by rewrite Hfail.
Qed.

(** ** Upload statistics *)

Inductive UploadEvent : Type := EStarted | EFinished | EFailed.

Definition upload_event (id : string) (s : Metadata) (e : UploadEvent) : Metadata :=
  match e with
  | EStarted => upload_task_started id s
  | EFinished => upload_task_finished id s
  | EFailed => upload_task_failed id s
  end.

#[local] Instance UploadEvent_eq_dec : EqDecision UploadEvent.
Proof. solve_decision. Defined.

Definition occurrences (e : UploadEvent) (evs : list UploadEvent) : Z :=
  Z.of_nat (List.length (filter (e =.) evs)).

Lemma occurrences_app e l1 l2 : occurrences e (l1 ++ l2) = occurrences e l1 + occurrences e l2.
Proof. unfold occurrences. rewrite filter_app, length_app. lia. Qed.

Lemma occurrences_one e e' : occurrences e [e'] = if decide (e = e') then 1 else 0.
Proof. by destruct e, e'. Qed.

Lemma occurrences_bound evs :
  0 ≤ occurrences EStarted evs ∧ 0 ≤ occurrences EFinished evs ∧ 0 ≤ occurrences EFailed evs ∧
  occurrences EStarted evs + occurrences EFinished evs + occurrences EFailed evs
    = Z.of_nat (List.length evs).
Proof.
  induction evs as [|e evs IH] using rev_ind; [done|].
  rewrite !occurrences_app, !occurrences_one, length_app. simpl List.length.
  destruct e; simpl; lia.
Qed.

(** the upload statistics count exactly.  From a task without statistics,
    after any sequence of fewer than 2^63 upload events [uploading_count] is
    the number of starts minus finishes and failures (it may be negative, since
    [i64::saturating_sub] does not stop at zero) and [uploaded_count] is the
    number of finishes; [get_task] reports these numbers. *)
Theorem upload_counts_exact (id : string) (evs : list UploadEvent) (s : Metadata) (t : Task) :
  upload_stats s !! id = None → Z.of_nat (List.length evs) < 2 ^ 63 →
  evs ≠ [] → Task.id t = id → Task.uploaded_count t = 0 →
  let s' := foldl (upload_event id) s evs in
  Task.uploading_count (fill_upload_stats s' t) =
    occurrences EStarted evs - occurrences EFinished evs - occurrences EFailed evs ∧
  Task.uploaded_count (fill_upload_stats s' t) = occurrences EFinished evs.
Proof.
  intros Hnone Hlen Hne Hid Hup. simpl.
  assert (default UploadStats_default (upload_stats (foldl (upload_event id) s evs) !! id) =
      mkUploadStats (occurrences EStarted evs - occurrences EFinished evs - occurrences EFailed evs)
        (occurrences EFinished evs) ∧
    (evs ≠ [] → is_Some (upload_stats (foldl (upload_event id) s evs) !! id))) as [Hst Hsome].
  { clear Hne. revert Hlen. induction evs as [|e evs IH] using rev_ind; intros Hlen.
    - simpl. rewrite Hnone. done.
    - rewrite length_app in Hlen. simpl in Hlen.
      destruct IH as [IH _]; [lia|]. rewrite foldl_app. simpl.
      pose proof (occurrences_bound evs).
      set (s1 := foldl (upload_event id) s evs) in *.
      assert (upload_stats (upload_event id s1 e) !! id = Some
        (match e with EStarted => stats_started | EFinished => stats_finished
         | EFailed => stats_failed end (default UploadStats_default (upload_stats s1 !! id)))) as ->.
      { destruct e; simpl; unfold update_stats; by rewrite lookup_insert_eq. }
      rewrite IH. split; [|by eexists]. rewrite !occurrences_app, !occurrences_one.
      destruct e; simpl; unfold stats_started, stats_finished, stats_failed; simpl;
        unfold i64_add, i64_saturating_sub, i64_min, i64_max;
        rewrite ?i64_wrap_id, ?u64_add_id by solve_range; f_equal; lia. }
  specialize (Hsome Hne) as [st Hst']. rewrite Hst' in Hst. simpl in Hst. subst st.
  unfold fill_upload_stats. rewrite Hid, Hst'. simpl. split; [done|].
  rewrite Hup, Z.add_0_l || rewrite Hup. pose proof (occurrences_bound evs).
  rewrite u64_add_id by solve_range. lia.
Qed.

(** deleting a task during an upload corrupts the count of later uploads:
    the statistics restart from zero at the deletion, the pending upload takes
    them to -1, and the next upload is reported as "not uploading" while it is
    in progress, so the task looks idle to garbage collection. *)
Theorem upload_count_lost_on_delete (id : string) (s : Metadata) (t : Task) :
  Task.id t = id →
  let s1 := upload_task_started id s in
  let s2 := (delete_task id s1).2 in
  let s3 := upload_task_finished id s2 in
  let s4 := upload_task_started id s3 in
  Task.uploading_count (fill_upload_stats s3 t) = -1 ∧
  Task.uploading_count (fill_upload_stats s4 t) = 0 ∧
  Task.is_uploading (fill_upload_stats s4 t) = false.
Proof.
  intros Hid s1 s2 s3 s4.
  assert (upload_stats s2 !! id = None) as Hnone.
  { unfold s2, delete_task. cbv [mbind st_mbind modify].
    destruct (db_delete Task id _) as [r s2'] eqn:Hd. simpl.
    apply db_delete_inv in Hd as [(Hu & _) _]. rewrite Hu. simpl. apply lookup_delete_eq. }
  assert (upload_stats s3 !! id = Some (mkUploadStats (-1) 1)) as H3.
  { unfold s3, upload_task_finished, update_stats. simpl. by rewrite Hnone, lookup_insert_eq. }
  assert (upload_stats s4 !! id = Some (mkUploadStats 0 1)) as H4.
  { unfold s4, upload_task_started, update_stats. cbn [upload_stats set_upload_stats].
    by rewrite lookup_insert_eq, H3. }
  unfold Task.is_uploading, fill_upload_stats. rewrite Hid, H3, H4. simpl. done.
Qed.

End facts.
End MetadataFacts.

(** ** Piece identifiers *)

Module PieceId.

Lemma piece_id_bytes t n :
  as_bytes (Metadata.piece_id t n) = as_bytes t ++ as_bytes ("-" +:+ pretty (Z.to_N n))%string.
Proof. unfold Metadata.piece_id. by rewrite as_bytes_app. Qed.

(** piece identifiers are unambiguous.  For task identifiers of the same
    length, distinct (task, number) pairs have distinct identifiers, and the
    identifier of a task is a prefix of exactly its own piece identifiers, so
    the prefix scans of [get_pieces] and [delete_pieces] stay within a task. *)
Theorem piece_id_unambiguous (t t' : string) (n n' : Z) :
  String.length t = String.length t' → 0 ≤ n → 0 ≤ n' →
  (Metadata.piece_id t n = Metadata.piece_id t' n' → t = t' ∧ n = n') ∧
  (as_bytes t `prefix_of` as_bytes (Metadata.piece_id t' n') ↔ t = t').
Proof.
  intros Hlen Hn Hn'.
  assert (List.length (as_bytes t) = List.length (as_bytes t')) as Hlenb
    by by rewrite !length_as_bytes.
  split.
  - intros Heq%(f_equal as_bytes). rewrite !piece_id_bytes in Heq.
    apply app_inj_1 in Heq as [Ht%as_bytes_inj Hp]; [|done]. split; [done|].
    rewrite !as_bytes_app in Hp. apply app_inj_1 in Hp as [_ Hp%as_bytes_inj]; [|done].
    apply (inj pretty) in Hp. lia.
  - rewrite piece_id_bytes. split.
    + intros [rest Heq]. apply app_inj_1 in Heq as [Ht _]; [|done]. symmetry. by apply as_bytes_inj.
    + intros ->. by eexists.
Qed.
End PieceId.
