(* ===== verification/MemEngine.v ===== *)
(** * An in-memory database and codec

    A concrete instance of the parameters [RocksDB] and [Bincode]: a set of
    column families over one finite map, and a codec that writes the fields of
    a record one after the other.  The instances [mem_rocksdb_laws] and
    [codec_laws] show that [RocksDBLaws] and [MetadataBincodeLaws] can be met
    together; the witnesses of the metadata theorems run on this instance. *)

From S2P Require Import Prelude Errors MetadataTypes Engine Metadata MetadataFacts.
From Stdlib Require Import ZArith Lia String Strings.Byte.
From stdpp Require Import base tactics list gmap strings countable.
Local Open Scope Z_scope.

(** ** The database *)

(** The five column families that [Metadata::new] opens. *)
Definition column_families : list string := ["task"; "persistent_task"; "persistent_cache_task"; "cache_task"; "piece"].
Record MemDB := mkMemDB { mem_data : Contents }.

Definition mem_items (db : MemDB) (cf : string) (p : bytes) : list (bytes * bytes) :=
  omap (λ '((ns, k), v), if decide (ns = cf ∧ p `prefix_of` k) then Some (k, v) else None)
    (map_to_list (mem_data db)).

#[export] Instance mem_rocksdb : RocksDB MemDB := {
  has_cf db cf := bool_decide (cf ∈ column_families);
  get_cf db cf k := Ok (mem_data db !! (cf, k));
  batched_multi_get_cf db cf ks := (λ k, Ok (mem_data db !! (cf, k))) <$> ks;
  put_cf_opt cf k v db :=
    (Ok tt, mkMemDB (<[(cf, k) := v]> (mem_data db)));
  delete_cf_opt cf k db := (Ok tt, mkMemDB (delete (cf, k) (mem_data db)));
  iterator_cf_opt db cf := Ok <$> mem_items db cf [];
  prefix_iterator_cf db cf p := Ok <$> mem_items db cf p;
  write_opt_deletes cf ks db :=
    (Ok tt, mkMemDB (delete_all cf ks (mem_data db)));
}.

Lemma collect_fmap_Ok {X A} (l : list A) : collect id (Ok (E := X) <$> l) = Ok l.
Proof.
  induction l as [|a l IH]; [done|]. rewrite fmap_cons. cbn [collect].
  cbv [id mbind result_mbind]. unfold id in IH. by rewrite IH.
Qed.

Lemma elem_of_mem_items db cf p k v :
  (k, v) ∈ mem_items db cf p ↔ p `prefix_of` k ∧ mem_data db !! (cf, k) = Some v.
Proof.
  unfold mem_items. rewrite list_elem_of_omap. split.
  - intros ([[ns k'] v'] & Hin%elem_of_map_to_list & Hd). case_decide as Hc; [|done].
    destruct Hc as [-> Hp]. by simplify_eq.
  - intros [Hp Hl]. exists ((cf, k), v). rewrite elem_of_map_to_list.
    by rewrite decide_True.
Qed.

Lemma NoDup_mem_items db cf p : NoDup (mem_items db cf p).*1.
Proof.
  unfold mem_items. pose proof (NoDup_fst_map_to_list (mem_data db)) as Hnd.
  induction (map_to_list (mem_data db)) as [|[[ns k] v] l IH]; [constructor|].
  simpl in *. apply list_relations.list.NoDup_cons in Hnd as [Hin Hnd]. case_decide as Hc; [|by apply IH].
  destruct Hc as [-> _]. simpl. apply list_relations.list.NoDup_cons. split; [|by apply IH].
  intros ([k' v'] & -> & ([[ns' k''] v''] & Hl & Hd)%list_elem_of_omap)%list_elem_of_fmap.
  case_decide as Hc; [|done]. destruct Hc as [-> _]. simplify_eq/=.
  apply Hin, list_elem_of_fmap. by exists ((cf, k'), v').
Qed.

Lemma mem_items_ok db cf p kvs :
  collect id (Ok (E := string) <$> mem_items db cf p) = Ok kvs →
  NoDup kvs.*1 ∧ ∀ k v, (k, v) ∈ kvs ↔ p `prefix_of` k ∧ mem_data db !! (cf, k) = Some v.
Proof.
  rewrite collect_fmap_Ok. intros [= <-].
  split; [apply NoDup_mem_items | intros; apply elem_of_mem_items].
Qed.

#[export] Program Instance mem_rocksdb_laws : RocksDBLaws MemDB := {
  db_contents := mem_data;
}.
Next Obligation. simpl. intros db cf k r Heq. by simplify_eq. Qed.
Next Obligation.
  simpl. intros db cf ks. apply Forall2_fmap_r, Forall_Forall2_diag, Forall_forall.
  intros k _ v Heq. by simplify_eq.
Qed.
Next Obligation. done. Qed.
Next Obligation. done. Qed.
Next Obligation.
  simpl. intros db cf kvs [Hnd Hin]%mem_items_ok. split; [done|]. intros k v. rewrite Hin.
  split; [by intros [_ ?]|]. split; [apply prefix_nil | done].
Qed.
Next Obligation. simpl. intros db cf p kvs _. apply mem_items_ok. Qed.
Next Obligation. done. Qed.

(** ** The codec *)

(** The bits of a positive number below its leading one. *)
Fixpoint bits_of (p : positive) : bytes :=
  match p with
  | xH => []
  | xO p => x00 :: bits_of p
  | xI p => x01 :: bits_of p
  end.
Fixpoint of_bits (b : bytes) : positive :=
  match b with
  | [] => xH
  | x00 :: b => xO (of_bits b)
  | _ :: b => xI (of_bits b)
  end.

Lemma of_bits_of p : of_bits (bits_of p) = p.
Proof. induction p; simpl; congruence. Qed.

Definition encode_fields (fields : list positive) : bytes := bits_of (encode fields).
Definition decode_fields (b : bytes) : option (list positive) := decode (of_bits b).

Lemma decode_encode_fields fields : decode_fields (encode_fields fields) = Some fields.
Proof. unfold decode_fields, encode_fields. by rewrite of_bits_of, decode_encode. Qed.

Definition to_result {A} (o : option A) : result string A :=
  match o with Some a => Ok a | None => Err "io error: unexpected end of file" end.

#[export] Instance codec_task : Bincode Task := {
  bincode_serialize t := Ok (encode_fields [
    encode (Task.id t); encode (Task.piece_length t); encode (Task.content_length t);
    encode (Task.response_header t); encode (Task.uploading_count t);
    encode (Task.uploaded_count t); encode (Task.updated_at t); encode (Task.created_at t);
    encode (Task.prefetched_at t); encode (Task.failed_at t); encode (Task.finished_at t)]);
  bincode_deserialize b := to_result (fs ← decode_fields b;
    match fs with
    | [f1; f2; f3; f4; f5; f6; f7; f8; f9; f10; f11] =>
        a1 ← decode f1; a2 ← decode f2; a3 ← decode f3; a4 ← decode f4; a5 ← decode f5;
        a6 ← decode f6; a7 ← decode f7; a8 ← decode f8; a9 ← decode f9; a10 ← decode f10;
        a11 ← decode f11; Some (Task.mkTask a1 a2 a3 a4 a5 a6 a7 a8 a9 a10 a11)
    | _ => None
    end);
}.

#[export] Instance codec_ptask k : Bincode (PTask.PTask k) := {
  bincode_serialize t := Ok (encode_fields [
    encode (PTask.id t); encode (PTask.persistent t); encode (PTask.ttl t);
    encode (PTask.piece_length t); encode (PTask.content_length t);
    encode (PTask.uploading_count t); encode (PTask.uploaded_count t);
    encode (PTask.updated_at t); encode (PTask.created_at t);
    encode (PTask.failed_at t); encode (PTask.finished_at t)]);
  bincode_deserialize b := to_result (fs ← decode_fields b;
    match fs with
    | [f1; f2; f3; f4; f5; f6; f7; f8; f9; f10; f11] =>
        a1 ← decode f1; a2 ← decode f2; a3 ← decode f3; a4 ← decode f4; a5 ← decode f5;
        a6 ← decode f6; a7 ← decode f7; a8 ← decode f8; a9 ← decode f9; a10 ← decode f10;
        a11 ← decode f11; Some (PTask.mkPTask a1 a2 a3 a4 a5 a6 a7 a8 a9 a10 a11)
    | _ => None
    end);
}.

#[export] Instance codec_cache_task : Bincode CacheTask := {
  bincode_serialize t := Ok (encode_fields [
    encode (CacheTask.id t); encode (CacheTask.piece_length t);
    encode (CacheTask.content_length t); encode (CacheTask.response_header t);
    encode (CacheTask.uploading_count t); encode (CacheTask.uploaded_count t);
    encode (CacheTask.updated_at t); encode (CacheTask.created_at t);
    encode (CacheTask.failed_at t); encode (CacheTask.finished_at t)]);
  bincode_deserialize b := to_result (fs ← decode_fields b;
    match fs with
    | [f1; f2; f3; f4; f5; f6; f7; f8; f9; f10] =>
        a1 ← decode f1; a2 ← decode f2; a3 ← decode f3; a4 ← decode f4; a5 ← decode f5;
        a6 ← decode f6; a7 ← decode f7; a8 ← decode f8; a9 ← decode f9; a10 ← decode f10;
        Some (CacheTask.mkCacheTask a1 a2 a3 a4 a5 a6 a7 a8 a9 a10)
    | _ => None
    end);
}.

#[export] Instance codec_piece : Bincode Piece := {
  bincode_serialize t := Ok (encode_fields [
    encode (Piece.number t); encode (Piece.offset t); encode (Piece.length t);
    encode (Piece.digest t); encode (Piece.parent_id t); encode (Piece.uploading_count t);
    encode (Piece.uploaded_count t); encode (Piece.updated_at t); encode (Piece.created_at t);
    encode (Piece.finished_at t)]);
  bincode_deserialize b := to_result (fs ← decode_fields b;
    match fs with
    | [f1; f2; f3; f4; f5; f6; f7; f8; f9; f10] =>
        a1 ← decode f1; a2 ← decode f2; a3 ← decode f3; a4 ← decode f4; a5 ← decode f5;
        a6 ← decode f6; a7 ← decode f7; a8 ← decode f8; a9 ← decode f9; a10 ← decode f10;
        Some (Piece.mkPiece a1 a2 a3 a4 a5 a6 a7 a8 a9 a10)
    | _ => None
    end);
}.

Ltac solve_codec :=
  intros o b Hb; injection Hb as <-;
  unfold bincode_deserialize; cbn [codec_task codec_ptask codec_cache_task codec_piece];
  rewrite decode_encode_fields; cbn [mbind option_bind];
  rewrite !decode_encode; by destruct o.

#[export] Instance codec_task_laws : BincodeLaws Task.
Proof. solve_codec. Qed.
#[export] Instance codec_ptask_laws k : BincodeLaws (PTask.PTask k).
Proof. solve_codec. Qed.
#[export] Instance codec_cache_task_laws : BincodeLaws CacheTask.
Proof. solve_codec. Qed.
#[export] Instance codec_piece_laws : BincodeLaws Piece.
Proof. solve_codec. Qed.

#[export] Instance codec : MetadataBincode := {}.
#[export] Instance codec_laws : MetadataBincodeLaws := {}.

(** ** Witnesses of the metadata theorems *)

Module MetadataWitness.
Import Metadata MetadataFacts.

(** The engine of [Metadata::new], empty. *)
Definition empty_db : MemDB := mkMemDB ∅.
Definition empty : Metadata MemDB := new empty_db.
Definition clock (n : nat) : NaiveDateTime := secs (Z.of_nat n).

Lemma clock_mono i j : (i ≤ j)%nat → clock i ≤ clock j.
Proof. unfold clock, secs. lia. Qed.

Definition tid : string := "0123456789abcdef0123456789abcdef0123456789abcdef0123456789abcdef".
Definition pid : string := piece_id tid 0.

(** The state and the value after an operation that succeeds. *)
Definition after {A} (m : ST (Metadata MemDB) DFError A) (s : Metadata MemDB) : Metadata MemDB :=
  (m s).2.
Definition value {A} (d : A) (m : ST (Metadata MemDB) DFError A) (s : Metadata MemDB) : A :=
  match (m s).1 with Ok a => a | Err _ => d end.

Lemma run_ok {A} (d : A) (m : ST (Metadata MemDB) DFError A) s :
  is_ok (m s).1 = true → m s = (Ok (value d m s), after m s).
Proof. unfold value, after. by destruct (m s) as [[]]. Qed.

#[local] Opaque after value.

(** [run_of m s d H]: [m] succeeds in [s], by evaluation. *)
Ltac run_of m s d H :=
  assert (is_ok (m s).1 = true) as H by (vm_compute; reflexivity); apply (run_ok d) in H.

Definition started : Metadata MemDB := after (download_task_started clock tid 4 10 None) empty.
Definition piece_stored : Metadata MemDB := after (download_piece_started clock pid 0 0 4) empty.

Lemma wf_empty : wf (E := MemDB) empty.
Proof. split; intros until 1; discriminate. Qed.

Lemma run_keeps_wf_witness :
  let s := run clock [DownloadTaskStarted tid 4 10 None; DownloadPieceStarted pid 0 0 4;
                      DownloadPieceFinished pid 0 4 "crc32:0" None; DeletePieces tid] empty in
  wf s ∧ size (raw s) = 1%nat.
Proof. split; [apply run_keeps_wf, wf_empty | vm_compute; reflexivity]. Defined.

Lemma piece_failed_guard_witness :
  let s := (download_piece_finished clock pid 0 4 "crc32:0" None piece_stored).2 in
  raw (download_piece_failed pid s).2 = raw s ∧
  absent Piece (download_piece_failed pid piece_stored).2 pid.
Proof.
  split.
  - eapply (piece_failed_guard pid).
    + left. by rewrite <- surjective_pairing.
    + eexists. split; vm_compute; reflexivity.
    + vm_compute. reflexivity.
  - eapply (piece_failed_guard pid).
    + left. by rewrite <- surjective_pairing.
    + vm_compute. reflexivity.
    + intros p (b & Hb & Hd). vm_compute in Hb. injection Hb as <-. vm_compute in Hd.
      injection Hd as <-. vm_compute. reflexivity.
Defined.

Lemma piece_lifecycle_witness :
  let start := download_piece_started clock pid 0 0 4 in
  let finish := download_piece_finished clock pid 0 4 "crc32:0" (Some "peer") in
  let s1 := after start empty in
  let p2 := value Piece.default finish s1 in
  holds (after finish s1) pid p2 ∧ Piece.is_finished p2 = true ∧ Piece.cost p2 = Some (secs 2).
Proof.
  intros start finish s1 p2.
  run_of start empty Piece.default H1. run_of finish s1 Piece.default H2.
  destruct (piece_lifecycle clock pid 0 0 4 0 4 "crc32:0" (Some "peer") empty _ _ _ _ clock_mono
    H1 H2) as (Hh & Hf & _ & Hc).
  split; [exact Hh|]. split; [exact Hf|].
  etransitivity; [exact Hc | vm_compute; reflexivity].
Defined.

Lemma prepare_download_task_branches_witness :
  let prepare := prepare_download_task clock tid in
  let s1 := after prepare empty in
  (value (Task.default, true) prepare empty).2 = false ∧
  holds s1 tid (value (Task.default, true) prepare empty).1 ∧
  only_at "task" (as_bytes tid) empty s1.
Proof.
  intros prepare s1. split; [vm_compute; reflexivity|].
  run_of prepare empty (Task.default, true) Hr.
  rewrite (surjective_pairing (value _ _ _)) in Hr.
  destruct (prepare_download_task_branches clock tid empty _ _ _ Hr) as (Hh & Ho & _).
  split; [exact Hh | exact Ho].
Defined.

Lemma download_then_reuse_witness :
  let start := download_task_started clock tid 4 10 None in
  let finish := download_task_finished clock tid in
  let prepare := prepare_download_task clock tid in
  let s2 := after finish started in
  let t2 := value Task.default finish started in
  Task.is_finished t2 = true ∧ Task.content_length t2 = Some 10 ∧
  value (Task.default, false) prepare s2 = (t2, true) ∧ after prepare s2 = s2.
Proof.
  intros start finish prepare s2 t2.
  run_of start empty Task.default H1. run_of finish started Task.default H2.
  run_of prepare s2 (Task.default, false) H3.
  destruct (download_then_reuse clock tid 4 10 None empty started s2 (after prepare s2) _ t2
    (value (Task.default, false) prepare s2) H1 H2)
    as (Hf & Hcl & _ & Hp & _).
  split; [exact Hf|]. split; [exact Hcl|]. exact (Hp H3).
Defined.

Lemma unknown_task_refused_witness :
  download_task_failed clock "other" started = (Err (TaskNotFound "other"), started).
Proof.
  rewrite (unknown_task_refused clock "other" started (download_task_failed clock)).
  - destruct (op_get _ _) as [r|e] eqn:Hg; [reflexivity|]. vm_compute in Hg. discriminate.
  - right. left.
  - vm_compute. reflexivity.
Defined.

Lemma wf_started : wf started.
Proof.
  pose proof (exec_keeps_wf clock (DownloadTaskStarted tid 4 10 None) empty wf_empty) as Hwf.
  set (start := download_task_started clock tid 4 10 None). run_of start empty Task.default H1.
  cbv [exec void mbind st_mbind] in Hwf. fold start in Hwf. rewrite H1 in Hwf. exact Hwf.
Qed.

Lemma get_tasks_complete_witness :
  let ts := value [] get_tasks started in
  List.length ts = 1%nat ∧ NoDup (Task.id <$> ts).
Proof.
  intros ts. split; [vm_compute; reflexivity|]. run_of (get_tasks (E := MemDB)) started (@nil Task) H1.
  apply (get_tasks_complete started (after get_tasks started) ts).
  - exact wf_started.
  - exact H1.
Defined.

Lemma delete_pieces_exact_witness :
  let s := after (download_piece_started clock (piece_id "other" 0) 0 0 4) piece_stored in
  let s' := after (delete_pieces tid) s in
  raw s' !! ("piece", as_bytes pid) = None ∧
  raw s' !! ("piece", as_bytes (piece_id "other" 0)) =
    raw s !! ("piece", as_bytes (piece_id "other" 0)) ∧ size (raw s') = 1%nat.
Proof.
  intros s s'.
  run_of (delete_pieces (E := MemDB) tid) s tt H1. destruct (value _ _ _) in H1.
  pose proof (delete_pieces_exact tid s s' eq_refl H1) as Hdel.
  split; [by rewrite Hdel, decide_True by (split; [done | by eexists])|].
  split; [|vm_compute; reflexivity].
  rewrite Hdel, decide_False; [done|]. intros [_ [k Hk]]. discriminate.
Defined.

Lemma persistent_task_restart_witness :
  let start := download_ptask_started clock KPersistent tid 100 true 4 10 7 in
  PTask.created_at (value PTask.default start empty) = 7 ∧
  PTask.content_length (value PTask.default start empty) = 10.
Proof.
  intros start. run_of start empty (PTask.default (k := KPersistent)) H1.
  destruct (persistent_task_restart clock KPersistent tid 100 true 4 10 7 empty _ _ H1)
    as [(t0 & (b & Hb & _) & _)|[_ Ht]]; [discriminate|]. by rewrite Ht.
Defined.

Lemma persistent_finish_is_sticky_witness :
  let finish := create_ptask_finished clock KPersistentCache tid in
  let again := download_ptask_finished clock KPersistentCache tid in
  let s := after (create_ptask_started clock KPersistentCache tid 100 4 10) empty in
  let s1 := after finish s in
  let t1 := value PTask.default finish s in
  let t2 := value PTask.default again s1 in
  is_Some (PTask.finished_at t1) ∧ PTask.finished_at t2 = PTask.finished_at t1 ∧
  PTask.is_failed t2 = false.
Proof.
  intros finish again s s1 t1 t2.
  run_of finish s (PTask.default (k := KPersistentCache)) H1.
  run_of again s1 (PTask.default (k := KPersistentCache)) H2.
  apply (persistent_finish_is_sticky clock KPersistentCache tid
    (create_ptask_finished clock KPersistentCache)
    (download_ptask_finished clock KPersistentCache) s s1 (after again s1) t1 t2).
  - right. left.
  - left.
  - exact H1.
  - exact H2.
Defined.

Lemma upload_counts_exact_witness :
  let evs := [EStarted; EStarted; EFinished; EStarted; EFailed] in
  let t := Task.mkTask tid None None ∅ 0 0 0 0 None None None in
  let s' := foldl (upload_event tid) empty evs in
  Task.uploading_count (fill_upload_stats s' t) = 1 ∧
  Task.uploaded_count (fill_upload_stats s' t) = 1.
Proof.
  intros evs t s'. apply (upload_counts_exact tid evs empty t); vm_compute; done.
Defined.

Lemma upload_count_lost_on_delete_witness :
  let s2 := (delete_task tid (upload_task_started tid empty)).2 in
  let s4 := upload_task_started tid (upload_task_finished tid s2) in
  Task.is_uploading (fill_upload_stats s4 (Task.mkTask tid None None ∅ 0 0 0 0 None None None))
    = false.
Proof. apply upload_count_lost_on_delete. reflexivity. Defined.

Lemma piece_id_unambiguous_witness :
  piece_id tid 1 ≠ piece_id tid 10 ∧ as_bytes tid `prefix_of` as_bytes (piece_id tid 7).
Proof.
  split.
  - intros Heq. by apply (PieceId.piece_id_unambiguous tid tid 1 10) in Heq as [_ [=]].
  - by apply (PieceId.piece_id_unambiguous tid tid 0 7).
Defined.
End MetadataWitness.
