(* ===== verification/Float64.v ===== *)
(** * Double-precision arithmetic

    The non-negative part of Rust's [f64] that the piece manager, the garbage
    collector and the rate limiter use: the conversion from [u64], the division,
    the product, [ceil], [round] and the saturating casts to [u64] and [u32].  A finite value is [m * 2^e];
    conversion, division and product round the exact result to 53 bits, to
    nearest with ties to even.  The quotients of two [u64] values, and their
    products with a [u64], lie between 2^-64 and 2^128, so neither overflow nor
    subnormal numbers occur. *)

From S2P Require Import Prelude.
From Stdlib Require Import ZArith Lia.
From stdpp Require Import base tactics numbers.
Local Open Scope Z_scope.

Module F64.

Inductive f64 : Type :=
| Fin (m e : Z)
| Inf
| NaN.

(** The integer nearest to [n / d], ties to even. *)
Definition rne_div (n d : Z) : Z :=
  let q := n / d in
  let r := n mod d in
  if 2 * r <? d then q
  else if d <? 2 * r then q + 1
  else if Z.even q then q else q + 1.

(** The exponent that puts [n / d] in [2^52, 2^53), for [n / d] above 2^-128. *)
Definition exponent (n d : Z) : Z := Z.log2 (n * 2 ^ 128 / d) - 180.

(** The [f64] nearest to [n / d]. *)
Definition of_ratio (n d : Z) : f64 :=
  if n =? 0 then Fin 0 0
  else let e := exponent n d in
       if e <=? 0 then Fin (rne_div (n * 2 ^ (- e)) d) e
       else Fin (rne_div n (d * 2 ^ e)) e.

(** [z as f64] for [z : u64]. *)
Definition of_u64 (z : Z) : f64 := of_ratio z 1.

(** [/]. *)
Definition div (x y : f64) : f64 :=
  match x, y with
  | NaN, _ | _, NaN | Inf, Inf => NaN
  | Inf, Fin _ _ => Inf
  | Fin _ _, Inf => Fin 0 0
  | Fin m1 e1, Fin m2 e2 =>
      if m2 =? 0 then (if m1 =? 0 then NaN else Inf)
      else of_ratio (m1 * 2 ^ (0 `max` (e1 - e2))) (m2 * 2 ^ (0 `max` (e2 - e1)))
  end.

(** [*]. *)
Definition mul (x y : f64) : f64 :=
  match x, y with
  | NaN, _ | _, NaN => NaN
  | Inf, Fin m _ | Fin m _, Inf => if m =? 0 then NaN else Inf
  | Inf, Inf => Inf
  | Fin m1 e1, Fin m2 e2 =>
      of_ratio (m1 * m2 * 2 ^ (0 `max` (e1 + e2))) (2 ^ (0 `max` - (e1 + e2)))
  end.

(** [f64::ceil]. *)
Definition ceil (x : f64) : f64 :=
  match x with
  | Fin m e => if 0 <=? e then Fin m e else Fin ((m + 2 ^ (- e) - 1) / 2 ^ (- e)) 0
  | x => x
  end.

(** [f64::round]: halves go away from zero. *)
Definition round (x : f64) : f64 :=
  match x with
  | Fin m e => if 0 <=? e then Fin m e else Fin ((2 * m + 2 ^ (- e)) / (2 * 2 ^ (- e))) 0
  | x => x
  end.

(** [x as uN]: truncates, saturates, and maps NaN to zero. *)
Definition as_uint (w : Z) (x : f64) : Z :=
  match x with
  | Fin m e => u_max w `min` (if 0 <=? e then m * 2 ^ e else m / 2 ^ (- e))
  | Inf => u_max w
  | NaN => 0
  end.

(** ** Rounding error *)
Lemma rne_div_error n d : 0 < d → 2 * Z.abs (rne_div n d * d - n) ≤ d.
Proof.
  intros Hd. unfold rne_div. pose proof (Z.div_mod n d ltac:(lia)).
  pose proof (Z.mod_pos_bound n d Hd).
  destruct (Z.ltb_spec (2 * (n mod d)) d); [nia|].
  destruct (Z.ltb_spec d (2 * (n mod d))); [nia|]. case_match; nia.
Qed.

(** [Fin m e] is the value nearest to [n / d]: it is within half a unit of it,
    and [n / d] has the exponent [e]. *)
Definition rounds (n d m e : Z) : Prop :=
  if decide (e ≤ 0) then
    2 * Z.abs (m * d - n * 2 ^ (- e)) ≤ d ∧ 2 ^ 52 * d ≤ n * 2 ^ (- e) < 2 ^ 53 * d
  else
    2 * Z.abs (m * (d * 2 ^ e) - n) ≤ d * 2 ^ e ∧ 2 ^ 52 * (d * 2 ^ e) ≤ n < 2 ^ 53 * (d * 2 ^ e).

Lemma exponent_spec n d :
  0 < n → 0 < d → d ≤ n * 2 ^ 128 →
  let e := exponent n d in
  if decide (e ≤ 0) then 2 ^ 52 * d ≤ n * 2 ^ (- e) < 2 ^ 53 * d
  else 2 ^ 52 * (d * 2 ^ e) ≤ n < 2 ^ 53 * (d * 2 ^ e).
Proof.
  intros Hn Hd Hbig. unfold exponent. set (q := n * 2 ^ 128 / d).
  assert (1 ≤ q) as Hq by (apply Z.div_le_lower_bound; lia).
  assert (d * q ≤ n * 2 ^ 128 < d * (q + 1)) as [Hq1 Hq2].
  { pose proof (Z.div_mod (n * 2 ^ 128) d ltac:(lia)).
    pose proof (Z.mod_pos_bound (n * 2 ^ 128) d Hd). unfold q. lia. }
  pose proof (Z.log2_spec q ltac:(lia)) as [Hl1 Hl2]. pose proof (Z.log2_nonneg q) as Hl.
  rewrite Z.pow_succ_r in Hl2 by done. set (l := Z.log2 q) in *. simpl.
  assert (2 ^ l * d ≤ n * 2 ^ 128 < 2 * 2 ^ l * d) as Hlo by nia.
  destruct (decide (l - 180 ≤ 0)) as [He|He].
  - assert (2 ^ (- (l - 180)) * 2 ^ l = 2 ^ 180) as Hp
      by (rewrite <- Z.pow_add_r by lia; f_equal; lia).
    assert (0 < 2 ^ l) by (by apply Z.pow_pos_nonneg). nia.
  - assert (2 ^ (l - 180) * 2 ^ 180 = 2 ^ l) as Hp
      by (rewrite <- Z.pow_add_r by lia; f_equal; lia).
    nia.
Qed.

Lemma of_ratio_rounds n d :
  0 < n → 0 < d → d ≤ n * 2 ^ 128 → ∃ m e, of_ratio n d = Fin m e ∧ rounds n d m e.
Proof.
  intros Hn Hd Hbig. pose proof (exponent_spec n d Hn Hd Hbig) as He. simpl in He.
  unfold of_ratio. destruct (Z.eqb_spec n 0); [lia|]. unfold rounds.
  destruct (Z.leb_spec (exponent n d) 0) as [Hle|Hgt].
  - rewrite decide_True in He by done. do 2 eexists. split; [done|]. rewrite decide_True by done.
    split; [by apply rne_div_error | done].
  - rewrite decide_False in He by lia. do 2 eexists. split; [done|]. rewrite decide_False by lia.
    split; [|done]. apply rne_div_error.
    apply Z.mul_pos_pos; [done|]. apply Z.pow_pos_nonneg; lia.
Qed.
(** Only the quotient matters. *)
Lemma scale_bounds (x y u v k : Z) :
  0 < x → 0 < y → u * y = v * x →
  (∀ m, 2 * Z.abs (m * x - u) ≤ x → 2 * Z.abs (m * y - v) ≤ y) ∧
  (k * x ≤ u → k * y ≤ v) ∧ (u < k * x → v < k * y).
Proof.
  intros Hx Hy Heq. split; [|split].
  - intros m Hm. apply (Z.mul_le_mono_pos_r _ _ x Hx).
    replace (2 * Z.abs (m * y - v) * x) with (2 * Z.abs (m * x - u) * y); [nia|].
    rewrite <- (Z.abs_eq y) at 1 by lia. rewrite <- (Z.abs_eq x) at 2 by lia.
    rewrite <- !Z.mul_assoc, <- !Z.abs_mul. do 2 f_equal. nia.
  - intros Hk. apply (Z.mul_le_mono_pos_r _ _ x Hx). nia.
  - intros Hk. apply (Z.mul_lt_mono_pos_r x _ _ Hx). nia.
Qed.

Lemma rounds_scale n d a b m e :
  0 < d → 0 < b → n * b = a * d → rounds n d m e → rounds a b m e.
Proof.
  unfold rounds. intros Hd Hb Heq. case_decide as He.
  - intros (Herr & Hlo & Hhi).
    assert (n * 2 ^ (- e) * b = a * 2 ^ (- e) * d) as Heq' by nia.
    destruct (scale_bounds d b _ _ (2 ^ 52) Hd Hb Heq') as (H1 & H2 & _).
    destruct (scale_bounds d b _ _ (2 ^ 53) Hd Hb Heq') as (_ & _ & H3). auto.
  - intros (Herr & Hlo & Hhi). assert (0 < 2 ^ e) by (apply Z.pow_pos_nonneg; lia).
    assert (n * (b * 2 ^ e) = a * (d * 2 ^ e)) as Heq' by nia.
    assert (0 < d * 2 ^ e) as Hd' by nia. assert (0 < b * 2 ^ e) as Hb' by nia.
    destruct (scale_bounds _ _ _ _ (2 ^ 52) Hd' Hb' Heq') as (H1 & H2 & _).
    destruct (scale_bounds _ _ _ _ (2 ^ 53) Hd' Hb' Heq') as (_ & _ & H3). auto.
Qed.

(** Integers below 2^53 are represented exactly. *)
Lemma of_u64_exact z : 0 < z < 2 ^ 53 → ∃ k, 0 ≤ k ∧ of_u64 z = Fin (z * 2 ^ k) (- k).
Proof.
  intros Hz. destruct (of_ratio_rounds z 1 ltac:(lia) ltac:(lia) ltac:(lia)) as (m & e & Hr & H1).
  unfold of_u64. rewrite Hr. unfold rounds in H1. case_decide as He.
  - exists (- e). split; [lia|]. f_equal; lia.
  - exfalso. destruct H1 as (_ & Hlo & _).
    assert (2 ^ 1 ≤ 2 ^ e) by (apply Z.pow_le_mono_r; lia). lia.
Qed.

(** The quotient of two such integers is the nearest value to the exact one. *)
Lemma div_exact_rounds a b k l :
  0 < a < 2 ^ 53 → 0 < b < 2 ^ 53 → 0 ≤ k → 0 ≤ l →
  ∃ m e, div (Fin (a * 2 ^ k) (- k)) (Fin (b * 2 ^ l) (- l)) = Fin m e ∧ rounds a b m e.
Proof.
  intros Ha Hb Hk Hl. unfold div.
  assert (0 < 2 ^ k) as Hpk by (by apply Z.pow_pos_nonneg).
  assert (0 < 2 ^ l) as Hpl by (by apply Z.pow_pos_nonneg).
  destruct (Z.eqb_spec (b * 2 ^ l) 0) as [Hz|_]; [nia|].
  set (n := a * 2 ^ k * 2 ^ (0 `max` (- k - - l))). set (d := b * 2 ^ l * 2 ^ (0 `max` (- l - - k))).
  assert (2 ^ k * 2 ^ (0 `max` (- k - - l)) = 2 ^ l * 2 ^ (0 `max` (- l - - k))) as Hp.
  { rewrite <- !Z.pow_add_r by lia. f_equal. lia. }
  assert (0 < 2 ^ l * 2 ^ (0 `max` (- l - - k))) as Hpos.
  { apply Z.mul_pos_pos; [done|]. apply Z.pow_pos_nonneg; lia. }
  assert (n * b = a * d) as Heq by (unfold n, d; nia).
  assert (0 < d) as Hd by (unfold d; nia).
  assert (0 < n) as Hn by (unfold n; nia).
  destruct (of_ratio_rounds n d Hn Hd ltac:(nia)) as (m & e & Hr & Hround).
  exists m, e. split; [done|]. apply (rounds_scale n d); (done || lia).
Qed.

Lemma div_rounds a b :
  0 < a < 2 ^ 53 → 0 < b < 2 ^ 53 →
  ∃ m e, div (of_u64 a) (of_u64 b) = Fin m e ∧ rounds a b m e.
Proof.
  intros Ha Hb. destruct (of_u64_exact a Ha) as (k & Hk & ->). destruct (of_u64_exact b Hb) as (l & Hl & ->).
  by apply div_exact_rounds.
Qed.

(** Rounding never crosses an integer downwards. *)
Lemma rounds_floor n d m e c :
  0 < d → 0 ≤ c ≤ 2 ^ 53 → c * d ≤ n → rounds n d m e →
  c ≤ if 0 <=? e then m * 2 ^ e else m / 2 ^ (- e).
Proof.
  intros Hd Hc Hn. unfold rounds. case_decide as He.
  - intros (Herr & _ & _). assert (0 < 2 ^ (- e)) as Hp by (apply Z.pow_pos_nonneg; lia).
    assert (c * 2 ^ (- e) ≤ m) as Hm by nia.
    destruct (Z.leb_spec 0 e) as [He'|].
    + assert (e = 0) as -> by lia. simpl in *. lia.
    + apply Z.div_le_lower_bound; lia.
  - intros (Herr & Hlo & _). assert (2 ^ 1 ≤ 2 ^ e) as Hp by (apply Z.pow_le_mono_r; lia).
    destruct (Z.leb_spec 0 e) as [He'|]; [|lia]. assert (2 ^ 52 ≤ m) by nia. nia.
Qed.

Lemma div_floor_lower a b c :
  0 < a < 2 ^ 53 → 0 < b < 2 ^ 53 → 0 ≤ c → c * b ≤ a →
  c ≤ as_uint 64 (div (of_u64 a) (of_u64 b)).
Proof.
  intros Ha Hb Hc Hcb. destruct (div_rounds a b Ha Hb) as (m & e & -> & Hr). unfold as_uint.
  assert (c ≤ 2 ^ 53) by nia.
  pose proof (rounds_floor a b m e c ltac:(lia) ltac:(lia) Hcb Hr). unfold u_max. lia.
Qed.

(** Rounding at most doubles. *)
Lemma rounds_upper n d m e c :
  0 < d → 0 ≤ c → n ≤ c * d → rounds n d m e →
  (if 0 <=? e then m * 2 ^ e else m / 2 ^ (- e)) ≤ 2 * c.
Proof.
  intros Hd Hc Hn. unfold rounds. case_decide as He.
  - intros (Herr & _ & _). assert (0 < 2 ^ (- e)) as Hp by (apply Z.pow_pos_nonneg; lia).
    assert (m ≤ c * 2 ^ (- e)) as Hm by nia.
    destruct (Z.leb_spec 0 e) as [He'|].
    + assert (e = 0) as -> by lia. simpl in *. lia.
    + apply Z.div_le_upper_bound; nia.
  - intros (Herr & Hlo & _). assert (0 < 2 ^ e) by (apply Z.pow_pos_nonneg; lia).
    destruct (Z.leb_spec 0 e) as [He'|]; [|lia]. nia.
Qed.

(** The quotient of a large integer by a small one. *)
Lemma div_large_rounds a b :
  2 ^ 53 ≤ a → 0 < b < 2 ^ 10 → ∃ n d m e,
  div (of_u64 a) (of_u64 b) = Fin m e ∧ rounds n d m e ∧ 0 < d ∧
  2 ^ 43 * d ≤ n ∧ n * b ≤ 2 * a * d.
Proof.
  intros Ha Hb. destruct (of_u64_exact b ltac:(lia)) as (k & Hk & ->).
  destruct (of_ratio_rounds a 1 ltac:(lia) ltac:(lia) ltac:(lia)) as (m & e & Hr & H1).
  unfold of_u64. rewrite Hr. unfold rounds in H1. case_decide as He.
  { destruct H1 as (_ & _ & Hhi). assert (2 ^ 0 ≤ 2 ^ (- e)) by (apply Z.pow_le_mono_r; lia). nia. }
  destruct H1 as (Herr & Hlo & _). assert (2 ^ 1 ≤ 2 ^ e) as Hpe by (apply Z.pow_le_mono_r; lia).
  assert (2 ^ 52 ≤ m) as Hm by nia. assert (m * 2 ^ e ≤ 2 * a) as Hm2 by nia.
  assert (0 < 2 ^ k) as Hpk by (by apply Z.pow_pos_nonneg). unfold div.
  destruct (Z.eqb_spec (b * 2 ^ k) 0) as [|_]; [nia|].
  rewrite (Z.max_r 0 (e - - k)), (Z.max_l 0 (- k - e)) by lia.
  replace (e - - k) with (e + k) by lia. rewrite Z.pow_add_r, Z.pow_0_r, Z.mul_1_r by lia.
  destruct (of_ratio_rounds (m * (2 ^ e * 2 ^ k)) (b * 2 ^ k)) as (m' & e' & -> & Hr');
    [nia | nia | nia |].
  do 4 eexists. split; [done|]. split; [exact Hr'|]. split; [nia|]. split; nia.
Qed.

Lemma div_large a b :
  2 ^ 53 ≤ a → 0 < b < 2 ^ 10 → 2 ^ 43 ≤ as_uint 64 (div (of_u64 a) (of_u64 b)).
Proof.
  intros Ha Hb. destruct (div_large_rounds a b Ha Hb) as (n & d & m & e & -> & Hr & Hd & Hn & _).
  pose proof (rounds_floor n d m e (2 ^ 43) Hd ltac:(lia) Hn Hr). unfold as_uint, u_max. lia.
Qed.

Lemma div_upper a b :
  0 < a < 2 ^ 64 → 2 ^ 8 ≤ b < 2 ^ 10 → as_uint 64 (div (of_u64 a) (of_u64 b)) ≤ 2 ^ 58.
Proof.
  intros Ha Hb. destruct (decide (a < 2 ^ 53)) as [Hlt|Hge].
  - destruct (div_rounds a b ltac:(lia) ltac:(lia)) as (m & e & -> & Hr).
    pose proof (rounds_upper a b m e (2 ^ 57) ltac:(lia) ltac:(lia) ltac:(lia) Hr).
    unfold as_uint. lia.
  - destruct (div_large_rounds a b ltac:(lia) ltac:(lia))
      as (n & d & m & e & -> & Hr & Hd & _ & Hn).
    pose proof (rounds_upper n d m e (2 ^ 57) Hd ltac:(lia) ltac:(nia) Hr). unfold as_uint. lia.
Qed.

(** [ceil] of a quotient below 2^53 is exact. *)
Lemma div_ceil_exact w a b :
  0 ≤ a < 2 ^ 53 → 0 < b < 2 ^ 53 →
  as_uint w (ceil (div (of_u64 a) (of_u64 b))) = u_max w `min` ((a + b - 1) / b).
Proof.
  intros Ha Hb. destruct (decide (a = 0)) as [->|Hne].
  { destruct (of_u64_exact b Hb) as (k & Hk & ->). rewrite Z.div_small by lia.
    assert (0 < 2 ^ k) as Hpk by (by apply Z.pow_pos_nonneg). unfold div, of_u64, of_ratio. simpl.
    destruct (Z.eqb_spec (b * 2 ^ k) 0) as [|_]; [nia|]. simpl. done. }
  destruct (div_rounds a b ltac:(lia) Hb) as (m & e & -> & Hr). unfold rounds in Hr.
  case_decide as He.
  2:{ exfalso. destruct Hr as (_ & Hlo & _).
      assert (2 ^ 1 ≤ 2 ^ e) by (apply Z.pow_le_mono_r; lia). nia. }
  destruct Hr as (Herr & Hlo & Hhi). set (c := (a + b - 1) / b).
  assert ((c - 1) * b < a ≤ c * b) as Hc.
  { unfold c. pose proof (Z.div_mod (a + b - 1) b ltac:(lia)).
    pose proof (Z.mod_pos_bound (a + b - 1) b ltac:(lia)). nia. }
  assert (0 < 2 ^ (- e)) as Hp by (apply Z.pow_pos_nonneg; lia).
  assert (m ≤ c * 2 ^ (- e)) as Hm1 by nia.
  assert ((c - 1) * 2 ^ (- e) < m) as Hm2.
  { apply (Z.mul_lt_mono_pos_r b); [lia|].
    assert (b < 2 * (a - (c - 1) * b) * 2 ^ (- e)) by nia. nia. }
  unfold ceil. destruct (Z.leb_spec 0 e) as [He'|He'].
  - assert (e = 0) as -> by lia. simpl in *. f_equal. lia.
  - unfold as_uint. simpl. rewrite Z.mul_1_r. f_equal. symmetry.
    apply (Z.div_unique_pos _ _ _ (m - 1 - (c - 1) * 2 ^ (- e))); lia.
Qed.

(** A product of two integers that is below 2^53 is exact. *)
Lemma mul_exact a b k l :
  0 < a → 0 < b → a * b < 2 ^ 53 → 0 ≤ k → 0 ≤ l →
  ∃ j, 0 ≤ j ∧ mul (Fin (a * 2 ^ k) (- k)) (Fin (b * 2 ^ l) (- l)) = Fin (a * b * 2 ^ j) (- j).
Proof.
  intros Ha Hb Hab Hk Hl. unfold mul.
  assert (0 < 2 ^ k) by (by apply Z.pow_pos_nonneg). assert (0 < 2 ^ l) by (by apply Z.pow_pos_nonneg).
  rewrite Z.max_l, Z.max_r by lia. rewrite Z.pow_0_r, Z.mul_1_r.
  assert (2 ^ (- (- k + - l)) = 2 ^ k * 2 ^ l) as -> by (rewrite <- Z.pow_add_r by lia; f_equal; lia).
  destruct (of_ratio_rounds (a * 2 ^ k * (b * 2 ^ l)) (2 ^ k * 2 ^ l)) as (m & e & -> & Hr); [nia|nia|nia|].
  apply (rounds_scale _ _ (a * b) 1) in Hr; [|nia|lia|ring]. unfold rounds in Hr. case_decide as He.
  - exists (- e). split; [lia|]. f_equal; lia.
  - exfalso. destruct Hr as (_ & Hlo & _). assert (2 ^ 1 ≤ 2 ^ e) by (apply Z.pow_le_mono_r; lia). nia.
Qed.

(** [round] of a quotient below 2^52 is exact. *)
Lemma rounds_round w n d m e :
  0 < n < 2 ^ 52 → 0 < d → rounds n d m e →
  as_uint w (round (Fin m e)) = u_max w `min` ((2 * n + d) / (2 * d)).
Proof.
  intros Hn Hd Hr. unfold rounds in Hr. case_decide as He.
  2:{ exfalso. destruct Hr as (_ & Hlo & _). assert (2 ^ 1 ≤ 2 ^ e) by (apply Z.pow_le_mono_r; lia). nia. }
  destruct Hr as (Herr & Hlo & _). set (c := (2 * n + d) / (2 * d)).
  assert ((2 * c - 1) * d ≤ 2 * n ≤ (2 * c + 1) * d - 1) as Hc.
  { unfold c. pose proof (Z.div_mod (2 * n + d) (2 * d) ltac:(lia)).
    pose proof (Z.mod_pos_bound (2 * n + d) (2 * d) ltac:(lia)). nia. }
  assert (d < 2 ^ (- e)) as Hp by nia. destruct (decide (e = 0)) as [->|Hne]; [simpl in Hp; lia|].
  assert (2 ^ (- e) = 2 * 2 ^ (- e - 1)) as He2 by (rewrite <- Z.pow_succ_r by lia; f_equal; lia).
  unfold round. destruct (Z.leb_spec 0 e); [lia|]. unfold as_uint. simpl. rewrite Z.mul_1_r. f_equal.
  set (P := 2 ^ (- e)) in *.
  assert ((2 * c - 1) * P ≤ 2 * m + 1) as H1.
  { apply (Z.mul_le_mono_pos_r _ _ d Hd). nia. }
  assert (2 * m < (2 * c + 1) * P) as H2.
  { apply (Z.mul_lt_mono_pos_r d); [done|]. nia. }
  symmetry. apply (Z.div_unique_pos _ _ _ (2 * m + P - 2 * P * c)); [|lia].
  assert ((2 * c - 1) * P ≤ 2 * m) by lia. lia.
Qed.
End F64.
