(* ===== verification/PieceCalc.v ===== *)
(** * Splitting a task into pieces

    Models the pure part of the piece manager,
    [src/dragonfly-client/src/resource/piece.rs]: [calculate_interested],
    [remove_finished_from_interested], [merge_finished_pieces],
    [calculate_piece_length] and [calculate_piece_count].  The two loops of
    [calculate_interested] are not structural; they run on fuel, [None] when
    it runs out, and the theorems give the fuel that is enough. *)

From S2P Require Import Prelude Errors MetadataTypes Float64.
From Stdlib Require Import ZArith Lia String.
From stdpp Require Import base tactics numbers list gmap strings.
Local Open Scope Z_scope.

Module PieceCalc.

(** ** Interested pieces *)

Section interested.
(** [Utc::now().naive_utc()]: the [n]-th reading of the clock. *)
Context (clock : nat → NaiveDateTime).

(** The record pushed by both loops. *)
Definition interested_piece (number offset piece_length : Z) (ticks : nat) : Piece :=
  Piece.mkPiece (u_wrap 32 number) offset piece_length "" None 0 0
    (clock ticks) (clock (S ticks)) None.

(** The end of both loops: [pieces.pop()], the shortened length, [pieces.push(piece)].
    The last element of the vector is the head of [rev_pieces]. *)
Definition shorten_last (piece_length content_length offset : Z) (rev_pieces : list Piece)
    : Result (list Piece) :=
  match rev_pieces with
  | [] => Err InvalidParameter
  | piece :: rest =>
      Ok (reverse (Piece.set_length
            (u64_sub (u64_add piece_length content_length) offset) piece :: rest))
  end.

(** The loop with a range. *)
Fixpoint range_loop (fuel : nat) (piece_length content_length : Z) (range : Range)
    (number offset : Z) (rev_pieces : list Piece) (ticks : nat) : option (Result (list Piece)) :=
  match fuel with
  | O => None
  | S fuel =>
      if content_length <=? offset then
        Some (shorten_last piece_length content_length offset rev_pieces)
      else if u64_add (r_start range) (r_length range) <=? offset then
        Some (Ok (reverse rev_pieces))
      else
        let '(rev_pieces, ticks) :=
          if r_start range <? u64_add offset piece_length then
            (interested_piece number offset piece_length ticks :: rev_pieces, S (S ticks))
          else (rev_pieces, ticks) in
        range_loop fuel piece_length content_length range (u64_add number 1)
          (u64_mul (u64_add number 1) piece_length) rev_pieces ticks
  end.

(** The loop without a range. *)
Fixpoint full_loop (fuel : nat) (piece_length content_length : Z)
    (number offset : Z) (rev_pieces : list Piece) (ticks : nat) : option (Result (list Piece)) :=
  match fuel with
  | O => None
  | S fuel =>
      if content_length <=? offset then
        Some (shorten_last piece_length content_length offset rev_pieces)
      else
        full_loop fuel piece_length content_length (u64_add number 1)
          (u64_mul (u64_add number 1) piece_length)
          (interested_piece number offset piece_length ticks :: rev_pieces) (S (S ticks))
  end.

(** [Piece::calculate_interested]. *)
Definition calculate_interested (fuel : nat) (piece_length content_length : Z)
    (range : option Range) : option (Result (list Piece)) :=
  if content_length =? 0 then Some (Ok [])
  else match range with
       | Some range =>
           if r_length range =? 0 then Some (Err InvalidParameter)
           else range_loop fuel piece_length content_length range 0 0 [] 0
       | None => full_loop fuel piece_length content_length 0 0 [] 0
       end.

(** ** Specification *)

(** The number of pieces of a content. *)
Definition count (piece_length content_length : Z) : Z :=
  (content_length + piece_length - 1) / piece_length.

(** The [i]-th piece, the [j]-th of the result. *)
Definition spec_piece (piece_length content_length : Z) (j : nat) (i : Z) : Piece :=
  interested_piece i (i * piece_length)
    (piece_length `min` (content_length - i * piece_length)) (2 * j).

(** The pieces that meet [start, stop), among the first [n]. *)
Definition selected (piece_length start stop n : Z) : list Z :=
  filter (λ i, i * piece_length < stop ∧ start < i * piece_length + piece_length) (seqZ 0 n).

Section loop.
Context (pl cl : Z) (Hpl : 0 < pl) (Hcl : 0 < cl) (Hfit : cl + pl ≤ 2 ^ 64).

Lemma count_spec : 0 < count pl cl ∧ (count pl cl - 1) * pl < cl ≤ count pl cl * pl.
Proof.
  unfold count. pose proof (Z.div_mod (cl + pl - 1) pl ltac:(lia)).
  pose proof (Z.mod_pos_bound (cl + pl - 1) pl Hpl). nia.
Qed.

Lemma selected_succ start stop n :
  0 ≤ n → selected pl start stop (n + 1) = selected pl start stop n ++
    (if decide (n * pl < stop ∧ start < n * pl + pl) then [n] else []).
Proof.
  intros Hn. unfold selected.
  replace (seqZ 0 (n + 1)) with (seqZ 0 n ++ [n]).
  - by rewrite filter_app.
  - by rewrite seqZ_app by lia.
Qed.

(** Beyond the end of the range nothing is selected. *)
Lemma selected_stable start stop n m :
  0 ≤ n ≤ m → stop ≤ n * pl → selected pl start stop m = selected pl start stop n.
Proof.
  intros [Hn Hm]. revert m Hm. refine (Zlt_lower_bound_ind _ n _). intros m IH Hm Hstop.
  destruct (decide (m = n)) as [->|]; [done|].
  replace m with (m - 1 + 1) by lia. rewrite selected_succ by lia.
  rewrite decide_False by nia. rewrite app_nil_r. apply IH; lia.
Qed.

(** The vector before the last piece is shortened. *)
Definition full_piece (j : nat) (i : Z) : Piece := interested_piece i (i * pl) pl (2 * j).

Lemma imap_full_spec l : Forall (λ i, i < count pl cl - 1) l → imap full_piece l = imap (spec_piece pl cl) l.
Proof.
  intros Hl. pose proof count_spec. apply imap_ext. intros j i Hi.
  assert (i < count pl cl - 1) by (eapply Forall_lookup_1 in Hl; eauto; done).
  unfold full_piece, spec_piece. f_equal. nia.
Qed.

Lemma selected_lt start stop n : Forall (λ i, i < n) (selected pl start stop n).
Proof. apply Forall_forall. intros i [_ Hi%elem_of_seqZ]%list_elem_of_filter. lia. Qed.

Lemma selected_mid start stop n :
  0 ≤ start → start < stop → stop ≤ n * pl → start / pl ∈ selected pl start stop n.
Proof.
  intros Hs Hlt Hn. pose proof (Z.div_mod start pl ltac:(lia)).
  pose proof (Z.mod_pos_bound start pl Hpl). pose proof (Z.div_pos start pl Hs Hpl).
  apply list_elem_of_filter. split; [nia|]. apply elem_of_seqZ. nia.
Qed.

Lemma selected_none start stop n :
  n * pl ≤ start → selected pl start stop n = [].
Proof.
  intros Hs. destruct (selected pl start stop n) as [|i l] eqn:Hsel; [done|].
  assert (i ∈ selected pl start stop n) as [[_ Hi] Hn%elem_of_seqZ]%list_elem_of_filter
    by (rewrite Hsel; left). nia.
Qed.

(** The result the loop is to compute. *)
Definition spec_result (start stop : Z) : Result (list Piece) :=
  match selected pl start stop (count pl cl) with
  | [] => Err InvalidParameter
  | l => Ok (imap (spec_piece pl cl) l)
  end.

Lemma spec_result_Ok start stop l :
  selected pl start stop (count pl cl) = l → l ≠ [] →
  spec_result start stop = Ok (imap (spec_piece pl cl) l).
Proof. unfold spec_result. intros ->. by destruct l. Qed.

(** Leaving the loop because the content ends. *)
Lemma shorten_last_spec start stop :
  let n := count pl cl in
  (n - 1) * pl < stop →
  shorten_last pl cl (n * pl) (reverse (imap full_piece (selected pl start stop n)))
    = spec_result start stop.
Proof.
  intros n Hstop. pose proof count_spec as (Hn & Hlo & Hhi). fold n in Hn, Hlo, Hhi.
  destruct (decide (start < n * pl)) as [Hs|Hs].
  - assert (selected pl start stop n = selected pl start stop (n - 1) ++ [n - 1]) as Hsel.
    { replace n with (n - 1 + 1) at 1 by lia. rewrite selected_succ by lia.
      by rewrite decide_True by lia. }
    rewrite (spec_result_Ok start stop _ Hsel) by (by intros [_ ?]%app_eq_nil).
    rewrite Hsel, !imap_app, reverse_app. simpl. unfold shorten_last.
    rewrite reverse_cons, reverse_involutive. f_equal. f_equal.
    + apply imap_full_spec, selected_lt.
    + unfold full_piece, spec_piece, interested_piece, Piece.set_length. simpl.
      do 2 f_equal. unfold u64_sub, u64_add, u_wrap. rewrite Zminus_mod_idemp_l.
      rewrite Z.mod_small by nia. nia.
  - unfold spec_result. fold n. rewrite selected_none by lia. done.
Qed.

Lemma range_loop_spec (range : Range) (fuel : nat) (m : Z) :
  let start := r_start range in
  let stop := r_start range + r_length range in
  0 ≤ start → 0 < r_length range → stop < 2 ^ 64 →
  0 ≤ m ≤ count pl cl → count pl cl < Z.of_nat fuel + m → (m - 1) * pl < stop →
  range_loop fuel pl cl range m (m * pl)
    (reverse (imap full_piece (selected pl start stop m)))
    (2 * List.length (selected pl start stop m))
  = Some (spec_result start stop).
Proof.
  intros start stop Hs Hl Hstop. pose proof count_spec as (Hn & Hlo & Hhi).
  revert m. induction fuel as [|fuel IH]; intros m Hm Hfuel Hprev; [lia|]. cbn [range_loop].
  fold start. rewrite (u64_add_id start) by (unfold u_in; lia).
  change (start + r_length range) with stop.
  destruct (Z.leb_spec cl (m * pl)) as [Hend|Hin].
  { assert (m = count pl cl) as -> by nia. f_equal. apply shorten_last_spec. lia. }
  assert (m < count pl cl) as Hlt by nia.
  destruct (Z.leb_spec stop (m * pl)) as [Hbreak|Hgo].
  { assert (selected pl start stop (count pl cl) = selected pl start stop m) as Hsel
      by (apply selected_stable; lia).
    rewrite (spec_result_Ok start stop _ Hsel).
    - rewrite reverse_involutive, imap_full_spec; [done|].
      eapply Forall_impl; [apply selected_lt|]. simpl. lia.
    - intros Hnil. pose proof (selected_mid start stop m Hs ltac:(lia) Hbreak) as Hin'.
      rewrite Hnil in Hin'. by apply elem_of_nil in Hin'. }
  rewrite (u64_add_id (m * pl)) by solve_range. rewrite (u64_add_id m) by solve_range.
  rewrite u64_mul_id by (unfold u_in; nia).
  specialize (IH (m + 1) ltac:(lia) ltac:(lia) ltac:(nia)).
  rewrite selected_succ in IH by lia.
  destruct (Z.ltb_spec start (m * pl + pl)) as [Hpush|Hskip].
  - rewrite decide_True in IH by lia.
    rewrite imap_app, reverse_app, length_app in IH. simpl in IH.
    unfold full_piece at 1 in IH. rewrite Nat.add_0_r in IH. etransitivity; [|exact IH]. f_equal. lia.
  - rewrite decide_False in IH by lia. by rewrite app_nil_r in IH.
Qed.

(** Without a range the loop behaves as with a range that never ends it. *)
Lemma full_loop_range_loop (fuel : nat) (m : Z) rev_pieces ticks :
  0 ≤ m ≤ count pl cl →
  full_loop fuel pl cl m (m * pl) rev_pieces ticks =
  range_loop fuel pl cl (mkRange 0 cl) m (m * pl) rev_pieces ticks.
Proof.
  pose proof count_spec as (Hn & Hlo & Hhi).
  revert m rev_pieces ticks. induction fuel as [|fuel IH]; intros m ps ticks Hm; [done|].
  cbn [full_loop range_loop r_start r_length].
  destruct (Z.leb_spec cl (m * pl)) as [|Hin]; [done|].
  rewrite (u64_add_id 0) by solve_range. destruct (Z.leb_spec (0 + cl) (m * pl)); [lia|].
  rewrite (u64_add_id (m * pl)) by solve_range. destruct (Z.ltb_spec 0 (m * pl + pl)); [|lia].
  assert (m < count pl cl) by nia.
  rewrite (u64_add_id m) by solve_range. rewrite u64_mul_id by (unfold u_in; nia).
  apply IH. lia.
Qed.

Lemma selected_all : selected pl 0 cl (count pl cl) = seqZ 0 (count pl cl).
Proof.
  pose proof count_spec as (Hn & Hlo & Hhi). unfold selected. apply filter_all.
  intros i Hi%elem_of_seqZ. nia.
Qed.

Lemma range_result (fuel : nat) (range : Range) :
  0 ≤ r_start range → 0 < r_length range → r_start range + r_length range < 2 ^ 64 →
  count pl cl < Z.of_nat fuel →
  range_loop fuel pl cl range 0 0 [] 0
    = Some (spec_result (r_start range) (r_start range + r_length range)).
Proof.
  intros. pose proof count_spec as (Hn & _ & _).
  pose proof (range_loop_spec range fuel 0) as Hloop. simpl in Hloop. apply Hloop; lia.
Qed.

Lemma full_result (fuel : nat) :
  count pl cl < Z.of_nat fuel →
  full_loop fuel pl cl 0 0 [] 0 = Some (Ok (imap (spec_piece pl cl) (seqZ 0 (count pl cl)))).
Proof.
  intros Hf. pose proof count_spec as (Hn & _ & _).
  pose proof (full_loop_range_loop fuel 0 [] 0 ltac:(lia)) as Heq. rewrite Z.mul_0_l in Heq.
  rewrite Heq.
  rewrite range_result by (simpl; lia). cbn [r_start r_length]. rewrite Z.add_0_l.
  f_equal. apply spec_result_Ok; [apply selected_all|].
  intros Hnil%(f_equal List.length). rewrite length_seqZ in Hnil. simpl in Hnil. lia.
Qed.

End loop.

(** C21: without a range, and with fuel above the number of pieces, the loop
    stops and the pieces partition the content: there are
    ceil(content_length / piece_length) of them, the [j]-th has number [j] (as
    [u32]) and offset [j * piece_length], and a byte lies in the [j]-th piece
    exactly when it is a byte of the content and [j] is its index divided by
    the piece length. *)
Theorem calculate_interested_partition (pl cl : Z) (fuel : nat) :
  0 < pl → 0 ≤ cl → cl + pl ≤ 2 ^ 64 → count pl cl < Z.of_nat fuel →
  ∃ ps, calculate_interested fuel pl cl None = Some (Ok ps) ∧
    Z.of_nat (List.length ps) = count pl cl ∧
    ∀ j p, ps !! j = Some p →
      Piece.number p = u_wrap 32 (Z.of_nat j) ∧ Piece.offset p = Z.of_nat j * pl ∧
      Piece.is_finished p = false ∧
      ∀ x, Piece.offset p ≤ x < Piece.offset p + Piece.length p ↔
           0 ≤ x < cl ∧ x / pl = Z.of_nat j.
Proof.
  intros Hpl Hcl Hfit Hfuel. unfold calculate_interested.
  destruct (Z.eqb_spec cl 0) as [->|Hne].
  { exists []. unfold count. rewrite (Z.div_small (0 + pl - 1)) by lia. done. }
  pose proof (count_spec pl cl Hpl ltac:(lia) Hfit) as (Hn & Hlo & Hhi).
  rewrite full_result by lia. eexists. split; [done|].
  rewrite length_imap, length_seqZ. split; [lia|]. intros j p Hp.
  rewrite list_lookup_imap in Hp. apply fmap_Some in Hp as (i & (-> & Hi)%lookup_seqZ & ->).
  unfold spec_piece, interested_piece; simpl. repeat (split; [done|]). intros x.
  pose proof (Z.div_mod x pl ltac:(lia)) as Hdm. pose proof (Z.mod_pos_bound x pl Hpl) as Hmod.
  split.
  - intros [Hx1 Hx2]. split; [nia|]. symmetry. apply (Z.div_unique_pos _ _ _ (x - Z.of_nat j * pl)); nia.
  - intros [Hx <-]. nia.
Qed.

(** with a range, and with fuel above the number of pieces, the loop
    stops.  If the range starts inside the last piece or before, the result
    is the pieces that overlap the range, in order, each with its true length,
    and every byte of the range inside the content is in one of them; if it
    starts beyond the last piece, the result is [InvalidParameter]. *)
Theorem calculate_interested_range (pl cl : Z) (range : Range) (fuel : nat) :
  let start := r_start range in
  let stop := r_start range + r_length range in
  0 < pl → 0 < cl → cl + pl ≤ 2 ^ 64 → 0 ≤ start → 0 < r_length range → stop < 2 ^ 64 →
  count pl cl < Z.of_nat fuel →
  if decide (start < count pl cl * pl) then
    let ps := imap (spec_piece pl cl) (selected pl start stop (count pl cl)) in
    calculate_interested fuel pl cl (Some range) = Some (Ok ps) ∧
    (∀ p, p ∈ ps → Piece.offset p < stop ∧ start < Piece.offset p + pl) ∧
    (∀ x, start ≤ x < stop → x < cl →
       ∃ p, p ∈ ps ∧ Piece.offset p ≤ x < Piece.offset p + Piece.length p)
  else calculate_interested fuel pl cl (Some range) = Some (Err InvalidParameter).
Proof.
  intros start stop Hpl Hcl Hfit Hs Hl Hstop Hfuel. unfold calculate_interested.
  destruct (Z.eqb_spec cl 0); [lia|]. destruct (Z.eqb_spec (r_length range) 0); [lia|].
  rewrite range_result by done. fold start stop.
  pose proof (count_spec pl cl Hpl ltac:(lia) Hfit) as (Hn & Hlo & Hhi).
  destruct (decide (start < count pl cl * pl)) as [Hin|Hout].
  2:{ unfold spec_result. rewrite selected_none by lia. done. }
  assert (∀ x, start ≤ x < stop → x < count pl cl * pl →
    x / pl ∈ selected pl start stop (count pl cl)) as Hsel.
  { intros x Hx Hxn. pose proof (Z.div_mod x pl ltac:(lia)). pose proof (Z.mod_pos_bound x pl Hpl).
    pose proof (Z.div_pos x pl ltac:(lia) Hpl).
    apply list_elem_of_filter. split; [nia|]. apply elem_of_seqZ. nia. }
  split; [|split].
  - f_equal. apply spec_result_Ok; [done|]. intros Hnil.
    specialize (Hsel start ltac:(lia) Hin). rewrite Hnil in Hsel. by apply elem_of_nil in Hsel.
  - intros p (j & i & -> & Hi)%elem_of_lookup_imap. simpl.
    apply list_elem_of_lookup_2, list_elem_of_filter in Hi. tauto.
  - intros x Hx Hxc. specialize (Hsel x Hx ltac:(lia)).
    apply list_elem_of_lookup in Hsel as (j & Hj). exists (spec_piece pl cl j (x / pl)). split.
    + apply elem_of_lookup_imap. by exists j, (x / pl).
    + simpl. pose proof (Z.div_mod x pl ltac:(lia)). pose proof (Z.mod_pos_bound x pl Hpl). nia.
Qed.

(** a piece length of zero makes the loops run for ever on a non-empty
    content: no fuel is enough, with or without a range. *)
Theorem calculate_interested_zero_length (cl : Z) (range : option Range) (fuel : nat) :
  0 < cl →
  (∀ r, range = Some r → 0 ≤ r_start r ∧ 0 < r_length r ∧ r_start r + r_length r < 2 ^ 64) →
  calculate_interested fuel 0 cl range = None.
Proof.
  intros Hcl Hr. unfold calculate_interested. destruct (Z.eqb_spec cl 0); [lia|].
  destruct range as [r|].
  - destruct (Hr r eq_refl) as (Hs & Hl & Hstop). destruct (Z.eqb_spec (r_length r) 0); [lia|].
    generalize 0 at 2. generalize (@nil Piece). generalize 0%nat.
    induction fuel as [|fuel IH]; intros ticks ps m; [done|]. cbn [range_loop].
    destruct (Z.leb_spec cl 0); [lia|]. rewrite (u64_add_id (r_start r)) by solve_range.
    destruct (Z.leb_spec (r_start r + r_length r) 0); [lia|].
    rewrite (u64_add_id 0 0) by solve_range. destruct (Z.ltb_spec (r_start r) (0 + 0)); [lia|].
    unfold u64_mul. rewrite Z.mul_0_r. apply IH.
  - generalize 0 at 2. generalize (@nil Piece). generalize 0%nat.
    induction fuel as [|fuel IH]; intros ticks ps m; [done|]. cbn [full_loop].
    destruct (Z.leb_spec cl 0); [lia|]. unfold u64_mul. rewrite Z.mul_0_r. apply IH.
Qed.
End interested.

(** ** Resuming a download *)

(** [Piece::remove_finished_from_interested]. *)
Definition remove_finished_from_interested (finished_pieces interested_pieces : list Piece)
    : list Piece :=
  filter (λ piece, ¬ Exists (λ finished_piece, Piece.number finished_piece = Piece.number piece)
                     finished_pieces) interested_pieces.

(** The map of [Piece::merge_finished_pieces] before [into_values]. *)
Definition merge_map (finished_pieces old_finished_pieces : list Piece) : gmap Z Piece :=
  let pieces := foldl (λ pieces p, <[Piece.number p := p]> pieces) ∅ finished_pieces in
  foldl (λ pieces p,
           match pieces !! Piece.number p with
           | Some _ => pieces
           | None => <[Piece.number p := p]> pieces
           end) pieces old_finished_pieces.

(** [Piece::merge_finished_pieces]; a [HashMap] iterates in no particular order. *)
Definition merge_finished_pieces (finished_pieces old_finished_pieces : list Piece) : list Piece :=
  (map_to_list (merge_map finished_pieces old_finished_pieces)).*2.

(** The last piece with a number, and the first one. *)
Definition last_with (n : Z) (l : list Piece) : option Piece :=
  last (filter (λ p, Piece.number p = n) l).
Definition first_with (n : Z) (l : list Piece) : option Piece :=
  head (filter (λ p, Piece.number p = n) l).

Lemma insert_all_lookup n l : 
  foldl (λ pieces p, <[Piece.number p := p]> pieces) (∅ : gmap Z Piece) l !! n = last_with n l.
Proof.
  unfold last_with. induction l as [|p l IH] using rev_ind; [done|].
  rewrite foldl_app, filter_app. cbn [foldl]. rewrite lookup_insert.
  destruct (decide (Piece.number p = n)) as [Hp|Hp].
  - by rewrite filter_cons_True, filter_nil, last_snoc.
  - by rewrite filter_cons_False, filter_nil, app_nil_r.
Qed.

Lemma merge_map_lookup n l old :
  merge_map l old !! n =
    match last_with n l with Some p => Some p | None => first_with n old end.
Proof.
  unfold merge_map. rewrite <- insert_all_lookup.
  set (m := foldl _ _ l). clearbody m. clear l. unfold first_with.
  induction old as [|p old IH] in m |- *; cbn [foldl]; [by case_match|]. rewrite IH.
  destruct (m !! Piece.number p) as [q|] eqn:Hm.
  - destruct (m !! n) eqn:Hn; [done|]. by rewrite filter_cons_False by congruence.
  - rewrite lookup_insert. destruct (decide (Piece.number p = n)) as [Hp|Hp].
    + rewrite <- Hp, Hm. by rewrite filter_cons_True.
    + by rewrite filter_cons_False.
Qed.

Lemma last_with_number n l p : last_with n l = Some p → Piece.number p = n ∧ p ∈ l.
Proof. intros Hp%last_Some_elem_of. by apply list_elem_of_filter in Hp. Qed.

Lemma first_with_number n l p : first_with n l = Some p → Piece.number p = n ∧ p ∈ l.
Proof. intros Hp%head_Some_elem_of. by apply list_elem_of_filter in Hp. Qed.

Lemma merge_map_number l old n p : merge_map l old !! n = Some p → Piece.number p = n.
Proof.
  rewrite merge_map_lookup. destruct (last_with n l) eqn:Hl.
  - intros [= <-]. by apply last_with_number in Hl as [].
  - by intros []%first_with_number.
Qed.

(** merging the pieces finished now with the ones finished before keeps
    one piece per number: the latest of the new ones, and the first of the old
    ones only where there is no new one. *)
Theorem merge_finished_pieces_spec (l old : list Piece) (p : Piece) :
  NoDup (Piece.number <$> merge_finished_pieces l old) ∧
  (p ∈ merge_finished_pieces l old ↔
     last_with (Piece.number p) l = Some p ∨
     last_with (Piece.number p) l = None ∧ first_with (Piece.number p) old = Some p).
Proof.
  unfold merge_finished_pieces. split.
  - replace (Piece.number <$> _) with (map_to_list (merge_map l old)).*1;
      [apply NoDup_fst_map_to_list|].
    rewrite <- list_fmap_compose. apply list_fmap_ext. intros i [n q] Hi.
    apply list_elem_of_lookup_2, elem_of_map_to_list, merge_map_number in Hi. done.
  - rewrite list_elem_of_fmap. split.
    + intros ([n q] & -> & Hq%elem_of_map_to_list). simpl.
      rewrite (merge_map_number _ _ _ _ Hq). rewrite merge_map_lookup in Hq.
      destruct (last_with n l); naive_solver.
    + intros Hp. exists (Piece.number p, p). split; [done|]. apply elem_of_map_to_list.
      rewrite merge_map_lookup. destruct Hp as [->|[-> ->]]; done.
Qed.

(** the pieces still to download and the finished ones together are the
    interested ones: no finished number is left, every interested piece that
    is not finished is kept, in order, and merging the pieces then downloaded
    with the finished ones gives every interested number, and no number that is
    neither interested nor finished. *)
Theorem remove_then_merge (finished interested : list Piece) :
  let rest := remove_finished_from_interested finished interested in
  rest `sublist_of` interested ∧
  (∀ p, p ∈ rest → Piece.number p ∉ Piece.number <$> finished) ∧
  (∀ n, n ∈ Piece.number <$> interested →
     n ∈ Piece.number <$> merge_finished_pieces rest finished) ∧
  (∀ n, n ∈ Piece.number <$> merge_finished_pieces rest finished →
     n ∈ Piece.number <$> interested ∨ n ∈ Piece.number <$> finished).
Proof.
  intros rest.
  assert (∀ n, n ∈ Piece.number <$> merge_finished_pieces rest finished ↔
    is_Some (merge_map rest finished !! n)) as Hm.
  { intros n. unfold merge_finished_pieces. rewrite list_elem_of_fmap. split.
    - intros (p & -> & ([n' q] & -> & Hq%elem_of_map_to_list)%list_elem_of_fmap). simpl.
      rewrite (merge_map_number _ _ _ _ Hq). by eexists.
    - intros [p Hp]. exists p. split; [by apply merge_map_number in Hp|].
      apply list_elem_of_fmap. exists (n, p). split; [done|]. by apply elem_of_map_to_list. }
  split; [apply sublist_filter|]. split; [|split].
  - intros p [Hn _]%list_elem_of_filter (q & Hq & Hin)%list_elem_of_fmap. apply Hn.
    apply Exists_exists. by exists q.
  - intros n (p & -> & Hp)%list_elem_of_fmap. apply Hm. rewrite merge_map_lookup.
    destruct (last_with (Piece.number p) rest) eqn:Hl; [by eexists|].
    unfold last_with in Hl. apply last_None in Hl.
    unfold first_with. destruct (filter _ finished) as [|q l] eqn:Hf; [|by eexists].
    exfalso. eapply (filter_nil_not_elem_of _ _ p Hl); [done|].
    apply list_elem_of_filter. split; [|done]. intros (q & Hq & Hqn)%Exists_exists.
    by eapply (filter_nil_not_elem_of _ _ q Hf).
  - intros n [p Hp]%Hm. rewrite merge_map_lookup in Hp.
    destruct (last_with n rest) as [q|] eqn:Hl.
    + left. apply last_with_number in Hl as [<- Hq]. apply list_elem_of_filter in Hq as [_ Hq].
      by apply list_elem_of_fmap_2.
    + right. apply first_with_number in Hp as [<- Hq]. by apply list_elem_of_fmap_2.
Qed.

(** ** The length and the number of pieces *)

(** [enum PieceLengthStrategy]. *)
Inductive PieceLengthStrategy : Type :=
| OptimizeByFileLength (content_length : Z)
| FixedPieceLength (piece_length : Z).

Definition MIN_PIECE_LENGTH : Z := 4 * 1024 * 1024.
Definition MAX_PIECE_LENGTH : Z := 64 * 1024 * 1024.
Definition MAX_PIECE_COUNT : Z := 500.

(** [u64::next_power_of_two]; wraps to zero above 2^63 in release builds. *)
Definition next_power_of_two (n : Z) : Z := u_wrap 64 (2 ^ Z.log2_up n).

(** [Piece::calculate_piece_length]. *)
Definition calculate_piece_length (strategy : PieceLengthStrategy) : Z :=
  match strategy with
  | OptimizeByFileLength content_length =>
      let piece_length :=
        F64.as_uint 64 (F64.div (F64.of_u64 content_length) (F64.of_u64 MAX_PIECE_COUNT)) in
      let actual_piece_length := next_power_of_two piece_length in
      match MIN_PIECE_LENGTH <? actual_piece_length, actual_piece_length <? MAX_PIECE_LENGTH with
      | true, true => actual_piece_length
      | _, false => MAX_PIECE_LENGTH
      | false, _ => MIN_PIECE_LENGTH
      end
  | FixedPieceLength piece_length => piece_length
  end.

(** [Piece::calculate_piece_count]. *)
Definition calculate_piece_count (piece_length content_length : Z) : Z :=
  F64.as_uint 32 (F64.ceil (F64.div (F64.of_u64 content_length) (F64.of_u64 piece_length))).

Lemma next_power_of_two_spec q :
  q ≤ 2 ^ 63 → ∃ k, 0 ≤ k ∧ next_power_of_two q = 2 ^ k ∧ q ≤ 2 ^ k.
Proof.
  intros Hq. exists (Z.log2_up q). pose proof (Z.log2_up_nonneg q) as Hn.
  assert (Z.log2_up q ≤ 63).
  { destruct (decide (q ≤ 0)); [rewrite Z.log2_up_nonpos; lia|]. apply Z.log2_up_le_pow2; lia. }
  split; [done|]. split.
  - apply u_wrap_id. unfold u_in. split; [by apply Z.pow_nonneg | apply Z.pow_lt_mono_r; lia].
  - destruct (decide (q ≤ 0)); [|apply Z.log2_log2_up_spec; lia].
    pose proof (Z.pow_nonneg 2 (Z.log2_up q)). lia.
Qed.

(** The part of the content one piece of 500 has to hold, unless it is huge. *)
Lemma optimized_length cl :
  0 ≤ cl < 2 ^ 64 →
  let q := F64.as_uint 64 (F64.div (F64.of_u64 cl) (F64.of_u64 MAX_PIECE_COUNT)) in
  (cl / 500 ≤ q ∨ 2 ^ 43 ≤ q) ∧ q ≤ 2 ^ 63.
Proof.
  intros Hcl. unfold MAX_PIECE_COUNT. simpl. destruct (decide (cl = 0)) as [->|Hne].
  { split; [left|]; vm_compute; discriminate. }
  pose proof (Z.div_mod cl 500 ltac:(lia)). pose proof (Z.mod_pos_bound cl 500 ltac:(lia)).
  split; [|etransitivity; [apply F64.div_upper|]; lia].
  destruct (decide (cl < 2 ^ 53)) as [Hlt|Hge].
  - left. apply F64.div_floor_lower; lia.
  - right. apply F64.div_large; lia.
Qed.

(** C22: the optimized piece length is a power of two from 4 MiB to 64 MiB;
    unless it is capped at 64 MiB, the content is cut into at most 501 pieces,
    one more than [MAX_PIECE_COUNT], because the division by 500 rounds down. *)
Theorem calculate_piece_length_bounds (cl : Z) :
  0 ≤ cl < 2 ^ 64 →
  let pl := calculate_piece_length (OptimizeByFileLength cl) in
  MIN_PIECE_LENGTH ≤ pl ≤ MAX_PIECE_LENGTH ∧ (∃ k, 0 ≤ k ∧ pl = 2 ^ k) ∧
  (pl < MAX_PIECE_LENGTH → count pl cl ≤ MAX_PIECE_COUNT + 1).
Proof.
  intros Hcl pl. destruct (optimized_length cl Hcl) as [Hlow Hup].
  unfold calculate_piece_length in pl.
  set (q := F64.as_uint 64 (F64.div (F64.of_u64 cl) (F64.of_u64 MAX_PIECE_COUNT))) in *.
  destruct (next_power_of_two_spec q Hup) as (k & Hk & Ha & Hqk).
  set (a := next_power_of_two q) in *. clearbody q a.
  assert (MIN_PIECE_LENGTH = 2 ^ 22 ∧ MAX_PIECE_LENGTH = 2 ^ 26) as [Hmin Hmax] by done.
  assert (MIN_PIECE_LENGTH ≤ pl ≤ MAX_PIECE_LENGTH ∧ (∃ k, 0 ≤ k ∧ pl = 2 ^ k) ∧
          (pl < MAX_PIECE_LENGTH → a ≤ pl)) as (Hb & Hpow & Hge).
  { unfold pl. destruct (Z.ltb_spec MIN_PIECE_LENGTH a), (Z.ltb_spec a MAX_PIECE_LENGTH);
      (split; [lia|]; split; [|lia]); eauto. by exists 26. by exists 22. by exists 26. }
  clearbody pl. split; [done|]. split; [done|]. intros Hlt. specialize (Hge Hlt).
  unfold count, MAX_PIECE_COUNT. pose proof (Z.div_mod cl 500 ltac:(lia)).
  pose proof (Z.mod_pos_bound cl 500 ltac:(lia)).
  apply Z.lt_succ_r, Z.div_lt_upper_bound; lia.
Qed.

(** the floating-point piece count is exact: for lengths below 2^53 whose
    quotient fits a [u32] it is the number of pieces
    [calculate_interested] makes and the one [Task::piece_count] computes with
    integers. *)
Theorem calculate_piece_count_exact (pl cl : Z) (t : Task) :
  0 < pl < 2 ^ 53 → 0 ≤ cl < 2 ^ 53 → count pl cl < 2 ^ 32 →
  Task.piece_length t = Some pl → Task.content_length t = Some cl →
  calculate_piece_count pl cl = count pl cl ∧
  Task.piece_count t = Some (Some (calculate_piece_count pl cl)).
Proof.
  intros Hpl Hcl Hcount Htp Htc.
  assert (calculate_piece_count pl cl = count pl cl) as Heq.
  { unfold calculate_piece_count. rewrite F64.div_ceil_exact by done. fold (count pl cl).
    unfold u_max. lia. }
  split; [done|]. rewrite Heq. unfold Task.piece_count. rewrite Htc, Htp.
  unfold u64_div_ceil. rewrite decide_False by lia. simpl. do 2 f_equal. unfold count.
  pose proof (Z.div_mod cl pl ltac:(lia)). pose proof (Z.mod_pos_bound cl pl ltac:(lia)).
  case_decide.
  - apply (Z.div_unique_pos _ _ _ (pl - 1)); lia.
  - apply (Z.div_unique_pos _ _ _ (cl mod pl - 1)); lia.
Qed.
End PieceCalc.

Module PieceCalcWitness.
Import PieceCalc.

Definition clock (n : nat) : NaiveDateTime := Z.of_nat n.

Lemma calculate_interested_partition_witness : ∃ ps,
  calculate_interested clock 4 4 10 None = Some (Ok ps) ∧ Z.of_nat (List.length ps) = 3.
Proof.
  destruct (calculate_interested_partition clock 4 10 4) as (ps & Hps & Hlen & _);
    [lia | lia | lia | vm_compute; done |]. exists ps. split; [exact Hps | exact Hlen].
Defined.

Lemma calculate_interested_range_witness : ∃ ps,
  calculate_interested clock 4 4 10 (Some (mkRange 5 4)) = Some (Ok ps) ∧
  Piece.number <$> ps = [1; 2] ∧ Piece.length <$> ps = [4; 2].
Proof.
  pose proof (calculate_interested_range clock 4 10 (mkRange 5 4) 4 ltac:(lia) ltac:(lia)
    ltac:(lia) ltac:(simpl; lia) ltac:(simpl; lia) ltac:(simpl; lia) ltac:(vm_compute; done)) as Hr.
  rewrite decide_True in Hr by (vm_compute; done). destruct Hr as (Hr & _).
  eexists. split; [exact Hr|]. vm_compute. done.
Defined.

Lemma calculate_interested_zero_length_witness :
  calculate_interested clock 1000 0 10 (Some (mkRange 5 4)) = None.
Proof. apply calculate_interested_zero_length; [lia|]. intros r [= <-]. simpl. lia. Defined.

Lemma calculate_piece_length_bounds_witness :
  let cl := 500 * 2 ^ 23 + 1 in
  let pl := calculate_piece_length (OptimizeByFileLength cl) in
  pl = 2 ^ 23 ∧ count pl cl = 501 ∧ count pl cl ≤ MAX_PIECE_COUNT + 1.
Proof.
  split; [vm_compute; reflexivity|]. split; [vm_compute; reflexivity|].
  apply calculate_piece_length_bounds; [lia | vm_compute; done].
Defined.

Lemma calculate_piece_count_exact_witness :
  calculate_piece_count 4194304 10000000 = 3.
Proof.
  destruct (calculate_piece_count_exact 4194304 10000000
    (Task.set_lengths (Some 4194304) (Some 10000000) Task.default)) as [Heq _];
    [lia | lia | vm_compute; done | done | done |]. rewrite Heq. vm_compute. reflexivity.
Defined.
End PieceCalcWitness.
