(* ===== verification/Wire.v ===== *)
(** * The rendezvous wire format

    Models [src/dragonfly-client-storage/src/rendezvous.rs] (the framing and
    the piece schema) and [src/dragonfly-client-storage/src/urma/rendezvous.rs]
    (the URMA frames).  A connection is the list of the bytes in flight: a
    writer appends to it, [read_exact] takes from its front and fails when it
    ends too early.  A Rust [String] is a byte string that is valid UTF-8. *)

From S2P Require Import Prelude Errors Engine.
From Stdlib Require Import ZArith Lia String Strings.Byte.
From stdpp Require Import base tactics numbers list gmap strings pretty.
Local Open Scope Z_scope.

Module Wire.

(** ** Bytes *)

Definition byte_val (b : byte) : Z := Z.of_N (Byte.to_N b).
Definition byte_of (z : Z) : byte := default x00 (Byte.of_N (Z.to_N (z mod 256))).

(** [uN::to_be_bytes], [n] bytes. *)
Fixpoint to_be_bytes (n : nat) (z : Z) : bytes :=
  match n with
  | O => []
  | S n => byte_of (Z.shiftr z (8 * Z.of_nat n)) :: to_be_bytes n z
  end.

(** [uN::from_be_bytes]. *)
Definition from_be_bytes (b : bytes) : Z := foldl (λ acc x, acc * 256 + byte_val x) 0 b.

Definition is_cont (b : byte) : bool := (0x80 <=? byte_val b) && (byte_val b <=? 0xBF).
Definition between (lo hi : Z) (b : byte) : bool := (lo <=? byte_val b) && (byte_val b <=? hi).

(** The validity check of [String::from_utf8]: no overlong forms, no
    surrogates, nothing above U+10FFFF. *)
Fixpoint utf8_valid (b : bytes) : bool :=
  match b with
  | [] => true
  | b0 :: t0 =>
      if byte_val b0 <? 0x80 then utf8_valid t0
      else match t0 with
           | [] => false
           | b1 :: t1 =>
               if between 0xC2 0xDF b0 then is_cont b1 && utf8_valid t1
               else match t1 with
                    | [] => false
                    | b2 :: t2 =>
                        if between 0xE0 0xEF b0 then
                          (if byte_val b0 =? 0xE0 then between 0xA0 0xBF b1
                           else if byte_val b0 =? 0xED then between 0x80 0x9F b1
                           else is_cont b1) && is_cont b2 && utf8_valid t2
                        else match t2 with
                             | [] => false
                             | b3 :: t3 =>
                                 between 0xF0 0xF4 b0 &&
                                 (if byte_val b0 =? 0xF0 then between 0x90 0xBF b1
                                  else if byte_val b0 =? 0xF4 then between 0x80 0x8F b1
                                  else is_cont b1) && is_cont b2 && is_cont b3 && utf8_valid t3
                             end
                    end
           end
  end.

(** The invariant of a Rust [String]. *)
Definition is_utf8 (s : string) : Prop := utf8_valid (as_bytes s) = true.

(** [String::from_utf8]. *)
Definition from_utf8 (b : bytes) : option string :=
  if utf8_valid b then Some (String.string_of_list_byte b) else None.

(** [{n}] in a message. *)
Definition show (n : Z) : string := pretty n.

(** ** Payloads *)

Definition HEADER_LENGTH : nat := 10.
Definition MAX_TASK_ID_LENGTH : Z := 4096.
Definition MAX_STRING_LENGTH : Z := 4096.
Definition MAX_PAYLOAD_LENGTH : Z := 128 * 1024.

(** [put_bytes]: [len as u32], then the bytes. *)
Definition put_bytes (payload b : bytes) : bytes :=
  payload ++ to_be_bytes 4 (u_wrap 32 (Z.of_nat (List.length b))) ++ b.

(** [struct PayloadReader]: the unread part of the payload. *)
Abbreviation Reader A := (ST bytes DFError A).

(** [PayloadReader::finish]. *)
Definition finish : Reader unit := λ buf,
  match buf with
  | [] => (Ok tt, buf)
  | _ => (Err (Unknown ("rendezvous frame has " +:+ show (Z.of_nat (List.length buf)) +:+
                        " trailing payload bytes")), buf)
  end.

(** [PayloadReader::take]. *)
Definition take_ (n : Z) : Reader bytes := λ buf,
  if Z.of_nat (List.length buf) <? n then (Err (Unknown "rendezvous payload truncated"), buf)
  else (Ok (take (Z.to_nat n) buf), drop (Z.to_nat n) buf).

(** [PayloadReader::u8], [u16], [u32], [u64]. *)
Definition read_uint (n : Z) : Reader Z := b ← take_ n; mret (from_be_bytes b).
Definition u8 : Reader Z := read_uint 1.
Definition u16 : Reader Z := read_uint 2.
Definition u32 : Reader Z := read_uint 4.
Definition u64 : Reader Z := read_uint 8.

(** [PayloadReader::bytes]. *)
Definition read_bytes (max : Z) : Reader bytes :=
  len ← u32;
  if max <? len then
    throw (Unknown ("rendezvous field of " +:+ show len +:+ " bytes exceeds the " +:+
                    show max +:+ " byte cap"))
  else take_ len.

(** [PayloadReader::string]. *)
Definition read_string (max : Z) : Reader string :=
  b ← read_bytes max;
  lift (ok_or (Unknown "rendezvous string is not utf-8") (from_utf8 b)).

(** ** The piece schema *)

(** [enum PieceKind]. *)
Inductive PieceKind : Type := KPiece | KPersistentPiece | KPersistentCachePiece.

(** [impl TryFrom<u8> for PieceKind], [impl From<PieceKind> for u8]. *)
Definition PieceKind_try_from (value : Z) : Result PieceKind :=
  if value =? 0 then Ok KPiece
  else if value =? 1 then Ok KPersistentPiece
  else if value =? 2 then Ok KPersistentCachePiece
  else Err (Unknown ("invalid piece kind: " +:+ show value)).
Definition PieceKind_into (kind : PieceKind) : Z :=
  match kind with KPiece => 0 | KPersistentPiece => 1 | KPersistentCachePiece => 2 end.

(** [struct PieceRequest]. *)
Record PieceRequest := mkPieceRequest {
  kind : PieceKind;
  task_id : string;
  piece_number : Z;
  req_chunk_size : Z;
  req_max_inflight_chunks : Z;
}.
Definition PieceRequest_encode (r : PieceRequest) (payload : bytes) : bytes :=
  let payload := payload ++ to_be_bytes 1 (PieceKind_into (kind r)) in
  let payload := put_bytes payload (as_bytes (task_id r)) in
  let payload := payload ++ to_be_bytes 4 (piece_number r) in
  let payload := payload ++ to_be_bytes 8 (req_chunk_size r) in
  payload ++ to_be_bytes 4 (req_max_inflight_chunks r).
Definition PieceRequest_decode : Reader PieceRequest :=
  v ← u8;
  kind ← lift (PieceKind_try_from v);
  task_id ← read_string MAX_TASK_ID_LENGTH;
  piece_number ← u32;
  chunk_size ← u64;
  max_inflight_chunks ← u32;
  mret (mkPieceRequest kind task_id piece_number chunk_size max_inflight_chunks).

(** [struct PieceMetadata]. *)
Record PieceMetadata := mkPieceMetadata {
  pm_offset : Z;
  pm_length : Z;
  pm_digest : string;
  pm_chunk_size : Z;
  pm_max_inflight_chunks : Z;
}.
Definition PieceMetadata_encode (m : PieceMetadata) (payload : bytes) : bytes :=
  let payload := payload ++ to_be_bytes 8 (pm_offset m) in
  let payload := payload ++ to_be_bytes 8 (pm_length m) in
  let payload := put_bytes payload (as_bytes (pm_digest m)) in
  let payload := payload ++ to_be_bytes 8 (pm_chunk_size m) in
  payload ++ to_be_bytes 4 (pm_max_inflight_chunks m).
Definition PieceMetadata_decode : Reader PieceMetadata :=
  offset ← u64;
  length ← u64;
  digest ← read_string MAX_STRING_LENGTH;
  chunk_size ← u64;
  max_inflight_chunks ← u32;
  mret (mkPieceMetadata offset length digest chunk_size max_inflight_chunks).

(** [struct ReceiveWindow]. *)
Record ReceiveWindow := mkReceiveWindow { start_chunk : Z; chunk_count : Z }.
Definition ReceiveWindow_encode (w : ReceiveWindow) (payload : bytes) : bytes :=
  payload ++ to_be_bytes 8 (start_chunk w) ++ to_be_bytes 4 (chunk_count w).
Definition ReceiveWindow_decode : Reader ReceiveWindow :=
  start_chunk ← u64;
  chunk_count ← u32;
  mret (mkReceiveWindow start_chunk chunk_count).
(** [ReceiveWindow::validate]. *)
Definition ReceiveWindow_validate (w : ReceiveWindow) (expected_start remaining_chunks : Z)
    : Result unit :=
  if negb (start_chunk w =? expected_start) || (chunk_count w =? 0) then
    Err (Unknown ("invalid receive window: expected start " +:+ show expected_start +:+
                  ", got start " +:+ show (start_chunk w) +:+ " count " +:+ show (chunk_count w)))
  else if remaining_chunks <? chunk_count w then
    Err (Unknown ("receive window count " +:+ show (chunk_count w) +:+ " exceeds " +:+
                  show remaining_chunks +:+ " remaining chunks"))
  else Ok tt.

(** [struct RendezvousError]. *)
Record RendezvousError := mkRendezvousError { code : Z; message : string }.
Definition RendezvousError_encode (e : RendezvousError) (payload : bytes) : bytes :=
  put_bytes (payload ++ to_be_bytes 4 (code e)) (as_bytes (message e)).
Definition RendezvousError_decode : Reader RendezvousError :=
  code ← u32;
  message ← read_string MAX_STRING_LENGTH;
  mret (mkRendezvousError code message).

(** ** The envelope *)

(** The I/O error of [read_exact] on a stream that ends early. *)
Definition UnexpectedEof : DFError := IO "early eof".

(** [reader.read_exact(&mut buf)] with a buffer of [n] bytes. *)
Definition read_exact (n : nat) : Reader bytes := λ stream,
  if decide (List.length stream < n)%nat then (Err UnexpectedEof, [])
  else (Ok (take n stream), drop n stream).

(** [write_envelope]; [stream] is what the peer has still to read. *)
Definition write_envelope (magic version frame_type : Z) (payload : bytes)
    (max_payload_length : Z) : Reader unit := λ stream,
  let len := Z.of_nat (List.length payload) in
  if (max_payload_length <? len) || (MAX_PAYLOAD_LENGTH <? max_payload_length) then
    (Err (Unknown ("rendezvous payload of " +:+ show len +:+ " bytes exceeds the cap")), stream)
  else if u_max 32 <? len then
    (Err (Unknown "rendezvous payload length exceeds u32"), stream)
  else
    let header := to_be_bytes 4 magic ++ to_be_bytes 1 version ++ to_be_bytes 1 frame_type ++
                  to_be_bytes 4 len in
    (Ok tt, (stream ++ header) ++ payload).

(** [read_envelope]. *)
Definition read_envelope (expected_magic expected_version max_payload_length : Z)
    : Reader (Z * bytes) :=
  header ← read_exact HEADER_LENGTH;
  let magic := from_be_bytes (take 4 header) in
  if negb (magic =? expected_magic) then throw (Unknown "invalid rendezvous magic")
  else
    let version := from_be_bytes (take 1 (drop 4 header)) in
    if negb (version =? expected_version) then
      throw (Unknown ("rendezvous version mismatch: local " +:+ show expected_version +:+
                      ", remote " +:+ show version))
    else
      let payload_length := from_be_bytes (take 4 (drop 6 header)) in
      if (max_payload_length <? payload_length) || (MAX_PAYLOAD_LENGTH <? max_payload_length) then
        throw (Unknown ("rendezvous payload of " +:+ show payload_length +:+
                        " bytes exceeds the cap"))
      else
        payload ← read_exact (Z.to_nat payload_length);
        mret (from_be_bytes (take 1 (drop 5 header)), payload).

(** ** URMA frames *)

Definition MAGIC : Z := 0x44465552.
Definition VERSION : Z := 2.
Definition MAX_DESCRIPTOR_LENGTH : Z := 64 * 1024.

Abbreviation TransferId := Z.
Definition SESSION_TRANSFER_ID : TransferId := 0.

(** [struct UrmaCapability]. *)
Record UrmaCapability := mkUrmaCapability {
  transport_type : Z;
  fabric_tag : string;
  max_message_size : Z;
}.

(** [UrmaCapability::compatible]. *)
Definition compatible (self remote : UrmaCapability) : result string unit :=
  if negb (transport_type self =? transport_type remote) then
    Err ("URMA transport mismatch: local " +:+ show (transport_type self) +:+ ", remote " +:+
         show (transport_type remote))
  else if bool_decide (fabric_tag self = "") || bool_decide (fabric_tag remote = "") then
    Err "missing URMA fabric tag"
  else if bool_decide (fabric_tag self ≠ fabric_tag remote) then
    Err ("URMA fabric tag mismatch: local " +:+ fabric_tag self +:+ ", remote " +:+
         fabric_tag remote)
  else if (max_message_size self =? 0) || (max_message_size remote =? 0) then
    Err "invalid URMA max message size"
  else Ok tt.

Definition UrmaCapability_encode (c : UrmaCapability) (payload : bytes) : bytes :=
  let payload := payload ++ to_be_bytes 4 (transport_type c) in
  let payload := put_bytes payload (as_bytes (fabric_tag c)) in
  payload ++ to_be_bytes 8 (max_message_size c).
Definition UrmaCapability_decode : Reader UrmaCapability :=
  transport_type ← u32;
  fabric_tag ← read_string MAX_STRING_LENGTH;
  max_message_size ← u64;
  mret (mkUrmaCapability transport_type fabric_tag max_message_size).

(** [struct UrmaAdvertisement], [struct LaneConnect], [struct LaneConnected]. *)
Record UrmaAdvertisement := mkUrmaAdvertisement { capability : UrmaCapability; port : Z }.
Record LaneConnect := mkLaneConnect {
  lc_capability : UrmaCapability;
  client_descriptor : bytes;
}.
Record LaneConnected := mkLaneConnected { server_descriptor : bytes }.

(** [struct CapabilityRegistry]: the locked cell. *)
Abbreviation CapabilityRegistry := (option UrmaAdvertisement).
Definition publish (a : UrmaAdvertisement) (_ : CapabilityRegistry) : CapabilityRegistry := Some a.
Definition clear (_ : CapabilityRegistry) : CapabilityRegistry := None.

(** [enum Frame]. *)
Inductive Frame : Type :=
| Connect (connect : LaneConnect)
| Connected (connected : LaneConnected)
| Request (transfer_id : TransferId) (request : PieceRequest)
| Ready (transfer_id : TransferId) (metadata : PieceMetadata)
| RecvPosted (transfer_id : TransferId) (window : ReceiveWindow)
| Done (transfer_id : TransferId)
| FError (transfer_id : TransferId) (error : RendezvousError)
| Discover
| FCapability (advertisement : UrmaAdvertisement).

(** [Frame::transfer_id]. *)
Definition transfer_id (f : Frame) : option TransferId :=
  match f with
  | Request transfer_id _ | Ready transfer_id _ | RecvPosted transfer_id _ | Done transfer_id
  | FError transfer_id _ => Some transfer_id
  | Connect _ | Connected _ | Discover | FCapability _ => None
  end.

(** [Frame::frame_type]. *)
Definition frame_type (f : Frame) : Z :=
  match f with
  | Connect _ => 1
  | Connected _ => 2
  | Request _ _ => 3
  | Ready _ _ => 4
  | RecvPosted _ _ => 5
  | Done _ => 6
  | FError _ _ => 7
  | Discover => 8
  | FCapability _ => 9
  end.

(** The payload built by [write_frame]. *)
Definition frame_payload (f : Frame) : bytes :=
  match f with
  | Discover => []
  | FCapability advertisement =>
      UrmaCapability_encode (capability advertisement) [] ++ to_be_bytes 2 (port advertisement)
  | Connect connect =>
      put_bytes (UrmaCapability_encode (lc_capability connect) []) (client_descriptor connect)
  | Connected connected => put_bytes [] (server_descriptor connected)
  | Request transfer_id request => PieceRequest_encode request (to_be_bytes 4 transfer_id)
  | Ready transfer_id metadata => PieceMetadata_encode metadata (to_be_bytes 4 transfer_id)
  | RecvPosted transfer_id window => ReceiveWindow_encode window (to_be_bytes 4 transfer_id)
  | Done transfer_id => to_be_bytes 4 transfer_id
  | FError transfer_id error => RendezvousError_encode error (to_be_bytes 4 transfer_id)
  end.

(** [write_frame]. *)
Definition write_frame (f : Frame) : Reader unit :=
  write_envelope MAGIC VERSION (frame_type f) (frame_payload f) MAX_PAYLOAD_LENGTH.

(** The [match frame_type] of [read_frame]. *)
Definition decode_frame (frame_type : Z) : Reader Frame :=
  if frame_type =? 1 then
    c ← UrmaCapability_decode;
    d ← read_bytes MAX_DESCRIPTOR_LENGTH;
    mret (Connect (mkLaneConnect c d))
  else if frame_type =? 2 then
    d ← read_bytes MAX_DESCRIPTOR_LENGTH;
    mret (Connected (mkLaneConnected d))
  else if frame_type =? 3 then
    transfer_id ← u32;
    request ← PieceRequest_decode;
    mret (Request transfer_id request)
  else if frame_type =? 4 then
    transfer_id ← u32;
    metadata ← PieceMetadata_decode;
    mret (Ready transfer_id metadata)
  else if frame_type =? 5 then
    transfer_id ← u32;
    window ← ReceiveWindow_decode;
    _ ← lift (ReceiveWindow_validate window (start_chunk window) (u_max 64));
    mret (RecvPosted transfer_id window)
  else if frame_type =? 6 then
    transfer_id ← u32;
    mret (Done transfer_id)
  else if frame_type =? 7 then
    transfer_id ← u32;
    error ← RendezvousError_decode;
    mret (FError transfer_id error)
  else if frame_type =? 8 then mret Discover
  else if frame_type =? 9 then
    c ← UrmaCapability_decode;
    p ← u16;
    mret (FCapability (mkUrmaAdvertisement c p))
  else throw (Unknown ("unknown URMA rendezvous frame type: " +:+ show frame_type)).

(** [read_frame]. *)
Definition read_frame : Reader Frame :=
  '(frame_type, payload) ← read_envelope MAGIC VERSION MAX_PAYLOAD_LENGTH;
  lift ((frame ← decode_frame frame_type; _ ← finish; mret frame) payload).1.

End Wire.

(** ** Codecs *)

Module WireFacts.
Import Wire.

Lemma byte_val_range b : 0 ≤ byte_val b < 256.
Proof. unfold byte_val. pose proof (Byte.to_N_bounded b). lia. Qed.

Lemma byte_of_val b : byte_of (byte_val b) = b.
Proof.
  unfold byte_of. rewrite Z.mod_small by apply byte_val_range.
  unfold byte_val. by rewrite N2Z.id, Byte.of_to_N.
Qed.

Lemma byte_val_of z : byte_val (byte_of z) = z mod 256.
Proof.
  unfold byte_val, byte_of. pose proof (Z.mod_pos_bound z 256 ltac:(lia)) as Hz.
  destruct (Byte.of_N (Z.to_N (z mod 256))) as [b|] eqn:Hb; simpl.
  - apply Byte.to_of_N in Hb. rewrite Hb. lia.
  - apply Byte.of_N_None_iff in Hb. lia.
Qed.

Lemma length_to_be_bytes n z : List.length (to_be_bytes n z) = n.
Proof. induction n; simpl; congruence. Qed.

Lemma from_be_bytes_acc b acc :
  foldl (λ acc x, acc * 256 + byte_val x) acc b
    = acc * 256 ^ Z.of_nat (List.length b) + from_be_bytes b.
Proof.
  unfold from_be_bytes. revert acc. induction b as [|x b IH]; intros acc; cbn [foldl List.length]; [lia|].
  rewrite IH, (IH (0 * 256 + byte_val x)).
  rewrite Nat2Z.inj_succ, Z.pow_succ_r by lia. lia.
Qed.

Lemma from_be_bytes_cons x b :
  from_be_bytes (x :: b) = byte_val x * 256 ^ Z.of_nat (List.length b) + from_be_bytes b.
Proof. unfold from_be_bytes at 1. simpl. by rewrite from_be_bytes_acc. Qed.

Lemma from_be_bytes_range b : 0 ≤ from_be_bytes b < 256 ^ Z.of_nat (List.length b).
Proof.
  induction b as [|x b IH]; [done|]. rewrite from_be_bytes_cons. pose proof (byte_val_range x).
  simpl List.length. rewrite Nat2Z.inj_succ, Z.pow_succ_r by lia. nia.
Qed.

Lemma from_to_be_bytes n z : from_be_bytes (to_be_bytes n z) = z mod 256 ^ Z.of_nat n.
Proof.
  induction n as [|n IH]; [by rewrite Z.mod_1_r|]. cbn [to_be_bytes].
  rewrite from_be_bytes_cons, IH, length_to_be_bytes, byte_val_of.
  rewrite Z.shiftr_div_pow2 by lia. replace (2 ^ (8 * Z.of_nat n)) with (256 ^ Z.of_nat n)
    by (change 256 with (2 ^ 8); rewrite <- Z.pow_mul_r; lia).
  rewrite Nat2Z.inj_succ, Z.pow_succ_r, (Z.mul_comm 256) by lia.
  rewrite Z.rem_mul_r by lia. lia.
Qed.

Lemma from_be_bytes_inj b b' :
  List.length b = List.length b' → from_be_bytes b = from_be_bytes b' → b = b'.
Proof.
  revert b'. induction b as [|x b IH]; intros [|x' b'] Hlen Heq; [done..|].
  injection Hlen as Hlen. rewrite !from_be_bytes_cons, Hlen in Heq.
  pose proof (from_be_bytes_range b) as Hr. rewrite Hlen in Hr.
  pose proof (from_be_bytes_range b') as Hr'.
  assert (byte_val x = byte_val x') as Hx by nia. f_equal.
  - by rewrite <- (byte_of_val x), Hx, byte_of_val.
  - apply IH; [done|]. nia.
Qed.

Lemma to_from_be_bytes n b : List.length b = n → to_be_bytes n (from_be_bytes b) = b.
Proof.
  intros <-. apply from_be_bytes_inj; [apply length_to_be_bytes|].
  rewrite from_to_be_bytes. apply Z.mod_small, from_be_bytes_range.
Qed.

(** [codec d e ok]: the reader [d] returns exactly the values that satisfy
    [ok], each from its encoding [e] and nothing else. *)
Record codec {A} (d : Reader A) (e : A → bytes) (ok : A → Prop) : Prop := {
  codec_roundtrip a rest : ok a → d (e a ++ rest) = (Ok a, rest);
  codec_canonical b a rest : d b = (Ok a, rest) → b = e a ++ rest ∧ ok a;
}.

Lemma codec_equiv {A} (d : Reader A) e e' (ok ok' : A → Prop) :
  codec d e ok → (∀ a, ok' a → e' a = e a) → (∀ a, ok a ↔ ok' a) → codec d e' ok'.
Proof.
  intros [Hr Hc] He Hok. split.
  - intros a rest Ha. rewrite He by done. by apply Hr, Hok.
  - intros b a rest [-> Ha%Hok]%Hc. by rewrite He.
Qed.

(** The decoder of a record reads a field [p r] and goes on; [C] collects what
    the fields read so far say of the record, until it determines it. *)
Lemma codec_bind {A B} (d : Reader A) e ok (p : B → A) (k : A → Reader B) e2 (C ok2 : B → Prop) :
  codec d e ok → (∀ a, ok a → codec (k a) e2 (λ r, (C r ∧ p r = a) ∧ ok2 r)) →
  codec (d ≫= k) (λ r, e (p r) ++ e2 r) (λ r, C r ∧ ok (p r) ∧ ok2 r).
Proof.
  intros [Hr Hc] Hk. split.
  - intros r rest (HC & Hok & Hok2). rewrite <- app_assoc. apply st_bind_Ok.
    do 2 eexists. split; [by apply Hr|]. by apply (codec_roundtrip _ _ _ (Hk (p r) Hok)).
  - intros b r rest (a & b1 & [-> Ha]%Hc & Hd)%st_bind_Ok.
    apply (codec_canonical _ _ _ (Hk a Ha)) in Hd as (-> & [HC <-] & Hok2). by rewrite app_assoc.
Qed.

(** A fallible conversion that reads nothing; [Q] says of the record when it
    succeeds. *)
Lemma codec_lift {A B} (x : Result A) (p : B → A) (Q : B → Prop) (k : A → Reader B) e
    (C ok : B → Prop) :
  (∀ r, C r → x = Ok (p r) ↔ Q r) →
  (∀ a, x = Ok a → codec (k a) e (λ r, (C r ∧ p r = a) ∧ ok r)) →
  codec (lift x ≫= k) e (λ r, C r ∧ Q r ∧ ok r).
Proof.
  intros HQ Hk. split.
  - intros r rest (HC & Hq & Hok). apply HQ in Hq; [|done]. cbv [mbind st_mbind lift].
    rewrite Hq. by apply (codec_roundtrip _ _ _ (Hk (p r) Hq)).
  - intros b r rest Hd. destruct x as [a|] eqn:Hx; [|done]. cbv [mbind st_mbind lift] in Hd.
    apply (codec_canonical _ _ _ (Hk a eq_refl)) in Hd as (-> & [HC <-] & Hok).
    split; [done|]. split; [done|]. split; [|done]. by apply HQ.
Qed.

Lemma codec_ret {A} (a : A) (C : A → Prop) :
  (∀ r, C r ↔ r = a) → codec (mret a) (λ _, []) (λ r, C r ∧ True).
Proof.
  intros HC. split.
  - intros r rest [->%HC _]. done.
  - intros b r rest [= <- <-]. split; [done|]. split; [|done]. by apply HC.
Qed.

Lemma take_codec n : 0 ≤ n →
  codec (take_ n) id (λ b, Z.of_nat (List.length b) = n).
Proof.
  intros Hn. unfold take_, id. split.
  - intros b rest Hb. rewrite length_app. destruct (Z.ltb_spec (Z.of_nat (List.length b + List.length rest)) n);
      [lia|].
    replace (Z.to_nat n) with (List.length b) by lia.
    by rewrite take_app_length, drop_app_length.
  - intros b a rest. destruct (Z.ltb_spec (Z.of_nat (List.length b)) n); [done|].
    intros [= <- <-]. rewrite length_take. split; [by rewrite take_drop | lia].
Qed.

Lemma uint_codec n : 0 ≤ n →
  codec (read_uint n) (to_be_bytes (Z.to_nat n)) (u_in (8 * n)).
Proof.
  intros Hn. destruct (take_codec n Hn) as [Hr Hc]. unfold u_in.
  replace (2 ^ (8 * n)) with (256 ^ n) by (change 256 with (2 ^ 8); rewrite <- Z.pow_mul_r; lia).
  split.
  - intros z rest Hz. apply st_bind_Ok. do 2 eexists. split.
    + apply (Hr (to_be_bytes (Z.to_nat n) z)). rewrite length_to_be_bytes. lia.
    + rewrite from_to_be_bytes, Z2Nat.id by done. by rewrite Z.mod_small.
  - intros b z rest (w & b1 & [-> Hw]%Hc & [= <- <-])%st_bind_Ok. split.
    + unfold id. rewrite to_from_be_bytes by lia. done.
    + pose proof (from_be_bytes_range w) as Hrg. by rewrite Hw in Hrg.
Qed.

Lemma u8_codec : codec u8 (to_be_bytes 1) (u_in 8).
Proof. by apply uint_codec. Qed.
Lemma u16_codec : codec u16 (to_be_bytes 2) (u_in 16).
Proof. by apply uint_codec. Qed.
Lemma u32_codec : codec u32 (to_be_bytes 4) (u_in 32).
Proof. by apply uint_codec. Qed.
Lemma u64_codec : codec u64 (to_be_bytes 8) (u_in 64).
Proof. by apply uint_codec. Qed.

Lemma put_bytes_app payload b : put_bytes payload b = payload ++ put_bytes [] b.
Proof. done. Qed.

Lemma bytes_codec max : 0 ≤ max < 2 ^ 32 →
  codec (read_bytes max) (put_bytes []) (λ b, Z.of_nat (List.length b) ≤ max).
Proof.
  intros Hmax. eapply codec_equiv.
  - apply (codec_bind u32 (to_be_bytes 4) (u_in 32) (λ b, Z.of_nat (List.length b)) _ id
      (λ _, True) (λ b, Z.of_nat (List.length b) ≤ max)); [apply u32_codec|].
    intros len Hlen. destruct (Z.ltb_spec max len).
    + split; [intros b rest [[_ Hb] Hle]; lia | done].
    + eapply codec_equiv; [apply take_codec, Hlen | done |]. intros b. simpl. lia.
  - intros b Hb. unfold put_bytes. by rewrite u_wrap_id by solve_range.
  - intros b. simpl. unfold u_in. lia.
Qed.

(** The strings a field with the cap [max] carries. *)
Definition string_ok (max : Z) (s : string) : Prop :=
  is_utf8 s ∧ Z.of_nat (String.length s) ≤ max.

Lemma string_codec max : 0 ≤ max < 2 ^ 32 →
  codec (read_string max) (λ s, put_bytes [] (as_bytes s)) (string_ok max).
Proof.
  intros Hmax. eapply codec_equiv.
  - apply (codec_bind (read_bytes max) _ _ as_bytes _ (λ _, []) (λ _, True) is_utf8
      (bytes_codec max Hmax)).
    intros b _. split.
    + intros s rest [[_ <-] Hs]. unfold lift, from_utf8. rewrite Hs. simpl. unfold as_bytes.
      by rewrite String.string_of_list_byte_of_string.
    + intros b' s rest. unfold lift, from_utf8, is_utf8.
      destruct (utf8_valid b) eqn:Hv; [|done]. simpl. intros [= <- <-]. unfold as_bytes.
      by rewrite String.list_byte_of_string_of_list_byte.
  - intros s _. cbv beta. by rewrite app_nil_r.
  - intros s. simpl. unfold string_ok. rewrite length_as_bytes. tauto.
Qed.

Create HintDb codec.
#[local] Hint Resolve u8_codec u16_codec u32_codec u64_codec : codec.
#[local] Hint Extern 2 (codec (read_string _) _ _) => apply string_codec; done : codec.
#[local] Hint Extern 2 (codec (read_bytes _) _ _) => apply bytes_codec; done : codec.

(** Reads one more field of the record, given by its projection. *)
Ltac field p := eapply (codec_bind _ _ _ p); [solve [eauto with codec] | intros ? ?].
Ltac fields_done := eapply codec_ret; intros []; simpl; naive_solver.
Ltac solve_encode :=
  intros; unfold PieceRequest_encode, PieceMetadata_encode, ReceiveWindow_encode,
    RendezvousError_encode, UrmaCapability_encode, put_bytes;
  cbv beta zeta; rewrite ?app_nil_l, ?app_nil_r, <- ?app_assoc; reflexivity.

Definition request_ok (r : PieceRequest) : Prop :=
  string_ok MAX_TASK_ID_LENGTH (task_id r) ∧ u_in 32 (piece_number r) ∧
  u_in 64 (req_chunk_size r) ∧ u_in 32 (req_max_inflight_chunks r).

Lemma PieceKind_try_into v k : PieceKind_try_from v = Ok k ↔ v = PieceKind_into k.
Proof.
  unfold PieceKind_try_from. split.
  - repeat (case_match; [intros [= <-]; simpl; lia|]). done.
  - by intros ->; destruct k.
Qed.

Lemma request_codec : codec PieceRequest_decode (λ r, PieceRequest_encode r []) request_ok.
Proof.
  eapply codec_equiv with (ok := λ r, True ∧ _); [unfold PieceRequest_decode | |].
  - field (λ r, PieceKind_into (kind r)).
    eapply (codec_lift _ kind (λ _, True)).
    { intros r [_ <-]. rewrite PieceKind_try_into. done. }
    intros k Hk%PieceKind_try_into.
    field task_id. field piece_number. field req_chunk_size. field req_max_inflight_chunks.
    fields_done.
  - solve_encode.
  - intros r. unfold request_ok. simpl. destruct (kind r); unfold u_in; simpl; naive_solver lia.
Qed.

Definition metadata_ok (m : PieceMetadata) : Prop :=
  u_in 64 (pm_offset m) ∧ u_in 64 (pm_length m) ∧ string_ok MAX_STRING_LENGTH (pm_digest m) ∧
  u_in 64 (pm_chunk_size m) ∧ u_in 32 (pm_max_inflight_chunks m).

Lemma metadata_codec : codec PieceMetadata_decode (λ m, PieceMetadata_encode m []) metadata_ok.
Proof.
  eapply codec_equiv with (ok := λ r, True ∧ _); [unfold PieceMetadata_decode | |].
  - field pm_offset. field pm_length. field pm_digest. field pm_chunk_size.
    field pm_max_inflight_chunks. fields_done.
  - solve_encode.
  - unfold metadata_ok. naive_solver.
Qed.

Definition window_ok (w : ReceiveWindow) : Prop := u_in 64 (start_chunk w) ∧ u_in 32 (chunk_count w).

Lemma window_codec : codec ReceiveWindow_decode (λ w, ReceiveWindow_encode w []) window_ok.
Proof.
  eapply codec_equiv with (ok := λ r, True ∧ _); [unfold ReceiveWindow_decode | |].
  - field start_chunk. field chunk_count. fields_done.
  - solve_encode.
  - unfold window_ok. naive_solver.
Qed.

Definition error_ok (e : RendezvousError) : Prop :=
  u_in 32 (code e) ∧ string_ok MAX_STRING_LENGTH (message e).

Lemma error_codec : codec RendezvousError_decode (λ e, RendezvousError_encode e []) error_ok.
Proof.
  eapply codec_equiv with (ok := λ r, True ∧ _); [unfold RendezvousError_decode | |].
  - field code. field message. fields_done.
  - solve_encode.
  - unfold error_ok. naive_solver.
Qed.

Definition capability_ok (c : UrmaCapability) : Prop :=
  u_in 32 (transport_type c) ∧ string_ok MAX_STRING_LENGTH (fabric_tag c) ∧
  u_in 64 (max_message_size c).

Lemma capability_codec : codec UrmaCapability_decode (λ c, UrmaCapability_encode c []) capability_ok.
Proof.
  eapply codec_equiv with (ok := λ r, True ∧ _); [unfold UrmaCapability_decode | |].
  - field transport_type. field fabric_tag. field max_message_size. fields_done.
  - solve_encode.
  - unfold capability_ok. naive_solver.
Qed.

#[local] Hint Resolve request_codec metadata_codec window_codec error_codec capability_codec : codec.

(** The frames the format carries: fields in the range of their width, strings
    that are UTF-8 and below their cap, and non-empty receive windows. *)
Definition frame_ok (f : Frame) : Prop :=
  match f with
  | Connect c => capability_ok (lc_capability c) ∧
      Z.of_nat (List.length (client_descriptor c)) ≤ MAX_DESCRIPTOR_LENGTH
  | Connected c => Z.of_nat (List.length (server_descriptor c)) ≤ MAX_DESCRIPTOR_LENGTH
  | Request t r => u_in 32 t ∧ request_ok r
  | Ready t m => u_in 32 t ∧ metadata_ok m
  | RecvPosted t w => u_in 32 t ∧ window_ok w ∧ chunk_count w ≠ 0
  | Done t => u_in 32 t
  | FError t e => u_in 32 t ∧ error_ok e
  | Discover => True
  | FCapability a => capability_ok (capability a) ∧ u_in 16 (port a)
  end.

(** Projections of frames, for [field]. *)
Definition f_tid (f : Frame) : Z := default 0 (transfer_id f).
Definition f_cap (f : Frame) : UrmaCapability :=
  match f with
  | Connect c => lc_capability c
  | FCapability a => capability a
  | _ => mkUrmaCapability 0 "" 0
  end.
Definition f_desc (f : Frame) : bytes :=
  match f with
  | Connect c => client_descriptor c
  | Connected c => server_descriptor c
  | _ => []
  end.
Definition f_req (f : Frame) : PieceRequest :=
  if f is Request _ r then r else mkPieceRequest KPiece "" 0 0 0.
Definition f_meta (f : Frame) : PieceMetadata :=
  if f is Ready _ m then m else mkPieceMetadata 0 0 "" 0 0.
Definition f_win (f : Frame) : ReceiveWindow :=
  if f is RecvPosted _ w then w else mkReceiveWindow 0 0.
Definition f_err (f : Frame) : RendezvousError :=
  if f is FError _ e then e else mkRendezvousError 0 "".
Definition f_port (f : Frame) : Z := if f is FCapability a then port a else 0.

Lemma validate_own_window w :
  window_ok w → ReceiveWindow_validate w (start_chunk w) (u_max 64) = Ok tt ↔ chunk_count w ≠ 0.
Proof.
  intros [_ Hc]. unfold ReceiveWindow_validate. rewrite Z.eqb_refl. simpl.
  destruct (Z.eqb_spec (chunk_count w) 0); [done|].
  destruct (Z.ltb_spec (u_max 64) (chunk_count w)); [|done]. solve_range.
Qed.

Ltac frame_case n read :=
  eapply codec_equiv with (ok := λ r, frame_type r = n ∧ _);
  [read | intros [] ?; simpl in *; try lia; solve_encode | intros []; simpl; naive_solver lia].
Ltac frame_done :=
  eapply codec_ret; intros [[]|[]| | | | | | |[]]; simpl; unfold f_tid; simpl; naive_solver.

Lemma frame_codec t : codec (decode_frame t) frame_payload (λ f, frame_type f = t ∧ frame_ok f).
Proof.
  unfold decode_frame.
  destruct (Z.eqb_spec t 1) as [->|]; [frame_case 1 ltac:(field f_cap; field f_desc; frame_done)|].
  destruct (Z.eqb_spec t 2) as [->|]; [frame_case 2 ltac:(field f_desc; frame_done)|].
  destruct (Z.eqb_spec t 3) as [->|]; [frame_case 3 ltac:(field f_tid; field f_req; frame_done)|].
  destruct (Z.eqb_spec t 4) as [->|]; [frame_case 4 ltac:(field f_tid; field f_meta; frame_done)|].
  destruct (Z.eqb_spec t 5) as [->|].
  { frame_case 5 ltac:(field f_tid; field f_win;
      eapply (codec_lift _ (λ _, tt) (λ f, chunk_count (f_win f) ≠ 0));
      [intros f [_ <-]; by apply validate_own_window | intros [] _; frame_done]). }
  destruct (Z.eqb_spec t 6) as [->|]; [frame_case 6 ltac:(field f_tid; frame_done)|].
  destruct (Z.eqb_spec t 7) as [->|]; [frame_case 7 ltac:(field f_tid; field f_err; frame_done)|].
  destruct (Z.eqb_spec t 8) as [->|]; [frame_case 8 ltac:(frame_done)|].
  destruct (Z.eqb_spec t 9) as [->|]; [frame_case 9 ltac:(field f_cap; field f_port; frame_done)|].
  split; [|done]. intros f rest [Ht _]. destruct f; simpl in *; congruence.
Qed.

(** ** Frames on a connection *)
Lemma length_put_bytes payload b :
  List.length (put_bytes payload b) = (List.length payload + 4 + List.length b)%nat.
Proof. unfold put_bytes. rewrite !length_app, length_to_be_bytes. lia. Qed.

Lemma payload_length f :
  frame_ok f → Z.of_nat (List.length (frame_payload f)) ≤ MAX_PAYLOAD_LENGTH.
Proof.
  unfold MAX_PAYLOAD_LENGTH.
  destruct f; simpl; unfold capability_ok, request_ok, metadata_ok, error_ok, string_ok,
    MAX_TASK_ID_LENGTH, MAX_STRING_LENGTH, MAX_DESCRIPTOR_LENGTH;
  unfold UrmaCapability_encode, PieceRequest_encode, PieceMetadata_encode, ReceiveWindow_encode,
    RendezvousError_encode; intros;
  rewrite ?length_app, ?length_put_bytes, ?length_app, ?length_put_bytes, ?length_app,
    ?length_to_be_bytes, ?length_as_bytes; simpl; lia.
Qed.

(** The bytes of a frame: the header and the payload. *)
Definition frame_header (f : Frame) : bytes :=
  to_be_bytes 4 MAGIC ++ to_be_bytes 1 VERSION ++ to_be_bytes 1 (frame_type f) ++
  to_be_bytes 4 (Z.of_nat (List.length (frame_payload f))).
Definition frame_bytes (f : Frame) : bytes := frame_header f ++ frame_payload f.

Lemma write_frame_ok f s : frame_ok f → write_frame f s = (Ok tt, s ++ frame_bytes f).
Proof.
  intros Hf%payload_length. unfold write_frame, write_envelope.
  destruct (Z.ltb_spec MAX_PAYLOAD_LENGTH (Z.of_nat (List.length (frame_payload f)))); [lia|].
  destruct (Z.ltb_spec MAX_PAYLOAD_LENGTH MAX_PAYLOAD_LENGTH); [lia|]. cbn [orb].
  destruct (Z.ltb_spec (u_max 32) (Z.of_nat (List.length (frame_payload f)))) as [Hb|];
    [unfold MAX_PAYLOAD_LENGTH in *; solve_range|].
  unfold frame_bytes, frame_header. by rewrite <- !app_assoc.
Qed.

Lemma read_exact_app n b rest : List.length b = n → read_exact n (b ++ rest) = (Ok b, rest).
Proof.
  intros <-. unfold read_exact. rewrite decide_False by (rewrite length_app; lia).
  by rewrite take_app_length, drop_app_length.
Qed.

Lemma read_exact_Ok n s b rest :
  read_exact n s = (Ok b, rest) → s = b ++ rest ∧ List.length b = n.
Proof.
  unfold read_exact. case_decide; [done|]. intros [= <- <-].
  rewrite length_take. split; [by rewrite take_drop | lia].
Qed.

Lemma from_to_be_id n z : u_in (8 * Z.of_nat n) z → from_be_bytes (to_be_bytes n z) = z.
Proof.
  intros Hz. rewrite from_to_be_bytes. apply Z.mod_small. unfold u_in in Hz.
  by rewrite <- (Z.pow_mul_r 2 8) by lia.
Qed.

(** The fields of a header. *)
Lemma header_fields f :
  frame_ok f →
  from_be_bytes (take 4 (frame_header f)) = MAGIC ∧
  from_be_bytes (take 1 (drop 4 (frame_header f))) = VERSION ∧
  from_be_bytes (take 1 (drop 5 (frame_header f))) = frame_type f ∧
  from_be_bytes (take 4 (drop 6 (frame_header f))) = Z.of_nat (List.length (frame_payload f)).
Proof.
  intros Hf%payload_length. unfold MAX_PAYLOAD_LENGTH in Hf.
  assert (∀ n, u_in 32 n → from_be_bytes (to_be_bytes 4 n) = n) as Hn by (intros; by apply from_to_be_id).
  set (len := Z.of_nat (List.length (frame_payload f))) in *.
  assert (from_be_bytes (to_be_bytes 4 len) = len) as Hlen by (apply Hn; solve_range).
  unfold frame_header. fold len. split; [done|]. split; [done|]. split; [by destruct f|].
  rewrite <- Hlen at 2. done.
Qed.

Lemma read_frame_ok f rest : frame_ok f → read_frame (frame_bytes f ++ rest) = (Ok f, rest).
Proof.
  intros Hf. destruct (header_fields f Hf) as (Hm & Hv & Ht & Hl). pose proof (payload_length f Hf).
  unfold read_frame. apply st_bind_Ok. exists (frame_type f, frame_payload f), rest. split.
  - unfold frame_bytes. rewrite <- app_assoc. apply st_bind_Ok. do 2 eexists.
    split; [by apply read_exact_app|]. cbv zeta.
    rewrite Hm, Hv, Ht, Hl, !Z.eqb_refl. cbn [negb].
    destruct (Z.ltb_spec MAX_PAYLOAD_LENGTH (Z.of_nat (List.length (frame_payload f)))); [lia|].
    destruct (Z.ltb_spec MAX_PAYLOAD_LENGTH MAX_PAYLOAD_LENGTH); [lia|]. cbn [orb].
    apply st_bind_Ok. do 2 eexists. split; [apply read_exact_app; lia | done].
  - unfold lift. f_equal.
    pose proof (codec_roundtrip _ _ _ (frame_codec (frame_type f)) f [] (conj eq_refl Hf)) as Hd.
    rewrite app_nil_r in Hd. cbv [mbind st_mbind]. by rewrite Hd.
Qed.

Lemma read_frame_canonical_bytes s f rest :
  read_frame s = (Ok f, rest) → s = frame_bytes f ++ rest ∧ frame_ok f.
Proof.
  intros ([t payload] & s1 & Henv & Hd)%st_bind_Ok. unfold lift in Hd. injection Hd as Hd ->.
  assert (decode_frame t payload = (Ok f, [])) as (-> & <- & Hf)%(codec_canonical _ _ _ (frame_codec t)).
  { revert Hd. cbv [mbind st_mbind finish mret st_mret].
    destruct (decode_frame t payload) as [[f'|e] [|x r]]; naive_solver. }
  split; [|done]. rewrite app_nil_r in Henv.
  apply st_bind_Ok in Henv as (header & s2 & [-> Hh]%read_exact_Ok & Henv). cbv zeta in Henv.
  destruct (Z.eqb_spec (from_be_bytes (take 4 header)) MAGIC) as [Hm|]; [|done]. cbn [negb] in Henv.
  destruct (Z.eqb_spec (from_be_bytes (take 1 (drop 4 header))) VERSION) as [Hv|]; [|done].
  cbn [negb] in Henv. case_match; [done|].
  apply st_bind_Ok in Henv as (payload & s3 & [-> Hp]%read_exact_Ok & [= Ht Hpl ->]).
  subst payload. unfold frame_bytes, frame_header. rewrite <- !app_assoc, <- Hm, <- Hv, <- Ht, Hp.
  pose proof (from_be_bytes_range (take 4 (drop 6 header))). rewrite Z2Nat.id by lia.
  unfold HEADER_LENGTH in Hh. rewrite !to_from_be_bytes by (rewrite length_take, ?length_drop; lia).
  rewrite !app_assoc. f_equal. f_equal.
  do 11 (destruct header as [|? header]; [by try discriminate|]); discriminate || done.
Qed.

(** The writer and the reader of a connection. *)
Fixpoint write_frames (fs : list Frame) : Reader unit :=
  match fs with [] => mret tt | f :: fs => _ ← write_frame f; write_frames fs end.
Fixpoint read_frames (n : nat) : Reader (list Frame) :=
  match n with O => mret [] | S n => f ← read_frame; fs ← read_frames n; mret (f :: fs) end.

(** C13: frames survive the wire.  Writing any sequence of frames that the
    format can carry succeeds, and reading back as many frames returns exactly
    them, in order, leaving whatever follows on the connection. *)
Theorem frames_roundtrip (fs : list Frame) (rest : bytes) :
  Forall frame_ok fs →
  ∃ s, write_frames fs [] = (Ok tt, s) ∧ read_frames (List.length fs) (s ++ rest) = (Ok fs, rest).
Proof.
  intros Hfs. exists (concat (frame_bytes <$> fs)). split.
  - assert (∀ s, write_frames fs s = (Ok tt, s ++ concat (frame_bytes <$> fs))) as Hw; [|apply Hw].
    induction Hfs as [|f fs Hf _ IH]; intros s; [by cbn; rewrite app_nil_r|].
    cbn [fmap list_fmap concat write_frames]. apply st_bind_Ok. do 2 eexists.
    split; [by apply write_frame_ok|]. rewrite IH. f_equal. symmetry. apply app_assoc.
  - induction Hfs as [|f fs Hf _ IH]; [done|]. cbn [fmap list_fmap concat List.length read_frames].
    rewrite <- app_assoc. apply st_bind_Ok. do 2 eexists. split; [by apply read_frame_ok|].
    apply st_bind_Ok. do 2 eexists. split; [exact IH | done].
Qed.

(** the reader accepts nothing but frames as the writer writes them.  When
    [read_frame] returns a frame, the bytes it consumed are exactly those
    [write_frame] produces for that frame, and the frame respects every width,
    cap and string rule of the format. *)
Theorem read_frame_canonical (s rest : bytes) (f : Frame) :
  read_frame s = (Ok f, rest) →
  frame_ok f ∧ ∃ e, write_frame f [] = (Ok tt, e) ∧ s = e ++ rest.
Proof.
  intros [-> Hf]%read_frame_canonical_bytes. split; [done|].
  exists (frame_bytes f). split; [by apply write_frame_ok | done].
Qed.

(** a connection cut inside a frame never yields a frame: every proper
    prefix of an encoded frame is refused with an error. *)
Theorem truncated_frame_refused (f : Frame) (e cut lost : bytes) :
  frame_ok f → write_frame f [] = (Ok tt, e) → e = cut ++ lost → lost ≠ [] →
  is_ok (read_frame cut).1 = false.
Proof.
  intros Hf Hw -> Hlost. rewrite write_frame_ok in Hw by done.
  assert (frame_bytes f = cut ++ lost) as Hcut by (change (frame_bytes f) with ([] ++ frame_bytes f); congruence).
  destruct (read_frame cut) as [[f'|x] rest] eqn:Hr; [|done]. exfalso.
  apply read_frame_canonical_bytes in Hr as [-> Hf'].
  pose proof (read_frame_ok f [] Hf) as Hread. rewrite app_nil_r in Hread.
  rewrite Hcut, <- app_assoc, read_frame_ok in Hread by done.
  injection Hread as _ Hnil. apply Hlost. by apply app_nil in Hnil as [_ ?].
Qed.

(** The compatibility check of two capabilities passes exactly when the
    transports are equal, the fabric tags are equal and not empty, and both
    message sizes are positive; so it does not matter which side checks. *)
Lemma compatible_iff (a b : UrmaCapability) :
  (compatible a b = Ok tt ↔
     transport_type a = transport_type b ∧ fabric_tag a = fabric_tag b ∧ fabric_tag a ≠ "" ∧
     max_message_size a ≠ 0 ∧ max_message_size b ≠ 0) ∧
  (compatible a b = Ok tt ↔ compatible b a = Ok tt).
Proof.
  assert (∀ a b, compatible a b = Ok tt ↔
     transport_type a = transport_type b ∧ fabric_tag a = fabric_tag b ∧ fabric_tag a ≠ "" ∧
     max_message_size a ≠ 0 ∧ max_message_size b ≠ 0) as Hiff.
  { clear. intros a b. unfold compatible.
    destruct (Z.eqb_spec (transport_type a) (transport_type b)); [|naive_solver]. cbn [negb].
    repeat case_bool_decide; cbn [orb]; try (split; [discriminate | intuition congruence]).
    destruct (Z.eqb_spec (max_message_size a) 0), (Z.eqb_spec (max_message_size b) 0); cbn [orb];
      (split; [(discriminate || intuition congruence) | intuition congruence]). }
  split; [apply Hiff|]. rewrite !Hiff.
  split; intros (? & ? & ? & ? & ?); split_and!; congruence.
Qed.

End WireFacts.

Module WireWitness.
Import Wire WireFacts.

Definition cap : UrmaCapability := mkUrmaCapability 3 "rack-a" 65536.
Definition frames : list Frame :=
  [Discover; FCapability (mkUrmaAdvertisement cap 4008); Connect (mkLaneConnect cap [x01; xff]);
   Request 7 (mkPieceRequest KPersistentPiece "task" 3 65536 4);
   RecvPosted 7 (mkReceiveWindow 0 4); FError 7 (mkRendezvousError 5 "busy")].

Lemma frames_ok : Forall frame_ok frames.
Proof. repeat constructor; vm_compute; done. Qed.

Lemma frames_roundtrip_witness : ∃ s, write_frames frames [] = (Ok tt, s) ∧
  read_frames 6 (s ++ [x2a]) = (Ok frames, [x2a]).
Proof. apply (frames_roundtrip frames [x2a]). apply frames_ok. Defined.

Definition done_bytes : bytes := (write_frame (Done 9) []).2.

Lemma read_frame_canonical_witness :
  frame_ok (Done 9) ∧ ∃ e, write_frame (Done 9) [] = (Ok tt, e) ∧ done_bytes ++ [x2a] = e ++ [x2a].
Proof. apply (read_frame_canonical (done_bytes ++ [x2a])). vm_compute. reflexivity. Defined.

Lemma truncated_frame_refused_witness : is_ok (read_frame (take 11 done_bytes)).1 = false.
Proof.
  apply (truncated_frame_refused (Done 9) done_bytes (take 11 done_bytes) (drop 11 done_bytes)).
  - vm_compute. done.
  - vm_compute. reflexivity.
  - by rewrite take_drop.
  - vm_compute. discriminate.
Defined.
End WireWitness.
