(* ===== verification/PieceProtocol.v ===== *)
(** * Claiming, waiting for and finishing a piece

    The concurrent protocol around one piece identifier: [PieceNotifier]
    ([src/dragonfly-client-storage/src/piece_notifier.rs]) and the methods of
    [Storage] ([src/dragonfly-client-storage/src/lib.rs]) that a downloading
    task runs: [wait_for_piece_finished], [download_piece_started],
    [download_piece_from_*_finished] and [download_piece_failed].  (The
    persistent, persistent-cache and cache variants have the same bodies.)

    Every access to the notifier map and every access to the metadata database
    is one atomic step; the accesses of different tasks interleave freely, so
    a "get, then delete" of [Metadata] is two steps.  The shared state of the
    piece is its notifier (a [DashMap] entry, with the identity of its [Notify])
    and its record; a record is abstracted to whether it is finished. *)

From S2P Require Import Prelude.
From Stdlib Require Import ZArith Lia Relations.
From stdpp Require Import base tactics list gmap relations.

Module PieceProtocol.

(** The record of the piece: [finished_at] is unset, or set. *)
Inductive Record_ : Type := Started | Finished.

(** Where a task is.  [W..] is in [wait_for_piece_finished] called from
    [download_piece_started], [O..] in its [Claim::Owner] branch, [F..] in
    [download_piece_from_*_finished], [X..] in [download_piece_failed]. *)
Inductive Pc : Type :=
| Idle
| WGet                     (* self.get_piece(piece_id) *)
| WNotifier                (* self.piece_notifier.get(piece_id) at the loop head *)
| WSomeGet (n : nat)       (* Some(notifier): enabled, then self.get_piece *)
| WSelect (n : nat)        (* select! { notified, fallback sleep, wait_timeout } *)
| WTimeoutGet              (* wait_timeout: wait_for_piece_finished_failed, its get *)
| WTimeoutDelete           (*   and its delete *)
| WTimeoutRemove           (*   self.piece_notifier.remove_and_notify *)
| WNoneGet1                (* None: get_piece *)
| WNoneNotifier1           (*   piece_notifier.get(piece_id).is_some() *)
| WNoneGet2                (*   get_piece *)
| WNoneNotifier2           (*   piece_notifier.get(piece_id).is_some() *)
| WNoneFailGet             (*   wait_for_piece_finished_failed, its get *)
| WNoneFailDelete          (*   and its delete *)
| ClaimPc                  (* Err(_) => self.piece_notifier.claim(piece_id) *)
| InFlight (n : nat)       (* Claim::InFlight(notifier): select! *)
| OGet                     (* Claim::Owner: self.get_piece *)
| ORemove                  (*   finished: remove_and_notify, return the piece *)
| OPut                     (*   metadata.download_piece_started *)
| OErrRemove               (*   inspect_err: remove_and_notify *)
| Downloading              (* the caller downloads the piece *)
| FGet                     (* metadata.download_piece_finished, its get *)
| FPut                     (*   and its put *)
| FRemove                  (* remove_and_notify *)
| XGet                     (* metadata.download_piece_failed, its get *)
| XDelete                  (*   and its delete *)
| XRemove                  (* remove_and_notify *)
| Returned (finished : bool).

#[export] Instance Pc_eq_dec : EqDecision Pc.
Proof. solve_decision. Defined.

(** The shared state and the tasks. *)
Record State := mkState {
  notifier : option nat;       (* the entry of the piece in [notifiers] *)
  next : nat;                  (* the identity of the next [Notify::new()] *)
  record : option Record_;     (* the record of the piece in the database *)
  pc : nat → Pc;
}.

Definition set_pc (t : nat) (p : Pc) (s : State) : State :=
  mkState (notifier s) (next s) (record s) (λ t', if decide (t' = t) then p else pc s t').

(** [PieceNotifier::claim], the vacant entry. *)
Definition claim_vacant (s : State) : State :=
  mkState (Some (next s)) (S (next s)) (record s) (pc s).
(** [PieceNotifier::remove_and_notify]; the waiters of the removed [Notify]
    see that it is no longer the entry. *)
Definition remove_and_notify (s : State) : State :=
  mkState None (next s) (record s) (pc s).
Definition set_record (r : option Record_) (s : State) : State :=
  mkState (notifier s) (next s) r (pc s).

(** What [get_piece] shows: [None] stands for an error of the database or an
    absent record, both of which end [wait_for_piece_finished] with an error. *)
Inductive reads (s : State) : option Record_ → Prop :=
| reads_record : reads s (record s)
| reads_error : reads s None.

(** One atomic step of task [t]; [timeouts] allows the branch of
    [wait_for_piece_finished] taken when the waiting time is over. *)
Inductive step_of (timeouts : bool) (t : nat) (s : State) : State → Prop :=
(* download_piece_started is called *)
| step_start : pc s t = Idle → step_of timeouts t s (set_pc t WGet s)
(* wait_for_piece_finished *)
| step_wget_fin : pc s t = WGet → record s = Some Finished →
    step_of timeouts t s (set_pc t (Returned true) s)
| step_wget_started : pc s t = WGet → record s = Some Started →
    step_of timeouts t s (set_pc t WNotifier s)
| step_wget_none : pc s t = WGet → reads s None → step_of timeouts t s (set_pc t ClaimPc s)
| step_wnotifier_some n : pc s t = WNotifier → notifier s = Some n →
    step_of timeouts t s (set_pc t (WSomeGet n) s)
| step_wnotifier_none : pc s t = WNotifier → notifier s = None →
    step_of timeouts t s (set_pc t WNoneGet1 s)
| step_wsome_fin n : pc s t = WSomeGet n → record s = Some Finished →
    step_of timeouts t s (set_pc t (Returned true) s)
| step_wsome_started n : pc s t = WSomeGet n → record s = Some Started →
    step_of timeouts t s (set_pc t (WSelect n) s)
| step_wsome_none n : pc s t = WSomeGet n → reads s None →
    step_of timeouts t s (set_pc t ClaimPc s)
| step_wselect_notified n : pc s t = WSelect n → notifier s ≠ Some n →
    step_of timeouts t s (set_pc t WNotifier s)
| step_wselect_sleep n : pc s t = WSelect n → step_of timeouts t s (set_pc t WNotifier s)
| step_wselect_timeout n : pc s t = WSelect n → timeouts = true →
    step_of timeouts t s (set_pc t WTimeoutGet s)
| step_wtimeout_get_fin : pc s t = WTimeoutGet → record s = Some Finished →
    step_of timeouts t s (set_pc t WTimeoutRemove s)
| step_wtimeout_get : pc s t = WTimeoutGet → record s ≠ Some Finished →
    step_of timeouts t s (set_pc t WTimeoutDelete s)
| step_wtimeout_get_err : pc s t = WTimeoutGet →
    step_of timeouts t s (set_pc t WTimeoutRemove s)
| step_wtimeout_delete : pc s t = WTimeoutDelete →
    step_of timeouts t s (set_pc t WTimeoutRemove (set_record None s))
| step_wtimeout_delete_err : pc s t = WTimeoutDelete →
    step_of timeouts t s (set_pc t WTimeoutRemove s)
| step_wtimeout_remove : pc s t = WTimeoutRemove →
    step_of timeouts t s (set_pc t ClaimPc (remove_and_notify s))
| step_wnone_get1_fin : pc s t = WNoneGet1 → record s = Some Finished →
    step_of timeouts t s (set_pc t (Returned true) s)
| step_wnone_get1 : pc s t = WNoneGet1 → record s = Some Started →
    step_of timeouts t s (set_pc t WNoneNotifier1 s)
| step_wnone_get1_none : pc s t = WNoneGet1 → reads s None →
    step_of timeouts t s (set_pc t ClaimPc s)
| step_wnone_notifier1_some n : pc s t = WNoneNotifier1 → notifier s = Some n →
    step_of timeouts t s (set_pc t WNotifier s)
| step_wnone_notifier1_none : pc s t = WNoneNotifier1 → notifier s = None →
    step_of timeouts t s (set_pc t WNoneGet2 s)
| step_wnone_get2_fin : pc s t = WNoneGet2 → record s = Some Finished →
    step_of timeouts t s (set_pc t (Returned true) s)
| step_wnone_get2 : pc s t = WNoneGet2 → record s = Some Started →
    step_of timeouts t s (set_pc t WNoneNotifier2 s)
| step_wnone_get2_none : pc s t = WNoneGet2 → reads s None →
    step_of timeouts t s (set_pc t ClaimPc s)
| step_wnone_notifier2_some n : pc s t = WNoneNotifier2 → notifier s = Some n →
    step_of timeouts t s (set_pc t WNotifier s)
| step_wnone_notifier2_none : pc s t = WNoneNotifier2 → notifier s = None →
    step_of timeouts t s (set_pc t WNoneFailGet s)
| step_wnone_fail_get_fin : pc s t = WNoneFailGet → record s = Some Finished →
    step_of timeouts t s (set_pc t ClaimPc s)
| step_wnone_fail_get : pc s t = WNoneFailGet → record s ≠ Some Finished →
    step_of timeouts t s (set_pc t WNoneFailDelete s)
| step_wnone_fail_get_err : pc s t = WNoneFailGet → step_of timeouts t s (set_pc t ClaimPc s)
| step_wnone_fail_delete : pc s t = WNoneFailDelete →
    step_of timeouts t s (set_pc t ClaimPc (set_record None s))
| step_wnone_fail_delete_err : pc s t = WNoneFailDelete →
    step_of timeouts t s (set_pc t ClaimPc s)
(* the claim of download_piece_started *)
| step_claim_owner : pc s t = ClaimPc → notifier s = None →
    step_of timeouts t s (set_pc t OGet (claim_vacant s))
| step_claim_in_flight n : pc s t = ClaimPc → notifier s = Some n →
    step_of timeouts t s (set_pc t (InFlight n) s)
(* upload_piece waits too, and returns the error instead of claiming *)
| step_upload_error : pc s t = ClaimPc → step_of timeouts t s (set_pc t (Returned false) s)
| step_in_flight n : pc s t = InFlight n → step_of timeouts t s (set_pc t WGet s)
| step_oget_fin : pc s t = OGet → record s = Some Finished →
    step_of timeouts t s (set_pc t ORemove s)
| step_oget : pc s t = OGet → record s ≠ Some Finished → step_of timeouts t s (set_pc t OPut s)
| step_oget_err : pc s t = OGet → step_of timeouts t s (set_pc t OErrRemove s)
| step_oremove : pc s t = ORemove →
    step_of timeouts t s (set_pc t (Returned true) (remove_and_notify s))
| step_oput : pc s t = OPut →
    step_of timeouts t s (set_pc t Downloading (set_record (Some Started) s))
| step_oput_err : pc s t = OPut → step_of timeouts t s (set_pc t OErrRemove s)
| step_oerr_remove : pc s t = OErrRemove →
    step_of timeouts t s (set_pc t (Returned false) (remove_and_notify s))
(* the download, and download_piece_from_*_finished *)
| step_downloaded : pc s t = Downloading → step_of timeouts t s (set_pc t FGet s)
| step_download_failed : pc s t = Downloading → step_of timeouts t s (set_pc t XGet s)
| step_fget r : pc s t = FGet → record s = Some r → step_of timeouts t s (set_pc t FPut s)
| step_fget_none : pc s t = FGet → reads s None → step_of timeouts t s (set_pc t XGet s)
| step_fput : pc s t = FPut →
    step_of timeouts t s (set_pc t FRemove (set_record (Some Finished) s))
| step_fput_err : pc s t = FPut → step_of timeouts t s (set_pc t XGet s)
| step_fremove : pc s t = FRemove →
    step_of timeouts t s (set_pc t (Returned true) (remove_and_notify s))
(* download_piece_failed *)
| step_xget_fin : pc s t = XGet → record s = Some Finished →
    step_of timeouts t s (set_pc t XRemove s)
| step_xget : pc s t = XGet → record s ≠ Some Finished → step_of timeouts t s (set_pc t XDelete s)
| step_xget_err : pc s t = XGet → step_of timeouts t s (set_pc t XRemove s)
| step_xdelete : pc s t = XDelete →
    step_of timeouts t s (set_pc t XRemove (set_record None s))
| step_xdelete_err : pc s t = XDelete → step_of timeouts t s (set_pc t XRemove s)
| step_xremove : pc s t = XRemove →
    step_of timeouts t s (set_pc t (Returned false) (remove_and_notify s)).

Definition step (timeouts : bool) (s s' : State) : Prop := ∃ t, step_of timeouts t s s'.

(** No task has started and no download is in flight; the database may hold a
    record of an earlier process. *)
Definition initial (r : option Record_) : State := mkState None 0 r (λ _, Idle).

Definition reachable (timeouts : bool) (s : State) : Prop :=
  ∃ r, rtc (step timeouts) (initial r) s.

(** The task holds the claim of the piece. *)
Definition owns (p : Pc) : bool :=
  match p with
  | OGet | ORemove | OPut | OErrRemove | Downloading | FGet | FPut | FRemove
  | XGet | XDelete | XRemove => true
  | _ => false
  end.

(** ** One downloader at a time *)

(** The notifier is there exactly while a task owns the claim, and one task at
    most does. *)
Record exclusive (s : State) : Prop := {
  excl_notifier t : owns (pc s t) = true → is_Some (notifier s);
  excl_unique t1 t2 : owns (pc s t1) = true → owns (pc s t2) = true → t1 = t2;
  excl_no_timeout t : pc s t ≠ WTimeoutGet ∧ pc s t ≠ WTimeoutDelete ∧ pc s t ≠ WTimeoutRemove;
}.

Lemma pc_set_pc t p s t' : pc (set_pc t p s) t' = if decide (t' = t) then p else pc s t'.
Proof. done. Qed.

(** A step that leaves the notifier alone, by a task that stays inside or
    outside the claim and off the timeout branch. *)
Lemma exclusive_move s s' t p :
  exclusive s → notifier s' = notifier s → pc s' = pc s → owns p = owns (pc s t) →
  p ≠ WTimeoutGet ∧ p ≠ WTimeoutDelete ∧ p ≠ WTimeoutRemove → exclusive (set_pc t p s').
Proof.
  intros [Hn Hu Ht] Hns Hpc Ho Hp. split.
  - intros t1. rewrite pc_set_pc, Hpc. simpl. rewrite Hns.
    case_decide as Heq; [rewrite Ho; subst|]; apply Hn.
  - intros t1 t2. rewrite !pc_set_pc, Hpc. repeat case_decide; subst; rewrite ?Ho; try done; apply Hu.
  - intros t1. rewrite pc_set_pc, Hpc. case_decide; [done | apply Ht].
Qed.

(** The owner leaves and removes the notifier. *)
Lemma exclusive_release s t b :
  exclusive s → owns (pc s t) = true → exclusive (set_pc t (Returned b) (remove_and_notify s)).
Proof.
  intros [Hn Hu Ht] Ho.
  assert (∀ t', owns (pc (set_pc t (Returned b) (remove_and_notify s)) t') = false) as Hnone.
  { intros t'. rewrite pc_set_pc. case_decide as Heq; [done|]. simpl.
    destruct (owns (pc s t')) eqn:Ho'; [|done]. exfalso. by apply Heq, Hu. }
  split.
  - intros t'. by rewrite Hnone.
  - intros t1 t2. by rewrite Hnone.
  - intros t'. rewrite pc_set_pc. case_decide; [done | apply Ht].
Qed.

(** A task claims the vacant entry. *)
Lemma exclusive_claim s t :
  exclusive s → notifier s = None → exclusive (set_pc t OGet (claim_vacant s)).
Proof.
  intros [Hn Hu Ht] Hnone.
  assert (∀ t', owns (pc s t') = false) as Hfree.
  { intros t'. destruct (owns (pc s t')) eqn:Ho; [|done].
    apply Hn in Ho as [n Hs]. congruence. }
  split.
  - intros t' _. simpl. by eexists.
  - intros t1 t2. rewrite !pc_set_pc. simpl. repeat case_decide; subst; rewrite ?Hfree; done.
  - intros t'. rewrite pc_set_pc. case_decide; [done | apply Ht].
Qed.

Lemma exclusive_step s s' : exclusive s → step false s s' → exclusive s'.
Proof.
  intros Hex [t Hstep].
  destruct Hstep; try discriminate;
    try (by apply exclusive_claim);
    try (by apply exclusive_release; [done | rewrite H]);
    try (by apply (exclusive_move s); [done..| rewrite H |]);
    exfalso; by destruct (excl_no_timeout _ Hex t) as (? & ? & ?).
Qed.

Lemma exclusive_initial r : exclusive (initial r).
Proof. by split. Qed.

(** C12: unless a waiter gives up, at most one task holds the claim of a piece
    at any time, in every interleaving of any number of tasks, with database
    errors and failing downloads; and while a task holds it, the notifier of
    the piece is in place. *)
Theorem single_downloader (s : State) (t1 t2 : nat) :
  reachable false s → owns (pc s t1) = true →
  is_Some (notifier s) ∧ (owns (pc s t2) = true → t1 = t2).
Proof.
  intros [r Hr] Ho. assert (exclusive s) as [Hn Hu _].
  { revert Hr. generalize (exclusive_initial r). generalize (initial r).
    intros s0 Hex Hr. induction Hr; eauto using exclusive_step. }
  split; [by eapply Hn | by apply Hu].
Qed.

(** ** Finished pieces *)

(** The task has decided to overwrite or delete the record. *)
Definition destroys (p : Pc) : bool :=
  match p with
  | WTimeoutDelete | WNoneFailDelete | XDelete | OPut => true
  | _ => false
  end.

(** The piece is finished and no task is about to destroy its record. *)
Definition settled (s : State) : Prop :=
  record s = Some Finished ∧ ∀ t, destroys (pc s t) = false.

Lemma settled_step timeouts s s' : settled s → step timeouts s s' → settled s'.
Proof.
  intros [Hr Hd] [t Hstep]. pose proof (Hd t) as Hdt.
  destruct Hstep; try congruence; try (by rewrite H in Hdt);
    (split; [done|]); intros t'; rewrite pc_set_pc; case_decide; try done; apply Hd.
Qed.

(** a settled piece stays finished for ever: when the record is finished
    and no task has already decided to overwrite or delete it, no
    interleaving of waiting, claiming, failing and timing out tasks removes
    it. *)
Theorem finished_is_stable (timeouts : bool) (s s' : State) :
  record s = Some Finished → (∀ t, destroys (pc s t) = false) →
  rtc (step timeouts) s s' → record s' = Some Finished.
Proof.
  intros Hr Hd Hs. assert (settled s') as [? _]; [|done].
  assert (settled s) as Hset by done. clear Hr Hd.
  induction Hs; eauto using settled_step.
Qed.

(** ** What interleaving and timeouts allow *)

(** Task [t] makes the step [c]. *)
Ltac go t c := eapply rtc_l; [exists t; eapply c; solve [done | constructor]|].

(** C24: a waiter that times out breaks the exclusion.  It removes the notifier
    of the running download, so a later claim succeeds and two tasks download
    the piece at the same time. *)
Theorem two_downloaders_after_timeout :
  ∃ s, reachable true s ∧ pc s 0 = Downloading ∧ pc s 1 = Downloading.
Proof.
  eexists. split; [exists None|].
  - go 0 step_start. go 0 step_wget_none. go 0 step_claim_owner. go 0 step_oget. go 0 step_oput.
    go 1 step_start. go 1 step_wget_started. go 1 step_wnotifier_some. go 1 step_wsome_started.
    go 1 step_wselect_timeout. go 1 step_wtimeout_get. go 1 step_wtimeout_delete.
    go 1 step_wtimeout_remove. go 1 step_claim_owner. go 1 step_oget. go 1 step_oput.
    apply rtc_refl.
  - done.
Qed.

(** C25: the guard "keep the record if the piece is finished" is not atomic.
    A waiter that found a stale record can read it as unfinished, and delete it
    after another task has downloaded and finished the piece: the finished
    piece is erased, without any timeout or database error. *)
Theorem finished_piece_erased :
  ∃ s s', reachable false s ∧ pc s 1 = Returned true ∧ record s = Some Finished ∧
    step false s s' ∧ record s' = None.
Proof.
  do 2 eexists. split; [exists (Some Started)|].
  - go 0 step_start. go 0 step_wget_started. go 0 step_wnotifier_none. go 0 step_wnone_get1.
    go 0 step_wnone_notifier1_none. go 0 step_wnone_get2. go 0 step_wnone_notifier2_none.
    go 0 step_wnone_fail_get.
    go 1 step_start. go 1 step_wget_started. go 1 step_wnotifier_none. go 1 step_wnone_get1.
    go 1 step_wnone_notifier1_none. go 1 step_wnone_get2. go 1 step_wnone_notifier2_none.
    go 1 step_wnone_fail_get. go 1 step_wnone_fail_delete.
    go 1 step_claim_owner. go 1 step_oget. go 1 step_oput. go 1 step_downloaded. go 1 step_fget. go 1 step_fput. go 1 step_fremove. apply rtc_refl.
  - split; [done|]. split; [done|]. split; [exists 0; by apply step_wnone_fail_delete | done].
Qed.
End PieceProtocol.

Module PieceProtocolWitness.
Import PieceProtocol.

(** Task 0 has claimed the piece. *)
Definition claimed : State :=
  set_pc 0 OGet (claim_vacant (set_pc 0 ClaimPc (set_pc 0 WGet (initial None)))).

Lemma claimed_reachable : reachable false claimed.
Proof.
  exists None. go 0 step_start. go 0 step_wget_none. go 0 step_claim_owner. apply rtc_refl.
Qed.

Lemma single_downloader_witness :
  is_Some (notifier claimed) ∧ (owns (pc claimed 1) = true → 0%nat = 1%nat).
Proof. apply single_downloader; [apply claimed_reachable | reflexivity]. Defined.

Lemma finished_is_stable_witness :
  record (set_pc 0 WGet (initial (Some Finished))) = Some Finished.
Proof.
  apply (finished_is_stable true (initial (Some Finished))); [done | done |].
  go 0 step_start. apply rtc_refl.
Defined.
End PieceProtocolWitness.
