(* ===== verification/Storage.v ===== *)
(** * The storage facade

    Models [struct Storage] of [src/dragonfly-client-storage/src/lib.rs] as one
    task sees it: the metadata store, the in-memory cache, the notifiers of the
    pieces in flight and the content on disk.  The disk is the interface
    [Content] (its implementation is file I/O).  Where a method waits for
    another task, the others run: the environment [env] may change the state in
    any way and decides which branch of the [select!] fires.  The calls of the
    content and of the cache are awaits as well, but each of them is one step
    here, during which the environment does not run: what follows a write is
    stated of the state before it.  The interleaving of concurrent tasks, also
    while the content is written, is in [PieceProtocol]. *)

From S2P Require Import Prelude Errors LruCache MetadataTypes Cache Engine Metadata Wire.
From Stdlib Require Import ZArith Lia String Strings.Byte.
From stdpp Require Import base tactics list gmap strings.
Local Open Scope Z_scope.

(** The three kinds of tasks with content on disk. *)
Inductive Kind : Type := KTask | KPTask (k : PersistentKind).

(** The kind of task of a [rendezvous::PieceKind]. *)
Definition kind_of (kind : Wire.PieceKind) : Kind :=
  match kind with
  | Wire.KPiece => KTask
  | Wire.KPersistentPiece => KPTask KPersistent
  | Wire.KPersistentCachePiece => KPTask KPersistentCache
  end.

(** [io::WriteRangeResponse]. *)
Record WriteRangeResponse := mkWriteRangeResponse { wr_length : Z; wr_hash : string }.

(** The methods of [content::Content] the storage calls. *)
Class Content (C : Type) := {
  content_create_dir : PersistentKind → string → ST C DFError unit;
  content_create_task : Kind → string → Z → ST C DFError unit;
  content_delete_task : Kind → string → ST C DFError unit;
  content_write_piece : Kind → string → Z → Z → Bytes → ST C DFError WriteRangeResponse;
  content_write_piece_from_urma_stream :
    Kind → string → string → Z → Z → Bytes → Duration → ST C DFError WriteRangeResponse;
  content_read_piece : Kind → string → Z → Z → option Range → ST C DFError Bytes;
  content_map_piece : Kind → string → Z → Z → ST C DFError Bytes;
}.

(** [Digest::new(algorithm, encoded).to_string()]
    ([src/dragonfly-client-util/src/digest/mod.rs]). *)
Inductive Algorithm : Type := Crc32 | Sha256 | Sha512.
Record Digest := mkDigest { algorithm : Algorithm; encoded : string }.
Definition SEPARATOR : string := ":".
Definition Algorithm_to_string (a : Algorithm) : string :=
  match a with Crc32 => "crc32" | Sha256 => "sha256" | Sha512 => "sha512" end.
Definition Digest_to_string (d : Digest) : string :=
  Algorithm_to_string (algorithm d) +:+ SEPARATOR +:+ encoded d.

(** The branch of a [select!] that fires. *)
Inductive Wake : Type := Notified | FallbackInterval | WaitTimeout.

Module Storage.
Section storage.
Context {E : Type} `{Operations E} `{MetadataBincode} (clock : nat → NaiveDateTime).
Context {L : Type} `{LruApi string Cache.CTask L}.
Context {C : Type} `{Content C}.
(** [crc32fast], printed in decimal. *)
Context (crc32 : Bytes → string).

(** [struct Storage]; [awaits] counts the awaits of the task. *)
Record Storage := mkStorage {
  metadata : Metadata.Metadata E;
  content : C;
  cache : Cache.Cache L;
  notifiers : gset string;
  awaits : nat;
}.

Definition set_metadata (m : Metadata.Metadata E) (s : Storage) : Storage :=
  mkStorage m (content s) (cache s) (notifiers s) (awaits s).
Definition set_content (c : C) (s : Storage) : Storage :=
  mkStorage (metadata s) c (cache s) (notifiers s) (awaits s).
Definition set_cache (c : Cache.Cache L) (s : Storage) : Storage :=
  mkStorage (metadata s) (content s) c (notifiers s) (awaits s).
Definition set_notifiers (n : gset string) (s : Storage) : Storage :=
  mkStorage (metadata s) (content s) (cache s) n (awaits s).

(** A method of the storage: it may not return (fuel, or a panic in the cache). *)
Definition R (A : Type) : Type := PR Storage DFError A.

#[global] Instance r_mret : MRet R := λ A, pr_mret A.
#[global] Instance r_mbind : MBind R := λ A B, pr_mbind A B.

Definition fail {A} (e : DFError) : R A := λ s, Some (Err e, s).
(** A result that does not depend on the state. *)
Definition give {A} (r : Result A) : R A := λ s, Some (r, s).
(** [self.metadata.method(..)]. *)
Definition in_metadata {A} (m : ST (Metadata.Metadata E) DFError A) : R A :=
  λ s, let '(r, m') := m (metadata s) in Some (r, set_metadata m' s).
Definition update_metadata (f : Metadata.Metadata E → Metadata.Metadata E) : R unit :=
  λ s, Some (Ok tt, set_metadata (f (metadata s)) s).
(** [self.content.method(..).await], as one step. *)
Definition in_content {A} (m : ST C DFError A) : R A :=
  λ s, let '(r, c) := m (content s) in Some (r, set_content c s).
(** [self.cache.method(..).await]. *)
Definition in_cache {A} (m : UB (Cache.Cache L) (Result A)) : R A :=
  λ s, match m (cache s) with Some (r, c) => Some (r, set_cache c s) | None => None end.
(** [self.piece_notifier.remove_and_notify(piece_id)]. *)
Definition remove_and_notify (piece_id : string) : R unit :=
  λ s, Some (Ok tt, set_notifiers (notifiers s ∖ {[piece_id]}) s).
(** [.unwrap_or_else(|err| error!(..))]. *)
Definition log_err (m : R unit) : R unit :=
  λ s, match m s with Some (_, s') => Some (Ok tt, s') | None => None end.
(** [match m { Ok(..) => .., Err(..) => .. }]. *)
Definition attempt {A} (m : R A) : R (Result A) :=
  λ s, match m s with Some (r, s') => Some (Ok r, s') | None => None end.

(** ** Tasks *)

(** The methods that only update the metadata of a task. *)
Definition prepare_download_task (id : string) : R (Task * bool) :=
  in_metadata (Metadata.prepare_download_task clock id).
Definition download_task_finished (id : string) : R Task :=
  in_metadata (Metadata.download_task_finished clock id).
Definition download_task_failed (id : string) : R Task :=
  in_metadata (Metadata.download_task_failed clock id).
Definition prefetch_task_started (id : string) : R Task :=
  in_metadata (Metadata.prefetch_task_started clock id).
Definition prefetch_task_failed (id : string) : R Task :=
  in_metadata (Metadata.prefetch_task_failed clock id).
Definition create_ptask_finished (k : PersistentKind) (id : string) : R (PTask.PTask k) :=
  in_metadata (Metadata.create_ptask_finished clock k id).
Definition download_ptask_finished (k : PersistentKind) (id : string) : R (PTask.PTask k) :=
  in_metadata (Metadata.download_ptask_finished clock k id).
Definition download_ptask_failed (k : PersistentKind) (id : string) : R (PTask.PTask k) :=
  in_metadata (Metadata.download_ptask_failed clock k id).
Definition persist_ptask (k : PersistentKind) (id : string) : R (PTask.PTask k) :=
  in_metadata (Metadata.persist_ptask clock k id).
Definition download_cache_task_finished (id : string) : R CacheTask :=
  in_metadata (Metadata.download_cache_task_finished clock id).
Definition download_cache_task_failed (id : string) : R CacheTask :=
  in_metadata (Metadata.download_cache_task_failed clock id).
Definition upload_cache_task_finished (id : string) : R CacheTask :=
  in_metadata (Metadata.upload_cache_task_finished clock id).

(** [Storage::delete_task]. *)
Definition delete_task (id : string) : R unit :=
  _ ← log_err (in_metadata (Metadata.delete_task id));
  _ ← log_err (in_metadata (Metadata.delete_pieces id));
  _ ← log_err (in_content (content_delete_task KTask id));
  log_err (in_cache (Cache.delete_task id)).

(** [Storage::delete_persistent_task], [delete_persistent_cache_task]. *)
Definition delete_ptask (k : PersistentKind) (id : string) : R unit :=
  _ ← log_err (in_metadata (Metadata.delete_ptask k id));
  _ ← log_err (in_metadata (Metadata.delete_pieces id));
  log_err (in_content (content_delete_task (KPTask k) id)).

(** [Storage::create_persistent_task_failed], [create_persistent_cache_task_failed]. *)
Definition create_ptask_failed (k : PersistentKind) (id : string) : R unit := delete_ptask k id.

(** [Storage::create_persistent_task], [create_persistent_cache_task]. *)
Definition create_ptask (k : PersistentKind) (id : string) (content_length : Z) : R unit :=
  in_content (content_create_task (KPTask k) id content_length).

(** [Storage::delete_cache_task]. *)
Definition delete_cache_task (id : string) : R unit :=
  _ ← log_err (in_metadata (Metadata.delete_cache_task id));
  _ ← log_err (in_metadata (Metadata.delete_pieces id));
  log_err (in_cache (Cache.delete_task id)).

(** [Storage::download_task_started]. *)
Definition download_task_started (id : string) (piece_length content_length : Z)
    (response_header : option HeaderMap) : R Task :=
  _ ← in_content (content_create_task KTask id content_length);
  in_metadata (Metadata.download_task_started clock id piece_length content_length
                 response_header).

(** [Storage::create_persistent_task_started], [create_persistent_cache_task_started]. *)
Definition create_ptask_started (k : PersistentKind) (id : string) (ttl : Duration)
    (piece_length content_length : Z) : R (PTask.PTask k) :=
  metadata ← in_metadata (Metadata.create_ptask_started clock k id ttl piece_length
                            content_length);
  _ ← in_content (content_create_dir k id);
  mret metadata.

(** [Storage::download_persistent_task_started], [download_persistent_cache_task_started]. *)
Definition download_ptask_started (k : PersistentKind) (id : string) (ttl : Duration)
    (persistent : bool) (piece_length content_length : Z) (created_at : NaiveDateTime)
    : R (PTask.PTask k) :=
  metadata ← in_metadata (Metadata.download_ptask_started clock k id ttl persistent piece_length
                            content_length created_at);
  _ ← in_content (content_create_task (KPTask k) id content_length);
  mret metadata.

(** [Storage::download_cache_task_started]; [fuel] is for the eviction loop. *)
Definition download_cache_task_started (fuel : nat) (id : string)
    (piece_length content_length : Z) (response_header : option HeaderMap) : R CacheTask :=
  _ ← in_cache (_ ← Cache.put_task fuel id content_length; mret (Ok tt));
  in_metadata (Metadata.download_cache_task_started clock id piece_length content_length
                 response_header).

(** ** Finishing a piece *)

Definition digest_of (hash : string) : string := Digest_to_string (mkDigest Crc32 hash).

(** The digest check before a piece from a parent is recorded. *)
Definition check_digest (expected_digest digest : string) : R unit :=
  if decide (expected_digest = "") then mret tt
  else if decide (expected_digest ≠ digest) then fail (DigestMismatch expected_digest digest)
  else mret tt.

(** [Storage::finish_parent_piece]. *)
Definition finish_parent_piece (piece_id : string) (offset : Z)
    (expected_digest parent_id : string) (response : WriteRangeResponse) : R Piece :=
  let length := wr_length response in
  let digest := digest_of (wr_hash response) in
  _ ← check_digest expected_digest digest;
  in_metadata (Metadata.download_piece_finished clock piece_id offset length digest
                 (Some parent_id)).

(** [select! { piece = handle => piece, _ = sleep(timeout) => Err(..) }]: when
    the deadline passes first, the dropped handler leaves the content as
    [timed] says. *)
Definition or_timeout (timed : option (C → C)) (piece_id : string) (handle : R Piece) : R Piece :=
  match timed with
  | None => handle
  | Some f => λ s, Some (Err (DownloadPieceFinishedTimeout piece_id), set_content (f (content s)) s)
  end.

(** [Storage::handle_downloaded_from_source_finished],
    [handle_persistent_downloaded_from_source_finished]. *)
Definition handle_downloaded_from_source_finished (kind : Kind) (piece_id task_id : string)
    (offset length : Z) (stream : Bytes) : R Piece :=
  response ← in_content (content_write_piece kind task_id offset length stream);
  in_metadata (Metadata.download_piece_finished clock piece_id offset length
                 (digest_of (wr_hash response)) None).

(** [Storage::download_piece_from_source_finished],
    [download_persistent_piece_from_source_finished]. *)
Definition download_piece_from_source_finished (kind : Kind) (piece_id task_id : string)
    (offset length : Z) (stream : Bytes) (timed : option (C → C)) : R Piece :=
  piece ← or_timeout timed piece_id
            (handle_downloaded_from_source_finished kind piece_id task_id offset length stream);
  _ ← remove_and_notify piece_id;
  mret piece.

(** [Storage::handle_downloaded_piece_from_parent_finished]. *)
Definition handle_downloaded_piece_from_parent_finished (kind : Kind) (piece_id task_id : string)
    (offset length : Z) (expected_digest parent_id : string) (stream : Bytes) : R Piece :=
  response ← in_content (content_write_piece kind task_id offset length stream);
  finish_parent_piece piece_id offset expected_digest parent_id response.

(** [Storage::download_piece_from_parent_finished]; with [timed = None] it is
    also [download_persistent_piece_from_parent_finished] and
    [download_persistent_cache_piece_from_parent_finished], which have no timeout. *)
Definition download_piece_from_parent_finished (kind : Kind) (piece_id task_id : string)
    (offset length : Z) (expected_digest parent_id : string) (stream : Bytes)
    (timed : option (C → C)) : R Piece :=
  piece ← or_timeout timed piece_id
            (handle_downloaded_piece_from_parent_finished kind piece_id task_id offset length
               expected_digest parent_id stream);
  _ ← remove_and_notify piece_id;
  mret piece.

(** [Storage::download_piece_from_parent_finished_urma],
    [download_persistent_piece_from_parent_finished_urma] and
    [download_persistent_cache_piece_from_parent_finished_urma]: the timeout is
    inside the write, so no handler is dropped. *)
Definition download_piece_from_parent_finished_urma (kind : Kind) (piece_id task_id : string)
    (offset length : Z) (expected_digest parent_id : string) (reader : Bytes)
    (timeout : Duration) : R Piece :=
  response ← in_content (content_write_piece_from_urma_stream kind piece_id task_id offset length
                           reader timeout);
  piece ← finish_parent_piece piece_id offset expected_digest parent_id response;
  _ ← remove_and_notify piece_id;
  mret piece.

(** [Storage::download_piece_failed] and its three variants. *)
Definition download_piece_failed (piece_id : string) : R unit :=
  result ← attempt (in_metadata (Metadata.download_piece_failed piece_id));
  _ ← remove_and_notify piece_id;
  give result.

Definition download_persistent_piece_failed := download_piece_failed.
Definition download_persistent_cache_piece_failed := download_piece_failed.
Definition download_cache_piece_failed := download_piece_failed.

(** [Storage::create_persistent_piece], [create_persistent_cache_piece]. *)
Definition create_ppiece (k : PersistentKind) (piece_id task_id : string) (number offset length : Z)
    (reader : Bytes) : R Piece :=
  response ← in_content (content_write_piece (KPTask k) task_id offset length reader);
  let digest := digest_of (wr_hash response) in
  in_metadata (match k with
               | KPersistent => Metadata.create_persistent_piece
               | KPersistentCache => Metadata.create_persistent_cache_piece
               end clock piece_id number offset length digest).

(** [Storage::register_persistent_piece], [register_persistent_cache_piece]. *)
Definition register_ppiece (k : PersistentKind) (piece_id : string) (number offset length : Z)
    : R Piece :=
  in_metadata (match k with
               | KPersistent => Metadata.create_persistent_piece
               | KPersistentCache => Metadata.create_persistent_cache_piece
               end clock piece_id number offset length "").

(** The variants for the other kinds of tasks, by their names in the source. *)
Definition delete_persistent_cache_task : string → R unit := delete_ptask KPersistentCache.
Definition create_persistent_cache_task_started := create_ptask_started KPersistentCache.
Definition download_persistent_cache_task_started := download_ptask_started KPersistentCache.
Definition create_persistent_cache_piece := create_ppiece KPersistentCache.
Definition register_persistent_cache_piece := register_ppiece KPersistentCache.
Definition handle_persistent_downloaded_from_source_finished :=
  handle_downloaded_from_source_finished (KPTask KPersistent).
Definition download_persistent_piece_from_source_finished :=
  download_piece_from_source_finished (KPTask KPersistent).
Definition download_persistent_piece_from_parent_finished (piece_id task_id : string)
    (offset length : Z) (expected_digest parent_id : string) (stream : Bytes) : R Piece :=
  download_piece_from_parent_finished (KPTask KPersistent) piece_id task_id offset length
    expected_digest parent_id stream None.
Definition download_persistent_cache_piece_from_parent_finished (piece_id task_id : string)
    (offset length : Z) (expected_digest parent_id : string) (stream : Bytes) : R Piece :=
  download_piece_from_parent_finished (KPTask KPersistentCache) piece_id task_id offset length
    expected_digest parent_id stream None.
Definition download_persistent_piece_from_parent_finished_urma :=
  download_piece_from_parent_finished_urma (KPTask KPersistent).
Definition download_persistent_cache_piece_from_parent_finished_urma :=
  download_piece_from_parent_finished_urma (KPTask KPersistentCache).
Definition create_persistent_cache_task_failed := create_ptask_failed KPersistentCache.
Definition create_persistent_cache_task := create_ptask KPersistentCache.
Definition create_persistent_cache_task_finished := create_ptask_finished KPersistentCache.
Definition download_persistent_cache_task_finished := download_ptask_finished KPersistentCache.
Definition download_persistent_cache_task_failed := download_ptask_failed KPersistentCache.
Definition persist_persistent_cache_task := persist_ptask KPersistentCache.

(** ** Cache pieces *)

(** The body shared by the two handlers: [reader] is what the stream yields
    until its end, or its I/O error. *)
Definition store_cache_piece (piece_id task_id : string) (reader : Result Bytes) : R string :=
  content ← give reader;
  _ ← in_cache (Cache.write_piece task_id piece_id content);
  mret (digest_of (crc32 content)).

(** [Storage::handle_downloaded_cache_piece_from_source_finished]. *)
Definition handle_downloaded_cache_piece_from_source_finished (piece_id task_id : string)
    (offset length : Z) (reader : Result Bytes) : R Piece :=
  digest ← store_cache_piece piece_id task_id reader;
  in_metadata (Metadata.download_piece_finished clock piece_id offset length digest None).

(** [Storage::handle_downloaded_cache_piece_from_parent_finished]. *)
Definition handle_downloaded_cache_piece_from_parent_finished (piece_id task_id : string)
    (offset length : Z) (expected_digest parent_id : string) (reader : Result Bytes) : R Piece :=
  digest ← store_cache_piece piece_id task_id reader;
  _ ← check_digest expected_digest digest;
  in_metadata (Metadata.download_piece_finished clock piece_id offset length digest
                 (Some parent_id)).

(** [Storage::download_cache_piece_from_source_finished]. *)
Definition download_cache_piece_from_source_finished (piece_id task_id : string)
    (offset length : Z) (reader : Result Bytes) (timed : option (C → C)) : R Piece :=
  piece ← or_timeout timed piece_id
            (handle_downloaded_cache_piece_from_source_finished piece_id task_id offset length
               reader);
  _ ← remove_and_notify piece_id;
  mret piece.

(** [Storage::download_cache_piece_from_parent_finished]. *)
Definition download_cache_piece_from_parent_finished (piece_id task_id : string)
    (offset length : Z) (expected_digest parent_id : string) (reader : Result Bytes)
    (timed : option (C → C)) : R Piece :=
  piece ← or_timeout timed piece_id
            (handle_downloaded_cache_piece_from_parent_finished piece_id task_id offset length
               expected_digest parent_id reader);
  _ ← remove_and_notify piece_id;
  mret piece.

(** ** Waiting *)

Section wait.
(** At the [n]-th await the other tasks take the state to [(env n s).1]. *)
Context (env : nat → Storage → Storage * Wake).

Definition await_ : R Wake := λ s,
  let '(s', w) := env (awaits s) s in
  Some (Ok w, mkStorage (metadata s') (content s') (cache s') (notifiers s') (S (awaits s))).

(** [self.get_piece(piece_id)?.ok_or_else(|| Error::PieceNotFound(..))?]. *)
Definition get_existing (piece_id : string) : R Piece :=
  r ← in_metadata (Metadata.get_piece piece_id);
  match r with Some piece => mret piece | None => fail (PieceNotFound piece_id) end.

Definition in_flight (piece_id : string) : R bool :=
  λ s, Some (Ok (bool_decide (piece_id ∈ notifiers s)), s).

(** The loop of [wait_for_piece_finished]. *)
Fixpoint wait_loop (fuel : nat) (piece_id : string) : R Piece :=
  match fuel with
  | O => λ _, None
  | S fuel =>
      n ← in_flight piece_id;
      if (n : bool) then
        piece ← get_existing piece_id;
        if Piece.is_finished piece then mret piece
        else
          w ← await_;
          match w with
          | Notified | FallbackInterval => wait_loop fuel piece_id
          | WaitTimeout =>
              _ ← log_err (in_metadata (Metadata.wait_for_piece_finished_failed piece_id));
              _ ← remove_and_notify piece_id;
              fail (WaitForPieceFinishedTimeout piece_id)
          end
      else
        piece ← get_existing piece_id;
        if Piece.is_finished piece then mret piece
        else
          n ← in_flight piece_id;
          if (n : bool) then wait_loop fuel piece_id
          else
            piece ← get_existing piece_id;
            if Piece.is_finished piece then mret piece
            else
              n ← in_flight piece_id;
              if (n : bool) then wait_loop fuel piece_id
              else
                _ ← log_err (in_metadata (Metadata.wait_for_piece_finished_failed piece_id));
                fail (PieceNotFound piece_id)
  end.

(** [Storage::wait_for_piece_finished]; its three variants differ in the name of
    the method that reads the piece, which is [Metadata::get_piece] for all. *)
Definition wait_for_piece_finished (fuel : nat) (piece_id : string) : R Piece :=
  piece ← get_existing piece_id;
  if Piece.is_finished piece then mret piece else wait_loop fuel piece_id.

Definition wait_for_persistent_piece_finished := wait_for_piece_finished.
Definition wait_for_persistent_cache_piece_finished := wait_for_piece_finished.
Definition wait_for_cache_piece_finished := wait_for_piece_finished.

(** [PieceNotifier::claim]: whether the caller becomes the owner. *)
Definition claim (piece_id : string) : R bool :=
  λ s, if decide (piece_id ∈ notifiers s) then Some (Ok false, s)
       else Some (Ok true, set_notifiers ({[piece_id]} ∪ notifiers s) s).

(** [.inspect_err(|_| self.piece_notifier.remove_and_notify(piece_id))]. *)
Definition releasing {A} (piece_id : string) (m : R A) : R A :=
  λ s, match m s with
       | Some (Err e, s') => Some (Err e, set_notifiers (notifiers s' ∖ {[piece_id]}) s')
       | r => r
       end.

(** [Storage::download_piece_started] and its three variants. *)
Fixpoint download_piece_started (fuel : nat) (piece_id : string) (number offset length : Z)
    : R Piece :=
  match fuel with
  | O => λ _, None
  | S fuel' =>
      waited ← attempt (wait_for_piece_finished fuel piece_id);
      match waited with
      | Ok piece => mret piece
      | Err _ =>
          owner ← claim piece_id;
          if (owner : bool) then
            r ← releasing piece_id (in_metadata (Metadata.get_piece piece_id));
            let start := releasing piece_id
              (in_metadata (Metadata.download_piece_started clock piece_id number offset length)) in
            match r with
            | Some piece =>
                if Piece.is_finished piece then _ ← remove_and_notify piece_id; mret piece
                else start
            | None => start
            end
          else
            _ ← await_;
            download_piece_started fuel' piece_id number offset length
      end
  end.

Definition download_persistent_piece_started := download_piece_started.
Definition download_persistent_cache_piece_started := download_piece_started.
Definition download_cache_piece_started := download_piece_started.

(** ** Uploading *)

Definition upload_started (kind : Kind) (id : string) : R unit :=
  update_metadata (match kind with
                   | KTask => Metadata.upload_task_started id
                   | KPTask k => Metadata.upload_ptask_started k id
                   end).
Definition upload_finished (kind : Kind) (id : string) : R unit :=
  update_metadata (match kind with
                   | KTask => Metadata.upload_task_finished id
                   | KPTask k => Metadata.upload_ptask_finished k id
                   end).
Definition upload_failed (kind : Kind) (id : string) : R unit :=
  update_metadata (match kind with
                   | KTask => Metadata.upload_task_failed id
                   | KPTask k => Metadata.upload_ptask_failed k id
                   end).

(** [Storage::upload_piece], [upload_persistent_piece], [upload_persistent_cache_piece]. *)
Definition upload_piece (fuel : nat) (kind : Kind) (piece_id task_id : string)
    (range : option Range) : R (Piece * Bytes) :=
  piece ← wait_for_piece_finished fuel piece_id;
  _ ← upload_started kind task_id;
  r ← attempt (in_content (content_read_piece kind task_id (Piece.offset piece)
                             (Piece.length piece) range));
  match r with
  | Ok reader => _ ← upload_finished kind task_id; mret (piece, reader)
  | Err err => _ ← upload_failed kind task_id; fail err
  end.

Definition upload_persistent_piece (fuel : nat) := upload_piece fuel (KPTask KPersistent).
Definition upload_persistent_cache_piece (fuel : nat) := upload_piece fuel (KPTask KPersistentCache).

(** [Storage::map_upload_piece]. *)
Definition map_upload_piece (fuel : nat) (piece_id task_id : string) (kind : Wire.PieceKind)
    : R Bytes :=
  piece ← match kind with
          | Wire.KPiece => wait_for_piece_finished fuel piece_id
          | Wire.KPersistentPiece => wait_for_persistent_piece_finished fuel piece_id
          | Wire.KPersistentCachePiece => wait_for_persistent_cache_piece_finished fuel piece_id
          end;
  contains ← in_cache (b ← Cache.contains_piece task_id piece_id; mret (Ok b));
  if (contains : bool) then
    fail (Unsupported "urma mmap upload is unavailable for cache-resident pieces")
  else
    let kind := kind_of kind in
    _ ← upload_started kind task_id;
    r ← attempt (in_content (content_map_piece kind task_id (Piece.offset piece)
                               (Piece.length piece)));
    match r with
    | Ok mapped => _ ← upload_finished kind task_id; mret mapped
    | Err err => _ ← upload_failed kind task_id; fail err
    end.

(** [Storage::upload_cache_piece]. *)
Definition upload_cache_piece (fuel : nat) (piece_id task_id : string) (range : option Range)
    : R Bytes :=
  piece ← wait_for_cache_piece_finished fuel piece_id;
  _ ← in_metadata (Metadata.upload_cache_task_started clock task_id);
  contains ← in_cache (b ← Cache.contains_piece task_id piece_id; mret (Ok b));
  if (contains : bool) then
    r ← attempt (in_cache (Cache.read_piece task_id piece_id piece range));
    match r with
    | Ok reader => _ ← in_metadata (Metadata.upload_cache_task_finished clock task_id); mret reader
    | Err err => _ ← in_metadata (Metadata.upload_cache_task_failed clock task_id); fail err
    end
  else
    _ ← in_metadata (Metadata.upload_cache_task_failed clock task_id);
    fail (PieceNotFound piece_id).
End wait.
End storage.
End Storage.
