(* ===== verification/StorageFacts.v ===== *)
(** * Properties of the storage facade

    The digest check of pieces from parents, the upload statistics, waiting
    for a piece, deletion, and what a digest mismatch leaves in the cache. *)

From S2P Require Import Prelude Errors LruCache MetadataTypes Cache Engine Metadata MetadataFacts Wire Storage.
From Stdlib Require Import ZArith Lia String Strings.Byte.
From stdpp Require Import base tactics list gmap strings pretty.
Local Open Scope Z_scope.

Module StorageFacts.
Import Storage.
Section facts.
Context {E : Type} `{OperationsLaws E} `{MetadataBincodeLaws} (clock : nat → NaiveDateTime).
Context {L : Type} `{!LruApi string Cache.CTask L} `{!LruSpec string Cache.CTask L}.
Context {C : Type} `{!Content C}.

Abbreviation Storage := (Storage (E := E) (L := L) (C := C)).
Abbreviation R A := (R (E := E) (L := L) (C := C) A).
Abbreviation holds s pid p := (MetadataFacts.holds (metadata s) pid p).
Implicit Types (s : Storage).

Lemma r_bind_Some {A B} (m : R A) (f : A → R B) s r s' :
  (m ≫= f) s = Some (r, s') ↔
    (∃ a s1, m s = Some (Ok a, s1) ∧ f a s1 = Some (r, s')) ∨
    (∃ e, m s = Some (Err e, s') ∧ r = Err e).
Proof. cbv [mbind r_mbind pr_mbind]. destruct (m s) as [[[a|e] s1]|]; naive_solver. Qed.

Lemma r_bind_Ok {A B} (m : R A) (f : A → R B) s b s' :
  (m ≫= f) s = Some (Ok b, s') ↔ ∃ a s1, m s = Some (Ok a, s1) ∧ f a s1 = Some (Ok b, s').
Proof. rewrite r_bind_Some. naive_solver. Qed.

Lemma in_metadata_inv {A} (m : ST (Metadata.Metadata E) DFError A) s r s' :
  in_metadata m s = Some (r, s') → ∃ m', m (metadata s) = (r, m') ∧ s' = set_metadata m' s.
Proof. unfold in_metadata. destruct (m (metadata s)) as [r' m']. naive_solver. Qed.

(** ** Pieces from parents *)
Lemma download_piece_finished_Ok pid off len dig parent (m m' : Metadata.Metadata E) p :
  Metadata.download_piece_finished clock pid off len dig parent m = (Ok p, m') →
  MetadataFacts.holds m' pid p ∧ Piece.is_finished p = true ∧ Piece.offset p = off ∧
  Piece.length p = len ∧ Piece.digest p = dig ∧ Piece.parent_id p = parent.
Proof.
  unfold Metadata.download_piece_finished.
  intros (r & m0 & [-> Hr]%MetadataFacts.db_get_Ok & Hm)%st_bind_Ok.
  destruct r as [p0|]; [|done]. cbv [mbind st_mbind Metadata.now] in Hm. simpl in Hm.
  destruct (Metadata.db_put pid _ _) as [[[]|e] m1] eqn:Hput; [|done]. injection Hm as <- <-.
  apply MetadataFacts.db_put_Ok in Hput as (Hh & _ & _). split; [exact Hh|]. done.
Qed.

Lemma check_digest_inv expected digest s r s' :
  check_digest (E := E) (L := L) (C := C) expected digest s = Some (r, s') →
  s' = s ∧ match r with
           | Ok _ => expected = "" ∨ expected = digest
           | Err e => e = DigestMismatch expected digest
           end.
Proof. unfold check_digest. repeat case_decide; intros [= <- <-]; naive_solver. Qed.

Lemma in_content_inv {A} (m : ST C DFError A) s r s' :
  in_content m s = Some (r, s') → ∃ c, m (content s) = (r, c) ∧ s' = set_content c s.
Proof. unfold in_content. destruct (m (content s)) as [r' c]. naive_solver. Qed.

Lemma r_bind_assoc {A B D} (m : R A) (f : A → R B) (g : B → R D) s :
  (a ← m; b ← f a; g b) s = (b ← (a ← m; f a); g b) s.
Proof. cbv [mbind r_mbind pr_mbind]. by destruct (m s) as [[[a|e] s1]|]. Qed.

(** Writing the content with [write] and then [finish_parent_piece]. *)
Lemma write_then_finish (write : ST C DFError WriteRangeResponse) pid off expected parent s r s' :
  (response ← in_content write; finish_parent_piece clock pid off expected parent response) s
    = Some (r, s') →
  notifiers s' = notifiers s ∧
  (metadata s' = metadata s ∧ is_ok r = false ∧
     (∀ response c, write (content s) = (Ok response, c) →
        r = Err (DigestMismatch expected (digest_of (wr_hash response)))) ∨
   ∃ response c, write (content s) = (Ok response, c) ∧
     (expected = "" ∨ expected = digest_of (wr_hash response)) ∧
     ∀ p, r = Ok p → holds s' pid p ∧ Piece.is_finished p = true ∧
       Piece.digest p = digest_of (wr_hash response) ∧ Piece.length p = wr_length response ∧
       Piece.parent_id p = Some parent).
Proof.
  intros [(resp & s1 & (c & Hw & ->)%in_content_inv & Hf)|(e & (c & Hw & ->)%in_content_inv & ->)]%r_bind_Some.
  2:{ split; [done|]. left. split; [done|]. split; [done|]. intros. congruence. }
  apply r_bind_Some in Hf as [([] & s2 & [-> Hd]%check_digest_inv & Hf)|
    (e & [-> ->]%check_digest_inv & ->)].
  - apply in_metadata_inv in Hf as (m' & Hm & ->). split; [done|]. right. exists resp, c.
    split; [done|]. split; [done|]. intros p ->. apply download_piece_finished_Ok in Hm. naive_solver.
  - split; [done|]. left. split; [done|]. split; [done|]. intros. congruence.
Qed.

(** a piece from a parent is recorded only with the digest of the bytes
    that were written, over a stream or over URMA.  When
    [download_piece_from_parent_finished] or its URMA form succeeds, the expected
    digest was empty or equal to the digest of the written content, the stored
    piece is finished and carries that digest and the written length, and its
    notifier is gone.  When it fails the claim is kept; and when the digests
    differ it fails with [DigestMismatch] and the metadata store is unchanged. *)
Theorem parent_piece_digest_checked (kind : Kind) (pid tid : string) (off len : Z)
    (expected parent : string) (stream : Bytes) (timed : option (C → C)) (timeout : Duration)
    (write : ST C DFError WriteRangeResponse) (s s' : Storage) (r : Result Piece) :
  download_piece_from_parent_finished clock kind pid tid off len expected parent stream timed s
    = Some (r, s') ∧ write = content_write_piece kind tid off len stream ∨
  download_piece_from_parent_finished_urma clock kind pid tid off len expected parent stream timeout
    s = Some (r, s') ∧ timed = None ∧
  write = content_write_piece_from_urma_stream kind pid tid off len stream timeout →
  match r with
  | Ok p => ∃ response c, write (content s) = (Ok response, c) ∧
      (expected = "" ∨ expected = digest_of (wr_hash response)) ∧
      holds s' pid p ∧ Piece.is_finished p = true ∧
      Piece.digest p = digest_of (wr_hash response) ∧ Piece.length p = wr_length response ∧
      Piece.parent_id p = Some parent ∧ pid ∉ notifiers s'
  | Err _ => notifiers s' = notifiers s
  end ∧
  (∀ response c, timed = None → write (content s) = (Ok response, c) →
     expected ≠ "" → expected ≠ digest_of (wr_hash response) →
     r = Err (DigestMismatch expected (digest_of (wr_hash response))) ∧ metadata s' = metadata s).
Proof.
  intros Hrun.
  assert (is_Some timed ∧ notifiers s' = notifiers s ∧ is_ok r = false ∨
    timed = None ∧ (p ← (response ← in_content write;
                         finish_parent_piece clock pid off expected parent response);
                    _ ← remove_and_notify pid; mret p) s = Some (r, s')) as [(Ht & Hn & Hr)|[-> Hrun']].
  { destruct Hrun as [[Hrun ->]|(Hrun & -> & ->)].
    - unfold download_piece_from_parent_finished, or_timeout in Hrun. destruct timed as [f|].
      + left. by injection Hrun as <- <-.
      + by right.
    - right. split; [done|]. by rewrite <- r_bind_assoc. }
  { destruct r; [done|]. split; [done|]. intros ? ? ->. by destruct Ht. }
  clear Hrun.
  apply r_bind_Some in Hrun' as [(p & s1 & [Hn Hc]%write_then_finish & [= <- <-])|
    (e & [Hn Hc]%write_then_finish & ->)].
  - destruct Hc as [(_ & [=] & _)|(resp & c & Hw & Hd & Hp)]. destruct (Hp p eq_refl) as (? & ? & ? & ? & ?).
    split; [|intros ? ? _ Hw' ? ?; naive_solver congruence].
    exists resp, c. simpl. split_and!; try done. set_solver.
  - split; [done|]. intros resp c _ Hw He Hne.
    destruct Hc as [(Hm & _ & Herr)|(resp' & c' & Hw' & Hd & _)]; [naive_solver|].
    naive_solver congruence.
Qed.

(** ** Cache pieces *)

Section cache_pieces.
Context (crc32 : Bytes → string).

(** Storing a piece of a cached task: the digest is the one of the new bytes,
    the cached bytes are the first ones. *)
Lemma store_cache_piece_spec pid tid bytes s l t :
  Cache.inv (cache s) l → Lru.find_key tid l = Some t →
  ∃ c, store_cache_piece crc32 pid tid (Ok bytes) s = Some (Ok (digest_of (crc32 bytes)), set_cache c s) ∧
    Cache.inv c ((tid, t) :: Lru.remove_key tid l) ∧
    Cache.cached c t pid = Some (default bytes (Cache.cached (cache s) t pid)).
Proof.
  intros Hinv Hid. destruct (Cache.write_piece_spec tid pid bytes _ _ _ Hinv Hid) as (c & Hw & Hi & Hc).
  exists c. split; [|done]. unfold store_cache_piece, give, in_cache. cbv [mbind r_mbind pr_mbind].
  by rewrite Hw.
Qed.

(** C23: a digest mismatch poisons the cache.  The bytes of a parent that
    failed the digest check stay in the cache, and the next download of the
    piece does not replace them: it succeeds, records the right digest, and the
    cache serves the wrong bytes. *)
Theorem mismatch_poisons_cache (pid tid : string) (off len : Z) (expected parent1 parent2 : string)
    (bad good : Bytes) (s s1 s1' s2 : Storage) (r : Result Piece) (p : Piece)
    (l : list (string * Cache.CTask)) (t : Cache.CTask) :
  Cache.inv (cache s) l → Lru.find_key tid l = Some t → Cache.cached (cache s) t pid = None →
  expected ≠ "" → expected ≠ digest_of (crc32 bad) →
  download_cache_piece_from_parent_finished clock crc32 pid tid off len expected parent1 (Ok bad)
    None s = Some (r, s1) →
  cache s1' = cache s1 →
  download_cache_piece_from_parent_finished clock crc32 pid tid off len expected parent2 (Ok good)
    None s1' = Some (Ok p, s2) →
  r = Err (DigestMismatch expected (digest_of (crc32 bad))) ∧
  holds s2 pid p ∧ Piece.is_finished p = true ∧ Piece.digest p = expected ∧
  expected = digest_of (crc32 good) ∧ Cache.cached (cache s2) t pid = Some bad.
Proof.
  intros Hinv Hid Hnew He Hne H1' Hcache H2'.
  destruct (store_cache_piece_spec pid tid bad s l t Hinv Hid) as (c & Hs & Hi & Hc).
  rewrite Hnew in Hc. simpl in Hc.
  unfold download_cache_piece_from_parent_finished, or_timeout,
    handle_downloaded_cache_piece_from_parent_finished in H1'.
  assert (check_digest (E := E) (L := L) (C := C) expected (digest_of (crc32 bad)) (set_cache c s)
    = Some (Err (DigestMismatch expected (digest_of (crc32 bad))), set_cache c s)) as Hd.
  { unfold check_digest. by rewrite decide_False, decide_True by done. }
  cbv [mbind r_mbind pr_mbind] in H1'. rewrite Hs, Hd in H1'. injection H1' as <- <-. split; [done|].
  simpl in Hcache.
  destruct (store_cache_piece_spec pid tid good s1' ((tid, t) :: Lru.remove_key tid l) t)
    as (c2 & Hs2 & _ & Hc2); [by rewrite Hcache | by simpl; rewrite decide_True |].
  rewrite Hcache, Hc in Hc2. simpl in Hc2.
  apply r_bind_Ok in H2' as (p' & s3 & Hh & [= <- <-]).
  apply r_bind_Ok in Hh as (dig & s4 & Hst & Hh). rewrite Hs2 in Hst. injection Hst as <- <-.
  apply r_bind_Ok in Hh as ([] & s5 & [-> Hok]%check_digest_inv & Hh).
  apply in_metadata_inv in Hh as (m' & Hm & ->).
  apply download_piece_finished_Ok in Hm as (Hh & Hf & _ & _ & Hdig & _).
  destruct Hok as [|Hok]; [done|]. split; [exact Hh|]. split; [done|]. split; [congruence|].
  split; [done|]. exact Hc2.
Qed.

End cache_pieces.

(** ** Waiting *)

Section wait.
Context (env : nat → Storage → Storage * Wake).

Lemma get_existing_inv pid s r s' :
  get_existing pid s = Some (r, s') →
  s' = s ∧ match r with Ok p => holds s pid p | Err _ => True end.
Proof.
  intros [(o & s1 & (m & Hg & ->)%in_metadata_inv & Hr)|(e & (m & Hg & ->)%in_metadata_inv & ->)]%r_bind_Some.
  - apply MetadataFacts.db_get_Ok in Hg as [-> Ho].
    assert (set_metadata (metadata s) s = s) as Heq by (by destruct s). rewrite Heq in Hr.
    destruct o; injection Hr as <- <-; done.
  - unfold Metadata.get_piece, Metadata.db_get, reads in Hg. injection Hg as _ <-.
    split; [by destruct s | done].
Qed.

Lemma wait_loop_sound fuel pid s p s' :
  wait_loop env fuel pid s = Some (Ok p, s') → Piece.is_finished p = true ∧ holds s' pid p.
Proof.
  revert s. induction fuel as [|fuel IH]; intros s; [done|]. cbn [wait_loop].
  intros (n & s1 & [= <- <-] & Hw)%r_bind_Ok. case_bool_decide.
  - apply r_bind_Ok in Hw as (q & s1 & [-> Hq]%get_existing_inv & Hw).
    destruct (Piece.is_finished q) eqn:Hf; [by injection Hw as <- <-|].
    apply r_bind_Ok in Hw as (w & s2 & _ & Hw). destruct w; [by eapply IH..|].
    apply r_bind_Ok in Hw as (? & s3 & _ & Hw). by apply r_bind_Ok in Hw as (? & s4 & _ & Hw).
  - apply r_bind_Ok in Hw as (q & s1 & [-> Hq]%get_existing_inv & Hw).
    destruct (Piece.is_finished q) eqn:Hf; [by injection Hw as <- <-|].
    apply r_bind_Ok in Hw as (n & s1 & [= <- <-] & Hw). case_bool_decide; [by eapply IH|].
    apply r_bind_Ok in Hw as (q' & s1 & [-> Hq']%get_existing_inv & Hw).
    destruct (Piece.is_finished q') eqn:Hf'; [by injection Hw as <- <-|].
    apply r_bind_Ok in Hw as (n & s1 & [= <- <-] & Hw). case_bool_decide; [by eapply IH|].
    by apply r_bind_Ok in Hw as (? & s3 & _ & Hw).
Qed.

(** [wait_for_piece_finished] returns a piece only if it is finished and
    stored at that moment, whatever the other tasks do while it waits; and when
    the record is unfinished but no download is in flight (the record of a
    crashed process), it returns an error at once, without awaiting, one
    iteration of the loop being enough. *)
Theorem wait_for_piece_finished_spec (fuel : nat) (pid : string) (s : Storage) :
  (∀ p s', wait_for_piece_finished env fuel pid s = Some (Ok p, s') →
     Piece.is_finished p = true ∧ holds s' pid p) ∧
  (∀ p, holds s pid p → Piece.is_finished p = false → pid ∉ notifiers s → (0 < fuel)%nat →
     ∃ e s', wait_for_piece_finished env fuel pid s = Some (Err e, s') ∧ awaits s' = awaits s).
Proof.
  split.
  - intros p s' (q & s1 & [-> Hq]%get_existing_inv & Hw)%r_bind_Ok.
    destruct (Piece.is_finished q) eqn:Hf; [by injection Hw as <- <-|]. by eapply wait_loop_sound.
  - intros p Hp Hnf Hn Hfuel. destruct fuel as [|fuel]; [lia|].
    unfold wait_for_piece_finished. cbn [wait_loop]. cbv [mbind r_mbind pr_mbind in_flight].
    destruct (get_existing pid s) as [[[q|e] s1]|] eqn:Hg.
    + apply get_existing_inv in Hg as Hg'. destruct Hg' as [-> Hq].
      assert (q = p) as -> by by eapply MetadataFacts.holds_fun.
      rewrite Hnf, bool_decide_eq_false_2 by done. rewrite Hg, Hnf, bool_decide_eq_false_2 by done.
      rewrite Hg, Hnf, bool_decide_eq_false_2 by done. unfold log_err, in_metadata.
      destruct (Metadata.wait_for_piece_finished_failed pid (metadata s)) as [x m].
      do 2 eexists. split; [reflexivity | done].
    + apply get_existing_inv in Hg as [-> _]. eauto.
    + exfalso. unfold get_existing, in_metadata in Hg. cbv [mbind r_mbind pr_mbind] in Hg.
      destruct (Metadata.get_piece pid (metadata s)) as [[[]|]]; discriminate.
Qed.

Lemma releasing_inv {A} pid (m : R A) s r s' :
  releasing pid m s = Some (r, s') →
  (∃ a, r = Ok a ∧ m s = Some (Ok a, s')) ∨ (is_ok r = false ∧ pid ∉ notifiers s').
Proof.
  unfold releasing. destruct (m s) as [[[a|e] s1]|]; intros [= <- <-]; [eauto|].
  right. split; [done|]. simpl. set_solver.
Qed.

Lemma claimed_start_inv pid n off len s r s' :
  releasing pid (in_metadata (Metadata.download_piece_started clock pid n off len)) s = Some (r, s') →
  pid ∈ notifiers s →
  match r with
  | Ok p => holds s' pid p ∧ pid ∈ notifiers s' ∧ Piece.number p = n ∧ Piece.offset p = off ∧
      Piece.length p = len
  | Err _ => pid ∉ notifiers s'
  end.
Proof.
  intros [(p & -> & (m & Hm & ->)%in_metadata_inv)|[Hr Hn]]%releasing_inv Hin; [|by destruct r].
  unfold Metadata.download_piece_started in Hm. cbv [mbind st_mbind Metadata.now] in Hm.
  simpl in Hm. destruct (Metadata.db_put pid _ _) as [[[]|e] m1] eqn:Hput; [|done].
  injection Hm as <- <-. apply MetadataFacts.db_put_Ok in Hput as (Hh & _ & _).
  split; [exact Hh|]. done.
Qed.

(** the outcome of [download_piece_started], whatever the other tasks do
    while it waits.  A returned piece is stored, and is either finished, or the
    new record of the requested number, offset and length with the claim held
    by the caller; when an error is returned, the claim of the piece has been
    released. *)
Theorem download_piece_started_outcome (fuel : nat) (pid : string) (n off len : Z)
    (s s' : Storage) (r : Result Piece) :
  download_piece_started clock env fuel pid n off len s = Some (r, s') →
  match r with
  | Ok p => holds s' pid p ∧
      (Piece.is_finished p = true ∨
       pid ∈ notifiers s' ∧ Piece.number p = n ∧ Piece.offset p = off ∧ Piece.length p = len)
  | Err _ => pid ∉ notifiers s'
  end.
Proof.
  revert s. induction fuel as [|fuel IH]; intros s; [done|]. cbn [download_piece_started].
  intros [(w & s1 & Hw & Hrun)|(e & Hw & _)]%r_bind_Some.
  2:{ unfold attempt in Hw. by destruct (wait_for_piece_finished _ _ _ s) as [[]|]. }
  unfold attempt in Hw.
  destruct (wait_for_piece_finished env (S fuel) pid s) as [[w' s1']|] eqn:Hwait; [|done].
  injection Hw as <- <-. destruct w' as [p|e].
  { injection Hrun as <- <-. apply r_bind_Ok in Hwait as (q & s2 & [-> Hq]%get_existing_inv & Hl).
    destruct (Piece.is_finished q) eqn:Hf; [by injection Hl as <- <-; eauto|].
    apply wait_loop_sound in Hl as [? ?]. eauto. }
  apply r_bind_Some in Hrun as [(o & s2 & Hc & Hrun)|(e' & Hc & _)];
    [|unfold claim in Hc; by case_decide].
  unfold claim in Hc. case_decide as Hin; injection Hc as <- <-.
  - apply r_bind_Some in Hrun as [(w & s3 & _ & Hrun)|(e' & Ha & _)]; [by eapply IH|].
    unfold await_ in Ha. by destruct (env _ _).
  - set (s2 := set_notifiers _ s1') in Hrun.
    assert (pid ∈ notifiers s2) as Hown by set_solver.
    apply r_bind_Some in Hrun as [(q & s3 & Hg & Hrun)|(e' & Hg & ->)].
    2:{ apply releasing_inv in Hg as [(a & [=] & _)|[_ ?]]. done. }
    apply releasing_inv in Hg as [(a & [= ->] & (m & Hg & ->)%in_metadata_inv)|[[=] _]].
    apply MetadataFacts.db_get_Ok in Hg as [-> Hq]. rename a into q'.
    assert (∀ r s', releasing pid (in_metadata (Metadata.download_piece_started clock pid n off len))
      (set_metadata (metadata s2) s2) = Some (r, s') →
      match r with
      | Ok p => holds s' pid p ∧ (Piece.is_finished p = true ∨
          pid ∈ notifiers s' ∧ Piece.number p = n ∧ Piece.offset p = off ∧ Piece.length p = len)
      | Err _ => pid ∉ notifiers s'
      end) as Hstart.
    { intros r0 s0 Hr0%claimed_start_inv; [|done]. destruct r0; naive_solver. }
    destruct q' as [p|]; [|by apply Hstart].
    destruct (Piece.is_finished p) eqn:Hf; [|by apply Hstart].
    injection Hrun as <- <-. split; [exact Hq | by left].
Qed.

(** ** Uploading *)

(** The upload statistics of a task. *)
Definition stats (kind : Kind) (id : string) (s : Storage) : UploadStats :=
  default UploadStats_default
    (match kind with
     | KTask => Metadata.upload_stats (metadata s)
     | KPTask k => Metadata.ptask_upload_stats k (metadata s)
     end !! id).

Ltac solve_stats kind :=
  unfold stats; destruct kind as [|[|]]; (eexists; split; [reflexivity|]); simpl;
  unfold Metadata.update_stats; by rewrite lookup_insert_eq.

Lemma upload_started_stats kind id s : ∃ s', upload_started kind id s = Some (Ok tt, s') ∧
  stats kind id s' = Metadata.stats_started (stats kind id s).
Proof. solve_stats kind. Qed.
Lemma upload_finished_stats kind id s : ∃ s', upload_finished kind id s = Some (Ok tt, s') ∧
  stats kind id s' = Metadata.stats_finished (stats kind id s).
Proof. solve_stats kind. Qed.
Lemma upload_failed_stats kind id s : ∃ s', upload_failed kind id s = Some (Ok tt, s') ∧
  stats kind id s' = Metadata.stats_failed (stats kind id s).
Proof. solve_stats kind. Qed.

Lemma in_cache_inv {A} (m : UB (Cache.Cache L) (Result A)) s r s' :
  in_cache m s = Some (r, s') → ∃ c, s' = set_cache c s.
Proof. clear clock. unfold in_cache. destruct (m (cache s)) as [[r' c]|]; naive_solver. Qed.

(** A finished piece is returned without waiting. *)
Lemma wait_finished fuel pid s r s' p :
  holds s pid p → Piece.is_finished p = true →
  wait_for_piece_finished env fuel pid s = Some (r, s') → s' = s ∧ ∀ q, r = Ok q → q = p.
Proof.
  clear clock. intros Hp Hf [(q & s1 & [-> Hq]%get_existing_inv & Hw)|(e & [-> _]%get_existing_inv & ->)]%r_bind_Some;
    [|done].
  rewrite (MetadataFacts.holds_fun _ _ _ _ Hq Hp), Hf in Hw. injection Hw as <- <-. naive_solver.
Qed.

(** The variants of the wait are one function. *)
Lemma wait_kind fuel pid (kind : Wire.PieceKind) :
  match kind with
  | Wire.KPiece => wait_for_piece_finished env fuel pid
  | Wire.KPersistentPiece => wait_for_persistent_piece_finished env fuel pid
  | Wire.KPersistentCachePiece => wait_for_persistent_cache_piece_finished env fuel pid
  end = wait_for_piece_finished env fuel pid.
Proof. clear clock. by destruct kind. Qed.

(** The counts around one read of the content. *)
Definition counted {A B} (kind : Kind) (tid : string) (read : ST C DFError A) (ret : A → B) : R B :=
  _ ← upload_started kind tid;
  r ← attempt (in_content read);
  match r with
  | Ok x => _ ← upload_finished kind tid; mret (ret x)
  | Err err => _ ← upload_failed kind tid; fail err
  end.

Definition balanced (kind : Kind) (tid : string) (s s' : Storage) (ok : bool) : Prop :=
  us_uploading_count (stats kind tid s') = us_uploading_count (stats kind tid s) ∧
  us_uploaded_count (stats kind tid s') =
    us_uploaded_count (stats kind tid s) + (if ok then 1 else 0).

Lemma counted_balanced {A B} kind tid (read : ST C DFError A) (ret : A → B) s r s' :
  i64_min ≤ us_uploading_count (stats kind tid s) < i64_max →
  0 ≤ us_uploaded_count (stats kind tid s) < u_max 64 →
  counted kind tid read ret s = Some (r, s') →
  balanced kind tid s s' (is_ok r) ∧ ∀ b, r = Ok b → ∃ x, b = ret x.
Proof.
  clear clock. intros Hup Hud Hrun. unfold balanced.
  destruct (upload_started_stats kind tid s) as (s2 & Hs2 & Hst2).
  apply r_bind_Some in Hrun as [([] & s2' & Hs2' & Hrun)|(e & Hs2' & _)]; [|congruence].
  assert (s2' = s2) as -> by congruence.
  apply r_bind_Some in Hrun as [(x & s3 & Hx & Hrun)|(e & Hx & _)];
    [|unfold attempt in Hx; destruct (in_content _ s2) as [[]|]; discriminate].
  assert (stats kind tid s3 = stats kind tid s2) as Hst3.
  { unfold attempt in Hx. destruct (in_content _ s2) as [[y s4]|] eqn:Hc; [|done].
    injection Hx as _ <-. by apply in_content_inv in Hc as (c & _ & ->). }
  rewrite <- Hst3 in Hst2.
  destruct x as [bytes|err].
  - destruct (upload_finished_stats kind tid s3) as (s4 & Hs4 & Hst4).
    apply r_bind_Some in Hrun as [([] & s4' & Hs4' & [= <- <-])|(e & ? & _)]; [|congruence].
    assert (s4' = s4) as -> by congruence. rewrite Hst4, Hst2.
    unfold Metadata.stats_finished, Metadata.stats_started, i64_add, i64_saturating_sub. simpl.
    rewrite i64_wrap_id by solve_range. rewrite u64_add_id by solve_range.
    split_and!; [solve_range | done | intros b [= <-]; eauto].
  - destruct (upload_failed_stats kind tid s3) as (s4 & Hs4 & Hst4).
    apply r_bind_Some in Hrun as [([] & s4' & Hs4' & [= <- <-])|(e & ? & _)]; [|congruence].
    assert (s4' = s4) as -> by congruence. rewrite Hst4, Hst2.
    unfold Metadata.stats_failed, Metadata.stats_started, i64_add, i64_saturating_sub. simpl.
    rewrite i64_wrap_id by solve_range. split_and!; [solve_range | lia | done].
Qed.

(** an upload leaves the statistics balanced.  Uploading a finished piece,
    of any kind, through [upload_piece] or mapped for URMA with
    [map_upload_piece], and whether the read succeeds or fails, brings the
    number of running uploads back to what it was, counts one more upload
    exactly when it succeeds, and hands out that piece. *)
Theorem upload_piece_balanced (fuel : nat) (pkind : Wire.PieceKind) (pid tid : string)
    (range : option Range) (s s' : Storage) (p : Piece) (ok : bool) :
  let kind := kind_of pkind in
  let before := stats kind tid s in
  let after := stats kind tid s' in
  holds s pid p → Piece.is_finished p = true →
  i64_min ≤ us_uploading_count before < i64_max → 0 ≤ us_uploaded_count before < u_max 64 →
  (∃ r, upload_piece env fuel kind pid tid range s = Some (r, s') ∧ ok = is_ok r) ∨
  (∃ r, map_upload_piece env fuel pid tid pkind s = Some (r, s') ∧ ok = is_ok r) →
  us_uploading_count after = us_uploading_count before ∧
  us_uploaded_count after = us_uploaded_count before + (if ok then 1 else 0) ∧
  ∀ q bytes, upload_piece env fuel kind pid tid range s = Some (Ok (q, bytes), s') → q = p.
Proof.
  clear clock. intros kind before after Hp Hf Hup Hud Hrun. apply and_assoc. split.
  - change (balanced kind tid s s' ok). destruct Hrun as [(r & Hrun & ->)|(r & Hrun & ->)].
    + apply r_bind_Some in Hrun as [(q & s1 & Hw & Hrun)|(e & Hw & ->)];
        destruct (wait_finished _ _ _ _ _ _ Hp Hf Hw) as [-> Hq].
      * by eapply (counted_balanced kind tid _ (pair q)).
      * unfold balanced. simpl. lia.
    + assert (∀ c, balanced kind tid s (set_cache c s) false) as Hidle
        by (intros; unfold balanced, stats; simpl; lia).
      apply r_bind_Some in Hrun as [(q & s1 & Hw & Hrun)|(e & Hw & ->)];
        rewrite wait_kind in Hw; destruct (wait_finished _ _ _ _ _ _ Hp Hf Hw) as [-> Hq];
        [|unfold balanced; simpl; lia].
      apply r_bind_Some in Hrun as [([|] & s2 & (c & ->)%in_cache_inv & Hrun)|
        (e & (c & ->)%in_cache_inv & ->)]; [by injection Hrun as <- <-| |by apply Hidle].
      by apply (counted_balanced kind tid _ id (set_cache c s)) in Hrun as [Hb _].
  - intros q bytes Hup'. apply r_bind_Ok in Hup' as (q' & s1 & Hw & Hrun').
    destruct (wait_finished _ _ _ _ _ _ Hp Hf Hw) as [-> Hq]. rewrite (Hq q' eq_refl) in Hrun'.
    apply (counted_balanced kind tid _ (pair p)) in Hrun' as [_ Hr]; [|done|done].
    destruct (Hr _ eq_refl) as (x & [= -> ->]). done.
Qed.
End wait.

(** ** Deleting *)
Lemma log_err_metadata (m : ST (Metadata.Metadata E) DFError unit) s :
  log_err (in_metadata m) s = Some (Ok tt, set_metadata (m (metadata s)).2 s).
Proof. unfold log_err, in_metadata. by destruct (m (metadata s)) as [r m']. Qed.

Lemma log_err_content (m : ST C DFError unit) s :
  log_err (in_content m) s = Some (Ok tt, set_content (m (content s)).2 s).
Proof. unfold log_err, in_content. by destruct (m (content s)) as [r c]. Qed.

(** [delete_task] always completes, and no failure of one part stops the
    others: the task leaves the cache and its upload statistics are dropped in
    every case; if the database deletes the record it is gone, and if the
    database deletes the pieces every piece of the task is gone. *)
Theorem delete_task_complete (tid : string) (s : Storage) (l : list (string * Cache.CTask)) :
  Cache.inv (cache s) l → String.length tid = 64%nat →
  let m1 := (Metadata.delete_task tid (metadata s)).2 in
  ∃ s', delete_task tid s = Some (Ok tt, s') ∧
    Cache.contains_task tid (cache s') = false ∧
    Metadata.upload_stats (metadata s') !! tid = None ∧
    ((Metadata.delete_task tid (metadata s)).1 = Ok tt →
       MetadataFacts.absent Task (metadata s') tid) ∧
    ((Metadata.delete_pieces tid m1).1 = Ok tt →
       ∀ k, as_bytes tid `prefix_of` k →
         MetadataFacts.raw (metadata s') !! ("piece", k) = None).
Proof.
  intros Hinv Hlen m1.
  destruct (Metadata.delete_task tid (metadata s)) as [r1 m1'] eqn:Hd1. subst m1. simpl.
  destruct (Metadata.delete_pieces tid m1') as [r2 m2] eqn:Hd2.
  destruct (Cache.delete_task_inv tid _ _ Hinv) as (c & Hc & Hinv').
  assert (∃ r, Cache.delete_task tid (cache s) = Some (r, c)) as [r Hr].
  { destruct (Lru.find_key tid l); destruct Hc as [Hc _]; eauto. }
  eexists. split.
  { unfold delete_task. cbv [mbind r_mbind pr_mbind]. rewrite log_err_metadata, Hd1. simpl.
    rewrite log_err_metadata. simpl. rewrite Hd2. simpl. rewrite log_err_content. simpl.
    unfold log_err, in_cache. simpl. rewrite Hr. reflexivity. }
  simpl. pose proof (MetadataFacts.delete_pieces_only _ _ _ _ Hd2) as [(Hu & _) Hother].
  unfold Metadata.delete_task in Hd1. cbv [mbind st_mbind modify] in Hd1.
  pose proof (MetadataFacts.db_delete_inv _ _ _ _ _ Hd1) as [(Hu1 & _) Hraw]. simpl in Hu1.
  split_and!.
  - unfold Cache.contains_task. rewrite (lru_contains_ok _ _ _ (Cache.inv_rep _ _ Hinv')).
    apply bool_decide_eq_false_2. intros [t Ht].
    assert (Lru.find_key tid (Lru.remove_key tid l) = None) as Hnone; [|congruence].
    apply Lru.find_key_None. intros ([k v] & Hk & [Hne _]%list_elem_of_filter)%list_elem_of_fmap.
    by simpl in *.
  - by rewrite Hu, Hu1, lookup_delete_eq.
  - intros ->. destruct Hraw as [[? _]|Hraw]; [done|]. unfold MetadataFacts.absent.
    rewrite Hother by done. by rewrite Hraw, lookup_delete_eq.
  - intros ->. intros k Hk.
    rewrite (MetadataFacts.delete_pieces_raw _ _ _ Hlen Hd2). by rewrite decide_True.
Qed.
End facts.
End StorageFacts.

(** ** Witnesses: an in-memory disk *)

From S2P Require Import MemEngine.

Module StorageWitness.
Import Storage StorageFacts MetadataWitness.

(** A checksum. *)
Definition checksum (b : Bytes) : string :=
  pretty (foldr (λ x acc, Byte.to_N x + acc)%N 0%N b).

(** A disk that keeps the content of each piece by task and offset. *)
Abbreviation Disk := (gmap (string * Z) Bytes).

#[local] Instance mem_content : Content Disk := {
  content_create_dir _ _ d := (Ok tt, d);
  content_create_task _ _ _ d := (Ok tt, d);
  content_delete_task _ id d := (Ok tt, filter (λ p, p.1.1 ≠ id) d);
  content_write_piece _ id offset length stream d :=
    (Ok (mkWriteRangeResponse (Z.of_nat (List.length stream)) (checksum stream)),
     <[(id, offset) := stream]> d);
  content_write_piece_from_urma_stream _ _ id offset length stream _ d :=
    (Ok (mkWriteRangeResponse (Z.of_nat (List.length stream)) (checksum stream)),
     <[(id, offset) := stream]> d);
  content_read_piece _ id offset length range d :=
    (ok_or (PieceNotFound id) (d !! (id, offset)), d);
  content_map_piece _ id offset length d :=
    (ok_or (PieceNotFound id) (d !! (id, offset)), d);
}.

Abbreviation LCache := (Lru.LruCache string Cache.CTask).
Abbreviation S := (Storage (E := MemDB) (L := LCache) (C := Disk)).
Abbreviation M A := (R (E := MemDB) (L := LCache) (C := Disk) A).

(** A cache holding the task [tid]. *)
Definition put_one : UB (Cache.Cache LCache) unit :=
  task ← Cache.Task_new 5; _ ← Cache.with_tasks (lru_put tid task);
  ub_modify (λ c, Cache.set_size (u64_add (Cache.size c) 5) c).
Definition cache_one : Cache.Cache LCache :=
  match put_one (Cache.new 100) with Some (_, c) => c | None => Cache.new 100 end.

Lemma cache_one_inv : ∃ t, Cache.inv cache_one [(tid, t)] ∧ Cache.cached cache_one t pid = None.
Proof.
  destruct (Cache.insert_inv (L := LCache) tid 5 (Cache.new 100) [])
    as (c & t & Hrun & Hinv & _ & Hst & _); [apply Cache.new_inv; lia | done | lia | simpl; lia |].
  fold put_one in Hrun. exists t. unfold cache_one. rewrite Hrun. split; [exact Hinv|].
  unfold Cache.cached. by rewrite Hst.
Qed.

Definition with_metadata (m : Metadata.Metadata MemDB) : S :=
  mkStorage m ∅ cache_one {[pid]} 0.
Definition s0 : S := with_metadata piece_stored.

Definition succeeds {A} (m : M A) (s : S) : bool :=
  match m s with Some (Ok _, _) => true | _ => false end.
Definition returns {A} (m : M A) (s : S) : bool :=
  match m s with Some _ => true | None => false end.

Lemma succeeds_ok {A} (m : M A) s : succeeds m s = true → ∃ a s', m s = Some (Ok a, s').
Proof. unfold succeeds. destruct (m s) as [[[a|e] s']|]; eauto; done. Qed.
Lemma returns_ok {A} (m : M A) s : returns m s = true → ∃ r s', m s = Some (r, s').
Proof. unfold returns. destruct (m s) as [[r s']|]; eauto; done. Qed.

Definition data : Bytes := [x01; x02; x03; x04].

Lemma parent_piece_digest_checked_witness : ∃ p s',
  download_piece_from_parent_finished clock KTask pid tid 0 4 "crc32:10" "peer" data None s0
    = Some (Ok p, s') ∧
  Piece.digest p = "crc32:10" ∧ Piece.length p = 4 ∧ pid ∉ notifiers s'.
Proof.
  destruct (succeeds_ok
    (download_piece_from_parent_finished clock KTask pid tid 0 4 "crc32:10" "peer" data None) s0)
    as (p & s' & Hrun); [vm_compute; reflexivity|].
  exists p, s'. split; [exact Hrun|].
  destruct (parent_piece_digest_checked clock KTask pid tid 0 4 "crc32:10" "peer" data None 0 _ s0 s'
    (Ok p) (or_introl (conj Hrun eq_refl))) as [(resp & c & Hw & _ & _ & _ & Hd & Hl & _ & Hn) _].
  injection Hw as <- _. split; [exact Hd|]. split; [exact Hl | exact Hn].
Defined.

Lemma mismatch_poisons_cache_witness : ∃ t p s1 s2,
  download_cache_piece_from_parent_finished clock checksum pid tid 0 4 "crc32:10" "a" (Ok [x07])
    None s0 = Some (Err (DigestMismatch "crc32:10" "crc32:7"), s1) ∧
  download_cache_piece_from_parent_finished clock checksum pid tid 0 4 "crc32:10" "b" (Ok data)
    None s1 = Some (Ok p, s2) ∧
  Piece.digest p = "crc32:10" ∧ Cache.cached (cache s2) t pid = Some [x07].
Proof.
  destruct cache_one_inv as (t & Hinv & Hnone).
  set (first := download_cache_piece_from_parent_finished clock checksum pid tid 0 4 "crc32:10" "a"
    (Ok [x07]) None : M Piece).
  set (second := download_cache_piece_from_parent_finished clock checksum pid tid 0 4 "crc32:10" "b"
    (Ok data) None : M Piece).
  destruct (returns_ok first s0) as (r & s1 & H1); [vm_compute; reflexivity|].
  assert (match first s0 with Some (_, s1) => succeeds second s1 | None => false end = true) as H2
    by (vm_compute; reflexivity).
  rewrite H1 in H2. apply succeeds_ok in H2 as (p & s2 & H2).
  destruct (mismatch_poisons_cache clock checksum pid tid 0 4 "crc32:10" "a" "b" [x07] data
    s0 s1 s1 s2 r p [(tid, t)] t) as (-> & _ & _ & Hd & _ & Hc).
  - exact Hinv.
  - vm_compute. reflexivity.
  - exact Hnone.
  - done.
  - vm_compute. discriminate.
  - exact H1.
  - reflexivity.
  - exact H2.
  - exists t, p, s1, s2. split; [exact H1|]. split; [exact H2|]. split; [exact Hd | exact Hc].
Defined.

(** Other tasks do nothing, and the waiting time runs out. *)
Definition idle (n : nat) (s : S) : S * Wake := (s, WaitTimeout).

Lemma wait_for_piece_finished_spec_witness :
  ∃ e s', wait_for_piece_finished idle 1 pid (set_notifiers ∅ s0) = Some (Err e, s') ∧
    awaits s' = 0%nat.
Proof.
  destruct (wait_for_piece_finished_spec idle 1 pid (set_notifiers ∅ s0)) as [_ Hstale].
  eapply Hstale.
  - eexists. split; vm_compute; reflexivity.
  - vm_compute. reflexivity.
  - set_solver.
  - lia.
Defined.

Lemma download_piece_started_outcome_witness : ∃ p s',
  download_piece_started clock idle 1 pid 0 0 4 (set_notifiers ∅ s0) = Some (Ok p, s') ∧
  MetadataFacts.holds (metadata s') pid p.
Proof.
  destruct (succeeds_ok (download_piece_started clock idle 1 pid 0 0 4) (set_notifiers ∅ s0))
    as (p & s' & Hrun); [vm_compute; reflexivity|].
  exists p, s'. split; [exact Hrun|].
  apply (download_piece_started_outcome clock idle 1 pid 0 0 4 _ s' (Ok p) Hrun).
Defined.

Definition finished_state : S :=
  with_metadata (after (Metadata.download_piece_finished clock pid 0 4 "crc32:10" None) piece_stored).

Lemma upload_piece_balanced_witness : ∃ r s',
  upload_piece idle 1 KTask pid tid None finished_state = Some (r, s') ∧
  us_uploading_count (stats KTask tid s') = 0.
Proof.
  destruct (returns_ok (upload_piece idle 1 KTask pid tid None) finished_state) as (r & s' & Hrun);
    [vm_compute; reflexivity|].
  exists r, s'. split; [exact Hrun|].
  eassert (us_uploading_count (stats KTask tid s') = us_uploading_count (stats KTask tid finished_state))
    as ->; [|vm_compute; reflexivity].
  eapply (upload_piece_balanced idle 1 Wire.KPiece pid tid None finished_state s').
  - eexists. split; vm_compute; reflexivity.
  - vm_compute. reflexivity.
  - split; vm_compute; [discriminate | reflexivity].
  - split; vm_compute; [discriminate | reflexivity].
  - left. exists r. split; [exact Hrun | reflexivity].
Defined.

Lemma delete_task_complete_witness : ∃ s',
  delete_task tid s0 = Some (Ok tt, s') ∧ Cache.contains_task tid (cache s') = false.
Proof.
  destruct cache_one_inv as (t & Hinv & _).
  destruct (delete_task_complete tid s0 [(tid, t)] Hinv eq_refl) as (s' & Hrun & Hc & _).
  exists s'. split; [exact Hrun | exact Hc].
Defined.
End StorageWitness.
