(* ===== verification/UrmaBuffer.v ===== *)
(** * The registered buffers of the URMA transport

    Models [src/dragonfly-client-storage/src/urma/buffer.rs] (the fixed slots
    over one registered memory segment, their states, and the leases that hand
    slots to other threads) and the errors of [urma/error.rs].  The native
    segment is a parameter.  A pointer into the segment is its address; the
    index of a slot is a [nat].  Durations that only feed log lines are left
    out.  The [recycle_notifier] sends a command to the owner thread: the pool
    keeps the tokens that were sent in [notified]. *)

From S2P Require Import Prelude Wire.
From Stdlib Require Import ZArith Lia String.
From stdpp Require Import base tactics numbers list gmap strings pretty.
Local Open Scope Z_scope.

Module Urma.

(** ** Errors *)

(** [ffi::FfiError] and [enum NativeFailure]. *)
Inductive FfiError : Type :=
| FfiContract (detail : string)
| FfiNullHandle
| FfiStatus (status : Z).

Inductive NativeFailure : Type :=
| FailContract (detail : string)
| FailMissingHandle
| FailStatus (status : Z).

(** [enum Error]. *)
Inductive Error : Type :=
| AlreadyInitialized
| InvalidConfiguration (detail : string)
| Protocol (detail : string)
| PeerRejected (code : Z) (message : string)
| ControlTimeout (operation : string)
| OperationTimeout (sequence : option Z)
| BufferUnavailable (kind : string) (requested available : Z)
| Completion (status opcode user_ctx : Z) (sequence post_call : option Z)
| StartupRollback (primary : Error) (cleanup_failures : list string)
| Shutdown (failures : list string)
| Native (operation : string) (failure : NativeFailure).

(** [native_error]. *)
Definition native_error (operation : string) (error : FfiError) : Error :=
  Native operation
    match error with
    | FfiContract detail => FailContract detail
    | FfiNullHandle => FailMissingHandle
    | FfiStatus status => FailStatus status
    end.

(** [{:?}] of an [Option<u64>]. *)
Definition show_option (o : option Z) : string :=
  match o with Some n => "Some(" +:+ pretty n +:+ ")" | None => "None" end.

(** The names of completion statuses. *)
Definition status_name (status : Z) : string :=
  default "UNKNOWN"
    (if status <? 0 then None else
     ["SUCCESS"; "UNSUPPORTED_OPCODE_ERR"; "LOC_LEN_ERR"; "LOC_OPERATION_ERR"; "LOC_ACCESS_ERR";
      "REM_RESP_LEN_ERR"; "REM_UNSUPPORTED_REQ_ERR"; "REM_OPERATION_ERR"; "REM_ACCESS_ABORT_ERR";
      "ACK_TIMEOUT_ERR"; "RNR_RETRY_CNT_EXC_ERR"; "WR_FLUSH_ERR"; "WR_SUSPEND_DONE";
      "WR_FLUSH_ERR_DONE"; "WR_UNHANDLED"; "LOC_DATA_POISON"; "REM_DATA_POISON"]
       !! Z.to_nat status).

(** [Display for Error]. *)
Fixpoint Error_fmt (e : Error) : string :=
  match e with
  | AlreadyInitialized => "an URMA runtime already owns process-global liburma"
  | InvalidConfiguration detail => "invalid configuration: " +:+ detail
  | Protocol detail => "protocol error: " +:+ detail
  | PeerRejected code message =>
      "URMA peer rejected request: code=" +:+ pretty code +:+ " message=" +:+ message
  | ControlTimeout operation => "URMA control operation timed out: " +:+ operation
  | OperationTimeout sequence => "URMA operation timed out: sequence=" +:+ show_option sequence
  | BufferUnavailable kind requested available =>
      "URMA " +:+ kind +:+ " buffer unavailable: requested=" +:+ pretty requested +:+
      " available=" +:+ pretty available
  | Completion status opcode user_ctx sequence post_call =>
      "completion failed: status=" +:+ pretty status +:+ "(" +:+ status_name status +:+
      "), opcode=" +:+ pretty opcode +:+ ", user_ctx=" +:+ pretty user_ctx +:+ ", sequence=" +:+
      show_option sequence +:+ ", post_call=" +:+ show_option post_call
  | StartupRollback primary cleanup_failures =>
      "startup failed: " +:+ Error_fmt primary +:+ "; rollback failures: " +:+
      String.concat "; " cleanup_failures
  | Shutdown failures => "shutdown failures: " +:+ String.concat "; " failures
  | Native operation (FailContract detail) =>
      "FFI contract violation during " +:+ operation +:+ ": " +:+ detail
  | Native operation FailMissingHandle =>
      "native operation " +:+ operation +:+ " succeeded without returning a handle"
  | Native operation (FailStatus status) =>
      "liburma operation " +:+ operation +:+ " failed with status " +:+ pretty status
  end.

Abbreviation Result := (result Error).

(** [.map_err(|error| native_error(operation, error))]. *)
Definition or_native {A} (operation : string) (r : result FfiError A) : Result A :=
  match r with Ok a => Ok a | Err error => Err (native_error operation error) end.

(** ** Slots *)

(** [struct BufferPoolConfig]. *)
Record BufferPoolConfig := mkBufferPoolConfig {
  slot_size : Z;
  tx_slot_count : Z;
  rx_slot_count : Z;
  alignment : Z;
}.

(** [BufferPoolConfig::default]. *)
Definition BufferPoolConfig_default : BufferPoolConfig :=
  mkBufferPoolConfig (64 * 1024) 128 512 4096.

(** [usize::is_power_of_two]. *)
Definition is_power_of_two (z : Z) : bool := (0 <? z) && (Z.land z (z - 1) =? 0).

(** [BufferPoolConfig::total_len]. *)
Definition total_len (config : BufferPoolConfig) : Result Z :=
  if slot_size config =? 0 then Err (InvalidConfiguration "slot_size must be non-zero")
  else if (tx_slot_count config =? 0) || (rx_slot_count config =? 0) then
    Err (InvalidConfiguration "tx_slot_count and rx_slot_count must be non-zero")
  else if (alignment config <? 8) || negb (is_power_of_two (alignment config)) then
    Err (InvalidConfiguration "alignment must be a power of two and at least pointer-sized")
  else
    slots ← ok_or (InvalidConfiguration "slot count overflow")
              (u64_checked_add (tx_slot_count config) (rx_slot_count config));
    if u_max 16 + 1 <? slots then
      Err (InvalidConfiguration "buffer pool cannot exceed 65536 slots")
    else
      ok_or (InvalidConfiguration "buffer pool size overflow")
        (u64_checked_mul (slot_size config) slots).

Inductive SlotKind : Type := Tx | Rx.

Inductive SlotState : Type :=
| Free | Allocated | PostedRecv | RecvCompleted | SendPosted | SendCompleted | LeasedRx | LeasedTx.

#[export] Instance SlotKind_eq_dec : EqDecision SlotKind.
Proof. solve_decision. Defined.
#[export] Instance SlotState_eq_dec : EqDecision SlotState.
Proof. solve_decision. Defined.

(** [struct SlotId]. *)
Record SlotId := mkSlotId { index : nat; generation : Z }.

#[export] Instance SlotId_eq_dec : EqDecision SlotId.
Proof. solve_decision. Defined.

(** [SlotId::encode], [SlotId::decode], [SlotId::new]. *)
Definition SlotId_encode (id : SlotId) : Z :=
  Z.lor (u_wrap 32 (Z.shiftl (generation id) 16)) (Z.of_nat (index id)).

Definition SlotId_decode (encoded : Z) : Result SlotId :=
  let generation := u_wrap 16 (Z.shiftr encoded 16) in
  if generation =? 0 then Err (Protocol "slot identity has a zero generation")
  else Ok (mkSlotId (Z.to_nat (u_wrap 16 encoded)) generation).

Definition SlotId_new (index : nat) (generation : Z) : Result SlotId :=
  if generation =? 0 then Err (InvalidConfiguration "slot generation must be non-zero")
  else if u_max 16 <? Z.of_nat index then
    Err (InvalidConfiguration "slot index exceeds 16 bits")
  else Ok (mkSlotId index generation).

(** [struct BufferSlot]. *)
Record BufferSlot := mkBufferSlot {
  kind : SlotKind;
  offset : Z;
  len : Z;
  state : SlotState;
  slot_generation : Z;
}.

Definition set_state (st : SlotState) (s : BufferSlot) : BufferSlot :=
  mkBufferSlot (kind s) (offset s) (len s) st (slot_generation s).
Definition set_generation (g : Z) (s : BufferSlot) : BufferSlot :=
  mkBufferSlot (kind s) (offset s) (len s) (state s) g.

(** The next generation of a slot, which is never zero. *)
Definition next_generation (g : Z) : Z :=
  let g' := u_wrap 16 (g + 1) in if g' =? 0 then 1 else g'.

(** ** Leases *)

Inductive LeaseKind : Type := LeaseRx | LeaseTx.
#[export] Instance LeaseKind_eq_dec : EqDecision LeaseKind.
Proof. solve_decision. Defined.

(** [struct LeaseRecycle]. *)
Record LeaseRecycle := mkLeaseRecycle { recycle_pool_id : Z; lease_id : Z }.

(** [struct LeaseRecord]. *)
Record LeaseRecord := mkLeaseRecord { lease_kind : LeaseKind; lease_slots : list SlotId }.

(** [struct LeaseBook]. *)
Record LeaseBook := mkLeaseBook {
  pool_id : Z;
  next_lease_id : Z;
  active : gmap Z LeaseRecord;
}.

(** [LeaseBook::new], with the value of the process-wide counter. *)
Definition LeaseBook_new (pool_id : Z) : LeaseBook := mkLeaseBook pool_id 1 ∅.

(** [LeaseBook::issue]. *)
Definition issue (kind : LeaseKind) (slots : list SlotId) : ST LeaseBook Error LeaseRecycle :=
  λ b,
    match slots with
    | [] => (Err (InvalidConfiguration "registered lease requires at least one slot"), b)
    | _ =>
        let lease_id := next_lease_id b in
        match u64_checked_add lease_id 1 with
        | Some next =>
            if next =? 0 then (Err (InvalidConfiguration "lease id space exhausted"), b)
            else (Ok (mkLeaseRecycle (pool_id b) lease_id),
                  mkLeaseBook (pool_id b) next
                    (<[lease_id := mkLeaseRecord kind slots]> (active b)))
        | None => (Err (InvalidConfiguration "lease id space exhausted"), b)
        end
    end.

(** [LeaseBook::record]. *)
Definition record (b : LeaseBook) (recycle : LeaseRecycle) : Result LeaseRecord :=
  if negb (recycle_pool_id recycle =? pool_id b) then
    Err (Protocol "registered lease belongs to another pool")
  else ok_or (Protocol "registered lease was already recycled") (active b !! lease_id recycle).

(** [LeaseBook::finish]. *)
Definition finish (recycle : LeaseRecycle) : ST LeaseBook Error LeaseRecord := λ b,
  match record b recycle with
  | Ok r => (Ok r, mkLeaseBook (pool_id b) (next_lease_id b) (delete (lease_id recycle) (active b)))
  | Err e => (Err e, b)
  end.

(** [LeaseBook::ensure_empty]. *)
Definition ensure_empty (b : LeaseBook) : Result unit :=
  if decide (active b = ∅) then Ok tt
  else Err (InvalidConfiguration ("cannot close registered Segment with " +:+
              pretty (size (active b)) +:+ " active leases")).

(** [struct RegisteredSpan]. *)
Record RegisteredSpan := mkRegisteredSpan { data : Z; span_length : Z }.

(** [struct LeaseCore]: [Some] until it is disarmed. *)
Abbreviation LeaseCore := (option LeaseRecycle).

(** [struct RegisteredRxWindowLease]. *)
Record RegisteredRxWindowLease := mkRxLease {
  rx_spans : list RegisteredSpan;
  rx_length : Z;
  rx_cores : list LeaseCore;
  pipeline_permit : bool;
}.

(** [struct TxLeaseLayout]. *)
Record TxLeaseLayout := mkTxLeaseLayout { layout_slot : SlotId; layout_offset : Z; layout_length : Z }.

(** [struct TxWindowLease]. *)
Record TxWindowLease := mkTxLease {
  tx_spans : list RegisteredSpan;
  tx_layouts : list TxLeaseLayout;
  tx_length : Z;
  tx_core : LeaseCore;
}.

(** The loop of [RegisteredRxWindowLease::merge]. *)
Fixpoint merge_windows (windows : list RegisteredRxWindowLease) (acc : RegisteredRxWindowLease)
    : Result RegisteredRxWindowLease :=
  match windows with
  | [] => Ok acc
  | window :: windows =>
      if pipeline_permit window then
        Err (Protocol "chunk lease unexpectedly owns a pipeline permit")
      else
        length ← ok_or (Protocol "RX window merge length overflow")
                   (u64_checked_add (rx_length acc) (rx_length window));
        merge_windows windows
          (mkRxLease (rx_spans acc ++ rx_spans window) length (rx_cores acc ++ rx_cores window) false)
  end.

(** [RegisteredRxWindowLease::merge], [with_pipeline_permit]. *)
Definition merge (windows : list RegisteredRxWindowLease) : Result RegisteredRxWindowLease :=
  match windows with
  | [] => Err (InvalidConfiguration "RX window merge requires at least one lease")
  | _ => merge_windows windows (mkRxLease [] 0 [] false)
  end.

Definition with_pipeline_permit (l : RegisteredRxWindowLease) : RegisteredRxWindowLease :=
  mkRxLease (rx_spans l) (rx_length l) (rx_cores l) true.

(** The loop of [TxWindowLease::reshape]: [position] chunks are done. *)
Fixpoint reshape_chunks (chunk_lengths : list Z) (position : nat) (total : Z)
    : PR TxWindowLease Error Z :=
  match chunk_lengths with
  | [] => mret total
  | length :: chunk_lengths =>
      spans ← pr_gets tx_spans;
      span ← pr_expect (spans !! position);
      _ ← pr_guard ((length =? 0) || (span_length span <? length))
            (InvalidConfiguration "TX lease reshape exceeds its original span");
      _ ← pr_modify (λ l, mkTxLease (<[position := mkRegisteredSpan (data span) length]> (tx_spans l))
                            (tx_layouts l) (tx_length l) (tx_core l));
      layouts ← pr_gets tx_layouts;
      layout ← pr_expect (layouts !! position);
      _ ← pr_guard (u_max 32 <? length) (InvalidConfiguration "TX chunk exceeds u32");
      _ ← pr_modify (λ l, mkTxLease (tx_spans l)
             (<[position := mkTxLeaseLayout (layout_slot layout) (layout_offset layout) length]>
                (tx_layouts l)) (tx_length l) (tx_core l));
      total ← pr_lift (ok_or (InvalidConfiguration "TX window length overflow")
                         (u64_checked_add total length));
      reshape_chunks chunk_lengths (S position) total
  end.

(** [TxWindowLease::reshape]. *)
Definition reshape (chunk_lengths : list Z) : PR TxWindowLease Error unit :=
  layouts ← pr_gets tx_layouts;
  _ ← pr_guard (bool_decide (chunk_lengths = []) ||
                (List.length layouts <? List.length chunk_lengths)%nat)
        (InvalidConfiguration "TX lease reshape exceeds its slot count");
  total ← reshape_chunks chunk_lengths 0 0;
  let n := List.length chunk_lengths in
  pr_modify (λ l, mkTxLease (take n (tx_spans l)) (take n (tx_layouts l)) total (tx_core l)).

(** ** The pool *)

(** The native segment: [ffi::SegmentHandle]. *)
Class NativeSegment (Seg : Type) := {
  segment_data : Seg → result FfiError (Z * Z);
  segment_close : Seg → result FfiError unit * Seg;
}.

Section pool.
Context {Seg : Type} `{NativeSegment Seg}.

(** [struct UrmaBufferPool]. *)
Record UrmaBufferPool := mkPool {
  segment : option Seg;
  slots : list BufferSlot;
  free_tx : list nat;
  free_rx : list nat;
  leases : LeaseBook;
  notified : list LeaseRecycle;
  accepting : bool;
}.

Definition set_segment (x : option Seg) (p : UrmaBufferPool) : UrmaBufferPool :=
  mkPool x (slots p) (free_tx p) (free_rx p) (leases p) (notified p) (accepting p).
Definition set_slots (x : list BufferSlot) (p : UrmaBufferPool) : UrmaBufferPool :=
  mkPool (segment p) x (free_tx p) (free_rx p) (leases p) (notified p) (accepting p).
Definition set_free_tx (x : list nat) (p : UrmaBufferPool) : UrmaBufferPool :=
  mkPool (segment p) (slots p) x (free_rx p) (leases p) (notified p) (accepting p).
Definition set_free_rx (x : list nat) (p : UrmaBufferPool) : UrmaBufferPool :=
  mkPool (segment p) (slots p) (free_tx p) x (leases p) (notified p) (accepting p).
Definition set_leases (x : LeaseBook) (p : UrmaBufferPool) : UrmaBufferPool :=
  mkPool (segment p) (slots p) (free_tx p) (free_rx p) x (notified p) (accepting p).
Definition set_accepting (x : bool) (p : UrmaBufferPool) : UrmaBufferPool :=
  mkPool (segment p) (slots p) (free_tx p) (free_rx p) (leases p) (notified p) x.

Abbreviation M A := (PR UrmaBufferPool Error A).

(** [LeaseCore::drop]: an armed core sends its token to the owner thread. *)
Definition drop_core (core : LeaseCore) (p : UrmaBufferPool) : UrmaBufferPool :=
  match core with
  | Some recycle =>
      mkPool (segment p) (slots p) (free_tx p) (free_rx p) (leases p) (notified p ++ [recycle])
        (accepting p)
  | None => p
  end.

(** [slot_offset]. *)
Definition slot_offset (config : BufferPoolConfig) (index : Z) : Result Z :=
  ok_or (InvalidConfiguration "slot offset overflow") (u64_checked_mul (slot_size config) index).

(** [UrmaBufferPool::create]; [created] is what [SegmentHandle::create] returns. *)
Definition create (created : Z → Z → result FfiError Seg) (config : BufferPoolConfig) (pool_id : Z)
    : Result UrmaBufferPool :=
  total ← total_len config;
  seg ← or_native "register_segment" (created total (alignment config));
  slot_count ← ok_or (InvalidConfiguration "slot count overflow")
                 (u64_checked_add (tx_slot_count config) (rx_slot_count config));
  let tx := Z.to_nat (tx_slot_count config) in
  tx_slots ← collect (λ i, o ← slot_offset config (Z.of_nat i);
                           Ok (mkBufferSlot Tx o (slot_size config) Free 0)) (seq 0 tx);
  rx_slots ← collect (λ i,
                  j ← ok_or (InvalidConfiguration "slot index overflow")
                        (u64_checked_add (tx_slot_count config) (Z.of_nat i));
                  o ← slot_offset config j;
                  Ok (mkBufferSlot Rx o (slot_size config) Free 0))
               (seq 0 (Z.to_nat (rx_slot_count config)));
  Ok (mkPool (Some seg) (tx_slots ++ rx_slots) (reverse (seq 0 tx))
        (seq tx (Z.to_nat slot_count - tx)) (LeaseBook_new pool_id) [] true).

(** [Vec::pop]. *)
Definition vec_pop {A} (l : list A) : option (A * list A) :=
  match reverse l with [] => None | x :: r => Some (x, reverse r) end.

(** [UrmaBufferPool::allocate]. *)
Definition allocate (kind : SlotKind) (p : UrmaBufferPool) : option SlotId * UrmaBufferPool :=
  if negb (accepting p) then (None, p)
  else
    let popped :=
      match kind with
      | Tx => '(i, l) ← vec_pop (free_tx p); Some (i, set_free_tx l p)
      | Rx => match free_rx p with [] => None | i :: l => Some (i, set_free_rx l p) end
      end in
    match popped with
    | None => (None, p)
    | Some (i, p) =>
        match slots p !! i with
        | None => (None, p)
        | Some slot =>
            let g := next_generation (slot_generation slot) in
            let slot := set_state Allocated (set_generation g slot) in
            let p := set_slots (<[i := slot]> (slots p)) p in
            match SlotId_new i g with Ok id => (Some id, p) | Err _ => (None, p) end
        end
    end.

(** The loop of [allocate_rx_window]. *)
Fixpoint allocate_rx (count : nat) : M (list SlotId) :=
  match count with
  | O => mret []
  | S count => λ p,
      match allocate Rx p with
      | (Some id, p) => (ids ← allocate_rx count; mret (id :: ids)) p
      | (None, _) => None
      end
  end.

(** [UrmaBufferPool::allocate_rx_window]. *)
Definition allocate_rx_window (count : nat) : M (list SlotId) :=
  _ ← pr_guard (count =? 0)%nat (InvalidConfiguration "RX window slot count must be non-zero");
  p ← pr_gets id;
  _ ← pr_guard (negb (accepting p) || (List.length (free_rx p) <? count)%nat)
        (BufferUnavailable "RX" (Z.of_nat count)
           (if accepting p then Z.of_nat (List.length (free_rx p)) else 0));
  allocate_rx count.

(** [UrmaBufferPool::release]. *)
Definition release (id : SlotId) : M unit := λ p,
  match slots p !! index id with
  | None => Some (Err (InvalidConfiguration "slot id is outside this buffer pool"), p)
  | Some slot =>
      if negb (slot_generation slot =? generation id) then
        Some (Err (Protocol "stale slot generation"), p)
      else if decide (state slot ∈ [Allocated; RecvCompleted; SendCompleted]) then
        let p := set_slots (<[index id := set_state Free slot]> (slots p)) p in
        Some (Ok tt, match kind slot with
                     | Tx => set_free_tx (free_tx p ++ [index id]) p
                     | Rx => set_free_rx (free_rx p ++ [index id]) p
                     end)
      else Some (Err (InvalidConfiguration
                        "slot cannot be released while a WR may still reference it"), p)
  end.

(** [UrmaBufferPool::release_unposted_rx_window]. *)
Definition release_unposted_rx_window (slots : list SlotId) : M unit := pr_for release slots.

(** [UrmaBufferPool::segment_handle]. *)
Definition segment_handle (p : UrmaBufferPool) : Result Seg :=
  ok_or (InvalidConfiguration "registered Segment is closed") (segment p).

(** [UrmaBufferPool::slot_fields]. *)
Definition slot_fields (p : UrmaBufferPool) (id : SlotId) : Result BufferSlot :=
  slot ← ok_or (InvalidConfiguration "slot id is outside buffer pool") (slots p !! index id);
  if negb (slot_generation slot =? generation id) then Err (Protocol "stale slot generation")
  else Ok slot.

(** [{:?}] of a [SlotState]. *)
Definition show_state (s : SlotState) : string :=
  match s with
  | Free => "Free" | Allocated => "Allocated" | PostedRecv => "PostedRecv"
  | RecvCompleted => "RecvCompleted" | SendPosted => "SendPosted"
  | SendCompleted => "SendCompleted" | LeasedRx => "LeasedRx" | LeasedTx => "LeasedTx"
  end.

(** [UrmaBufferPool::transition]. *)
Definition transition (id : SlotId) (from to : SlotState) : M unit := λ p,
  match slots p !! index id with
  | None => Some (Err (Protocol "completion slot is outside buffer pool"), p)
  | Some slot =>
      if negb (slot_generation slot =? generation id) then
        Some (Err (Protocol "stale slot generation"), p)
      else if decide (state slot ≠ from) then
        Some (Err (Protocol ("slot " +:+ pretty (index id) +:+ " state " +:+
                show_state (state slot) +:+ ", expected " +:+ show_state from)), p)
      else Some (Ok tt, set_slots (<[index id := set_state to slot]> (slots p)) p)
  end.

(** [UrmaBufferPool::recv_post_layout]. *)
Definition recv_post_layout (p : UrmaBufferPool) (id : SlotId) : Result (Z * Z) :=
  slot ← slot_fields p id;
  if decide (kind slot ≠ Rx ∨ state slot ≠ Allocated) then
    Err (InvalidConfiguration "RECV post requires an allocated RX slot")
  else if u_max 32 <? len slot then Err (InvalidConfiguration "slot size exceeds u32")
  else Ok (offset slot, len slot).

Definition posted_state (kind : SlotKind) : SlotState :=
  match kind with Tx => SendPosted | Rx => PostedRecv end.

(** [UrmaBufferPool::mark_posted], [rollback_post]. *)
Definition mark_posted (id : SlotId) (k : SlotKind) : M unit :=
  p ← pr_gets (λ p, p);
  slot ← pr_lift (slot_fields p id);
  _ ← pr_guard (bool_decide (kind slot ≠ k)) (Protocol "WR operation does not match slot kind");
  transition id Allocated (posted_state k).
Definition rollback_post (id : SlotId) (k : SlotKind) : M unit :=
  transition id (posted_state k) Allocated.

(** [UrmaBufferPool::tx_lease_layouts]. *)
Definition tx_lease_layouts (p : UrmaBufferPool) (lease : TxWindowLease)
    : Result (list (SlotId * Z * Z)) :=
  match tx_layouts lease with
  | [] => Err (Protocol "TX lease has no layouts")
  | layouts =>
      _ ← collect (λ l,
            slot ← slot_fields p (layout_slot l);
            if decide (kind slot ≠ Tx ∨ state slot ≠ LeasedTx) then
              Err (Protocol "TX lease layout does not reference a leased TX slot")
            else Ok tt) layouts;
      Ok ((λ l, (layout_slot l, layout_offset l, layout_length l)) <$> layouts)
  end.

(** [mark_tx_lease_posted], [rollback_tx_lease_post], [complete_tx_lease_send]. *)
Definition mark_tx_lease_posted (id : SlotId) : M unit := transition id LeasedTx SendPosted.
Definition rollback_tx_lease_post (id : SlotId) : M unit := transition id SendPosted LeasedTx.
Definition complete_tx_lease_send (id : SlotId) : M unit := transition id SendPosted LeasedTx.

(** [enum OperationType] (of [urma/lane.rs]). *)
Inductive OperationType : Type := Send | Recv.

(** [UrmaBufferPool::complete_error]. *)
Definition complete_error (id : SlotId) (operation : OperationType) : M unit :=
  match operation with
  | Send => transition id SendPosted SendCompleted
  | Recv => transition id PostedRecv RecvCompleted
  end.

(** [UrmaBufferPool::complete_recv_leased]. *)
Definition complete_recv_leased (id : SlotId) (length : Z) : M unit :=
  p ← pr_gets (λ p, p);
  slot ← pr_lift (slot_fields p id);
  _ ← pr_guard (bool_decide (kind slot ≠ Rx ∨ state slot ≠ PostedRecv))
        (Protocol "RECV CQE does not match a posted RX slot");
  _ ← pr_guard ((length =? 0) || (len slot <? length))
        (Protocol ("RECV completion length " +:+ pretty length +:+ " is outside 1..=" +:+
                   pretty (len slot)));
  transition id PostedRecv RecvCompleted.

(** [spans.last_mut().expect(..)], whose length grows by [n]. *)
Definition extend_last (spans : list RegisteredSpan) (n : Z) : option (Result (list RegisteredSpan)) :=
  '(last, spans) ← vec_pop spans;
  Some (length ← ok_or (Protocol "RX lease length overflow") (u64_checked_add (span_length last) n);
        Ok (spans ++ [mkRegisteredSpan (data last) length])).

(** The loop of [lease_completed_rx_window] over the completions; it collects
    the spans and the total length. *)
Fixpoint rx_lease_spans (base registered_len : Z) (completions : list (SlotId * Z))
    (previous_end : option Z) (spans : list RegisteredSpan) (total : Z)
    : M (list RegisteredSpan * Z) :=
  match completions with
  | [] => mret (spans, total)
  | (id, length) :: completions =>
      p ← pr_gets (λ p, p);
      slot ← pr_lift (slot_fields p id);
      _ ← pr_guard (bool_decide (kind slot ≠ Rx ∨ state slot ≠ RecvCompleted))
            (Protocol "RX lease requires completed receive slots");
      _ ← pr_guard ((length =? 0) || (len slot <? length))
            (Protocol "invalid RX lease chunk length");
      _ ← pr_guard (negb (bool_decide (completions = [])) && negb (length =? len slot))
            (Protocol "only the final RX lease chunk may be short");
      end_ ← pr_lift (ok_or (Protocol "RX lease offset overflow")
                        (u64_checked_add (offset slot) length));
      _ ← pr_guard (registered_len <? end_)
            (Protocol "RX lease span exceeds registered Segment");
      spans ← (if decide (previous_end = Some (offset slot)) then
                 r ← pr_expect (extend_last spans length); pr_lift r
               else mret (spans ++ [mkRegisteredSpan (base + offset slot) length]));
      total ← pr_lift (ok_or (Protocol "RX lease length overflow") (u64_checked_add total length));
      rx_lease_spans base registered_len completions (Some end_) spans total
  end.

(** [self.leases.issue(..)]. *)
Definition pool_issue (kind : LeaseKind) (ids : list SlotId) : M LeaseRecycle := λ p,
  let '(r, b) := issue kind ids (leases p) in Some (r, set_leases b p).

(** [UrmaBufferPool::lease_completed_rx_window]. *)
Definition lease_completed_rx_window (completions : list (SlotId * Z))
    : M RegisteredRxWindowLease :=
  _ ← pr_guard (bool_decide (completions = []))
        (InvalidConfiguration "RX window lease requires at least one completion");
  p ← pr_gets (λ p, p);
  '(base, registered_len) ← pr_lift
     (seg ← segment_handle p; or_native "borrow_rx_window" (segment_data seg));
  '(spans, total) ← rx_lease_spans base registered_len completions None [] 0;
  let ids := fst <$> completions in
  _ ← pr_for (λ id, transition id RecvCompleted LeasedRx) ids;
  r ← pr_catch (pool_issue LeaseRx ids);
  match r with
  | Ok recycle => mret (mkRxLease spans total [Some recycle] false)
  | Err error =>
      _ ← pr_for (λ id, transition id LeasedRx RecvCompleted) ids;
      pr_throw error
  end.

(** [UrmaBufferPool::free_tx_candidates]. *)
Definition free_tx_candidates (p : UrmaBufferPool) (count : nat) : Result (list nat) :=
  let available := if accepting p then List.length (free_tx p) else 0%nat in
  if (count =? 0)%nat || (available <? count)%nat then
    Err (BufferUnavailable "TX" (Z.of_nat count) (Z.of_nat available))
  else Ok (take count (reverse (free_tx p))).

(** What [acquire_tx_window_chunks] prepares for one chunk before it changes
    anything: the index, the new identity, the address, the offset and the length. *)
Definition prepare_tx (p : UrmaBufferPool) (base registered_len : Z) (x : nat * Z)
    : Result (nat * SlotId * Z * Z * Z) :=
  let '(i, chunk_length) := x in
  slot ← ok_or (Protocol "free TX index is outside this buffer pool") (slots p !! i);
  if decide (kind slot ≠ Tx ∨ state slot ≠ Free) then
    Err (Protocol "free TX index does not reference a free TX slot")
  else
    end_ ← ok_or (InvalidConfiguration "TX window offset overflow")
             (u64_checked_add (offset slot) chunk_length);
    if registered_len <? end_ then
      Err (InvalidConfiguration "TX window exceeds registered Segment")
    else
      id ← SlotId_new i (next_generation (slot_generation slot));
      Ok (i, id, base + offset slot, offset slot, chunk_length).

(** [slot.generation = id.generation(); slot.state = SlotState::LeasedTx]. *)
Definition take_tx_slot (x : nat * SlotId * Z * Z * Z) : M unit := λ p,
  let '(i, id, _, _, _) := x in
  slot ← slots p !! i;
  Some (Ok tt, set_slots (<[i := set_state LeasedTx (set_generation (generation id) slot)]> (slots p)) p).

(** [UrmaBufferPool::acquire_tx_window_chunks]. *)
Definition acquire_tx_window_chunks (chunk_lengths : list Z) : M TxWindowLease :=
  _ ← pr_guard (bool_decide (chunk_lengths = []) || bool_decide (0 ∈ chunk_lengths))
        (InvalidConfiguration "TX window lease requires non-empty chunks");
  p ← pr_gets (λ p, p);
  slot_capacity ← pr_lift
    match slots p with
    | slot :: _ => if decide (kind slot = Tx) then Ok (len slot)
                   else Err (InvalidConfiguration "TX pool is empty")
    | [] => Err (InvalidConfiguration "TX pool is empty")
    end;
  _ ← match list_find (λ l, slot_capacity < l) chunk_lengths with
      | Some (_, length) =>
          pr_throw (InvalidConfiguration ("TX chunk length " +:+ pretty length +:+
                      " exceeds slot capacity " +:+ pretty slot_capacity))
      | None => mret tt
      end;
  _ ← pr_guard (bool_decide (Exists (λ l, u_max 32 < l) chunk_lengths))
        (InvalidConfiguration "TX chunk length exceeds u32");
  length ← pr_lift (foldl (λ total length,
                       t ← total;
                       ok_or (InvalidConfiguration "TX window length overflow")
                         (u64_checked_add t length)) (Ok 0) chunk_lengths);
  '(base, registered_len) ← pr_lift
     (seg ← segment_handle p; or_native "borrow_tx_window" (segment_data seg));
  indices ← pr_lift (free_tx_candidates p (List.length chunk_lengths));
  prepared ← pr_lift (collect (prepare_tx p base registered_len) (zip indices chunk_lengths));
  _ ← pr_modify (λ p, set_free_tx
        (take (List.length (free_tx p) - List.length chunk_lengths) (free_tx p)) p);
  _ ← pr_for take_tx_slot prepared;
  let ids := (λ x : nat * SlotId * Z * Z * Z, x.1.1.1.2) <$> prepared in
  r ← pr_catch (pool_issue LeaseTx ids);
  match r with
  | Ok recycle =>
      mret (mkTxLease
        ((λ x : nat * SlotId * Z * Z * Z, mkRegisteredSpan x.1.1.2 x.2) <$> prepared)
        ((λ x : nat * SlotId * Z * Z * Z, mkTxLeaseLayout x.1.1.1.2 x.1.2 x.2) <$> prepared)
        length (Some recycle))
  | Err error =>
      _ ← pr_for (λ id, _ ← transition id LeasedTx Allocated; release id) ids;
      pr_throw error
  end.

(** [UrmaBufferPool::acquire_tx_window]. *)
Definition acquire_tx_window (length : Z) : M TxWindowLease := acquire_tx_window_chunks [length].

(** The slot states a lease of a kind holds, and gives back. *)
Definition leased_state (k : LeaseKind) : SlotState :=
  match k with LeaseRx => LeasedRx | LeaseTx => LeasedTx end.
Definition completed_state (k : LeaseKind) : SlotState :=
  match k with LeaseRx => RecvCompleted | LeaseTx => Allocated end.
Definition lease_slot_kind (k : LeaseKind) : SlotKind :=
  match k with LeaseRx => Rx | LeaseTx => Tx end.

(** [UrmaBufferPool::recycle]. *)
Definition recycle (rc : LeaseRecycle) (expected : LeaseKind) : M Z :=
  p ← pr_gets (λ p, p);
  r ← pr_lift (record (leases p) rc);
  _ ← pr_guard (bool_decide (lease_kind r ≠ expected)) (Protocol "registered lease kind mismatch");
  _ ← pr_for (λ id,
        slot ← pr_lift (slot_fields p id);
        pr_guard (negb (bool_decide (kind slot = lease_slot_kind expected ∧
                                     state slot = leased_state expected)))
          (Protocol "registered lease slot state mismatch")) (lease_slots r);
  r ← (λ p, let '(r, b) := finish rc (leases p) in Some (r, set_leases b p));
  _ ← pr_for (λ id, _ ← transition id (leased_state expected) (completed_state expected);
                    release id) (lease_slots r);
  mret (Z.of_nat (List.length (lease_slots r))).

(** The loop of [recycle_rx_lease] over the cores; on an error the lease is
    dropped with its remaining cores armed. *)
Fixpoint recycle_cores (cores : list LeaseCore) (count : Z) : M Z :=
  match cores with
  | [] => mret count
  | core :: cores =>
      r ← pr_catch
        (rc ← pr_lift (ok_or (Protocol "registered lease was already consumed") core);
         n ← recycle rc LeaseRx;
         pr_lift (ok_or (Protocol "RX recycle count overflow") (u64_checked_add count n)));
      match r with
      | Ok count => recycle_cores cores count
      | Err e =>
          _ ← pr_modify (λ p, foldl (flip drop_core) p (core :: cores));
          pr_throw e
      end
  end.

(** [UrmaBufferPool::recycle_rx_lease], [recycle_tx_lease]. *)
Definition recycle_rx_lease (lease : RegisteredRxWindowLease) : M Z :=
  recycle_cores (rx_cores lease) 0.
Definition recycle_tx_lease (lease : TxWindowLease) : M Z :=
  rc ← pr_lift (ok_or (Protocol "registered lease was already consumed") (tx_core lease));
  r ← pr_catch (recycle rc LeaseTx);
  match r with
  | Ok count => mret count
  | Err e => _ ← pr_modify (drop_core (tx_core lease)); pr_throw e
  end.

(** [UrmaBufferPool::recycle_dropped_lease]. *)
Definition recycle_dropped_lease (rc : LeaseRecycle) : M (Z * LeaseKind) :=
  p ← pr_gets (λ p, p);
  r ← pr_lift (record (leases p) rc);
  count ← recycle rc (lease_kind r);
  mret (count, lease_kind r).

(** [UrmaBufferPool::stop], [close]. *)
Definition stop : M unit := pr_modify (set_accepting false).
Definition close : M unit :=
  _ ← stop;
  p ← pr_gets (λ p, p);
  _ ← pr_lift (ensure_empty (leases p));
  match segment p with
  | None => mret tt
  | Some seg =>
      let '(r, seg) := segment_close seg in
      _ ← pr_modify (set_segment (Some seg));
      _ ← pr_lift (or_native "unregister_segment" r);
      pr_modify (set_segment None)
  end.

(** [UrmaBufferPool::drop]: the segment that the fields' own drop unregisters;
    with active leases it is forgotten instead. *)
Definition drop_pool (p : UrmaBufferPool) : option Seg :=
  if decide (active (leases p) = ∅) then segment p else None.
End pool.
End Urma.
