(* ===== verification/UrmaBufferFacts.v ===== *)
(** * Properties of the registered buffers

    The invariant of the slot pool, kept by every call of it; what leases own;
    recycling; and the packing of slot identities. *)

From S2P Require Import Prelude UrmaBuffer.
From Stdlib Require Import ZArith Lia String.
From stdpp Require Import base tactics numbers list gmap strings pretty.
Local Open Scope Z_scope.

Module UrmaBufferFacts.
Import Urma.
Section facts.
Context {Seg : Type} `{!NativeSegment Seg}.
Abbreviation Pool := (UrmaBufferPool (Seg := Seg)).
Implicit Types (p : Pool) (id : SlotId).

(** Decides membership of slot states in literal lists. *)
Ltac solve_state := set_unfold; intuition congruence.

(** The states a slot of a lease can be in. *)
Definition lease_states (k : LeaseKind) : list SlotState :=
  match k with LeaseRx => [LeasedRx] | LeaseTx => [LeasedTx; SendPosted] end.

(** The slot named by an identity, at its generation. *)
Definition holds p id (s : BufferSlot) : Prop :=
  slots p !! index id = Some s ∧ slot_generation s = generation id.

(** Leases whose slots are protected: receive leases always, send leases as long
    as no send completion was taken away from its window ([h]). *)
Definition guarded (h : bool) (k : LeaseKind) : Prop := k = LeaseRx ∨ h = true.

Record lease_ok (h : bool) p (r : LeaseRecord) : Prop := {
  lease_nodup : NoDup (index <$> lease_slots r);
  lease_owns : guarded h (lease_kind r) → ∀ id, id ∈ lease_slots r →
    ∃ s, holds p id s ∧ kind s = lease_slot_kind (lease_kind r) ∧ state s ∈ lease_states (lease_kind r);
}.

(** Some guarded lease covers the slot at index [i]. *)
Definition covered (h : bool) p (i : nat) : Prop :=
  ∃ lid r id, active (leases p) !! lid = Some r ∧ guarded h (lease_kind r) ∧
              id ∈ lease_slots r ∧ index id = i.

Definition is_free (k : SlotKind) p (i : nat) : Prop :=
  ∃ s, slots p !! i = Some s ∧ kind s = k ∧ state s = Free.

(** [sz] is the slot size of the configuration. *)
Record pool_inv (sz : Z) (h : bool) p : Prop := {
  inv_count : Z.of_nat (List.length (slots p)) ≤ 65536;
  inv_slot : ∀ i s, slots p !! i = Some s →
    offset s = sz * Z.of_nat i ∧ len s = sz ∧ 0 ≤ slot_generation s < 65536 ∧
    (state s ≠ Free → slot_generation s ≠ 0);
  inv_free_tx : NoDup (free_tx p) ∧ ∀ i, i ∈ free_tx p ↔ is_free Tx p i;
  inv_free_rx : NoDup (free_rx p) ∧ ∀ i, i ∈ free_rx p ↔ is_free Rx p i;
  inv_lease_ids : ∀ lid r, active (leases p) !! lid = Some r → lid < next_lease_id (leases p);
  inv_leases : ∀ lid r, active (leases p) !! lid = Some r → lease_ok h p r;
  inv_disjoint : ∀ l1 l2 r1 r2 id1 id2, active (leases p) !! l1 = Some r1 →
    active (leases p) !! l2 = Some r2 → guarded h (lease_kind r1) → guarded h (lease_kind r2) →
    id1 ∈ lease_slots r1 → id2 ∈ lease_slots r2 → index id1 = index id2 → l1 = l2;
  inv_segment : active (leases p) ≠ ∅ → is_Some (segment p);
}.

(** ** Changing one slot *)
Lemma covered_state sz h p i s :
  pool_inv sz h p → slots p !! i = Some s → covered h p i →
  ∃ k, guarded h k ∧ kind s = lease_slot_kind k ∧ state s ∈ lease_states k.
Proof.
  intros Hp Hs (lid & r & id & Hr & Hg & Hid & <-).
  destruct (lease_owns _ _ _ (inv_leases _ _ _ Hp _ _ Hr) Hg _ Hid) as (s' & [Hs' _] & Hk & Hst).
  exists (lease_kind r). by simplify_eq.
Qed.

(** A slot in no leased state is not covered. *)
Lemma not_covered sz h p i s :
  pool_inv sz h p → slots p !! i = Some s → state s ∉ [LeasedRx; LeasedTx; SendPosted] →
  ¬ covered h p i.
Proof.
  intros Hp Hs Hst Hc. destruct (covered_state _ _ _ _ _ Hp Hs Hc) as ([] & _ & _ & Hin);
    simpl in Hin; solve_state.
Qed.

Lemma lease_ok_update h p p' r i s s' :
  lease_ok h p r → slots p !! i = Some s → slots p' = <[i := s']> (slots p) →
  (∀ id, guarded h (lease_kind r) → id ∈ lease_slots r → index id = i →
     kind s' = kind s ∧ slot_generation s' = slot_generation s ∧ state s' ∈ lease_states (lease_kind r)) →
  lease_ok h p' r.
Proof.
  intros [Hnd Hown] Hs Hp' Hsame. split; [done|]. intros Hgd id Hid.
  destruct (Hown Hgd id Hid) as (s0 & [Hl Hg] & Hk & Hst). unfold holds. rewrite Hp'.
  destruct (decide (index id = i)) as [<-|Hne].
  - destruct (Hsame id Hgd Hid eq_refl) as (Hk' & Hg' & Hst'). simplify_eq.
    exists s'. rewrite list_lookup_insert_eq by by eapply lookup_lt_Some.
    split; [by rewrite Hg'|]. split; [congruence | done].
  - exists s0. rewrite list_lookup_insert_ne by done. done.
Qed.

Lemma is_free_update k p p' i s s' j :
  slots p !! i = Some s → slots p' = <[i := s']> (slots p) →
  is_free k p' j ↔ (j ≠ i ∧ is_free k p j) ∨ (j = i ∧ kind s' = k ∧ state s' = Free).
Proof.
  intros Hs Hp'. unfold is_free. rewrite Hp'. destruct (decide (j = i)) as [->|Hne].
  - rewrite list_lookup_insert_eq by by eapply lookup_lt_Some. naive_solver.
  - rewrite list_lookup_insert_ne by done. naive_solver.
Qed.

(** Everything but the free lists, after an update of one slot. *)
Lemma pool_inv_update sz h p p' i s s' :
  pool_inv sz h p → slots p !! i = Some s →
  slots p' = <[i := s']> (slots p) → leases p' = leases p → segment p' = segment p →
  offset s' = offset s → len s' = len s → kind s' = kind s →
  0 ≤ slot_generation s' < 65536 → (state s' ≠ Free → slot_generation s' ≠ 0) →
  (covered h p i → slot_generation s' = slot_generation s ∧
     ∀ k, guarded h k → kind s = lease_slot_kind k → state s ∈ lease_states k → state s' ∈ lease_states k) →
  (NoDup (free_tx p') ∧ ∀ j, j ∈ free_tx p' ↔ is_free Tx p' j) →
  (NoDup (free_rx p') ∧ ∀ j, j ∈ free_rx p' ↔ is_free Rx p' j) →
  pool_inv sz h p'.
Proof.
  intros Hp Hs Hsl Hle Hse Ho Hl Hk Hg Hg0 Hcov Htx Hrx. split; [| |done|done|..].
  - rewrite Hsl, length_insert. apply Hp.
  - intros j s0. rewrite Hsl. destruct (decide (j = i)) as [->|Hne].
    + rewrite list_lookup_insert_eq by by eapply lookup_lt_Some. intros [= <-].
      destruct (inv_slot _ _ _ Hp _ _ Hs) as (? & ? & _). rewrite Ho, Hl. done.
    + rewrite list_lookup_insert_ne by done. apply Hp.
  - rewrite Hle. apply Hp.
  - rewrite Hle. intros lid r Hr. eapply lease_ok_update; [by eapply Hp|done|done|].
    intros id Hgd Hid Hi. assert (covered h p i) as Hc by by exists lid, r, id.
    destruct (Hcov Hc) as [Hgen Hst]. split; [done|]. split; [done|].
    destruct (lease_owns _ _ _ (inv_leases _ _ _ Hp _ _ Hr) Hgd _ Hid) as (s0 & [Hs0 _] & Hk0 & Hst0).
    rewrite Hi in Hs0. simplify_eq. by apply Hst.
  - rewrite Hle. apply Hp.
  - rewrite Hle, Hse. apply Hp.
Qed.

(** ** The calls *)

Definition posted_states : list SlotState := [PostedRecv; SendPosted].

(** The posted slots outside [X] are as they were. *)
Definition keeps_posted (X : list nat) p p' : Prop :=
  ∀ i s, i ∉ X → slots p !! i = Some s → state s ∈ posted_states → slots p' !! i = Some s.

Lemma keeps_posted_refl X p : keeps_posted X p p.
Proof. by intros ????. Qed.
Lemma keeps_posted_trans X p1 p2 p3 :
  keeps_posted X p1 p2 → keeps_posted X p2 p3 → keeps_posted X p1 p3.
Proof. unfold keeps_posted. naive_solver. Qed.
Lemma keeps_posted_weaken X Y p p' : keeps_posted X p p' → X ⊆ Y → keeps_posted Y p p'.
Proof. unfold keeps_posted. set_solver. Qed.
Lemma keeps_posted_update X p p' i s s' :
  slots p !! i = Some s → slots p' = <[i := s']> (slots p) →
  i ∈ X ∨ state s ∉ posted_states → keeps_posted X p p'.
Proof.
  intros Hs Hp' Hi j s0 HjX Hj Hst. rewrite Hp'. destruct (decide (j = i)) as [->|Hne].
  - destruct Hi as [|Hi]; [done|]. by simplify_eq.
  - by rewrite list_lookup_insert_ne.
Qed.

(** The fields outside the slots and the free lists. *)
Definition same_book p p' : Prop :=
  leases p' = leases p ∧ segment p' = segment p ∧ notified p' = notified p ∧
  accepting p' = accepting p.

Lemma same_book_refl p : same_book p p.
Proof. done. Qed.
Lemma same_book_trans p1 p2 p3 : same_book p1 p2 → same_book p2 p3 → same_book p1 p3.
Proof. unfold same_book. intuition congruence. Qed.

(** [l] lists the free slots of a kind. *)
Definition lists_free (k : SlotKind) p (l : list nat) : Prop :=
  NoDup l ∧ ∀ j, j ∈ l ↔ is_free k p j.

Lemma lists_free_same k l p p' i s s' :
  lists_free k p l → slots p !! i = Some s → slots p' = <[i := s']> (slots p) →
  (kind s' = k ∧ state s' = Free ↔ kind s = k ∧ state s = Free) → lists_free k p' l.
Proof.
  intros [Hnd Hin] Hs Hp' Hiff. split; [done|]. intros j.
  rewrite Hin, (is_free_update k p p' i s s') by done. unfold is_free.
  destruct (decide (j = i)) as [->|]; [rewrite Hs; naive_solver|naive_solver].
Qed.

Lemma lists_free_push k l p p' i s s' :
  lists_free k p l → slots p !! i = Some s → slots p' = <[i := s']> (slots p) →
  kind s = k → state s ≠ Free → kind s' = k → state s' = Free → lists_free k p' (l ++ [i]).
Proof.
  intros [Hnd Hin] Hs Hp' Hk Hst Hk' Hst'. split.
  - apply NoDup_app. split; [done|]. split; [|apply NoDup_singleton].
    intros j (s0 & Hs0 & _ & Hf)%Hin ->%list_elem_of_singleton. by simplify_eq.
  - intros j. rewrite elem_of_app, list_elem_of_singleton, Hin, (is_free_update k p p' i s s') by done.
    destruct (decide (j = i)) as [->|]; [|naive_solver]. split; [by right; auto|by right].
Qed.

Lemma lists_free_pop k l l' p p' i s s' :
  lists_free k p l → l ≡ₚ i :: l' → slots p !! i = Some s → slots p' = <[i := s']> (slots p) →
  state s' ≠ Free → lists_free k p' l'.
Proof.
  intros [Hnd Hin] Hl Hs Hp' Hst. rewrite Hl in Hnd. apply NoDup_cons in Hnd as [Hni Hnd].
  split; [done|]. intros j. rewrite (is_free_update k p p' i s s') by done. rewrite <- Hin, Hl.
  destruct (decide (j = i)) as [->|]; set_solver.
Qed.

Lemma transition_spec sz h id from to p :
  pool_inv sz h p → from ≠ Free → to ≠ Free →
  (covered h p (index id) → ∀ k, guarded h k → from ∈ lease_states k → to ∈ lease_states k) →
  wp (transition id from to) (λ r p', pool_inv sz h p' ∧
    match r with
    | Ok _ => ∃ s, holds p id s ∧ state s = from ∧
                   p' = set_slots (<[index id := set_state to s]> (slots p)) p
    | Err _ => p' = p ∧ ¬ ∃ s, holds p id s ∧ state s = from
    end) p.
Proof.
  intros Hp Hf Ht Hcov. unfold wp, transition, holds.
  destruct (slots p !! index id) as [s|] eqn:Hs; [|naive_solver].
  destruct (Z.eqb_spec (slot_generation s) (generation id)) as [Hg|Hg]; simpl; [|naive_solver].
  case_decide as Hst; [naive_solver|]. split; [|naive_solver].
  pose proof (inv_slot _ _ _ Hp _ _ Hs) as (_ & _ & Hr & Hr0).
  eapply pool_inv_update; [exact Hp|exact Hs|done|done|done|done|done|done|exact Hr|..].
  - simpl. intros _. apply Hr0. congruence.
  - intros Hc. split; [done|]. intros k Hk _ Hin. apply (Hcov Hc k Hk). congruence.
  - eapply lists_free_same; [apply Hp|exact Hs|done|]. simpl. naive_solver.
  - eapply lists_free_same; [apply Hp|exact Hs|done|]. simpl. naive_solver.
Qed.

Lemma release_spec sz h id p :
  pool_inv sz h p →
  wp (release id) (λ r p', pool_inv sz h p' ∧
    match r with
    | Ok _ => ∃ s, holds p id s ∧ state s ∈ [Allocated; RecvCompleted; SendCompleted] ∧
                   slots p' = <[index id := set_state Free s]> (slots p) ∧ same_book p p'
    | Err _ => p' = p ∧ ¬ ∃ s, holds p id s ∧ state s ∈ [Allocated; RecvCompleted; SendCompleted]
    end) p.
Proof.
  intros Hp. unfold wp, release, holds.
  destruct (slots p !! index id) as [s|] eqn:Hs; [|naive_solver].
  destruct (Z.eqb_spec (slot_generation s) (generation id)) as [Hg|Hg]; simpl; [|naive_solver].
  case_decide as Hst; [|naive_solver].
  set (p' := match kind s with Tx => _ | Rx => _ end).
  assert (slots p' = <[index id := set_state Free s]> (slots p) ∧ same_book p p') as [Hsl Hb].
  { subst p'. destruct (kind s); done. }
  split; [|exists s; done]. destruct Hb as (Hle & Hse & _).
  pose proof (inv_slot _ _ _ Hp _ _ Hs) as (_ & _ & Hr & _).
  assert (state s ≠ Free) as Hnf by (intros Hf; solve_state).
  eapply pool_inv_update; [exact Hp|exact Hs|exact Hsl|exact Hle|exact Hse|done|done|done|done|done|..].
  - intros Hc. exfalso. eapply not_covered; [exact Hp|exact Hs| |exact Hc]. solve_state.
  - destruct (kind s) eqn:Hk.
    + by eapply lists_free_push; [apply Hp|exact Hs|exact Hsl|..].
    + eapply lists_free_same; [apply Hp|exact Hs|exact Hsl|]. simpl. naive_solver congruence.
  - destruct (kind s) eqn:Hk.
    + eapply lists_free_same; [apply Hp|exact Hs|exact Hsl|]. simpl. naive_solver congruence.
    + by eapply lists_free_push; [apply Hp|exact Hs|exact Hsl|..].
Qed.

(** The slots in use are as they were. *)
Definition keeps_used p p' : Prop :=
  ∀ i s, slots p !! i = Some s → state s ≠ Free → slots p' !! i = Some s.

Lemma keeps_used_refl p : keeps_used p p.
Proof. by intros ???. Qed.
Lemma keeps_used_trans p1 p2 p3 : keeps_used p1 p2 → keeps_used p2 p3 → keeps_used p1 p3.
Proof. unfold keeps_used. naive_solver. Qed.
Lemma keeps_used_posted X p p' : keeps_used p p' → keeps_posted X p p'.
Proof. intros Hk i s _ Hs Hst. apply Hk; [done|]. intros Hf. unfold posted_states in Hst. solve_state. Qed.
Lemma keeps_used_update p p' i s s' :
  slots p !! i = Some s → slots p' = <[i := s']> (slots p) → state s = Free → keeps_used p p'.
Proof.
  intros Hs Hp' Hst j s0 Hj Hne. rewrite Hp'. destruct (decide (j = i)) as [->|].
  - by simplify_eq.
  - by rewrite list_lookup_insert_ne.
Qed.

#[local] Hint Resolve same_book_refl keeps_used_refl keeps_posted_refl : core.

Lemma next_generation_range g : 0 ≤ g < 65536 → 1 ≤ next_generation g < 65536.
Proof.
  intros Hg. unfold next_generation, u_wrap. cbv zeta. change (2 ^ 16) with 65536.
  pose proof (Z.mod_pos_bound (g + 1) 65536 ltac:(lia)).
  destruct (Z.eqb_spec ((g + 1) mod 65536) 0); lia.
Qed.

Lemma SlotId_new_ok i g : 1 ≤ g → Z.of_nat i < 65536 → SlotId_new i g = Ok (mkSlotId i g).
Proof.
  intros Hg Hi. unfold SlotId_new, u_max. change (2 ^ 16 - 1) with 65535.
  destruct (Z.eqb_spec g 0); [lia|]. destruct (Z.ltb_spec 65535 (Z.of_nat i)); [lia|done].
Qed.

Lemma vec_pop_Some {A} (l : list A) x l' : vec_pop l = Some (x, l') ↔ l = l' ++ [x].
Proof.
  unfold vec_pop. destruct (reverse l) as [|y r] eqn:Hr.
  - split; [done|]. intros ->. by rewrite reverse_app in Hr.
  - apply (f_equal reverse) in Hr. rewrite reverse_involutive, reverse_cons in Hr. subst l.
    split; [by intros [= -> <-]|]. by intros [-> [= ->]]%app_inj_tail.
Qed.

Definition free_list (k : SlotKind) p : list nat := match k with Tx => free_tx p | Rx => free_rx p end.

Lemma pool_lists_free sz h p k : pool_inv sz h p → lists_free k p (free_list k p).
Proof. intros Hp. destruct k; apply Hp. Qed.

(** The slot [i] is taken from the free list of its kind with generation [g]. *)
Lemma take_slot_inv sz h p p' i s s' :
  pool_inv sz h p → slots p !! i = Some s → state s = Free →
  slots p' = <[i := s']> (slots p) → leases p' = leases p → segment p' = segment p →
  offset s' = offset s → len s' = len s → kind s' = kind s → state s' ≠ Free →
  1 ≤ slot_generation s' < 65536 →
  (∀ k, if decide (kind s = k) then free_list k p ≡ₚ i :: free_list k p'
        else free_list k p' = free_list k p) →
  pool_inv sz h p'.
Proof.
  intros Hp Hs Hfree Hsl Hle Hse Ho Hl Hk Hst Hg Hlists.
  assert (∀ k, lists_free k p' (free_list k p')) as Hlf.
  { intros k. specialize (Hlists k). case_decide as Hkk.
    - by eapply lists_free_pop; [by eapply pool_lists_free|exact Hlists|exact Hs|exact Hsl|].
    - rewrite Hlists. eapply lists_free_same; [by eapply pool_lists_free|exact Hs|exact Hsl|].
      naive_solver congruence. }
  eapply pool_inv_update; [exact Hp|exact Hs|done|done|done|done|done|done|lia|lia|..].
  - intros Hc. exfalso. eapply not_covered; [exact Hp|exact Hs| |exact Hc]. solve_state.
  - apply (Hlf Tx).
  - apply (Hlf Rx).
Qed.

Lemma allocate_spec sz h k p :
  pool_inv sz h p →
  match allocate k p with
  | (Some id, p') => pool_inv sz h p' ∧ same_book p p' ∧ 1 ≤ generation id < 65536 ∧
      free_list k p ≡ₚ index id :: free_list k p' ∧
      ∃ s, slots p !! index id = Some s ∧ kind s = k ∧ state s = Free ∧
           slots p' = <[index id := set_state Allocated (set_generation (generation id) s)]> (slots p)
  | (None, p') => p' = p ∧ (accepting p = false ∨ free_list k p = [])
  end.
Proof.
  intros Hp. unfold allocate. destruct (accepting p) eqn:Hacc; simpl; [|auto].
  assert (∀ i l, (free_list k p = l ++ [i] ∨ free_list k p = i :: l) →
    ∃ s, slots p !! i = Some s ∧ kind s = k ∧ state s = Free) as Hfree.
  { intros i l Hl. apply (pool_lists_free _ _ _ k Hp). destruct Hl as [-> | ->]; set_solver. }
  assert (∀ i s p1, slots p !! i = Some s → kind s = k → state s = Free →
    slots p1 = slots p → same_book p p1 → free_list k p ≡ₚ i :: free_list k p1 →
    (∀ k', k' ≠ k → free_list k' p1 = free_list k' p) →
    let g := next_generation (slot_generation s) in
    let p' := set_slots (<[i := set_state Allocated (set_generation g s)]> (slots p1)) p1 in
    SlotId_new i g = Ok (mkSlotId i g) ∧ pool_inv sz h p' ∧ same_book p p' ∧ 1 ≤ g < 65536) as Hstep.
  { intros i s p1 Hs Hk Hf Hsl Hb Hperm Hother g p'. destruct (inv_slot _ _ _ Hp _ _ Hs) as (_ & _ & Hg & _).
    pose proof (next_generation_range _ Hg) as Hg'.
    pose proof (lookup_lt_Some _ _ _ Hs). pose proof (inv_count _ _ _ Hp).
    split; [apply SlotId_new_ok; unfold g; lia|]. split; [|done].
    apply (take_slot_inv sz h p p' i s (set_state Allocated (set_generation g s))); try done.
    - subst p'. simpl. by rewrite Hsl.
    - apply Hb.
    - apply Hb.
    - intros k'. case_decide as Hkk.
      + subst k'. subst p'. rewrite Hk, Hperm. by destruct k.
      + subst p'. rewrite <- (Hother k') by congruence. by destruct k'. }
  destruct k.
  - destruct (vec_pop (free_tx p)) as [[i l]|] eqn:Hpop; simpl.
    + apply vec_pop_Some in Hpop. destruct (Hfree i l (or_introl Hpop)) as (s & Hs & Hk & Hf).
      rewrite Hs. destruct (Hstep i s (set_free_tx l p)) as (-> & Hinv & Hb & Hg); try done.
      * simpl. rewrite Hpop. by rewrite Permutation_app_comm.
      * by intros [].
      * split; [done|]. split; [done|]. split; [done|]. split; [|by exists s].
        simpl. rewrite Hpop. by rewrite Permutation_app_comm.
    + split; [done|]. right. simpl. destruct (free_tx p) as [|x l] using rev_ind; [done|].
      assert (vec_pop (l ++ [x]) = Some (x, l)) by (by apply vec_pop_Some). congruence.
  - destruct (free_rx p) as [|i l] eqn:Hpop; simpl; [auto|].
    destruct (Hfree i l (or_intror Hpop)) as (s & Hs & Hk & Hf).
    rewrite Hs. destruct (Hstep i s (set_free_rx l p)) as (-> & Hinv & Hb & Hg); try done.
    + simpl. by rewrite Hpop.
    + by intros [].
    + split; [done|]. split; [done|]. split; [done|]. split; [by simpl; rewrite Hpop|]. by exists s.
Qed.

Lemma keeps_used_book p p' : keeps_used p p' → ∀ id s, holds p id s → state s ≠ Free → holds p' id s.
Proof. intros Hk id s [Hs Hg] Hst. split; [by apply Hk | done]. Qed.

Lemma allocate_rx_spec sz h n p :
  pool_inv sz h p → accepting p = true → (n ≤ List.length (free_rx p))%nat →
  wp (allocate_rx n) (λ r p', ∃ ids, r = Ok ids ∧ pool_inv sz h p' ∧ same_book p p' ∧
    keeps_used p p' ∧ List.length ids = n ∧ NoDup (index <$> ids) ∧
    (∀ i, i ∉ index <$> ids → slots p' !! i = slots p !! i) ∧
    ∀ id, id ∈ ids → 1 ≤ generation id < 65536 ∧ is_free Rx p (index id) ∧
      ∃ s, holds p' id s ∧ kind s = Rx ∧ state s = Allocated) p.
Proof.
  induction n as [|n IH] in p |- *; intros Hp Hacc Hlen; simpl.
  { exists []. split; [done|]. split; [done|]. split; [apply same_book_refl|].
    split; [apply keeps_used_refl|]. split; [done|]. split; [constructor|]. split; [done|].
    by intros ? ?%not_elem_of_nil. }
  unfold wp. pose proof (allocate_spec sz h Rx p Hp) as Ha.
  destruct (allocate Rx p) as [[id|] p1].
  2:{ destruct Ha as (_ & [?|Hnil]); [congruence|]. simpl in Hnil. rewrite Hnil in Hlen. simpl in Hlen. lia. }
  destruct Ha as (Hp1 & Hb & Hg & Hperm & s & Hs & Hk & Hf & Hsl).
  assert (holds p1 id (set_state Allocated (set_generation (generation id) s))) as Hid.
  { split; [|done]. rewrite Hsl. apply list_lookup_insert_eq. by eapply lookup_lt_Some. }
  change (wp (ids ← allocate_rx n; mret (id :: ids))
    (λ r p', ∃ ids, r = Ok ids ∧ pool_inv sz h p' ∧ same_book p p' ∧ keeps_used p p' ∧
      List.length ids = S n ∧ NoDup (index <$> ids) ∧
      (∀ i, i ∉ index <$> ids → slots p' !! i = slots p !! i) ∧
      ∀ id, id ∈ ids → 1 ≤ generation id < 65536 ∧ is_free Rx p (index id) ∧
        ∃ s, holds p' id s ∧ kind s = Rx ∧ state s = Allocated) p1).
  apply wp_bind. eapply wp_mono; [apply IH; [done| |]|].
  { destruct Hb as (_ & _ & _ & Ha). congruence. }
  { apply Permutation_length in Hperm. simpl in Hperm. lia. }
  intros r p' (ids & -> & Hp' & Hb' & Hku & Hl & Hnd & Hfr & Hids).
  assert (keeps_used p p1) as Hku1 by by eapply keeps_used_update.
  exists (id :: ids). split; [done|]. split; [done|]. split; [by eapply same_book_trans|].
  split; [by eapply keeps_used_trans|]. split; [by simpl; rewrite Hl|]. split; [|split].
  2:{ intros i [Hi1 Hi2]%not_elem_of_cons. rewrite Hfr by done. rewrite Hsl. by apply list_lookup_insert_ne. }
  - rewrite fmap_cons. constructor; [|done]. intros (id' & Hi & Hin)%list_elem_of_fmap.
    destruct (Hids id' Hin) as (_ & (s0 & Hs0 & _ & Hf0) & _). rewrite <- Hi, (proj1 Hid) in Hs0.
    by simplify_eq.
  - intros id' [->|Hin]%elem_of_cons.
    + split; [done|]. split; [by exists s|]. eexists. split; [by eapply keeps_used_book|]. done.
    + destruct (Hids id' Hin) as (? & Hfree & ?). split; [done|]. split; [|done].
      apply (is_free_update Rx p p1 _ _ _ (index id') Hs Hsl) in Hfree
        as [[_ ?]|(_ & _ & Hst)]; [done|]. by simpl in Hst.
Qed.

(** [allocate_rx_window] takes [count] free receive slots, or nothing. *)
Lemma allocate_rx_window_spec sz h count p :
  pool_inv sz h p →
  wp (allocate_rx_window count) (λ r p', pool_inv sz h p' ∧ same_book p p' ∧ keeps_used p p' ∧
    match r with
    | Ok ids => List.length ids = count ∧ NoDup (index <$> ids) ∧
        (∀ i, i ∉ index <$> ids → slots p' !! i = slots p !! i) ∧
        ∀ id, id ∈ ids → 1 ≤ generation id < 65536 ∧ is_free Rx p (index id) ∧
          ∃ s, holds p' id s ∧ kind s = Rx ∧ state s = Allocated
    | Err _ => p' = p
    end) p.
Proof.
  intros Hp. unfold allocate_rx_window. apply wp_bind. unfold pr_guard at 1.
  destruct (Nat.eqb_spec count 0); [by split_and!|]. apply wp_bind. unfold wp at 1, pr_gets.
  apply wp_bind. unfold pr_guard. simpl.
  destruct (accepting p) eqn:Hacc; simpl; [|by split_and!].
  destruct (Nat.ltb_spec (List.length (free_rx p)) count); [by split_and!|]. unfold wp at 1.
  eapply wp_mono; [by eapply allocate_rx_spec|]. intros r p' (ids & -> & ? & ? & ? & ?). done.
Qed.

Lemma transitions_spec sz h from to ids p :
  pool_inv sz h p → from ≠ Free → to ≠ Free → from ≠ to →
  (∀ id, id ∈ ids → covered h p (index id) →
     ∀ k, guarded h k → from ∈ lease_states k → to ∈ lease_states k) →
  wp (pr_for (λ id, transition id from to) ids) (λ r p', pool_inv sz h p' ∧ same_book p p' ∧
    (∀ i, i ∉ index <$> ids → slots p' !! i = slots p !! i) ∧
    match r with
    | Ok _ => NoDup (index <$> ids) ∧ ∀ id, id ∈ ids → ∃ s, holds p id s ∧ state s = from ∧
                                              holds p' id (set_state to s)
    | Err _ => NoDup (index <$> ids) → ¬ ∀ id, id ∈ ids → ∃ s, holds p id s ∧ state s = from
    end) p.
Proof.
  intros Hp Hf Ht Hne Hcov. induction ids as [|id ids IH] in p, Hp, Hcov |- *; simpl.
  { split; [done|]. split; [apply same_book_refl|]. split; [done|]. split; [constructor|].
    by intros ? ?%not_elem_of_nil. }
  apply wp_bind. eapply wp_mono; [apply transition_spec; [exact Hp|done|done|apply Hcov; by left]|].
  intros [[]|e] p1 [Hp1 Hr].
  2:{ destruct Hr as [-> Hno]. split_and!; try done. intros _ Hall. apply Hno, Hall. by left. }
  destruct Hr as (s & [Hs Hg] & Hst & ->).
  eapply wp_mono; [apply IH; [exact Hp1|]|].
  { intros id' Hin Hc. apply (Hcov id'); [by right|]. exact Hc. }
  intros r p' (Hp' & Hb & Hframe & Hr). split; [done|]. split; [exact Hb|].
  assert (∀ i, i ≠ index id → slots (set_slots (<[index id := set_state to s]> (slots p)) p) !! i
    = slots p !! i) as Hother by (intros; apply list_lookup_insert_ne; done).
  assert (slots (set_slots (<[index id := set_state to s]> (slots p)) p) !! index id
    = Some (set_state to s)) as Hhere by by apply list_lookup_insert_eq; eapply lookup_lt_Some.
  split.
  { intros i [Hi1 Hi2]%not_elem_of_cons. rewrite Hframe by done. by apply Hother. }
  destruct r as [[]|e].
  - destruct Hr as [Hnd Hids].
    assert (index id ∉ index <$> ids) as Hni.
    { intros (id' & Hi & Hin)%list_elem_of_fmap. destruct (Hids id' Hin) as (s0 & [Hs0 _] & Hst0 & _).
      rewrite <- Hi, Hhere in Hs0. by simplify_eq. }
    split; [by constructor|]. intros id' [->|Hin]%elem_of_cons.
    + exists s. split; [done|]. split; [done|]. split; [|done]. by rewrite Hframe.
    + destruct (Hids id' Hin) as (s0 & [Hs0 Hg0] & Hst0 & Hh). exists s0. split; [|done].
      split; [|done]. rewrite <- Hs0. symmetry. apply Hother.
      intros Hi. apply Hni. rewrite <- Hi. by apply list_elem_of_fmap_2.
  - intros [Hni Hnd]%NoDup_cons Hall. apply Hr; [done|]. intros id' Hin.
    destruct (Hall id') as (s0 & [Hs0 Hg0] & Hst0); [by right|]. exists s0. split; [|done].
    split; [|done]. rewrite Hother; [done|]. intros Hi. apply Hni. rewrite <- Hi.
    by apply list_elem_of_fmap_2.
Qed.

(** ** Giving slots back *)

(** A state from which [release] frees a slot. *)
Definition releasable : list SlotState := [Allocated; RecvCompleted; SendCompleted].

(** Slots that no lease covers, each taken to a releasable state and released. *)
Lemma release_all_spec sz h from to ids p :
  pool_inv sz h p → from ≠ Free → to ∈ releasable → NoDup (index <$> ids) →
  (∀ id, id ∈ ids → ¬ covered h p (index id) ∧ ∃ s, holds p id s ∧ state s = from) →
  wp (pr_for (λ id, _ ← transition id from to; release id) ids) (λ r p', r = Ok tt ∧
    pool_inv sz h p' ∧ same_book p p' ∧
    (∀ i, i ∉ index <$> ids → slots p' !! i = slots p !! i) ∧
    (∀ id, id ∈ ids → ∃ s, holds p id s ∧ holds p' id (set_state Free s))) p.
Proof.
  intros Hp Hf Hto. induction ids as [|id ids IH] in p, Hp |- *; intros Hnd Hids; simpl.
  { split; [done|]. split; [done|]. split; [done|]. split; [done|]. by intros ? ?%not_elem_of_nil. }
  apply NoDup_cons in Hnd as [Hni Hnd].
  destruct (Hids id (list_elem_of_here _ _)) as (Hnc & s & [Hs Hg] & Hst).
  assert (to ≠ Free) as Htf by (intros ->; unfold releasable in Hto; solve_state).
  apply wp_bind, wp_bind. eapply wp_mono; [by apply (transition_spec sz h)|].
  intros [[]|e] p1 [Hp1 Hr]; [|exfalso; destruct Hr as [_ Hno]; apply Hno; by exists s].
  destruct Hr as (s0 & [Hs0 _] & _ & ->). simplify_eq.
  assert (holds (set_slots (<[index id := set_state to s]> (slots p)) p) id (set_state to s)) as Hh.
  { split; [|done]. apply list_lookup_insert_eq. by eapply lookup_lt_Some. }
  eapply wp_mono; [by apply (release_spec sz h)|].
  intros [[]|e] p2 [Hp2 Hr]; [|exfalso; destruct Hr as [_ Hno]; apply Hno; by exists (set_state to s)].
  destruct Hr as (s0 & [Hs1 _] & _ & Hsl & Hb). rewrite (proj1 Hh) in Hs1. simplify_eq.
  simpl in Hsl. rewrite list_insert_insert_eq in Hsl. change (set_state Free (set_state to s)) with (set_state Free s) in Hsl.
  assert (∀ i, i ≠ index id → slots p2 !! i = slots p !! i) as Hother.
  { intros i Hi. rewrite Hsl. by apply list_lookup_insert_ne. }
  eapply wp_mono; [apply IH; [done|done|]|].
  { intros id' Hin. destruct (Hids id') as (Hnc' & s' & [Hs' Hg'] & Hst'); [by right|]. split.
    - intros (lid & r & id0 & Hr & Hrest). apply Hnc'. exists lid, r, id0.
      destruct Hb as (Hle & _). rewrite Hle in Hr. done.
    - exists s'. split; [|done]. split; [|done]. rewrite Hother; [done|].
      intros Hi. apply Hni. rewrite <- Hi. by apply list_elem_of_fmap_2. }
  intros r p' (-> & Hp' & Hb' & Hframe & Hids'). split; [done|]. split; [done|].
  split; [by eapply same_book_trans; [exact Hb|]|]. split.
  - intros i [Hi1 Hi2]%not_elem_of_cons. rewrite Hframe by done. by apply Hother.
  - intros id' [->|Hin]%elem_of_cons.
    + exists s. split; [done|]. split; [|done]. rewrite Hframe by done. rewrite Hsl.
      apply list_lookup_insert_eq. by eapply lookup_lt_Some.
    + destruct (Hids' id' Hin) as (s' & [Hs' Hg'] & Hh'). exists s'. split; [|done].
      split; [|done]. rewrite <- Hs'. symmetry. apply Hother. intros Hi. apply Hni. rewrite <- Hi.
      by apply list_elem_of_fmap_2.
Qed.

(** The slots of a window, released one by one. *)
Lemma releases_spec sz h ids p :
  pool_inv sz h p → NoDup (index <$> ids) →
  (∀ id, id ∈ ids → ∃ s, holds p id s ∧ state s ∈ releasable) →
  wp (pr_for release ids) (λ r p', r = Ok tt ∧ pool_inv sz h p' ∧ same_book p p' ∧
    (∀ i, i ∉ index <$> ids → slots p' !! i = slots p !! i) ∧
    (∀ id, id ∈ ids → ∃ s, holds p id s ∧ holds p' id (set_state Free s))) p.
Proof.
  induction ids as [|id ids IH] in p |- *; intros Hp Hnd Hids; simpl.
  { split; [done|]. split; [done|]. split; [done|]. split; [done|]. by intros ? ?%not_elem_of_nil. }
  apply NoDup_cons in Hnd as [Hni Hnd].
  destruct (Hids id (list_elem_of_here _ _)) as (s & [Hs Hg] & Hst).
  apply wp_bind. eapply wp_mono; [by apply (release_spec sz h)|].
  intros [[]|e] p2 [Hp2 Hr]; [|exfalso; destruct Hr as [_ Hno]; apply Hno; exists s; by split].
  destruct Hr as (s0 & [Hs1 _] & _ & Hsl & Hb). rewrite Hs in Hs1. injection Hs1 as <-.
  assert (∀ i, i ≠ index id → slots p2 !! i = slots p !! i) as Hother.
  { intros i Hi. rewrite Hsl. by apply list_lookup_insert_ne. }
  eapply wp_mono; [apply IH; [done|done|]|].
  { intros id' Hin. destruct (Hids id') as (s' & [Hs' Hg'] & Hst'); [by right|].
    exists s'. split; [|done]. split; [|done]. rewrite Hother; [done|].
    intros Hi. apply Hni. rewrite <- Hi. by apply list_elem_of_fmap_2. }
  intros r p' (-> & Hp' & Hb' & Hframe & Hids'). split; [done|]. split; [done|].
  split; [by eapply same_book_trans; [exact Hb|]|]. split.
  - intros i [Hi1 Hi2]%not_elem_of_cons. rewrite Hframe by done. by apply Hother.
  - intros id' [->|Hin]%elem_of_cons.
    + exists s. split; [done|]. split; [|done]. rewrite Hframe by done. rewrite Hsl.
      apply list_lookup_insert_eq. by eapply lookup_lt_Some.
    + destruct (Hids' id' Hin) as (s' & [Hs' Hg'] & Hh'). exists s'. split; [|done].
      split; [|done]. rewrite <- Hs'. symmetry. apply Hother. intros Hi. apply Hni. rewrite <- Hi.
      by apply list_elem_of_fmap_2.
Qed.

(** [slot_fields] finds the slot at the generation of the identity. *)
Lemma slot_fields_Ok p id s : slot_fields p id = Ok s ↔ holds p id s.
Proof.
  unfold slot_fields, holds. destruct (slots p !! index id) as [s0|]; simpl; [|naive_solver].
  destruct (Z.eqb_spec (slot_generation s0) (generation id)); simpl; naive_solver.
Qed.

(** The book without one lease. *)
Definition close_lease (lid : Z) p : Pool :=
  set_leases (mkLeaseBook (pool_id (leases p)) (next_lease_id (leases p))
                (delete lid (active (leases p)))) p.

Lemma close_lease_inv sz h p lid : pool_inv sz h p → pool_inv sz h (close_lease lid p).
Proof.
  intros Hp. assert (∀ l r, delete lid (active (leases p)) !! l = Some r → active (leases p) !! l = Some r) as Hd.
  { by intros l r [_ ?]%lookup_delete_Some. }
  split; simpl; try apply Hp.
  - intros l r Hr%Hd. by eapply Hp.
  - intros l r Hr%Hd. destruct (inv_leases _ _ _ Hp _ _ Hr). by split.
  - intros ???? ?? ?%Hd ?%Hd. by apply Hp.
  - intros Hne. apply Hp. intros He. apply Hne. by rewrite He, delete_empty.
Qed.

(** The slots of a lease that ended are covered by no other. *)
Lemma close_lease_uncovers sz h p lid r id :
  pool_inv sz h p → active (leases p) !! lid = Some r → guarded h (lease_kind r) →
  id ∈ lease_slots r → ¬ covered h (close_lease lid p) (index id).
Proof.
  intros Hp Hr Hg Hid (l & r' & id' & Hl & Hg' & Hid' & Hi). simpl in Hl.
  apply lookup_delete_Some in Hl as [Hne Hl]. apply Hne. by eapply (inv_disjoint _ _ _ Hp).
Qed.

(** A lease is recycled entirely or not at all, and afterwards its slots are
    free and every other slot is as it was. *)
Lemma recycle_spec sz h rc k p :
  pool_inv sz h p →
  wp (recycle rc k) (λ r p', pool_inv sz h p' ∧
    match r with
    | Ok n => ∃ rec, record (leases p) rc = Ok rec ∧ lease_kind rec = k ∧
        n = Z.of_nat (List.length (lease_slots rec)) ∧ same_book (close_lease (lease_id rc) p) p' ∧
        (∀ i, i ∉ index <$> lease_slots rec → slots p' !! i = slots p !! i) ∧
        (∀ id, id ∈ lease_slots rec → ∃ s, holds p id s ∧ kind s = lease_slot_kind k ∧
           state s = leased_state k ∧ holds p' id (set_state Free s))
    | Err _ => p' = p ∧ ¬ ∃ rec, record (leases p) rc = Ok rec ∧ lease_kind rec = k ∧
        ∀ id, id ∈ lease_slots rec → ∃ s, holds p id s ∧ kind s = lease_slot_kind k ∧
           state s = leased_state k
    end) p.
Proof.
  intros Hp. unfold recycle. apply wp_bind_gets, wp_bind_lift.
  2:{ intros e He. split; [done|]. split; [done|]. intros (? & ? & _). congruence. }
  intros rec Hrec. apply wp_bind_guard.
  { intros Hk%bool_decide_eq_true. split; [done|]. split; [done|]. intros (? & ? & ? & _). congruence. }
  intros Hk%bool_decide_eq_false. apply dec_stable in Hk. subst k.
  apply wp_bind. eapply wp_mono.
  { apply (wp_checks _ (λ id, ∃ s, holds p id s ∧ kind s = lease_slot_kind (lease_kind rec) ∧
                           state s = leased_state (lease_kind rec))). intros id _.
    apply wp_bind_lift; [|intros e He; split; [done|]; intros (s & Hs%slot_fields_Ok & _); congruence].
    intros s Hs%slot_fields_Ok. unfold wp, pr_guard. case_bool_decide as Hd; simpl.
    - split; [done|]. exists s. naive_solver.
    - split; [done|]. intros (s' & [Hs' _] & Hd'). destruct Hs as [Hs _]. rewrite Hs in Hs'.
      by simplify_eq. }
  intros [[]|e] p0 [-> Hall].
  2:{ split; [done|]. split; [done|]. intros (rec' & Hrec' & _ & Hall').
    rewrite Hrec in Hrec'. injection Hrec' as <-. by apply Hall. }
  assert (active (leases p) !! lease_id rc = Some rec) as Hact.
  { unfold record in Hrec. destruct (_ =? _) in Hrec; [|done]. simpl in Hrec.
    destruct (active (leases p) !! lease_id rc); naive_solver. }
  apply wp_bind. unfold wp at 1, finish. rewrite Hrec.
  pose proof (close_lease_inv sz h p (lease_id rc) Hp) as Hp1. pose proof (inv_leases _ _ _ Hp _ _ Hact) as Hok.
  apply wp_bind. eapply wp_mono.
  { apply (release_all_spec sz h); [exact Hp1|by destruct (lease_kind rec)|
      destruct (lease_kind rec); unfold releasable; solve_state|apply Hok|].
    intros id Hid. destruct (Hall id Hid) as (s & Hs & _ & Hst). split; [|by exists s].
    intros Hc. destruct (decide (lease_kind rec = LeaseRx ∨ h = true)) as [Hg|Hg].
    - exact (close_lease_uncovers sz h p _ rec id Hp Hact Hg Hid Hc).
    - destruct (covered_state sz h _ _ s Hp1 (proj1 Hs) Hc) as (k & Hgk & _ & Hin).
      destruct (lease_kind rec); [tauto|]. destruct Hgk as [->|]; [|tauto].
      rewrite Hst in Hin. simpl in Hin. solve_state. }
  intros r p' (-> & Hp' & Hb & Hframe & Hids). split; [done|].
  exists rec. split; [done|]. split; [done|]. split; [done|]. split; [done|]. split; [done|].
  intros id Hid. destruct (Hids id Hid) as (s & Hs & Hs'). exists s. split; [done|].
  destruct (Hall id Hid) as (s0 & [Hs0 _] & Hk0 & Hst0). destruct Hs as [Hs _]. simpl in Hs. by simplify_eq.
Qed.

(** ** Issuing leases *)

(** The slots of a new lease: in its state, held by no lease. *)
Definition leasable (h : bool) p (k : LeaseKind) (ids : list SlotId) : Prop :=
  NoDup (index <$> ids) ∧
  ∀ id, id ∈ ids → ¬ covered h p (index id) ∧
    ∃ s, holds p id s ∧ kind s = lease_slot_kind k ∧ state s = leased_state k.

Lemma pool_issue_spec sz h k ids p :
  pool_inv sz h p → is_Some (segment p) → leasable h p k ids →
  wp (pool_issue k ids) (λ r p', pool_inv sz h p' ∧
    match r with
    | Ok rc => record (leases p') rc = Ok (mkLeaseRecord k ids) ∧
        lease_id rc = next_lease_id (leases p) ∧ ∃ b, p' = set_leases b p ∧
        active b = <[lease_id rc := mkLeaseRecord k ids]> (active (leases p))
    | Err _ => p' = p
    end) p.
Proof.
  intros Hp Hseg [Hnd Hids]. unfold wp, pool_issue, issue.
  assert (set_leases (leases p) p = p) as Hsame by by destruct p.
  destruct ids as [|id0 ids0] eqn:Heq; [by rewrite Hsame|]. rewrite <- Heq in *. clear id0 ids0 Heq.
  destruct (u64_checked_add _ _) as [next|] eqn:Hu; [|by rewrite Hsame].
  apply u64_checked_add_Some in Hu as ->.
  destruct (Z.eqb_spec (next_lease_id (leases p) + 1) 0); [by rewrite Hsame|].
  set (lid := next_lease_id (leases p)).
  assert (active (leases p) !! lid = None) as Hfresh.
  { destruct (active (leases p) !! lid) eqn:Hl; [|done]. apply Hp in Hl. unfold lid in Hl. lia. }
  split; [|split; [|split; [done|]]].
  - split; simpl; try apply Hp.
    + intros l r [[<- _]|[_ Hl]]%lookup_insert_Some; [lia|]. apply Hp in Hl. lia.
    + intros l r [[<- <-]|[_ Hl]]%lookup_insert_Some.
      * split; [done|]. intros _ id Hid. destruct (Hids id Hid) as (_ & s & Hs & Hk & Hst).
        exists s. split; [done|]. split; [done|]. rewrite Hst. destruct k; simpl; set_solver.
      * destruct (inv_leases _ _ _ Hp _ _ Hl). by split.
    + assert (∀ id l r id', id ∈ ids → active (leases p) !! l = Some r → guarded h (lease_kind r) →
        id' ∈ lease_slots r → index id = index id' → False) as Hdis.
      { intros id l r id' Hid Hl Hg Hid' Hi. apply (Hids id Hid). by exists l, r, id'. }
      intros l1 l2 r1 r2 id1 id2 [[<- <-]|[_ Hl1]]%lookup_insert_Some
        [[<- <-]|[_ Hl2]]%lookup_insert_Some Hg1 Hg2 Hin1 Hin2 Hi; simpl in *; [done|..].
      * exfalso. by eapply (Hdis id1 l2 r2 id2).
      * exfalso. by eapply (Hdis id2 l1 r1 id1).
      * by eapply Hp.
    + done.
  - unfold record. simpl. rewrite Z.eqb_refl. simpl. by rewrite lookup_insert_eq.
  - eexists. done.
Qed.

(** The addresses of a span, and of a completion's part of its slot. *)
Definition span_bytes (s : RegisteredSpan) : list Z := seqZ (data s) (span_length s).
Definition slot_bytes (base : Z) p (c : SlotId * Z) : list Z :=
  match slots p !! index c.1 with Some s => seqZ (base + offset s) c.2 | None => [] end.

(** What the loop over completions computes from [spans] and [total]. *)
Definition rx_spans_post (base rlen : Z) (cs : list (SlotId * Z)) (spans : list RegisteredSpan)
    (total : Z) p (r : Result (list RegisteredSpan * Z)) p' : Prop :=
  p' = p ∧
  match r with
  | Ok (spans', total') =>
      spans' ≫= span_bytes = (spans ≫= span_bytes) ++ (cs ≫= slot_bytes base p) ∧
      total' = total + foldr Z.add 0 (snd <$> cs) ∧
      ∀ c, c ∈ cs → ∃ s, holds p c.1 s ∧ kind s = Rx ∧ state s = RecvCompleted ∧
                         1 ≤ c.2 ≤ len s ∧ offset s + c.2 ≤ rlen
  | Err _ => True
  end.

Definition ends_at (base : Z) (spans : list RegisteredSpan) (e : Z) : Prop :=
  ∃ l s, spans = l ++ [s] ∧ data s + span_length s = base + e ∧ 0 ≤ span_length s.

(** Adjacent slots become one span, with the same addresses in the same order. *)
Lemma rx_lease_spans_spec base rlen cs prev spans total p :
  (∀ c, c ∈ cs → 0 ≤ c.2) → (∀ e, prev = Some e → ends_at base spans e) →
  wp (rx_lease_spans base rlen cs prev spans total) (rx_spans_post base rlen cs spans total p) p.
Proof.
  induction cs as [|[id n] cs IH] in prev, spans, total |- *; intros Hlen Hprev; simpl.
  { split; [done|]. split; [by rewrite app_nil_r|]. split; [simpl; lia|]. by intros ? ?%not_elem_of_nil. }
  apply wp_bind_gets, wp_bind_lift; [|done]. intros s Hs%slot_fields_Ok.
  apply wp_bind_guard; [done|]. intros Hst%bool_decide_eq_false.
  assert (kind s = Rx ∧ state s = RecvCompleted) as [Hk Hst'] by (split; apply dec_stable; tauto).
  apply wp_bind_guard; [done|]. intros [Hn0%Z.eqb_neq Hnl%Z.ltb_ge]%orb_false_iff.
  apply wp_bind_guard; [done|]. intros _. apply wp_bind_lift; [|done].
  intros end_ Hend%ok_or_Ok%u64_checked_add_Some. subst end_.
  apply wp_bind_guard; [done|]. intros Hr%Z.ltb_ge.
  assert (0 ≤ n) as Hn by (apply (Hlen (id, n)); by left).
  assert (∀ spans1, spans1 ≫= span_bytes = (spans ≫= span_bytes) ++ seqZ (base + offset s) n →
    ends_at base spans1 (offset s + n) →
    wp (total ← pr_lift (ok_or (Protocol "RX lease length overflow") (u64_checked_add total n));
        rx_lease_spans base rlen cs (Some (offset s + n)) spans1 total)
      (rx_spans_post base rlen ((id, n) :: cs) spans total p) p) as Hrest.
  { intros spans1 Hsp Hl. apply wp_bind_lift; [|done]. intros t Ht%ok_or_Ok%u64_checked_add_Some.
    eapply wp_mono; [apply IH; [intros; apply Hlen; by right | by intros e [= <-]]|].
    intros [[spans' total']|e] p' [-> Hok]; split; try done. destruct Hok as (Hb & -> & Hall).
    split; [|split; [csimpl; lia|]].
    - rewrite Hb, Hsp, <- app_assoc. simpl. do 2 f_equal. unfold slot_bytes. simpl. by rewrite (proj1 Hs).
    - intros c [->|Hc]%elem_of_cons; [|by apply Hall]. exists s. simpl. split_and!; try done; lia. }
  case_decide as Hadj.
  - destruct (Hprev _ Hadj) as (l & s1 & -> & Hs1 & Hs1l). unfold extend_last.
    rewrite (proj2 (vec_pop_Some (l ++ [s1]) s1 l)) by done. simpl. apply wp_bind.
    unfold wp at 1. simpl. destruct (u64_checked_add (span_length s1) n) as [m|] eqn:Hm; simpl; [|done].
    apply u64_checked_add_Some in Hm as ->. apply Hrest.
    + rewrite !bind_app, <- app_assoc. f_equal. simpl. rewrite !app_nil_r. unfold span_bytes. simpl.
      rewrite seqZ_app by done. do 2 f_equal. lia.
    + exists l. eexists. split; [done|]. simpl. lia.
  - apply wp_bind. unfold wp at 1. simpl. apply Hrest.
    + rewrite bind_app. simpl. by rewrite app_nil_r.
    + exists spans. eexists. split; [done|]. simpl. lia.
Qed.

(** Moving slots to another state and back changes nothing. *)
Lemma transitions_back p p1 p2 from to (ids : list SlotId) :
  (∀ i, i ∉ index <$> ids → slots p1 !! i = slots p !! i) →
  (∀ id, id ∈ ids → ∃ s, holds p id s ∧ state s = from ∧ holds p1 id (set_state to s)) →
  (∀ i, i ∉ index <$> ids → slots p2 !! i = slots p1 !! i) →
  (∀ id, id ∈ ids → ∃ s, holds p1 id s ∧ state s = to ∧ holds p2 id (set_state from s)) →
  slots p2 = slots p.
Proof.
  intros Hf1 H1 Hf2 H2. apply list_eq. intros i.
  destruct (decide (i ∈ index <$> ids)) as [(id & -> & Hid)%list_elem_of_fmap|Hi].
  - destruct (H1 id Hid) as (s & [Hs _] & Hst & [Hs1 _]), (H2 id Hid) as (s' & [Hs' _] & _ & [Hs2 _]).
    rewrite Hs, Hs2. rewrite Hs1 in Hs'. injection Hs' as <-. by destruct s; simpl in *; subst.
  - by rewrite Hf2, Hf1.
Qed.

Lemma lease_completed_rx_window_spec sz h cs p :
  pool_inv sz h p → (∀ c, c ∈ cs → 0 ≤ c.2) →
  wp (lease_completed_rx_window cs) (λ r p', pool_inv sz h p' ∧
    (∀ i, i ∉ index <$> (fst <$> cs) → slots p' !! i = slots p !! i) ∧
    match r with
    | Ok l => ∃ rc base rlen, rx_cores l = [Some rc] ∧ pipeline_permit l = false ∧
        record (leases p') rc = Ok (mkLeaseRecord LeaseRx (fst <$> cs)) ∧
        active (leases p') = <[lease_id rc := mkLeaseRecord LeaseRx (fst <$> cs)]> (active (leases p)) ∧
        active (leases p) !! lease_id rc = None ∧
        rx_length l = foldr Z.add 0 (snd <$> cs) ∧
        rx_spans l ≫= span_bytes = cs ≫= slot_bytes base p ∧
        ∀ c, c ∈ cs → ∃ s, holds p c.1 s ∧ kind s = Rx ∧ state s = RecvCompleted ∧
          1 ≤ c.2 ≤ len s ∧ offset s + c.2 ≤ rlen ∧ holds p' c.1 (set_state LeasedRx s)
    | Err _ => leases p' = leases p ∧ (NoDup (index <$> (fst <$> cs)) → slots p' = slots p)
    end) p.
Proof.
  intros Hp Hlen. unfold lease_completed_rx_window. apply wp_bind_guard; [done|]. intros _.
  apply wp_bind_gets, wp_bind_lift; [|done]. intros [base rlen] Hseg.
  assert (is_Some (segment p)) as Hsome.
  { unfold segment_handle in Hseg. destruct (segment p); [done|]. done. }
  apply wp_bind. eapply wp_mono; [by apply rx_lease_spans_spec|].
  intros [[spans total]|e] p0 [-> Hspans]; [|done]. destruct Hspans as (Hbytes & -> & Hcs).
  set (ids := fst <$> cs) in *.
  assert (∀ id, id ∈ ids → ∃ s, holds p id s ∧ kind s = Rx ∧ state s = RecvCompleted) as Hids.
  { intros id (c & -> & Hc)%list_elem_of_fmap. destruct (Hcs c Hc) as (s & ? & ? & ? & _). by exists s. }
  apply wp_bind. eapply wp_mono; [apply (transitions_spec sz h); try done|].
  { intros id _ _ [] _ Hin; simpl in Hin; solve_state. }
  intros [[]|e] p1 (Hp1 & Hb1 & Hf1 & Hr).
  2:{ split; [done|]. split; [done|]. split; [apply Hb1|]. intros Hnd. exfalso. apply (Hr Hnd).
      intros id Hid. destruct (Hids id Hid) as (s & ? & _ & ?). by exists s. }
  destruct Hr as [Hnd Hmoved].
  assert (∀ id, id ∈ ids → ¬ covered h p1 (index id)) as Hnc.
  { intros id Hid Hc. destruct (Hids id Hid) as (s & [Hs _] & _ & Hst).
    apply (not_covered sz h p (index id) s Hp Hs); [rewrite Hst; solve_state|].
    destruct Hc as (lid & r & id' & Hr & Hrest). exists lid, r, id'. destruct Hb1 as (Hle & _).
    by rewrite Hle in Hr. }
  apply wp_bind_catch. eapply wp_mono.
  { apply (pool_issue_spec sz h); [exact Hp1|destruct Hb1 as (_ & -> & _); done|].
    split; [done|]. intros id Hid. split; [by apply Hnc|].
    destruct (Hmoved id Hid) as (s & Hs & _ & Hs1). exists (set_state LeasedRx s). split; [done|].
    destruct (Hids id Hid) as (s' & [Hs' _] & Hk & _). destruct Hs as [Hs _]. simplify_eq. done. }
  destruct Hb1 as (Hle & Hse & _). intros [rc|e] p2 [Hp2 Hr].
  - destruct Hr as (Hrec & Hlid & b & -> & Hact). split; [done|]. split; [done|].
    exists rc, base, rlen. split; [done|]. split; [done|]. split; [done|]. simpl.
    split; [by rewrite Hact, Hle|]. split.
    { rewrite Hlid, Hle. destruct (active (leases p) !! _) eqn:Hold; [|done].
      apply (inv_lease_ids _ _ _ Hp) in Hold. lia. }
    split; [done|]. split; [done|]. intros c Hc.
    destruct (Hcs c Hc) as (s & [Hs ?] & ? & ? & ? & ?). exists s. split_and!; try done; try lia.
    destruct (Hmoved c.1) as (s' & [Hs' _] & _ & [Hs1 _]); [by apply list_elem_of_fmap_2|]. by simplify_eq.
  - subst p2. apply wp_bind. eapply wp_mono; [apply (transitions_spec sz h); try done|].
    { intros id Hid Hc. exfalso. by apply (Hnc id). }
    intros [[]|e'] p3 (Hp3 & Hb3 & Hf3 & Hr).
    + destruct Hr as [_ Hback]. split; [done|]. split; [intros i Hi; rewrite Hf3, Hf1; done|].
      split; [by destruct Hb3 as (-> & _)|]. intros _. by eapply transitions_back.
    + exfalso. apply (Hr Hnd). intros id Hid. destruct (Hmoved id Hid) as (s & _ & _ & Hs1).
      by exists (set_state LeasedRx s).
Qed.

(** ** Send windows *)

Abbreviation prepared_tx := (nat * SlotId * Z * Z * Z)%type.
Definition prepared_index (x : prepared_tx) : nat := x.1.1.1.1.
Definition prepared_id (x : prepared_tx) : SlotId := x.1.1.1.2.

(** Taking the prepared slots, with their indices already off the free list. *)
Lemma take_tx_slots_spec sz h (prepared : list prepared_tx) rest p :
  pool_inv sz h p → free_tx p ≡ₚ (prepared_index <$> prepared) ++ rest →
  (∀ x, x ∈ prepared → 1 ≤ generation (prepared_id x) < 65536) →
  wp (pr_for take_tx_slot prepared) (λ r p', r = Ok tt ∧ pool_inv sz h p' ∧ same_book p p' ∧
    keeps_used p p' ∧
    (∀ i, i ∉ prepared_index <$> prepared → slots p' !! i = slots p !! i) ∧
    ∀ x, x ∈ prepared → ∃ s, slots p !! prepared_index x = Some s ∧ kind s = Tx ∧ state s = Free ∧
      slots p' !! prepared_index x =
        Some (set_state LeasedTx (set_generation (generation (prepared_id x)) s)))
    (set_free_tx rest p).
Proof.
  induction prepared as [|x prepared IH] in p |- *; intros Hp Hperm Hgen; simpl.
  { split; [done|]. simpl in Hperm. split; [|split; [done|split; [by intros ???|split; [done|]]]].
    - destruct Hp as [? ? [Hnd Hf] ? ? Hlo ? ?]. split; try done; try (intros l r Hr; split; by eapply Hlo).
      split; [by simpl; rewrite <- Hperm|]. intros j. change (j ∈ rest ↔ is_free Tx p j). by rewrite <- Hperm.
    - by intros ? ?%not_elem_of_nil. }
  destruct (proj2 (inv_free_tx _ _ _ Hp) (prepared_index x)) as [Hin _].
  destruct Hin as (s & Hs & Hk & Hf); [rewrite Hperm, fmap_cons; set_solver|].
  set (s' := set_state LeasedTx (set_generation (generation (prepared_id x)) s)).
  set (p1 := set_free_tx ((prepared_index <$> prepared) ++ rest)
               (set_slots (<[prepared_index x := s']> (slots p)) p)).
  assert (wp (take_tx_slot x) (λ r p', r = Ok tt ∧ p' = set_free_tx rest p1) (set_free_tx rest p)) as Hstep.
  { unfold take_tx_slot, wp. destruct x as [[[[i id] a] o] n]. cbn in Hs |- *. rewrite Hs. done. }
  assert (pool_inv sz h p1) as Hp1.
  { apply (take_slot_inv sz h p p1 (prepared_index x) s s'); try done.
    - apply Hgen. by left.
    - intros [|]; rewrite Hk; case_decide; done. }
  apply wp_bind. eapply wp_mono; [exact Hstep|]. intros r p0 [-> ->].
  eapply wp_mono; [apply IH; [exact Hp1|done|intros; apply Hgen; by right]|].
  intros r p' (-> & Hp' & Hb & Hku & Hfr & Hall). split; [done|]. split; [done|]. split; [done|].
  assert (keeps_used p p1) as Hku1 by by eapply keeps_used_update; [exact Hs| |].
  assert (NoDup ((prepared_index <$> x :: prepared) ++ rest)) as Hnd by (rewrite <- Hperm; apply Hp).
  assert (prepared_index x ∉ prepared_index <$> prepared) as Hni.
  { apply NoDup_app in Hnd as [Hnd _]. by apply NoDup_cons in Hnd as [? _]. }
  assert (∀ i, i ≠ prepared_index x → slots p1 !! i = slots p !! i) as Hother.
  { intros i Hi. simpl. by apply list_lookup_insert_ne. }
  split; [by eapply keeps_used_trans|]. split.
  - intros i [Hi1 Hi2]%not_elem_of_cons. rewrite Hfr by done. by apply Hother.
  - intros y [->|Hy]%elem_of_cons.
    + exists s. split_and!; try done. rewrite Hfr by done. simpl. apply list_lookup_insert_eq.
      by eapply lookup_lt_Some.
    + destruct (Hall y Hy) as (sy & Hsy & ? & ? & ?). exists sy. split; [|done].
      rewrite Hother in Hsy; [done|]. intros Hi. apply Hni. rewrite <- Hi. by apply list_elem_of_fmap_2.
Qed.

(** What is prepared for each chunk. *)
Lemma prepare_tx_Ok p base rlen i n x :
  prepare_tx p base rlen (i, n) = Ok x →
  ∃ s, slots p !! i = Some s ∧ kind s = Tx ∧ state s = Free ∧ offset s + n ≤ rlen ∧
       SlotId_new i (next_generation (slot_generation s)) = Ok (prepared_id x) ∧
       x = (i, prepared_id x, base + offset s, offset s, n).
Proof.
  unfold prepare_tx. destruct (slots p !! i) as [s|] eqn:Hs; simpl; [|done].
  case_decide as Hd; [done|]. rewrite !result_bind_Ok.
  intros (end_ & Hend%ok_or_Ok%u64_checked_add_Some & Hx). subst end_.
  destruct (Z.ltb_spec rlen (offset s + n)); [done|].
  apply result_bind_Ok in Hx as (id & Hid & [= <-]). exists s.
  split; [done|]. split; [apply dec_stable; tauto|]. split; [apply dec_stable; tauto|]. done.
Qed.

(** The prepared chunks, one per free slot and chunk length. *)
Lemma prepared_list sz h p base rlen indices lens prepared :
  pool_inv sz h p → List.length indices = List.length lens →
  collect (prepare_tx p base rlen) (zip indices lens) = Ok prepared →
  prepared_index <$> prepared = indices ∧ snd <$> prepared = lens ∧
  ∀ x, x ∈ prepared → index (prepared_id x) = prepared_index x ∧ 1 ≤ generation (prepared_id x) < 65536.
Proof.
  intros Hp Hlen Hc%collect_Ok.
  induction indices as [|i indices IH] in lens, prepared, Hlen, Hc |- *; destruct lens as [|n lens];
    try done; simpl in Hc.
  { inversion Hc. subst. split; [done|]. split; [done|]. by intros ? ?%not_elem_of_nil. }
  inversion Hc as [|? x ? xs Hx Hxs]; subst. simpl in Hlen.
  destruct (IH lens xs) as (H1 & H2 & H3); [lia|done|].
  apply prepare_tx_Ok in Hx as (s & Hs & _ & _ & _ & Hid & Hx).
  destruct (inv_slot _ _ _ Hp _ _ Hs) as (_ & _ & Hg & _).
  pose proof (next_generation_range _ Hg). pose proof (lookup_lt_Some _ _ _ Hs).
  pose proof (inv_count _ _ _ Hp). rewrite SlotId_new_ok in Hid by lia. injection Hid as Hid.
  rewrite Hx. csimpl. rewrite <- Hid. split; [by rewrite H1|]. split; [by rewrite H2|].
  intros y [->|Hy]%elem_of_cons; [|by apply H3]. done.
Qed.

Lemma foldl_checked_add lens acc total :
  foldl (λ total length, t ← total;
           ok_or (InvalidConfiguration "TX window length overflow") (u64_checked_add t length)) acc lens
    = Ok total → ∃ t, acc = Ok t ∧ total = t + foldr Z.add 0 lens.
Proof.
  induction lens as [|n lens IH] in acc |- *; simpl.
  - intros ->. exists total. split; [done | lia].
  - intros (t & Ht & ->)%IH. apply result_bind_Ok in Ht as (t0 & -> & Ha%ok_or_Ok%u64_checked_add_Some).
    exists t0. split; [done | lia].
Qed.

Lemma free_tail (l : list nat) n :
  (n ≤ List.length l)%nat → l ≡ₚ take n (reverse l) ++ take (List.length l - n) l.
Proof.
  intros Hn. rewrite <- (take_drop (List.length l - n) l) at 1. rewrite Permutation_app_comm.
  apply Permutation_app_tail. rewrite take_reverse. by rewrite reverse_Permutation.
Qed.

Lemma free_tx_candidates_Ok p n indices :
  free_tx_candidates p n = Ok indices →
  accepting p = true ∧ List.length indices = n ∧
  free_tx p ≡ₚ indices ++ take (List.length (free_tx p) - n) (free_tx p).
Proof.
  unfold free_tx_candidates. destruct (Nat.eqb_spec n 0); [done|]. simpl.
  destruct (Nat.ltb_spec (if accepting p then List.length (free_tx p) else 0%nat) n); [done|].
  intros [= <-]. destruct (accepting p); [|lia]. split; [done|].
  rewrite length_take, length_reverse. split; [lia|]. by apply free_tail.
Qed.

(** [acquire_tx_window_chunks] leases one free send slot per chunk, or leaves
    every slot in use, every free slot and the leases as they were. *)
Lemma acquire_tx_window_chunks_spec sz h lens p :
  pool_inv sz h p →
  wp (acquire_tx_window_chunks lens) (λ r p', pool_inv sz h p' ∧ keeps_used p p' ∧
    match r with
    | Ok l => ∃ rc, tx_core l = Some rc ∧
        let ids := layout_slot <$> tx_layouts l in
        record (leases p') rc = Ok (mkLeaseRecord LeaseTx ids) ∧
        active (leases p') = <[lease_id rc := mkLeaseRecord LeaseTx ids]> (active (leases p)) ∧
        lease_id rc = next_lease_id (leases p) ∧
        (∀ i, i ∉ index <$> ids → slots p' !! i = slots p !! i) ∧
        layout_length <$> tx_layouts l = lens ∧ span_length <$> tx_spans l = lens ∧
        tx_length l = foldr Z.add 0 lens ∧ NoDup (index <$> ids) ∧
        ∀ id, id ∈ ids → is_free Tx p (index id) ∧
          ∃ s, holds p' id s ∧ kind s = Tx ∧ state s = LeasedTx
    | Err _ => leases p' = leases p ∧ ∀ k i, is_free k p i → is_free k p' i
    end) p.
Proof.
  intros Hp. assert (∀ e : Error, pool_inv sz h p ∧ keeps_used p p ∧
    match @Err Error TxWindowLease e with Ok _ => False | Err _ => leases p = leases p ∧ ∀ k i, is_free k p i → is_free k p i end)
    as Herr by done.
  unfold acquire_tx_window_chunks. apply wp_bind_guard; [done|]. intros _. apply wp_bind_gets.
  apply wp_bind_lift; [|done]. intros cap _.
  destruct (list_find _ lens) as [[? ?]|]; [done|]. apply wp_bind. unfold wp at 1. simpl.
  apply wp_bind_guard; [done|]. intros _. apply wp_bind_lift; [|done].
  intros total (t & [= <-] & Htotal)%foldl_checked_add.
  apply wp_bind_lift; [|done]. intros [base rlen] Hseg.
  assert (is_Some (segment p)) as Hsome.
  { unfold segment_handle in Hseg. destruct (segment p); done. }
  apply wp_bind_lift; [|done]. intros indices (Hacc & Hlen & Hperm)%free_tx_candidates_Ok.
  apply wp_bind_lift; [|done]. intros prepared Hprep.
  destruct (prepared_list _ _ _ _ _ _ _ _ Hp Hlen Hprep) as (Hidx & Hlens & Hpx).
  apply wp_bind_modify, wp_bind.
  eapply wp_mono; [apply (take_tx_slots_spec sz h); [exact Hp|by rewrite Hidx|by apply Hpx]|].
  intros r p1 (-> & Hp1 & Hb1 & Hku & Hfr & Hx).
  set (ids := (λ x : prepared_tx, x.1.1.1.2) <$> prepared).
  assert (index <$> ids = indices) as Hii.
  { rewrite <- Hidx. unfold ids. rewrite <- list_fmap_compose. apply list_fmap_ext.
    intros k x Hk%list_elem_of_lookup_2. by apply Hpx. }
  assert (∀ id, id ∈ ids → ∃ s, slots p !! index id = Some s ∧ kind s = Tx ∧ state s = Free ∧
    holds p1 id (set_state LeasedTx (set_generation (generation id) s))) as Hids.
  { intros id (x & -> & Hin)%list_elem_of_fmap. destruct (Hx x Hin) as (s & Hs & ? & ? & Hs1).
    destruct (Hpx x Hin) as [Hi _]. unfold prepared_id in Hi. exists s. rewrite Hi. split_and!; try done.
    split; [|done]. by rewrite Hi. }
  assert (leasable h p1 LeaseTx ids) as Hlease.
  { split; [rewrite Hii; assert (NoDup (indices ++ take (length (free_tx p) - length lens) (free_tx p))) as Hnd
      by (rewrite <- Hperm; apply Hp); by apply NoDup_app in Hnd as [? _]|].
    intros id Hid. destruct (Hids id Hid) as (s & Hs & Hk & Hf & Hs1). split; [|by eexists].
    intros (lid & r & id' & Hr & Hrest). apply (not_covered sz h p (index id) s Hp Hs).
    { rewrite Hf. solve_state. } exists lid, r, id'. destruct Hb1 as (Hle & _). by rewrite Hle in Hr. }
  apply wp_bind_catch. eapply wp_mono.
  { apply (pool_issue_spec sz h); [exact Hp1|destruct Hb1 as (_ & -> & _); done|done]. }
  destruct Hb1 as (Hle & Hse & _). intros [rc|e] p2 [Hp2 Hr].
  - destruct Hr as (Hrec & Hlid & b & -> & Hact). split; [done|]. split; [done|]. exists rc. simpl.
    split; [done|].
    assert (layout_slot <$> ((λ x : prepared_tx, mkTxLeaseLayout x.1.1.1.2 x.1.2 x.2) <$> prepared) = ids)
      as -> by by rewrite <- list_fmap_compose.
    rewrite <- !list_fmap_compose. unfold compose. simpl.
    split; [done|]. split; [by rewrite Hact, Hle|]. split; [by rewrite Hlid, Hle|].
    split; [intros i Hi; simpl; apply Hfr; by rewrite Hidx, <- Hii|]. split; [done|].
    split; [done|]. split; [lia|]. split; [apply Hlease|]. intros id Hid.
    destruct (Hids id Hid) as (s & Hs & Hk & Hf & Hs1). split; [by exists s|]. by eexists.
  - subst p2. apply wp_bind. eapply wp_mono.
    { apply (release_all_spec sz h); [exact Hp1|done|unfold releasable; set_solver|apply Hlease|].
      intros id Hid. destruct (proj2 Hlease id Hid) as [? (s & ? & _ & ?)]. split; [done|]. by exists s. }
    intros r p3 (-> & Hp3 & Hb3 & Hf3 & Hback). split; [done|].
    assert (∀ i s, slots p !! i = Some s → i ∈ index <$> ids → kind s = Tx ∧ state s = Free ∧
      ∃ g, slots p3 !! i = Some (set_state Free (set_generation g s))) as Hrel.
    { intros i s Hs (id & -> & Hid)%list_elem_of_fmap. destruct (Hids id Hid) as (s0 & Hs0 & ? & ? & [Hs1 _]).
      simplify_eq. split_and!; try done. destruct (Hback id Hid) as (s2 & [Hs2 _] & [Hs3 _]).
      rewrite Hs1 in Hs2. simplify_eq. eexists. by rewrite Hs3. }
    assert (∀ i, i ∉ index <$> ids → slots p3 !! i = slots p !! i) as Hother.
    { intros i Hi. rewrite Hf3 by done. apply Hfr. by rewrite Hidx, <- Hii. }
    split; [|split; [by destruct Hb3 as (-> & _)|]].
    + intros i s Hs Hst. destruct (decide (i ∈ index <$> ids)) as [Hi|Hi].
      * destruct (Hrel i s Hs Hi) as (_ & ? & _). done.
      * by rewrite Hother.
    + intros k i (s & Hs & Hk & Hst). destruct (decide (i ∈ index <$> ids)) as [Hi|Hi].
      * destruct (Hrel i s Hs Hi) as (? & ? & g & ?). by exists (set_state Free (set_generation g s)).
      * exists s. by rewrite Hother.
Qed.

(** ** The remaining calls *)

(** A transition out of a state that no lease holds. *)
Lemma transition_unleased sz h id from to p :
  pool_inv sz h p → from ∉ [Free; LeasedRx; LeasedTx; SendPosted] → to ≠ Free →
  wp (transition id from to) (λ _ p', pool_inv sz h p') p.
Proof.
  intros Hp Hf Ht. eapply wp_mono; [apply (transition_spec sz h); try done|by intros ?? [? _]].
  - intros ->. solve_state.
  - intros _ [] _ Hin; simpl in Hin; solve_state.
Qed.

(** A transition between the states of a send lease. *)
Lemma transition_tx_lease sz h id from to p :
  pool_inv sz h p → from ∈ lease_states LeaseTx → to ∈ lease_states LeaseTx →
  wp (transition id from to) (λ _ p', pool_inv sz h p') p.
Proof.
  intros Hp Hf Ht. eapply wp_mono; [apply (transition_spec sz h); try done|by intros ?? [? _]].
  - intros ->. simpl in Hf. solve_state.
  - intros ->. simpl in Ht. solve_state.
  - intros _ [] _ Hin; [|done]. exfalso. simpl in Hf, Hin. solve_state.
Qed.

(** With [h = false] send completions may be taken from a window. *)
Lemma transition_send sz id from to p :
  pool_inv sz false p → from ∈ lease_states LeaseTx → to ≠ Free →
  wp (transition id from to) (λ _ p', pool_inv sz false p') p.
Proof.
  intros Hp Hf Ht. eapply wp_mono; [apply (transition_spec sz false); try done|by intros ?? [? _]].
  - intros ->. simpl in Hf. solve_state.
  - intros _ k [->|]; [|done]. intros Hin. exfalso. simpl in Hf, Hin. solve_state.
Qed.

Lemma mark_posted_inv sz h id k p :
  pool_inv sz h p → wp (mark_posted id k) (λ _ p', pool_inv sz h p') p.
Proof.
  intros Hp. unfold mark_posted. apply wp_bind_gets, wp_bind_lift; [|done]. intros s _.
  apply wp_bind_guard; [done|]. intros _. apply transition_unleased; [done|solve_state|by destruct k].
Qed.

Lemma complete_recv_leased_inv sz h id n p :
  pool_inv sz h p → wp (complete_recv_leased id n) (λ _ p', pool_inv sz h p') p.
Proof.
  intros Hp. unfold complete_recv_leased. apply wp_bind_gets, wp_bind_lift; [|done]. intros s _.
  do 2 (apply wp_bind_guard; [done|]; intros _). apply transition_unleased; [done|solve_state|done].
Qed.

Lemma release_unposted_rx_window_inv sz h ids p :
  pool_inv sz h p → wp (release_unposted_rx_window ids) (λ _ p', pool_inv sz h p') p.
Proof.
  intros Hp. eapply wp_mono.
  - apply (wp_for _ _ (pool_inv sz h) (λ _, pool_inv sz h)); [done|]. intros id p0 _ Hp0.
    eapply wp_mono; [by apply (release_spec sz h)|]. by intros [] ? [? _].
  - by intros [].
Qed.

Lemma drop_core_inv sz h core p : pool_inv sz h p → pool_inv sz h (drop_core core p).
Proof. intros Hp. destruct core; [|done]. destruct Hp as [? ? ? ? ? Hl ? ?]. split; try done.
  intros ?? Hr. destruct (Hl _ _ Hr). by split. Qed.

Lemma drop_cores_inv sz h cores p : pool_inv sz h p → pool_inv sz h (foldl (flip drop_core) p cores).
Proof. induction cores as [|c cores IH] in p |- *; intros Hp; [done|]. simpl. by apply IH, drop_core_inv. Qed.

Lemma recycle_cores_inv sz h cores n p :
  pool_inv sz h p → wp (recycle_cores cores n) (λ _ p', pool_inv sz h p') p.
Proof.
  induction cores as [|core cores IH] in n, p |- *; intros Hp; [done|]. simpl.
  apply wp_bind_catch. eapply (wp_mono _ (λ _ p', pool_inv sz h p')).
  - apply wp_bind_lift; [|done]. intros rc _. apply wp_bind.
    eapply wp_mono; [by apply (recycle_spec sz h)|]. by intros [m|e] p1 [Hp1 _].
  - intros [m|e] p1 Hp1; [by apply IH|]. apply wp_bind_modify. unfold wp. simpl.
    by apply drop_cores_inv, drop_core_inv.
Qed.

Lemma recycle_tx_lease_inv sz h l p :
  pool_inv sz h p → wp (recycle_tx_lease l) (λ _ p', pool_inv sz h p') p.
Proof.
  intros Hp. unfold recycle_tx_lease. apply wp_bind_lift; [|done]. intros rc _. apply wp_bind_catch.
  eapply wp_mono; [by apply (recycle_spec sz h)|]. intros [m|e] p1 [Hp1 _]; [done|].
  apply wp_bind_modify. by apply drop_core_inv.
Qed.

Lemma recycle_dropped_lease_inv sz h rc p :
  pool_inv sz h p → wp (recycle_dropped_lease rc) (λ _ p', pool_inv sz h p') p.
Proof.
  intros Hp. unfold recycle_dropped_lease. apply wp_bind_gets, wp_bind_lift; [|done]. intros r _.
  apply wp_bind. eapply wp_mono; [by apply (recycle_spec sz h)|]. by intros [m|e] p1 [Hp1 _].
Qed.

(** The fields that the invariant does not look at. *)
Lemma pool_inv_accepting sz h b p : pool_inv sz h p → pool_inv sz h (set_accepting b p).
Proof. intros [? ? ? ? ? Hl ? ?]. split; try done. intros ?? Hr. destruct (Hl _ _ Hr). by split. Qed.

Lemma pool_inv_segment sz h o p :
  pool_inv sz h p → (active (leases p) ≠ ∅ → is_Some o) → pool_inv sz h (set_segment o p).
Proof. intros [? ? ? ? ? Hl ? ?] Ho. split; try done. intros ?? Hr. destruct (Hl _ _ Hr). by split. Qed.

(** [close] keeps the segment while a lease is active. *)
Lemma close_spec sz h p :
  pool_inv sz h p →
  wp close (λ r p', pool_inv sz h p' ∧ accepting p' = false ∧ slots p' = slots p ∧
    leases p' = leases p ∧
    match r with
    | Ok _ => active (leases p) = ∅ ∧ segment p' = None
    | Err _ => active (leases p) ≠ ∅ ∧ segment p' = segment p ∨
               active (leases p) = ∅ ∧ ∃ seg, segment p = Some seg ∧
                 segment p' = Some (segment_close seg).2 ∧ is_ok (segment_close seg).1 = false
    end) p.
Proof.
  intros Hp. unfold close, stop. apply wp_bind_modify, wp_bind_gets.
  pose proof (pool_inv_accepting _ _ false _ Hp) as Hp1. unfold ensure_empty. simpl.
  case_decide as He; [|apply wp_bind_lift; [done|]; intros ??; split_and!; auto].
  apply wp_bind_lift; [|done]. intros _ _. destruct (segment p) as [seg|] eqn:Hs; [|by split_and!].
  destruct (segment_close seg) as [r seg'] eqn:Hc. apply wp_bind_modify.
  apply wp_bind_lift.
  - intros [] Hr. split_and!; try done. apply pool_inv_segment; [by apply pool_inv_segment|done].
  - intros e Hr. split_and!; try done; [by apply pool_inv_segment|]. right. split; [done|].
    exists seg. rewrite Hc. split_and!; try done. by destruct r.
Qed.

(** ** Every reachable pool *)
Lemma Forall2_seq_lookup {A} (f : nat → Result A) n (l : list A) :
  collect f (seq 0 n) = Ok l →
  List.length l = n ∧ ∀ i x, l !! i = Some x → f i = Ok x.
Proof.
  intros Hc%collect_Ok. pose proof (Forall2_length _ _ _ Hc) as Hl. rewrite length_seq in Hl.
  split; [done|]. intros i x Hx. destruct (Forall2_lookup_r _ _ _ _ _ Hc Hx) as (j & Hj & Hf).
  apply lookup_seq in Hj as [-> _]. done.
Qed.

(** A new pool: every slot free, at consecutive offsets. *)
Lemma create_spec (created : Z → Z → result FfiError Seg) config pid p :
  0 ≤ tx_slot_count config → 0 ≤ rx_slot_count config → 0 ≤ slot_size config →
  create created config pid = Ok p →
  (∀ h, pool_inv (slot_size config) h p) ∧ active (leases p) = ∅ ∧ accepting p = true ∧
  List.length (free_tx p) = Z.to_nat (tx_slot_count config) ∧
  List.length (free_rx p) = Z.to_nat (rx_slot_count config) ∧
  ∀ i s, slots p !! i = Some s → state s = Free.
Proof.
  intros Htx Hrx Hsz. unfold create. rewrite result_bind_Ok. intros (total & Htotal & Hc).
  apply result_bind_Ok in Hc as (seg & _ & Hc).
  apply result_bind_Ok in Hc as (n & Hn%ok_or_Ok%u64_checked_add_Some & Hc).
  apply result_bind_Ok in Hc as (txs & Htxs & Hc). apply result_bind_Ok in Hc as (rxs & Hrxs & [= <-]).
  subst n. destruct (Forall2_seq_lookup _ _ _ Htxs) as [Hltx Htxi].
  destruct (Forall2_seq_lookup _ _ _ Hrxs) as [Hlrx Hrxi].
  set (tx := Z.to_nat (tx_slot_count config)) in *. set (rx := Z.to_nat (rx_slot_count config)) in *.
  assert (Z.to_nat (tx_slot_count config + rx_slot_count config) - tx = rx)%nat as Hrxn by lia.
  assert (tx_slot_count config + rx_slot_count config ≤ 65536) as Hmax.
  { unfold total_len in Htotal. destruct (_ =? 0); [done|]. destruct (_ || _); [done|].
    destruct (_ || _); [done|]. apply result_bind_Ok in Htotal as (m & Hm%ok_or_Ok%u64_checked_add_Some & Hr).
    subst m. change (u_max 16 + 1) with 65536 in Hr.
    destruct (Z.ltb_spec 65536 (tx_slot_count config + rx_slot_count config)); [done|lia]. }
  assert (∀ i s, (txs ++ rxs) !! i = Some s →
    offset s = slot_size config * Z.of_nat i ∧ len s = slot_size config ∧ slot_generation s = 0 ∧
    state s = Free ∧ kind s = if decide (i < tx)%nat then Tx else Rx) as Hslots.
  { intros i s [Hi|[Hge Hi]]%lookup_app_Some.
    - pose proof (lookup_lt_Some _ _ _ Hi). apply Htxi in Hi. unfold slot_offset in Hi.
      apply result_bind_Ok in Hi as (o & Ho%ok_or_Ok%u64_checked_mul_Some & [= <-]). simpl.
      rewrite decide_True by lia. done.
    - apply Hrxi, result_bind_Ok in Hi as (j & Hj%ok_or_Ok%u64_checked_add_Some & Hi).
      unfold slot_offset in Hi.
      apply result_bind_Ok in Hi as (o & Ho%ok_or_Ok%u64_checked_mul_Some & [= <-]). simpl.
      rewrite decide_False by lia. split_and!; try done. rewrite Ho. f_equal. lia. }
  assert (∀ i, (i < tx + rx)%nat → ∃ s, (txs ++ rxs) !! i = Some s) as Hall.
  { intros i Hi. apply lookup_lt_is_Some. rewrite length_app. lia. }
  simpl. split; [|rewrite length_reverse, !length_seq; split_and!; [done|done|done|done|by intros i s (_ & _ & _ & ? & _)%Hslots]].
  intros h. split; simpl.
  - rewrite length_app. lia.
  - intros i s (? & ? & Hg & Hst & _)%Hslots. rewrite Hg, Hst. split_and!; try done; lia.
  - split; [rewrite reverse_Permutation; apply NoDup_seq|]. intros i. rewrite elem_of_reverse, elem_of_seq. split.
    + intros Hi. destruct (Hall i) as [s Hs]; [lia|]. exists s.
      destruct (Hslots i s Hs) as (_ & _ & _ & ? & Hk). rewrite decide_True in Hk by lia. done.
    + intros (s & Hs & Hk & _). destruct (Hslots i s Hs) as (_ & _ & _ & _ & Hk').
      case_decide; [lia|]. congruence.
  - split; [apply NoDup_seq|]. intros i. rewrite elem_of_seq, Hrxn. split.
    + intros Hi. destruct (Hall i) as [s Hs]; [lia|]. exists s.
      destruct (Hslots i s Hs) as (_ & _ & _ & ? & Hk). rewrite decide_False in Hk by lia. done.
    + intros (s & Hs & Hk & _). destruct (Hslots i s Hs) as (_ & _ & _ & _ & Hk').
      apply lookup_lt_Some in Hs. simpl in Hs. rewrite length_app in Hs. case_decide; [congruence|]. lia.
  - by intros ?? ?%lookup_empty_Some.
  - by intros ?? ?%lookup_empty_Some.
  - by intros ?????? ?%lookup_empty_Some.
  - done.
Qed.

(** The calls of the pool's interface. *)
Inductive PoolCall : Type :=
| CallAllocateRxWindow (count : nat)
| CallReleaseUnposted (ids : list SlotId)
| CallMarkPosted (id : SlotId) (k : SlotKind)
| CallRollbackPost (id : SlotId) (k : SlotKind)
| CallMarkTxPosted (id : SlotId)
| CallRollbackTxPost (id : SlotId)
| CallCompleteTxSend (id : SlotId)
| CallCompleteError (id : SlotId) (op : OperationType)
| CallCompleteRecv (id : SlotId) (length : Z)
| CallLeaseRx (completions : list (SlotId * Z))
| CallAcquireTx (chunk_lengths : list Z)
| CallRecycleRx (lease : RegisteredRxWindowLease)
| CallRecycleTx (lease : TxWindowLease)
| CallRecycleDropped (rc : LeaseRecycle)
| CallStop
| CallClose.

Definition run_call (c : PoolCall) : PR Pool Error unit :=
  match c with
  | CallAllocateRxWindow n => _ ← allocate_rx_window n; mret tt
  | CallReleaseUnposted ids => release_unposted_rx_window ids
  | CallMarkPosted id k => mark_posted id k
  | CallRollbackPost id k => rollback_post id k
  | CallMarkTxPosted id => mark_tx_lease_posted id
  | CallRollbackTxPost id => rollback_tx_lease_post id
  | CallCompleteTxSend id => complete_tx_lease_send id
  | CallCompleteError id op => complete_error id op
  | CallCompleteRecv id n => complete_recv_leased id n
  | CallLeaseRx cs => _ ← lease_completed_rx_window cs; mret tt
  | CallAcquireTx lens => _ ← acquire_tx_window_chunks lens; mret tt
  | CallRecycleRx l => _ ← recycle_rx_lease l; mret tt
  | CallRecycleTx l => _ ← recycle_tx_lease l; mret tt
  | CallRecycleDropped rc => _ ← recycle_dropped_lease rc; mret tt
  | CallStop => stop
  | CallClose => close
  end.

(** The lengths of completions are unsigned.  With [h = false] every call may be made; with
    [h = true] all but the two that free a send slot whether a lease covers it or not. *)
Definition allowed (h : bool) (c : PoolCall) : Prop :=
  match c with
  | CallLeaseRx cs => ∀ c, c ∈ cs → 0 ≤ c.2
  | CallCompleteError _ Send | CallRollbackPost _ Tx => h = false
  | _ => True
  end.

Lemma run_call_inv sz h c p :
  pool_inv sz h p → allowed h c → wp (run_call c) (λ _ p', pool_inv sz h p') p.
Proof.
  assert (∀ A (m : PR Pool Error A) Q, wp m (λ r p', pool_inv sz h p' ∧ Q r p') p →
    wp (_ ← m; mret tt) (λ _ p', pool_inv sz h p') p) as Hdrop.
  { intros A m Q Hm. apply wp_bind. eapply wp_mono; [exact Hm|]. by intros [] ? [? _]. }
  assert (∀ A (m : PR Pool Error A), wp m (λ _ p', pool_inv sz h p') p →
    wp (_ ← m; mret tt) (λ _ p', pool_inv sz h p') p) as Hdrop'.
  { intros A m Hm. apply wp_bind. eapply wp_mono; [exact Hm|]. by intros [] ?. }
  intros Hp Hal. destruct c as [n|ids|id k|id k|id|id|id|id op|id n|cs|lens|l|l|rc| |]; simpl in *.
  - eapply Hdrop. by apply (allocate_rx_window_spec sz h).
  - by apply release_unposted_rx_window_inv.
  - by apply mark_posted_inv.
  - destruct k; [subst h; apply transition_send|apply transition_unleased]; done || (simpl; solve_state).
  - apply transition_tx_lease; done || (simpl; solve_state).
  - apply transition_tx_lease; done || (simpl; solve_state).
  - apply transition_tx_lease; done || (simpl; solve_state).
  - destruct op; [subst h; apply transition_send|apply transition_unleased]; done || (simpl; solve_state).
  - by apply complete_recv_leased_inv.
  - eapply Hdrop. by apply (lease_completed_rx_window_spec sz h).
  - eapply Hdrop. by apply (acquire_tx_window_chunks_spec sz h).
  - apply Hdrop'. by apply recycle_cores_inv.
  - apply Hdrop'. by apply recycle_tx_lease_inv.
  - apply Hdrop'. by apply recycle_dropped_lease_inv.
  - by apply pool_inv_accepting.
  - eapply wp_mono; [by apply close_spec|]. by intros ?? [? _].
Qed.

(** The pools reached from [create] by any sequence of calls. *)
Inductive reachable (h : bool) (created : Z → Z → result FfiError Seg) (config : BufferPoolConfig)
    (pid : Z) : Pool → Prop :=
| reach_create p : create created config pid = Ok p → reachable h created config pid p
| reach_call p c r p' : reachable h created config pid p → allowed h c →
    run_call c p = Some (r, p') → reachable h created config pid p'.

Lemma reachable_inv h created config pid p :
  0 ≤ tx_slot_count config → 0 ≤ rx_slot_count config → 0 ≤ slot_size config →
  reachable h created config pid p → pool_inv (slot_size config) h p.
Proof.
  intros ??? Hr. induction Hr as [p Hc|p c r p' _ IH Hal Hrun]; [by eapply create_spec|].
  exact (wp_run _ _ _ _ _ (run_call_inv _ _ _ _ IH Hal) Hrun).
Qed.

(** Slot identities survive the packing into a user context. *)
Lemma SlotId_roundtrip id :
  1 ≤ generation id < 2 ^ 16 → Z.of_nat (index id) < 2 ^ 16 →
  SlotId_decode (SlotId_encode id) = Ok id.
Proof.
  intros Hg Hi. unfold SlotId_decode, SlotId_encode.
  rewrite (u_wrap_small 32) by (rewrite Z.shiftl_mul_pow2; lia). rewrite lor_pack by lia.
  rewrite pack_high, pack_low, u_wrap_small by lia.
  destruct (Z.eqb_spec (generation id) 0); [lia|]. rewrite Nat2Z.id. by destruct id.
Qed.
End facts.
End UrmaBufferFacts.
