(* ===== verification/UrmaLane.v ===== *)
(** * Peer lanes of the URMA transport

    Models [src/dragonfly-client-storage/src/urma/lane.rs] except its two posting
    methods (those are in [UrmaPost]): the work-request tokens that travel as the
    user context of a completion, the receive credits, the descriptors of a
    Jetty, the owner of a native Jetty and the life cycle of a lane.  The native
    Jetty is a parameter; [post_list] of [urma/ffi/mod.rs], which checks what the
    native post returns, is modelled over it. *)

From S2P Require Import Prelude Engine Wire UrmaBuffer.
From Stdlib Require Import ZArith Lia String Strings.Byte.
From stdpp Require Import base tactics numbers list gmap strings pretty.
Local Open Scope Z_scope.

Module Lane.
Import Urma.

(** ** Work-request tokens *)

(** [OperationType as u8] and its [TryFrom<u8>]. *)
Definition operation_code (op : OperationType) : Z := match op with Send => 1 | Recv => 2 end.
Definition OperationType_try_from (value : Z) : Result OperationType :=
  if value =? 1 then Ok Send
  else if value =? 2 then Ok Recv
  else Err (Protocol ("invalid WR operation type " +:+ pretty value)).

(** [struct WrToken]. *)
Record WrToken := mkWrToken {
  lane_id : Z;
  wr_generation : Z;
  operation : OperationType;
  slot : SlotId;
}.

(** [WrToken::encode]. *)
Definition WrToken_encode (t : WrToken) : Result Z :=
  if (lane_id t =? 0) || (wr_generation t =? 0) then
    Err (InvalidConfiguration "lane id and generation must be non-zero")
  else Ok (Z.lor (Z.lor (Z.lor (Z.shiftl (lane_id t) 48) (Z.shiftl (wr_generation t) 40))
                   (Z.shiftl (operation_code (operation t)) 32)) (SlotId_encode (slot t))).

(** [WrToken::decode]. *)
Definition WrToken_decode (value : Z) : Result WrToken :=
  let lane_id := u_wrap 16 (Z.shiftr value 48) in
  let generation := Z.land (Z.shiftr value 40) 0xff in
  operation ← OperationType_try_from (Z.land (Z.shiftr value 32) 0xff);
  if (lane_id =? 0) || (generation =? 0) then Err (Protocol "CQE user_ctx has a zero identity")
  else slot ← SlotId_decode (u_wrap 32 (Z.land value 0xffffffff));
       Ok (mkWrToken lane_id generation operation slot).

(** ** Receive credits *)

(** [struct LaneCredits]. *)
Record LaneCredits := mkLaneCredits { remote_receives_available : Z }.

(** [LaneCredits::grant_remote_receives], [require_remote_receives],
    [consume_remote_receives] (the subtraction panics below zero), [clear]. *)
Definition grant_remote_receives (count : Z) (c : LaneCredits) : Result LaneCredits :=
  if count =? 0 then Err (Protocol "remote receive credit grant must be non-zero")
  else
    n ← ok_or (Protocol "remote receive credit overflow")
          (u64_checked_add (remote_receives_available c) count);
    Ok (mkLaneCredits n).
Definition require_remote_receives (count : nat) (c : LaneCredits) : Result unit :=
  if remote_receives_available c <? Z.of_nat count then
    Err (Protocol ("SEND window requires " +:+ pretty count +:+ " receive credits, only " +:+
                   pretty (remote_receives_available c) +:+ " available"))
  else Ok tt.
Definition consume_remote_receives (count : nat) (c : LaneCredits) : option LaneCredits :=
  if remote_receives_available c <? Z.of_nat count then None
  else Some (mkLaneCredits (remote_receives_available c - Z.of_nat count)).
Definition clear_credits : LaneCredits := mkLaneCredits 0.

(** ** Jetty descriptors *)

Definition JETTY_DESCRIPTOR_VERSION : Z := 1.
Definition MAX_JETTY_DESCRIPTOR_LEN : Z := 64 * 1024.
Definition FIXED_LEN : nat := 18.

(** [struct JettyDescriptor], and [ffi::JettyDescriptorData]. *)
Record JettyDescriptor := mkJettyDescriptor {
  version : Z;
  transport_type : Z;
  eid_index : Z;
  jetty_id : Z;
  opaque_len : Z;
  opaque_data : bytes;
}.
Record JettyDescriptorData := mkJettyDescriptorData {
  raw_transport_type : Z;
  raw_eid_index : Z;
  raw_jetty_id : Z;
  raw_opaque_data : bytes;
}.

(** [JettyDescriptor::validate]. *)
Definition JettyDescriptor_validate (d : JettyDescriptor) : Result unit :=
  if negb (version d =? JETTY_DESCRIPTOR_VERSION) then
    Err (Protocol ("unsupported Jetty descriptor version " +:+ pretty (version d)))
  else if (opaque_len d =? 0) || negb (opaque_len d =? Z.of_nat (List.length (opaque_data d))) then
    Err (Protocol "descriptor opaque_len does not match opaque_data")
  else if MAX_JETTY_DESCRIPTOR_LEN <? opaque_len d then
    Err (Protocol ("descriptor length " +:+ pretty (opaque_len d) +:+ " exceeds " +:+
                   pretty MAX_JETTY_DESCRIPTOR_LEN))
  else Ok tt.

(** [JettyDescriptor::serialize], [deserialize]. *)
Definition JettyDescriptor_serialize (d : JettyDescriptor) : Result bytes :=
  _ ← JettyDescriptor_validate d;
  Ok (Wire.to_be_bytes 2 (version d) ++ Wire.to_be_bytes 4 (transport_type d) ++
      Wire.to_be_bytes 4 (eid_index d) ++ Wire.to_be_bytes 4 (jetty_id d) ++
      Wire.to_be_bytes 4 (opaque_len d) ++ opaque_data d).

Definition JettyDescriptor_deserialize (input : bytes) : Result JettyDescriptor :=
  if (List.length input <? FIXED_LEN)%nat then Err (Protocol "truncated Jetty descriptor")
  else
    let field from len := Wire.from_be_bytes (take len (drop from input)) in
    let descriptor := mkJettyDescriptor (field 0%nat 2%nat) (field 2%nat 4%nat) (field 6%nat 4%nat)
                        (field 10%nat 4%nat) (field 14%nat 4%nat) (drop FIXED_LEN input) in
    _ ← JettyDescriptor_validate descriptor;
    Ok descriptor.

(** [JettyDescriptor::from_ffi], [to_ffi]. *)
Definition JettyDescriptor_from_ffi (raw : JettyDescriptorData) : Result JettyDescriptor :=
  let n := Z.of_nat (List.length (raw_opaque_data raw)) in
  if u_max 32 <? n then Err (Protocol "native descriptor exceeds u32")
  else
    let descriptor := mkJettyDescriptor JETTY_DESCRIPTOR_VERSION (raw_transport_type raw)
                        (raw_eid_index raw) (raw_jetty_id raw) n (raw_opaque_data raw) in
    _ ← JettyDescriptor_validate descriptor;
    Ok descriptor.

Definition JettyDescriptor_to_ffi (d : JettyDescriptor) : Result JettyDescriptorData :=
  _ ← JettyDescriptor_validate d;
  Ok (mkJettyDescriptorData (transport_type d) (eid_index d) (jetty_id d) (opaque_data d)).

(** [struct JettyConfig] and its [Default]. *)
Record JettyConfig := mkJettyConfig {
  send_depth : Z;
  recv_depth : Z;
  max_send_sge : Z;
  max_recv_sge : Z;
  cfg_post_list_size : Z;
  pipeline_depth : Z;
  cfg_token : Z;
}.
Definition JettyConfig_default : JettyConfig := mkJettyConfig 128 512 1 1 1 2 0.

(** ** The native Jetty *)

(** [ffi::PostEntry]. *)
Record PostEntry := mkPostEntry {
  entry_offset : Z;
  entry_length : Z;
  user_ctx : Z;
  imm_data : option Z;
}.

(** [ffi::PostBatch]: how many entries were posted, and the error after them.
    The handles own native memory and are left out. *)
Record PostBatch := mkPostBatch { posted_len : nat; batch_error : option FfiError }.

(** [ffi::JettyHandle], over the handles of the native library.  [jetty_post]
    is the native call: its status, the number of entries it accepted and which
    of the returned handles are not null. *)
Class NativeJetty (J Seg : Type) := {
  jetty_open : J → bool;
  segment_open : Seg → bool;
  jetty_local_ids : J → result FfiError (Z * Z);
  jetty_export : J → result FfiError JettyDescriptorData;
  jetty_import : JettyDescriptorData → Z → J → result FfiError unit * J;
  jetty_bind : J → result FfiError unit * J;
  jetty_mark_error : J → result FfiError unit * J;
  jetty_unbind : J → result FfiError unit * J;
  jetty_unimport : J → result FfiError unit * J;
  jetty_close : J → result FfiError unit * J;
  jetty_post : bool → Seg → list PostEntry → J → (Z * Z * list bool) * J;
}.

(** [DFURMA_MAX_POST_LIST] of the shim's header. *)
Definition MAX_POST_LIST : Z := 64.

(** [enum LaneState]. *)
Inductive LaneState : Type :=
| JettyCreated | DescriptorExchanged | Bound | Ready | Draining | Failed | Closed.
#[export] Instance LaneState_eq_dec : EqDecision LaneState.
Proof. solve_decision. Defined.

(** [{:?}] of a [LaneState]. *)
Definition show_lane_state (s : LaneState) : string :=
  match s with
  | JettyCreated => "JettyCreated" | DescriptorExchanged => "DescriptorExchanged"
  | Bound => "Bound" | Ready => "Ready" | Draining => "Draining" | Failed => "Failed"
  | Closed => "Closed"
  end.

Section lane.
Context {J Seg : Type} `{NativeJetty J Seg}.

(** [JettyHandle::post_list]. *)
Definition post_list (send : bool) (segment : Seg) (entries : list PostEntry) (j : J)
    : result FfiError PostBatch * J :=
  if bool_decide (entries = []) || (MAX_POST_LIST <? Z.of_nat (List.length entries)) then
    (Err (FfiContract "invalid linked WR post-list length"), j)
  else if negb (jetty_open j) then (Err (FfiContract "Jetty is closed"), j)
  else if negb (segment_open segment) then (Err (FfiContract "Segment is closed"), j)
  else
    let '(status, posted, handles, j) := jetty_post send segment entries j in
    let n := Z.of_nat (List.length entries) in
    if (n <? posted) || ((status =? 0) && negb (posted =? n)) then
      (Err (FfiContract "invalid posted WR prefix from shim"), j)
    else if negb (forallb (λ b, b) (take (Z.to_nat posted) handles)) then (Err FfiNullHandle, j)
    else (Ok (mkPostBatch (Z.to_nat posted) (if status =? 0 then None else Some (FfiStatus status))), j).

(** [struct UrmaJetty]. *)
Record UrmaJetty := mkUrmaJetty {
  handle : J;
  local_jetty_id : Z;
  local_jfr_id : Z;
  token_value : Z;
  imported : bool;
  bound : bool;
}.

Definition set_handle (h : J) (j : UrmaJetty) : UrmaJetty :=
  mkUrmaJetty h (local_jetty_id j) (local_jfr_id j) (token_value j) (imported j) (bound j).
Definition set_imported (b : bool) (j : UrmaJetty) : UrmaJetty :=
  mkUrmaJetty (handle j) (local_jetty_id j) (local_jfr_id j) (token_value j) b (bound j).
Definition set_bound (b : bool) (j : UrmaJetty) : UrmaJetty :=
  mkUrmaJetty (handle j) (local_jetty_id j) (local_jfr_id j) (token_value j) (imported j) b.

(** [UrmaJetty::create]; [created] is what [ffi::JettyHandle::create] returns. *)
Definition UrmaJetty_create (created : result FfiError J) (config : JettyConfig) : Result UrmaJetty :=
  handle ← or_native "create_jetty" created;
  '(local_jetty_id, local_jfr_id) ← or_native "query_jetty_local_ids" (jetty_local_ids handle);
  Ok (mkUrmaJetty handle local_jetty_id local_jfr_id (cfg_token config) false false).

Abbreviation JM A := (ST UrmaJetty Error A).

(** A call of the native handle. *)
Definition on_handle {A} (name : string) (f : J → result FfiError A * J) : JM A := λ j,
  let '(r, h) := f (handle j) in (or_native name r, set_handle h j).

(** The methods of [UrmaJetty]. *)
Definition jetty_export_descriptor (j : UrmaJetty) : Result JettyDescriptor :=
  raw ← or_native "get_rjetty" (jetty_export (handle j));
  JettyDescriptor_from_ffi raw.

Definition UrmaJetty_import (descriptor : JettyDescriptor) : JM unit :=
  already ← gets imported;
  if (already : bool) then throw (Protocol "a remote Jetty is already imported")
  else
    raw ← lift (JettyDescriptor_to_ffi descriptor);
    token ← gets token_value;
    _ ← on_handle "import_jetty" (jetty_import raw token);
    modify (set_imported true).

Definition UrmaJetty_bind : JM unit :=
  ready ← gets imported;
  if negb ready then throw (Protocol "bind requires an imported Jetty")
  else _ ← on_handle "bind_jetty" jetty_bind; modify (set_bound true).

Definition UrmaJetty_mark_error : JM unit := on_handle "modify_jetty_error" jetty_mark_error.

Definition post_send_batch (segment : Seg) (entries : list PostEntry) : JM PostBatch :=
  on_handle "post_jetty_send_imm_wr_list" (post_list true segment entries).
Definition post_recv_batch (segment : Seg) (entries : list PostEntry) : JM PostBatch :=
  on_handle "post_jetty_recv_wr_list" (post_list false segment entries).

(** One stage of [UrmaJetty::close]: skipped unless [cond]; a failure is noted. *)
Definition close_stage (cond : UrmaJetty → bool) (name : string) (f : J → result FfiError unit * J)
    (done_ : UrmaJetty → UrmaJetty) (x : list string * UrmaJetty) : list string * UrmaJetty :=
  let '(failures, j) := x in
  if cond j then
    let '(r, h) := f (handle j) in
    match r with
    | Ok _ => (failures, done_ (set_handle h j))
    | Err e => (failures ++ [Error_fmt (native_error name e)], set_handle h j)
    end
  else x.

(** [UrmaJetty::close]. *)
Definition UrmaJetty_close : JM unit := λ j,
  let x := close_stage bound "unbind_jetty" jetty_unbind (set_bound false) ([], j) in
  let x := close_stage (λ j, imported j && negb (bound j)) "unimport_jetty" jetty_unimport
             (set_imported false) x in
  let x := close_stage (λ j, negb (bound j) && negb (imported j)) "delete_jetty" jetty_close
             (λ j, j) x in
  let '(failures, j) := x in
  (match failures with [] => Ok tt | _ => Err (Shutdown failures) end, j).

(** ** Lanes *)

(** [struct UrmaLane]; of the device's capability only the transport type is used. *)
Record UrmaLane := mkUrmaLane {
  id : Z;
  generation : Z;
  lane_state : LaneState;
  lane_transport : Z;
  jetty : UrmaJetty;
  credits : LaneCredits;
  post_list_size : nat;
  retirement_armed : bool;
}.

Definition set_lane_state (s : LaneState) (l : UrmaLane) : UrmaLane :=
  mkUrmaLane (id l) (generation l) s (lane_transport l) (jetty l) (credits l) (post_list_size l)
    (retirement_armed l).
Definition set_jetty (j : UrmaJetty) (l : UrmaLane) : UrmaLane :=
  mkUrmaLane (id l) (generation l) (lane_state l) (lane_transport l) j (credits l) (post_list_size l)
    (retirement_armed l).
Definition set_credits (c : LaneCredits) (l : UrmaLane) : UrmaLane :=
  mkUrmaLane (id l) (generation l) (lane_state l) (lane_transport l) (jetty l) c (post_list_size l)
    (retirement_armed l).
Definition set_armed (b : bool) (l : UrmaLane) : UrmaLane :=
  mkUrmaLane (id l) (generation l) (lane_state l) (lane_transport l) (jetty l) (credits l)
    (post_list_size l) b.

(** [UrmaLane::new]. *)
Definition UrmaLane_new (id generation transport : Z) (jetty : UrmaJetty) (post_list_size : Z)
    : Result UrmaLane :=
  if (id =? 0) || (generation =? 0) then
    Err (InvalidConfiguration "lane id and generation must be non-zero")
  else Ok (mkUrmaLane id generation JettyCreated transport jetty clear_credits (Z.to_nat post_list_size) false).

Abbreviation LM A := (ST UrmaLane Error A).

(** [UrmaLane::require], [state_error]. *)
Definition lane_require (expected : LaneState) (l : UrmaLane) : Result unit :=
  if decide (lane_state l = expected) then Ok tt
  else Err (Protocol ("lane " +:+ pretty (id l) +:+ " is " +:+ show_lane_state (lane_state l) +:+
                      ", expected " +:+ show_lane_state expected)).
Definition state_error (operation : string) (l : UrmaLane) : Error :=
  Protocol ("cannot " +:+ operation +:+ " while lane " +:+ pretty (id l) +:+ " is " +:+
            show_lane_state (lane_state l)).

Definition on_jetty {A} (m : JM A) : LM A := zoom jetty set_jetty m.

(** [UrmaLane::export_descriptor]. *)
Definition export_descriptor : LM JettyDescriptor :=
  l ← gets (λ l, l);
  if decide (lane_state l ∈ [JettyCreated; DescriptorExchanged]) then
    descriptor ← lift (jetty_export_descriptor (jetty l));
    _ ← modify (set_lane_state DescriptorExchanged);
    mret descriptor
  else throw (state_error "export descriptor" l).

(** [UrmaLane::import_and_bind]. *)
Definition import_and_bind (descriptor : JettyDescriptor) : LM unit :=
  l ← gets (λ l, l);
  if decide (lane_state l ∈ [JettyCreated; DescriptorExchanged]) then
    if lane_transport l <? 0 then throw (Protocol "local transport type is negative")
    else if negb (transport_type descriptor =? lane_transport l) then
      throw (Protocol ("remote transport type " +:+ pretty (transport_type descriptor) +:+
                       " does not match local " +:+ pretty (lane_transport l)))
    else
      _ ← modify (set_lane_state DescriptorExchanged);
      _ ← on_jetty (UrmaJetty_import descriptor);
      _ ← on_jetty UrmaJetty_bind;
      modify (set_lane_state Bound)
  else throw (state_error "import descriptor" l).

(** [UrmaLane::mark_ready], [grant_send_credit], [begin_draining]. *)
Definition mark_ready : LM unit :=
  _ ← reads (lane_require Bound); modify (set_lane_state Ready).

Definition grant_send_credit (count : Z) : LM unit :=
  _ ← reads (lane_require Ready);
  c ← reads (λ l, grant_remote_receives count (credits l));
  modify (set_credits c).

Definition begin_draining : LM unit :=
  l ← gets (λ l, l);
  if decide (lane_state l = Closed) then mret tt
  else
    _ ← modify (set_lane_state Draining);
    _ ← on_jetty UrmaJetty_mark_error;
    modify (set_armed true).

(** [UrmaLane::is_draining]. *)
Definition is_draining (l : UrmaLane) : bool := bool_decide (lane_state l = Draining).

(** [UrmaLane::close]. *)
Definition close_lane (outstanding : Z) : LM unit :=
  l ← gets (λ l, l);
  if decide (lane_state l = Closed) then mret tt
  else if negb (outstanding =? 0) then
    throw (Protocol ("cannot close lane " +:+ pretty (id l) +:+ " with " +:+ pretty outstanding +:+
                     " outstanding WRs"))
  else
    r ← catch (on_jetty UrmaJetty_close);
    match r with
    | Ok _ => _ ← modify (set_credits clear_credits); modify (set_lane_state Closed)
    | Err error => _ ← modify (set_lane_state Failed); throw error
    end.

(** [UrmaLane::token]. *)
Definition token (operation : OperationType) (slot : SlotId) (l : UrmaLane) : WrToken :=
  mkWrToken (id l) (generation l) operation slot.
End lane.
End Lane.

Module LaneFacts.
Import Urma Lane.

(** ** Tokens *)

(** A token whose fields have the widths of the packing and no zero identity. *)
Definition token_valid (t : WrToken) : Prop :=
  1 ≤ lane_id t < 2 ^ 16 ∧ 1 ≤ wr_generation t < 2 ^ 8 ∧
  1 ≤ Urma.generation (slot t) < 2 ^ 16 ∧ Z.of_nat (index (slot t)) < 2 ^ 16.

(** The packed fields, as a number. *)
Definition packed (lane gen op slot : Z) : Z := ((lane * 2 ^ 8 + gen) * 2 ^ 8 + op) * 2 ^ 32 + slot.

Lemma SlotId_encode_eq id :
  1 ≤ Urma.generation id < 2 ^ 16 → Z.of_nat (index id) < 2 ^ 16 →
  SlotId_encode id = Urma.generation id * 2 ^ 16 + Z.of_nat (index id).
Proof.
  intros Hg Hi. unfold SlotId_encode.
  rewrite (u_wrap_small 32) by (rewrite Z.shiftl_mul_pow2; lia). by rewrite lor_pack by lia.
Qed.

Lemma SlotId_decode_eq g i :
  1 ≤ g < 2 ^ 16 → 0 ≤ i < 2 ^ 16 → SlotId_decode (g * 2 ^ 16 + i) = Ok (mkSlotId (Z.to_nat i) g).
Proof.
  intros Hg Hi. unfold SlotId_decode. rewrite pack_high, pack_low, u_wrap_small by lia.
  destruct (Z.eqb_spec g 0); [lia|done].
Qed.

Lemma operation_code_range op : 1 ≤ operation_code op ≤ 2.
Proof. destruct op; simpl; lia. Qed.

Lemma OperationType_roundtrip op : OperationType_try_from (operation_code op) = Ok op.
Proof. by destruct op. Qed.

Lemma WrToken_encode_eq t :
  token_valid t →
  WrToken_encode t = Ok (packed (lane_id t) (wr_generation t) (operation_code (operation t))
                           (SlotId_encode (slot t))).
Proof.
  intros (Hl & Hg & Hsg & Hsi). pose proof (operation_code_range (operation t)).
  unfold WrToken_encode, packed. destruct (Z.eqb_spec (lane_id t) 0); [lia|].
  destruct (Z.eqb_spec (wr_generation t) 0); [lia|]. simpl. f_equal.
  rewrite SlotId_encode_eq by done.
  rewrite (lor_pack (lane_id t)) by (rewrite ?Z.shiftl_mul_pow2; lia).
  rewrite (Z.shiftl_mul_pow2 (wr_generation t)) by lia.
  replace (lane_id t * 2 ^ 48 + wr_generation t * 2 ^ 40)
    with (Z.shiftl (lane_id t * 2 ^ 8 + wr_generation t) 40) by (rewrite Z.shiftl_mul_pow2; lia).
  rewrite lor_pack by (rewrite ?Z.shiftl_mul_pow2; lia).
  rewrite (Z.shiftl_mul_pow2 (operation_code (operation t))) by lia.
  replace ((lane_id t * 2 ^ 8 + wr_generation t) * 2 ^ 40 + operation_code (operation t) * 2 ^ 32)
    with (Z.shiftl ((lane_id t * 2 ^ 8 + wr_generation t) * 2 ^ 8 + operation_code (operation t)) 32)
    by (rewrite Z.shiftl_mul_pow2; lia).
  by rewrite lor_pack by lia.
Qed.

(** What decoding sees of a packed number. *)
Lemma packed_fields lane gen op slot :
  0 ≤ lane < 2 ^ 16 → 0 ≤ gen < 2 ^ 8 → 0 ≤ op < 2 ^ 8 → 0 ≤ slot < 2 ^ 32 →
  let v := packed lane gen op slot in
  u_wrap 16 (Z.shiftr v 48) = lane ∧ Z.land (Z.shiftr v 40) 0xff = gen ∧
  Z.land (Z.shiftr v 32) 0xff = op ∧ u_wrap 32 (Z.land v 0xffffffff) = slot.
Proof.
  intros Hl Hg Ho Hs v. subst v. unfold packed.
  assert (∀ x n, 0 ≤ n → Z.land x (Z.ones n) = u_wrap n x) as Hland by (intros; by apply Z.land_ones).
  change 0xff with (Z.ones 8). change 0xffffffff with (Z.ones 32). rewrite !Hland by lia.
  set (h := (lane * 2 ^ 8 + gen) * 2 ^ 8 + op).
  split_and!.
  - replace (h * 2 ^ 32 + slot) with (lane * 2 ^ 48 + (gen * 2 ^ 40 + op * 2 ^ 32 + slot)) by (unfold h; lia).
    rewrite pack_high by lia. by apply u_wrap_small.
  - replace (h * 2 ^ 32 + slot) with ((lane * 2 ^ 8 + gen) * 2 ^ 40 + (op * 2 ^ 32 + slot)) by (unfold h; lia).
    rewrite pack_high by lia. by apply pack_low.
  - rewrite pack_high by lia. by apply pack_low.
  - rewrite (pack_low h) by done. by apply u_wrap_small.
Qed.

Lemma WrToken_decode_packed t :
  token_valid t →
  WrToken_decode (packed (lane_id t) (wr_generation t) (operation_code (operation t))
                    (SlotId_encode (slot t))) = Ok t.
Proof.
  intros (Hl & Hg & Hsg & Hsi). pose proof (operation_code_range (operation t)).
  rewrite SlotId_encode_eq by done. unfold WrToken_decode.
  destruct (packed_fields (lane_id t) (wr_generation t) (operation_code (operation t))
    (Urma.generation (slot t) * 2 ^ 16 + Z.of_nat (index (slot t)))) as (-> & -> & -> & ->); try lia.
  rewrite OperationType_roundtrip. cbn [mbind result_mbind].
  destruct (Z.eqb_spec (lane_id t) 0); [lia|]. destruct (Z.eqb_spec (wr_generation t) 0); [lia|]. simpl.
  rewrite SlotId_decode_eq by lia. cbn [mbind result_mbind]. rewrite Nat2Z.id.
  destruct t as [? ? ? []]. done.
Qed.

Lemma WrToken_encode_decode t v : token_valid t → WrToken_encode t = Ok v → WrToken_decode v = Ok t.
Proof. intros Ht Hv. rewrite WrToken_encode_eq in Hv by done. injection Hv as <-. by apply WrToken_decode_packed. Qed.

(** A decoded token is valid. *)
Lemma WrToken_decode_valid v t : WrToken_decode v = Ok t → token_valid t.
Proof.
  unfold WrToken_decode. rewrite result_bind_Ok. intros (op & _ & Ht).
  destruct (Z.eqb_spec (u_wrap 16 (Z.shiftr v 48)) 0) as [|Hl]; [done|].
  destruct (Z.eqb_spec (Z.land (Z.shiftr v 40) 0xff) 0) as [|Hg]; [done|]. simpl in Ht.
  apply result_bind_Ok in Ht as (s & Hs & [= <-]). unfold SlotId_decode in Hs.
  destruct (Z.eqb_spec (u_wrap 16 (Z.shiftr (u_wrap 32 (Z.land v 0xffffffff)) 16)) 0) as [|Hsg]; [done|].
  injection Hs as <-.
  change 0xff with (Z.ones 8) in *. rewrite Z.land_ones in * by lia. unfold token_valid, u_wrap in *. simpl.
  pose proof (Z.mod_pos_bound (Z.shiftr v 48) (2 ^ 16) ltac:(lia)).
  pose proof (Z.mod_pos_bound (Z.shiftr v 40) (2 ^ 8) ltac:(lia)).
  pose proof (Z.mod_pos_bound (Z.shiftr (Z.land v 0xffffffff mod 2 ^ 32) 16) (2 ^ 16) ltac:(lia)).
  pose proof (Z.mod_pos_bound (Z.land v 0xffffffff mod 2 ^ 32) (2 ^ 16) ltac:(lia)).
  lia.
Qed.

(** ** Descriptors *)

(** The integer fields have their width. *)
Definition descriptor_typed (d : JettyDescriptor) : Prop :=
  0 ≤ version d < 2 ^ 16 ∧ 0 ≤ transport_type d < 2 ^ 32 ∧ 0 ≤ eid_index d < 2 ^ 32 ∧
  0 ≤ jetty_id d < 2 ^ 32 ∧ 0 ≤ opaque_len d < 2 ^ 32.

Lemma take_drop_field (n : nat) (a b c : list byte) :
  List.length a = n → take (List.length b) (drop n (a ++ b ++ c)) = b.
Proof. intros <-. by rewrite drop_app_length, take_app_length. Qed.

Lemma field_to_be n z : 0 ≤ z < 256 ^ Z.of_nat n → Wire.from_be_bytes (Wire.to_be_bytes n z) = z.
Proof. intros Hz. rewrite WireFacts.from_to_be_bytes. by apply Z.mod_small. Qed.

(** A serialised descriptor is read back. *)
Lemma descriptor_serialize_deserialize d b :
  descriptor_typed d → JettyDescriptor_serialize d = Ok b → JettyDescriptor_deserialize b = Ok d.
Proof.
  intros (Hv & Ht & He & Hj & Ho). unfold JettyDescriptor_serialize. rewrite result_bind_Ok.
  intros ([] & Hok & Hb).
  assert (b = Wire.to_be_bytes 2 (version d) ++ Wire.to_be_bytes 4 (transport_type d) ++
    Wire.to_be_bytes 4 (eid_index d) ++ Wire.to_be_bytes 4 (jetty_id d) ++
    Wire.to_be_bytes 4 (opaque_len d) ++ opaque_data d) as -> by congruence. clear Hb.
  set (b0 := Wire.to_be_bytes 2 (version d)). set (b1 := Wire.to_be_bytes 4 (transport_type d)).
  set (b2 := Wire.to_be_bytes 4 (eid_index d)). set (b3 := Wire.to_be_bytes 4 (jetty_id d)).
  set (b4 := Wire.to_be_bytes 4 (opaque_len d)).
  assert (List.length b0 = 2%nat ∧ List.length b1 = 4%nat ∧ List.length b2 = 4%nat ∧
          List.length b3 = 4%nat ∧ List.length b4 = 4%nat) as (L0 & L1 & L2 & L3 & L4)
    by (split_and!; apply WireFacts.length_to_be_bytes).
  unfold JettyDescriptor_deserialize. rewrite !length_app, L0, L1, L2, L3, L4.
  destruct (Nat.ltb_spec (2 + (4 + (4 + (4 + (4 + List.length (opaque_data d)))))) FIXED_LEN) as [Hlt|_];
    [unfold FIXED_LEN in Hlt; lia|].
  set (rest := opaque_data d).
  assert (take 2 (drop 0 (b0 ++ b1 ++ b2 ++ b3 ++ b4 ++ rest)) = b0) as ->
    by (rewrite <- L0 at 1; by apply (take_drop_field 0 [])).
  assert (take 4 (drop 2 (b0 ++ b1 ++ b2 ++ b3 ++ b4 ++ rest)) = b1) as ->
    by (rewrite <- L1 at 1; by apply take_drop_field).
  assert (take 4 (drop 6 (b0 ++ b1 ++ b2 ++ b3 ++ b4 ++ rest)) = b2) as ->.
  { rewrite (app_assoc b0 b1). rewrite <- L2 at 1. apply take_drop_field. rewrite length_app. lia. }
  assert (take 4 (drop 10 (b0 ++ b1 ++ b2 ++ b3 ++ b4 ++ rest)) = b3) as ->.
  { rewrite (app_assoc b1 b2), (app_assoc b0). rewrite <- L3 at 1. apply take_drop_field.
    rewrite !length_app. lia. }
  assert (take 4 (drop 14 (b0 ++ b1 ++ b2 ++ b3 ++ b4 ++ rest)) = b4) as ->.
  { rewrite (app_assoc b2 b3), (app_assoc b1), (app_assoc b0). rewrite <- L4 at 1. apply take_drop_field.
    rewrite !length_app. lia. }
  assert (drop FIXED_LEN (b0 ++ b1 ++ b2 ++ b3 ++ b4 ++ rest) = rest) as ->.
  { rewrite (app_assoc b3 b4), (app_assoc b2), (app_assoc b1), (app_assoc b0).
    replace FIXED_LEN with (List.length (b0 ++ b1 ++ b2 ++ b3 ++ b4)) by (rewrite !length_app, L0, L1, L2, L3, L4; done).
    apply drop_app_length. }
  subst b0 b1 b2 b3 b4 rest. rewrite !field_to_be by done.
  destruct d. cbn -[JettyDescriptor_validate] in *. by rewrite Hok.
Qed.

(** Two inputs that are read as the same descriptor are equal. *)
Lemma descriptor_deserialize_serialize b d :
  JettyDescriptor_deserialize b = Ok d → JettyDescriptor_serialize d = Ok b.
Proof.
  unfold JettyDescriptor_deserialize. destruct (Nat.ltb_spec (List.length b) FIXED_LEN) as [|Hlen]; [done|].
  rewrite result_bind_Ok. intros ([] & Hok & [= <-]). unfold JettyDescriptor_serialize. rewrite Hok.
  cbn [mbind result_mbind version transport_type eid_index jetty_id opaque_len opaque_data].
  f_equal. unfold FIXED_LEN in *.
  rewrite !WireFacts.to_from_be_bytes by (rewrite length_take, ?length_drop; lia).
  rewrite drop_0.
  change 18%nat with (14 + 4)%nat. rewrite <- drop_drop, take_drop.
  change 14%nat with (10 + 4)%nat. rewrite <- drop_drop, take_drop.
  change 10%nat with (6 + 4)%nat. rewrite <- drop_drop, take_drop.
  change 6%nat with (2 + 4)%nat. rewrite <- drop_drop, take_drop.
  apply take_drop.
Qed.

(** ** Native posts *)

Section facts.
Context {J Seg : Type} `{!NativeJetty J Seg}.

(** The prefix a post reports never exceeds the list, and a short one comes
    with an error. *)
Lemma post_list_prefix send (seg : Seg) entries (j j' : J) batch :
  post_list send seg entries j = (Ok batch, j') →
  (posted_len batch ≤ List.length entries)%nat ∧
  (batch_error batch = None → posted_len batch = List.length entries) ∧ entries ≠ [].
Proof.
  unfold post_list. case_bool_decide; [done|]. destruct (_ <? _); [done|]. simpl.
  destruct (jetty_open j); [|done]. destruct (segment_open seg); [|done]. simpl.
  destruct (jetty_post send seg entries j) as [[[status posted] handles] j1].
  destruct (Z.ltb_spec (Z.of_nat (List.length entries)) posted); [done|]. simpl.
  destruct ((status =? 0) && negb (posted =? Z.of_nat (List.length entries))) eqn:Hs; [done|].
  destruct (negb (forallb _ _)); [done|]. intros [= <- _]. simpl. split; [lia|]. split; [|done].
  destruct (Z.eqb_spec status 0); [|done]. intros _. simpl in Hs.
  destruct (Z.eqb_spec posted (Z.of_nat (List.length entries))); [|done]. subst posted. by rewrite Nat2Z.id.
Qed.

(** ** The life of a lane *)

(** The state changes the methods of a lane can make. *)
Inductive lane_edge : LaneState → LaneState → Prop :=
| edge_same s : lane_edge s s
| edge_exchange : lane_edge JettyCreated DescriptorExchanged
| edge_bind s : s = JettyCreated ∨ s = DescriptorExchanged → lane_edge s Bound
| edge_ready : lane_edge Bound Ready
| edge_drain s : s ≠ Closed → lane_edge s Draining
| edge_close s : s ≠ Closed → lane_edge s Closed
| edge_fail s : s ≠ Closed → lane_edge s Failed.

(** The calls that change a lane's state. *)
Inductive LaneCall : Type :=
| LExport | LImport (d : JettyDescriptor) | LReady | LGrant (n : Z) | LDrain | LClose (outstanding : Z).

Definition run_lane (c : LaneCall) : ST (UrmaLane (J := J)) Error unit :=
  match c with
  | LExport => _ ← export_descriptor; mret tt
  | LImport d => import_and_bind d
  | LReady => mark_ready
  | LGrant n => grant_send_credit n
  | LDrain => begin_draining
  | LClose n => close_lane n
  end.

Lemma on_jetty_lane {A} (m : ST (UrmaJetty (J := J)) Error A) l :
  ∃ j, (on_jetty m l).2 = set_jetty j l.
Proof. unfold on_jetty, zoom. destruct (m (jetty l)). by eexists. Qed.

(** [close] on a Jetty leaves it unbound and not imported when it succeeds. *)
Lemma UrmaJetty_close_Ok (j j' : UrmaJetty) :
  UrmaJetty_close j = (Ok tt, j') → bound j' = false ∧ imported j' = false.
Proof.
  unfold UrmaJetty_close, close_stage. destruct (bound j) eqn:Hb.
  - destruct (jetty_unbind (handle j)) as [[[]|e] h]; simpl; rewrite ?Hb; simpl.
    + destruct (imported j) eqn:Hi; simpl; rewrite ?Hi; simpl.
      * destruct (jetty_unimport h) as [[[]|e] h1]; simpl; rewrite ?Hi; simpl; [|done].
        destruct (jetty_close h1) as [[[]|e] h2]; simpl; [|done]. by intros [= <-].
      * destruct (jetty_close h) as [[[]|e] h2]; simpl; [|done]. intros [= <-]. done.
    + rewrite andb_false_r. simpl. rewrite Hb. simpl. done.
  - rewrite Hb. destruct (imported j) eqn:Hi; simpl.
    + destruct (jetty_unimport (handle j)) as [[[]|e] h1]; simpl; rewrite ?Hb, ?Hi; simpl; [|done].
      destruct (jetty_close h1) as [[[]|e] h2]; simpl; [|done]. intros [= <-]. done.
    + rewrite Hb, Hi. simpl. destruct (jetty_close (handle j)) as [[[]|e] h2]; simpl; [|done].
      intros [= <-]. done.
Qed.

(** Every call moves a lane along an edge. *)
Lemma run_lane_edge c l : lane_edge (lane_state l) (lane_state (run_lane c l).2).
Proof.
  assert (∀ A (m : ST (UrmaJetty (J := J)) Error A) l0, lane_state (on_jetty m l0).2 = lane_state l0) as Hj.
  { intros A m l0. by destruct (on_jetty_lane m l0) as [j ->]. }
  destruct c as [|d| |n| |n]; simpl.
  - unfold export_descriptor. cbv [mbind st_mbind gets]. case_decide as Hs; simpl; [|constructor].
    unfold lift. destruct (jetty_export_descriptor (jetty l)); simpl; [|constructor].
    set_unfold. destruct Hs as [->|[->|[]]]; constructor.
  - unfold import_and_bind. cbv [mbind st_mbind gets]. case_decide as Hs; simpl; [|constructor].
    destruct (_ <? 0); simpl; [constructor|]. destruct (negb _); simpl; [constructor|].
    set (l1 := set_lane_state DescriptorExchanged l).
    assert (lane_edge (lane_state l) DescriptorExchanged ∧ lane_edge (lane_state l) Bound) as [H1 H2].
    { set_unfold. destruct Hs as [->|[->|[]]]; split; constructor; auto. }
    pose proof (Hj _ (UrmaJetty_import d) l1) as Hi.
    destruct (on_jetty (UrmaJetty_import d) l1) as [[[]|e] l2]; simpl in Hi |- *; [|by rewrite Hi].
    pose proof (Hj _ UrmaJetty_bind l2) as Hi2.
    destruct (on_jetty UrmaJetty_bind l2) as [[[]|e] l3]; simpl in Hi2 |- *; [done|]. by rewrite Hi2, Hi.
  - unfold mark_ready, lane_require. cbv [mbind st_mbind reads]. case_decide as Hs; simpl; [|constructor].
    rewrite Hs. constructor.
  - unfold grant_send_credit, lane_require. cbv [mbind st_mbind reads].
    case_decide as Hs; simpl; [|constructor]. destruct (grant_remote_receives n (credits l)); constructor.
  - unfold begin_draining. cbv [mbind st_mbind gets]. case_decide as Hs; simpl; [constructor|].
    pose proof (Hj _ UrmaJetty_mark_error (set_lane_state Draining l)) as Hi.
    destruct (on_jetty UrmaJetty_mark_error (set_lane_state Draining l)) as [[[]|e] l1]; simpl in *;
      rewrite Hi; by constructor.
  - unfold close_lane. cbv [mbind st_mbind gets]. case_decide as Hs; simpl; [constructor|].
    destruct (negb _); simpl; [constructor|]. unfold catch.
    destruct (on_jetty UrmaJetty_close l) as [[[]|e] l1]; simpl; by constructor.
Qed.
End facts.
End LaneFacts.
