(* ===== verification/UrmaCompletion.v ===== *)
(** * Completion routing of the URMA transport

    Models [src/dragonfly-client-storage/src/urma/completion.rs]: the table of
    outstanding work requests over the slots, the waiters of receive identities,
    the send windows shared by their work requests, and the routing of every
    completion record the provider returns.

    The owner thread's state [Owner] holds the router, the buffer pool and the
    heap of send windows ([Arc<Mutex<RegisteredTxWindowInner>>]) with their
    reference counts.  A oneshot sender is a number; what was sent through it, or
    that it was dropped, is appended to [sent].  A message whose receiver is gone
    is one the receiver drops.  The records of a poll are an input. *)

From S2P Require Import Prelude UrmaBuffer UrmaLane.
From Stdlib Require Import ZArith Lia String.
From stdpp Require Import base tactics numbers list gmap strings pretty.
Local Open Scope Z_scope.

Module Router.
Import Urma Lane.

Definition MAX_POLL_BATCH : Z := 16.

(** [struct CompletionStats]. *)
Record CompletionStats := mkStats {
  send_post : Z; recv_post : Z; send_cqe : Z; recv_cqe : Z; cqe_error : Z;
  poll_calls : Z; empty_polls : Z; max_outstanding : Z;
}.
Definition stats_default : CompletionStats := mkStats 0 0 0 0 0 0 0 0.

(** The updates of the statistics. *)
Definition count_post (send : bool) (total : Z) (s : CompletionStats) : CompletionStats :=
  mkStats (send_post s + if send then 1 else 0) (recv_post s + if send then 0 else 1)
    (send_cqe s) (recv_cqe s) (cqe_error s) (poll_calls s) (empty_polls s)
    (Z.max (max_outstanding s) total).
Definition count_cqe (send : bool) (s : CompletionStats) : CompletionStats :=
  mkStats (send_post s) (recv_post s) (send_cqe s + if send then 1 else 0)
    (recv_cqe s + if send then 0 else 1) (cqe_error s) (poll_calls s) (empty_polls s)
    (max_outstanding s).
Definition count_error (s : CompletionStats) : CompletionStats :=
  mkStats (send_post s) (recv_post s) (send_cqe s) (recv_cqe s) (cqe_error s + 1) (poll_calls s)
    (empty_polls s) (max_outstanding s).
Definition count_poll (empty : bool) (s : CompletionStats) : CompletionStats :=
  mkStats (send_post s) (recv_post s) (send_cqe s) (recv_cqe s) (cqe_error s)
    (poll_calls s + if empty then 0 else 1) (empty_polls s + if empty then 1 else 0)
    (max_outstanding s).

(** [ffi::CompletionEventKind], [ffi::CompletionRecord]. *)
Inductive CompletionEventKind : Type :=
| WorkRequest | SuspendDone | FlushErrorDone | Unknown (kind : Z).
Record CompletionRecord := mkCompletionRecord {
  status : Z;
  opcode : Z;
  record_user_ctx : Z;
  record_imm_data : Z;
  completion_len : Z;
  local_id : Z;
  is_recv : bool;
  is_jetty : bool;
  user_ctx_valid : bool;
  imm_data_valid : bool;
  event_kind : CompletionEventKind;
}.

(** [struct RegisteredRxCompletion], [RegisteredTxCompletion]. *)
Record RegisteredRxCompletion := mkRxCompletion {
  rx_lane_id : Z;
  posted_sequence : option Z;
  rx_imm_data : Z;
  rx_slot : SlotId;
  rx_lease : RegisteredRxWindowLease;
}.
Record RegisteredTxCompletion := mkTxCompletion {
  tx_lane_id : Z;
  tx_sequences : list Z;
  tx_lease : TxWindowLease;
}.

(** What happened to a oneshot sender. *)
Inductive Delivery : Type :=
| SendRx (ch : nat) (r : Result RegisteredRxCompletion)
| DropRx (ch : nat)
| SendTx (ch : nat) (r : Result RegisteredTxCompletion)
| DropTx (ch : nat).

(** [struct RegisteredTxWindowInner], with the number of its [Arc]s. *)
Record RegisteredTxWindowInner := mkWindow {
  pending : nat;
  posting_finished : bool;
  first_error : option Error;
  window_lane_id : Z;
  sequences : list Z;
  lease : option TxWindowLease;
  completion : option nat;
  refs : nat;
}.

Definition set_pending (n : nat) (w : RegisteredTxWindowInner) : RegisteredTxWindowInner :=
  mkWindow n (posting_finished w) (first_error w) (window_lane_id w) (sequences w) (lease w)
    (completion w) (refs w).
Definition set_first_error (e : option Error) (w : RegisteredTxWindowInner) : RegisteredTxWindowInner :=
  mkWindow (pending w) (posting_finished w) e (window_lane_id w) (sequences w) (lease w)
    (completion w) (refs w).
Definition set_posting_finished (w : RegisteredTxWindowInner) : RegisteredTxWindowInner :=
  mkWindow (pending w) true (first_error w) (window_lane_id w) (sequences w) (lease w)
    (completion w) (refs w).
Definition set_completion (c : option nat) (w : RegisteredTxWindowInner) : RegisteredTxWindowInner :=
  mkWindow (pending w) (posting_finished w) (first_error w) (window_lane_id w) (sequences w) (lease w)
    c (refs w).
Definition take_lease (w : RegisteredTxWindowInner) : RegisteredTxWindowInner :=
  mkWindow (pending w) (posting_finished w) (first_error w) (window_lane_id w) (sequences w) None
    (completion w) (refs w).
Definition take_sequences (w : RegisteredTxWindowInner) : RegisteredTxWindowInner :=
  mkWindow (pending w) (posting_finished w) (first_error w) (window_lane_id w) [] (lease w)
    (completion w) (refs w).
Definition set_refs (n : nat) (w : RegisteredTxWindowInner) : RegisteredTxWindowInner :=
  mkWindow (pending w) (posting_finished w) (first_error w) (window_lane_id w) (sequences w) (lease w)
    (completion w) n.

(** [enum CompletionTarget], [RoutedCompletion]. *)
Inductive CompletionTarget : Type := RegisteredRx (ch : nat) | RegisteredTx (w : nat).
Inductive RoutedCompletion : Type := RoutedRx (c : RegisteredRxCompletion) | RoutedTx.

(** [struct OutstandingWr], without the native handle. *)
Record OutstandingWr := mkOutstandingWr {
  wr_user_ctx : Z;
  wr_sequence : option Z;
  wr_completion : option CompletionTarget;
}.

(** [struct LaneRetirement]. *)
Record LaneRetirement := mkLaneRetirement {
  retired_jetty_id : Z;
  retired_jfr_id : Z;
  waiting_for_flush : bool;
  flush_done : bool;
}.

(** [struct CompletionRouter]. *)
Record CompletionRouter := mkRouter {
  batch : Z;
  outstanding : list (option OutstandingWr);
  outstanding_total : Z;
  outstanding_send : Z;
  outstanding_recv : Z;
  outstanding_by_lane : gmap Z Z;
  retirement_by_lane : gmap Z LaneRetirement;
  lane_by_jetty_id : gmap Z Z;
  registered_rx_by_identity : gmap (Z * Z) nat;
  stats : CompletionStats;
}.

(** [CompletionRouter::new]. *)
Definition CompletionRouter_new (batch : Z) : Result CompletionRouter :=
  if (batch =? 0) || (MAX_POLL_BATCH <? batch) then
    Err (InvalidConfiguration ("completion poll batch must be in 1..=" +:+ pretty MAX_POLL_BATCH))
  else Ok (mkRouter batch [] 0 0 0 ∅ ∅ ∅ ∅ stats_default).

Definition set_outstanding (x : list (option OutstandingWr)) (r : CompletionRouter) : CompletionRouter :=
  mkRouter (batch r) x (outstanding_total r) (outstanding_send r) (outstanding_recv r)
    (outstanding_by_lane r) (retirement_by_lane r) (lane_by_jetty_id r) (registered_rx_by_identity r)
    (stats r).
Definition set_counts (total send recv : Z) (by_lane : gmap Z Z) (r : CompletionRouter) : CompletionRouter :=
  mkRouter (batch r) (outstanding r) total send recv by_lane (retirement_by_lane r)
    (lane_by_jetty_id r) (registered_rx_by_identity r) (stats r).
Definition set_retirement (x : gmap Z LaneRetirement) (r : CompletionRouter) : CompletionRouter :=
  mkRouter (batch r) (outstanding r) (outstanding_total r) (outstanding_send r) (outstanding_recv r)
    (outstanding_by_lane r) x (lane_by_jetty_id r) (registered_rx_by_identity r) (stats r).
Definition set_jetties (x : gmap Z Z) (r : CompletionRouter) : CompletionRouter :=
  mkRouter (batch r) (outstanding r) (outstanding_total r) (outstanding_send r) (outstanding_recv r)
    (outstanding_by_lane r) (retirement_by_lane r) x (registered_rx_by_identity r) (stats r).
Definition set_identities (x : gmap (Z * Z) nat) (r : CompletionRouter) : CompletionRouter :=
  mkRouter (batch r) (outstanding r) (outstanding_total r) (outstanding_send r) (outstanding_recv r)
    (outstanding_by_lane r) (retirement_by_lane r) (lane_by_jetty_id r) x (stats r).
Definition set_stats (f : CompletionStats → CompletionStats) (r : CompletionRouter) : CompletionRouter :=
  mkRouter (batch r) (outstanding r) (outstanding_total r) (outstanding_send r) (outstanding_recv r)
    (outstanding_by_lane r) (retirement_by_lane r) (lane_by_jetty_id r) (registered_rx_by_identity r)
    (f (stats r)).

(** ** Lanes of the router *)

(** [CompletionRouter::register_lane]. *)
Definition register_lane (lane_id jetty_id jfr_id : Z) : ST CompletionRouter Error unit := λ r,
  match retirement_by_lane r !! lane_id with
  | Some _ => (Err (Protocol ("duplicate completion lifecycle registration for lane " +:+
                              pretty lane_id)), r)
  | None =>
      let old := lane_by_jetty_id r !! jetty_id in
      let r := set_jetties (<[jetty_id := lane_id]> (lane_by_jetty_id r)) r in
      match old with
      | Some existing =>
          (Err (Protocol ("native Jetty id " +:+ pretty jetty_id +:+ " is already owned by lane " +:+
                          pretty existing)),
           set_jetties (<[jetty_id := existing]> (lane_by_jetty_id r)) r)
      | None =>
          (Ok tt, set_retirement (<[lane_id := mkLaneRetirement jetty_id jfr_id false false]>
                                    (retirement_by_lane r)) r)
      end
  end.

(** [CompletionRouter::begin_lane_retirement]. *)
Definition begin_lane_retirement (lane_id : Z) : ST CompletionRouter Error unit := λ r,
  match retirement_by_lane r !! lane_id with
  | None => (Err (Protocol ("lane " +:+ pretty lane_id +:+
                            " has no completion lifecycle registration")), r)
  | Some x =>
      (Ok tt, set_retirement (<[lane_id := mkLaneRetirement (retired_jetty_id x) (retired_jfr_id x)
                                            true (flush_done x)]> (retirement_by_lane r)) r)
  end.

(** [CompletionRouter::lane_flush_done]. *)
Definition lane_flush_done (lane_id : Z) (r : CompletionRouter) : bool :=
  match retirement_by_lane r !! lane_id with Some x => flush_done x | None => false end.

(** [CompletionRouter::unregister_lane]. *)
Definition unregister_lane (lane_id : Z) : ST CompletionRouter Error unit := λ r,
  if existsb (λ x : Z * Z * nat, x.1.1 =? lane_id) (map_to_list (registered_rx_by_identity r)) then
    (Err (Protocol ("cannot unregister lane " +:+ pretty lane_id +:+
                    " with registered RX identities")), r)
  else
    match retirement_by_lane r !! lane_id with
    | None => (Err (Protocol ("lane " +:+ pretty lane_id +:+
                              " has no completion lifecycle registration")), r)
    | Some x =>
        let r := set_retirement (delete lane_id (retirement_by_lane r)) r in
        (Ok tt, set_jetties (delete (retired_jetty_id x) (lane_by_jetty_id r)) r)
    end.

(** [CompletionRouter::has_pending_flush]. *)
Definition has_pending_flush (r : CompletionRouter) : bool :=
  existsb (λ x : Z * LaneRetirement, waiting_for_flush x.2 && negb (flush_done x.2))
    (map_to_list (retirement_by_lane r)).

(** [CompletionRouter::outstanding_for_lane]. *)
Definition outstanding_for_lane (lane_id : Z) (r : CompletionRouter) : Z :=
  default 0 (outstanding_by_lane r !! lane_id).

(** The loop of [validate_registered_rx_identities]. *)
Fixpoint validate_identities (r : CompletionRouter) (lane_id : Z) (seen : gset Z) (sequences : list Z)
    : Result unit :=
  match sequences with
  | [] => Ok tt
  | sequence :: sequences =>
      if decide (sequence ∈ seen) then
        Err (Protocol ("duplicate RX identity in registered window: lane_id=" +:+ pretty lane_id +:+
                       " sequence=" +:+ pretty sequence))
      else
        match registered_rx_by_identity r !! (lane_id, sequence) with
        | Some _ => Err (Protocol ("registered RX identity is already active: lane_id=" +:+
                           pretty lane_id +:+ " sequence=" +:+ pretty sequence))
        | None => validate_identities r lane_id ({[sequence]} ∪ seen) sequences
        end
  end.

(** [CompletionRouter::validate_registered_rx_identities]. *)
Definition validate_registered_rx_identities (lane_id : Z) (sequences : list Z) (r : CompletionRouter)
    : Result unit := validate_identities r lane_id ∅ sequences.

(** [DFURMA_CR_OPC_SEND_WITH_IMM] of the shim's header. *)
Definition CR_OPCODE_SEND_WITH_IMM : Z := 1.

(** [{}] of a [bool]. *)
Definition show_bool (b : bool) : string := if b then "true" else "false".

(** [validate_recv_immediate]. *)
Definition validate_recv_immediate (record : CompletionRecord) : Result Z :=
  if negb (opcode record =? CR_OPCODE_SEND_WITH_IMM) || negb (imm_data_valid record) then
    Err (Protocol ("URMA receive CQE lacks SEND_WITH_IMM identity: opcode=" +:+ pretty (opcode record)
                   +:+ " imm_data_valid=" +:+ show_bool (imm_data_valid record)))
  else Ok (record_imm_data record).

(** ** The owner thread's state *)

Section owner.
Context {Seg : Type} `{NativeSegment Seg}.

Record Owner := mkOwner {
  router : CompletionRouter;
  pool : UrmaBufferPool (Seg := Seg);
  windows : gmap nat RegisteredTxWindowInner;
  next_window : nat;
  sent : list Delivery;
}.

Definition set_router (x : CompletionRouter) (o : Owner) : Owner :=
  mkOwner x (pool o) (windows o) (next_window o) (sent o).
Definition set_pool (x : UrmaBufferPool) (o : Owner) : Owner :=
  mkOwner (router o) x (windows o) (next_window o) (sent o).
Definition set_windows (x : gmap nat RegisteredTxWindowInner) (o : Owner) : Owner :=
  mkOwner (router o) (pool o) x (next_window o) (sent o).
Definition deliver (d : Delivery) (o : Owner) : Owner :=
  mkOwner (router o) (pool o) (windows o) (next_window o) (sent o ++ [d]).

Abbreviation W A := (PR Owner Error A).

Definition on_pool {A} (m : PR UrmaBufferPool Error A) : W A := pr_zoom pool set_pool m.
Definition on_router {A} (m : ST CompletionRouter Error A) : W A := λ o,
  let '(r, x) := m (router o) in Some (r, set_router x o).
Definition up_router (f : CompletionRouter → CompletionRouter) : W unit :=
  pr_modify (λ o, set_router (f (router o)) o).

(** [usize -= 1]: panics at zero. *)
Definition decr (n : Z) : option Z := if n <=? 0 then None else Some (n - 1).

(** ** Send windows *)

(** [RegisteredTxWindowState::new]. *)
Definition window_new (lane_id : Z) (sequences : list Z) (lease : TxWindowLease) (completion : nat)
    : W nat := λ o,
  let w := next_window o in
  Some (Ok w, mkOwner (router o) (pool o)
                (<[w := mkWindow 0 false None lane_id sequences (Some lease) (Some completion) 1]>
                   (windows o)) (S w) (sent o)).

(** The content of the mutex. *)
Definition window_get (w : nat) : W RegisteredTxWindowInner :=
  ws ← pr_gets windows; pr_expect (ws !! w).
Definition window_set (w : nat) (x : RegisteredTxWindowInner) : W unit :=
  pr_modify (λ o, set_windows (<[w := x]> (windows o)) o).

(** The drop of an optional lease. *)
Definition drop_tx_lease (l : option TxWindowLease) : W unit :=
  match l with
  | Some l => pr_modify (λ o, set_pool (drop_core (tx_core l) (pool o)) o)
  | None => mret tt
  end.

(** The drop of the last [Arc] drops the lease and the sender. *)
Definition window_drop (w : nat) : W unit :=
  x ← window_get w;
  match refs x with
  | S (S n) => window_set w (set_refs (S n) x)
  | _ =>
      _ ← pr_modify (λ o, set_windows (delete w (windows o)) o);
      _ ← drop_tx_lease (lease x);
      match completion x with
      | Some ch => pr_modify (deliver (DropTx ch))
      | None => mret tt
      end
  end.

(** [state.clone()]. *)
Definition window_clone (w : nat) : W unit :=
  x ← window_get w; window_set w (set_refs (S (refs x)) x).

(** [RegisteredTxWindowState::resolve]. *)
Definition window_resolve (w : nat) : W unit :=
  x ← window_get w;
  if negb (posting_finished x) || negb (pending x =? 0)%nat then mret tt
  else
    match completion x with
    | None => mret tt
    | Some ch =>
        let x := set_completion None x in
        match first_error x with
        | Some error =>
            _ ← window_set w (take_lease (set_first_error None x));
            _ ← drop_tx_lease (lease x);
            pr_modify (deliver (SendTx ch (Err error)))
        | None =>
            lease ← pr_expect (lease x);
            _ ← window_set w (take_sequences (take_lease x));
            pr_modify (deliver (SendTx ch
              (Ok (mkTxCompletion (window_lane_id x) (sequences x) lease))))
        end
    end.

(** [RegisteredTxWindowState::posted], [finish_posting], [completed], [fail]. *)
Definition window_posted (w : nat) : W unit :=
  x ← window_get w; window_set w (set_pending (S (pending x)) x).

Definition or_first_error (error : option Error) (x : RegisteredTxWindowInner)
    : RegisteredTxWindowInner :=
  match first_error x with Some _ => x | None => set_first_error error x end.

Definition finish_posting (w : nat) (error : option Error) : W unit :=
  x ← window_get w;
  _ ← window_set w (or_first_error error (set_posting_finished x));
  window_resolve w.

Definition window_completed (w : nat) (result : Result RoutedCompletion) : W unit :=
  x ← window_get w;
  n ← pr_expect (match pending x with O => None | S n => Some n end);
  _ ← window_set w (or_first_error (match result with Err e => Some e | Ok _ => None end)
                      (set_pending n x));
  window_resolve w.

Definition window_fail (w : nat) (error : Error) : W unit :=
  x ← window_get w;
  let x := or_first_error (Some error) x in
  match completion x with
  | Some ch =>
      _ ← window_set w (set_completion None x);
      pr_modify (deliver (SendTx ch (Err error)))
  | None => window_set w x
  end.

(** ** Targets *)

(** The drop of a routed completion that nobody takes. *)
Definition drop_routed (result : Result RoutedCompletion) : W unit :=
  match result with
  | Ok (RoutedRx c) =>
      pr_modify (λ o, set_pool (foldl (flip drop_core) (pool o) (rx_cores (rx_lease c))) o)
  | _ => mret tt
  end.

(** [CompletionTarget::send], [fail]. *)
Definition target_send (t : CompletionTarget) (result : Result RoutedCompletion) : W unit :=
  match t, result with
  | RegisteredRx ch, Ok (RoutedRx value) => pr_modify (deliver (SendRx ch (Ok value)))
  | RegisteredTx w, result => _ ← window_completed w result; _ ← drop_routed result; window_drop w
  | RegisteredRx ch, Err error => pr_modify (deliver (SendRx ch (Err error)))
  | RegisteredRx ch, Ok RoutedTx =>
      pr_modify (deliver (SendRx ch
        (Err (Protocol "registered TX completion routed to RX receiver"))))
  end.

Definition target_fail (t : CompletionTarget) (error : Error) : W unit :=
  match t with
  | RegisteredRx ch => pr_modify (deliver (SendRx ch (Err error)))
  | RegisteredTx w => _ ← window_fail w error; window_drop w
  end.

(** ** Tracking *)

(** The free place of a slot in the outstanding table, which grows on demand. *)
Definition outstanding_place (slot : nat) : W unit :=
  _ ← up_router (λ r,
        if (List.length (outstanding r) <=? slot)%nat then
          set_outstanding (outstanding r ++ replicate (S slot - List.length (outstanding r)) None) r
        else r);
  r ← pr_gets router;
  entry ← pr_expect (outstanding r !! slot);
  pr_guard (bool_decide (is_Some entry)) (Protocol "duplicate outstanding slot").

(** The new entry and the counters. *)
Definition outstanding_add (slot : nat) (lane_id : Z) (send : bool) (wr : OutstandingWr) : W unit :=
  _ ← up_router (λ r, set_outstanding (<[slot := Some wr]> (outstanding r)) r);
  _ ← up_router (λ r, set_counts (outstanding_total r + 1)
        (outstanding_send r + if send then 1 else 0) (outstanding_recv r + if send then 0 else 1)
        (<[lane_id := outstanding_for_lane lane_id r + 1]> (outstanding_by_lane r)) r);
  up_router (λ r, set_stats (count_post send (outstanding_total r)) r).

(** [CompletionRouter::track_registered_rx]. *)
Definition track_registered_rx_body (user_ctx : Z) (sequence : option Z) (completion : nat) : W unit :=
  token ← pr_lift (WrToken_decode user_ctx);
  _ ← pr_guard (match operation token with Recv => false | Send => true end)
        (Protocol "registered RX completion requires a RECV WR");
  sequence ← pr_lift (ok_or
    (InvalidConfiguration "registered RX completion requires a SEND_IMM identity") sequence);
  let identity := (lane_id token, sequence) in
  r ← pr_gets router;
  _ ← pr_guard (bool_decide (is_Some (registered_rx_by_identity r !! identity)))
        (Protocol ("duplicate registered RX identity: lane_id=" +:+ pretty (lane_id token) +:+
                   " sequence=" +:+ pretty sequence));
  let slot := index (slot token) in
  _ ← outstanding_place slot;
  _ ← up_router (λ r, set_identities (<[identity := completion]> (registered_rx_by_identity r)) r);
  outstanding_add slot (lane_id token) false (mkOutstandingWr user_ctx (Some sequence) None).

(** The sender is dropped when the receive is not tracked. *)
Definition track_registered_rx (user_ctx : Z) (sequence : option Z) (completion : nat) : W unit :=
  r ← pr_catch (track_registered_rx_body user_ctx sequence completion);
  match r with
  | Ok _ => mret tt
  | Err e => _ ← pr_modify (deliver (DropRx completion)); pr_throw e
  end.

(** [CompletionRouter::track_registered_tx], which owns an [Arc] of the window. *)
Definition track_registered_tx_body (user_ctx sequence : Z) (w : nat) : W unit :=
  token ← pr_lift (WrToken_decode user_ctx);
  _ ← pr_guard (match operation token with Send => false | Recv => true end)
        (Protocol "registered TX completion requires a SEND WR");
  let slot := index (slot token) in
  _ ← outstanding_place slot;
  _ ← window_posted w;
  outstanding_add slot (lane_id token) true
    (mkOutstandingWr user_ctx (Some sequence) (Some (RegisteredTx w))).

Definition track_registered_tx (user_ctx sequence : Z) (w : nat) : W unit :=
  r ← pr_catch (track_registered_tx_body user_ctx sequence w);
  match r with
  | Ok _ => mret tt
  | Err e => _ ← window_drop w; pr_throw e
  end.

(** ** Routing *)

(** [CompletionRouter::take_registered_rx]. *)
Definition take_registered_rx (lane_id imm_data : Z) : W nat :=
  r ← pr_gets router;
  match registered_rx_by_identity r !! (lane_id, imm_data) with
  | Some ch =>
      _ ← up_router (λ r, set_identities
            (delete (lane_id, imm_data) (registered_rx_by_identity r)) r);
      mret ch
  | None => pr_throw (Protocol
      ("URMA SEND_IMM completion has no registered RX identity: lane_id=" +:+ pretty lane_id +:+
       " sequence=" +:+ pretty imm_data))
  end.

(** [CompletionRouter::take_outstanding]. *)
Definition take_outstanding (user_ctx : Z) : W OutstandingWr :=
  token ← pr_lift (WrToken_decode user_ctx);
  r ← pr_gets router;
  entry ← pr_lift (ok_or (Protocol "CQE slot is outside outstanding table")
                     (outstanding r !! index (slot token)));
  match entry with
  | Some wr =>
      if negb (wr_user_ctx wr =? user_ctx) then pr_throw (Protocol "CQE has no outstanding WR")
      else
        total ← pr_expect (decr (outstanding_total r));
        _ ← up_router (λ r, set_counts total (outstanding_send r) (outstanding_recv r)
                              (outstanding_by_lane r) r);
        n ← pr_lift (ok_or (Protocol "CQE lane has no outstanding WR")
                       (outstanding_by_lane r !! lane_id token));
        n ← pr_expect (decr n);
        _ ← up_router (λ r, set_counts (outstanding_total r) (outstanding_send r) (outstanding_recv r)
               (if n =? 0 then delete (lane_id token) (outstanding_by_lane r)
                else <[lane_id token := n]> (outstanding_by_lane r)) r);
        _ ← up_router (λ r, set_outstanding (<[index (slot token) := None]> (outstanding r)) r);
        mret wr
  | None => pr_throw (Protocol "CQE has no outstanding WR")
  end.

(** [CompletionRouter::decrement_operation]. *)
Definition decrement_operation (operation : OperationType) : W unit :=
  r ← pr_gets router;
  match operation with
  | Send => n ← pr_expect (decr (outstanding_send r));
            up_router (λ r, set_counts (outstanding_total r) n (outstanding_recv r)
                              (outstanding_by_lane r) r)
  | Recv => n ← pr_expect (decr (outstanding_recv r));
            up_router (λ r, set_counts (outstanding_total r) (outstanding_send r) n
                              (outstanding_by_lane r) r)
  end.

(** [CompletionRouter::route_flush_done]. *)
Definition route_flush_done (record : CompletionRecord) (recv_queue : bool) : W unit :=
  if recv_queue then
    _ ← up_router (set_stats count_error);
    pr_throw (Protocol "WR_FLUSH_ERR_DONE arrived on the receive JFC")
  else
    r ← pr_gets router;
    lane_id ← pr_lift (ok_or (Protocol ("WR_FLUSH_ERR_DONE references unknown native Jetty " +:+
                                        pretty (local_id record)))
                         (lane_by_jetty_id r !! local_id record));
    retirement ← pr_expect (retirement_by_lane r !! lane_id);
    if negb (waiting_for_flush retirement) then
      _ ← up_router (set_stats count_error);
      pr_throw (Protocol ("lane " +:+ pretty lane_id +:+
                          " received WR_FLUSH_ERR_DONE before retirement"))
    else
      up_router (λ r, set_retirement (<[lane_id := mkLaneRetirement (retired_jetty_id retirement)
        (retired_jfr_id retirement) (waiting_for_flush retirement) true]> (retirement_by_lane r)) r).

(** Giving back the slot of a work request that failed. *)
Definition complete_and_release (token : WrToken) : W unit :=
  _ ← on_pool (complete_error (slot token) (operation token));
  on_pool (release (slot token)).

(** The slot of a failed completion, which then reports [error]. *)
Definition retire_failed (registered_tx : bool) (token : WrToken) (error : Error) : W RoutedCompletion :=
  _ ← up_router (set_stats count_error);
  _ ← decrement_operation (operation token);
  _ ← (if registered_tx then on_pool (complete_tx_lease_send (slot token))
       else complete_and_release token);
  pr_throw error.

(** A successful SEND completion. *)
Definition route_send (registered_tx : bool) (token : WrToken) : W RoutedCompletion :=
  _ ← decrement_operation Send;
  _ ← up_router (set_stats (count_cqe true));
  if registered_tx then
    _ ← on_pool (complete_tx_lease_send (slot token)); mret RoutedTx
  else
    _ ← complete_and_release token; pr_throw (Protocol "SEND CQE has no registered TX owner").

(** A successful RECV completion: the waiter it found, and what it gets. *)
Definition route_recv (record : CompletionRecord) (token : WrToken) (sequence : option Z)
    : W (option CompletionTarget * Result RoutedCompletion) :=
  _ ← decrement_operation Recv;
  _ ← up_router (set_stats (count_cqe false));
  match validate_recv_immediate record with
  | Err error =>
      _ ← up_router (set_stats count_error);
      r ← pr_catch (_ ← complete_and_release token; pr_throw error);
      mret (None, r)
  | Ok imm_data =>
      taken ← pr_catch (take_registered_rx (lane_id token) imm_data);
      match taken with
      | Err error =>
          r ← pr_catch (_ ← complete_and_release token; pr_throw error);
          mret (None, r)
      | Ok ch =>
          r ← pr_catch
            (completed ← pr_catch (on_pool (complete_recv_leased (slot token) (completion_len record)));
             match completed with
             | Err error => _ ← complete_and_release token; pr_throw error
             | Ok _ =>
                 leased ← pr_catch (on_pool (lease_completed_rx_window
                                               [(slot token, completion_len record)]));
                 match leased with
                 | Err error => _ ← on_pool (release (slot token)); pr_throw error
                 | Ok lease =>
                     mret (RoutedRx (mkRxCompletion (lane_id token) sequence imm_data (slot token) lease))
                 end
             end);
          mret (Some (RegisteredRx ch), r)
      end
  end.

Definition is_registered_tx (c : option CompletionTarget) : bool :=
  match c with Some (RegisteredTx _) => true | _ => false end.

(** What a work-request completion amounts to: the target and the result. *)
Definition route_result (record : CompletionRecord) (recv_queue : bool) (token : WrToken)
    (wr : OutstandingWr) : W (option CompletionTarget * Result RoutedCompletion) :=
  let expected_recv := match operation token with Recv => true | Send => false end in
  let registered_tx := is_registered_tx (wr_completion wr) in
  if negb (Bool.eqb expected_recv recv_queue) || negb (Bool.eqb (is_recv record) recv_queue) ||
     negb (is_jetty record) then
    r ← pr_catch (retire_failed registered_tx token (Protocol "CQE queue/operation flags disagree"));
    mret (wr_completion wr, r)
  else if negb (status record =? 0) then
    r ← pr_catch (retire_failed registered_tx token
          (Completion (status record) (opcode record) (record_user_ctx record) (wr_sequence wr) None));
    mret (wr_completion wr, r)
  else
    match operation token with
    | Send => r ← pr_catch (route_send registered_tx token); mret (wr_completion wr, r)
    | Recv =>
        x ← route_recv record token (wr_sequence wr);
        mret (match x.1 with Some t => Some t | None => wr_completion wr end, x.2)
    end.

(** [CompletionRouter::route]. *)
Definition route (record : CompletionRecord) (recv_queue : bool) : W unit :=
  match event_kind record with
  | FlushErrorDone => route_flush_done record recv_queue
  | SuspendDone =>
      _ ← up_router (set_stats count_error);
      pr_throw (Protocol ("unexpected WR_SUSPEND_DONE lifecycle CQE on native object " +:+
                          pretty (local_id record)))
  | Unknown kind =>
      _ ← up_router (set_stats count_error);
      pr_throw (Protocol ("unknown URMA completion event kind " +:+ pretty kind))
  | WorkRequest =>
      if negb (user_ctx_valid record) then
        _ ← up_router (set_stats count_error);
        pr_throw (Completion (status record) (opcode record) 0 None None)
      else
        token ← pr_lift (WrToken_decode (record_user_ctx record));
        r ← pr_gets router;
        if decide (lane_by_jetty_id r !! local_id record ≠ Some (lane_id token)) then
          _ ← up_router (set_stats count_error);
          pr_throw (Protocol ("CQE native Jetty " +:+ pretty (local_id record) +:+
                              " does not belong to lane " +:+ pretty (lane_id token)))
        else
          let retiring := match retirement_by_lane r !! lane_id token with
                          | Some x => waiting_for_flush x | None => false end in
          wr ← take_outstanding (record_user_ctx record);
          '(target, result) ← route_result record recv_queue token wr;
          _ ← match target with Some t => target_send t result | None => drop_routed result end;
          match result with
          | Ok _ => mret tt
          | Err (Completion s o u q c) =>
              if (retiring : bool) then mret tt else pr_throw (Completion s o u q c)
          | Err error => pr_throw error
          end
  end.

(** [drain_batch]: the first error, after every record was routed. *)
Fixpoint drain_batch (records : list CompletionRecord) (recv_queue : bool) (routed : Z)
    (first_error : option Error) : W Z :=
  match records with
  | [] => match first_error with Some e => pr_throw e | None => mret routed end
  | record :: records =>
      r ← pr_catch (route record recv_queue);
      match r with
      | Ok _ => drain_batch records recv_queue (routed + 1) first_error
      | Err e => drain_batch records recv_queue routed
                   (match first_error with Some e0 => Some e0 | None => Some e end)
      end
  end.

(** [CompletionRouter::poll_jfc], on what the poll of the queue returned. *)
Definition poll_jfc (polled : result FfiError (list CompletionRecord)) (recv_queue : bool) : W Z :=
  records ← pr_lift (or_native "poll_jfc" polled);
  drain_batch records recv_queue 0 None.

(** [CompletionRouter::poll_once]. *)
Definition poll_once (send_polled recv_polled : result FfiError (list CompletionRecord)) : W Z :=
  _ ← up_router (set_stats (count_poll false));
  r ← pr_gets router;
  x ← (if negb (outstanding_send r =? 0) || has_pending_flush r
       then pr_catch (poll_jfc send_polled false) else mret (Ok 0));
  r ← pr_gets router;
  y ← (if negb (outstanding_recv r =? 0)
       then pr_catch (poll_jfc recv_polled true) else mret (Ok 0));
  match x, y with
  | Err e, _ => pr_throw e
  | Ok _, Err e => pr_throw e
  | Ok a, Ok b =>
      _ ← (if a + b =? 0 then up_router (set_stats (count_poll true)) else mret tt);
      mret (a + b)
  end.

(** The loop of [fail_pending] over the outstanding table. *)
Fixpoint fail_outstanding (slots : list nat) (error : Error) : W unit :=
  match slots with
  | [] => mret tt
  | i :: slots =>
      r ← pr_gets router;
      _ ← match outstanding r !! i with
          | Some (Some (mkOutstandingWr u q (Some t))) =>
              _ ← up_router (λ r, set_outstanding
                    (<[i := Some (mkOutstandingWr u q None)]> (outstanding r)) r);
              target_fail t error
          | _ => mret tt
          end;
      fail_outstanding slots error
  end.

(** [CompletionRouter::fail_pending]. *)
Definition fail_pending (error : Error) : W unit :=
  r ← pr_gets router;
  _ ← up_router (set_identities ∅);
  _ ← pr_for (λ x : Z * Z * nat, pr_modify (deliver (SendRx x.2 (Err error))))
        (map_to_list (registered_rx_by_identity r));
  fail_outstanding (seq 0 (List.length (outstanding r))) error.
End owner.
Arguments Owner : clear implicits.
End Router.
