(* ===== verification/UrmaPost.v ===== *)
(** * Posting windows of work requests

    Models the two posting methods of [urma/lane.rs]:
    [UrmaLane::post_receive_window_registered] and
    [UrmaLane::send_registered_window].  Both work on the lane and on the owner
    thread's state, post the window in batches of at most [post_list_size]
    work requests, and undo what the provider did not accept.

    A loop runs on fuel; its iterations shorten the rest of the window, or fail
    when the batch size is zero, so the length of the window is enough fuel. *)

From S2P Require Import Prelude UrmaBuffer UrmaLane UrmaCompletion.
From Stdlib Require Import ZArith Lia String.
From stdpp Require Import base tactics numbers list gmap strings pretty.
Local Open Scope Z_scope.

Module Post.
Import Urma Lane Router.

Section post.
Context {J Seg : Type} `{NativeSegment Seg} `{NativeJetty J Seg}.

Abbreviation LaneOwner := (UrmaLane (J := J) * Owner Seg)%type.
Abbreviation P A := (PR LaneOwner Error A).

Definition on_owner {A} (m : PR (Owner Seg) Error A) : P A :=
  pr_zoom snd (λ o s, (s.1, o)) m.
Definition on_lane {A} (m : ST UrmaLane Error A) : P A := λ s,
  let '(r, l) := m s.1 in Some (r, (l, s.2)).
Definition on_buffers {A} (m : PR (UrmaBufferPool (Seg := Seg)) Error A) : P A := on_owner (on_pool m).

(** [first_error.get_or_insert(error)]. *)
Definition get_or_insert (o : option Error) (e : Error) : option Error :=
  match o with Some e0 => Some e0 | None => Some e end.

(** ** Receive windows *)

(** A receive of the window: its slot, its sequence and its sender. *)
Abbreviation RxPending := (SlotId * Z * nat)%type.
Definition rx_pending_slot (x : RxPending) : SlotId := x.1.1.

(** An error return drops the senders that were not consumed. *)
Definition dropping {A} (senders : list nat) (m : P A) : P A :=
  r ← pr_catch m;
  match r with
  | Ok a => mret a
  | Err e => _ ← pr_for (λ ch, on_owner (pr_modify (deliver (DropRx ch)))) senders; pr_throw e
  end.

(** One entry of the closure [prepare]. *)
Definition prepare_recv (slot : SlotId) : P PostEntry :=
  s ← pr_gets (λ s, s);
  '(offset, length) ← pr_lift (recv_post_layout (pool s.2) slot);
  user_ctx ← pr_lift (WrToken_encode (token Recv slot s.1));
  _ ← on_buffers (mark_posted slot Rx);
  mret (mkPostEntry offset length user_ctx None).

(** The closure [prepare]: the entries, and the error that stopped it. *)
Fixpoint prepare_recvs (batch : list RxPending) (entries : list PostEntry)
    : P (list PostEntry * option Error) :=
  match batch with
  | [] => mret (entries, None)
  | x :: batch =>
      r ← pr_catch (prepare_recv (rx_pending_slot x));
      match r with
      | Ok e => prepare_recvs batch (entries ++ [e])
      | Err error => mret (entries, Some error)
      end
  end.

(** Undoing the marked slots and giving back the window's slots. *)
Definition undo_recvs (marked pending : list RxPending) : P unit :=
  _ ← pr_for (λ x, on_buffers (rollback_post (rx_pending_slot x) Rx)) marked;
  on_buffers (release_unposted_rx_window (rx_pending_slot <$> pending)).

(** The batch is prepared and handed to the provider. *)
Definition post_recv_stage (batch pending : list RxPending) : P (list PostEntry * PostBatch) :=
  '(entries, error) ← prepare_recvs batch [];
  match error with
  | Some error =>
      _ ← undo_recvs (take (List.length entries) batch) pending; pr_throw error
  | None =>
      s ← pr_gets (λ s, s);
      seg ← pr_lift (segment_handle (pool s.2));
      posted ← pr_catch (on_lane (on_jetty (post_recv_batch seg entries)));
      match posted with
      | Ok posted => mret (entries, posted)
      | Err error => _ ← undo_recvs batch pending; pr_throw error
      end
  end.

(** The loop over the posted batch; [entries] runs along the accepted prefix. *)
Fixpoint track_recvs (batch : list RxPending) (entries : list PostEntry) (posted : nat)
    (first_error : option Error) : P (option Error) :=
  match batch with
  | [] => mret first_error
  | (slot, sequence, ch) :: batch =>
      match posted with
      | S posted =>
          e ← pr_expect (head entries);
          r ← pr_catch (on_owner (track_registered_rx (user_ctx e) (Some sequence) ch));
          track_recvs batch (tail entries) posted
            (match r with Ok _ => first_error | Err error => get_or_insert first_error error end)
      | O =>
          _ ← on_buffers (rollback_post slot Rx);
          _ ← on_buffers (release slot);
          track_recvs batch entries O first_error
      end
  end.

(** The [while] loop. *)
Fixpoint post_recv_batches (fuel : nat) (pending : list RxPending) : P unit :=
  match pending with
  | [] => mret tt
  | _ =>
      match fuel with
      | O => λ _, None
      | S fuel =>
          n ← pr_gets (λ s, post_list_size s.1);
          let batch := take n pending in
          let rest := drop n pending in
          '(entries, posted) ← dropping (snd <$> pending) (post_recv_stage batch pending);
          _ ← dropping (snd <$> drop (posted_len posted) pending)
            (first_error ← track_recvs batch entries (posted_len posted)
               (native_error "post_jetty_recv_wr_list" <$> batch_error posted);
             match first_error with
             | Some error =>
                 _ ← on_buffers (release_unposted_rx_window (rx_pending_slot <$> rest));
                 pr_throw error
             | None => mret tt
             end);
          post_recv_batches fuel rest
      end
  end.

(** [UrmaLane::post_receive_window_registered]. *)
Definition post_receive_window_registered (sequences : list Z) (completion_txs : list nat) : P unit :=
  slots ← dropping completion_txs
    (s ← pr_gets (λ s, s);
     _ ← pr_guard (negb (bool_decide (lane_state s.1 = Bound ∨ lane_state s.1 = Ready)))
           (state_error "post registered receive window" s.1);
     _ ← pr_guard (bool_decide (sequences = []) ||
                   negb (List.length sequences =? List.length completion_txs)%nat)
           (InvalidConfiguration
              "registered RX window requires matching non-empty sequences and completions");
     _ ← pr_lift (validate_registered_rx_identities (id s.1) sequences (router s.2));
     on_buffers (allocate_rx_window (List.length sequences)));
  let pending := zip (zip slots sequences) completion_txs in
  post_recv_batches (List.length pending) pending.

(** ** Send windows *)

(** A send of the window: its slot, offset, length and sequence. *)
Abbreviation TxPending := (SlotId * Z * Z * Z)%type.
Definition tx_pending_slot (x : TxPending) : SlotId := x.1.1.1.

(** One entry of the closure [prepare]. *)
Definition prepare_send (x : TxPending) : P PostEntry :=
  let '(slot, offset, length, sequence) := x in
  s ← pr_gets (λ s, s);
  user_ctx ← pr_lift (WrToken_encode (token Send slot s.1));
  _ ← on_buffers (mark_tx_lease_posted slot);
  mret (mkPostEntry offset length user_ctx (Some sequence)).

Fixpoint prepare_sends (batch : list TxPending) (entries : list PostEntry)
    : P (list PostEntry * option Error) :=
  match batch with
  | [] => mret (entries, None)
  | x :: batch =>
      r ← pr_catch (prepare_send x);
      match r with
      | Ok e => prepare_sends batch (entries ++ [e])
      | Err error => mret (entries, Some error)
      end
  end.

Definition undo_sends (marked : list TxPending) : P unit :=
  pr_for (λ x, on_buffers (rollback_tx_lease_post (tx_pending_slot x))) marked.

(** [state.finish_posting(Some(error.clone())); return Err(error)]. *)
Definition fail_window {A} (w : nat) (error : Error) : P A :=
  _ ← on_owner (finish_posting w (Some error)); pr_throw error.

(** The batch is prepared and handed to the provider. *)
Definition post_send_stage (w : nat) (batch : list TxPending) : P (list PostEntry * PostBatch) :=
  '(entries, error) ← prepare_sends batch [];
  match error with
  | Some error => _ ← undo_sends (take (List.length entries) batch); fail_window w error
  | None =>
      s ← pr_gets (λ s, s);
      seg ← pr_lift (segment_handle (pool s.2));
      posted ← pr_catch (on_lane (on_jetty (post_send_batch seg entries)));
      match posted with
      | Ok posted => mret (entries, posted)
      | Err error => _ ← undo_sends batch; fail_window w error
      end
  end.

(** The loop over the posted batch. *)
Fixpoint track_sends (w : nat) (batch : list TxPending) (entries : list PostEntry) (posted : nat)
    (first_error : option Error) : P (option Error) :=
  match batch with
  | [] => mret first_error
  | (slot, _, _, sequence) :: batch =>
      match posted with
      | S posted =>
          e ← pr_expect (head entries);
          _ ← on_owner (window_clone w);
          r ← pr_catch (on_owner (track_registered_tx (user_ctx e) sequence w));
          track_sends w batch (tail entries) posted
            (match r with Ok _ => first_error | Err error => get_or_insert first_error error end)
      | O =>
          _ ← on_buffers (rollback_tx_lease_post slot);
          track_sends w batch entries O first_error
      end
  end.

(** The [while] loop. *)
Fixpoint post_send_batches (fuel : nat) (w : nat) (pending : list TxPending) : P unit :=
  match pending with
  | [] => on_owner (finish_posting w None)
  | _ =>
      match fuel with
      | O => λ _, None
      | S fuel =>
          n ← pr_gets (λ s, post_list_size s.1);
          let batch := take n pending in
          '(entries, posted) ← post_send_stage w batch;
          s ← pr_gets (λ s, s);
          c ← pr_expect (consume_remote_receives (posted_len posted) (credits s.1));
          _ ← on_lane (modify (set_credits c));
          first_error ← track_sends w batch entries (posted_len posted)
            (native_error "post_jetty_send_wr_list" <$> batch_error posted);
          match first_error with
          | Some error => fail_window w error
          | None => post_send_batches fuel w (drop n pending)
          end
      end
  end.

(** [UrmaLane::send_registered_window]: the arguments are dropped when it
    refuses them, and the local [state] at the end. *)
Definition send_registered_window (lease : TxWindowLease) (sequences : list Z) (completion : nat)
    : P unit :=
  r ← pr_catch
    (s ← pr_gets (λ s, s);
     _ ← pr_lift (lane_require Ready s.1);
     _ ← pr_guard (negb (List.length sequences =? List.length (tx_layouts lease))%nat ||
                   bool_decide (sequences = []))
           (InvalidConfiguration "registered TX window requires one sequence per chunk");
     _ ← pr_lift (require_remote_receives (List.length sequences) (credits s.1));
     pr_lift (tx_lease_layouts (pool s.2) lease));
  match r with
  | Err error =>
      _ ← on_owner (drop_tx_lease (Some lease));
      _ ← on_owner (pr_modify (deliver (DropTx completion)));
      pr_throw error
  | Ok layouts =>
      s ← pr_gets (λ s, s);
      w ← on_owner (window_new (id s.1) sequences lease completion);
      let pending := zip layouts sequences in
      r ← pr_catch (post_send_batches (List.length pending) w pending);
      _ ← on_owner (window_drop w);
      pr_lift r
  end.
End post.
End Post.
