(* ===== verification/UrmaOwnerFacts.v ===== *)
(** * Safety of the URMA owner thread

    The invariant of the owner's state: every outstanding work request owns a
    posted slot at the generation in its token, the counters are exact, the maps
    of the lanes agree and the reference counts of the send windows are those of
    the work requests.  Every completion record, well-formed or not, and every
    posting keeps it, and nothing panics. *)

From S2P Require Import Prelude UrmaBuffer UrmaBufferFacts UrmaLane UrmaCompletion UrmaPost.
From Stdlib Require Import ZArith Lia String.
From stdpp Require Import base tactics numbers list gmap strings pretty.
Local Open Scope Z_scope.

Module OwnerFacts.
Import Urma Lane Router LaneFacts UrmaBufferFacts.

(** ** The outstanding table *)

(** The work requests of a table, in slot order. *)
Definition entries (l : list (option OutstandingWr)) : list OutstandingWr := omap (λ x, x) l.

Definition wr_token (wr : OutstandingWr) : option WrToken :=
  match WrToken_decode (wr_user_ctx wr) with Ok t => Some t | Err _ => None end.
Definition wr_op (wr : OutstandingWr) : option OperationType := operation <$> wr_token wr.
Definition wr_lane (wr : OutstandingWr) : option Z := lane_id <$> wr_token wr.
Definition wr_window (wr : OutstandingWr) : option nat :=
  match wr_completion wr with Some (RegisteredTx w) => Some w | _ => None end.

#[local] Instance OperationType_eq_dec : EqDecision OperationType.
Proof. solve_decision. Defined.

(** How many entries satisfy [P]. *)
Definition tally (P : OutstandingWr → bool) (es : list OutstandingWr) : Z :=
  Z.of_nat (List.length (List.filter P es)).

Lemma tally_cons P wr es : tally P (wr :: es) = tally P es + if P wr then 1 else 0.
Proof. unfold tally. simpl. destruct (P wr); simpl; lia. Qed.
Lemma tally_nonneg P es : 0 ≤ tally P es.
Proof. unfold tally. lia. Qed.

#[export] Instance filter_length_perm (P : OutstandingWr → bool) :
  Proper ((≡ₚ) ==> (=)) (tally P).
Proof.
  intros es es' Hp. induction Hp as [|wr ? ? _ IH|wr wr' ?|? ? ? _ IH1 _ IH2].
  - done.
  - by rewrite !tally_cons, IH.
  - rewrite !tally_cons. lia.
  - congruence.
Qed.

(** Adding and removing an entry. *)
Lemma entries_insert l i wr : l !! i = Some None → entries (<[i := Some wr]> l) ≡ₚ wr :: entries l.
Proof.
  revert i. induction l as [|x l IH]; intros [|i] Hi; simplify_eq/=; [done|].
  unfold entries in *. destruct x; simpl; rewrite (IH _ Hi); [apply perm_swap|done].
Qed.
Lemma entries_delete l i wr : l !! i = Some (Some wr) → entries l ≡ₚ wr :: entries (<[i := None]> l).
Proof.
  revert i. induction l as [|x l IH]; intros [|i] Hi; simplify_eq/=; [done|].
  unfold entries in *. destruct x; simpl; rewrite (IH _ Hi); [apply perm_swap|done].
Qed.
Lemma entries_update l i wr wr' :
  l !! i = Some (Some wr) → ∃ es, entries l ≡ₚ wr :: es ∧ entries (<[i := Some wr']> l) ≡ₚ wr' :: es.
Proof.
  intros Hi. exists (entries (<[i := None]> l)). split; [by apply entries_delete|].
  rewrite <- (list_insert_insert_eq l i (Some wr') None). apply entries_insert.
  apply list_lookup_insert_eq. by eapply lookup_lt_Some.
Qed.
Lemma entries_grow l n : entries (l ++ replicate n None) = entries l.
Proof.
  unfold entries. rewrite omap_app. replace (omap (λ x, x) (replicate n (@None OutstandingWr))) with
    (@nil OutstandingWr) by (induction n; [done|]; simpl; done). by rewrite app_nil_r.
Qed.

Definition op_is (op : OperationType) (wr : OutstandingWr) : bool := bool_decide (wr_op wr = Some op).
Definition lane_is (l : Z) (wr : OutstandingWr) : bool := bool_decide (wr_lane wr = Some l).

(** No key for a count of zero. *)
Definition nonzero (n : Z) : option Z := if n =? 0 then None else Some n.

Definition pending_op (op : OperationType) (d : option OperationType) : Z :=
  if decide (d = Some op) then 1 else 0.

(** The counters and maps of the router; [d] is the operation of a completion
    that left the table but is still counted. *)
Record router_ok (d : option OperationType) (r : CompletionRouter) : Prop := {
  total_ok : outstanding_total r = Z.of_nat (List.length (entries (outstanding r)));
  send_ok : outstanding_send r = tally (op_is Send) (entries (outstanding r)) + pending_op Send d;
  recv_ok : outstanding_recv r = tally (op_is Recv) (entries (outstanding r)) + pending_op Recv d;
  lanes_ok : ∀ l, outstanding_by_lane r !! l = nonzero (tally (lane_is l) (entries (outstanding r)));
  jetties_ok : ∀ j l, lane_by_jetty_id r !! j = Some l ↔
    ∃ x, retirement_by_lane r !! l = Some x ∧ retired_jetty_id x = j;
}.

(** ** Send windows *)

Definition occ (w : nat) (l : list nat) : nat := List.length (List.filter (λ v, (v =? w)%nat) l).

#[export] Instance occ_perm w : Proper ((≡ₚ) ==> (=)) (occ w).
Proof.
  unfold occ. intros l l' Hp. induction Hp as [|v ? ? _ IH|v v' ?|? ? ? _ IH1 _ IH2]; simpl.
  - done.
  - destruct (v =? w)%nat; simpl; by rewrite IH.
  - destruct (v =? w)%nat, (v' =? w)%nat; done.
  - congruence.
Qed.

Lemma occ_app w l l' : occ w (l ++ l') = (occ w l + occ w l')%nat.
Proof. unfold occ. by rewrite List.filter_app, length_app. Qed.
Lemma occ_cons w v l : occ w (v :: l) = (occ w l + if (v =? w)%nat then 1 else 0)%nat.
Proof. unfold occ. simpl. destruct (v =? w)%nat; simpl; lia. Qed.
Lemma occ_pos w l : w ∈ l ↔ (0 < occ w l)%nat.
Proof.
  induction l as [|v l IH]; [split; [by intros ?%not_elem_of_nil|unfold occ; simpl; lia]|].
  rewrite elem_of_cons, occ_cons, IH. destruct (Nat.eqb_spec v w); intuition (try congruence; lia).
Qed.

(** The heap of windows: [T] are the references of work requests, [L] the local
    ones; with [h] no waiter was failed early, so that [pending] is exact. *)
Record windows_ok (h : bool) (T L : list nat) (next : nat) (ws : gmap nat RegisteredTxWindowInner)
    : Prop := {
  win_live : ∀ w, w ∈ T ++ L → is_Some (ws !! w);
  win_fresh : ∀ w, is_Some (ws !! w) → (w < next)%nat;
  win_refs : ∀ w x, ws !! w = Some x → refs x = occ w (T ++ L) ∧ (0 < refs x)%nat;
  win_pending : ∀ w x, ws !! w = Some x → (occ w T ≤ pending x)%nat ∧
                         (h = true → pending x = occ w T);
  win_lease : ∀ w x, ws !! w = Some x → is_Some (completion x) → is_Some (lease x);
}.

Lemma windows_ok_perm h T T' L L' n ws :
  T ≡ₚ T' → L ≡ₚ L' → windows_ok h T L n ws → windows_ok h T' L' n ws.
Proof.
  intros HT HL [H1 H2 H3 H4 H5]. split.
  - intros w. rewrite <- HT, <- HL. apply H1.
  - done.
  - intros w x. rewrite <- HT, <- HL. apply H3.
  - intros w x. rewrite <- HT. apply H4.
  - done.
Qed.

Lemma windows_ok_change h T L T' L' n ws w x x' :
  windows_ok h T L n ws → ws !! w = Some x →
  (∀ v, v ≠ w → occ v T' = occ v T ∧ occ v L' = occ v L) →
  refs x' = occ w (T' ++ L') → (0 < refs x')%nat → (occ w T' ≤ pending x')%nat →
  (h = true → pending x' = occ w T') → (is_Some (completion x') → is_Some (lease x')) →
  windows_ok h T' L' n (<[w := x']> ws).
Proof.
  intros [H1 H2 H3 H4 H5] Hw Hother Hrefs Hpos Hle Heq Hlease.
  assert (∀ v, v ≠ w → occ v (T' ++ L') = occ v (T ++ L)) as Ho.
  { intros v Hv. rewrite !occ_app. destruct (Hother v Hv). lia. }
  split.
  - intros v Hv. rewrite lookup_insert_is_Some. destruct (decide (w = v)) as [|Hne]; [by left|right].
    split; [done|]. apply H1, occ_pos. rewrite <- Ho by done. by apply occ_pos.
  - intros v [->|[_ Hv]]%lookup_insert_is_Some; [apply H2; by exists x|by apply H2].
  - intros v y [[<- <-]|[Hne Hv]]%lookup_insert_Some; [done|]. rewrite Ho by done. by apply H3.
  - intros v y [[<- <-]|[Hne Hv]]%lookup_insert_Some; [done|]. destruct (Hother v) as [-> _]; [done|].
    by apply H4.
  - intros v y [[<- <-]|[Hne Hv]]%lookup_insert_Some; [done|]. by apply (H5 v).
Qed.

(** An update that keeps the counts. *)
Lemma windows_ok_update h T L n ws w x x' :
  windows_ok h T L n ws → ws !! w = Some x → refs x' = refs x → pending x' = pending x →
  (is_Some (completion x') → is_Some (lease x')) → windows_ok h T L n (<[w := x']> ws).
Proof.
  intros Hok Hw Hr Hp Hl. destruct (win_refs _ _ _ _ _ Hok _ _ Hw), (win_pending _ _ _ _ _ Hok _ _ Hw).
  eapply windows_ok_change; [exact Hok|exact Hw|done|lia|lia|lia|rewrite Hp; done|done].
Qed.

Lemma windows_ok_delete h T L T' L' n ws w :
  windows_ok h T L n ws →
  (∀ v, v ≠ w → occ v T' = occ v T ∧ occ v L' = occ v L) → occ w (T' ++ L') = 0%nat →
  windows_ok h T' L' n (delete w ws).
Proof.
  intros [H1 H2 H3 H4 H5] Hother Hz.
  assert (∀ v, v ≠ w → occ v (T' ++ L') = occ v (T ++ L)) as Ho.
  { intros v Hv. rewrite !occ_app. destruct (Hother v Hv). lia. }
  split.
  - intros v Hv%occ_pos. assert (v ≠ w) as Hne by (intros ->; lia). rewrite lookup_delete_ne by done.
    apply H1, occ_pos. by rewrite <- Ho.
  - intros v [y [_ Hv]%lookup_delete_Some]. apply H2. by exists y.
  - intros v y [Hne Hv]%lookup_delete_Some. rewrite Ho by done. by apply H3.
  - intros v y [Hne Hv]%lookup_delete_Some. destruct (Hother v) as [-> _]; [done|]. by apply H4.
  - intros v y [Hne Hv]%lookup_delete_Some. by apply (H5 v).
Qed.

(** Without exact counts a reference can move from the work requests to the
    local ones. *)
Lemma windows_ok_demote T L n ws w :
  windows_ok false (w :: T) L n ws → windows_ok false T (w :: L) n ws.
Proof.
  intros [H1 H2 H3 H4 H5].
  assert (∀ v, occ v (T ++ w :: L) = occ v ((w :: T) ++ L)) as Ho.
  { intros v. rewrite !occ_app, !occ_cons. lia. }
  split; try done.
  - intros v Hv%occ_pos. apply H1, occ_pos. by rewrite <- Ho.
  - intros v x Hv. rewrite Ho. by apply H3.
  - intros v x Hv. destruct (H4 v x Hv) as [Hle _]. rewrite occ_cons in Hle. split; [lia|done].
Qed.

Lemma windows_ok_weaken h T L n ws : windows_ok h T L n ws → windows_ok false T L n ws.
Proof. intros [H1 H2 H3 H4 H5]. split; try done. intros w x Hw. split; [by apply H4|done]. Qed.

(** ** The owner's state *)

Section owner.
Context {Seg : Type} `{!NativeSegment Seg}.
Implicit Types o : Owner Seg.

Definition op_kind (op : OperationType) : SlotKind := match op with Send => Tx | Recv => Rx end.

(** The entry at slot [i] owns the slot. *)
Definition entry_ok (h : bool) (p : UrmaBufferPool (Seg := Seg)) (i : nat) (wr : OutstandingWr) : Prop :=
  ∃ t s, WrToken_decode (wr_user_ctx wr) = Ok t ∧ index (slot t) = i ∧ holds p (slot t) s ∧
    kind s = op_kind (operation t) ∧ state s = posted_state (op_kind (operation t)) ∧
    match operation t with
    | Recv => wr_completion wr = None
    | Send => (h = true → is_Some (wr_window wr)) ∧ (wr_window wr = None → wr_completion wr = None)
    end.

Definition targets o : list nat := omap wr_window (entries (outstanding (router o))).

(** [d]: a completion still counted; [X]: references of completions being
    routed; [L]: local references. *)
Record owner_inv (sz : Z) (h : bool) (d : option OperationType) (X L : list nat) o : Prop := {
  oi_pool : pool_inv sz h (pool o);
  oi_entries : ∀ i wr, outstanding (router o) !! i = Some (Some wr) → entry_ok h (pool o) i wr;
  oi_router : router_ok d (router o);
  oi_windows : windows_ok h (targets o ++ X) L (next_window o) (windows o);
}.

Lemma entry_ok_frame h p p' i wr : slots p' !! i = slots p !! i → entry_ok h p i wr → entry_ok h p' i wr.
Proof.
  intros Hi (t & s & Ht & <- & [Hs Hg] & Hrest). exists t, s. split; [done|]. split; [done|].
  split; [split; [by rewrite Hi|done]|done].
Qed.

(** The pool changes outside the outstanding slots. *)
Lemma owner_inv_pool sz h d X L o p' :
  owner_inv sz h d X L o → pool_inv sz h p' →
  (∀ i wr, outstanding (router o) !! i = Some (Some wr) → slots p' !! i = slots (pool o) !! i) →
  owner_inv sz h d X L (set_pool p' o).
Proof.
  intros [Hp He Hr Hw] Hp' Hf. split; [done| |done|done]. intros i wr Hi.
  eapply entry_ok_frame; [by eapply Hf|]. by apply He.
Qed.

(** ** Window operations *)

Definition same_router o o' : Prop := router o' = router o ∧ slots (pool o') = slots (pool o).

Lemma window_get_wp w (Q : Result RegisteredTxWindowInner → Owner Seg → Prop) o x :
  windows o !! w = Some x → Q (Ok x) o → wp (window_get w) Q o.
Proof. intros Hw HQ. unfold wp, window_get. cbv [mbind pr_mbind pr_gets pr_expect]. by rewrite Hw. Qed.

(** A window of the heap, changed. *)
Lemma owner_inv_windows sz h d X L X' L' o ws n sn :
  owner_inv sz h d X L o → windows_ok h (targets o ++ X') L' n ws →
  owner_inv sz h d X' L' (mkOwner (router o) (pool o) ws n sn).
Proof. intros [Hp He Hr _] Hw. by split. Qed.

Lemma drop_tx_lease_spec sz h d X L o l :
  owner_inv sz h d X L o →
  wp (drop_tx_lease l) (λ r o', r = Ok tt ∧ owner_inv sz h d X L o' ∧ same_router o o' ∧
    windows o' = windows o) o.
Proof.
  intros Ho. destruct l as [l|]; simpl; [|done]. split; [done|].
  assert (slots (drop_core (tx_core l) (pool o)) = slots (pool o)) as Hs by by destruct (tx_core l).
  split; [|done]. apply owner_inv_pool; [done|apply drop_core_inv, Ho|]. intros. by rewrite Hs.
Qed.

Lemma deliver_inv sz h d X L o x : owner_inv sz h d X L o → owner_inv sz h d X L (deliver x o).
Proof. intros [Hp He Hr Hw]. by split. Qed.

Lemma window_drop_spec sz h d X L w o :
  owner_inv sz h d X (w :: L) o →
  wp (window_drop w) (λ r o', r = Ok tt ∧ owner_inv sz h d X L o' ∧ same_router o o') o.
Proof.
  intros Ho. pose proof (oi_windows _ _ _ _ _ _ Ho) as Hok.
  destruct (win_live _ _ _ _ _ Hok w) as [x Hx]; [set_solver|].
  destruct (win_refs _ _ _ _ _ Hok _ _ Hx) as [Hr _]. destruct (win_pending _ _ _ _ _ Hok _ _ Hx) as [Hp1 Hp2].
  rewrite occ_app, occ_cons, Nat.eqb_refl in Hr.
  assert (∀ v, v ≠ w → occ v L = occ v (w :: L)) as Hocc.
  { intros v Hv. rewrite occ_cons. destruct (Nat.eqb_spec w v); [congruence|lia]. }
  unfold window_drop. apply wp_bind. apply window_get_wp with x; [done|].
  destruct (refs x) as [|[|n]] eqn:Hrefs; [lia| |].
  - apply wp_bind_modify. apply wp_bind. eapply wp_mono.
    { apply drop_tx_lease_spec with (sz := sz) (h := h) (d := d) (X := X) (L := L).
      apply (owner_inv_windows sz h d X (w :: L) X L o _ _ _ Ho).
      eapply windows_ok_delete; [exact Hok|intros v Hv; by split; [|apply Hocc]|]. rewrite occ_app. lia. }
    intros r o1 (-> & Ho1 & Hs1 & _). destruct (completion x); [|done].
    split; [done|]. split; [by apply deliver_inv|done].
  - unfold wp. simpl. split; [done|]. split; [|done].
    apply (owner_inv_windows sz h d X (w :: L) X L o _ _ _ Ho).
    eapply windows_ok_change; [exact Hok|exact Hx|intros v Hv; by split; [|apply Hocc]|..]; simpl; try done; try lia.
    + rewrite occ_app. lia.
    + exact (win_lease _ _ _ _ _ Hok w x Hx).
Qed.

Lemma window_clone_spec sz h d X L w o :
  owner_inv sz h d X L o → w ∈ L →
  wp (window_clone w) (λ r o', r = Ok tt ∧ owner_inv sz h d X (w :: L) o' ∧ same_router o o') o.
Proof.
  intros Ho Hin. pose proof (oi_windows _ _ _ _ _ _ Ho) as Hok.
  destruct (win_live _ _ _ _ _ Hok w) as [x Hx]; [set_solver|].
  destruct (win_refs _ _ _ _ _ Hok _ _ Hx) as [Hr _]. destruct (win_pending _ _ _ _ _ Hok _ _ Hx) as [Hp1 Hp2].
  unfold window_clone. apply wp_bind. apply window_get_wp with x; [done|]. split; [done|]. split; [|done].
  apply (owner_inv_windows sz h d X L X (w :: L) o _ _ _ Ho).
  eapply windows_ok_change; [exact Hok|exact Hx|..]; simpl; try done; try lia.
  - intros v Hv. split; [done|]. rewrite occ_cons. destruct (Nat.eqb_spec w v); [congruence|lia].
  - rewrite Hr, !occ_app, occ_cons, Nat.eqb_refl. lia.
  - exact (win_lease _ _ _ _ _ Hok w x Hx).
Qed.

(** [resolve] keeps the counts of a window. *)
Lemma window_resolve_spec sz h d X L w o x :
  owner_inv sz h d X L o → windows o !! w = Some x →
  wp (window_resolve w) (λ r o', r = Ok tt ∧ owner_inv sz h d X L o' ∧ same_router o o') o.
Proof.
  intros Ho Hx. pose proof (oi_windows _ _ _ _ _ _ Ho) as Hok.
  unfold window_resolve. apply wp_bind. apply window_get_wp with x; [done|].
  destruct (negb _ || negb _); [done|]. destruct (completion x) as [ch|] eqn:Hc; [|done].
  destruct (win_lease _ _ _ _ _ Hok w x Hx) as [l Hl]; [by rewrite Hc|].
  destruct (first_error (set_completion None x)) as [e|].
  - apply wp_bind_modify. apply wp_bind. eapply wp_mono.
    { apply drop_tx_lease_spec with (sz := sz) (h := h) (d := d) (X := X) (L := L).
      apply (owner_inv_windows sz h d X L X L o _ _ _ Ho).
      by eapply windows_ok_update; [exact Hok|exact Hx|..]; simpl; [..|intros [? ?]]. }
    intros r o1 (-> & Ho1 & Hs1 & _). split; [done|]. split; [by apply deliver_inv|done].
  - apply wp_bind. unfold wp at 1. simpl. rewrite Hl. simpl. apply wp_bind_modify. split; [done|].
    split; [|done]. apply deliver_inv. apply (owner_inv_windows sz h d X L X L o _ _ _ Ho).
    by eapply windows_ok_update; [exact Hok|exact Hx|..]; simpl; [..|intros [? ?]].
Qed.

Lemma or_first_error_fields e x :
  refs (or_first_error e x) = refs x ∧ pending (or_first_error e x) = pending x ∧
  completion (or_first_error e x) = completion x ∧ lease (or_first_error e x) = lease x.
Proof. unfold or_first_error. by destruct (first_error x). Qed.

Lemma finish_posting_spec sz h d X L w e o :
  owner_inv sz h d X L o → w ∈ L →
  wp (finish_posting w e) (λ r o', r = Ok tt ∧ owner_inv sz h d X L o' ∧ same_router o o') o.
Proof.
  intros Ho Hin. pose proof (oi_windows _ _ _ _ _ _ Ho) as Hok.
  destruct (win_live _ _ _ _ _ Hok w) as [x Hx]; [set_solver|].
  unfold finish_posting. apply wp_bind. apply window_get_wp with x; [done|]. apply wp_bind_modify.
  destruct (or_first_error_fields e (set_posting_finished x)) as (Hr & Hp & Hc & Hl).
  eapply wp_mono.
  { eapply window_resolve_spec; [|apply lookup_insert_eq].
    apply (owner_inv_windows sz h d X L X L o _ _ _ Ho).
    eapply windows_ok_update; [exact Hok|exact Hx|done|done|]. rewrite Hc, Hl.
    exact (win_lease _ _ _ _ _ Hok w x Hx). }
  intros r o' (-> & Ho' & Hs). done.
Qed.

(** A completion of a window's work request: its reference becomes local. *)
Lemma window_completed_spec sz h d X L w res o :
  owner_inv sz h d (w :: X) L o →
  wp (window_completed w res) (λ r o', r = Ok tt ∧ owner_inv sz h d X (w :: L) o' ∧ same_router o o') o.
Proof.
  intros Ho. pose proof (oi_windows _ _ _ _ _ _ Ho) as Hok.
  destruct (win_live _ _ _ _ _ Hok w) as [x Hx]; [set_solver|].
  destruct (win_refs _ _ _ _ _ Hok _ _ Hx) as [Hr Hpos]. destruct (win_pending _ _ _ _ _ Hok _ _ Hx) as [Hp1 Hp2].
  assert (occ w (targets o ++ w :: X) = S (occ w (targets o ++ X))) as Hocc.
  { rewrite !occ_app, occ_cons, Nat.eqb_refl. lia. }
  unfold window_completed. apply wp_bind. apply window_get_wp with x; [done|].
  destruct (pending x) as [|n] eqn:Hpx; [lia|]. apply wp_bind. unfold wp at 1. simpl.
  apply wp_bind_modify. set (e := match res with Err e => Some e | Ok _ => None end).
  destruct (or_first_error_fields e (set_pending n x)) as (Hr' & Hp' & Hc' & Hl').
  eapply wp_mono.
  { eapply window_resolve_spec; [|apply lookup_insert_eq].
    apply (owner_inv_windows sz h d (w :: X) L X (w :: L) o _ _ _ Ho).
    eapply windows_ok_change; [exact Hok|exact Hx|..].
    - intros v Hv. rewrite !occ_app, !occ_cons. destruct (Nat.eqb_spec w v); [congruence|lia].
    - rewrite Hr'. simpl. rewrite Hr, !occ_app, !occ_cons, Nat.eqb_refl. lia.
    - rewrite Hr'. simpl. lia.
    - rewrite Hp'. simpl. lia.
    - rewrite Hp'. simpl. intros Hh. specialize (Hp2 Hh). lia.
    - rewrite Hc', Hl'. simpl. exact (win_lease _ _ _ _ _ Hok w x Hx). }
  intros r o' (-> & Ho' & Hs). done.
Qed.

Lemma window_fail_spec sz h d X L w e o :
  owner_inv sz h d X L o → w ∈ L →
  wp (window_fail w e) (λ r o', r = Ok tt ∧ owner_inv sz h d X L o' ∧ same_router o o') o.
Proof.
  intros Ho Hin. pose proof (oi_windows _ _ _ _ _ _ Ho) as Hok.
  destruct (win_live _ _ _ _ _ Hok w) as [x Hx]; [set_solver|].
  unfold window_fail. apply wp_bind. apply window_get_wp with x; [done|].
  destruct (or_first_error_fields (Some e) x) as (Hr & Hp & Hc & Hl). rewrite Hc.
  destruct (completion x) as [ch|] eqn:Hcx.
  - apply wp_bind_modify. split; [done|]. split; [|done]. apply deliver_inv.
    apply (owner_inv_windows sz h d X L X L o _ _ _ Ho).
    eapply windows_ok_update; [exact Hok|exact Hx|done|done|]. by intros [? ?].
  - split; [done|]. split; [|done]. apply (owner_inv_windows sz h d X L X L o _ _ _ Ho).
    eapply windows_ok_update; [exact Hok|exact Hx|done|done|]. rewrite Hc. by intros [? ?].
Qed.

(** A posted work request takes a local reference. *)
Lemma window_posted_spec sz h d X L w o :
  owner_inv sz h d X (w :: L) o →
  wp (window_posted w) (λ r o', r = Ok tt ∧ owner_inv sz h d (w :: X) L o' ∧ same_router o o') o.
Proof.
  intros Ho. pose proof (oi_windows _ _ _ _ _ _ Ho) as Hok.
  destruct (win_live _ _ _ _ _ Hok w) as [x Hx]; [set_solver|].
  destruct (win_refs _ _ _ _ _ Hok _ _ Hx) as [Hr Hpos]. destruct (win_pending _ _ _ _ _ Hok _ _ Hx) as [Hp1 Hp2].
  assert (occ w (targets o ++ w :: X) = S (occ w (targets o ++ X))) as Hocc.
  { rewrite !occ_app, occ_cons, Nat.eqb_refl. lia. }
  unfold window_posted. apply wp_bind. apply window_get_wp with x; [done|].
  split; [done|]. split; [|done]. apply (owner_inv_windows sz h d X (w :: L) (w :: X) L o _ _ _ Ho).
  eapply windows_ok_change; [exact Hok|exact Hx|..]; simpl.
  - intros v Hv. rewrite !occ_app, !occ_cons. destruct (Nat.eqb_spec w v); [congruence|lia].
  - rewrite Hr, !occ_app, !occ_cons, Nat.eqb_refl. lia.
  - lia.
  - lia.
  - intros Hh. specialize (Hp2 Hh). lia.
  - exact (win_lease _ _ _ _ _ Hok w x Hx).
Qed.

Lemma occ_fresh w l : (∀ v, v ∈ l → (v < w)%nat) → occ w l = 0%nat.
Proof.
  intros Hl. destruct (occ w l) eqn:Ho; [done|]. assert (w ∈ l) as Hin by (apply occ_pos; lia).
  apply Hl in Hin. lia.
Qed.

Lemma window_new_spec sz h d X L lane seqs l ch o :
  owner_inv sz h d X L o →
  wp (window_new lane seqs l ch) (λ r o', ∃ w, r = Ok w ∧ owner_inv sz h d X (w :: L) o' ∧
    same_router o o') o.
Proof.
  intros Ho. pose proof (oi_windows _ _ _ _ _ _ Ho) as [H1 H2 H3 H4 H5].
  exists (next_window o). split; [done|]. split; [|done].
  apply (owner_inv_windows sz h d X L X (next_window o :: L) o _ _ _ Ho).
  assert (∀ v, v ∈ (targets o ++ X) ++ L → (v < next_window o)%nat) as Hlt.
  { intros v Hv. by apply H2, H1. }
  assert (occ (next_window o) ((targets o ++ X) ++ L) = 0%nat) as Hz by by apply occ_fresh.
  assert (∀ v, v ≠ next_window o → occ v ((targets o ++ X) ++ next_window o :: L) = occ v ((targets o ++ X) ++ L)) as Ho'.
  { intros v Hv. rewrite !(occ_app v (targets o ++ X)), occ_cons.
    destruct (Nat.eqb_spec (next_window o) v); [congruence|lia]. }
  rewrite occ_app in Hz.
  split.
  - intros v Hv%occ_pos. rewrite lookup_insert_is_Some. destruct (decide (next_window o = v)); [by left|right].
    split; [done|]. apply H1, occ_pos. by rewrite <- Ho'.
  - intros v [->|[_ Hv]]%lookup_insert_is_Some; [lia|]. apply H2 in Hv. lia.
  - intros v y [[<- <-]|[Hne Hv]]%lookup_insert_Some; simpl.
    + rewrite (occ_app _ (targets o ++ X)), occ_cons, Nat.eqb_refl. lia.
    + rewrite Ho' by done. by apply H3.
  - intros v y [[<- <-]|[Hne Hv]]%lookup_insert_Some; simpl; [lia|]. by apply H4.
  - intros v y [[<- <-]|[Hne Hv]]%lookup_insert_Some; simpl; [by eexists|]. by apply (H5 v).
Qed.

(** ** The table *)
Lemma default_nonzero n : default 0 (nonzero n) = n.
Proof. unfold nonzero. by destruct (Z.eqb_spec n 0). Qed.
Lemma nonzero_pos n : 0 < n → nonzero n = Some n.
Proof. intros. unfold nonzero. destruct (Z.eqb_spec n 0); [lia|done]. Qed.

Definition window_list (wr : OutstandingWr) : list nat := option_list (wr_window wr).

Lemma omap_window_cons wr es : omap wr_window (wr :: es) = window_list wr ++ omap wr_window es.
Proof. unfold window_list. simpl. by destruct (wr_window wr). Qed.

Lemma omap_window_perm es es' : es ≡ₚ es' → omap wr_window es ≡ₚ omap wr_window es'.
Proof.
  induction 1 as [|wr ? ? _ IH|wr wr' ?|]; [done|..|by etrans].
  - rewrite !omap_window_cons. by rewrite IH.
  - rewrite !omap_window_cons, !app_assoc. by rewrite (Permutation_app_comm (window_list wr)).
Qed.

(** The router after a change of the table, with the counters to match. *)
Lemma router_ok_add d r r' wr t send es :
  router_ok d r → es ≡ₚ wr :: entries (outstanding r) → wr_token wr = Some t →
  send = bool_decide (operation t = Send) →
  entries (outstanding r') = es →
  outstanding_total r' = outstanding_total r + 1 →
  outstanding_send r' = outstanding_send r + (if send then 1 else 0) →
  outstanding_recv r' = outstanding_recv r + (if send then 0 else 1) →
  outstanding_by_lane r' = <[lane_id t := outstanding_for_lane (lane_id t) r + 1]> (outstanding_by_lane r) →
  lane_by_jetty_id r' = lane_by_jetty_id r → retirement_by_lane r' = retirement_by_lane r →
  router_ok d r'.
Proof.
  intros [Ht Hs Hr Hl Hj] Hes Htok Hsend He Ht' Hs' Hr' Hl' Hj1 Hj2.
  assert (op_is Send wr = send ∧ op_is Recv wr = negb send) as [Ho1 Ho2].
  { unfold op_is, wr_op. rewrite Htok, Hsend. simpl. by destruct (operation t). }
  split; rewrite ?He.
  - rewrite Ht', Ht, Hes. simpl. lia.
  - rewrite Hs', Hs, Hes, tally_cons, Ho1. lia.
  - rewrite Hr', Hr, Hes, tally_cons, Ho2. destruct send; simpl; lia.
  - intros l. rewrite Hl', Hes, tally_cons. unfold outstanding_for_lane. rewrite Hl, default_nonzero.
    unfold lane_is at 3, wr_lane. rewrite Htok. simpl. pose proof (tally_nonneg (lane_is l) (entries (outstanding r))).
    destruct (decide (lane_id t = l)) as [<-|Hne].
    + rewrite lookup_insert_eq, bool_decide_true by done. by rewrite nonzero_pos by lia.
    + rewrite lookup_insert_ne by done. rewrite bool_decide_false by congruence. by rewrite Z.add_0_r, Hl.
  - by rewrite Hj1, Hj2.
Qed.

Lemma owner_inv_same_router sz h d d' X L o r' :
  owner_inv sz h d X L o → outstanding r' = outstanding (router o) → router_ok d' r' →
  owner_inv sz h d' X L (set_router r' o).
Proof.
  intros [Hp He Hr Hw] Hout Hok. split; simpl; [done| |done|].
  - intros i wr. rewrite Hout. apply He.
  - unfold targets. simpl. by rewrite Hout.
Qed.

(** Changes of the router that the counters do not see. *)
Lemma router_ok_same d r r' :
  router_ok d r → outstanding r' = outstanding r → outstanding_total r' = outstanding_total r →
  outstanding_send r' = outstanding_send r → outstanding_recv r' = outstanding_recv r →
  outstanding_by_lane r' = outstanding_by_lane r → lane_by_jetty_id r' = lane_by_jetty_id r →
  retirement_by_lane r' = retirement_by_lane r → router_ok d r'.
Proof. intros [Ht Hs Hr Hl Hj] H0 H1 H2 H3 H4 H5 H6. split; rewrite ?H0, ?H1, ?H2, ?H3, ?H4, ?H5, ?H6; done. Qed.

Lemma outstanding_place_spec sz h d X L i o :
  owner_inv sz h d X L o →
  wp (outstanding_place i) (λ r o', owner_inv sz h d X L o' ∧ pool o' = pool o ∧
    registered_rx_by_identity (router o') = registered_rx_by_identity (router o) ∧
    (∀ j wr, outstanding (router o') !! j = Some (Some wr) ↔ outstanding (router o) !! j = Some (Some wr)) ∧
    match r with
    | Ok _ => outstanding (router o') !! i = Some None
    | Err _ => ∃ wr, outstanding (router o) !! i = Some (Some wr)
    end) o.
Proof.
  intros Ho. unfold outstanding_place. apply wp_bind_modify.
  set (r0 := router o). set (l' := outstanding r0 ++ replicate (S i - List.length (outstanding r0)) None).
  set (r1 := if (List.length (outstanding r0) <=? i)%nat then set_outstanding l' r0 else r0).
  change (λ o, set_router _ o) with (λ o : Owner Seg, set_router r1 o).
  assert (entries (outstanding r1) = entries (outstanding r0) ∧
    (∀ j wr, outstanding r1 !! j = Some (Some wr) ↔ outstanding r0 !! j = Some (Some wr)) ∧
    (i < List.length (outstanding r1))%nat ∧ registered_rx_by_identity r1 = registered_rx_by_identity r0 ∧
    router_ok d r1) as (He & Hj & Hlt & Hid & Hrok).
  { subst r1. destruct (Nat.leb_spec (List.length (outstanding r0)) i) as [Hle|Hgt].
    - unfold l'. simpl. split; [apply entries_grow|]. split.
      { intros j wr. rewrite lookup_app_Some. split; [|by left].
        intros [|[_ Hr]]; [done|]. apply lookup_replicate in Hr as [[=] _]. }
      split; [rewrite length_app, length_replicate; lia|]. split; [done|].
      destruct (oi_router _ _ _ _ _ _ Ho) as [Ht Hs Hr Hl Hjt]. split; simpl; rewrite ?entries_grow; done.
    - split_and!; try done. apply Ho. }
  assert (owner_inv sz h d X L (set_router r1 o)) as Ho1.
  { destruct Ho as [Hp Hen Hr Hw]. split; simpl; [done| |done|].
    - intros j wr Hjj. apply Hen, Hj. done.
    - unfold targets. simpl. rewrite He. done. }
  apply wp_bind_gets. simpl. destruct (lookup_lt_is_Some_2 _ _ Hlt) as [entry Hent].
  apply wp_bind. unfold wp at 1, pr_expect. simpl. rewrite Hent. simpl.
  unfold wp, pr_guard. case_bool_decide as Hsome; simpl.
  - split_and!; try done. destruct Hsome as [wr ->]. exists wr. by apply Hj.
  - split_and!; try done. destruct entry; [|done]. exfalso. apply Hsome. by eexists.
Qed.

Lemma outstanding_add_spec sz h d X L i t wr send o :
  send = bool_decide (operation t = Send) →
  owner_inv sz h d (window_list wr ++ X) L o → outstanding (router o) !! i = Some None →
  wr_token wr = Some t → entry_ok h (pool o) i wr →
  wp (outstanding_add i (lane_id t) send wr) (λ r o', r = Ok tt ∧
    owner_inv sz h d X L o' ∧ pool o' = pool o ∧
    registered_rx_by_identity (router o') = registered_rx_by_identity (router o) ∧
    outstanding (router o') = <[i := Some wr]> (outstanding (router o))) o.
Proof.
  intros Hsend [Hp He Hr Hw] Hi Ht Hok. unfold outstanding_add. do 2 apply wp_bind_modify. split; [done|].
  split; [|done]. split; simpl.
  - done.
  - intros j wr'. destruct (decide (j = i)) as [->|Hne].
    + rewrite list_lookup_insert_eq by by eapply lookup_lt_Some. intros [= <-]. done.
    + rewrite list_lookup_insert_ne by done. apply He.
  - eapply (router_ok_add d (router o)); [exact Hr|by apply entries_insert|exact Ht|done|done..].
  - eapply windows_ok_perm; [|done|exact Hw]. unfold targets. simpl.
    rewrite (omap_window_perm _ _ (entries_insert _ _ wr Hi)), omap_window_cons.
    rewrite !app_assoc. by rewrite (Permutation_app_comm (window_list wr)).
Qed.

(** Two owners with the same pool and the same outstanding entries. *)
Definition same_entries o o' : Prop :=
  ∀ j wr, outstanding (router o') !! j = Some (Some wr) ↔ outstanding (router o) !! j = Some (Some wr).

(** The slot of a token, posted for its operation. *)
Definition posted_slot (p : UrmaBufferPool (Seg := Seg)) (t : WrToken) : Prop :=
  ∃ s, holds p (slot t) s ∧ kind s = op_kind (operation t) ∧
       state s = posted_state (op_kind (operation t)).

(** What tracking a receive does. *)
Definition track_rx_post sz h d X L u t seq ch o (r : Result unit) o' : Prop :=
  owner_inv sz h d X L o' ∧ pool o' = pool o ∧
  match r with
  | Ok _ => registered_rx_by_identity (router o')
              = <[(lane_id t, seq) := ch]> (registered_rx_by_identity (router o)) ∧
      ∀ j wr, outstanding (router o') !! j = Some (Some wr) ↔
        (j ≠ index (slot t) ∧ outstanding (router o) !! j = Some (Some wr)) ∨
        (j = index (slot t) ∧ wr = mkOutstandingWr u (Some seq) None)
  | Err _ => same_entries o o' ∧
      registered_rx_by_identity (router o') = registered_rx_by_identity (router o) ∧
      (is_Some (registered_rx_by_identity (router o) !! (lane_id t, seq)) ∨
       ∃ wr, outstanding (router o) !! index (slot t) = Some (Some wr))
  end.

Lemma track_registered_rx_spec sz h d X L u t seq ch o :
  owner_inv sz h d X L o → WrToken_decode u = Ok t → operation t = Recv → posted_slot (pool o) t →
  wp (track_registered_rx u (Some seq) ch) (track_rx_post sz h d X L u t seq ch o) o.
Proof.
  intros Ho Hu Hop (s & Hs & Hk & Hst). unfold track_registered_rx. apply wp_bind_catch.
  eapply (wp_mono _ (track_rx_post sz h d X L u t seq ch o)).
  2:{ intros [[]|e] o' (Ho' & Hp' & Hr); [done|]. apply wp_bind_modify. split; [by apply deliver_inv|done]. }
  unfold track_registered_rx_body. rewrite Hu. apply wp_bind_lift; [|done]. intros t' Ht'.
  injection Ht' as <-. rewrite Hop. apply wp_bind_guard; [done|]. intros _.
  apply wp_bind_lift; [|done]. intros seq' Hseq. injection Hseq as <-.
  apply wp_bind_gets, wp_bind_guard.
  { intros Hid%bool_decide_eq_true. split; [done|]. split; [done|]. split; [done|]. split; [done|]. by left. }
  intros Hid. apply wp_bind. eapply wp_mono; [by apply (outstanding_place_spec sz h d X L)|].
  intros [[]|e] o1 (Ho1 & Hp1 & Hi1 & Hsame & Hplace).
  2:{ split; [done|]. split; [done|]. split; [exact Hsame|]. split; [done|]. by right. }
  apply wp_bind_modify. set (wr := mkOutstandingWr u (Some seq) None).
  assert (wr_token wr = Some t) as Htok by (unfold wr_token, wr; cbn [wr_user_ctx]; by rewrite Hu).
  assert (entry_ok h (pool o1) (index (slot t)) wr) as Hent.
  { exists t, s. rewrite Hp1, Hop in *. done. }
  eapply wp_mono.
  { eapply (outstanding_add_spec sz h d X L (index (slot t)) t wr);
      [by rewrite Hop| |exact Hplace|exact Htok|exact Hent].
    apply (owner_inv_same_router sz h d d X L o1); [done|done|]. by eapply router_ok_same; [apply Ho1|..]. }
  intros r o' (-> & Ho' & Hp' & Hi' & Hout). split; [done|]. split; [by rewrite Hp'|].
  split; [rewrite Hi'; simpl; by rewrite Hi1|]. intros j wr'. rewrite Hout. simpl.
  destruct (decide (j = index (slot t))) as [->|Hne].
  - rewrite list_lookup_insert_eq by by eapply lookup_lt_Some. naive_solver.
  - rewrite list_lookup_insert_ne by done. rewrite (Hsame j wr'). naive_solver.
Qed.

Lemma track_registered_tx_spec sz h d X L u t seq w o :
  owner_inv sz h d X (w :: L) o → WrToken_decode u = Ok t → operation t = Send → posted_slot (pool o) t →
  (∀ wr, outstanding (router o) !! index (slot t) ≠ Some (Some wr)) →
  wp (track_registered_tx u seq w) (λ r o', r = Ok tt ∧ owner_inv sz h d X L o' ∧
    slots (pool o') = slots (pool o) ∧
    ∀ j wr, outstanding (router o') !! j = Some (Some wr) ↔
      (j ≠ index (slot t) ∧ outstanding (router o) !! j = Some (Some wr)) ∨
      (j = index (slot t) ∧ wr = mkOutstandingWr u (Some seq) (Some (RegisteredTx w)))) o.
Proof.
  intros Ho Hu Hop (s & Hs & Hk & Hst) Hnone. unfold track_registered_tx. apply wp_bind_catch.
  unfold track_registered_tx_body. rewrite Hu. apply wp_bind_lift; [|done]. intros t' Ht'.
  injection Ht' as <-. rewrite Hop. apply wp_bind_guard; [done|]. intros _.
  apply wp_bind. eapply wp_mono; [by apply (outstanding_place_spec sz h d X (w :: L))|].
  intros [[]|e] o1 (Ho1 & Hp1 & Hi1 & Hsame & Hplace).
  2:{ destruct Hplace as [wr Hwr]. by apply Hnone in Hwr. }
  apply wp_bind. eapply wp_mono; [by apply window_posted_spec|].
  intros r o2 (-> & Ho2 & Hro & Hsl). set (wr := mkOutstandingWr u (Some seq) (Some (RegisteredTx w))).
  assert (wr_token wr = Some t) as Htok by (unfold wr_token, wr; cbn [wr_user_ctx]; by rewrite Hu).
  assert (entry_ok h (pool o2) (index (slot t)) wr) as Hent.
  { assert (holds (pool o2) (slot t) s) as Hs2 by (split; [rewrite Hsl, Hp1; apply Hs|apply Hs]).
    exists t, s. rewrite Hop in *. do 5 (split; [done|]). split; [by eexists|done]. }
  eapply wp_mono.
  { eapply (outstanding_add_spec sz h d X L (index (slot t)) t wr);
      [by rewrite Hop|exact Ho2| |exact Htok|exact Hent]. by rewrite Hro. }
  intros r o' (-> & Ho' & Hp' & Hi' & Hout). split; [done|]. split; [done|].
  split; [by rewrite Hp', Hsl, Hp1|]. intros j wr'. rewrite Hout, Hro.
  destruct (decide (j = index (slot t))) as [->|Hne].
  - rewrite list_lookup_insert_eq by by eapply lookup_lt_Some. naive_solver.
  - rewrite list_lookup_insert_ne by done. rewrite (Hsame j wr'). naive_solver.
Qed.

Lemma decr_pos n : 0 < n → decr n = Some (n - 1).
Proof. intros. unfold decr. destruct (Z.leb_spec n 0); [lia|done]. Qed.

(** The counters after an entry left the table and before its operation is
    subtracted. *)
Lemma router_ok_take r r' wr t i :
  router_ok None r → outstanding r !! i = Some (Some wr) → wr_token wr = Some t →
  outstanding r' = <[i := None]> (outstanding r) →
  outstanding_total r' = outstanding_total r - 1 →
  outstanding_send r' = outstanding_send r → outstanding_recv r' = outstanding_recv r →
  (let n := outstanding_for_lane (lane_id t) r - 1 in
   outstanding_by_lane r' = if n =? 0 then delete (lane_id t) (outstanding_by_lane r)
                            else <[lane_id t := n]> (outstanding_by_lane r)) →
  lane_by_jetty_id r' = lane_by_jetty_id r → retirement_by_lane r' = retirement_by_lane r →
  router_ok (Some (operation t)) r'.
Proof.
  intros [Ht Hs Hr Hl Hj] Hi Htok Ho Ht' Hs' Hr' Hl' Hj1 Hj2.
  pose proof (entries_delete _ _ _ Hi) as Hperm. rewrite <- Ho in Hperm.
  assert (op_is Send wr = bool_decide (operation t = Send) ∧ op_is Recv wr = bool_decide (operation t = Recv))
    as [Ho1 Ho2].
  { unfold op_is, wr_op. rewrite Htok. simpl. by destruct (operation t). }
  rewrite Hperm, tally_cons, Ho1 in Hs. rewrite Hperm, tally_cons, Ho2 in Hr. rewrite Hperm in Ht. simpl in Ht.
  split.
  - lia.
  - rewrite Hs', Hs. unfold pending_op. by destruct (operation t); simpl; rewrite !Z.add_0_r.
  - rewrite Hr', Hr. unfold pending_op. by destruct (operation t); simpl; rewrite !Z.add_0_r.
  - intros l. cbv zeta in Hl'. unfold outstanding_for_lane in Hl'. rewrite Hl', !Hl, default_nonzero.
    assert (∀ l, tally (lane_is l) (entries (outstanding r))
      = tally (lane_is l) (entries (outstanding r')) + if bool_decide (lane_id t = l) then 1 else 0) as Hta.
    { intros l0. rewrite Hperm, tally_cons. unfold lane_is at 2, wr_lane. rewrite Htok. simpl.
      f_equal. destruct (decide (lane_id t = l0)); [rewrite !bool_decide_true by congruence|
        rewrite !bool_decide_false by congruence]; done. }
    rewrite !(Hta (lane_id t)), bool_decide_true by done.
    replace (tally (lane_is (lane_id t)) (entries (outstanding r')) + 1 - 1)
      with (tally (lane_is (lane_id t)) (entries (outstanding r'))) by lia.
    destruct (decide (lane_id t = l)) as [<-|Hne].
    + unfold nonzero. destruct (Z.eqb_spec (tally (lane_is (lane_id t)) (entries (outstanding r'))) 0) as [_|_].
      * apply lookup_delete_eq.
      * apply lookup_insert_eq.
    + replace (tally (lane_is l) (entries (outstanding r')))
        with (tally (lane_is l) (entries (outstanding r)))
        by (rewrite (Hta l), bool_decide_false by done; lia).
      rewrite <- Hl. destruct (tally (lane_is (lane_id t)) _ =? 0);
        [by rewrite lookup_delete_ne|by rewrite lookup_insert_ne].
  - by rewrite Hj1, Hj2.
Qed.

Lemma take_outstanding_spec sz h X L u o :
  owner_inv sz h None X L o →
  wp (take_outstanding u) (λ r o',
    match r with
    | Ok wr => ∃ t, WrToken_decode u = Ok t ∧ outstanding (router o) !! index (slot t) = Some (Some wr) ∧
        wr_user_ctx wr = u ∧ entry_ok h (pool o) (index (slot t)) wr ∧
        owner_inv sz h (Some (operation t)) (window_list wr ++ X) L o' ∧ pool o' = pool o ∧
        outstanding (router o') = <[index (slot t) := None]> (outstanding (router o)) ∧
        retirement_by_lane (router o') = retirement_by_lane (router o) ∧
        registered_rx_by_identity (router o') = registered_rx_by_identity (router o)
    | Err _ => o' = o
    end) o.
Proof.
  intros Ho. unfold take_outstanding. apply wp_bind_lift; [|done]. intros t Ht.
  apply wp_bind_gets, wp_bind_lift; [|done]. intros entry Hent%ok_or_Ok.
  destruct entry as [wr|]; [|done]. destruct (Z.eqb_spec (wr_user_ctx wr) u) as [Hu|]; simpl; [|done].
  pose proof (oi_router _ _ _ _ _ _ Ho) as Hrok. pose proof (oi_entries _ _ _ _ _ _ Ho _ _ Hent) as Hok.
  assert (wr_token wr = Some t) as Htok by (unfold wr_token; rewrite Hu, Ht; done).
  pose proof (entries_delete _ _ _ Hent) as Hperm.
  assert (0 < outstanding_total (router o)) as Htot.
  { rewrite (total_ok _ _ Hrok), Hperm. simpl. lia. }
  assert (∃ n, 0 < n ∧ outstanding_by_lane (router o) !! lane_id t = Some n ∧
    outstanding_for_lane (lane_id t) (router o) = n) as (n & Hn & Hlane & Hfor).
  { pose proof (lanes_ok _ _ Hrok (lane_id t)) as Hl. rewrite Hperm, tally_cons in Hl.
    unfold lane_is at 2, wr_lane in Hl. rewrite Htok in Hl. simpl in Hl. rewrite bool_decide_true in Hl by done.
    pose proof (tally_nonneg (lane_is (lane_id t)) (entries (<[index (slot t):=None]> (outstanding (router o))))).
    rewrite nonzero_pos in Hl by lia. eexists. split; [|split; [exact Hl|]]; [lia|].
    unfold outstanding_for_lane. by rewrite Hl. }
  apply wp_bind. unfold wp at 1. rewrite decr_pos by done. simpl. apply wp_bind_modify.
  rewrite Hlane. apply wp_bind_lift; [|done]. intros n' [= <-].
  apply wp_bind. unfold wp at 1. rewrite decr_pos by done. simpl. do 2 apply wp_bind_modify.
  exists t. split; [done|]. split; [done|]. split; [done|]. split; [done|]. split; [|done].
  destruct Ho as [Hp He Hr Hw]. split; simpl.
  - done.
  - intros j wr'. destruct (decide (j = index (slot t))) as [->|Hne].
    + rewrite list_lookup_insert_eq by by eapply lookup_lt_Some. done.
    + rewrite list_lookup_insert_ne by done. apply He.
  - eapply (router_ok_take (router o)); [exact Hr|exact Hent|exact Htok|done|done|done|done| |done|done].
    simpl. by rewrite Hfor.
  - eapply windows_ok_perm; [|done|exact Hw]. unfold targets. simpl.
    rewrite (omap_window_perm _ _ Hperm), omap_window_cons.
    rewrite !app_assoc. by rewrite (Permutation_app_comm (window_list wr)).
Qed.

(** The tables of the router that routing a work request leaves alone. *)
Definition same_lanes o o' : Prop :=
  retirement_by_lane (router o') = retirement_by_lane (router o) ∧
  lane_by_jetty_id (router o') = lane_by_jetty_id (router o) ∧
  outstanding (router o') = outstanding (router o).

Lemma decrement_operation_spec sz h op X L o :
  owner_inv sz h (Some op) X L o →
  wp (decrement_operation op) (λ r o', r = Ok tt ∧ owner_inv sz h None X L o' ∧ pool o' = pool o ∧
    same_lanes o o' ∧
    registered_rx_by_identity (router o') = registered_rx_by_identity (router o)) o.
Proof.
  intros Ho. pose proof (oi_router _ _ _ _ _ _ Ho) as [Ht Hs Hr Hl Hj].
  pose proof (tally_nonneg (op_is Send) (entries (outstanding (router o)))).
  pose proof (tally_nonneg (op_is Recv) (entries (outstanding (router o)))).
  unfold decrement_operation. apply wp_bind_gets. unfold pending_op in Hs, Hr.
  destruct op; simpl in Hs, Hr; apply wp_bind; unfold wp at 1; rewrite decr_pos by lia;
    (split; [done|]; split; [|done]; eapply owner_inv_same_router; [exact Ho|done|];
     split; simpl; try done; unfold pending_op; simpl; lia).
Qed.

(** ** Pool calls on a slot that left the table *)

Abbreviation Pool := (UrmaBufferPool (Seg := Seg)).

(** [m] touches no slot but [i]. *)
Definition frames {A} (i : nat) (m : PR Pool Error A) : Prop :=
  ∀ p, wp m (λ _ p', ∀ j, j ≠ i → slots p' !! j = slots p !! j) p.

Lemma transition_frames id from to : frames (index id) (transition id from to).
Proof.
  intros p. unfold wp, transition. destruct (slots p !! index id); [|done]. destruct (negb _); [done|].
  case_decide; [done|]. intros j Hj. simpl. by apply list_lookup_insert_ne.
Qed.

Lemma release_frames id : frames (index id) (release id).
Proof.
  intros p. unfold wp, release. destruct (slots p !! index id) as [s|]; [|done]. destruct (negb _); [done|].
  case_decide; [|done]. intros j Hj. destruct (kind s); simpl; by apply list_lookup_insert_ne.
Qed.

Lemma complete_recv_leased_frames id n : frames (index id) (complete_recv_leased id n).
Proof.
  intros p. unfold complete_recv_leased. apply wp_bind_gets, wp_bind_lift; [|done]. intros s _.
  do 2 (apply wp_bind_guard; [done|]; intros _). apply transition_frames.
Qed.

Definition no_entry o (i : nat) : Prop := ∀ wr, outstanding (router o) !! i ≠ Some (Some wr).

(** A pool call on a slot without an entry. *)
Lemma on_pool_spec {A} sz h d X L i (m : PR Pool Error A) (Q : Result A → Pool → Prop) o :
  owner_inv sz h d X L o → no_entry o i →
  wp m (λ r p', pool_inv sz h p' ∧ (∀ j, j ≠ i → slots p' !! j = slots (pool o) !! j) ∧ Q r p') (pool o) →
  wp (on_pool m) (λ r o', owner_inv sz h d X L o' ∧ router o' = router o ∧
    (∀ j, j ≠ i → slots (pool o') !! j = slots (pool o) !! j) ∧ Q r (pool o')) o.
Proof.
  intros Ho Hn Hm. apply wp_zoom. eapply wp_mono; [exact Hm|]. intros r p' (Hp' & Hf & HQ).
  split; [|done]. apply owner_inv_pool; [done|done|]. intros j wr Hj. apply Hf. intros ->. by apply (Hn wr).
Qed.

(** A state change of the slot that the invariant of the pool allows. *)
Lemma on_transition_spec sz h d X L t from to o :
  owner_inv sz h d X L o → no_entry o (index (slot t)) → from ≠ Free → to ≠ Free →
  (covered h (pool o) (index (slot t)) → ∀ k, guarded h k → from ∈ lease_states k → to ∈ lease_states k) →
  (∃ s, holds (pool o) (slot t) s ∧ state s = from) →
  wp (on_pool (transition (slot t) from to)) (λ r o', r = Ok tt ∧ owner_inv sz h d X L o' ∧
    router o' = router o ∧ ∃ s, holds (pool o) (slot t) s ∧ holds (pool o') (slot t) (set_state to s)) o.
Proof.
  intros Ho Hn Hf Ht Hcov (s & Hs & Hst). eapply wp_mono.
  { eapply on_pool_spec with (i := index (slot t)); [exact Ho|exact Hn|].
    pose proof (wp_and _ _ _ _ (transition_spec sz h (slot t) from to (pool o) (oi_pool _ _ _ _ _ _ Ho) Hf Ht Hcov)
      (transition_frames (slot t) from to (pool o))) as Hw.
    eapply wp_mono; [exact Hw|]. intros r p' [[Hp' Hr] Hfr]. split; [exact Hp'|]. split; [exact Hfr|exact Hr]. }
  intros [[]|e] o' (Ho' & Hro & Hfr & Hr).
  - destruct Hr as (s' & Hs' & _ & Hp'). split; [done|]. split; [done|]. split; [done|]. exists s'.
    split; [done|]. rewrite Hp'. split; [|apply Hs']. simpl. apply list_lookup_insert_eq.
    destruct Hs' as [Hs' _]. by eapply lookup_lt_Some.
  - destruct Hr as [_ Hno]. exfalso. apply Hno. by exists s.
Qed.

Lemma on_release_spec sz h d X L t o :
  owner_inv sz h d X L o → no_entry o (index (slot t)) →
  (∃ s, holds (pool o) (slot t) s ∧ state s ∈ releasable) →
  wp (on_pool (release (slot t))) (λ r o', r = Ok tt ∧ owner_inv sz h d X L o' ∧ router o' = router o ∧
    ∃ s, holds (pool o) (slot t) s ∧ holds (pool o') (slot t) (set_state Free s)) o.
Proof.
  intros Ho Hn (s & Hs & Hst). eapply wp_mono.
  { eapply on_pool_spec with (i := index (slot t)); [exact Ho|exact Hn|].
    pose proof (wp_and _ _ _ _ (release_spec sz h (slot t) (pool o) (oi_pool _ _ _ _ _ _ Ho))
      (release_frames (slot t) (pool o))) as Hw.
    eapply wp_mono; [exact Hw|]. intros r p' [[Hp' Hr] Hfr]. split; [exact Hp'|]. split; [exact Hfr|exact Hr]. }
  intros [[]|e] o' (Ho' & Hro & Hfr & Hr).
  - destruct Hr as (s' & Hs' & _ & Hsl & _). split; [done|]. split; [done|]. split; [done|]. exists s'.
    split; [done|]. split; [|apply Hs']. rewrite Hsl. apply list_lookup_insert_eq.
    destruct Hs' as [Hs' _]. by eapply lookup_lt_Some.
  - destruct Hr as [_ Hno]. exfalso. apply Hno. exists s. split; [exact Hs|exact Hst].
Qed.

(** A failed completion gives its slot back. *)
Lemma complete_and_release_spec sz h d X L t o :
  owner_inv sz h d X L o → no_entry o (index (slot t)) → posted_slot (pool o) t →
  (operation t = Send → h = false) →
  wp (complete_and_release t) (λ r o', r = Ok tt ∧ owner_inv sz h d X L o' ∧ router o' = router o ∧
    ∃ s, holds (pool o) (slot t) s ∧ holds (pool o') (slot t) (set_state Free s)) o.
Proof.
  intros Ho Hn (s & Hs & Hk & Hst) Hh. unfold complete_and_release.
  set (to := match operation t with Send => SendCompleted | Recv => RecvCompleted end).
  assert (complete_error (Seg := Seg) (slot t) (operation t)
    = transition (slot t) (posted_state (op_kind (operation t))) to) as -> by (unfold to; by destruct (operation t)).
  apply wp_bind. eapply wp_mono.
  { eapply (on_transition_spec sz h d X L t); [exact Ho|exact Hn|by destruct (operation t)|
      unfold to; by destruct (operation t)| |by exists s].
    intros _ k Hg Hin. destruct (operation t); simpl in Hin.
    - destruct Hg as [->|Hg]; [simpl in Hin; set_solver|]. rewrite Hh in Hg by done. done.
    - destruct k; simpl in Hin; set_solver. }
  intros r o1 (-> & Ho1 & Hr1 & s1 & Hs1 & Hs1').
  assert (s1 = s) as -> by (destruct Hs as [Hs _], Hs1 as [Hs1 _]; congruence).
  eapply wp_mono.
  { apply (on_release_spec sz h d X L t); [exact Ho1|unfold no_entry; rewrite Hr1; exact Hn|].
    eexists. split; [exact Hs1'|]. simpl. unfold to, releasable. destruct (operation t); set_solver. }
  intros r o2 (-> & Ho2 & Hr2 & s2 & [Hs2 _] & Hs2'). split; [done|]. split; [done|].
  split; [by rewrite Hr2, Hr1|]. exists s. split; [done|]. destruct Hs1' as [Hs1' _].
  rewrite Hs1' in Hs2. injection Hs2 as <-. exact Hs2'.
Qed.

(** A send of a live window goes back to the window's lease. *)
Lemma complete_tx_lease_spec sz h d X L t o :
  owner_inv sz h d X L o → no_entry o (index (slot t)) → posted_slot (pool o) t → operation t = Send →
  wp (on_pool (complete_tx_lease_send (slot t))) (λ r o', r = Ok tt ∧ owner_inv sz h d X L o' ∧
    router o' = router o ∧ ∃ s, holds (pool o) (slot t) s ∧ holds (pool o') (slot t) (set_state LeasedTx s)) o.
Proof.
  intros Ho Hn (s & Hs & Hk & Hst) Hop. rewrite Hop in Hst. unfold complete_tx_lease_send.
  apply (on_transition_spec sz h d X L t); try done; [|by exists s].
  intros _ [] _; simpl; set_solver.
Qed.

(** ** Routing *)
Lemma stats_inv sz h d X L f o :
  owner_inv sz h d X L o → owner_inv sz h d X L (set_router (set_stats f (router o)) o).
Proof. intros Ho. eapply owner_inv_same_router; [exact Ho|done|]. by eapply router_ok_same; [apply Ho|..]. Qed.

(** What the slot of a completed work request becomes. *)
Definition slot_after (to : SlotState) o o' (t : WrToken) : Prop :=
  ∃ s, holds (pool o) (slot t) s ∧ holds (pool o') (slot t) (set_state to s).

(** The entry [wr] of token [t] just left the table. *)
Record in_route (h : bool) o (t : WrToken) (wr : OutstandingWr) : Prop := {
  ir_none : no_entry o (index (slot t));
  ir_slot : posted_slot (pool o) t;
  ir_target : match operation t with
              | Recv => wr_completion wr = None
              | Send => (h = true → is_Some (wr_window wr)) ∧ (wr_window wr = None → wr_completion wr = None)
              end;
}.

Lemma is_registered_tx_window wr : is_registered_tx (wr_completion wr) = bool_decide (is_Some (wr_window wr)).
Proof. unfold wr_window. destruct (wr_completion wr) as [[]|]; done. Qed.

Lemma in_route_not_registered h o t wr :
  in_route h o t wr → is_registered_tx (wr_completion wr) = false → operation t = Send → h = false.
Proof.
  intros [_ _ Ht] Hr Hop. rewrite Hop in Ht. rewrite is_registered_tx_window in Hr.
  apply bool_decide_eq_false in Hr. destruct h; [|done]. exfalso. by apply Hr, Ht.
Qed.

Lemma in_route_registered h o t wr :
  in_route h o t wr → is_registered_tx (wr_completion wr) = true → operation t = Send.
Proof. intros [_ _ Ht] Hr. destruct (operation t); [done|]. by rewrite Ht in Hr. Qed.

Lemma in_route_router h o o' t wr :
  in_route h o t wr → outstanding (router o') = outstanding (router o) → slots (pool o') = slots (pool o) →
  in_route h o' t wr.
Proof.
  intros [Hn (s & [Hs Hg] & Hrest) Ht] Ho Hp. split; [|exists s; unfold holds; by rewrite Hp|done].
  unfold no_entry. by rewrite Ho.
Qed.

(** A failed completion: the slot is free, or back in its window's lease. *)
Lemma retire_failed_spec sz h X L t wr e o :
  owner_inv sz h (Some (operation t)) X L o → in_route h o t wr →
  let registered := is_registered_tx (wr_completion wr) in
  wp (retire_failed registered t e) (λ r o', r = Err e ∧ owner_inv sz h None X L o' ∧ same_lanes o o' ∧
    registered_rx_by_identity (router o') = registered_rx_by_identity (router o) ∧
    slot_after (if registered then LeasedTx else Free) o o' t) o.
Proof.
  intros Ho Hir registered. unfold retire_failed. apply wp_bind_modify.
  apply wp_bind. eapply wp_mono; [apply (decrement_operation_spec sz h), stats_inv, Ho|].
  intros r o1 (-> & Ho1 & Hp1 & (Hl1 & Hl2 & Hout1) & Hid1).
  assert (in_route h o1 t wr) as Hir1 by (eapply in_route_router; [exact Hir|done|by rewrite Hp1]).
  apply wp_bind. subst registered. destruct (is_registered_tx (wr_completion wr)) eqn:Hreg.
  - eapply wp_mono; [eapply (complete_tx_lease_spec sz h None X L t); [exact Ho1|apply Hir1|apply Hir1|]|].
    { by eapply in_route_registered. }
    intros r o2 (-> & Ho2 & Hr2 & Hs). split; [done|]. split; [done|].
    unfold same_lanes, slot_after. rewrite Hr2. rewrite Hp1 in Hs. done.
  - eapply wp_mono; [eapply (complete_and_release_spec sz h None X L t); [exact Ho1|apply Hir1|apply Hir1|]|].
    { by eapply in_route_not_registered. }
    intros r o2 (-> & Ho2 & Hr2 & Hs). split; [done|]. split; [done|].
    unfold same_lanes, slot_after. rewrite Hr2. rewrite Hp1 in Hs. done.
Qed.

Lemma route_send_spec sz h X L t wr o :
  owner_inv sz h (Some Send) X L o → in_route h o t wr → operation t = Send →
  let registered := is_registered_tx (wr_completion wr) in
  wp (route_send registered t) (λ r o', owner_inv sz h None X L o' ∧ same_lanes o o' ∧
    registered_rx_by_identity (router o') = registered_rx_by_identity (router o) ∧
    slot_after (if registered then LeasedTx else Free) o o' t ∧
    (if registered then r = Ok RoutedTx else ∃ e, r = Err e)) o.
Proof.
  intros Ho Hir Hop registered. unfold route_send.
  apply wp_bind. eapply wp_mono; [by apply (decrement_operation_spec sz h)|].
  intros r o1 (-> & Ho1 & Hp1 & (Hl1 & Hl2 & Hout1) & Hid1). apply wp_bind_modify.
  apply (stats_inv _ _ _ _ _ (count_cqe true)) in Ho1. set (o2 := set_router _ o1) in *.
  assert (in_route h o2 t wr) as Hir2 by (eapply in_route_router; [exact Hir|done|simpl; by rewrite Hp1]).
  subst registered. destruct (is_registered_tx (wr_completion wr)) eqn:Hreg; apply wp_bind.
  - eapply wp_mono; [by eapply (complete_tx_lease_spec sz h None X L t); [exact Ho1|apply Hir2|apply Hir2|]|].
    intros r o3 (-> & Ho3 & Hr3 & Hs). simpl in Hs. rewrite Hp1 in Hs.
    split; [done|]. unfold same_lanes, slot_after. by rewrite Hr3.
  - eapply wp_mono; [eapply (complete_and_release_spec sz h None X L t); [exact Ho1|apply Hir2|apply Hir2|]|].
    { intros _. by eapply in_route_not_registered. }
    intros r o3 (-> & Ho3 & Hr3 & Hs). simpl in Hs. rewrite Hp1 in Hs.
    split; [done|]. unfold same_lanes, slot_after. rewrite Hr3. split_and!; try done. by eexists.
Qed.

(** The lease of one completed receive. *)
Definition rx_lease_ok (p p' : Pool) (id : SlotId) (n : Z) (l : RegisteredRxWindowLease) : Prop :=
  ∃ rc base, rx_cores l = [Some rc] ∧ record (leases p') rc = Ok (mkLeaseRecord LeaseRx [id]) ∧
    active (leases p) !! Urma.lease_id rc = None ∧ rx_length l = n ∧
    rx_spans l ≫= span_bytes = slot_bytes base p (id, n).

(** [complete_recv_leased] and [lease_completed_rx_window] on a posted receive. *)
Lemma complete_recv_spec sz h id n s (p : Pool) :
  pool_inv sz h p → holds p id s → kind s = Rx → state s = PostedRecv →
  wp (complete_recv_leased id n) (λ r p', pool_inv sz h p' ∧
    (∀ j, j ≠ index id → slots p' !! j = slots p !! j) ∧
    match r with
    | Ok _ => 1 ≤ n ≤ len s ∨ n < 0
    | Err _ => p' = p
    end ∧ match r with
    | Ok _ => p' = set_slots (<[index id := set_state RecvCompleted s]> (slots p)) p
    | Err _ => True
    end) p.
Proof.
  intros Hp Hs Hk Hst. unfold complete_recv_leased. apply wp_bind_gets, wp_bind_lift; [|done].
  intros s' Hs'%slot_fields_Ok. assert (s' = s) as -> by (destruct Hs as [Hs _], Hs' as [Hs' _]; congruence).
  apply wp_bind_guard; [done|]. intros _. apply wp_bind_guard; [done|].
  intros [Hn0%Z.eqb_neq Hn1%Z.ltb_ge]%orb_false_iff.
  pose proof (wp_and _ _ _ _ (transition_spec sz h id PostedRecv RecvCompleted p Hp ltac:(done) ltac:(done)
    ltac:(intros _ [] _ Hin; simpl in Hin; set_solver)) (transition_frames id PostedRecv RecvCompleted p)) as Hw.
  eapply wp_mono; [exact Hw|]. intros [[]|e] p' [[Hp' Hr] Hf]; split_and!; try done.
  - lia.
  - destruct Hr as (s' & [Hs1 _] & _ & ->). destruct Hs as [Hs _]. by simplify_eq.
  - by destruct Hr as [-> _].
Qed.

(** What a successful receive completion does. *)
Definition recv_post sz h X L (record : CompletionRecord) (t : WrToken) (seq : option Z) o
    (r : Result (option CompletionTarget * Result RoutedCompletion)) o' : Prop :=
  owner_inv sz h None X L o' ∧ same_lanes o o' ∧
  match r with
  | Ok (Some (RegisteredRx ch), Ok (RoutedRx c)) =>
      registered_rx_by_identity (router o) !! (lane_id t, record_imm_data record) = Some ch ∧
      registered_rx_by_identity (router o')
        = delete (lane_id t, record_imm_data record) (registered_rx_by_identity (router o)) ∧
      rx_imm_data c = record_imm_data record ∧ rx_slot c = slot t ∧ rx_lane_id c = lane_id t ∧
      posted_sequence c = seq ∧
      rx_lease_ok (pool o) (pool o') (slot t) (completion_len record) (rx_lease c) ∧
      slot_after LeasedRx o o' t
  | Ok (Some (RegisteredRx ch), Err _) =>
      registered_rx_by_identity (router o) !! (lane_id t, record_imm_data record) = Some ch ∧
      registered_rx_by_identity (router o')
        = delete (lane_id t, record_imm_data record) (registered_rx_by_identity (router o)) ∧
      slot_after Free o o' t
  | Ok (None, Err _) =>
      registered_rx_by_identity (router o') = registered_rx_by_identity (router o) ∧
      slot_after Free o o' t
  | _ => False
  end.

Lemma route_recv_fail sz h X L t wr e o o0 :
  owner_inv sz h None X L o → in_route h o t wr → operation t = Recv → slots (pool o) = slots (pool o0) →
  wp (pr_catch (_ ← complete_and_release t; pr_throw (A := RoutedCompletion) e)) (λ r o', r = Ok (Err e) ∧
    owner_inv sz h None X L o' ∧ router o' = router o ∧ slot_after Free o0 o' t) o.
Proof.
  intros Ho Hir Hop Hsl. apply wp_catch, wp_bind.
  eapply wp_mono; [eapply (complete_and_release_spec sz h None X L t); [exact Ho|apply Hir|apply Hir|]|].
  { rewrite Hop. done. }
  intros r o2 (-> & Ho2 & Hr2 & s & Hs & Hs'). split; [done|]. split; [done|]. split; [done|].
  exists s. split; [|done]. unfold holds in *. by rewrite <- Hsl.
Qed.

(** The slot becomes a lease, or is free again. *)
Lemma lease_one_spec sz h X L t n o s :
  owner_inv sz h None X L o → no_entry o (index (slot t)) → 0 ≤ n →
  holds (pool o) (slot t) s → state s = RecvCompleted →
  wp (on_pool (lease_completed_rx_window [(slot t, n)])) (λ r o', owner_inv sz h None X L o' ∧
    router o' = router o ∧
    match r with
    | Ok l => rx_lease_ok (pool o) (pool o') (slot t) n l ∧ holds (pool o') (slot t) (set_state LeasedRx s)
    | Err _ => slots (pool o') = slots (pool o)
    end) o.
Proof.
  intros Ho Hn Hlen Hs Hst. eapply wp_mono.
  { eapply on_pool_spec with (i := index (slot t)); [exact Ho|exact Hn|].
    eapply wp_mono; [apply (lease_completed_rx_window_spec sz h [(slot t, n)] (pool o)); [apply Ho|]|].
    { by intros c ->%list_elem_of_singleton. }
    intros r p' (Hp' & Hf & Hr). split; [exact Hp'|]. split; [|exact Hr].
    intros j Hj. apply Hf. change (j ∉ [index (slot t)]). by rewrite list_elem_of_singleton. }
  intros [l|e] o' (Ho' & Hro & Hf & Hr); (split; [done|]; split; [done|]).
  - destruct Hr as (rc & base & rlen & Hc & _ & Hrec & _ & Hnew & Hl & Hb & Hall).
    destruct (Hall (slot t, n)) as (s' & [Hs' _] & _ & _ & _ & _ & Hh); [by apply list_elem_of_singleton|].
    split.
    + exists rc, base. split; [done|]. split; [exact Hrec|]. split; [exact Hnew|].
      split; [rewrite Hl; simpl; lia|]. rewrite Hb. simpl. by rewrite app_nil_r.
    + destruct Hs as [Hs _]. simpl in Hs'. rewrite Hs in Hs'. injection Hs' as <-. exact Hh.
  - apply Hr. apply NoDup_singleton.
Qed.

Lemma take_registered_rx_spec sz h d X L lane imm o :
  owner_inv sz h d X L o →
  wp (take_registered_rx lane imm) (λ r o', owner_inv sz h d X L o' ∧ same_lanes o o' ∧ pool o' = pool o ∧
    match r with
    | Ok ch => registered_rx_by_identity (router o) !! (lane, imm) = Some ch ∧
               registered_rx_by_identity (router o') = delete (lane, imm) (registered_rx_by_identity (router o))
    | Err _ => o' = o
    end) o.
Proof.
  intros Ho. unfold take_registered_rx. apply wp_bind_gets.
  destruct (registered_rx_by_identity (router o) !! (lane, imm)) as [ch|] eqn:Hid; [|done].
  apply wp_bind_modify. split; [|done]. eapply owner_inv_same_router; [exact Ho|done|].
  by eapply router_ok_same; [apply Ho|..].
Qed.

Lemma route_recv_spec sz h X L rec t wr seq o :
  owner_inv sz h (Some Recv) X L o → in_route h o t wr → operation t = Recv → 0 ≤ completion_len rec →
  wp (route_recv rec t seq) (recv_post sz h X L rec t seq o) o.
Proof.
  intros Ho Hir Hop Hlen. unfold route_recv.
  apply wp_bind. eapply wp_mono; [by apply (decrement_operation_spec sz h)|].
  intros r o1 (-> & Ho1 & Hp1 & (Hl1 & Hl2 & Hout1) & Hid1). apply wp_bind_modify.
  apply (stats_inv _ _ _ _ _ (count_cqe false)) in Ho1. set (o2 := set_router _ o1) in *.
  assert (same_lanes o o2 ∧ pool o2 = pool o ∧
    registered_rx_by_identity (router o2) = registered_rx_by_identity (router o)) as (Hsl2 & Hp2 & Hid2) by done.
  assert (in_route h o2 t wr) as Hir2 by (eapply in_route_router; [exact Hir|done|by rewrite Hp2]).
  unfold validate_recv_immediate. destruct (negb _ || negb _).
  - apply wp_bind_modify. apply (stats_inv _ _ _ _ _ count_error) in Ho1. set (o3 := set_router _ o2) in *.
    apply wp_bind. eapply wp_mono; [eapply (route_recv_fail sz h X L t wr _ o3 o); [exact Ho1| |done|by simpl; rewrite Hp1]|].
    { by eapply in_route_router; [exact Hir2|..]. }
    intros r o' (-> & Ho' & Hr' & Hs). split; [done|]. unfold same_lanes. rewrite Hr'. split; [done|]. by split.
  - apply wp_bind_catch. eapply wp_mono; [by apply take_registered_rx_spec|].
    intros [ch|e] o3 (Ho3 & (Hl3 & Hl3' & Hout3) & Hp3 & Hr3).
    2:{ subst o3. apply wp_bind. eapply wp_mono;
          [eapply (route_recv_fail sz h X L t wr _ o2 o); [exact Ho1|exact Hir2|done|by rewrite Hp2]|].
        intros r o' (-> & Ho' & Hr' & Hs). split; [done|]. unfold same_lanes. rewrite Hr'. split; [done|]. by split. }
    assert (in_route h o3 t wr) as Hir3 by (eapply in_route_router; [exact Hir2|done|by rewrite Hp3]).
    destruct (ir_slot _ _ _ _ Hir3) as (s & Hs & Hk & Hst). rewrite Hop in Hk, Hst. simpl in Hk, Hst.
    assert (holds (pool o) (slot t) s) as Hso by (by rewrite Hp3, Hp2 in Hs).
    apply wp_bind_catch, wp_bind_catch. eapply wp_mono.
    { eapply on_pool_spec with (i := index (slot t)); [exact Ho3|apply Hir3|].
      by apply (complete_recv_spec sz h _ _ s); [apply Ho3|..]. }
    intros [[]|e] o4 (Ho4 & Hr4 & _ & Hok & Hp4).
    2:{ assert (in_route h o4 t wr) as Hir4 by (eapply in_route_router; [exact Hir3|by rewrite Hr4|by rewrite Hok]).
        apply wp_bind. eapply wp_mono.
        { eapply (complete_and_release_spec sz h None X L t); [exact Ho4|apply Hir4|apply Hir4|by rewrite Hop]. }
        intros r o5 (-> & Ho5 & Hr5 & s5 & Hs5 & Hs5'). split; [done|]. unfold same_lanes. rewrite Hr5, Hr4.
        split; [by rewrite Hl3, Hl3', Hout3|]. rewrite Hid2 in Hr3. split; [apply Hr3|]. split; [apply Hr3|].
        exists s5. rewrite Hok, Hp3, Hp2 in Hs5. done. }
    assert (holds (pool o4) (slot t) (set_state RecvCompleted s)) as Hs4.
    { rewrite Hp4. split; [|apply Hs]. simpl. apply list_lookup_insert_eq. destruct Hs as [Hs _].
      by eapply lookup_lt_Some. }
    assert (no_entry o4 (index (slot t))) as Hn4 by (unfold no_entry; rewrite Hr4; apply Hir3).
    apply wp_bind_catch. eapply wp_mono; [by eapply (lease_one_spec sz h X L t _ o4); [..|exact Hs4|]|].
    intros [l|e] o5 (Ho5 & Hr5 & Hres).
    + destruct Hres as [Hlease Hs5]. split; [done|]. unfold same_lanes. rewrite Hr5, Hr4.
      split; [by rewrite Hl3, Hl3', Hout3|]. rewrite Hid2 in Hr3. split; [apply Hr3|]. split; [apply Hr3|].
      do 4 (split; [done|]). split; [|by exists s].
      destruct Hlease as (rc & base & Hc & Hrc & Hnew & Hl & Hb). exists rc, base.
      split; [done|]. split; [done|]. rewrite Hp4 in Hnew. simpl in Hnew. rewrite Hp3, Hp2 in Hnew.
      split; [done|]. split; [done|]. etransitivity; [exact Hb|]. unfold slot_bytes. simpl.
      by rewrite (proj1 Hs4), (proj1 Hso).
    + apply wp_bind. eapply wp_mono.
      { apply (on_release_spec sz h None X L t); [exact Ho5|unfold no_entry; rewrite Hr5; exact Hn4|].
        exists (set_state RecvCompleted s). split; [|unfold releasable; set_solver].
        unfold holds. rewrite Hres. exact Hs4. }
      intros r o6 (-> & Ho6 & Hr6 & s6 & [Hs6 _] & Hs6'). split; [done|]. unfold same_lanes.
      rewrite Hr6, Hr5, Hr4. split; [by rewrite Hl3, Hl3', Hout3|]. rewrite Hid2 in Hr3.
      split; [apply Hr3|]. split; [apply Hr3|]. exists s. split; [done|]. rewrite Hres, (proj1 Hs4) in Hs6.
      injection Hs6 as <-. exact Hs6'.
Qed.

(** The slot of a routed completion left its posted state. *)
Definition slot_retired o o' (t : WrToken) : Prop :=
  slot_after Free o o' t ∨ slot_after LeasedRx o o' t ∨ slot_after LeasedTx o o' t.

Lemma route_result_spec sz h X L rec q t wr o :
  owner_inv sz h (Some (operation t)) X L o → in_route h o t wr → 0 ≤ completion_len rec →
  wp (route_result rec q t wr) (λ r o', ∃ target res, r = Ok (target, res) ∧
    owner_inv sz h None X L o' ∧ same_lanes o o' ∧ slot_retired o o' t ∧
    (target = wr_completion wr ∨ wr_completion wr = None ∧ ∃ ch, target = Some (RegisteredRx ch))) o.
Proof.
  intros Ho Hir Hlen.
  assert (∀ e, wp (r ← pr_catch (retire_failed (is_registered_tx (wr_completion wr)) t e);
                   mret (wr_completion wr, r)) (λ r o', ∃ target res, r = Ok (target, res) ∧
    owner_inv sz h None X L o' ∧ same_lanes o o' ∧ slot_retired o o' t ∧
    (target = wr_completion wr ∨ wr_completion wr = None ∧ ∃ ch, target = Some (RegisteredRx ch))) o) as Hfail.
  { intros e. apply wp_bind_catch. eapply wp_mono; [by apply (retire_failed_spec sz h X L)|].
    intros r o' (-> & Ho' & Hl & _ & Hs). eexists _, _. split; [done|]. split; [done|]. split; [done|].
    split; [|by left]. unfold slot_retired. destruct (is_registered_tx (wr_completion wr)); tauto. }
  unfold route_result. destruct (negb _ || negb _ || negb _); [apply Hfail|].
  destruct (negb (status rec =? 0)); [apply Hfail|]. clear Hfail.
  destruct (operation t) eqn:Hop.
  - apply wp_bind_catch. eapply wp_mono; [by apply (route_send_spec sz h X L)|].
    intros r o' (Ho' & Hl & _ & Hs & _). eexists _, _. split; [done|]. split; [done|]. split; [done|].
    split; [|by left]. unfold slot_retired. destruct (is_registered_tx (wr_completion wr)); tauto.
  - apply wp_bind. eapply wp_mono; [by apply (route_recv_spec sz h X L rec t wr)|].
    pose proof (ir_target _ _ _ _ Hir) as Ht. rewrite Hop in Ht.
    intros [[[[ch|w]|] [[c|]|e]]|e] o' (Ho' & Hl & Hr); try done; eexists _, _; (split; [done|]);
      (split; [done|]); (split; [done|]); unfold slot_retired.
    + split; [tauto|]. right. by eauto.
    + split; [tauto|]. right. by eauto.
    + split; [tauto|]. by left.
Qed.

Lemma drop_routed_spec sz h d X L res o :
  owner_inv sz h d X L o →
  wp (drop_routed res) (λ r o', r = Ok tt ∧ owner_inv sz h d X L o' ∧ same_router o o') o.
Proof.
  intros Ho. unfold drop_routed. destruct res as [[c|]|e]; [|done..]. split; [done|].
  assert (∀ cores (p : Pool), slots (foldl (flip drop_core) p cores) = slots p) as Hs.
  { induction cores as [|c' cores IH]; intros p; [done|]. simpl. rewrite IH. by destruct c'. }
  split; [|split; [done|apply Hs]]. apply owner_inv_pool; [done|apply drop_cores_inv, Ho|]. intros. by rewrite Hs.
Qed.

(** The waiter is told; the reference of the work request is gone. *)
Lemma target_send_spec sz h X L wr target res o :
  owner_inv sz h None (window_list wr ++ X) L o →
  (wr_window wr = None → wr_completion wr = None) →
  (target = wr_completion wr ∨ wr_completion wr = None ∧ ∃ ch, target = Some (RegisteredRx ch)) →
  wp (match target with Some t => target_send t res | None => drop_routed res end)
    (λ r o', r = Ok tt ∧ owner_inv sz h None X L o' ∧ same_router o o') o.
Proof.
  intros Ho Hnone Htarget. unfold window_list, wr_window in Ho, Hnone.
  assert (∀ ch, owner_inv sz h None X L o → wp (target_send (RegisteredRx ch) res)
    (λ r o', r = Ok tt ∧ owner_inv sz h None X L o' ∧ same_router o o') o) as Hrx.
  { intros ch Ho'. destruct res as [[c|]|e]; (split; [done|]); (split; [by apply deliver_inv|done]). }
  destruct Htarget as [->|[Hc (ch & ->)]].
  - destruct (wr_completion wr) as [[ch|w]|]; simpl in *.
    + by apply Hrx.
    + apply wp_bind. eapply wp_mono; [by apply (window_completed_spec sz h None X L w)|].
      intros r o1 (-> & Ho1 & Hr1 & Hs1). apply wp_bind. eapply wp_mono; [by apply (drop_routed_spec sz h None X (w :: L))|].
      intros r o2 (-> & Ho2 & Hr2 & Hs2). eapply wp_mono; [by apply (window_drop_spec sz h None X L w)|].
      intros r o3 (-> & Ho3 & Hr3 & Hs3). split; [done|]. split; [done|]. split; congruence.
    + by apply drop_routed_spec.
  - rewrite Hc in Ho. by apply Hrx.
Qed.

(** A completion record has unsigned fields. *)
Definition record_typed (rec : CompletionRecord) : Prop := 0 ≤ completion_len rec.

Lemma wp_count_error_throw {A} sz h d X L e o :
  owner_inv sz h d X L o →
  wp (_ ← up_router (set_stats count_error); pr_throw (A := A) e) (λ _ o', owner_inv sz h d X L o') o.
Proof. intros Ho. apply wp_bind_modify. by apply stats_inv. Qed.

Lemma route_flush_done_spec sz h X L rec q o :
  owner_inv sz h None X L o →
  wp (route_flush_done rec q) (λ _ o', owner_inv sz h None X L o') o.
Proof.
  intros Ho. unfold route_flush_done. destruct q; [by eapply wp_count_error_throw|].
  apply wp_bind_gets, wp_bind_lift; [|done]. intros l Hl%ok_or_Ok.
  pose proof (oi_router _ _ _ _ _ _ Ho) as [Ht Hs Hr Hla Hj].
  destruct (proj1 (Hj _ _) Hl) as (x & Hx & Hxj). apply wp_bind. unfold wp at 1, pr_expect. rewrite Hx. simpl.
  destruct (negb _); [by eapply wp_count_error_throw|].
  eapply owner_inv_same_router; [exact Ho|done|]. split; simpl; try done.
  intros j l'. rewrite Hj. split.
  - intros (y & Hy & Hyj). destruct (decide (l = l')) as [<-|Hne].
    + rewrite lookup_insert_eq. eexists. split; [done|]. simpl. congruence.
    + exists y. by rewrite lookup_insert_ne.
  - intros (y & [[<- <-]|[Hne Hy]]%lookup_insert_Some & Hyj); [|by exists y]. exists x. by simpl in Hyj.
Qed.

(** Whatever record the provider returns, routing it keeps the invariant. *)
Lemma route_spec sz h L rec q o :
  owner_inv sz h None [] L o → record_typed rec →
  wp (route rec q) (λ _ o', owner_inv sz h None [] L o') o.
Proof.
  intros Ho Hrec. unfold route. destruct (event_kind rec).
  2:{ by eapply wp_count_error_throw. }
  3:{ by eapply wp_count_error_throw. }
  2:{ by apply route_flush_done_spec. }
  destruct (negb (user_ctx_valid rec)); [by eapply wp_count_error_throw|].
  apply wp_bind_lift; [|done]. intros t Ht. apply wp_bind_gets.
  case_decide; [by eapply wp_count_error_throw|].
  apply wp_bind. eapply wp_mono; [by apply (take_outstanding_spec sz h)|].
  intros [wr|e] o1; [|by intros ->]. intros (t' & Ht' & Hout & Hu & Hent & Ho1 & Hp1 & Hout1 & _ & _).
  rewrite Ht in Ht'. injection Ht' as <-.
  destruct Hent as (t' & s & Ht' & _ & Hs & Hk & Hst & Htar). rewrite Hu, Ht in Ht'. injection Ht' as <-.
  assert (in_route h o1 t wr) as Hir.
  { split; [|exists s; by rewrite Hp1|done]. intros wr'. rewrite Hout1, list_lookup_insert_eq; [done|].
    by eapply lookup_lt_Some. }
  apply wp_bind. eapply wp_mono; [by eapply (route_result_spec sz h _ L)|].
  intros r o2 (target & res & -> & Ho2 & _ & _ & Htarget). apply wp_bind.
  eapply wp_mono; [eapply (target_send_spec sz h [] L wr); [exact Ho2| |exact Htarget]|].
  { destruct (operation t); tauto. }
  intros r o3 (-> & Ho3 & _). destruct res as [|[]]; try done. destruct (retirement_by_lane (router o) !! lane_id t) as [x|]; [|done]. by destruct (waiting_for_flush x).
Qed.

Lemma drain_batch_spec sz h L recs q n fe o :
  owner_inv sz h None [] L o → Forall record_typed recs →
  wp (drain_batch recs q n fe) (λ _ o', owner_inv sz h None [] L o') o.
Proof.
  intros Ho Hrecs. induction Hrecs as [|rec recs Hrec _ IH] in n, fe, o, Ho |- *; simpl; [by destruct fe|].
  apply wp_bind_catch. eapply wp_mono; [by apply (route_spec sz h L)|]. intros [[]|e] o1 Ho1; by apply IH.
Qed.

Definition polled_typed (polled : result FfiError (list CompletionRecord)) : Prop :=
  match polled with Ok recs => Forall record_typed recs | Err _ => True end.

Lemma poll_jfc_spec sz h L polled q o :
  owner_inv sz h None [] L o → polled_typed polled →
  wp (poll_jfc polled q) (λ _ o', owner_inv sz h None [] L o') o.
Proof.
  intros Ho Hp. unfold poll_jfc. apply wp_bind_lift; [|done]. intros recs Hrecs.
  apply drain_batch_spec; [done|]. destruct polled; simpl in *; by simplify_eq.
Qed.

Lemma poll_once_spec sz h L sp rp o :
  owner_inv sz h None [] L o → polled_typed sp → polled_typed rp →
  wp (poll_once sp rp) (λ _ o', owner_inv sz h None [] L o') o.
Proof.
  intros Ho Hs Hr. unfold poll_once. apply wp_bind_modify. apply (stats_inv _ _ _ _ _ (count_poll false)) in Ho.
  apply wp_bind_gets, wp_bind.
  eapply (wp_mono _ (λ r o', (∃ x, r = Ok x) ∧ owner_inv sz h None [] L o')).
  { destruct (_ || _); [|split; [by eexists|done]]. apply wp_catch.
    eapply wp_mono; [by apply (poll_jfc_spec sz h L)|]. intros r o' Ho'. split; [by eexists|done]. }
  intros r o1 ((x & ->) & Ho1). apply wp_bind_gets, wp_bind.
  eapply (wp_mono _ (λ r o', (∃ x, r = Ok x) ∧ owner_inv sz h None [] L o')).
  { destruct (negb _); [|split; [by eexists|done]]. apply wp_catch.
    eapply wp_mono; [by apply (poll_jfc_spec sz h L)|]. intros r o' Ho'. split; [by eexists|done]. }
  intros r o2 ((y & ->) & Ho2). destruct x as [a|]; [|done]. destruct y as [b|]; [|done].
  apply wp_bind. destruct (a + b =? 0); [|done]. by apply stats_inv.
Qed.

(** ** Failing the waiters *)
Lemma pool_inv_weaken sz h (p : Pool) : pool_inv sz h p → pool_inv sz false p.
Proof.
  assert (∀ k, guarded false k → guarded h k) as Hg by (intros k [->|]; [by left|done]).
  intros [H1 H2 H3 H4 H5 H6 H7 H8]. split; try done.
  - intros lid r Hr. destruct (H6 _ _ Hr) as [Hnd Hown]. split; [done|]. intros Hgd. by apply Hown, Hg.
  - intros l1 l2 r1 r2 id1 id2 Hl1 Hl2 Hg1 Hg2. by apply H7; auto.
Qed.

Lemma owner_inv_weaken sz h d X L o : owner_inv sz h d X L o → owner_inv sz false d X L o.
Proof.
  intros [Hp He Hr Hw]. split; [by eapply pool_inv_weaken| |done|by eapply windows_ok_weaken].
  intros i wr Hi. destruct (He i wr Hi) as (t & s & Ht & Hti & Hs & Hk & Hst & Hop). exists t, s.
  split_and!; try done. destruct (operation t); [|done]. split; [done|apply Hop].
Qed.

(** An entry loses its waiter; the window's reference becomes local. *)
Lemma owner_inv_detach sz L o i u q w :
  owner_inv sz false None [] L o → outstanding (router o) !! i = Some (Some (mkOutstandingWr u q (Some (RegisteredTx w)))) →
  owner_inv sz false None [] (w :: L)
    (set_router (set_outstanding (<[i := Some (mkOutstandingWr u q None)]> (outstanding (router o))) (router o)) o).
Proof.
  intros [Hp He Hr Hw] Hi. set (wr := mkOutstandingWr u q (Some (RegisteredTx w))) in *.
  set (wr' := mkOutstandingWr u q None).
  destruct (entries_update _ _ _ wr' Hi) as (es & Hes & Hes'). split; simpl.
  - done.
  - intros j x. destruct (decide (j = i)) as [->|Hne].
    + rewrite list_lookup_insert_eq by by eapply lookup_lt_Some. intros [= <-].
      destruct (He _ _ Hi) as (t & s & Ht & Hti & Hs & Hk & Hst & Hop). exists t, s. split_and!; try done.
      destruct (operation t); [|done]. by split.
    + rewrite list_lookup_insert_ne by done. apply He.
  - destruct Hr as [Ht Hs Hrc Hl Hj]. rewrite Hes in Ht, Hs, Hrc. rewrite tally_cons in Hs, Hrc.
    split; simpl; rewrite ?Hes', ?tally_cons; try done.
    intros l. rewrite Hl, Hes, Hes', !tally_cons. done.
  - apply windows_ok_demote. eapply windows_ok_perm; [|done|exact Hw]. unfold targets. simpl.
    rewrite (omap_window_perm _ _ Hes), (omap_window_perm _ _ Hes'), !omap_window_cons. simpl. done.
Qed.

Lemma fail_outstanding_spec sz L is_ e o :
  owner_inv sz false None [] L o →
  wp (fail_outstanding is_ e) (λ r o', r = Ok tt ∧ owner_inv sz false None [] L o' ∧
    slots (pool o') = slots (pool o) ∧
    registered_rx_by_identity (router o') = registered_rx_by_identity (router o)) o.
Proof.
  induction is_ as [|i is_ IH] in o |- *; intros Ho; simpl; [done|]. apply wp_bind_gets, wp_bind.
  eapply (wp_mono _ (λ r o', r = Ok tt ∧ owner_inv sz false None [] L o' ∧ slots (pool o') = slots (pool o) ∧
    registered_rx_by_identity (router o') = registered_rx_by_identity (router o))).
  - destruct (outstanding (router o) !! i) as [[[u q [[ch|w]|]]|]|] eqn:Hi; try done.
    + exfalso. destruct (oi_entries _ _ _ _ _ _ Ho _ _ Hi) as (t & s & _ & _ & _ & _ & _ & Hop).
      destruct (operation t); [|done]. by destruct Hop as [_ Hop]; specialize (Hop eq_refl).
    + apply wp_bind_modify. apply wp_bind. eapply wp_mono.
      { eapply (window_fail_spec sz false None [] (w :: L) w); [by eapply owner_inv_detach|set_solver]. }
      intros r o1 (-> & Ho1 & Hr1 & Hs1). eapply wp_mono; [by apply (window_drop_spec sz false None [] L w)|].
      intros r o2 (-> & Ho2 & Hr2 & Hs2). split; [done|]. split; [done|]. rewrite Hs2, Hs1, Hr2, Hr1. done.
  - intros r o1 (-> & Ho1 & Hs1 & Hi1). eapply wp_mono; [by apply IH|].
    intros r o2 (-> & Ho2 & Hs2 & Hi2). split; [done|]. split; [done|]. split; congruence.
Qed.

(** [fail_pending] tells every waiter and touches no slot. *)
Lemma fail_pending_spec sz h L e o :
  owner_inv sz h None [] L o →
  wp (fail_pending e) (λ r o', r = Ok tt ∧ owner_inv sz false None [] L o' ∧
    slots (pool o') = slots (pool o) ∧ registered_rx_by_identity (router o') = ∅) o.
Proof.
  intros Ho%owner_inv_weaken. unfold fail_pending. apply wp_bind_gets, wp_bind_modify.
  set (o1 := set_router _ o).
  assert (owner_inv sz false None [] L o1) as Ho1.
  { eapply owner_inv_same_router; [exact Ho|done|]. by eapply router_ok_same; [apply Ho|..]. }
  apply wp_bind. eapply wp_mono.
  { apply (wp_for _ _ (λ o', owner_inv sz false None [] L o' ∧ router o' = router o1 ∧ pool o' = pool o1)
      (λ _ _, False)); [done|]. intros x o' _ (Ho' & Hr' & Hp'). split; [by apply deliver_inv|done]. }
  intros [[]|] o2; [|done]. intros (Ho2 & Hr2 & Hp2). eapply wp_mono; [by apply (fail_outstanding_spec sz L)|].
  intros r o3 (-> & Ho3 & Hs3 & Hi3). split; [done|]. split; [done|]. split; [by rewrite Hs3, Hp2|].
  by rewrite Hi3, Hr2.
Qed.
End owner.
End OwnerFacts.
