(* ===== verification/UrmaPostFacts.v ===== *)
(** * Safety of posting windows

    Posting a receive or send window keeps the invariant of the owner's state
    whatever part of it the provider accepts; a receive slot the provider did
    not accept is free again. *)

From S2P Require Import Prelude UrmaBuffer UrmaBufferFacts UrmaLane UrmaCompletion UrmaPost UrmaOwnerFacts.
From Stdlib Require Import ZArith Lia String.
From stdpp Require Import base tactics numbers list gmap strings pretty.
Local Open Scope Z_scope.

Module PostFacts.
Import Urma Lane Router Post LaneFacts UrmaBufferFacts OwnerFacts.

Section post.
Context {J Seg : Type} `{!NativeSegment Seg} `{!NativeJetty J Seg}.
Abbreviation Pool := (UrmaBufferPool (Seg := Seg)).
Abbreviation LaneOwner := (UrmaLane (J := J) * Owner Seg)%type.
Abbreviation RxPending := (SlotId * Z * nat)%type.
Abbreviation TxPending := (SlotId * Z * Z * Z)%type.
Implicit Types s : LaneOwner.

(** A lane whose identity fits a token. *)
Definition lane_valid (l : UrmaLane (J := J)) : Prop :=
  1 ≤ Lane.id l < 2 ^ 16 ∧ 1 ≤ Lane.generation l < 2 ^ 8.

(** What posting does not change of a lane. *)
Definition same_lane (l l' : UrmaLane (J := J)) : Prop :=
  Lane.id l' = Lane.id l ∧ Lane.generation l' = Lane.generation l ∧ lane_state l' = lane_state l ∧
  post_list_size l' = post_list_size l ∧ lane_transport l' = lane_transport l ∧
  retirement_armed l' = retirement_armed l ∧ local_jetty_id (jetty l') = local_jetty_id (jetty l).

Lemma same_lane_refl l : same_lane l l.
Proof. done. Qed.
Lemma same_lane_trans l1 l2 l3 : same_lane l1 l2 → same_lane l2 l3 → same_lane l1 l3.
Proof. unfold same_lane. intuition congruence. Qed.
#[local] Hint Resolve same_lane_refl : core.

(** A pool call that leaves the outstanding slots alone. *)
Lemma on_buffers_spec {A} sz h L (m : PR Pool Error A) (Q : Result A → Pool → Prop) s :
  owner_inv sz h None [] L s.2 →
  wp m (λ r p', pool_inv sz h p' ∧
    (∀ i wr, outstanding (router s.2) !! i = Some (Some wr) → slots p' !! i = slots (pool s.2) !! i) ∧
    Q r p') (pool s.2) →
  wp (on_buffers m) (λ r s', s'.1 = s.1 ∧ owner_inv sz h None [] L s'.2 ∧ router s'.2 = router s.2 ∧
    Q r (pool s'.2)) s.
Proof.
  intros Ho Hm. apply wp_zoom, wp_zoom. eapply wp_mono; [exact Hm|]. intros r p' (Hp' & Hf & HQ).
  split; [done|]. split; [by apply owner_inv_pool|done].
Qed.

Lemma for_buffers {X} (f : X → PR Pool Error unit) (l : list X) Q s :
  wp (on_buffers (pr_for f l)) Q s → wp (pr_for (λ x, on_buffers (f x)) l) Q s.
Proof.
  intros Hw. unfold on_buffers, on_owner in *. apply wp_for_zoom; [by intros []|done|done|].
  apply wp_for_zoom; [by intros []|done|done|]. unfold wp in *. unfold pr_zoom, on_pool, pr_zoom in Hw.
  by destruct (pr_for f l (pool s.2)) as [[r p]|].
Qed.

(** A loop of one call. *)
Lemma buffers_one (f : SlotId → PR Pool Error unit) id Q s :
  wp (on_buffers (pr_for f [id])) Q s → wp (on_buffers (f id)) Q s.
Proof.
  unfold wp, on_buffers, on_owner, on_pool, pr_zoom. simpl. cbv [mbind pr_mbind mret pr_mret].
  by destruct (f id (pool s.2)) as [[[[]|e] p]|].
Qed.
Lemma for_buffers_one (f : SlotId → PR Pool Error unit) {X} (g : X → SlotId) x Q s :
  wp (pr_for (λ x, on_buffers (f (g x))) [x]) Q s → wp (on_buffers (pr_for f [g x])) Q s.
Proof.
  unfold wp, on_buffers, on_owner, on_pool, pr_zoom. simpl. cbv [mbind pr_mbind mret pr_mret].
  by destruct (f (g x) (pool s.2)) as [[[[]|e] p]|].
Qed.

(** ** Receive windows *)

(** The receives of a window that are not posted: distinct slots in state [st],
    none of them outstanding. *)
Record rx_waiting (st : SlotState) (l : list RxPending) (o : Owner Seg) : Prop := {
  rw_nodup : NoDup (index <$> (rx_pending_slot <$> l));
  rw_slot : ∀ x, x ∈ l → (∃ b, holds (pool o) (rx_pending_slot x) b ∧ kind b = Rx ∧ state b = st) ∧
    no_entry o (index (rx_pending_slot x)) ∧ 1 ≤ Urma.generation (rx_pending_slot x) < 65536 ∧
    Z.of_nat (index (rx_pending_slot x)) < 65536;
}.

Lemma rx_waiting_sub st l l' o : sublist l' l → rx_waiting st l o → rx_waiting st l' o.
Proof.
  intros Hsub [Hnd Hs]. split.
  - eapply sublist_NoDup; [exact Hnd|]. by do 2 apply fmap_sublist.
  - intros x Hx. apply Hs. by eapply elem_of_sublist.
Qed.

Lemma rx_waiting_frame st l o o' :
  rx_waiting st l o →
  (∀ i, i ∈ index <$> (rx_pending_slot <$> l) → slots (pool o') !! i = slots (pool o) !! i ∧ no_entry o' i) →
  rx_waiting st l o'.
Proof.
  intros [Hnd Hs] Hf. split; [done|]. intros x Hx. destruct (Hs x Hx) as ((b & [Hb Hg] & Hk & Hst) & _ & Hrest).
  destruct (Hf (index (rx_pending_slot x))) as [Hsl Hn]; [by do 2 apply list_elem_of_fmap_2|].
  split; [|done]. exists b. split; [|done]. split; [by rewrite Hsl|done].
Qed.

Lemma rx_waiting_cons st x l o :
  rx_waiting st (x :: l) o →
  rx_waiting st l o ∧ index (rx_pending_slot x) ∉ index <$> (rx_pending_slot <$> l) ∧
  (∃ b, holds (pool o) (rx_pending_slot x) b ∧ kind b = Rx ∧ state b = st) ∧
  no_entry o (index (rx_pending_slot x)) ∧ 1 ≤ Urma.generation (rx_pending_slot x) < 65536 ∧
  Z.of_nat (index (rx_pending_slot x)) < 65536.
Proof.
  intros Hw. destruct Hw as [Hnd Hs]. pose proof Hnd as Hnd'. rewrite !fmap_cons in Hnd'.
  apply NoDup_cons in Hnd' as [Hni Hnd']. destruct (Hs x) as (? & ? & ? & ?); [by left|].
  split; [|done]. split; [done|]. intros y Hy. apply Hs. by right.
Qed.

Lemma mark_posted_spec sz h id k (p : Pool) b :
  pool_inv sz h p → holds p id b → kind b = k → state b = Allocated →
  wp (mark_posted id k) (λ r p', r = Ok tt ∧ pool_inv sz h p' ∧
    p' = set_slots (<[index id := set_state (posted_state k) b]> (slots p)) p) p.
Proof.
  intros Hp Hb Hk Hst. unfold mark_posted. apply wp_bind_gets, wp_bind_lift.
  2:{ intros e He. apply slot_fields_Ok in Hb. congruence. }
  intros b' Hb'%slot_fields_Ok. assert (b' = b) as -> by (destruct Hb as [Hb _], Hb' as [Hb' _]; congruence).
  rewrite bool_decide_false by (intros Hne; done). apply wp_bind_guard; [done|]. intros _.
  eapply wp_mono; [apply (transition_spec sz h); [done|done|by destruct k|]|].
  { intros _ [] _ Hin; simpl in Hin; set_solver. }
  intros [[]|e] p' [Hp' Hr].
  - destruct Hr as (b' & [Hb1 _] & _ & ->). destruct Hb as [Hb _]. rewrite Hb in Hb1. injection Hb1 as <-. done.
  - destruct Hr as [_ Hno]. exfalso. apply Hno. by exists b.
Qed.

Lemma token_valid_slot op id (l : UrmaLane (J := J)) :
  lane_valid l → 1 ≤ Urma.generation id < 65536 → Z.of_nat (index id) < 65536 → token_valid (token op id l).
Proof. intros [Hl Hg] ??. unfold token_valid. simpl. lia. Qed.

Lemma token_encode_valid op id (l : UrmaLane (J := J)) :
  lane_valid l → 1 ≤ Urma.generation id < 65536 → Z.of_nat (index id) < 65536 →
  ∃ u, WrToken_encode (token op id l) = Ok u ∧ WrToken_decode u = Ok (token op id l).
Proof.
  intros Hl Hg Hi. pose proof (token_valid_slot op id l Hl Hg Hi) as Hv. eexists.
  split; [by apply WrToken_encode_eq|]. by apply WrToken_decode_packed.
Qed.

(** One receive is marked as posted and gets its token. *)
Lemma prepare_recv_spec sz h L id b s :
  owner_inv sz h None [] L s.2 → lane_valid s.1 → no_entry s.2 (index id) →
  1 ≤ Urma.generation id < 65536 → Z.of_nat (index id) < 65536 →
  holds (pool s.2) id b → kind b = Rx → state b = Allocated →
  wp (prepare_recv id) (λ r s', s'.1 = s.1 ∧ owner_inv sz h None [] L s'.2 ∧ router s'.2 = router s.2 ∧
    match r with
    | Ok e => WrToken_decode (user_ctx e) = Ok (token Recv id s.1) ∧
        pool s'.2 = set_slots (<[index id := set_state PostedRecv b]> (slots (pool s.2))) (pool s.2)
    | Err _ => s' = s
    end) s.
Proof.
  intros Ho Hl Hn Hg Hi Hb Hk Hst. unfold prepare_recv. apply wp_bind_gets, wp_bind_lift; [|done].
  intros [off n] _. destruct (token_encode_valid Recv id s.1 Hl Hg Hi) as (u & Hu & Hu').
  apply wp_bind_lift; [|by rewrite Hu]. intros u' Hu''. rewrite Hu in Hu''. injection Hu'' as <-.
  apply wp_bind. eapply wp_mono.
  { apply (on_buffers_spec sz h L); [exact Ho|]. eapply wp_mono.
    { apply (mark_posted_spec sz h id Rx (pool s.2) b); [apply Ho|done..]. }
    intros r p' (Hr & Hp' & Heq). split; [done|]. split; [|exact (conj Hr Heq)].
    intros i wr Hwr. rewrite Heq. simpl. apply list_lookup_insert_ne. intros <-. by apply (Hn wr). }
  intros r s1 (Hs1 & Ho1 & Hr1 & -> & Hp1). done.
Qed.

(** The prefix of the batch that was marked. *)
Lemma prepare_recvs_spec sz h L batch es0 s :
  owner_inv sz h None [] L s.2 → lane_valid s.1 → rx_waiting Allocated batch s.2 →
  wp (prepare_recvs batch es0) (λ r s', ∃ es err, r = Ok (es0 ++ es, err) ∧ s'.1 = s.1 ∧
    owner_inv sz h None [] L s'.2 ∧ router s'.2 = router s.2 ∧ same_book (pool s.2) (pool s'.2) ∧
    (List.length es ≤ List.length batch)%nat ∧ (err = None → List.length es = List.length batch) ∧
    rx_waiting PostedRecv (take (List.length es) batch) s'.2 ∧
    (∀ i, i ∉ index <$> (rx_pending_slot <$> take (List.length es) batch) →
       slots (pool s'.2) !! i = slots (pool s.2) !! i) ∧
    Forall2 (λ x e, WrToken_decode (user_ctx e) = Ok (token Recv (rx_pending_slot x) s.1))
      (take (List.length es) batch) es) s.
Proof.
  intros Ho Hl. induction batch as [|x batch IH] in es0, s, Ho, Hl |- *; intros Hw; simpl.
  { exists [], None. rewrite app_nil_r. split_and!; try done. split; [constructor|]. by intros ? ?%not_elem_of_nil. }
  destruct (rx_waiting_cons _ _ _ _ Hw) as (Hwb & Hni & (b & Hb & Hk & Hst) & Hn & Hg & Hi).
  apply wp_bind_catch. eapply wp_mono; [by apply (prepare_recv_spec sz h L _ b)|].
  intros [e|e] s1 (Hs1 & Ho1 & Hr1 & Hres).
  2:{ subst s1. exists [], (Some e). rewrite app_nil_r. split_and!; try done; [simpl; lia|].
      split; [constructor|]. by intros ? ?%not_elem_of_nil. }
  destruct Hres as [Hdec Hp1].
  assert (∀ i, i ≠ index (rx_pending_slot x) → slots (pool s1.2) !! i = slots (pool s.2) !! i) as Hf1.
  { intros i Hne. rewrite Hp1. simpl. by apply list_lookup_insert_ne. }
  eapply wp_mono; [apply IH; [done|by rewrite Hs1|]|].
  { eapply rx_waiting_frame; [exact Hwb|]. intros i Hin. split; [apply Hf1; by intros ->|].
    unfold no_entry. rewrite Hr1. apply list_elem_of_fmap in Hin as (id & -> & (y & -> & Hy)%list_elem_of_fmap).
    by apply (rw_slot _ _ _ Hwb). }
  intros r s2 (es & err & -> & Hs2 & Ho2 & Hr2 & Hb2 & Hlen & Herr & Hwp & Hf2 & Hall).
  exists (e :: es), err. rewrite <- app_assoc. simpl. split; [done|]. split; [by rewrite Hs2|]. split; [done|].
  split; [by rewrite Hr2|]. split; [by eapply same_book_trans; [|exact Hb2]; rewrite Hp1|]. split; [lia|].
  split; [intros; rewrite Herr; done|].
  assert (index (rx_pending_slot x) ∉ index <$> (rx_pending_slot <$> take (List.length es) batch)) as Hni'.
  { intros Hin. apply Hni. apply list_elem_of_fmap in Hin as (id & -> & (y & -> & Hy)%list_elem_of_fmap).
    do 2 apply list_elem_of_fmap_2. by eapply elem_of_sublist; [exact Hy|apply sublist_take]. }
  split; [|split].
  - destruct Hwp as [Hnd Hsl]. split; [by apply NoDup_cons|]. intros y [->|Hy]%elem_of_cons; [|by apply Hsl].
    split; [|split; [unfold no_entry; by rewrite Hr2, Hr1|done]]. exists (set_state PostedRecv b).
    split; [|done]. split; [|apply Hb]. rewrite Hf2 by done. rewrite Hp1. simpl.
    apply list_lookup_insert_eq. destruct Hb as [Hb _]. by eapply lookup_lt_Some.
  - intros i [Hi1 Hi2]%not_elem_of_cons. rewrite Hf2 by done. by apply Hf1.
  - constructor; [done|]. by rewrite <- Hs1.
Qed.

(** A loop of pool calls, in the owner. *)
Lemma pool_frame_entries st (l : list RxPending) o (p' : Pool) :
  rx_waiting st l o →
  (∀ i, i ∉ index <$> (rx_pending_slot <$> l) → slots p' !! i = slots (pool o) !! i) →
  ∀ i wr, outstanding (router o) !! i = Some (Some wr) → slots p' !! i = slots (pool o) !! i.
Proof.
  intros Hw Hf i wr Hi. apply Hf. intros (id & -> & (x & -> & Hx)%list_elem_of_fmap)%list_elem_of_fmap.
  by apply (rw_slot _ _ _ Hw x Hx) in Hi as [].
Qed.

Lemma fmap_slots (f : SlotId → PR Pool Error unit) (l : list RxPending) :
  pr_for (λ x, f (rx_pending_slot x)) l = pr_for f (rx_pending_slot <$> l).
Proof. induction l as [|x l IH]; [done|]. simpl. by rewrite IH. Qed.

(** Rolling back posted receives. *)
Lemma rollback_recvs_spec sz h L (l : list RxPending) s :
  owner_inv sz h None [] L s.2 → rx_waiting PostedRecv l s.2 →
  wp (pr_for (λ x, on_buffers (rollback_post (rx_pending_slot x) Rx)) l) (λ r s', r = Ok tt ∧ s'.1 = s.1 ∧
    owner_inv sz h None [] L s'.2 ∧ router s'.2 = router s.2 ∧ same_book (pool s.2) (pool s'.2) ∧
    rx_waiting Allocated l s'.2 ∧
    (∀ i, i ∉ index <$> (rx_pending_slot <$> l) → slots (pool s'.2) !! i = slots (pool s.2) !! i)) s.
Proof.
  intros Ho Hw. apply for_buffers. rewrite (fmap_slots (λ id, rollback_post id Rx)).
  set (ids := rx_pending_slot <$> l).
  eapply wp_mono.
  { apply (on_buffers_spec sz h L); [exact Ho|]. eapply wp_mono.
    { apply (transitions_spec sz h PostedRecv Allocated ids); [apply Ho|done..|].
      intros _ _ _ [] _ Hin; simpl in Hin; set_solver. }
    intros r p' (Hp' & Hb & Hf & Hr). split; [exact Hp'|].
    split; [by apply (pool_frame_entries PostedRecv l)|]. exact (conj Hb (conj Hf Hr)). }
  intros [[]|e] s' (Hs' & Ho' & Hr' & Hb & Hf & Hr).
  2:{ exfalso. apply Hr; [apply Hw|]. intros id (x & -> & Hx)%list_elem_of_fmap.
      destruct (rw_slot _ _ _ Hw x Hx) as ((b & ? & _ & ?) & _). by exists b. }
  destruct Hr as [Hnd Hids]. split_and!; try done. split; [done|]. intros x Hx.
  destruct (rw_slot _ _ _ Hw x Hx) as ((b & [Hb1 _] & Hk & _) & Hn & Hg).
  destruct (Hids (rx_pending_slot x)) as (b' & [Hb' _] & _ & Hh); [by apply list_elem_of_fmap_2|].
  rewrite Hb1 in Hb'. injection Hb' as <-. split; [by eexists|]. split; [|done]. unfold no_entry. by rewrite Hr'.
Qed.

(** Releasing receives that are not posted. *)
Lemma release_recvs_spec sz h L (l : list RxPending) s :
  owner_inv sz h None [] L s.2 → rx_waiting Allocated l s.2 →
  wp (on_buffers (release_unposted_rx_window (rx_pending_slot <$> l))) (λ r s', r = Ok tt ∧ s'.1 = s.1 ∧
    owner_inv sz h None [] L s'.2 ∧ router s'.2 = router s.2 ∧ same_book (pool s.2) (pool s'.2) ∧
    rx_waiting Free l s'.2 ∧
    (∀ i, i ∉ index <$> (rx_pending_slot <$> l) → slots (pool s'.2) !! i = slots (pool s.2) !! i)) s.
Proof.
  intros Ho Hw. set (ids := rx_pending_slot <$> l). eapply wp_mono.
  { apply (on_buffers_spec sz h L); [exact Ho|]. eapply wp_mono.
    { apply (releases_spec sz h ids); [apply Ho|apply Hw|]. intros id (x & -> & Hx)%list_elem_of_fmap.
      destruct (rw_slot _ _ _ Hw x Hx) as ((b & ? & _ & Hst) & _). exists b. split; [done|].
      rewrite Hst. unfold releasable. set_solver. }
    intros r p' (Hr & Hp' & Hb & Hf & Hids). split; [exact Hp'|].
    split; [by apply (pool_frame_entries Allocated l)|]. exact (conj Hr (conj Hb (conj Hf Hids))). }
  intros r s' (Hs' & Ho' & Hr' & -> & Hb & Hf & Hids). split_and!; try done. split; [apply Hw|]. intros x Hx.
  destruct (rw_slot _ _ _ Hw x Hx) as ((b & [Hb1 _] & Hk & _) & Hn & Hg).
  destruct (Hids (rx_pending_slot x)) as (b' & [Hb' _] & Hh); [by apply list_elem_of_fmap_2|].
  rewrite Hb1 in Hb'. injection Hb' as <-. split; [by eexists|]. split; [|done]. unfold no_entry. by rewrite Hr'.
Qed.

Definition indices (l : list RxPending) : list nat := index <$> (rx_pending_slot <$> l).

Lemma indices_app l1 l2 : indices (l1 ++ l2) = indices l1 ++ indices l2.
Proof. unfold indices. by rewrite !fmap_app. Qed.
Lemma indices_in x l : x ∈ l → index (rx_pending_slot x) ∈ indices l.
Proof. intros. by do 2 apply list_elem_of_fmap_2. Qed.

Lemma rx_waiting_app st l1 l2 o :
  NoDup (indices (l1 ++ l2)) → rx_waiting st l1 o → rx_waiting st l2 o → rx_waiting st (l1 ++ l2) o.
Proof. intros Hnd [_ H1] [_ H2]. split; [done|]. intros x [?|?]%elem_of_app; auto. Qed.

Lemma rx_waiting_app_inv st l1 l2 o :
  rx_waiting st (l1 ++ l2) o → rx_waiting st l1 o ∧ rx_waiting st l2 o ∧ ∀ i, i ∈ indices l1 → i ∉ indices l2.
Proof.
  intros Hw. split; [|split].
  - eapply rx_waiting_sub; [|exact Hw]. by apply sublist_inserts_r.
  - eapply rx_waiting_sub; [|exact Hw]. by apply sublist_inserts_l.
  - destruct Hw as [Hnd _]. fold (indices (l1 ++ l2)) in Hnd. rewrite indices_app in Hnd.
    by apply NoDup_app in Hnd as (_ & ? & _).
Qed.

(** A part of a window kept by a change of another part. *)
Lemma rx_waiting_other st l l' o o' :
  rx_waiting st l o → (∀ i, i ∈ indices l → i ∉ indices l') → router o' = router o →
  (∀ i, i ∉ indices l' → slots (pool o') !! i = slots (pool o) !! i) → rx_waiting st l o'.
Proof.
  intros Hw Hd Hr Hf. eapply rx_waiting_frame; [exact Hw|]. intros i Hi. split; [by apply Hf, Hd|].
  unfold no_entry. rewrite Hr. apply list_elem_of_fmap in Hi as (id & -> & (x & -> & Hx)%list_elem_of_fmap).
  by apply (rw_slot _ _ _ Hw).
Qed.

Lemma undo_recvs_spec sz h L l1 l2 s :
  owner_inv sz h None [] L s.2 → NoDup (indices (l1 ++ l2)) →
  rx_waiting PostedRecv l1 s.2 → rx_waiting Allocated l2 s.2 →
  wp (undo_recvs l1 (l1 ++ l2)) (λ r s', r = Ok tt ∧ s'.1 = s.1 ∧ owner_inv sz h None [] L s'.2 ∧
    router s'.2 = router s.2 ∧ same_book (pool s.2) (pool s'.2) ∧ rx_waiting Free (l1 ++ l2) s'.2 ∧
    (∀ i, i ∉ indices (l1 ++ l2) → slots (pool s'.2) !! i = slots (pool s.2) !! i)) s.
Proof.
  intros Ho Hnd H1 H2. unfold undo_recvs. apply wp_bind.
  eapply wp_mono; [by apply (rollback_recvs_spec sz h L)|].
  intros r s1 (-> & Hs1 & Ho1 & Hr1 & Hb1 & Hw1 & Hf1).
  assert (∀ i, i ∈ indices l2 → i ∉ indices l1) as Hd.
  { rewrite indices_app in Hnd. apply NoDup_app in Hnd as (_ & Hd & _). intros i Hi Hi1. by apply (Hd i). }
  eapply wp_mono; [apply (release_recvs_spec sz h L); [exact Ho1|]|].
  { apply rx_waiting_app; [done|done|]. by eapply rx_waiting_other. }
  intros r s2 (-> & Hs2 & Ho2 & Hr2 & Hb2 & Hw2 & Hf2). split; [done|]. split; [by rewrite Hs2|].
  split; [done|]. split; [by rewrite Hr2|]. split; [by eapply same_book_trans|]. split; [done|].
  intros i Hi. rewrite Hf2 by done. apply Hf1. rewrite indices_app in Hi. set_solver.
Qed.

Lemma on_lane_jetty_spec {A} (m : ST (UrmaJetty (J := J)) Error A) (Q : Result A → Prop) s :
  (∀ j, local_jetty_id (m j).2 = local_jetty_id j) → Q (m (jetty s.1)).1 →
  wp (on_lane (on_jetty m)) (λ r s', s'.2 = s.2 ∧ same_lane s.1 s'.1 ∧ credits s'.1 = credits s.1 ∧ Q r) s.
Proof.
  intros Hid HQ. specialize (Hid (jetty s.1)). unfold wp, on_lane, on_jetty, zoom.
  destruct (m (jetty s.1)) as [r j]. simpl in *. done.
Qed.

Lemma on_handle_id {A} name (f : J → result FfiError A * J) j :
  local_jetty_id (on_handle name f j).2 = local_jetty_id j.
Proof. unfold on_handle. by destruct (f (handle j)). Qed.

Definition tokens_ok (l : UrmaLane (J := J)) (batch : list RxPending) (es : list PostEntry) : Prop :=
  Forall2 (λ x e, WrToken_decode (user_ctx e) = Ok (token Recv (rx_pending_slot x) l)) batch es.

(** The batch is posted, or the whole window is free again. *)
Definition stage_post sz h L batch rest s (r : Result (list PostEntry * PostBatch)) s' : Prop :=
  same_lane s.1 s'.1 ∧ owner_inv sz h None [] L s'.2 ∧ router s'.2 = router s.2 ∧
  same_book (pool s.2) (pool s'.2) ∧
  (∀ i, i ∉ indices (batch ++ rest) → slots (pool s'.2) !! i = slots (pool s.2) !! i) ∧
  match r with
  | Ok (es, posted) => (posted_len posted ≤ List.length batch)%nat ∧
      (batch_error posted = None → posted_len posted = List.length batch) ∧ batch ≠ [] ∧
      tokens_ok s.1 batch es ∧ rx_waiting PostedRecv batch s'.2 ∧ rx_waiting Allocated rest s'.2
  | Err _ => rx_waiting Free (batch ++ rest) s'.2
  end.

(** What the checks of [post_list] guarantee. *)
Definition prefix_ok (es : list PostEntry) (r : Result PostBatch) : Prop :=
  match r with
  | Ok b => (posted_len b ≤ List.length es)%nat ∧
      (batch_error b = None → posted_len b = List.length es) ∧ es ≠ []
  | Err _ => True
  end.

Lemma post_batch_prefix (send : bool) name (seg : Seg) es j :
  prefix_ok es (on_handle (J := J) name (post_list send seg es) j).1.
Proof.
  unfold on_handle. destruct (post_list send seg es (handle j)) as [[b|e] j'] eqn:Hp; [|done].
  simpl. by eapply post_list_prefix.
Qed.

Lemma post_recv_stage_spec sz h L batch rest s :
  owner_inv sz h None [] L s.2 → lane_valid s.1 → is_Some (segment (pool s.2)) →
  rx_waiting Allocated (batch ++ rest) s.2 →
  wp (post_recv_stage batch (batch ++ rest)) (stage_post sz h L batch rest s) s.
Proof.
  intros Ho Hl [seg Hseg] Hw. destruct (rx_waiting_app_inv _ _ _ _ Hw) as (Hwb & Hwr & Hdis).
  unfold post_recv_stage. apply wp_bind. eapply wp_mono; [by apply (prepare_recvs_spec sz h L)|].
  intros r s1 (es & err & -> & Hs1 & Ho1 & Hr1 & Hb1 & Hlen & Herr & Hwp & Hf1 & Htok). simpl.
  set (k := List.length es) in *. fold (indices (take k batch)) in Hf1.
  assert (batch ++ rest = take k batch ++ (drop k batch ++ rest)) as Hsplit by by rewrite app_assoc, take_drop.
  assert (NoDup (indices (take k batch ++ (drop k batch ++ rest)))) as Hnd by (rewrite <- Hsplit; apply Hw).
  assert (rx_waiting Allocated (drop k batch ++ rest) s1.2) as Hwd.
  { rewrite Hsplit in Hw. destruct (rx_waiting_app_inv _ _ _ _ Hw) as (_ & Hwd & Hd).
    eapply rx_waiting_other; [exact Hwd| |exact Hr1|exact Hf1]. intros i Hi Hi'. by apply (Hd i). }
  assert (∀ i, i ∉ indices (batch ++ rest) → slots (pool s1.2) !! i = slots (pool s.2) !! i) as Hfall.
  { intros i Hi. apply Hf1. rewrite Hsplit, indices_app in Hi. set_solver. }
  assert (∀ (s2 : LaneOwner) (e : Error), same_lane s.1 s2.1 → s2.2 = s1.2 →
    wp (_ ← undo_recvs (take k batch) (batch ++ rest); pr_throw (A := list PostEntry * PostBatch) e)
      (stage_post sz h L batch rest s) s2) as Hundo.
  { intros s2 e Hsl Heq. rewrite Hsplit. apply wp_bind.
    eapply wp_mono; [apply (undo_recvs_spec sz h L); rewrite ?Heq; done|].
    intros r s3 (-> & Hs3 & Ho3 & Hr3 & Hb3 & Hw3 & Hf3). rewrite Heq in Hr3, Hb3, Hf3.
    split; [by rewrite Hs3|]. split; [done|]. split; [by rewrite Hr3|]. split; [by eapply same_book_trans|].
    split; [|by rewrite Hsplit]. intros i Hi. rewrite Hf3 by (by rewrite <- Hsplit). by apply Hfall. }
  destruct err as [e|]; [by apply Hundo; [rewrite Hs1|]|].
  assert (take k batch = batch) as Htake by (apply take_ge; rewrite <- Herr; done).
  apply wp_bind_gets, wp_bind_lift.
  2:{ intros e He. exfalso. destruct Hb1 as (_ & Hse & _). unfold segment_handle in He.
      rewrite Hse, Hseg in He. done. }
  intros seg' Hseg'. apply wp_bind_catch. eapply wp_mono.
  { apply (on_lane_jetty_spec _ (prefix_ok es)); [intros; apply on_handle_id|apply post_batch_prefix]. }
  intros [b|e] s2 (Hs2 & Hl2 & _ & Hpost).
  - destruct Hpost as (Hle & Hfull & Hne). unfold mret, pr_mret, wp, stage_post. rewrite Hs2. rewrite Htake in Hwp, Htok, Hf1.
    pose proof (Forall2_length _ _ _ Htok) as Hlen'. split; [by rewrite <- Hs1|]. split; [done|].
    split; [done|]. split; [done|]. split; [done|].
    split; [lia|]. split; [intros Hn; rewrite Hfull by done; lia|].
    split; [by intros ->; destruct es|]. split; [done|]. split; [done|].
    by destruct (rx_waiting_app_inv _ _ _ _ Hwd) as (_ & ? & _).
  - rewrite <- Htake at 1. apply Hundo; [by rewrite <- Hs1|done].
Qed.

(** The waiters of a list of receives. *)
Definition register_all (lane : Z) (l : list RxPending) (m : gmap (Z * Z) nat) : gmap (Z * Z) nat :=
  foldl (λ m (x : RxPending), <[(lane, x.1.2) := x.2]> m) m l.

(** The identities of a window are new. *)
Definition fresh_identities (lane : Z) (l : list RxPending) (m : gmap (Z * Z) nat) : Prop :=
  NoDup ((λ x : RxPending, x.1.2) <$> l) ∧ ∀ x, x ∈ l → m !! (lane, x.1.2) = None.

Lemma fresh_register lane x l m :
  fresh_identities lane (x :: l) m → fresh_identities lane l (<[(lane, x.1.2) := x.2]> m).
Proof.
  intros [[Hni Hnd]%NoDup_cons Hm]. split; [done|]. intros y Hy. rewrite lookup_insert_ne; [apply Hm; by right|].
  intros [= Heq]. apply Hni. rewrite Heq. by apply (list_elem_of_fmap_2 (λ x : RxPending, x.1.2)).
Qed.

Lemma fresh_app lane l1 l2 m :
  fresh_identities lane (l1 ++ l2) m → fresh_identities lane l2 (register_all lane l1 m).
Proof.
  induction l1 as [|x l1 IH] in m |- *; [done|]. simpl. intros Hf. apply IH. by apply (fresh_register lane x).
Qed.

Lemma fresh_sub lane l1 l2 m : fresh_identities lane (l1 ++ l2) m → fresh_identities lane l1 m.
Proof.
  intros [Hnd Hm]. split; [rewrite fmap_app in Hnd; by apply NoDup_app in Hnd as [? _]|].
  intros x Hx. apply Hm. set_solver.
Qed.

(** New outstanding entries belong to the lane. *)
Definition entries_from (lane : Z) (o o' : Owner Seg) : Prop :=
  ∀ i wr, outstanding (router o') !! i = Some (Some wr) →
    outstanding (router o) !! i = Some (Some wr) ∨ wr_lane wr = Some lane.

Lemma entries_from_refl lane o o' : outstanding (router o') = outstanding (router o) → entries_from lane o o'.
Proof. intros Hr i wr. rewrite Hr. by left. Qed.
Lemma entries_from_trans lane o1 o2 o3 :
  entries_from lane o1 o2 → entries_from lane o2 o3 → entries_from lane o1 o3.
Proof. intros H1 H2 i wr [Hi|Hi]%H2; [by apply H1|by right]. Qed.

(** The outstanding entries after [l] was posted on the lane. *)
Definition entries_added (lane : Z) (o o' : Owner Seg) (l : list RxPending) : Prop :=
  (∀ i, i ∉ indices l → ∀ wr, outstanding (router o') !! i = Some (Some wr) ↔
                              outstanding (router o) !! i = Some (Some wr)) ∧
  ∀ x, x ∈ l → ∃ wr, outstanding (router o') !! index (rx_pending_slot x) = Some (Some wr) ∧
                     wr_lane wr = Some lane.

Lemma entries_added_from lane o o' l : entries_added lane o o' l → entries_from lane o o'.
Proof.
  intros [H1 H2] i wr Hi. destruct (decide (i ∈ indices l)) as [Hin|Hin]; [|left; by apply H1].
  apply list_elem_of_fmap in Hin as (id & -> & (x & -> & Hx)%list_elem_of_fmap).
  destruct (H2 x Hx) as (wr' & Hwr' & Hl). rewrite Hi in Hwr'. right. congruence.
Qed.

(** Un-posted receives of the batch are rolled back and released. *)
Lemma track_recvs_rest sz h L batch es fe s :
  owner_inv sz h None [] L s.2 → rx_waiting PostedRecv batch s.2 →
  wp (track_recvs batch es 0 fe) (λ r s', r = Ok fe ∧ s'.1 = s.1 ∧ owner_inv sz h None [] L s'.2 ∧
    router s'.2 = router s.2 ∧ same_book (pool s.2) (pool s'.2) ∧ rx_waiting Free batch s'.2 ∧
    (∀ i, i ∉ indices batch → slots (pool s'.2) !! i = slots (pool s.2) !! i)) s.
Proof.
  induction batch as [|x batch IH] in s |- *; intros Ho Hw; simpl.
  { split_and!; try done. split; [constructor|]. by intros ? ?%not_elem_of_nil. }
  destruct (rx_waiting_app_inv PostedRecv [x] batch s.2 Hw) as (Hwx & Hwb & Hdis).
  destruct x as [[id seq] ch].
  assert (wp (_ ← on_buffers (rollback_post id Rx); on_buffers (release id)) (λ r s', r = Ok tt ∧ s'.1 = s.1 ∧
    owner_inv sz h None [] L s'.2 ∧ router s'.2 = router s.2 ∧ same_book (pool s.2) (pool s'.2) ∧
    rx_waiting Free [(id, seq, ch)] s'.2 ∧
    (∀ i, i ∉ indices [(id, seq, ch)] → slots (pool s'.2) !! i = slots (pool s.2) !! i)) s) as Hone.
  { apply wp_bind, (buffers_one (λ id, rollback_post id Rx)), (for_buffers_one _ rx_pending_slot (id, seq, ch)).
    eapply wp_mono; [by apply (rollback_recvs_spec sz h L [(id, seq, ch)])|].
    intros r s1 (-> & Hs1 & Ho1 & Hr1 & Hb1 & Hw1 & Hf1). apply (buffers_one release).
    eapply wp_mono; [by apply (release_recvs_spec sz h L [(id, seq, ch)])|].
    intros r s2 (-> & Hs2 & Ho2 & Hr2 & Hb2 & Hw2 & Hf2). split; [done|]. split; [by rewrite Hs2|].
    split; [done|]. split; [by rewrite Hr2|]. split; [by eapply same_book_trans|]. split; [done|].
    intros i Hi. by rewrite Hf2, Hf1. }
  change (wp (_ ← on_buffers (rollback_post id Rx); _ ← on_buffers (release id); track_recvs batch es 0 fe)
    (λ r s', r = Ok fe ∧ s'.1 = s.1 ∧ owner_inv sz h None [] L s'.2 ∧
    router s'.2 = router s.2 ∧ same_book (pool s.2) (pool s'.2) ∧ rx_waiting Free ([(id, seq, ch)] ++ batch) s'.2 ∧
    (∀ i, i ∉ indices ([(id, seq, ch)] ++ batch) → slots (pool s'.2) !! i = slots (pool s.2) !! i)) s).
  assert (∀ Q, wp (_ ← (_ ← on_buffers (rollback_post id Rx); on_buffers (release id)); track_recvs batch es 0 fe) Q s →
    wp (_ ← on_buffers (rollback_post id Rx); _ ← on_buffers (release id); track_recvs batch es 0 fe) Q s) as Hassoc.
  { intros Q. unfold wp. cbv [mbind pr_mbind]. by destruct (on_buffers (rollback_post id Rx) s) as [[[[]|e] s1]|]. }
  apply Hassoc, wp_bind. eapply wp_mono; [exact Hone|].
  intros r s1 (-> & Hs1 & Ho1 & Hr1 & Hb1 & Hw1 & Hf1).
  eapply wp_mono; [apply IH; [done|]|].
  { eapply rx_waiting_other; [exact Hwb| |exact Hr1|exact Hf1]. intros i Hi Hi'. by apply (Hdis i). }
  intros r s2 (-> & Hs2 & Ho2 & Hr2 & Hb2 & Hw2 & Hf2). split; [done|]. split; [by rewrite Hs2|].
  split; [done|]. split; [by rewrite Hr2|]. split; [by eapply same_book_trans|]. split.
  - apply rx_waiting_app; [apply Hw| |done]. by eapply rx_waiting_other.
  - intros i Hi. rewrite indices_app in Hi. rewrite Hf2, Hf1; set_solver.
Qed.

Lemma track_recvs_spec sz h L batch es posted fe s :
  owner_inv sz h None [] L s.2 → rx_waiting PostedRecv batch s.2 → tokens_ok s.1 batch es →
  (posted ≤ List.length batch)%nat →
  fresh_identities (Lane.id s.1) batch (registered_rx_by_identity (router s.2)) →
  wp (track_recvs batch es posted fe) (λ r s', r = Ok fe ∧ s'.1 = s.1 ∧ owner_inv sz h None [] L s'.2 ∧
    same_book (pool s.2) (pool s'.2) ∧
    registered_rx_by_identity (router s'.2)
      = register_all (Lane.id s.1) (take posted batch) (registered_rx_by_identity (router s.2)) ∧
    entries_added (Lane.id s.1) s.2 s'.2 (take posted batch) ∧ rx_waiting Free (drop posted batch) s'.2 ∧
    (∀ i, i ∉ indices (drop posted batch) → slots (pool s'.2) !! i = slots (pool s.2) !! i)) s.
Proof.
  induction posted as [|posted IH] in batch, es, s |- *; intros Ho Hw Htok Hle Hfresh.
  { eapply wp_mono; [by apply (track_recvs_rest sz h L)|].
    intros r s' (-> & Hs' & Ho' & Hr' & Hb' & Hw' & Hf'). rewrite take_0, drop_0. unfold entries_added.
    rewrite Hr'. split_and!; try done. by intros ? ?%not_elem_of_nil. }
  destruct batch as [|x batch]; simpl in Hle; [lia|]. inversion Htok as [|? e ? es' Hdec Htok']; subst.
  destruct (rx_waiting_cons _ _ _ _ Hw) as (Hwb & Hni & (b & Hb & Hk & Hst) & Hn & Hg & Hi).
  destruct x as [[id seq] ch]. simpl. apply wp_bind. unfold wp at 1. simpl.
  apply wp_bind_catch, wp_zoom.
  eapply wp_mono; [apply (track_registered_rx_spec sz h None [] L _ _ seq ch s.2 Ho Hdec); [done|]|].
  { exists b. by split_and!. }
  destruct Hfresh as [Hnd Hm]. intros [[]|e'] o1 (Ho1 & Hp1 & Hr1).
  2:{ exfalso. destruct Hr1 as (_ & _ & [[? Hid]|[wr Hwr]]).
      - specialize (Hm (id, seq, ch) (list_elem_of_here _ _)). simpl in Hm, Hid. congruence.
      - by apply (Hn wr). }
  destruct Hr1 as [Hid1 Hent1]. simpl in Hid1, Hent1.
  assert (∀ i, i ≠ index id → no_entry s.2 i → no_entry o1 i) as Hne1.
  { intros i Hne Hno wr Hwr%Hent1. destruct Hwr as [[_ Hwr]|[-> _]]; [by apply (Hno wr)|done]. }
  eapply wp_mono; [apply (IH batch es' (s.1, o1)); [done| |done|lia|]|].
  - eapply rx_waiting_frame; [exact Hwb|]. intros i Hin. simpl. rewrite Hp1. split; [done|].
    apply Hne1; [by intros ->|]. apply list_elem_of_fmap in Hin as (id' & -> & (y & -> & Hy)%list_elem_of_fmap).
    by apply (rw_slot _ _ _ Hwb).
  - simpl. rewrite Hid1. by apply (fresh_register _ (id, seq, ch)).
  - simpl. intros r s' (-> & Hs' & Ho' & Hb' & Hreg & [Hadd1 Hadd2] & Hw' & Hf').
    rewrite Hp1 in Hb', Hf'. split_and!; try done; [by rewrite Hreg, Hid1|].
    assert (index id ∉ indices (take posted batch)) as Hni'.
    { intros Hin. apply Hni. change (index id ∈ indices batch).
      rewrite <- (take_drop posted batch), indices_app. set_solver. }
    split.
    + intros i Hi' wr. change (i ∉ index id :: indices (take posted batch)) in Hi'.
      apply not_elem_of_cons in Hi' as [Hi1 Hi2]. rewrite Hadd1 by done. rewrite Hent1. naive_solver.
    + intros y [->|Hy]%elem_of_cons; [|by apply Hadd2]. simpl.
      eexists. split; [apply Hadd1; [done|]; apply Hent1; by right|]. unfold wr_lane, wr_token.
      cbn [wr_user_ctx]. by rewrite Hdec.
Qed.

(** Dropped senders change nothing else. *)
Lemma dropping_spec {A} senders (m : PR LaneOwner Error A) (Q : Result A → LaneOwner → Prop) s :
  (∀ e s' x, Q (Err e) s' → Q (Err e) (s'.1, deliver x s'.2)) → wp m Q s → wp (dropping senders m) Q s.
Proof.
  intros HQ Hm. unfold dropping. apply wp_bind_catch. eapply wp_mono; [exact Hm|].
  intros [a|e] s1 H1; [done|]. apply wp_bind. eapply wp_mono.
  - apply (wp_for _ _ (λ s', Q (Err e) s') (λ _ _, False)); [done|].
    intros ch s2 _ H2. apply wp_zoom. unfold wp. simpl. by apply HQ.
  - by intros [[]|] ?.
Qed.

Lemma tokens_ok_same l l' batch es : same_lane l l' → tokens_ok l batch es → tokens_ok l' batch es.
Proof.
  intros (Hi & Hg & _). unfold tokens_ok, token. rewrite Hi, Hg. done.
Qed.

Lemma lane_valid_same l l' : same_lane l l' → lane_valid l → lane_valid l'.
Proof. intros (Hi & Hg & _). unfold lane_valid. by rewrite Hi, Hg. Qed.

(** A prefix of the window is posted; the other slots are free again. *)
Definition window_post sz h L (pending : list RxPending) s (r : Result unit) s' : Prop :=
  ∃ k, (k ≤ List.length pending)%nat ∧ (r = Ok tt → k = List.length pending) ∧ same_lane s.1 s'.1 ∧
    owner_inv sz h None [] L s'.2 ∧ same_book (pool s.2) (pool s'.2) ∧
    registered_rx_by_identity (router s'.2)
      = register_all (Lane.id s.1) (take k pending) (registered_rx_by_identity (router s.2)) ∧
    entries_added (Lane.id s.1) s.2 s'.2 (take k pending) ∧ rx_waiting Free (drop k pending) s'.2 ∧
    (∀ i, i ∉ indices pending → slots (pool s'.2) !! i = slots (pool s.2) !! i).

Lemma window_post_deliver sz h L pending s e s' x :
  window_post sz h L pending s (Err e) s' → window_post sz h L pending s (Err e) (s'.1, deliver x s'.2).
Proof.
  intros (k & ? & ? & ? & Ho & ? & ? & ? & [] & ?). exists k. split_and!; try done. by apply deliver_inv.
Qed.

(** The un-posted rest is released after a failed batch. *)
Lemma release_rest_spec sz h L batch rest k e s s' :
  (k ≤ List.length batch)%nat → NoDup (indices (batch ++ rest)) → same_lane s.1 s'.1 →
  owner_inv sz h None [] L s'.2 → same_book (pool s.2) (pool s'.2) →
  registered_rx_by_identity (router s'.2)
    = register_all (Lane.id s.1) (take k batch) (registered_rx_by_identity (router s.2)) →
  entries_added (Lane.id s.1) s.2 s'.2 (take k batch) → rx_waiting Free (drop k batch) s'.2 → rx_waiting Allocated rest s'.2 →
  (∀ i, i ∉ indices (batch ++ rest) → slots (pool s'.2) !! i = slots (pool s.2) !! i) →
  wp (_ ← on_buffers (release_unposted_rx_window (rx_pending_slot <$> rest)); pr_throw (A := unit) e)
    (λ r s'', r = Err e ∧ window_post sz h L (batch ++ rest) s r s'') s'.
Proof.
  intros Hk Hnd Hl Ho Hb Hreg Hadd Hfree Hrest Hf. apply wp_bind.
  eapply wp_mono; [by apply (release_recvs_spec sz h L)|].
  intros r s2 (-> & Hs2 & Ho2 & Hr2 & Hb2 & Hw2 & Hf2). fold (indices rest) in Hf2.
  assert (NoDup (indices (drop k batch ++ rest))) as Hnd'.
  { rewrite <- (take_drop k batch), <- app_assoc, indices_app in Hnd. by apply NoDup_app in Hnd as (_ & _ & ?). }
  split; [done|]. exists k. rewrite take_app_le, drop_app_le by done. rewrite length_app. split; [lia|]. split; [done|].
  split; [by rewrite Hs2|]. split; [done|]. split; [by eapply same_book_trans|]. split; [by rewrite Hr2|].
  split; [unfold entries_added; by rewrite Hr2|]. split.
  - apply rx_waiting_app; [done| |done]. eapply rx_waiting_other; [exact Hfree| |exact Hr2|exact Hf2].
    rewrite indices_app in Hnd'. apply NoDup_app in Hnd' as (_ & Hd & _). done.
  - intros i Hi. rewrite Hf2; [by apply Hf|]. rewrite indices_app in Hi. set_solver.
Qed.

(** One iteration of the loop. *)
Lemma post_recv_batches_S fuel (pending : list RxPending) :
  pending ≠ [] →
  post_recv_batches (J := J) (Seg := Seg) (S fuel) pending =
    (n ← pr_gets (λ s : LaneOwner, post_list_size s.1);
     '(entries, posted) ← dropping (snd <$> pending) (post_recv_stage (take n pending) pending);
     _ ← dropping (snd <$> drop (posted_len posted) pending)
       (first_error ← track_recvs (take n pending) entries (posted_len posted)
          (native_error "post_jetty_recv_wr_list" <$> batch_error posted);
        match first_error with
        | Some error =>
            _ ← on_buffers (release_unposted_rx_window (rx_pending_slot <$> drop n pending)); pr_throw error
        | None => mret tt
        end);
     post_recv_batches fuel (drop n pending)).
Proof. by destruct pending. Qed.

Lemma post_recv_batches_spec sz h L fuel pending s :
  owner_inv sz h None [] L s.2 → lane_valid s.1 → is_Some (segment (pool s.2)) →
  rx_waiting Allocated pending s.2 → (List.length pending ≤ fuel)%nat →
  fresh_identities (Lane.id s.1) pending (registered_rx_by_identity (router s.2)) →
  wp (post_recv_batches fuel pending) (window_post sz h L pending s) s.
Proof.
  assert (∀ s, owner_inv sz h None [] L s.2 → window_post sz h L [] s (Ok tt) s) as Hnil.
  { intros s0 Ho. exists 0%nat. simpl. do 6 (split; [done|]). split; [split; [done|]|split; [|done]].
    - by intros ? ?%not_elem_of_nil.
    - split; [constructor|by intros ? ?%not_elem_of_nil]. }
  induction fuel as [|fuel IH] in pending, s |- *; intros Ho Hl Hseg Hw Hfuel Hfresh;
    (destruct (decide (pending = [])) as [->|Hpe]; [by apply Hnil|]).
  { destruct pending; [done|]. simpl in Hfuel. lia. }
  rewrite post_recv_batches_S by done. apply wp_bind_gets. set (n := post_list_size s.1).
  set (batch := take n pending). set (rest := drop n pending).
  assert (pending = batch ++ rest) as Hsplit by (symmetry; apply take_drop).
  assert (NoDup (indices pending)) as Hnd by apply Hw. clearbody batch rest. subst pending.
  apply wp_bind. apply dropping_spec.
  { intros e s' x Hpost. by apply window_post_deliver. }
  eapply wp_mono; [by apply (post_recv_stage_spec sz h L batch rest s)|].
  intros [[es posted]|e] s1 (Hl1 & Ho1 & Hr1 & Hb1 & Hf1 & Hres).
  2:{ exists 0%nat. rewrite drop_0. unfold entries_added. rewrite Hr1. split_and!; try done; [lia|].
      by intros ? ?%not_elem_of_nil. }
  destruct Hres as (Hple & Hpfull & Hne & Htok & Hwb & Hwr).
  apply wp_bind, dropping_spec. { intros e s' x Hpost. by apply window_post_deliver. }
  apply wp_bind. eapply wp_mono.
  { apply (track_recvs_spec sz h L); [done|done|by eapply tokens_ok_same|done|].
    destruct Hl1 as [Hid1 _]. rewrite Hid1, Hr1. by eapply fresh_sub. }
  intros r s2 (-> & Hs2 & Ho2 & Hb2 & Hreg2 & Hadd2 & Hw2 & Hf2).
  assert (Lane.id s1.1 = Lane.id s.1) as Hid1 by apply Hl1. rewrite Hid1, Hr1 in Hreg2.
  assert (∀ i, i ∈ indices rest → i ∉ indices batch) as Hdis.
  { rewrite indices_app in Hnd. apply NoDup_app in Hnd as (_ & Hd & _). intros i Hi Hi'. by apply (Hd i). }
  assert (∀ k i, i ∈ indices rest → i ∉ indices (take k batch) ∧ i ∉ indices (drop k batch)) as Hdis'.
  { intros k i Hi. specialize (Hdis i Hi). rewrite <- (take_drop k batch), indices_app in Hdis. set_solver. }
  assert (rx_waiting Allocated rest s2.2) as Hwr2.
  { eapply rx_waiting_frame; [exact Hwr|]. intros i Hi. split; [by apply Hf2, Hdis'|].
    intros wr. rewrite (proj1 Hadd2) by by apply Hdis'.
    apply list_elem_of_fmap in Hi as (id & -> & (x & -> & Hx)%list_elem_of_fmap).
    by apply (rw_slot _ _ _ Hwr x Hx). }
  assert (entries_added (Lane.id s.1) s.2 s2.2 (take (posted_len posted) batch)) as Hadd.
  { unfold entries_added in *. by rewrite <- Hr1, <- Hid1. }
  assert (∀ i, i ∉ indices (batch ++ rest) → slots (pool s2.2) !! i = slots (pool s.2) !! i) as Hf.
  { intros i Hi. rewrite Hf2; [by apply Hf1|]. rewrite <- (take_drop (posted_len posted) batch), !indices_app in Hi.
    set_solver. }
  assert (same_lane s.1 s2.1) as Hl2 by by rewrite Hs2.
  destruct (batch_error posted) as [err|] eqn:Herr; cbn [fmap option_fmap option_map].
  - eapply wp_mono; [eapply (release_rest_spec sz h L batch rest (posted_len posted) _ s); try done|].
    { by eapply same_book_trans. }
    by intros r s3 [-> Hpost].
  - rewrite (Hpfull eq_refl) in *. rewrite firstn_all in *. rewrite drop_all in Hw2, Hf2.
    change (wp (post_recv_batches fuel rest) (window_post sz h L (batch ++ rest) s) s2). eapply wp_mono; [apply IH; [done|by eapply lane_valid_same| |done| |]|].
    + destruct Hb2 as (_ & -> & _). by destruct Hb1 as (_ & -> & _).
    + rewrite length_app in Hfuel. destruct batch; [done|]. simpl in Hfuel. lia.
    + destruct Hl2 as [-> _]. rewrite Hreg2. by apply fresh_app.
    + intros r s3 (k & Hk & Hkr & Hl3 & Ho3 & Hb3 & Hreg3 & Hadd3 & Hw3 & Hf3).
      exists (List.length batch + k)%nat. rewrite take_app_add, drop_app_add. rewrite length_app.
      split; [lia|]. split; [intros Hr; rewrite (Hkr Hr); done|]. split; [by eapply same_lane_trans|].
      split; [done|]. split; [by do 2 (eapply same_book_trans; [eassumption|])|].
      split. { rewrite Hreg3. destruct Hl2 as [-> _]. rewrite Hreg2. unfold register_all. by rewrite foldl_app. }
      assert (Lane.id s2.1 = Lane.id s.1) as Hid2 by apply Hl2. rewrite Hid2 in Hadd3.
      split; [|split; [done|]].
      * split.
        -- intros i Hi wr. rewrite indices_app in Hi. rewrite (proj1 Hadd3) by set_solver.
           apply Hadd. set_solver.
        -- intros x [Hx|Hx]%elem_of_app; [|by apply Hadd3]. destruct (proj2 Hadd x Hx) as (wr & Hwr' & Hlane).
           exists wr. split; [|done]. apply Hadd3; [|done]. intros Hin. apply (Hdis (index (rx_pending_slot x))); [|by apply indices_in].
           rewrite <- (take_drop k rest), indices_app. set_solver.
      * intros i Hi. rewrite Hf3; [by apply Hf|]. rewrite indices_app in Hi. set_solver.
Qed.

Lemma validate_identities_Ok r lane seen seqs :
  validate_identities r lane seen seqs = Ok tt →
  NoDup seqs ∧ ∀ q, q ∈ seqs → q ∉ seen ∧ registered_rx_by_identity r !! (lane, q) = None.
Proof.
  induction seqs as [|q seqs IH] in seen |- *; simpl.
  - intros _. split; [constructor|by intros ? ?%not_elem_of_nil].
  - case_decide as Hseen; [done|]. destruct (registered_rx_by_identity r !! (lane, q)) eqn:Hq; [done|].
    intros [Hnd Hall]%IH. split.
    + constructor; [|done]. intros Hin. apply (Hall q Hin). set_solver.
    + intros q' [->|Hin]%elem_of_cons; [done|]. destruct (Hall q' Hin). split; [set_solver|done].
Qed.

(** An outstanding slot is in use. *)
Lemma entry_used sz h L (o : Owner Seg) i wr :
  owner_inv sz h None [] L o → outstanding (router o) !! i = Some (Some wr) →
  ∃ b, slots (pool o) !! i = Some b ∧ state b ∈ posted_states.
Proof.
  intros Ho Hi. destruct (oi_entries _ _ _ _ _ _ Ho _ _ Hi) as (t & b & _ & <- & [Hb _] & _ & Hst & _).
  exists b. split; [done|]. rewrite Hst. unfold posted_states. destruct (operation t); simpl; set_solver.
Qed.

Lemma free_no_entry sz h L (o : Owner Seg) k i :
  owner_inv sz h None [] L o → is_free k (pool o) i → no_entry o i.
Proof.
  intros Ho (b & Hb & _ & Hf) wr Hwr. destruct (entry_used _ _ _ _ _ _ Ho Hwr) as (b' & Hb' & Hst).
  rewrite Hb in Hb'. injection Hb' as <-. rewrite Hf in Hst. unfold posted_states in Hst. set_solver.
Qed.

Lemma register_all_lookup lane (l : list RxPending) m x :
  NoDup ((λ x : RxPending, x.1.2) <$> l) → x ∈ l → register_all lane l m !! (lane, x.1.2) = Some x.2.
Proof.
  induction l as [|y l IH] in m |- *; [by intros _ ?%not_elem_of_nil|].
  intros [Hni Hnd]%NoDup_cons [->|Hin]%elem_of_cons; simpl; [|by apply IH].
  clear IH Hnd. revert m Hni. induction l as [|z l IH]; intros m Hni; simpl.
  - apply lookup_insert_eq.
  - apply not_elem_of_cons in Hni as [Hne Hni]. rewrite insert_insert_ne by congruence. by apply IH.
Qed.

(** [post_receive_window_registered]: the invariant is kept; every slot in use
    stays as it was; every free receive slot is still free or is outstanding;
    and on success every sequence has its waiter. *)
Definition rx_window_post sz h L seqs chs s (r : Result unit) s' : Prop :=
  same_lane s.1 s'.1 ∧ owner_inv sz h None [] L s'.2 ∧ keeps_used (pool s.2) (pool s'.2) ∧
  same_book (pool s.2) (pool s'.2) ∧
  entries_from (Lane.id s.1) s.2 s'.2 ∧
  (∀ i, is_free Rx (pool s.2) i →
     is_free Rx (pool s'.2) i ∨ ∃ wr, outstanding (router s'.2) !! i = Some (Some wr)) ∧
  (r = Ok tt → List.length seqs = List.length chs ∧
     ∀ q ch, (q, ch) ∈ zip seqs chs →
       registered_rx_by_identity (router s'.2) !! (Lane.id s.1, q) = Some ch).

Lemma rx_window_refused sz h L seqs chs s e :
  owner_inv sz h None [] L s.2 → rx_window_post sz h L seqs chs s (Err e) s.
Proof.
  intros Ho. split; [done|]. split; [done|]. split; [apply keeps_used_refl|]. split; [done|].
  split; [by apply entries_from_refl|]. split; [|done]. intros i Hi. by left.
Qed.

Lemma allocate_window_spec sz h L n s :
  owner_inv sz h None [] L s.2 →
  wp (on_buffers (allocate_rx_window n)) (λ r s', s'.1 = s.1 ∧ owner_inv sz h None [] L s'.2 ∧
    router s'.2 = router s.2 ∧ keeps_used (pool s.2) (pool s'.2) ∧ same_book (pool s.2) (pool s'.2) ∧
    match r with
    | Ok ids => List.length ids = n ∧ NoDup (index <$> ids) ∧
        (∀ i, i ∉ index <$> ids → slots (pool s'.2) !! i = slots (pool s.2) !! i) ∧
        ∀ id, id ∈ ids → 1 ≤ Urma.generation id < 65536 ∧ is_free Rx (pool s.2) (index id) ∧
          Z.of_nat (index id) < 65536 ∧
          ∃ b, holds (pool s'.2) id b ∧ kind b = Rx ∧ state b = Allocated
    | Err _ => pool s'.2 = pool s.2
    end) s.
Proof.
  intros Ho. eapply wp_mono.
  { apply (on_buffers_spec sz h L); [exact Ho|].
    eapply wp_mono; [apply (allocate_rx_window_spec sz h n); apply Ho|].
    intros r p' (Hp' & Hb & Hku & Hr). split; [exact Hp'|].
    split; [|exact (conj Hku (conj Hb Hr))]. intros i wr Hi.
    destruct (entry_used _ _ _ _ _ _ Ho Hi) as (b & Hbi & Hst). rewrite Hbi. apply Hku; [done|].
    intros Hf. rewrite Hf in Hst. unfold posted_states in Hst. set_solver. }
  intros [ids|e] s' (Hs' & Ho' & Hr' & Hku & Hb & Hr); split_and!; try done.
  - apply Hr.
  - apply Hr.
  - apply Hr.
  - intros id Hid. destruct Hr as (_ & _ & _ & Hall). destruct (Hall id Hid) as (? & Hf & Hx).
    split_and!; try done; try lia. destruct Hf as (b & Hbi & _).
    apply lookup_lt_Some in Hbi. pose proof (inv_count _ _ _ (oi_pool _ _ _ _ _ _ Ho)). lia.
Qed.

Lemma zip3_facts {A B C} (l1 : list A) (l2 : list B) (l3 : list C) :
  List.length l1 = List.length l2 → List.length l2 = List.length l3 →
  (λ x : A * B * C, x.1.1) <$> zip (zip l1 l2) l3 = l1 ∧
  (λ x : A * B * C, x.1.2) <$> zip (zip l1 l2) l3 = l2 ∧
  ∀ b c, (b, c) ∈ zip l2 l3 → ∃ a, (a, b, c) ∈ zip (zip l1 l2) l3.
Proof.
  revert l2 l3. induction l1 as [|a l1 IH]; intros [|b l2] [|c l3] H1 H2; try done; simpl in H1, H2.
  { split; [done|]. split; [done|]. by intros ?? ?%not_elem_of_nil. }
  destruct (IH l2 l3) as (Ha & Hb & Hc); [lia|lia|]. 
  change (zip (zip (a :: l1) (b :: l2)) (c :: l3)) with ((a, b, c) :: zip (zip l1 l2) l3).
  change (zip (b :: l2) (c :: l3)) with ((b, c) :: zip l2 l3). rewrite !fmap_cons, Ha, Hb. split; [done|]. split; [done|].
  intros b' c' [[= -> ->]|Hin]%elem_of_cons; [exists a; by left|]. destruct (Hc _ _ Hin) as [a' ?].
  exists a'. by right.
Qed.

Lemma post_receive_window_spec sz h L seqs chs s :
  owner_inv sz h None [] L s.2 → lane_valid s.1 → is_Some (segment (pool s.2)) →
  wp (post_receive_window_registered seqs chs) (rx_window_post sz h L seqs chs s) s.
Proof.
  intros Ho Hl Hseg. unfold post_receive_window_registered. apply wp_bind. apply dropping_spec.
  { intros e s' x (H1 & H2 & H3 & H4 & H5 & H6 & _). split; [done|]. split; [by apply deliver_inv|].
    split; [done|]. split; [done|]. split; [done|]. by split. }
  apply wp_bind_gets. apply wp_bind_guard; [by intros; apply rx_window_refused|]. intros _.
  apply wp_bind_guard; [by intros; apply rx_window_refused|].
  intros [_ Hlen%negb_false_iff%Nat.eqb_eq]%orb_false_iff.
  apply wp_bind_lift; [|by intros; apply rx_window_refused]. intros [] [Hnd Hfresh]%validate_identities_Ok.
  eapply wp_mono; [by apply (allocate_window_spec sz h L)|].
  intros [ids|e] s1 (Hs1 & Ho1 & Hr1 & Hku1 & Hb1 & Hres).
  2:{ destruct s1 as [l1 o1]; simpl in *; subst l1.
      split; [done|]. split; [done|]. split; [done|]. split; [done|].
      split; [apply entries_from_refl; simpl; by rewrite Hr1|]. split; [|done].
      intros i Hi. left. simpl. by rewrite Hres. }
  destruct Hres as (Hlids & Hndi & Hfr1 & Hids).
  destruct (zip3_facts ids seqs chs Hlids Hlen) as (Hz1 & Hz2 & Hz3).
  set (pending := zip (zip ids seqs) chs) in *.
  assert (rx_waiting Allocated pending s1.2) as Hw.
  { split; [change (rx_pending_slot <$> pending) with ((λ x : SlotId * Z * nat, x.1.1) <$> pending); by rewrite Hz1|].
    intros x Hx. assert (rx_pending_slot x ∈ ids) as Hin.
    { rewrite <- Hz1. by apply (list_elem_of_fmap_2 (λ x : SlotId * Z * nat, x.1.1)). }
    destruct (Hids _ Hin) as (Hg & Hf & Hi & Hx'). split; [done|]. split; [|done].
    unfold no_entry. rewrite Hr1. by eapply free_no_entry. }
  assert (indices pending = index <$> ids) as Hind.
  { unfold indices. change (rx_pending_slot <$> pending) with ((λ x : SlotId * Z * nat, x.1.1) <$> pending). by rewrite Hz1. }
  eapply wp_mono.
  { apply (post_recv_batches_spec sz h L); [exact Ho1|by rewrite Hs1| |exact Hw|lia|].
    - by destruct Hb1 as (_ & -> & _).
    - split; [by rewrite Hz2|]. intros x Hx. rewrite Hr1, Hs1. apply Hfresh. rewrite <- Hz2.
      by apply (list_elem_of_fmap_2 (λ x : SlotId * Z * nat, x.1.2)). }
  intros r s2 (k & Hk & Hkr & Hl2 & Ho2 & Hb2 & Hreg & Hadd & Hfree & Hf2). rewrite Hs1 in Hl2, Hreg, Hadd.
  split; [done|]. split; [done|].
  assert (∀ i b, i ∈ indices pending → slots (pool s.2) !! i = Some b → kind b = Rx ∧ state b = Free) as Hwas.
  { rewrite Hind. intros i b (id & -> & Hid)%list_elem_of_fmap Hb.
    destruct (Hids id Hid) as (_ & (b' & Hb' & ? & ?) & _). by simplify_eq. }
  split; [|split; [by eapply same_book_trans|split; [|split]]].
  2:{ eapply entries_from_trans; [|by eapply entries_added_from]. apply entries_from_refl. by rewrite Hr1. }
  - intros i b Hb Hst. rewrite Hf2; [by apply Hku1|]. intros Hin. by destruct (Hwas i b Hin Hb).
  - intros i (b & Hb & Hkb & Hst). destruct (decide (i ∈ indices pending)) as [Hin|Hin].
    + rewrite <- (take_drop k pending), indices_app in Hin. apply elem_of_app in Hin as [Hin|Hin].
      * right. apply list_elem_of_fmap in Hin as (id & -> & (x & -> & Hx)%list_elem_of_fmap).
        destruct (proj2 Hadd x Hx) as (wr & Hwr & _). by exists wr.
      * left. apply list_elem_of_fmap in Hin as (id & -> & (x & -> & Hx)%list_elem_of_fmap).
        destruct (rw_slot _ _ _ Hfree x Hx) as ((b' & [Hb' _] & ? & ?) & _). by exists b'.
    + left. exists b. rewrite Hf2 by done. rewrite Hfr1 by by rewrite <- Hind. done.
  - intros ->. split; [done|]. intros q ch (id & Hin)%Hz3. rewrite Hreg, (Hkr eq_refl), firstn_all.
    apply (register_all_lookup _ pending _ (id, q, ch)); [by rewrite Hz2|done].
Qed.

(** ** Send windows *)

(** Slots of a send window: distinct, in state [st], none of them outstanding. *)
Record tx_waiting (st : SlotState) (ids : list SlotId) (o : Owner Seg) : Prop := {
  tw_nodup : NoDup (index <$> ids);
  tw_slot : ∀ id, id ∈ ids → (∃ b, holds (pool o) id b ∧ kind b = Tx ∧ state b = st) ∧ no_entry o (index id);
}.

Lemma tx_waiting_frame st ids o o' :
  tx_waiting st ids o →
  (∀ i, i ∈ index <$> ids → slots (pool o') !! i = slots (pool o) !! i ∧ (no_entry o i → no_entry o' i)) →
  tx_waiting st ids o'.
Proof.
  intros [Hnd Hs] Hf. split; [done|]. intros id Hid. destruct (Hs id Hid) as ((b & [Hb Hg] & Hk & Hst) & Hn).
  destruct (Hf (index id)) as [Hsl Hn']; [by apply list_elem_of_fmap_2|]. split; [|by apply Hn'].
  exists b. split; [|done]. split; [by rewrite Hsl|done].
Qed.

Lemma tx_waiting_app_inv st l1 l2 o :
  tx_waiting st (l1 ++ l2) o →
  tx_waiting st l1 o ∧ tx_waiting st l2 o ∧ ∀ i, i ∈ index <$> l1 → i ∉ index <$> l2.
Proof.
  intros [Hnd Hs]. rewrite fmap_app in Hnd. apply NoDup_app in Hnd as (H1 & H2 & H3).
  split; [|split; [|done]]; (split; [done|]); intros id Hid; apply Hs; set_solver.
Qed.

(** Identities of slots in use fit a token. *)
Lemma holds_ranges sz h (p : Pool) id b :
  pool_inv sz h p → holds p id b → state b ≠ Free →
  1 ≤ Urma.generation id < 65536 ∧ Z.of_nat (index id) < 65536.
Proof.
  intros Hp [Hb Hg] Hst. destruct (inv_slot _ _ _ Hp _ _ Hb) as (_ & _ & Hr & Hnz). specialize (Hnz Hst).
  apply lookup_lt_Some in Hb. pose proof (inv_count _ _ _ Hp). lia.
Qed.

(** All slots of a list change between the states of a send lease. *)
Lemma tx_transitions_spec sz h L from to ids s :
  owner_inv sz h None [] L s.2 → tx_waiting from ids s.2 → from ≠ to →
  from ∈ lease_states LeaseTx → to ∈ lease_states LeaseTx →
  wp (on_buffers (pr_for (λ id, transition id from to) ids)) (λ r s', r = Ok tt ∧ s'.1 = s.1 ∧
    owner_inv sz h None [] L s'.2 ∧ router s'.2 = router s.2 ∧ same_book (pool s.2) (pool s'.2) ∧
    tx_waiting to ids s'.2 ∧
    (∀ i, i ∉ index <$> ids → slots (pool s'.2) !! i = slots (pool s.2) !! i)) s.
Proof.
  intros Ho Hw Hne Hf Ht. eapply wp_mono.
  { apply (on_buffers_spec sz h L); [exact Ho|]. eapply wp_mono.
    { apply (transitions_spec sz h from to ids); [apply Ho| | |done|].
      - intros ->. simpl in Hf. set_solver.
      - intros ->. simpl in Ht. set_solver.
      - intros id _ _ [] _ Hin; [|done]. exfalso. simpl in Hf, Hin. set_solver. }
    intros r p' (Hp' & Hb & Hfr & Hr). split; [exact Hp'|]. split; [|exact (conj Hb (conj Hfr Hr))].
    intros i wr Hi. apply Hfr. intros (id & -> & Hid)%list_elem_of_fmap. by apply (tw_slot _ _ _ Hw id Hid) in Hi as []. }
  intros [[]|e] s' (Hs' & Ho' & Hr' & Hb & Hfr & Hr).
  2:{ exfalso. apply Hr; [apply Hw|]. intros id Hid. destruct (tw_slot _ _ _ Hw id Hid) as ((b & ? & _ & ?) & _). by exists b. }
  destruct Hr as [Hnd Hids]. split_and!; try done. split; [done|]. intros id Hid.
  destruct (tw_slot _ _ _ Hw id Hid) as ((b & [Hb1 _] & Hk & _) & Hn).
  destruct (Hids id Hid) as (b' & [Hb' _] & _ & Hh). rewrite Hb1 in Hb'. injection Hb' as <-.
  split; [by eexists|]. unfold no_entry. by rewrite Hr'.
Qed.

Definition tx_slots (l : list TxPending) : list SlotId := tx_pending_slot <$> l.

Definition tx_tokens_ok (l : UrmaLane (J := J)) (batch : list TxPending) (es : list PostEntry) : Prop :=
  Forall2 (λ x e, WrToken_decode (user_ctx e) = Ok (token Send (tx_pending_slot x) l)) batch es.

Lemma prepare_sends_spec sz h L batch es0 s :
  owner_inv sz h None [] L s.2 → lane_valid s.1 → tx_waiting LeasedTx (tx_slots batch) s.2 →
  wp (prepare_sends batch es0) (λ r s', ∃ es, r = Ok (es0 ++ es, None) ∧ s'.1 = s.1 ∧
    owner_inv sz h None [] L s'.2 ∧ router s'.2 = router s.2 ∧ same_book (pool s.2) (pool s'.2) ∧
    tx_waiting SendPosted (tx_slots batch) s'.2 ∧
    (∀ i, i ∉ index <$> tx_slots batch → slots (pool s'.2) !! i = slots (pool s.2) !! i) ∧
    tx_tokens_ok s.1 batch es) s.
Proof.
  intros Ho Hl. induction batch as [|x batch IH] in es0, s, Ho, Hl |- *; intros Hw; simpl.
  { exists []. rewrite app_nil_r. split_and!; try done; [|constructor].
    split; [constructor|]. by intros ? ?%not_elem_of_nil. }
  destruct (tx_waiting_app_inv LeasedTx [tx_pending_slot x] (tx_slots batch) s.2 Hw) as (Hwx & Hwb & Hdis).
  destruct (tw_slot _ _ _ Hwx (tx_pending_slot x)) as ((b & Hb & Hk & Hst) & Hn); [by apply list_elem_of_singleton|].
  destruct (holds_ranges sz h _ _ _ (oi_pool _ _ _ _ _ _ Ho) Hb) as [Hg Hi]; [congruence|].
  destruct (token_encode_valid Send (tx_pending_slot x) s.1 Hl Hg Hi) as (u & Hu & Hu').
  apply wp_bind_catch. unfold prepare_send. destruct x as [[[id off] n] q].
  change (tx_pending_slot (id, off, n, q)) with id in *. apply wp_bind_gets.
  apply wp_bind_lift; [|by rewrite Hu]. intros u' Hu''. rewrite Hu in Hu''. injection Hu'' as <-.
  apply wp_bind. unfold mark_tx_lease_posted. apply (buffers_one (λ id, transition id LeasedTx SendPosted)).
  eapply wp_mono; [apply (tx_transitions_spec sz h L LeasedTx SendPosted [id]); try done; simpl; set_solver|].
  intros r s1 (-> & Hs1 & Ho1 & Hr1 & Hb1 & Hw1 & Hf1).
  change (wp (prepare_sends batch (es0 ++ [mkPostEntry off n u (Some q)])) (λ r s', ∃ es, r = Ok (es0 ++ es, None) ∧ s'.1 = s.1 ∧
    owner_inv sz h None [] L s'.2 ∧ router s'.2 = router s.2 ∧ same_book (pool s.2) (pool s'.2) ∧
    tx_waiting SendPosted (id :: tx_slots batch) s'.2 ∧
    (∀ i, i ∉ index id :: (index <$> tx_slots batch) → slots (pool s'.2) !! i = slots (pool s.2) !! i) ∧
    tx_tokens_ok s.1 ((id, off, n, q) :: batch) es) s1).
  eapply wp_mono; [apply IH; [done|by rewrite Hs1|]|].
  { eapply tx_waiting_frame; [exact Hwb|]. intros i Hin. split; [|unfold no_entry; by rewrite Hr1].
    apply Hf1. intros ->%list_elem_of_singleton. apply (Hdis (index id)); [by apply list_elem_of_singleton|done]. }
  intros r s2 (es & -> & Hs2 & Ho2 & Hr2 & Hb2 & Hw2 & Hf2 & Htok).
  exists (mkPostEntry off n u (Some q) :: es). rewrite <- app_assoc. split; [done|]. split; [by rewrite Hs2|].
  split; [done|]. split; [by rewrite Hr2|]. split; [by eapply same_book_trans|]. split; [|split].
  - split; [apply Hw|]. intros id' [->|Hid']%elem_of_cons; [|by apply Hw2].
    destruct (tw_slot _ _ _ Hw1 id) as ((b' & [Hb' Hg'] & Hk' & Hst') & _); [by apply list_elem_of_singleton|].
    split; [|unfold no_entry; by rewrite Hr2, Hr1]. exists b'. split; [|done]. split; [|done].
    rewrite Hf2; [done|]. apply (Hdis (index id)). by apply list_elem_of_singleton.
  - intros i [Hi1 Hi2]%not_elem_of_cons. rewrite Hf2 by done. apply Hf1. by intros ->%list_elem_of_singleton.
  - constructor; [done|]. by rewrite <- Hs1.
Qed.

(** Undone sends are back in the lease. *)
Lemma undo_sends_spec sz h L batch s :
  owner_inv sz h None [] L s.2 → tx_waiting SendPosted (tx_slots batch) s.2 →
  wp (undo_sends batch) (λ r s', r = Ok tt ∧ s'.1 = s.1 ∧ owner_inv sz h None [] L s'.2 ∧
    router s'.2 = router s.2 ∧ same_book (pool s.2) (pool s'.2) ∧ tx_waiting LeasedTx (tx_slots batch) s'.2 ∧
    (∀ i, i ∉ index <$> tx_slots batch → slots (pool s'.2) !! i = slots (pool s.2) !! i)) s.
Proof.
  intros Ho Hw. unfold undo_sends. apply for_buffers.
  assert (pr_for (λ x : TxPending, rollback_tx_lease_post (Seg := Seg) (tx_pending_slot x)) batch
    = pr_for (λ id, transition id SendPosted LeasedTx) (tx_slots batch)) as ->.
  { clear. induction batch as [|x batch IH]; [done|]. simpl. by rewrite IH. }
  apply (tx_transitions_spec sz h L SendPosted LeasedTx); try done; simpl; set_solver.
Qed.

(** Failing the window keeps everything but the window. *)
Lemma fail_window_spec {A} sz h L w e s :
  owner_inv sz h None [] (w :: L) s.2 →
  wp (fail_window (A := A) w e) (λ r s', r = Err e ∧ s'.1 = s.1 ∧ owner_inv sz h None [] (w :: L) s'.2 ∧
    same_router s.2 s'.2) s.
Proof.
  intros Ho. unfold fail_window. apply wp_bind, wp_zoom.
  eapply wp_mono; [apply (finish_posting_spec sz h None [] (w :: L) w); [done|set_solver]|].
  by intros r o' (-> & Ho' & Hr).
Qed.

(** What posting a send window leaves alone: the slots outside it, and the
    entries outside it. *)
Definition send_frame (lane : Z) (ids : list SlotId) (o o' : Owner Seg) : Prop :=
  entries_from lane o o' ∧
  ∀ i, i ∉ index <$> ids → slots (pool o') !! i = slots (pool o) !! i ∧
    ∀ wr, outstanding (router o') !! i = Some (Some wr) ↔ outstanding (router o) !! i = Some (Some wr).

Lemma send_frame_trans lane ids o1 o2 o3 :
  send_frame lane ids o1 o2 → send_frame lane ids o2 o3 → send_frame lane ids o1 o3.
Proof.
  intros [F1 H1] [F2 H2]. split; [by eapply entries_from_trans|]. intros i Hi.
  destruct (H1 i Hi) as [Hs1 He1], (H2 i Hi) as [Hs2 He2]. split; [congruence|]. intros wr. by rewrite He2.
Qed.
Lemma send_frame_sub lane ids ids' o o' :
  (∀ i, i ∈ index <$> ids → i ∈ index <$> ids') → send_frame lane ids o o' → send_frame lane ids' o o'.
Proof. intros Hsub [F Hf]. split; [done|]. intros i Hi. apply Hf. intros Hin. by apply Hi, Hsub. Qed.
Lemma send_frame_router lane ids o o' :
  router o' = router o → (∀ i, i ∉ index <$> ids → slots (pool o') !! i = slots (pool o) !! i) →
  send_frame lane ids o o'.
Proof.
  intros Hr Hf. split; [apply entries_from_refl; by rewrite Hr|]. intros i Hi. split; [by apply Hf|]. by rewrite Hr.
Qed.

Lemma post_send_stage_spec sz h L w batch s :
  owner_inv sz h None [] (w :: L) s.2 → lane_valid s.1 → is_Some (segment (pool s.2)) →
  tx_waiting LeasedTx (tx_slots batch) s.2 →
  wp (post_send_stage w batch) (λ r s', same_lane s.1 s'.1 ∧ credits s'.1 = credits s.1 ∧
    owner_inv sz h None [] (w :: L) s'.2 ∧ router s'.2 = router s.2 ∧
    (∀ i, i ∉ index <$> tx_slots batch → slots (pool s'.2) !! i = slots (pool s.2) !! i) ∧
    match r with
    | Ok (es, posted) => (posted_len posted ≤ List.length batch)%nat ∧
        (batch_error posted = None → posted_len posted = List.length batch) ∧ batch ≠ [] ∧
        segment (pool s'.2) = segment (pool s.2) ∧
        tx_tokens_ok s.1 batch es ∧ tx_waiting SendPosted (tx_slots batch) s'.2
    | Err _ => tx_waiting LeasedTx (tx_slots batch) s'.2
    end) s.
Proof.
  intros Ho Hl [seg Hseg] Hw. unfold post_send_stage. apply wp_bind.
  eapply wp_mono; [by apply (prepare_sends_spec sz h (w :: L))|].
  intros r s1 (es & -> & Hs1 & Ho1 & Hr1 & Hb1 & Hw1 & Hf1 & Htok). simpl.
  assert (segment (pool s1.2) = Some seg) as Hseg1 by (destruct Hb1 as (_ & -> & _); done).
  apply wp_bind_gets, wp_bind_lift.
  2:{ intros e He. unfold segment_handle in He. by rewrite Hseg1 in He. }
  intros seg' _. apply wp_bind_catch. eapply wp_mono.
  { apply (on_lane_jetty_spec _ (prefix_ok es)); [intros; apply on_handle_id|apply post_batch_prefix]. }
  intros [b|e] s2 (Hs2 & Hl2 & Hc2 & Hpost); rewrite Hs1 in Hl2, Hc2.
  - destruct Hpost as (Hle & Hfull & Hne). pose proof (Forall2_length _ _ _ Htok) as Hlen.
    unfold mret, pr_mret, wp. rewrite Hs2. split_and!; try done; [lia|intros Hn; rewrite Hfull by done; lia|
      by intros ->; destruct es|by rewrite Hseg1].
  - apply wp_bind. eapply wp_mono; [apply (undo_sends_spec sz h (w :: L)); by rewrite Hs2|].
    intros r s3 (-> & Hs3 & Ho3 & Hr3 & Hb3 & Hw3 & Hf3). eapply wp_mono; [by apply (fail_window_spec sz h L)|].
    intros r s4 (-> & Hs4 & Ho4 & Hr4 & Hsl4). rewrite Hs2 in Hr3, Hf3.
    split; [by rewrite Hs4, Hs3|]. split; [by rewrite Hs4, Hs3|]. split; [done|]. split; [by rewrite Hr4, Hr3|].
    split; [intros i Hi; rewrite Hsl4, Hf3, Hf1; done|]. eapply tx_waiting_frame; [exact Hw3|].
    intros i _. rewrite Hsl4. split; [done|]. unfold no_entry. by rewrite Hr4.
Qed.

(** ** The segment stays open *)

(** The segment is kept. *)
Definition same_segment (o o' : Owner Seg) : Prop := segment (pool o') = segment (pool o).
#[local] Instance same_segment_preorder : PreOrder same_segment.
Proof. split; [done|]. unfold same_segment. intros ???. congruence. Qed.

#[local] Hint Extern 1 (respects same_segment (pr_modify _)) =>
  apply respects_modify; intros; unfold same_segment; cbn [pool set_router set_windows];
  first [exact eq_refl | by case_match] : respects.

Lemma window_get_segment w : respects same_segment (window_get w).
Proof. unfold window_get. respects. Qed.
Lemma drop_tx_lease_segment l : respects same_segment (drop_tx_lease l).
Proof.
  unfold drop_tx_lease. destruct l as [l|]; [|respects]. apply respects_modify. intros o.
  unfold same_segment. simpl. by destruct (tx_core l).
Qed.
#[local] Hint Resolve window_get_segment drop_tx_lease_segment : respects.
Lemma window_clone_segment w : respects same_segment (window_clone w).
Proof. unfold window_clone, window_set. respects. Qed.
Lemma window_drop_segment w : respects same_segment (window_drop w).
Proof. unfold window_drop, window_set. respects. Qed.
#[local] Hint Resolve window_drop_segment : respects.
Lemma track_registered_tx_segment u q w : respects same_segment (track_registered_tx u q w).
Proof.
  unfold track_registered_tx, track_registered_tx_body, outstanding_place, outstanding_add, window_posted,
    window_set, up_router. respects.
Qed.

(** The sends of [ids] are outstanding. *)
Definition all_outstanding (ids : list SlotId) (o : Owner Seg) : Prop :=
  ∀ id, id ∈ ids → ∃ wr, outstanding (router o) !! index id = Some (Some wr).

(** The sends of the batch the provider did not accept. *)
Lemma track_sends_rest sz h L w batch es fe s :
  owner_inv sz h None [] L s.2 → tx_waiting SendPosted (tx_slots batch) s.2 →
  wp (track_sends w batch es 0 fe) (λ r s', r = Ok fe ∧ s'.1 = s.1 ∧ owner_inv sz h None [] L s'.2 ∧
    router s'.2 = router s.2 ∧ segment (pool s'.2) = segment (pool s.2) ∧
    tx_waiting LeasedTx (tx_slots batch) s'.2 ∧
    (∀ i, i ∉ index <$> tx_slots batch → slots (pool s'.2) !! i = slots (pool s.2) !! i)) s.
Proof.
  induction batch as [|x batch IH] in s |- *; intros Ho Hw.
  { split_and!; try done. split; [constructor|]. by intros ? ?%not_elem_of_nil. }
  destruct (tx_waiting_app_inv SendPosted [tx_pending_slot x] (tx_slots batch) s.2 Hw) as (Hwx & Hwb & Hdis).
  destruct x as [[[id off] n] q]. change (tx_pending_slot (id, off, n, q)) with id in *. cbn [track_sends].
  apply wp_bind. unfold rollback_tx_lease_post. apply (buffers_one (λ id, transition id SendPosted LeasedTx)).
  eapply wp_mono; [apply (tx_transitions_spec sz h L SendPosted LeasedTx [id]); try done; simpl; set_solver|].
  intros r s1 (-> & Hs1 & Ho1 & Hr1 & (_ & Hb1 & _) & Hw1 & Hf1).
  assert (∀ i, i ∈ index <$> tx_slots batch → i ≠ index id) as Hne.
  { intros i Hi ->. apply (Hdis (index id)); [by apply list_elem_of_singleton|done]. }
  eapply wp_mono; [apply IH; [done|]|].
  { eapply tx_waiting_frame; [exact Hwb|]. intros i Hi. split; [|unfold no_entry; by rewrite Hr1].
    apply Hf1. intros ->%list_elem_of_singleton. by apply Hne in Hi. }
  intros r s2 (-> & Hs2 & Ho2 & Hr2 & Hb2 & Hw2 & Hf2). split; [done|]. split; [by rewrite Hs2|].
  split; [done|]. split; [by rewrite Hr2|]. split; [by rewrite Hb2|]. split.
  - split; [apply Hw|]. intros id' [->|Hid']%elem_of_cons; [|by apply Hw2].
    destruct (tw_slot _ _ _ Hw1 id) as ((b' & [Hb' Hg'] & Hk' & Hst') & Hn'); [by apply list_elem_of_singleton|].
    split; [|unfold no_entry; by rewrite Hr2]. exists b'. split; [|done]. split; [|done].
    rewrite Hf2; [done|]. intros Hin. by apply Hne in Hin.
  - intros i [Hi1 Hi2]%not_elem_of_cons. rewrite Hf2 by done. apply Hf1. by intros ->%list_elem_of_singleton.
Qed.

Lemma track_sends_spec sz h L w batch es posted fe s :
  owner_inv sz h None [] (w :: L) s.2 → tx_waiting SendPosted (tx_slots batch) s.2 →
  tx_tokens_ok s.1 batch es → (posted ≤ List.length batch)%nat →
  wp (track_sends w batch es posted fe) (λ r s', r = Ok fe ∧ s'.1 = s.1 ∧
    owner_inv sz h None [] (w :: L) s'.2 ∧ segment (pool s'.2) = segment (pool s.2) ∧
    send_frame (Lane.id s.1) (tx_slots batch) s.2 s'.2 ∧ tx_waiting LeasedTx (tx_slots (drop posted batch)) s'.2 ∧
    all_outstanding (tx_slots (take posted batch)) s'.2) s.
Proof.
  induction posted as [|posted IH] in batch, es, s |- *; intros Ho Hw Htok Hle.
  { eapply wp_mono; [by apply (track_sends_rest sz h (w :: L))|].
    intros r s' (-> & Hs' & Ho' & Hr' & Hb' & Hw' & Hf'). rewrite take_0, drop_0.
    split_and!; try done; [by apply send_frame_router|]. by intros ? ?%not_elem_of_nil. }
  destruct batch as [|x batch]; simpl in Hle; [lia|]. inversion Htok as [|? e ? es' Hdec Htok']; subst.
  destruct (tx_waiting_app_inv SendPosted [tx_pending_slot x] (tx_slots batch) s.2 Hw) as (Hwx & Hwb & Hdis).
  destruct x as [[[id off] n] q]. change (tx_pending_slot (id, off, n, q)) with id in *. cbn [track_sends].
  destruct (tw_slot _ _ _ Hwx id) as ((b & Hb & Hk & Hst) & Hn); [by apply list_elem_of_singleton|].
  assert (∀ i, i ∈ index <$> tx_slots batch → i ≠ index id) as Hne.
  { intros i Hi ->. apply (Hdis (index id)); [by apply list_elem_of_singleton|done]. }
  apply wp_bind. unfold wp at 1. simpl. apply wp_bind, wp_zoom.
  eapply wp_mono; [apply (wp_respects same_segment); [apply window_clone_segment|];
    apply (window_clone_spec sz h None [] (w :: L) w); [done|set_solver]|].
  intros r o1 [(-> & Ho1 & Hr1 & Hsl1) Hseg1]. apply wp_bind_catch, wp_zoom. simpl.
  eapply wp_mono; [apply (wp_respects same_segment); [apply track_registered_tx_segment|];
    apply (track_registered_tx_spec sz h None [] (w :: L) _ _ q w o1 Ho1 Hdec); [done| |]|].
  { exists b. simpl. unfold holds. rewrite Hsl1. by destruct Hb. }
  { simpl. rewrite Hr1. exact Hn. }
  intros r o2 [(-> & Ho2 & Hsl2 & Hent) Hseg2]. simpl in Hent. rewrite Hr1 in Hent.
  assert (send_frame (Lane.id s.1) [id] s.2 o2) as Hfr1.
  { split.
    - intros i wr [[_ ?]|[_ ->]]%Hent; [by left|]. right. unfold wr_lane, wr_token. cbn [wr_user_ctx]. by rewrite Hdec.
    - intros i Hi. change (i ∉ [index id]) in Hi. rewrite list_elem_of_singleton in Hi.
      split; [by rewrite Hsl2, Hsl1|]. intros wr. rewrite Hent. naive_solver. }
  eapply wp_mono; [apply (IH batch es' (s.1, o2)); [done| |done|lia]|].
  { eapply tx_waiting_frame; [exact Hwb|]. intros i Hi. simpl. rewrite Hsl2, Hsl1. split; [done|].
    intros Hno wr Hwr%Hent. destruct Hwr as [[_ Hwr]|[-> _]]; [by apply (Hno wr)|]. by apply Hne in Hi. }
  simpl. intros r s' (-> & Hs' & Ho' & Hseg' & Hfr' & Hw' & Hall').
  split; [done|]. split; [done|]. split; [done|]. split; [by rewrite Hseg', Hseg2, Hseg1|]. split; [|split; [done|]].
  - eapply send_frame_trans; [|eapply send_frame_sub; [|exact Hfr']].
    + eapply send_frame_sub; [|exact Hfr1]. intros i ->%list_elem_of_singleton. by left.
    + intros i Hi. by right.
  - intros id' [->|Hid']%elem_of_cons; [|by apply Hall'].
    assert (index id ∉ index <$> tx_slots batch) as Hni by (intros Hin; by apply Hne in Hin).
    eexists. apply (proj2 Hfr' (index id) Hni). apply Hent. right. done.
Qed.

(** The window is posted up to some point; what is not outstanding is still in
    the lease. *)
Definition send_post sz h L w (pending : list TxPending) s (r : Result unit) s' : Prop :=
  same_lane s.1 s'.1 ∧ owner_inv sz h None [] (w :: L) s'.2 ∧
  send_frame (Lane.id s.1) (tx_slots pending) s.2 s'.2 ∧
  (∀ id, id ∈ tx_slots pending → no_entry s'.2 (index id) →
     ∃ b, holds (pool s'.2) id b ∧ state b = LeasedTx) ∧
  (r = Ok tt → all_outstanding (tx_slots pending) s'.2).

Lemma tx_waiting_leased ids o :
  tx_waiting LeasedTx ids o → ∀ id, id ∈ ids → no_entry o (index id) → ∃ b, holds (pool o) id b ∧ state b = LeasedTx.
Proof. intros Hw id Hid _. destruct (tw_slot _ _ _ Hw id Hid) as ((b & ? & _ & ?) & _). by exists b. Qed.

Lemma same_router_frame lane ids (o o' : Owner Seg) : same_router o o' → send_frame lane ids o o'.
Proof. intros [Hr Hs]. apply send_frame_router; [done|]. intros i _. by rewrite Hs. Qed.

Lemma post_send_batches_S fuel w (pending : list TxPending) :
  pending ≠ [] →
  post_send_batches (J := J) (Seg := Seg) (S fuel) w pending =
    (n ← pr_gets (λ s : LaneOwner, post_list_size s.1);
     '(entries, posted) ← post_send_stage w (take n pending);
     s ← pr_gets (λ s, s);
     c ← pr_expect (consume_remote_receives (posted_len posted) (credits s.1));
     _ ← on_lane (modify (set_credits c));
     first_error ← track_sends w (take n pending) entries (posted_len posted)
       (native_error "post_jetty_send_wr_list" <$> batch_error posted);
     match first_error with
     | Some error => fail_window w error
     | None => post_send_batches fuel w (drop n pending)
     end).
Proof. by destruct pending. Qed.

(** The parts of a window after its first batch. *)
Lemma send_rest_leased batch rest k o :
  tx_waiting LeasedTx (tx_slots (drop k batch)) o → all_outstanding (tx_slots (take k batch)) o →
  (∀ id, id ∈ tx_slots rest → no_entry o (index id) → ∃ b, holds (pool o) id b ∧ state b = LeasedTx) →
  ∀ id, id ∈ tx_slots (batch ++ rest) → no_entry o (index id) → ∃ b, holds (pool o) id b ∧ state b = LeasedTx.
Proof.
  intros Hd Ht Hr id Hid Hn. rewrite <- (take_drop k batch) in Hid. unfold tx_slots in Hid.
  rewrite !fmap_app in Hid. apply elem_of_app in Hid as [[Hid|Hid]%elem_of_app|Hid].
  - destruct (Ht id Hid) as [wr Hwr]. by apply Hn in Hwr.
  - by apply (tx_waiting_leased _ _ Hd).
  - by apply Hr.
Qed.

Lemma tx_slots_app l1 l2 : tx_slots (l1 ++ l2) = tx_slots l1 ++ tx_slots l2.
Proof. apply fmap_app. Qed.

Lemma post_send_batches_spec sz h L w fuel pending s :
  owner_inv sz h None [] (w :: L) s.2 → lane_valid s.1 → is_Some (segment (pool s.2)) →
  tx_waiting LeasedTx (tx_slots pending) s.2 → (List.length pending ≤ fuel)%nat →
  Z.of_nat (List.length pending) ≤ remote_receives_available (credits s.1) →
  wp (post_send_batches fuel w pending) (send_post sz h L w pending s) s.
Proof.
  assert (∀ s, owner_inv sz h None [] (w :: L) s.2 →
    wp (on_owner (finish_posting w None)) (send_post sz h L w [] s) s) as Hnil.
  { intros s0 Ho. apply wp_zoom. eapply wp_mono;
      [apply (finish_posting_spec sz h None [] (w :: L) w); [done|set_solver]|].
    intros r o' (-> & Ho' & Hr). split; [done|]. split; [done|]. split; [by apply same_router_frame|].
    split; [by intros ? ?%not_elem_of_nil|]. by intros _ ? ?%not_elem_of_nil. }
  induction fuel as [|fuel IH] in pending, s |- *; intros Ho Hl Hseg Hw Hfuel Hcred;
    (destruct (decide (pending = [])) as [->|Hpe]; [by apply Hnil|]).
  { destruct pending; [done|]. simpl in Hfuel. lia. }
  rewrite post_send_batches_S by done. apply wp_bind_gets. set (n := post_list_size s.1).
  set (batch := take n pending). set (rest := drop n pending).
  assert (pending = batch ++ rest) as Hsplit by (symmetry; apply take_drop).
  clearbody batch rest. subst pending. rewrite tx_slots_app in Hw.
  destruct (tx_waiting_app_inv _ _ _ _ Hw) as (Hwb & Hwr & Hdis).
  assert (∀ i, i ∈ index <$> tx_slots rest → i ∉ index <$> tx_slots batch) as Hdis'.
  { intros i Hi Hi'. by apply (Hdis i). }
  assert (∀ o', send_frame (Lane.id s.1) (tx_slots batch) s.2 o' → tx_waiting LeasedTx (tx_slots rest) o') as Hwrest.
  { intros o' Hfr. eapply tx_waiting_frame; [exact Hwr|]. intros i Hi. destruct (proj2 Hfr i (Hdis' i Hi)) as [Hs He].
    split; [done|]. intros Hno wr Hwr'%He. by apply (Hno wr). }
  assert (∀ i, i ∈ index <$> tx_slots batch → i ∈ index <$> tx_slots (batch ++ rest)) as Hsub1.
  { intros i Hi. rewrite tx_slots_app, fmap_app. set_solver. }
  apply wp_bind. eapply wp_mono; [by apply (post_send_stage_spec sz h L w batch s)|].
  intros [[es posted]|e] s1 (Hl1 & Hc1 & Ho1 & Hr1 & Hf1 & Hres).
  2:{ assert (send_frame (Lane.id s.1) (tx_slots batch) s.2 s1.2) as Hfr by by apply send_frame_router.
      split; [done|]. split; [done|]. split; [by eapply send_frame_sub|]. split; [|done].
      apply (send_rest_leased batch rest 0); [by rewrite drop_0|by intros ? ?%not_elem_of_nil|].
      by apply tx_waiting_leased, Hwrest. }
  destruct Hres as (Hple & Hpfull & Hne & Hseg1 & Htok & Hw1).
  assert (send_frame (Lane.id s.1) (tx_slots batch) s.2 s1.2) as Hfr1 by by apply send_frame_router.
  rewrite length_app in Hfuel, Hcred.
  apply wp_bind_gets. apply wp_bind. unfold wp at 1, pr_expect, consume_remote_receives. rewrite Hc1.
  destruct (Z.ltb_spec (remote_receives_available (credits s.1)) (Z.of_nat (posted_len posted))); [lia|]. simpl.
  apply wp_bind. set (c := mkLaneCredits _). unfold wp at 1, on_lane. simpl. set (s2 := (set_credits c s1.1, s1.2)).
  assert (same_lane s.1 s2.1) as Hl2 by by destruct Hl1.
  apply wp_bind. eapply wp_mono.
  { apply (track_sends_spec sz h L w batch es _ _ s2); [done|done| |done].
    unfold tx_tokens_ok, token in *. destruct Hl2 as (-> & -> & _). exact Htok. }
  intros r s3 (-> & Hs3 & Ho3 & Hseg3 & Hfr3 & Hw3 & Hall3).
  assert (Lane.id s2.1 = Lane.id s.1) as Hid2 by apply Hl2. rewrite Hid2 in Hfr3.
  assert (send_frame (Lane.id s.1) (tx_slots batch) s.2 s3.2) as Hfr by by eapply send_frame_trans.
  destruct (batch_error posted) as [err|] eqn:Herr; cbn [fmap option_fmap option_map].
  - eapply wp_mono; [by apply (fail_window_spec sz h L)|]. intros r s4 (-> & Hs4 & Ho4 & Hsr4).
    split; [by rewrite Hs4, Hs3|]. split; [done|].
    assert (send_frame (Lane.id s.1) (tx_slots batch) s.2 s4.2) as Hfr4 by (eapply send_frame_trans; [exact Hfr|by apply same_router_frame]).
    split; [by eapply send_frame_sub|]. split; [|done]. destruct Hsr4 as [Hr4 Hsl4].
    apply (send_rest_leased batch rest (posted_len posted)).
    + eapply tx_waiting_frame; [exact Hw3|]. intros i _. rewrite Hsl4. split; [done|]. unfold no_entry. by rewrite Hr4.
    + intros id Hid. rewrite Hr4. by apply Hall3.
    + by apply tx_waiting_leased, Hwrest.
  - pose proof (Hpfull eq_refl) as Hpl. rewrite Hpl in Hall3, Hw3. rewrite firstn_all in Hall3. rewrite drop_all in Hw3.
    eapply wp_mono; [apply IH; [done| | |by apply Hwrest| |]|].
    + rewrite Hs3. by eapply lane_valid_same.
    + rewrite Hseg3. simpl. by rewrite Hseg1.
    + destruct batch; [done|]. simpl in Hfuel. lia.
    + rewrite Hs3. unfold s2, c. simpl. lia.
    + intros r s4 (Hl4 & Ho4 & Hfr4 & Hleft & Hok). rewrite Hs3 in Hl4, Hfr4. rewrite Hid2 in Hfr4.
      split; [by eapply same_lane_trans|]. split; [done|].
      assert (∀ i, i ∈ index <$> tx_slots rest → i ∈ index <$> tx_slots (batch ++ rest)) as Hsub2.
      { intros i Hi. rewrite tx_slots_app, fmap_app. set_solver. }
      split.
      { eapply (send_frame_trans _ _ _ s3.2); [exact (send_frame_sub _ _ _ _ _ Hsub1 Hfr)|exact (send_frame_sub _ _ _ _ _ Hsub2 Hfr4)]. }
      assert (all_outstanding (tx_slots batch) s4.2) as Hall4.
      { intros id Hid. destruct (Hall3 id Hid) as [wr Hwr']. exists wr. apply (proj2 Hfr4); [|done].
        apply Hdis. by apply list_elem_of_fmap_2. }
      split.
      * apply (send_rest_leased batch rest (List.length batch)); [|by rewrite firstn_all|done].
        rewrite drop_all. split; [constructor|by intros ? ?%not_elem_of_nil].
      * intros Hr id. rewrite tx_slots_app. intros [Hid|Hid]%elem_of_app; [by apply Hall4|by apply Hok].
Qed.

Lemma tx_lease_layouts_Ok (p : Pool) lease layouts :
  tx_lease_layouts p lease = Ok layouts →
  layouts = (λ l, (layout_slot l, layout_offset l, layout_length l)) <$> tx_layouts lease ∧
  ∀ l, l ∈ tx_layouts lease → ∃ b, holds p (layout_slot l) b ∧ kind b = Tx ∧ state b = LeasedTx.
Proof.
  unfold tx_lease_layouts. destruct (tx_layouts lease) as [|l0 ls] eqn:Hls; [done|]. rewrite <- Hls.
  rewrite result_bind_Ok. intros (units & Hc%collect_Ok & [= <-]). rewrite Hls. split; [done|].
  rewrite <- Hls. intros l Hl. apply list_elem_of_lookup in Hl as [i Hi].
  destruct (Forall2_lookup_l _ _ _ _ _ Hc Hi) as (u & _ & Hu). apply result_bind_Ok in Hu as (b & Hb%slot_fields_Ok & Hd).
  case_decide as Hk; [done|]. exists b. split; [done|]. split; apply dec_stable; tauto.
Qed.

Lemma zip_layout_slots (ls : list TxLeaseLayout) (seqs : list Z) :
  List.length seqs = List.length ls →
  tx_slots (zip ((λ l, (layout_slot l, layout_offset l, layout_length l)) <$> ls) seqs) = layout_slot <$> ls.
Proof.
  revert seqs. induction ls as [|l ls IH]; intros [|q seqs] Hlen; try done. simpl in Hlen.
  rewrite !fmap_cons, <- (IH seqs) by lia. done.
Qed.

(** [send_registered_window]: the invariant is kept; nothing outside the lease
    changes; every slot of the lease is outstanding or still leased; and on
    success every one is outstanding. *)
Definition tx_window_post sz h L (lease : TxWindowLease) s (r : Result unit) s' : Prop :=
  same_lane s.1 s'.1 ∧ owner_inv sz h None [] L s'.2 ∧
  send_frame (Lane.id s.1) (layout_slot <$> tx_layouts lease) s.2 s'.2 ∧
  (r = Ok tt → all_outstanding (layout_slot <$> tx_layouts lease) s'.2) ∧
  (∀ id, id ∈ layout_slot <$> tx_layouts lease → no_entry s'.2 (index id) →
     (∃ b, holds (pool s.2) id b ∧ state b = LeasedTx) → ∃ b, holds (pool s'.2) id b ∧ state b = LeasedTx).

Lemma send_registered_window_spec sz h L lease seqs ch s :
  owner_inv sz h None [] L s.2 → lane_valid s.1 → is_Some (segment (pool s.2)) →
  NoDup (index <$> (layout_slot <$> tx_layouts lease)) →
  wp (send_registered_window lease seqs ch) (tx_window_post sz h L lease s) s.
Proof.
  intros Ho Hl Hseg Hnd. unfold send_registered_window. apply wp_bind_catch.
  set (ids := layout_slot <$> tx_layouts lease) in *.
  assert (∀ e : Error, wp (on_owner (drop_tx_lease (Some lease)) ≫= λ _,
    on_owner (pr_modify (deliver (DropTx ch))) ≫= λ _, pr_throw (A := unit) e) (tx_window_post sz h L lease s) s) as Hrefuse.
  { intros e. apply wp_bind, wp_zoom. eapply wp_mono; [by apply (drop_tx_lease_spec sz h None [] L s.2 (Some lease))|].
    intros r o1 (-> & Ho1 & Hsr & _). apply wp_bind, wp_zoom. unfold wp. simpl.
    split; [done|]. split; [by apply deliver_inv|]. destruct Hsr as [Hr1 Hs1]. split; [|split; [done|]].
    - by apply same_router_frame.
    - intros id _ _ (b & [Hb Hg] & Hst). exists b. split; [|done]. split; [|done]. simpl. by rewrite Hs1. }
  apply wp_bind_gets. apply wp_bind_lift; [|intros; apply Hrefuse]. intros _ _.
  apply wp_bind_guard; [intros; apply Hrefuse|].
  intros [Hlen%negb_false_iff%Nat.eqb_eq _]%orb_false_iff.
  apply wp_bind_lift; [|intros; apply Hrefuse]. intros u Hcred. unfold require_remote_receives in Hcred.
  destruct (Z.ltb_spec (remote_receives_available (credits s.1)) (Z.of_nat (List.length seqs))) as [|Hcr]; [done|].
  destruct (tx_lease_layouts (pool s.2) lease) as [layouts|e] eqn:Hlay; [|apply Hrefuse].
  apply tx_lease_layouts_Ok in Hlay as [Hlay Hleased]. unfold wp at 1, pr_lift.
  apply wp_bind_gets. apply wp_bind, wp_zoom. eapply wp_mono.
  { apply (wp_respects same_segment); [by intros o r o' [= <- <-]|by apply (window_new_spec sz h None [] L)]. }
  intros r o1 [(w & -> & Ho1 & Hr1 & Hs1) Hseg1].
  set (pending := zip layouts seqs).
  assert (tx_slots pending = ids) as Hslots.
  { unfold pending. rewrite Hlay. by apply zip_layout_slots. }
  assert (List.length pending = List.length seqs) as Hlp.
  { unfold pending. rewrite length_zip_with, Hlay, length_fmap. lia. }
  apply wp_bind_catch. eapply wp_mono.
  { apply (post_send_batches_spec sz h L w _ pending (s.1, o1)); [done|done|simpl; by rewrite Hseg1| |lia|simpl; lia].
    rewrite Hslots. split; [done|]. intros id (l & -> & Hin)%list_elem_of_fmap. destruct (Hleased l Hin) as (b & [Hb Hg] & Hk & Hst).
    assert (no_entry s.2 (index (layout_slot l))) as Hn.
    { intros wr Hwr. destruct (entry_used _ _ _ _ _ _ Ho Hwr) as (b' & Hb' & Hst'). rewrite Hb in Hb'.
      injection Hb' as <-. rewrite Hst in Hst'. unfold posted_states in Hst'. set_solver. }
    split; [exists b; split; [split; [by simpl; rewrite Hs1|done]|done]|]. unfold no_entry. simpl. by rewrite Hr1. }
  intros r s2 (Hl2 & Ho2 & Hfr2 & Hleft & Hok). rewrite Hslots in Hfr2, Hleft, Hok. apply wp_bind, wp_zoom.
  eapply wp_mono; [by apply (window_drop_spec sz h None [] L w)|].
  intros r' o3 (-> & Ho3 & Hr3 & Hs3). unfold wp, pr_lift. simpl. split; [done|]. split; [done|].
  split; [|split].
  - eapply send_frame_trans; [|by apply same_router_frame]. eapply send_frame_trans; [|exact Hfr2].
    by apply same_router_frame.
  - intros Hr id Hid. simpl. rewrite Hr3. by apply (Hok Hr).
  - intros id Hid Hn _. simpl in *. unfold no_entry in Hn. simpl in Hn. rewrite Hr3 in Hn.
    destruct (Hleft id Hid Hn) as (b & [Hb Hg] & Hst). exists b. split; [|done]. split; [by rewrite Hs3|done].
Qed.
End post.
End PostFacts.
