(* ===== verification/UrmaFrame.v ===== *)
(** * What completions and postings leave alone

    No completion, posting or failure changes the send leases on the books, the
    registration of lanes or the segment; and a poll never adds work requests
    to a lane. *)

From S2P Require Import Prelude UrmaBuffer UrmaBufferFacts UrmaLane UrmaCompletion UrmaPost UrmaOwnerFacts.
From Stdlib Require Import ZArith Lia String.
From stdpp Require Import base tactics numbers list gmap strings pretty.
Local Open Scope Z_scope.

Module Frame.
Import Urma Lane Router Post UrmaBufferFacts OwnerFacts.

Section frame.
Context {J Seg : Type} `{!NativeSegment Seg} `{!NativeJetty J Seg}.
Abbreviation Pool := (UrmaBufferPool (Seg := Seg)).
Implicit Types p : Pool.

(** ** The pool *)

(** The send leases on the books. *)
Definition tx_leases p : gmap Z LeaseRecord :=
  filter (λ x : Z * LeaseRecord, lease_kind x.2 = LeaseTx) (active (leases p)).

Definition ids_ok p : Prop :=
  ∀ lid r, active (leases p) !! lid = Some r → lid < next_lease_id (leases p).

(** The free receive list holds receive slots. *)
Definition rx_listed p : Prop := ∀ i, i ∈ free_rx p → ∃ s, slots p !! i = Some s ∧ kind s = Rx.

(** No send slot is taken off the free ones. *)
Definition no_tx_taken p p' : Prop :=
  ∀ i s', slots p' !! i = Some s' → kind s' = Tx → state s' ≠ Free →
    ∃ s, slots p !! i = Some s ∧ kind s = Tx ∧ state s ≠ Free.

Lemma no_tx_taken_trans p1 p2 p3 : no_tx_taken p1 p2 → no_tx_taken p2 p3 → no_tx_taken p1 p3.
Proof. intros H1 H2 i s3 Hi Hk Hs. destruct (H2 i s3 Hi Hk Hs) as (s2 & ? & ? & ?). by eapply H1. Qed.

Record quiet_pool p p' : Prop := {
  qp_segment : segment p' = segment p;
  qp_accepting : accepting p' = accepting p;
  qp_kinds : kind <$> slots p' = kind <$> slots p;
  qp_leases : ids_ok p → ids_ok p' ∧ tx_leases p' = tx_leases p;
  qp_free : rx_listed p → rx_listed p' ∧ no_tx_taken p p';
}.

#[export] Instance quiet_pool_preorder : PreOrder quiet_pool.
Proof.
  split.
  - intros p. split; try done. intros Hr. split; [done|]. intros i s Hi Hk Hs. by exists s.
  - intros p1 p2 p3 [S1 A1 K1 L1 F1] [S2 A2 K2 L2 F2]. split; [congruence..| |].
    + intros H1. destruct (L1 H1) as [H2 E2]. destruct (L2 H2) as [H3 E3]. split; [done|]. congruence.
    + intros H1. destruct (F1 H1) as [H2 N2]. destruct (F2 H2) as [H3 N3]. split; [done|].
      by eapply no_tx_taken_trans.
Qed.

Lemma quiet_pool_same p p' :
  segment p' = segment p → accepting p' = accepting p → slots p' = slots p → leases p' = leases p →
  (∀ i, i ∈ free_rx p' → i ∈ free_rx p) → quiet_pool p p'.
Proof.
  intros Hs Ha Hsl Hl Hf. split; [done|done|by rewrite Hsl| |].
  - unfold ids_ok, tx_leases. by rewrite Hl.
  - intros Hr. unfold rx_listed, no_tx_taken. rewrite Hsl. split; [intros i Hi; by apply Hr, Hf|]. intros i s Hi. by exists s.
Qed.

(** One slot changed, and not from free to taken if it is a send slot. *)
Lemma quiet_pool_slot p p' i s s' :
  segment p' = segment p → accepting p' = accepting p → leases p' = leases p →
  slots p !! i = Some s → slots p' = <[i := s']> (slots p) → kind s' = kind s →
  (rx_listed p → kind s = Tx → state s' ≠ Free → state s ≠ Free) →
  (∀ j, j ∈ free_rx p' → j ∈ free_rx p ∨ j = i ∧ kind s = Rx) → quiet_pool p p'.
Proof.
  intros Hs Ha Hl Hi Hsl Hk Hst Hf. split; [done|done| | |].
  - rewrite Hsl, list_fmap_insert, Hk. apply list_insert_id. by rewrite list_lookup_fmap, Hi.
  - unfold ids_ok, tx_leases. by rewrite Hl.
  - intros Hr. unfold rx_listed, no_tx_taken. rewrite Hsl. assert (i < List.length (slots p))%nat as Hlt by by eapply lookup_lt_Some.
    split.
    + intros j [Hj|[-> Hrx]]%Hf; [|exists s'; rewrite list_lookup_insert_eq by done; by rewrite Hk].
      destruct (decide (j = i)) as [->|Hne]; [|rewrite list_lookup_insert_ne by done; by apply Hr].
      rewrite list_lookup_insert_eq by done. destruct (Hr i Hj) as (s0 & Hs0 & Hk0). simplify_eq.
      exists s'. split; [done|]. congruence.
    + intros j s0. destruct (decide (j = i)) as [->|Hne].
      * rewrite list_lookup_insert_eq by done. intros [= <-] Hkt Hne. exists s. rewrite Hk in Hkt.
        split_and!; [done|done|by apply Hst].
      * rewrite list_lookup_insert_ne by done. intros Hj Hkt Hne'. by exists s0.
Qed.

Lemma drop_core_quiet core p : quiet_pool p (drop_core core p).
Proof. destruct core; by apply quiet_pool_same. Qed.
Lemma drop_cores_quiet cores p : quiet_pool p (foldl (flip drop_core) p cores).
Proof.
  revert p. induction cores as [|c cores IH]; intros p; simpl; [done|].
  etrans; [apply drop_core_quiet|apply IH].
Qed.

Lemma transition_quiet id from to : from ≠ Free → respects quiet_pool (transition id from to).
Proof.
  intros Hf p r p'. unfold transition. destruct (slots p !! index id) as [s|] eqn:Hs; [|by intros [= _ <-]].
  destruct (negb _); [by intros [= _ <-]|]. case_decide as Hst; intros [= _ <-]; [done|].
  eapply (quiet_pool_slot _ _ (index id) s); try done; [|by left]. intros _ _ _. by rewrite Hst.
Qed.

Lemma release_quiet id : respects quiet_pool (release id).
Proof.
  intros p r p'. unfold release. destruct (slots p !! index id) as [s|] eqn:Hs; [|by intros [= _ <-]].
  destruct (negb _); [by intros [= _ <-]|]. case_decide; [|by intros [= _ <-]].
  intros [= _ <-]. destruct (kind s) eqn:Hk; eapply (quiet_pool_slot _ _ (index id) s); try done; simpl.
  - by left.
  - intros j [Hj|Hj%list_elem_of_singleton]%elem_of_app; [by left|by right].
Qed.

Lemma allocate_rx_slot_quiet p : quiet_pool p (allocate Rx p).2.
Proof.
  unfold allocate. destruct (negb _); [done|]. destruct (free_rx p) as [|i l] eqn:Hf; [done|]. simpl.
  destruct (slots p !! i) as [s|] eqn:Hs.
  2:{ apply quiet_pool_same; try done. simpl. rewrite Hf. intros j Hj. by right. }
  destruct (SlotId_new _ _); eapply (quiet_pool_slot _ _ i s); try done; simpl.
  1,3: intros Hr Hk; exfalso; destruct (Hr i) as (s0 & ? & ?); [rewrite Hf; by left|]; simplify_eq; congruence.
  all: rewrite Hf; intros j Hj; left; by right.
Qed.

Lemma allocate_rx_quiet n : respects quiet_pool (allocate_rx n).
Proof.
  induction n as [|n IH]; simpl; [respects|]. intros p r p'.
  pose proof (allocate_rx_slot_quiet p) as Ha. destruct (allocate Rx p) as [[id|] p1]; [|done]. simpl in Ha.
  intros Hr. etrans; [exact Ha|]. revert Hr.
  enough (respects quiet_pool (ids ← allocate_rx n; mret (id :: ids))) as Hk by apply Hk. respects.
Qed.

#[local] Hint Resolve release_quiet allocate_rx_quiet : respects.
#[local] Hint Extern 1 (respects quiet_pool (transition _ _ _)) => apply transition_quiet; done : respects.

Lemma allocate_rx_window_quiet n : respects quiet_pool (allocate_rx_window n).
Proof. unfold allocate_rx_window. respects. Qed.
Lemma mark_posted_quiet id k : respects quiet_pool (mark_posted id k).
Proof. unfold mark_posted. respects. Qed.
Lemma rollback_post_quiet id k : respects quiet_pool (rollback_post id k).
Proof. unfold rollback_post. apply transition_quiet. by destruct k. Qed.
Lemma complete_error_quiet id op : respects quiet_pool (complete_error id op).
Proof. unfold complete_error. respects. Qed.
Lemma complete_recv_leased_quiet id n : respects quiet_pool (complete_recv_leased id n).
Proof. unfold complete_recv_leased. respects. Qed.

(** A receive lease is put on the books under a new number. *)
Lemma issue_rx_quiet ids : respects quiet_pool (pool_issue LeaseRx ids).
Proof.
  intros p r p'. unfold pool_issue, issue. destruct ids as [|id ids]; [intros [= _ <-]; by apply quiet_pool_same|].
  destruct (u64_checked_add _ _) as [next|] eqn:Hn; [|intros [= _ <-]; by apply quiet_pool_same].
  apply u64_checked_add_Some in Hn as ->. destruct (_ =? 0); intros [= _ <-]; [by apply quiet_pool_same|].
  split; [done|done|done| |intros Hr; split; [exact Hr|]; intros i s ???; by exists s].
  intros Hids. unfold ids_ok, tx_leases. simpl. split.
  - intros lid r0 [[<- _]|[_ Hr]]%lookup_insert_Some; [lia|]. apply Hids in Hr. lia.
  - rewrite map_filter_insert_False by done. rewrite delete_id; [done|].
    destruct (active (leases p) !! next_lease_id (leases p)) as [r0|] eqn:Hr; [|done].
    apply Hids in Hr. lia.
Qed.
#[local] Hint Resolve issue_rx_quiet : respects.

Lemma rx_lease_spans_quiet base len cs prev spans total :
  respects quiet_pool (rx_lease_spans base len cs prev spans total).
Proof.
  induction cs as [|c cs IH] in prev, spans, total |- *; simpl; respects; apply IH.
Qed.
#[local] Hint Resolve rx_lease_spans_quiet : respects.

Lemma lease_completed_rx_window_quiet cs : respects quiet_pool (lease_completed_rx_window cs).
Proof. unfold lease_completed_rx_window. respects. Qed.
#[local] Hint Resolve allocate_rx_window_quiet mark_posted_quiet rollback_post_quiet complete_error_quiet
  complete_recv_leased_quiet lease_completed_rx_window_quiet : respects.

(** ** The owner's state *)

(** [fewer]: the lanes without outstanding work requests stay so. *)
Record quiet (fewer : bool) (o o' : Owner Seg) : Prop := {
  q_pool : quiet_pool (pool o) (pool o');
  q_retirement : dom (retirement_by_lane (router o')) = dom (retirement_by_lane (router o));
  q_lanes : fewer = true → ∀ l, outstanding_by_lane (router o) !! l = None →
                                outstanding_by_lane (router o') !! l = None;
}.

#[export] Instance quiet_preorder fewer : PreOrder (quiet fewer).
Proof.
  split; [done|]. intros o1 o2 o3 [P1 R1 L1] [P2 R2 L2].
  split; [by etrans|congruence|]. intros Hf l Hl. by apply L2, L1.
Qed.

Lemma quiet_same fewer o o' :
  quiet_pool (pool o) (pool o') → retirement_by_lane (router o') = retirement_by_lane (router o) →
  outstanding_by_lane (router o') = outstanding_by_lane (router o) → quiet fewer o o'.
Proof. intros Hp Hr Hl. split; [done|by rewrite Hr|]. intros _ l. by rewrite Hl. Qed.

Lemma on_pool_quiet {A} fewer (m : PR Pool Error A) : respects quiet_pool m → respects (quiet fewer) (on_pool m).
Proof. apply respects_zoom. intros o p Hp. by apply quiet_same. Qed.

Lemma modify_quiet fewer f :
  (∀ o : Owner Seg, quiet_pool (pool o) (pool (f o)) ∧
     retirement_by_lane (router (f o)) = retirement_by_lane (router o) ∧
     outstanding_by_lane (router (f o)) = outstanding_by_lane (router o)) →
  respects (quiet fewer) (pr_modify (E := Error) f).
Proof. intros Hf. apply respects_modify. intros o. by apply quiet_same; apply Hf. Qed.

#[local] Hint Extern 1 (respects (quiet _) (on_pool _)) => apply on_pool_quiet : respects.
#[local] Hint Extern 1 (respects (quiet _) (pr_modify _)) =>
  apply modify_quiet; intros; split_and!; first [exact eq_refl | reflexivity | apply drop_core_quiet
    | apply drop_cores_quiet] : respects.

Lemma up_router_quiet fewer f :
  (∀ r, retirement_by_lane (f r) = retirement_by_lane r ∧ outstanding_by_lane (f r) = outstanding_by_lane r) →
  respects (quiet fewer) (up_router f).
Proof. intros Hf. apply modify_quiet. intros o. by destruct (Hf (router o)). Qed.
#[local] Hint Extern 1 (respects (quiet _) (up_router _)) =>
  apply up_router_quiet; intros; split; first [exact eq_refl | by case_match] : respects.

Lemma window_get_quiet fewer w : respects (quiet fewer) (window_get w).
Proof. unfold window_get. respects. Qed.
Lemma window_set_quiet fewer w x : respects (quiet fewer) (window_set w x).
Proof. unfold window_set. respects. Qed.
Lemma drop_tx_lease_quiet fewer l : respects (quiet fewer) (drop_tx_lease l).
Proof. unfold drop_tx_lease. respects. Qed.
#[local] Hint Resolve window_get_quiet window_set_quiet drop_tx_lease_quiet : respects.

Lemma window_new_quiet fewer lane seqs l ch : respects (quiet fewer) (window_new lane seqs l ch).
Proof. intros o r o' [= _ <-]. by apply quiet_same. Qed.
Lemma window_drop_quiet fewer w : respects (quiet fewer) (window_drop w).
Proof. unfold window_drop. respects. Qed.
Lemma window_clone_quiet fewer w : respects (quiet fewer) (window_clone w).
Proof. unfold window_clone. respects. Qed.
Lemma window_resolve_quiet fewer w : respects (quiet fewer) (window_resolve w).
Proof. unfold window_resolve. respects. Qed.
Lemma window_posted_quiet fewer w : respects (quiet fewer) (window_posted w).
Proof. unfold window_posted. respects. Qed.
#[local] Hint Resolve window_new_quiet window_drop_quiet window_clone_quiet window_resolve_quiet
  window_posted_quiet : respects.

Lemma finish_posting_quiet fewer w e : respects (quiet fewer) (finish_posting w e).
Proof. unfold finish_posting. respects. Qed.
Lemma window_completed_quiet fewer w res : respects (quiet fewer) (window_completed w res).
Proof. unfold window_completed. respects. Qed.
Lemma window_fail_quiet fewer w e : respects (quiet fewer) (window_fail w e).
Proof. unfold window_fail. respects. Qed.
Lemma drop_routed_quiet fewer res : respects (quiet fewer) (drop_routed res).
Proof. unfold drop_routed. respects. Qed.
#[local] Hint Resolve finish_posting_quiet window_completed_quiet window_fail_quiet drop_routed_quiet : respects.

Lemma target_send_quiet fewer t res : respects (quiet fewer) (target_send t res).
Proof. unfold target_send. respects. Qed.
Lemma target_fail_quiet fewer t e : respects (quiet fewer) (target_fail t e).
Proof. unfold target_fail. respects. Qed.
Lemma decrement_operation_quiet fewer op : respects (quiet fewer) (decrement_operation op).
Proof. unfold decrement_operation. respects. Qed.
Lemma take_registered_rx_quiet fewer l i : respects (quiet fewer) (take_registered_rx l i).
Proof. unfold take_registered_rx. respects. Qed.
Lemma outstanding_place_quiet fewer i : respects (quiet fewer) (outstanding_place i).
Proof. unfold outstanding_place. respects. Qed.
#[local] Hint Resolve target_send_quiet target_fail_quiet decrement_operation_quiet take_registered_rx_quiet
  outstanding_place_quiet : respects.

(** The lane of the new entry may gain one. *)
Lemma outstanding_add_quiet i l send wr : respects (quiet false) (outstanding_add i l send wr).
Proof.
  unfold outstanding_add. respects. apply respects_modify. intros o. by split.
Qed.
#[local] Hint Resolve outstanding_add_quiet : respects.

Lemma track_registered_rx_quiet u q ch : respects (quiet false) (track_registered_rx u q ch).
Proof. unfold track_registered_rx, track_registered_rx_body. respects. Qed.
Lemma track_registered_tx_quiet u q w : respects (quiet false) (track_registered_tx u q w).
Proof. unfold track_registered_tx, track_registered_tx_body. respects. Qed.
#[local] Hint Resolve track_registered_rx_quiet track_registered_tx_quiet : respects.

Lemma take_outstanding_quiet fewer u : respects (quiet fewer) (take_outstanding u).
Proof.
  unfold take_outstanding. apply respects_bind; [exact _|respects|]. intros t o r o'.
  cbv [mbind pr_mbind pr_gets pr_lift pr_expect up_router pr_modify pr_throw mret pr_mret fmap option_fmap option_map].
  destruct (ok_or _ (outstanding _ !! _)) as [[wr|]|e]; [|by intros [= _ <-]..].
  destruct (negb _); [by intros [= _ <-]|]. destruct (decr (outstanding_total _)) as [total|]; [|done]. simpl.
  destruct (outstanding_by_lane (router o) !! lane_id t) as [n|] eqn:Hn; simpl; [|intros [= _ <-]; by apply quiet_same].
  destruct (decr n) as [n'|]; [|done]. intros [= _ <-]. split; [done|done|]. intros _ l Hl. simpl.
  destruct (n' =? 0).
  - by apply lookup_delete_None; right.
  - rewrite lookup_insert_ne; [done|]. intros Heq. congruence.
Qed.

Lemma route_flush_done_quiet fewer rec q : respects (quiet fewer) (route_flush_done rec q).
Proof.
  unfold route_flush_done. destruct q; [respects|]. intros o r o'.
  cbv [mbind pr_mbind pr_gets pr_lift pr_expect up_router pr_modify pr_throw mret pr_mret fmap option_fmap option_map].
  destruct (ok_or _ _) as [l|e]; [|by intros [= _ <-]].
  destruct (retirement_by_lane (router o) !! l) as [x|] eqn:Hx; [|done].
  destruct (negb _); intros [= _ <-]; [by apply quiet_same|]. split; [done| |done].
  simpl. rewrite dom_insert_L. apply elem_of_dom_2 in Hx. set_solver.
Qed.
#[local] Hint Resolve take_outstanding_quiet route_flush_done_quiet : respects.

Lemma complete_and_release_quiet fewer t : respects (quiet fewer) (complete_and_release t).
Proof. unfold complete_and_release. respects. Qed.
#[local] Hint Resolve complete_and_release_quiet : respects.
Lemma retire_failed_quiet fewer b t e : respects (quiet fewer) (retire_failed b t e).
Proof. unfold retire_failed, complete_tx_lease_send. respects. Qed.
Lemma route_send_quiet fewer b t : respects (quiet fewer) (route_send b t).
Proof. unfold route_send, complete_tx_lease_send. respects. Qed.
Lemma route_recv_quiet fewer rec t q : respects (quiet fewer) (route_recv rec t q).
Proof. unfold route_recv. respects. Qed.
#[local] Hint Resolve retire_failed_quiet route_send_quiet route_recv_quiet : respects.
Lemma route_result_quiet fewer rec q t wr : respects (quiet fewer) (route_result rec q t wr).
Proof. unfold route_result. respects. Qed.
#[local] Hint Resolve route_result_quiet : respects.
Lemma route_quiet fewer rec q : respects (quiet fewer) (route rec q).
Proof. unfold route. respects. Qed.
#[local] Hint Resolve route_quiet : respects.
Lemma drain_batch_quiet fewer recs q n fe : respects (quiet fewer) (drain_batch recs q n fe).
Proof. induction recs as [|rec recs IH] in n, fe |- *; simpl; respects. Qed.
#[local] Hint Resolve drain_batch_quiet : respects.

(** A poll adds nothing to any lane, registers or unregisters no lane, and leaves
    the send leases and the segment. *)
Lemma poll_once_quiet s q : respects (quiet true) (poll_once s q).
Proof. unfold poll_once, poll_jfc. respects. Qed.

Lemma fail_outstanding_quiet fewer l e : respects (quiet fewer) (fail_outstanding l e).
Proof. induction l as [|i l IH]; simpl; respects. Qed.
#[local] Hint Resolve fail_outstanding_quiet : respects.
Lemma fail_pending_quiet fewer e : respects (quiet fewer) (fail_pending e).
Proof. unfold fail_pending. respects. Qed.

(** ** Posting *)

Definition quiet_post (s s' : UrmaLane (J := J) * Owner Seg) : Prop := quiet false s.2 s'.2.
#[export] Instance quiet_post_preorder : PreOrder quiet_post.
Proof. split; [by intros [? ?]|]. intros ??? H1 H2. unfold quiet_post in *. by etrans. Qed.

Lemma on_owner_quiet {A} (m : PR (Owner Seg) Error A) :
  respects (quiet false) m → respects quiet_post (on_owner (J := J) m).
Proof. by apply respects_zoom. Qed.
Lemma on_lane_quiet {A} (m : ST (UrmaLane (J := J)) Error A) : respects quiet_post (on_lane m).
Proof. intros [l o] r s'. unfold on_lane. simpl. destruct (m l). intros [= _ <-]. unfold quiet_post. reflexivity. Qed.
Lemma on_buffers_quiet {A} (m : PR Pool Error A) :
  respects quiet_pool m → respects quiet_post (on_buffers (J := J) m).
Proof. intros Hm. by apply on_owner_quiet, on_pool_quiet. Qed.
#[local] Hint Resolve on_lane_quiet : respects.
#[local] Hint Extern 1 (respects quiet_post (on_owner _)) => apply on_owner_quiet; respects : respects.
#[local] Hint Extern 1 (respects quiet_post (on_buffers _)) => apply on_buffers_quiet; respects : respects.

Lemma dropping_quiet {A} senders (m : PR (UrmaLane (J := J) * Owner Seg) Error A) :
  respects quiet_post m → respects quiet_post (dropping senders m).
Proof. intros Hm. unfold dropping. respects. Qed.
#[local] Hint Extern 1 (respects quiet_post (dropping _ _)) =>
  apply dropping_quiet; unfold release_unposted_rx_window; respects : respects.

Lemma post_receive_window_quiet seqs chs :
  respects quiet_post (post_receive_window_registered (J := J) (Seg := Seg) seqs chs).
Proof.
  assert (∀ b es, respects quiet_post (prepare_recvs (J := J) b es)) as Hprep.
  { induction b as [|x b IH]; intros es; simpl; unfold prepare_recv; respects. }
  assert (∀ l l', respects quiet_post (undo_recvs (J := J) l l')) as Hundo.
  { intros l l'. unfold undo_recvs, release_unposted_rx_window. respects. }
  assert (∀ l l', respects quiet_post (post_recv_stage (J := J) l l')) as Hstage.
  { intros l l'. unfold post_recv_stage. respects. }
  assert (∀ b es n fe, respects quiet_post (track_recvs (J := J) b es n fe)) as Htrack.
  { induction b as [|x b IH]; intros es n fe; simpl; respects. }
  assert (∀ n l, respects quiet_post (post_recv_batches (J := J) n l)) as Hbatches.
  { induction n as [|n IH]; intros [|x l]; simpl; [respects|by intros ???|respects|respects]. }
  unfold post_receive_window_registered. respects.
Qed.

Lemma send_registered_window_quiet lease seqs ch :
  respects quiet_post (send_registered_window (J := J) (Seg := Seg) lease seqs ch).
Proof.
  assert (∀ b es, respects quiet_post (prepare_sends (J := J) b es)) as Hprep.
  { induction b as [|x b IH]; intros es; simpl; unfold prepare_send, mark_tx_lease_posted; respects. }
  assert (∀ l, respects quiet_post (undo_sends (J := J) l)) as Hundo.
  { intros l. unfold undo_sends, rollback_tx_lease_post. respects. }
  assert (∀ A w e, respects quiet_post (fail_window (J := J) (A := A) w e)) as Hfail.
  { intros A w e. unfold fail_window. respects. }
  assert (∀ w l, respects quiet_post (post_send_stage (J := J) w l)) as Hstage.
  { intros w l. unfold post_send_stage. respects. }
  assert (∀ w b es n fe, respects quiet_post (track_sends (J := J) w b es n fe)) as Htrack.
  { intros w. induction b as [|x b IH]; intros es n fe; simpl; unfold rollback_tx_lease_post; respects. }
  assert (∀ n w l, respects quiet_post (post_send_batches (J := J) n w l)) as Hbatches.
  { induction n as [|n IH]; intros w [|x l]; simpl; [respects|by intros ???|respects|respects]. }
  unfold send_registered_window. respects.
Qed.
End frame.
End Frame.
