(* ===== verification/UrmaLedger.v ===== *)
(** * The send slots on the books

    How many send slots the active send leases hold, and what acquiring and
    recycling do to that number. *)

From S2P Require Import Prelude UrmaBuffer UrmaBufferFacts UrmaLane UrmaCompletion UrmaPost UrmaOwnerFacts UrmaFrame.
From Stdlib Require Import ZArith Lia String.
From stdpp Require Import base tactics numbers list gmap strings pretty.
Local Open Scope Z_scope.

Module Ledger.
Import Urma UrmaBufferFacts Frame.

Section ledger.
Context {Seg : Type} `{!NativeSegment Seg}.
Abbreviation Pool := (UrmaBufferPool (Seg := Seg)).
Implicit Types p : Pool.

Definition slot_sum (m : gmap Z LeaseRecord) : Z :=
  map_fold (λ _ r n, Z.of_nat (List.length (lease_slots r)) + n) 0 m.

(** The send slots held by send leases. *)
Definition tx_total p : Z := slot_sum (tx_leases p).

Lemma slot_sum_insert m l r :
  m !! l = None → slot_sum (<[l := r]> m) = Z.of_nat (List.length (lease_slots r)) + slot_sum m.
Proof. intros Hl. unfold slot_sum. rewrite map_fold_insert_L; [done|intros; lia|done]. Qed.

Lemma slot_sum_delete m l r :
  m !! l = Some r → slot_sum m = Z.of_nat (List.length (lease_slots r)) + slot_sum (delete l m).
Proof.
  intros Hl. rewrite <- (slot_sum_insert _ l) by apply lookup_delete_eq. by rewrite insert_delete_id.
Qed.

Lemma slot_sum_nonneg m : 0 ≤ slot_sum m.
Proof. unfold slot_sum. apply (map_fold_weak_ind (λ n _, 0 ≤ n)); [lia|]. intros. lia. Qed.

(** Every send slot in use is held by a send lease. *)
Definition covered_tx p (i : nat) : Prop :=
  ∃ lid r id, tx_leases p !! lid = Some r ∧ id ∈ lease_slots r ∧ index id = i.
Definition accounted p : Prop :=
  ∀ i s, slots p !! i = Some s → kind s = Tx → state s ≠ Free → covered_tx p i.

Lemma inv_rx_listed sz h p : pool_inv sz h p → rx_listed p.
Proof. intros Hp i Hi. apply (inv_free_rx _ _ _ Hp) in Hi as (s & ? & ? & _). by exists s. Qed.

Lemma quiet_accounted sz h p p' : pool_inv sz h p → quiet_pool p p' → accounted p → accounted p'.
Proof.
  intros Hp [_ _ _ Hl Hf] Ha i s' Hi Hk Hs. destruct (Hf (inv_rx_listed _ _ _ Hp)) as [_ Hn].
  destruct (Hn i s' Hi Hk Hs) as (s & Hs0 & Hk0 & Hne). destruct (Hl (inv_lease_ids _ _ _ Hp)) as [_ Htx].
  unfold covered_tx. rewrite Htx. by eapply Ha.
Qed.

(** What a call of the pool does to the ledger, by [n] slots. *)
Record ledger_step (sz : Z) (h : bool) (n : Z) p p' : Prop := {
  ls_inv : pool_inv sz h p';
  ls_posted : keeps_posted [] p p';
  ls_segment : segment p' = segment p;
  ls_accepting : accepting p' = accepting p;
  ls_kinds : kind <$> slots p' = kind <$> slots p;
  ls_total : tx_total p' = tx_total p + n;
  ls_accounted : accounted p → accounted p';
}.

Lemma ledger_refl sz h p : pool_inv sz h p → ledger_step sz h 0 p p.
Proof. intros Hp. split; try done; [apply keeps_posted_refl|lia]. Qed.
Lemma ledger_trans sz h n m p1 p2 p3 :
  ledger_step sz h n p1 p2 → ledger_step sz h m p2 p3 → ledger_step sz h (n + m) p1 p3.
Proof.
  intros [] []. split; [done|by eapply keeps_posted_trans|congruence..|lia|tauto].
Qed.

(** [segment], [accepting] and the kinds of the slots. *)
Definition same_memory p p' : Prop :=
  segment p' = segment p ∧ accepting p' = accepting p ∧ kind <$> slots p' = kind <$> slots p.
#[local] Instance same_memory_preorder : PreOrder same_memory.
Proof. split; [done|]. unfold same_memory. intros ??? (? & ? & ?) (? & ? & ?). split_and!; congruence. Qed.

Lemma quiet_same_memory {A} (m : PR Pool Error A) : respects quiet_pool m → respects same_memory m.
Proof. intros Hm p r p' Hr. destruct (Hm _ _ _ Hr). by split_and!. Qed.

Lemma same_memory_slot p i s s' :
  slots p !! i = Some s → kind s' = kind s → same_memory p (set_slots (<[i := s']> (slots p)) p).
Proof.
  intros Hi Hk. split_and!; [done|done|]. simpl. rewrite list_fmap_insert, Hk. apply list_insert_id.
  by rewrite list_lookup_fmap, Hi.
Qed.

#[local] Hint Extern 1 (respects same_memory (transition _ _ _)) =>
  apply quiet_same_memory, transition_quiet; first [done | by match goal with k : LeaseKind |- _ => destruct k end]
  : respects.
#[local] Hint Extern 1 (respects same_memory (release _)) => apply quiet_same_memory, release_quiet : respects.
#[local] Hint Extern 1 (respects same_memory (pr_modify _)) => apply respects_modify; by intros : respects.

Lemma pool_issue_memory k ids : respects same_memory (pool_issue k ids).
Proof. intros p r p'. unfold pool_issue. destruct (issue _ _ _). by intros [= _ <-]. Qed.
Lemma take_tx_slot_memory x : respects same_memory (take_tx_slot x).
Proof.
  intros p r p'. unfold take_tx_slot. destruct x as [[[[i id] a] o] n]. destruct (slots p !! i) as [s|] eqn:Hs; [|done].
  intros [= _ <-]. by apply (same_memory_slot p i s).
Qed.
#[local] Hint Resolve pool_issue_memory take_tx_slot_memory : respects.

Lemma acquire_memory lens : respects same_memory (acquire_tx_window_chunks lens).
Proof. unfold acquire_tx_window_chunks. respects. Qed.

Lemma acquire_ledger sz h lens p :
  pool_inv sz h p →
  wp (acquire_tx_window_chunks lens) (λ r p',
    ledger_step sz h (match r with Ok _ => Z.of_nat (List.length lens) | Err _ => 0 end) p p') p.
Proof.
  intros Hp. eapply wp_mono.
  { apply (wp_respects same_memory); [apply acquire_memory|by apply (acquire_tx_window_chunks_spec sz h)]. }
  intros r p' [(Hp' & Hku & Hr) (Hseg & Hacc & Hkinds)]. destruct r as [l|e].
  - destruct Hr as (rc & _ & _ & Hact & Hlid & Hfr & Hlens & _). set (ids := layout_slot <$> tx_layouts l) in *.
    assert (tx_leases p !! lease_id rc = None) as Hfresh.
    { apply map_lookup_filter_None_2. left. destruct (active (leases p) !! lease_id rc) as [r|] eqn:Hl; [|done].
      apply (inv_lease_ids _ _ _ Hp) in Hl. lia. }
    assert (tx_leases p' = <[lease_id rc := mkLeaseRecord LeaseTx ids]> (tx_leases p)) as Htx.
    { unfold tx_leases. rewrite Hact. by rewrite map_filter_insert_True. }
    split; [done|by apply keeps_used_posted|done|done|done| |].
    + unfold tx_total. rewrite Htx, slot_sum_insert by done. unfold ids. simpl. rewrite <- Hlens, !length_fmap. lia.
    + intros Ha i s Hi Hk Hst. unfold covered_tx. rewrite Htx. destruct (decide (i ∈ index <$> ids)) as [Hin|Hin].
      * apply list_elem_of_fmap in Hin as (id & -> & Hid). eexists _, _, id. rewrite lookup_insert_eq. done.
      * rewrite Hfr in Hi by done. destruct (Ha i s Hi Hk Hst) as (lid & r & id & Hr & Hid & Hidx).
        exists lid, r, id. rewrite lookup_insert_ne; [done|]. intros Heq. congruence.
  - destruct Hr as [Hle Hfree].
    assert (tx_leases p' = tx_leases p) as Htx by (unfold tx_leases; by rewrite Hle).
    split; [done|by apply keeps_used_posted|done|done|done|unfold tx_total; rewrite Htx; lia|].
    intros Ha i s' Hi Hk Hst. unfold covered_tx. rewrite Htx.
    assert (∃ s, slots p !! i = Some s ∧ kind s = Tx) as (s & Hs & Hks).
    { apply (f_equal (λ l, l !! i)) in Hkinds. rewrite !list_lookup_fmap, Hi in Hkinds.
      destruct (slots p !! i) as [s|]; [|done]. exists s. split; [done|]. simpl in Hkinds. congruence. }
    apply (Ha i s Hs Hks). intros Hf. destruct (Hfree Tx i) as (s0 & Hs0 & _ & Hf0); [by exists s|]. congruence.
Qed.

(** [recycle] takes the slots of a send lease off the books. *)
Lemma recycle_memory rc k : respects same_memory (recycle rc k).
Proof.
  unfold recycle. respects. intros p r p'. destruct (finish _ _). intros [= _ <-]. by split_and!.
Qed.

Lemma recycle_ledger sz h rc k p :
  pool_inv sz h p →
  wp (recycle rc k) (λ r p', ledger_step sz h
    (match r, k with Ok n, LeaseTx => - n | _, _ => 0 end) p p' ∧ (∀ n, r = Ok n → 0 ≤ n)) p.
Proof.
  intros Hp. eapply wp_mono.
  { apply (wp_respects same_memory); [apply recycle_memory|by apply (recycle_spec sz h)]. }
  intros [n|e] p' [(Hp' & Hr) (Hseg & Hacc & Hkinds)].
  2:{ destruct Hr as [-> _]. split; [|done]. destruct k; by apply ledger_refl. }
  destruct Hr as (rec & Hrec & Hk & -> & (Hle & _) & Hf & Hids). unfold record in Hrec.
  destruct (negb _); [done|]. apply ok_or_Ok in Hrec.
  assert (tx_leases p' = delete (lease_id rc) (tx_leases p)) as Htx.
  { unfold tx_leases. rewrite Hle. simpl. by rewrite map_filter_delete. }
  split; [|intros n [= <-]; lia]. split; [done| |done|done|done| |].
  - intros i s _ Hs Hst. destruct (decide (i ∈ index <$> lease_slots rec)) as [Hi|Hi]; [|by rewrite Hf].
    apply list_elem_of_fmap in Hi as (id & -> & Hid). destruct (Hids id Hid) as (s0 & [Hs0 _] & _ & Hst0 & _).
    simplify_eq. rewrite Hst0 in Hst. unfold posted_states in Hst. destruct (lease_kind rec); simpl in Hst; set_solver.
  - unfold tx_total. rewrite Htx. subst k. destruct (lease_kind rec) eqn:Hkind.
    + rewrite delete_id; [lia|]. apply map_lookup_filter_None_2. right. intros r Hr' Ht.
      rewrite Hrec in Hr'. simplify_eq/=. congruence.
    + rewrite (slot_sum_delete (tx_leases p) (lease_id rc) rec); [lia|]. by apply map_lookup_filter_Some_2.
  - intros Ha i s Hi Hks Hst. unfold covered_tx. rewrite Htx.
    assert (i ∉ index <$> lease_slots rec) as Hout.
    { intros (id & -> & Hid)%list_elem_of_fmap. destruct (Hids id Hid) as (s0 & _ & _ & _ & [Hs0 _]). by simplify_eq. }
    rewrite Hf in Hi by done. destruct (Ha i s Hi Hks Hst) as (lid & r & id & Hr & Hid & Hidx).
    exists lid, r, id. rewrite lookup_delete_ne; [done|]. intros <-. apply Hout. subst i.
    apply map_lookup_filter_Some_1_1 in Hr. simplify_eq. by apply list_elem_of_fmap_2.
Qed.

Lemma drop_core_ledger sz h core p : pool_inv sz h p → ledger_step sz h 0 p (drop_core core p).
Proof.
  intros Hp. assert (slots (drop_core core p) = slots p) as Hs by by destruct core.
  split; [by apply drop_core_inv| |by destruct core|by destruct core|by destruct core| |].
  - intros i s _. by rewrite Hs.
  - replace (tx_total (drop_core core p)) with (tx_total p); [lia|]. by destruct core.
  - apply (quiet_accounted sz h); [done|apply drop_core_quiet].
Qed.
Lemma drop_cores_ledger sz h cores p : pool_inv sz h p → ledger_step sz h 0 p (foldl (flip drop_core) p cores).
Proof.
  induction cores as [|c cores IH] in p |- *; intros Hp; [by apply ledger_refl|]. simpl.
  eapply (ledger_trans _ _ 0 0); [by apply drop_core_ledger|]. by apply IH, drop_core_inv.
Qed.

(** Recycling receive leases leaves the send slots on the books. *)
Lemma recycle_rx_ledger sz h l p :
  pool_inv sz h p → wp (recycle_rx_lease l) (λ _ p', ledger_step sz h 0 p p') p.
Proof.
  intros Hp. unfold recycle_rx_lease.
  enough (∀ cores n p0, ledger_step sz h 0 p p0 → wp (recycle_cores cores n) (λ _ p', ledger_step sz h 0 p p') p0)
    as Hgen by by apply Hgen, ledger_refl.
  induction cores as [|core cores IH]; intros n p0 Hp0; [done|]. simpl. apply wp_bind_catch.
  eapply (wp_mono _ (λ _ p1, ledger_step sz h 0 p p1)).
  - apply wp_bind_lift; [|done]. intros rc _. apply wp_bind.
    eapply wp_mono; [apply (recycle_ledger sz h), Hp0|]. intros [m|e] p1 [H1 _]; by apply (ledger_trans _ _ 0 0 _ p0).
  - intros [m|e] p1 Hp1; [by apply IH|]. apply wp_bind_modify. unfold wp. simpl.
    apply (ledger_trans _ _ 0 0 _ p1); [done|]. apply (drop_cores_ledger _ _ (core :: cores)), Hp1.
Qed.

Lemma recycle_tx_ledger sz h l p :
  pool_inv sz h p →
  wp (recycle_tx_lease l) (λ r p', ledger_step sz h (match r with Ok n => - n | Err _ => 0 end) p p' ∧
    (∀ n, r = Ok n → 0 ≤ n)) p.
Proof.
  intros Hp. unfold recycle_tx_lease. apply wp_bind_lift; [|intros; split; [by apply ledger_refl|done]]. intros rc _.
  apply wp_bind_catch. eapply wp_mono; [by apply (recycle_ledger sz h)|]. intros [n|e] p1 [Hp1 Hn]; [done|].
  apply wp_bind_modify. unfold wp. simpl. split; [|done]. apply (ledger_trans _ _ 0 0 _ p1); [done|]. by apply drop_core_ledger, Hp1.
Qed.

Lemma recycle_dropped_ledger sz h rc p :
  pool_inv sz h p →
  wp (recycle_dropped_lease rc) (λ r p', ledger_step sz h
    (match r with Ok (n, LeaseTx) => - n | _ => 0 end) p p' ∧ (∀ n k, r = Ok (n, k) → 0 ≤ n)) p.
Proof.
  intros Hp. unfold recycle_dropped_lease. apply wp_bind_gets, wp_bind_lift; [|intros; split; [by apply ledger_refl|done]].
  intros rec _. apply wp_bind. eapply wp_mono; [by apply (recycle_ledger sz h)|].
  intros [n|e] p1 [Hp1 Hn].
  - split; [exact Hp1|]. intros n' k [= <- _]. by apply Hn.
  - split; [|done]. by destruct (lease_kind rec).
Qed.

(** ** Free send slots *)

(** The send slots of the pool. *)
Definition tx_indices p : list nat :=
  List.filter (λ i, match (kind <$> slots p) !! i with Some Tx => true | _ => false end)
    (seq 0 (List.length (kind <$> slots p))).

Lemma tx_indices_NoDup p : NoDup (tx_indices p).
Proof. apply NoDup_ListNoDup, List.NoDup_filter, List.seq_NoDup. Qed.

Lemma elem_of_tx_indices p i : i ∈ tx_indices p ↔ ∃ s, slots p !! i = Some s ∧ kind s = Tx.
Proof.
  unfold tx_indices. rewrite list_elem_of_In, List.filter_In, list_lookup_fmap. split.
  - intros [_ Hi]. destruct (slots p !! i) as [s|]; [|done]. exists s. split; [done|]. simpl in Hi. by destruct (kind s).
  - intros (s & Hs & Hk). rewrite Hs. simpl. rewrite Hk. split; [|done]. apply in_seq.
    rewrite length_fmap. apply lookup_lt_Some in Hs. lia.
Qed.

(** The slots of the send leases, as a list. *)
Definition leased_indices p : list nat :=
  map_to_list (tx_leases p) ≫= λ x, index <$> lease_slots x.2.

Lemma leased_indices_length p : Z.of_nat (List.length (leased_indices p)) = tx_total p.
Proof.
  unfold leased_indices, tx_total, slot_sum. rewrite map_fold_foldr.
  induction (map_to_list (tx_leases p)) as [|[lid r] l IH]; [done|].
  rewrite bind_cons, length_app, length_fmap. simpl. lia.
Qed.

(** The send slots that no send lease holds are free. *)
Lemma free_tx_count sz h p :
  pool_inv sz h p → accounted p →
  Z.of_nat (List.length (tx_indices p)) ≤ Z.of_nat (List.length (free_tx p)) + tx_total p.
Proof.
  intros Hp Ha. rewrite <- leased_indices_length, <- Nat2Z.inj_add, <- length_app. apply Nat2Z.inj_le.
  apply submseteq_length, NoDup_submseteq; [apply tx_indices_NoDup|].
  intros i (s & Hs & Hk)%elem_of_tx_indices. apply elem_of_app. destruct (decide (state s = Free)) as [Hf|Hf].
  - left. apply (inv_free_tx _ _ _ Hp). by exists s.
  - right. destruct (Ha i s Hs Hk Hf) as (lid & r & id & Hr & Hid & <-). unfold leased_indices.
    apply list_elem_of_bind. exists (lid, r). split; [by apply list_elem_of_fmap_2|by apply elem_of_map_to_list].
Qed.

(** ** Acquiring succeeds *)

(** Chunks that fit the slots of size [sz]. *)
Record chunks_ok (sz : Z) (lens : list Z) : Prop := {
  co_nonempty : lens ≠ [];
  co_range : ∀ n, n ∈ lens → 0 < n ≤ sz ∧ n ≤ u_max 32;
  co_sum : foldr Z.add 0 lens ≤ u_max 64;
}.

(** The registered memory holds all the slots. *)
Definition memory_ok (sz : Z) p : Prop :=
  ∃ seg base rlen, segment p = Some seg ∧ segment_data seg = Ok (base, rlen) ∧
    sz * Z.of_nat (List.length (slots p)) ≤ rlen ≤ u_max 64.

Lemma collect_all_Ok {E A B} (f : A → result E B) l : (∀ x, x ∈ l → ∃ y, f x = Ok y) → ∃ ys, collect f l = Ok ys.
Proof.
  induction l as [|x l IH]; intros Hf; [by eexists|]. simpl. destruct (Hf x) as [y ->]; [by left|].
  destruct IH as [ys ->]; [intros; apply Hf; by right|]. by eexists.
Qed.

Lemma foldl_add_Ok (lens : list Z) t :
  0 ≤ t → (∀ n, n ∈ lens → 0 < n) → t + foldr Z.add 0 lens ≤ u_max 64 →
  ∃ total, foldl (λ total length, t ← total;
    ok_or (InvalidConfiguration "TX window length overflow") (u64_checked_add t length)) (Ok t) lens = Ok total.
Proof.
  revert t. induction lens as [|n lens IH]; intros t Ht Hpos Hsum; [by eexists|]. simpl in Hsum |- *.
  assert (0 < n) by (apply Hpos; by left).
  assert (0 ≤ foldr Z.add 0 lens) as Hrest.
  { clear -Hpos. induction lens as [|m lens IH]; simpl; [lia|].
    assert (0 < m) by (apply Hpos; right; by left).
    assert (0 ≤ foldr Z.add 0 lens); [|lia]. apply IH. intros k [->|Hk]%elem_of_cons; apply Hpos; [by left|by right; right]. }
  unfold u64_checked_add. rewrite decide_True by lia. simpl. apply IH; [lia| |lia]. intros k Hk. apply Hpos. by right.
Qed.

Lemma prepare_tx_free sz h p base rlen i n :
  pool_inv sz h p → is_free Tx p i → 0 < n ≤ sz → sz * Z.of_nat (List.length (slots p)) ≤ rlen ≤ u_max 64 →
  ∃ x, prepare_tx p base rlen (i, n) = Ok x.
Proof.
  intros Hp (s & Hs & Hk & Hf) Hn Hlen. unfold prepare_tx. rewrite Hs. simpl.
  rewrite decide_False by (intros [|]; congruence).
  destruct (inv_slot _ _ _ Hp i s Hs) as (Ho & _ & Hg & _). pose proof (lookup_lt_Some _ _ _ Hs) as Hlt.
  assert (0 ≤ offset s ∧ offset s + n ≤ rlen) as [Ho0 Hend] by (rewrite Ho; nia).
  unfold u64_checked_add. rewrite decide_True by lia. simpl.
  destruct (Z.ltb_spec rlen (offset s + n)); [lia|].
  rewrite SlotId_new_ok; [by eexists|pose proof (next_generation_range _ Hg); lia|].
  pose proof (inv_count _ _ _ Hp). lia.
Qed.

(** With enough free slots an acquisition succeeds. *)
Lemma acquire_succeeds sz h lens p :
  pool_inv sz h p → chunks_ok sz lens → memory_ok sz p → accepting p = true →
  (∃ s l, slots p = s :: l ∧ kind s = Tx) →
  (List.length lens ≤ List.length (free_tx p))%nat → 0 ≤ next_lease_id (leases p) < u_max 64 →
  ∃ l p', acquire_tx_window_chunks lens p = Some (Ok l, p').
Proof.
  intros Hp [Hne Hrange Hsum] (seg & base & rlen & Hseg & Hdata & Hlen) Hacc (s0 & sl & Hsl & Hk0) Hfree Hlid.
  enough (wp (acquire_tx_window_chunks lens) (λ r _, is_ok r = true) p) as Hw.
  { unfold wp in Hw. destruct (acquire_tx_window_chunks lens p) as [[[l|] p']|]; [by eexists _, _|done|done]. }
  unfold acquire_tx_window_chunks. apply wp_bind_guard.
  { intros [Hx%bool_decide_eq_true|Hx%bool_decide_eq_true]%orb_true_iff; [done|]. apply Hrange in Hx. lia. }
  intros _. apply wp_bind_gets. rewrite Hsl, decide_True by done. unfold wp at 1.
  assert (len s0 = sz) as Hsz by (apply (inv_slot _ _ _ Hp 0%nat s0); by rewrite Hsl).
  apply wp_bind_lift; [|done]. intros cap [= <-].
  destruct (list_find _ lens) as [[k n]|] eqn:Hfind.
  { apply list_find_Some in Hfind as (Hin%list_elem_of_lookup_2 & Hgt & _). apply Hrange in Hin. lia. }
  apply wp_bind. unfold wp at 1. simpl. apply wp_bind_guard.
  { intros Hx%bool_decide_eq_true. apply Exists_exists in Hx as (n & Hin%Hrange & Hgt). lia. }
  intros _. apply wp_bind_lift; [|intros e He; destruct (foldl_add_Ok lens 0) as [t Ht]; [lia|intros n Hin%Hrange; lia|lia|]; congruence].
  intros total _. apply wp_bind_lift; [|unfold segment_handle; rewrite Hseg; simpl; by rewrite Hdata].
  intros [base' rlen'] Hd. unfold segment_handle in Hd. rewrite Hseg in Hd. simpl in Hd. rewrite Hdata in Hd. injection Hd as <- <-.
  assert (List.length lens ≠ 0%nat) as Hn0 by by destruct lens.
  apply wp_bind_lift.
  2:{ intros e He. exfalso. unfold free_tx_candidates in He. rewrite Hacc in He.
      destruct (Nat.eqb_spec (List.length lens) 0); [lia|]. destruct (Nat.ltb_spec (List.length (free_tx p)) (List.length lens)); [lia|done]. }
  intros indices (_ & Hilen & Hperm)%free_tx_candidates_Ok. apply wp_bind_lift.
  2:{ intros e He. exfalso. destruct (collect_all_Ok (prepare_tx p base rlen) (zip indices lens)) as [ys Hys]; [|congruence].
      intros [i n] Hin. pose proof (elem_of_zip_l _ _ _ _ Hin) as Hi. pose proof (elem_of_zip_r _ _ _ _ Hin) as Hn'.
      eapply prepare_tx_free; [done| |by apply Hrange|done]. apply (inv_free_tx _ _ _ Hp). rewrite Hperm. apply elem_of_app. by left. }
  intros prepared Hprep. destruct (prepared_list _ _ _ _ _ _ _ _ Hp Hilen Hprep) as (Hidx & Hlens & Hpx).
  apply wp_bind_modify, wp_bind.
  eapply wp_mono; [apply (take_tx_slots_spec sz h); [exact Hp|by rewrite Hidx|by apply Hpx]|].
  intros r p1 (-> & Hp1 & (Hle & _) & _). apply wp_bind_catch. unfold wp at 1, pool_issue, issue.
  destruct ((λ x : nat * SlotId * Z * Z * Z, x.1.1.1.2) <$> prepared) as [|id ids] eqn:Hids.
  { exfalso. apply fmap_nil_inv in Hids. subst prepared. simpl in Hlens. by subst lens. }
  rewrite Hle. simpl. unfold u64_checked_add. rewrite decide_True by lia. simpl.
  destruct (Z.eqb_spec (next_lease_id (leases p) + 1) 0); [lia|done].
Qed.
End ledger.
End Ledger.
