(* ===== verification/UrmaRuntime.v ===== *)
(** * The URMA runtime

    Models [src/dragonfly-client-storage/src/urma/runtime.rs]: the process-level
    owner of the native resources, its lanes, polling, retirement of lanes,
    start-up and shutdown.

    The native objects are parameters and what native calls return are inputs:
    the Jetty of [create_lane], the records of [poll_once], the polls that happen
    before the deadline of [shutdown].  [hash_order] is the iteration order of a
    [HashMap], some permutation of the keys. *)

From S2P Require Import Prelude Engine UrmaBuffer UrmaLane UrmaCompletion UrmaPost.
From Stdlib Require Import ZArith Lia String.
From stdpp Require Import base tactics numbers list gmap strings pretty.
Local Open Scope Z_scope.

Module Runtime.
Import Urma Lane Router Post.

(** ** Configuration *)

(** [struct RuntimeConfig], [RuntimeConfig::new]. *)
Record RuntimeConfig := mkRuntimeConfig {
  device_name : string;
  cfg_eid_index : Z;
  send_jfc_depth : Z;
  recv_jfc_depth : Z;
  buffer_pool : BufferPoolConfig;
}.
Definition RuntimeConfig_new (device_name : string) (eid_index : Z) : RuntimeConfig :=
  mkRuntimeConfig device_name eid_index 4096 4096 BufferPoolConfig_default.

(** [RuntimeConfig::with_registered_budget]; the division panics on a zero slot. *)
Definition with_registered_budget (max_registered_bytes tx_registered_bytes : Z) (c : RuntimeConfig)
    : option (Result RuntimeConfig) :=
  let p := buffer_pool c in
  if slot_size p =? 0 then None
  else
    let total_slots := max_registered_bytes `div` slot_size p in
    let tx_slots := tx_registered_bytes `div` slot_size p in
    Some (
      if (total_slots <? 2) || (tx_slots =? 0) || (total_slots <=? tx_slots) then
        Err (InvalidConfiguration
               "URMA registered budget must reserve at least one slot for TX and RX")
      else
        let p := mkBufferPoolConfig (slot_size p) tx_slots (total_slots - tx_slots) (alignment p) in
        _ ← total_len p;
        Ok (mkRuntimeConfig (device_name c) (cfg_eid_index c) (send_jfc_depth c) (recv_jfc_depth c) p)).

(** [effective_max_message_size]. *)
Definition effective_max_message_size (device_max slot_size : Z) : Z := Z.min device_max slot_size.

(** [struct UrmaDeviceCapability]. *)
Record UrmaDeviceCapability := mkCapability {
  cap_transport_type : Z;
  max_jfc : Z; max_jfs : Z; max_jfr : Z; max_jetty : Z;
  max_jfc_depth : Z; max_jfs_depth : Z; max_jfr_depth : Z;
  max_jfs_sge : Z; max_jfs_rsge : Z; max_jfr_sge : Z;
  max_msg_size : Z;
}.

(** The checks of [validate_config] on the depths, in their order. *)
Fixpoint check_depths (max : Z) (depths : list (string * Z)) : Result unit :=
  match depths with
  | [] => Ok tt
  | (name, depth) :: depths =>
      if (depth =? 0) || (max <? depth) then
        Err (InvalidConfiguration (name +:+ "=" +:+ pretty depth +:+ " is outside 1..=" +:+ pretty max))
      else check_depths max depths
  end.

(** [validate_config]. *)
Definition validate_config (config : RuntimeConfig) (capability : UrmaDeviceCapability) : Result unit :=
  _ ← total_len (buffer_pool config);
  if max_jfc capability <? 2 then
    Err (InvalidConfiguration "device reports fewer than two available JFC resources")
  else
    _ ← check_depths (max_jfc_depth capability)
          [("send_jfc_depth", send_jfc_depth config); ("recv_jfc_depth", recv_jfc_depth config)];
    let slot_size := slot_size (buffer_pool config) in
    if max_msg_size capability <? slot_size then
      Err (InvalidConfiguration ("slot_size=" +:+ pretty slot_size +:+ " exceeds max_msg_size=" +:+
                                 pretty (max_msg_size capability)))
    else Ok tt.

(** The checks of [validate_jetty_config] on the values, in their order. *)
Fixpoint check_jetty_values (values : list (string * Z * Z)) : Result unit :=
  match values with
  | [] => Ok tt
  | (name, value, maximum) :: values =>
      if (value =? 0) || (maximum <? value) then
        Err (InvalidConfiguration ("Jetty " +:+ name +:+ "=" +:+ pretty value +:+ " is outside 1..=" +:+
                                   pretty maximum))
      else check_jetty_values values
  end.

(** [validate_jetty_config]. *)
Definition validate_jetty_config (config : JettyConfig) (capability : UrmaDeviceCapability)
    : Result unit :=
  if (max_jetty capability =? 0) || (max_jfs capability =? 0) || (max_jfr capability =? 0) then
    Err (InvalidConfiguration
           "device does not advertise the resources required by a duplex Jetty")
  else
    _ ← check_jetty_values
          [("send_depth", send_depth config, max_jfs_depth capability);
           ("recv_depth", recv_depth config, max_jfr_depth capability);
           ("max_send_sge", max_send_sge config, max_jfs_sge capability);
           ("max_recv_sge", max_recv_sge config, max_jfr_sge capability)];
    if max_jfs_rsge capability =? 0 then
      Err (InvalidConfiguration "device does not advertise an RC remote-SGE capability")
    else if (cfg_post_list_size config =? 0) || (MAX_POST_LIST <? cfg_post_list_size config) then
      Err (InvalidConfiguration ("Jetty post_list_size=" +:+ pretty (cfg_post_list_size config) +:+
             " is outside 1..=" +:+ pretty MAX_POST_LIST))
    else if negb ((1 <=? pipeline_depth config) && (pipeline_depth config <=? 2)) then
      Err (InvalidConfiguration ("Jetty pipeline_depth=" +:+ pretty (pipeline_depth config) +:+
             " is outside 1..=2"))
    else Ok tt.

(** The native objects that only open and close. *)
Class NativeFabric (Q N : Type) := {
  jfc_close : Q → result FfiError unit;
  native_close : N → result FfiError unit;
}.

(** What a poll of one JFC returns. *)
Abbreviation Polled := (result FfiError (list CompletionRecord)).

Section runtime.
Context {J Seg Q N : Type} `{NativeSegment Seg} `{NativeJetty J Seg} `{NativeFabric Q N}.
Context (hash_order : list Z → list Z).

(** [struct UrmaRuntime].  The pool lives in [owner]; [pool_open] is
    [buffer_pool.is_some()].  [process_active] is the static [ACTIVE]. *)
Record UrmaRuntime := mkRuntime {
  capability : UrmaDeviceCapability;
  max_payload_size : Z;
  max_post_list_size : Z;
  owner : Owner Seg;
  pool_open : bool;
  recv_jfc : option Q;
  send_jfc : option Q;
  native : option N;
  rt_accepting : bool;
  poisoned : bool;
  next_lane_id : Z;
  lanes : gmap Z (UrmaLane (J := J));
  process_active : bool;
}.

Definition set_owner (x : Owner Seg) (r : UrmaRuntime) : UrmaRuntime :=
  mkRuntime (capability r) (max_payload_size r) (max_post_list_size r) x (pool_open r) (recv_jfc r)
    (send_jfc r) (native r) (rt_accepting r) (poisoned r) (next_lane_id r) (lanes r) (process_active r).
Definition set_lanes (x : gmap Z UrmaLane) (r : UrmaRuntime) : UrmaRuntime :=
  mkRuntime (capability r) (max_payload_size r) (max_post_list_size r) (owner r) (pool_open r)
    (recv_jfc r) (send_jfc r) (native r) (rt_accepting r) (poisoned r) (next_lane_id r) x
    (process_active r).
Definition set_next_lane_id (x : Z) (r : UrmaRuntime) : UrmaRuntime :=
  mkRuntime (capability r) (max_payload_size r) (max_post_list_size r) (owner r) (pool_open r)
    (recv_jfc r) (send_jfc r) (native r) (rt_accepting r) (poisoned r) x (lanes r) (process_active r).
Definition set_stopping (r : UrmaRuntime) : UrmaRuntime :=
  mkRuntime (capability r) (max_payload_size r) (max_post_list_size r) (owner r) (pool_open r)
    (recv_jfc r) (send_jfc r) (native r) false (poisoned r) (next_lane_id r) (lanes r)
    (process_active r).
Definition set_released (r : UrmaRuntime) : UrmaRuntime :=
  mkRuntime (capability r) (max_payload_size r) (max_post_list_size r) (owner r) false None None None
    (rt_accepting r) (poisoned r) (next_lane_id r) (lanes r) (process_active r).
Definition set_poisoned (p a : bool) (r : UrmaRuntime) : UrmaRuntime :=
  mkRuntime (capability r) (max_payload_size r) (max_post_list_size r) (owner r) (pool_open r)
    (recv_jfc r) (send_jfc r) (native r) (rt_accepting r) p (next_lane_id r) (lanes r) a.

Abbreviation RM A := (PR UrmaRuntime Error A).

Definition rt_owner {A} (m : PR (Owner Seg) Error A) : RM A := pr_zoom owner set_owner m.
Definition rt_router {A} (m : ST CompletionRouter Error A) : RM A := rt_owner (on_router m).

(** [self.buffer_pool.as_mut().ok_or_else(..)?]; an error return drops the
    arguments. *)
Definition refused {A} (dropped : PR (Owner Seg) Error unit) (error : Error) : RM A :=
  _ ← rt_owner dropped; pr_throw error.
Definition open_pool (dropped : PR (Owner Seg) Error unit) : RM unit :=
  r ← pr_gets (λ r, r);
  if pool_open r then mret tt else refused dropped (InvalidConfiguration "buffer pool is closed").

(** A call of the open pool. *)
Definition rt_pool {A} (m : PR (UrmaBufferPool (Seg := Seg)) Error A) : RM A :=
  _ ← open_pool (mret tt); rt_owner (on_pool m).

Definition unknown_lane (lane_id : Z) : Error := Protocol ("unknown URMA lane " +:+ pretty lane_id).

(** A method of the lane in the table ([lane_mut]). *)
Definition rt_lane {A} (lane_id : Z) (m : ST (UrmaLane (J := J)) Error A) : RM A :=
  r ← pr_gets (λ r, r);
  lane ← pr_lift (ok_or (unknown_lane lane_id) (lanes r !! lane_id));
  let '(x, lane) := m lane in
  _ ← pr_modify (λ r, set_lanes (<[lane_id := lane]> (lanes r)) r);
  pr_lift x.

(** A posting method of the lane in the table, with the pool and the router. *)
Definition rt_posting {A} (lane_id : Z) (dropped : PR (Owner Seg) Error unit)
    (m : PR (UrmaLane (J := J) * Owner Seg) Error A) : RM A :=
  _ ← open_pool dropped;
  r ← pr_gets (λ r, r);
  match lanes r !! lane_id with
  | None => refused dropped (unknown_lane lane_id)
  | Some lane =>
      '(x, (lane, o)) ← pr_expect (m (lane, owner r));
      _ ← pr_modify (λ r, set_lanes (<[lane_id := lane]> (lanes r)) (set_owner o r));
      pr_lift x
  end.

(** ** Lanes *)

(** [UrmaRuntime::create_lane]; [created] is what the native library returns for
    the Jetty.  A Jetty that does not end in the table is dropped. *)
Definition create_lane (config : JettyConfig) (created : result FfiError J)
    : RM (Z * JettyDescriptor) :=
  r ← pr_gets (λ r, r);
  _ ← pr_guard (negb (rt_accepting r))
        (InvalidConfiguration "runtime is no longer accepting operations");
  _ ← pr_lift (validate_jetty_config config (capability r));
  let lane_id := next_lane_id r in
  _ ← pr_guard (u_max 16 <? lane_id + 1) (InvalidConfiguration "lane id space exhausted");
  _ ← pr_modify (set_next_lane_id (lane_id + 1));
  _ ← pr_guard (bool_decide (native r = None)) (InvalidConfiguration "runtime is closed");
  _ ← pr_guard (bool_decide (send_jfc r = None)) (InvalidConfiguration "send JFC is closed");
  _ ← pr_guard (bool_decide (recv_jfc r = None)) (InvalidConfiguration "receive JFC is closed");
  jetty ← pr_lift (UrmaJetty_create created config);
  let post_list := Z.min (Z.min (Z.min (cfg_post_list_size config) (send_depth config))
                       (recv_depth config)) (max_post_list_size r) in
  lane ← pr_lift (UrmaLane_new lane_id 1 (cap_transport_type (capability r)) jetty post_list);
  let '(d, lane) := export_descriptor lane in
  descriptor ← pr_lift d;
  _ ← rt_router (register_lane lane_id (local_jetty_id jetty) (local_jfr_id jetty));
  _ ← pr_modify (λ r, set_lanes (<[lane_id := lane]> (lanes r)) r);
  mret (lane_id, descriptor).

(** [UrmaRuntime::bind_lane], [grant_send_credit]. *)
Definition bind_lane (lane_id : Z) (descriptor : JettyDescriptor) : RM unit :=
  _ ← rt_lane lane_id (import_and_bind descriptor);
  rt_lane lane_id mark_ready.
Definition rt_grant_send_credit (lane_id count : Z) : RM unit :=
  rt_lane lane_id (grant_send_credit count).

(** The lanes whose retirement is complete. *)
Definition drained (r : UrmaRuntime) : list Z :=
  List.filter (λ lane_id,
    match lanes r !! lane_id with
    | Some lane =>
        is_draining lane && retirement_armed lane &&
        (outstanding_for_lane lane_id (router (owner r)) =? 0) &&
        lane_flush_done lane_id (router (owner r))
    | None => false
    end) (hash_order (elements (dom (lanes r)))).

(** [UrmaRuntime::reap_drained_lanes]. *)
Definition reap_lane (lane_id : Z) : RM unit :=
  r ← pr_gets (λ r, r);
  _ ← rt_lane lane_id (close_lane (outstanding_for_lane lane_id (router (owner r))));
  _ ← rt_router (unregister_lane lane_id);
  pr_modify (λ r, set_lanes (delete lane_id (lanes r)) r).

Definition reap_drained_lanes : RM unit :=
  r ← pr_gets (λ r, r);
  pr_for reap_lane (drained r).

(** [UrmaRuntime::abort_lane], [close_lane]. *)
Definition abort_lane (lane_id : Z) : RM unit :=
  _ ← rt_router (begin_lane_retirement lane_id);
  _ ← rt_lane lane_id begin_draining;
  reap_drained_lanes.

(** ** Windows and polling *)

(** The drop of the senders of a receive window, and of the arguments of a send
    window. *)
Definition drop_rx_senders (completion_txs : list nat) : PR (Owner Seg) Error unit :=
  pr_for (λ ch, pr_modify (deliver (DropRx ch))) completion_txs.
Definition drop_tx_arguments (lease : TxWindowLease) (completion : nat) : PR (Owner Seg) Error unit :=
  _ ← drop_tx_lease (Some lease); pr_modify (deliver (DropTx completion)).

(** [post_receive_window_registered], [send_registered_window]. *)
Definition rt_post_receive_window (lane_id : Z) (sequences : list Z) (completion_txs : list nat)
    : RM unit :=
  rt_posting lane_id (drop_rx_senders completion_txs)
    (post_receive_window_registered sequences completion_txs).
Definition rt_send_window (lane_id : Z) (lease : TxWindowLease) (sequences : list Z)
    (completion : nat) : RM unit :=
  rt_posting lane_id (drop_tx_arguments lease completion)
    (send_registered_window lease sequences completion).

(** [acquire_tx_window], [acquire_tx_window_chunks], [recycle_tx_window],
    [recycle_rx_window], [recycle_dropped_lease]. *)
Definition rt_acquire_tx_window (length : Z) : RM TxWindowLease := rt_pool (acquire_tx_window length).
Definition rt_acquire_tx_window_chunks (chunk_lengths : list Z) : RM TxWindowLease :=
  rt_pool (acquire_tx_window_chunks chunk_lengths).
Definition rt_recycle_tx_window (lease : TxWindowLease) : RM Z :=
  _ ← open_pool (drop_tx_lease (Some lease)); rt_owner (on_pool (recycle_tx_lease lease)).
Definition rt_recycle_rx_window (lease : RegisteredRxWindowLease) : RM Z :=
  _ ← open_pool (on_pool (pr_modify (λ p, foldl (flip drop_core) p (rx_cores lease))));
  rt_owner (on_pool (recycle_rx_lease lease)).
Definition rt_recycle_dropped_lease (recycle : LeaseRecycle) : RM (Z * LeaseKind) :=
  rt_pool (recycle_dropped_lease recycle).

(** [UrmaRuntime::poll_once]. *)
Definition rt_poll_once (send_polled recv_polled : Polled) : RM Z :=
  r ← pr_gets (λ r, r);
  _ ← pr_guard (bool_decide (send_jfc r = None)) (InvalidConfiguration "send JFC is closed");
  _ ← pr_guard (bool_decide (recv_jfc r = None)) (InvalidConfiguration "receive JFC is closed");
  _ ← pr_guard (negb (pool_open r)) (InvalidConfiguration "buffer pool is closed");
  progress ← pr_catch (rt_owner (poll_once send_polled recv_polled));
  _ ← match progress with Err error => rt_owner (fail_pending error) | Ok _ => mret tt end;
  reap ← pr_catch reap_drained_lanes;
  match progress, reap with
  | Err error, _ => pr_throw error
  | Ok _, Err error => pr_throw error
  | Ok count, Ok _ => mret count
  end.

(** [UrmaRuntime::outstanding]. *)
Definition rt_outstanding (r : UrmaRuntime) : Z := outstanding_total (router (owner r)).

(** ** Shutdown *)

(** The calls of [abort_lane] at shutdown; failures are collected. *)
Fixpoint abort_lanes (ids : list Z) (failures : list string) : RM (list string) :=
  match ids with
  | [] => mret failures
  | lane_id :: ids =>
      x ← pr_catch (abort_lane lane_id);
      abort_lanes ids (match x with Ok _ => failures | Err e => failures ++ [Error_fmt e] end)
  end.

(** The polls until the deadline, or until no lane is left. *)
Fixpoint drain_lanes (polls : list (Polled * Polled)) (failures : list string) : RM (list string) :=
  match polls with
  | [] => mret failures
  | (s, q) :: polls =>
      r ← pr_gets (λ r, r);
      if decide (lanes r = ∅) then mret failures
      else
        x ← pr_catch (rt_poll_once s q);
        drain_lanes polls
          (match x with
           | Ok _ | Err (Completion _ _ _ _ _) => failures
           | Err e => failures ++ [Error_fmt e]
           end)
  end.

Definition note_failure (name : string) (r : result FfiError unit) : list string :=
  match r with Ok _ => [] | Err e => [Error_fmt (native_error name e)] end.

(** The receive JFC, the send JFC and the native runtime are closed in this order;
    what does not close is reported. *)
Definition note_close {X} (name : string) (f : X → result FfiError unit) (o : option X) : list string :=
  match o with Some x => note_failure name (f x) | None => [] end.
Definition close_failures (recv send : option Q) (native : option N) : list string :=
  note_close "delete_recv_jfc" jfc_close recv ++ note_close "delete_send_jfc" jfc_close send ++
  note_close "runtime_close" native_close native.

(** The release of the pool, the JFCs and the native runtime. *)
Definition release_native : RM (list string) :=
  r ← pr_gets (λ r, r);
  pool_failures ← (if pool_open r then
                     x ← pr_catch (rt_owner (on_pool (_ ← stop; close)));
                     mret (match x with Ok _ => [] | Err e => [Error_fmt e] end)
                   else mret []);
  _ ← pr_modify set_released;
  mret (pool_failures ++ close_failures (recv_jfc r) (send_jfc r) (native r)).

(** [UrmaRuntime::shutdown_inner]. *)
Definition shutdown_inner (polls : list (Polled * Polled)) : RM unit :=
  r ← pr_gets (λ r, r);
  _ ← pr_guard (poisoned r)
        (Shutdown ["a previous shutdown attempt left native state uncertain"]);
  _ ← pr_modify set_stopping;
  failures ← abort_lanes (hash_order (elements (dom (lanes r)))) [];
  failures ← drain_lanes polls failures;
  r ← pr_gets (λ r, r);
  failures ← (if decide (lanes r = ∅) then
                fs ← release_native; mret (failures ++ fs)
              else mret (failures ++
                ["timed out retiring " +:+ pretty (size (lanes r)) +:+ " URMA lanes with " +:+
                 pretty (rt_outstanding r) +:+ " outstanding WRs"]));
  match failures with
  | [] => pr_modify (λ r, set_poisoned (poisoned r) false r)
  | _ => _ ← pr_modify (λ r, set_poisoned true (process_active r) r); pr_throw (Shutdown failures)
  end.

(** [Drop for UrmaRuntime], and [UrmaRuntime::shutdown], which consumes the
    runtime: its drop follows. *)
Definition drop_runtime (polls : list (Polled * Polled)) : RM unit :=
  r ← pr_gets (λ r, r);
  if poisoned r then mret tt else _ ← pr_catch (shutdown_inner polls); mret tt.
Definition shutdown (polls polls' : list (Polled * Polled)) : RM unit :=
  x ← pr_catch (shutdown_inner polls);
  _ ← drop_runtime polls';
  pr_lift x.

(** ** Start-up *)

(** [rollback_startup]: closes what was opened and reports what did not close. *)
Definition rollback_startup (primary : Error) (buffer_pool : option (UrmaBufferPool (Seg := Seg)))
    (recv_jfc send_jfc : option Q) (native : option N) : Error :=
  let cleanup_failures :=
    match buffer_pool with
    | Some p => match close p with Some (Err e, _) => [Error_fmt e] | _ => [] end
    | None => []
    end ++ close_failures recv_jfc send_jfc native in
  match cleanup_failures with [] => primary | _ => StartupRollback primary cleanup_failures end.

(** What the native library returns while the runtime starts. *)
Record NativeStart := mkNativeStart {
  opened : result FfiError N;
  queried : result FfiError UrmaDeviceCapability;
  send_jfc_created : result FfiError Q;
  recv_jfc_created : result FfiError Q;
  segment_created : Z → Z → result FfiError Seg;
  pool_number : Z;
}.

(** [CString::new] refuses an interior NUL byte. *)
Definition has_nul (s : string) : bool :=
  List.existsb (λ c, Nat.eqb (Ascii.nat_of_ascii c) 0) (list_ascii_of_string s).

(** [u32::try_from(..).unwrap_or(u32::MAX)]. *)
Definition u32_saturate (z : Z) : Z := Z.min z (u_max 32).

(** [UrmaRuntime::start_inner]. *)
Definition start_inner (config : RuntimeConfig) (n : NativeStart) : Result UrmaRuntime :=
  if has_nul (device_name config) then
    Err (InvalidConfiguration "device name contains an interior NUL byte")
  else
    native ← or_native "runtime_open" (opened n);
    let fail {A} (primary : Error) (recv send : option Q) : Result A :=
      Err (rollback_startup primary None recv send (Some native)) in
    match or_native "query_device" (queried n) with
    | Err primary => fail primary None None
    | Ok capability =>
        match validate_config config capability with
        | Err primary => fail primary None None
        | Ok _ =>
            let pool_config := buffer_pool config in
            let max_payload_size :=
              effective_max_message_size (max_msg_size capability) (slot_size pool_config) in
            let max_post_list_size :=
              Z.min (Z.min (Z.min (send_jfc_depth config) (recv_jfc_depth config))
                       (u32_saturate (tx_slot_count pool_config)))
                (u32_saturate (rx_slot_count pool_config)) in
            match or_native "create_send_jfc" (send_jfc_created n) with
            | Err primary => fail primary None None
            | Ok send_jfc =>
                match or_native "create_recv_jfc" (recv_jfc_created n) with
                | Err primary => fail primary None (Some send_jfc)
                | Ok recv_jfc =>
                    match create (segment_created n) pool_config (pool_number n) with
                    | Err primary => fail primary (Some recv_jfc) (Some send_jfc)
                    | Ok pool =>
                        router ← CompletionRouter_new 16;
                        Ok (mkRuntime capability max_payload_size max_post_list_size
                              (mkOwner router pool ∅ 0 []) true (Some recv_jfc) (Some send_jfc)
                              (Some native) true false 1 ∅ true)
                    end
                end
            end
        end
    end.

(** [UrmaRuntime::start]: the result, and the static [ACTIVE] after it. *)
Definition start (active : bool) (config : RuntimeConfig) (n : NativeStart) : Result UrmaRuntime * bool :=
  if active then (Err AlreadyInitialized, true)
  else
    match start_inner config n with
    | Ok runtime => (Ok runtime, true)
    | Err (StartupRollback primary failures) => (Err (StartupRollback primary failures), true)
    | Err error => (Err error, false)
    end.

(** [transport_type], [max_message_size], [max_jfr_depth], [max_jfs_depth]. *)
Definition rt_transport_type (r : UrmaRuntime) : Z :=
  let t := cap_transport_type (capability r) in if t <? 0 then 0 else t.
Definition probe (r : UrmaRuntime) : Z * Z * Z * Z :=
  (rt_transport_type r, max_payload_size r, max_jfr_depth (capability r), max_jfs_depth (capability r)).
End runtime.
End Runtime.
