(* ===== verification/UrmaRuntimeFacts.v ===== *)
(** * Safety of the runtime

    The invariant of the runtime's state (buffers, work requests, lanes) is kept
    by every operation, for every behaviour of the native library, and none of
    them panics. *)

From S2P Require Import Prelude Engine UrmaBuffer UrmaBufferFacts UrmaLane UrmaCompletion UrmaPost UrmaOwnerFacts UrmaPostFacts UrmaFrame UrmaLedger UrmaRuntime.
From Stdlib Require Import ZArith Lia String.
From stdpp Require Import base tactics numbers list gmap strings pretty.
Local Open Scope Z_scope.

Module RuntimeFacts.
Import Urma Lane Router Post Runtime UrmaBufferFacts OwnerFacts PostFacts Frame Ledger.

Section runtime.
Context {J Seg Q N : Type} `{!NativeSegment Seg} `{!NativeJetty J Seg} `{!NativeFabric Q N}.
Context (hash_order : list Z → list Z).
Abbreviation RT := (UrmaRuntime (J := J) (Seg := Seg) (Q := Q) (N := N)).
Abbreviation Pool := (UrmaBufferPool (Seg := Seg)).
Implicit Types r : RT.

(** The outstanding work requests of lane [l]. *)
Definition by_lane r : gmap Z Z := outstanding_by_lane (router (owner r)).

(** [h]: no send completion was taken from its window. *)
Record runtime_inv (sz : Z) (h : bool) r : Prop := {
  ri_owner : owner_inv sz h None [] [] (owner r);
  ri_next : 1 ≤ next_lane_id r < 65536;
  ri_lanes : ∀ i l, lanes r !! i = Some l →
    Lane.id l = i ∧ Lane.generation l = 1 ∧ 1 ≤ i < next_lane_id r;
  ri_registered : dom (retirement_by_lane (router (owner r))) = dom (lanes r);
  ri_outstanding : ∀ i, is_Some (by_lane r !! i) → i ∈ dom (lanes r);
  ri_segment : pool_open r = true → is_Some (segment (pool (owner r)));
  ri_accepting : pool_open r = true → accepting (pool (owner r)) = true;
  ri_accounted : accounted (pool (owner r));
}.

(** The send slots on the books. *)
Definition rt_total r : Z := tx_total (pool (owner r)).

(** What operations leave alone, besides the owner's state and the lanes. *)
Definition same_frame r r' : Prop :=
  capability r' = capability r ∧ pool_open r' = pool_open r ∧ recv_jfc r' = recv_jfc r ∧
  send_jfc r' = send_jfc r ∧ native r' = native r ∧ rt_accepting r' = rt_accepting r ∧
  poisoned r' = poisoned r ∧ process_active r' = process_active r ∧
  kind <$> slots (pool (owner r')) = kind <$> slots (pool (owner r)).

Lemma same_frame_refl r : same_frame r r.
Proof. done. Qed.
Lemma same_frame_trans r1 r2 r3 : same_frame r1 r2 → same_frame r2 r3 → same_frame r1 r3.
Proof. unfold same_frame. intuition congruence. Qed.

(** A step that keeps the invariant and moves [n] send slots. *)
Record runtime_step (sz : Z) (h : bool) (n : Z) r r' : Prop := {
  rs_inv : runtime_inv sz h r';
  rs_frame : same_frame r r';
  rs_total : rt_total r' = rt_total r + n;
}.

Lemma step_refl sz h r : runtime_inv sz h r → runtime_step sz h 0 r r.
Proof. intros Hr. split; [done|done|lia]. Qed.
Lemma step_trans sz h h' n m r1 r2 r3 :
  runtime_step sz h n r1 r2 → runtime_step sz h' m r2 r3 → runtime_step sz h' (n + m) r1 r3.
Proof. intros [] []. split; [done|by eapply same_frame_trans|lia]. Qed.
Lemma step_trans0 sz h h' r1 r2 r3 :
  runtime_step sz h 0 r1 r2 → runtime_step sz h' 0 r2 r3 → runtime_step sz h' 0 r1 r3.
Proof. apply (step_trans sz h h' 0 0). Qed.

Lemma runtime_inv_weaken sz h r : runtime_inv sz h r → runtime_inv sz false r.
Proof. intros []. split; try done. by eapply owner_inv_weaken. Qed.
Lemma step_weaken sz h n r r' : runtime_step sz h n r r' → runtime_step sz false n r r'.
Proof. intros []. split; try done. by eapply runtime_inv_weaken. Qed.

(** ** The owner's state changes *)
Lemma runtime_inv_owner sz h h' r o' :
  runtime_inv sz h r → owner_inv sz h' None [] [] o' → segment (pool o') = segment (pool (owner r)) →
  accepting (pool o') = accepting (pool (owner r)) → accounted (pool o') →
  dom (retirement_by_lane (router o')) = dom (retirement_by_lane (router (owner r))) →
  (∀ i, is_Some (outstanding_by_lane (router o') !! i) → is_Some (by_lane r !! i) ∨ i ∈ dom (lanes r)) →
  runtime_inv sz h' (set_owner o' r).
Proof.
  intros [Ho Hn Hl Hd Hb Hs Hac Hcc] Ho' Hse Hacc Hacco Hdom Hby. split; try done; simpl.
  - by rewrite Hdom.
  - intros i Hi. destruct (Hby i Hi) as [?|?]; [by apply Hb|done].
  - by rewrite Hse.
  - by rewrite Hacc.
Qed.

(** A completion-side operation. *)
Lemma rt_owner_quiet {A} sz h (m : PR (Owner Seg) Error A) (f : Result A → bool) r :
  runtime_inv sz h r → respects (quiet true) m →
  wp m (λ x o', owner_inv sz (f x) None [] [] o') (owner r) →
  wp (rt_owner (J := J) (Q := Q) (N := N) m) (λ x r', runtime_step sz (f x) 0 r r' ∧ lanes r' = lanes r) r.
Proof.
  intros Hr Hq Hm. unfold rt_owner. apply wp_zoom. eapply wp_mono; [by apply (wp_respects (quiet true))|].
  intros x o' [Ho' [Hqp Hret Hla]]. pose proof Hqp as [Hseg Hacc Hkinds Hle _]. split; [|done].
  destruct (Hle (inv_lease_ids _ _ _ (oi_pool _ _ _ _ _ _ (ri_owner _ _ _ Hr)))) as [_ Htx]. split.
  - eapply runtime_inv_owner; [exact Hr|done|done|done| |done|].
    { eapply quiet_accounted; [apply Hr|done|apply Hr]. } intros i [n Hi]. left.
    destruct (by_lane r !! i) eqn:Hb; [done|]. rewrite Hla in Hi; done.
  - by split_and!.
  - unfold rt_total, tx_total. simpl. rewrite Htx. lia.
Qed.

(** A call of the pool. *)
Lemma rt_ledger {A} sz h (m : PR Pool Error A) (f : Result A → Z) (P : Result A → Prop) r :
  runtime_inv sz h r → wp m (λ x p', ledger_step sz h (f x) (pool (owner r)) p' ∧ P x) (pool (owner r)) →
  wp (rt_owner (J := J) (Q := Q) (N := N) (on_pool m))
    (λ x r', runtime_step sz h (f x) r r' ∧ lanes r' = lanes r ∧ P x) r.
Proof.
  intros Hr Hm. unfold rt_owner. apply wp_zoom, wp_zoom. eapply wp_mono; [exact Hm|].
  intros x p' [[Hp' Hpo Hse Hacc Hkinds Htot Hcc] HP]. split; [|done]. split; [|by split_and!|done].
  eapply runtime_inv_owner; [exact Hr| |done|done|apply Hcc, Hr|done|by left].
  apply owner_inv_pool; [apply Hr|done|]. intros i wr Hi.
  destruct (entry_used _ _ _ _ _ _ (ri_owner _ _ _ Hr) Hi) as (b & Hb & Hst). rewrite Hb. apply Hpo; [|done|done].
  apply not_elem_of_nil.
Qed.

Lemma refused_spec {A} sz h dropped e r :
  runtime_inv sz h r → respects (quiet true) dropped →
  wp dropped (λ x o', x = Ok tt ∧ owner_inv sz h None [] [] o') (owner r) →
  wp (refused (A := A) dropped e) (λ x r', x = Err e ∧ runtime_step sz h 0 r r' ∧ lanes r' = lanes r) r.
Proof.
  intros Hr Hq Hd. unfold refused. apply wp_bind.
  pose proof (rt_owner_quiet sz h dropped (λ _, h) r Hr Hq) as Hs. unfold wp in *. unfold rt_owner, pr_zoom in *.
  destruct (dropped (owner r)) as [[x o']|]; [|done]. destruct Hd as [-> Ho']. destruct (Hs Ho') as [? ?]. done.
Qed.

Lemma drop_tx_dropped sz h l r :
  runtime_inv sz h r → wp (drop_tx_lease l) (λ x o', x = Ok tt ∧ owner_inv sz h None [] [] o') (owner r).
Proof.
  intros Hr. eapply wp_mono; [apply (drop_tx_lease_spec sz h None [] []), Hr|]. by intros x o' (? & ? & _).
Qed.

(** ** The pool's calls *)
Lemma rt_pool_spec {A} sz h (m : PR Pool Error A) (f : Result A → Z) (P : Result A → Prop) r :
  runtime_inv sz h r → (∀ e, f (Err e) = 0) → (∀ e, P (Err e)) →
  wp m (λ x p', ledger_step sz h (f x) (pool (owner r)) p' ∧ P x) (pool (owner r)) →
  wp (rt_pool m) (λ x r', runtime_step sz h (f x) r r' ∧ lanes r' = lanes r ∧ P x) r.
Proof.
  intros Hr Hf HP Hm. unfold rt_pool, open_pool. apply wp_bind, wp_bind_gets. destruct (pool_open r) eqn:Hopen.
  - by apply rt_ledger.
  - eapply wp_mono; [apply refused_spec; [done|apply respects_ret; exact _|split; [done|apply Hr]]|].
    intros x r' (-> & Hs & Hl). rewrite Hf. done.
Qed.

Lemma rt_acquire_spec sz h lens r :
  runtime_inv sz h r →
  wp (rt_acquire_tx_window_chunks lens) (λ x r',
    runtime_step sz h (match x with Ok _ => Z.of_nat (List.length lens) | Err _ => 0 end) r r' ∧ lanes r' = lanes r) r.
Proof.
  intros Hr. eapply wp_mono.
  { apply (rt_pool_spec sz h _ (λ x, match x with Ok _ => Z.of_nat (List.length lens) | Err _ => 0 end) (λ _, True));
      [done|done|done|]. eapply wp_mono; [apply (acquire_ledger sz h), Hr|]. done. }
  by intros x r' (? & ? & _).
Qed.

Lemma rt_recycle_dropped_spec sz h rc r :
  runtime_inv sz h r →
  wp (rt_recycle_dropped_lease rc) (λ x r',
    runtime_step sz h (match x with Ok (n, LeaseTx) => - n | _ => 0 end) r r' ∧ (∀ n k, x = Ok (n, k) → 0 ≤ n)) r.
Proof.
  intros Hr. eapply wp_mono.
  { apply (rt_pool_spec sz h _ (λ x, match x with Ok (n, LeaseTx) => - n | _ => 0 end) (λ x, ∀ n k, x = Ok (n, k) → 0 ≤ n));
      [done|done|done|]. apply recycle_dropped_ledger, Hr. }
  by intros x r' (? & _ & ?).
Qed.

Lemma rt_recycle_tx_spec sz h l r :
  runtime_inv sz h r →
  wp (rt_recycle_tx_window l) (λ x r',
    runtime_step sz h (match x with Ok n => - n | Err _ => 0 end) r r' ∧ lanes r' = lanes r ∧
    (∀ n, x = Ok n → 0 ≤ n)) r.
Proof.
  intros Hr. unfold rt_recycle_tx_window, open_pool. apply wp_bind, wp_bind_gets. destruct (pool_open r).
  - apply (rt_ledger sz h _ (λ x, match x with Ok n => - n | Err _ => 0 end) (λ x, ∀ n, x = Ok n → 0 ≤ n)); [done|].
    apply recycle_tx_ledger, Hr.
  - eapply wp_mono; [apply refused_spec; [done|apply drop_tx_lease_quiet|by apply drop_tx_dropped]|].
    by intros x r' (-> & Hs & Hl).
Qed.

Lemma rt_recycle_rx_spec sz h l r :
  runtime_inv sz h r →
  wp (rt_recycle_rx_window l) (λ x r', runtime_step sz h 0 r r' ∧ lanes r' = lanes r) r.
Proof.
  intros Hr. unfold rt_recycle_rx_window, open_pool. apply wp_bind, wp_bind_gets. destruct (pool_open r).
  - unfold wp at 1, mret, pr_mret.
    eapply wp_mono; [apply (rt_ledger sz h _ (λ _, 0) (λ _, True)); [done|]|by intros x r' (? & ? & _)].
    eapply wp_mono; [apply (recycle_rx_ledger sz h), Hr|]. done.
  - set (m := pr_modify (λ p : Pool, foldl (flip drop_core) p (rx_cores l))). eapply wp_mono.
    { apply (refused_spec sz h (on_pool m)); [done| |].
      - apply on_pool_quiet, respects_modify. intros p. apply drop_cores_quiet.
      - apply wp_zoom. unfold wp, m. simpl. split; [done|]. apply owner_inv_pool; [apply Hr|apply drop_cores_inv, Hr|].
        intros i wr _. f_equal. generalize (pool (owner r)). induction (rx_cores l) as [|c cs IH]; intros p; [done|].
        simpl. rewrite IH. by destruct c. }
    by intros x r' (-> & Hs & Hl).
Qed.

(** ** Lanes *)

Definition named (i g : Z) (l : UrmaLane (J := J)) : Prop := Lane.id l = i ∧ Lane.generation l = g.

Lemma on_jetty_named {A} (m : ST (UrmaJetty (J := J)) Error A) i g : keeps (named i g) (on_jetty m).
Proof. intros l Hl. unfold on_jetty, zoom. by destruct (m (jetty l)). Qed.
#[local] Hint Resolve on_jetty_named : keeps.
#[local] Hint Extern 1 (keeps (named _ _) (modify _)) => apply keeps_modify; by intros ? [? ?] : keeps.
#[local] Ltac named := repeat (intros; first [solve [eauto 2 with keeps] | apply keeps_bind | apply keeps_catch | case_match]).

Lemma lane_methods_named i g :
  (∀ d, keeps (named i g) (import_and_bind d)) ∧ keeps (named i g) mark_ready ∧
  (∀ n, keeps (named i g) (grant_send_credit n)) ∧ keeps (named i g) begin_draining ∧
  (∀ n, keeps (named i g) (close_lane n)) ∧ keeps (named i g) export_descriptor.
Proof.
  unfold import_and_bind, mark_ready, grant_send_credit, begin_draining, close_lane, export_descriptor.
  split_and!; named.
Qed.

(** The table of lanes with one lane changed. *)
Lemma runtime_inv_lane sz h r i l l' :
  runtime_inv sz h r → lanes r !! i = Some l → Lane.id l' = Lane.id l → Lane.generation l' = Lane.generation l →
  runtime_inv sz h (set_lanes (<[i := l']> (lanes r)) r).
Proof.
  intros [Ho Hn Hl Hd Hb Hs Hac Hcc] Hi Hid Hgen.
  assert (dom (<[i := l']> (lanes r)) = dom (lanes r)) as Hdom.
  { rewrite dom_insert_L. apply elem_of_dom_2 in Hi. set_solver. }
  split; try done; simpl.
  - intros j x [[<- <-]|[_ Hj]]%lookup_insert_Some; [|by apply Hl]. destruct (Hl i l Hi) as (? & ? & ?).
    split_and!; first [congruence | lia].
  - by rewrite Hdom.
  - intros j Hj. rewrite Hdom. by apply Hb.
Qed.

Definition same_owner r r' : Prop := owner r' = owner r ∧ dom (lanes r') = dom (lanes r).

Lemma rt_lane_spec {A} sz h i (m : ST (UrmaLane (J := J)) Error A) r :
  runtime_inv sz h r → (∀ j g, keeps (named j g) m) →
  wp (rt_lane (Seg := Seg) (Q := Q) (N := N) i m)
    (λ x r', runtime_step sz h 0 r r' ∧ same_owner r r' ∧
      ∀ a, x = Ok a → ∃ l, lanes r !! i = Some l ∧ (m l).1 = Ok a ∧ lanes r' = <[i := (m l).2]> (lanes r)) r.
Proof.
  intros Hr Hm. unfold rt_lane. apply wp_bind_gets, wp_bind_lift.
  2:{ intros e _. split; [by apply step_refl|done]. }
  intros l Hl%ok_or_Ok. pose proof (Hm (Lane.id l) (Lane.generation l) l) as Hk.
  destruct (m l) as [x l'] eqn:Hml. destruct Hk as [Hid Hg]; [done|]. simpl in Hid, Hg.
  apply wp_bind_modify. unfold wp, pr_lift. split; [|split].
  - split; [by eapply runtime_inv_lane|by split_and!|unfold rt_total; simpl; lia].
  - split; [done|]. simpl. rewrite dom_insert_L. apply elem_of_dom_2 in Hl. set_solver.
  - intros a ->. exists l. by rewrite Hml.
Qed.

Lemma bind_lane_spec sz h i d r :
  runtime_inv sz h r → wp (bind_lane i d) (λ _ r', runtime_step sz h 0 r r' ∧ same_owner r r') r.
Proof.
  intros Hr. unfold bind_lane. apply wp_bind. eapply wp_mono.
  { apply rt_lane_spec; [exact Hr|]. intros j g. apply lane_methods_named. }
  intros [[]|e] r1 (H1 & Hso1 & _); [|done]. eapply wp_mono.
  { apply rt_lane_spec; [apply H1|]. intros j g. apply lane_methods_named. }
  intros x r2 (H2 & Hso2 & _). split; [by eapply step_trans0|]. destruct Hso1, Hso2. split; congruence.
Qed.

Lemma grant_spec sz h i n r :
  runtime_inv sz h r → wp (rt_grant_send_credit i n) (λ _ r', runtime_step sz h 0 r r' ∧ same_owner r r') r.
Proof.
  intros Hr. eapply wp_mono; [apply rt_lane_spec; [exact Hr|]; intros j g; apply lane_methods_named|].
  by intros x r' (? & ? & _).
Qed.

(** ** The router's registrations *)
Lemma rt_router_owner {A} sz h (m : ST CompletionRouter Error A) r x rt' :
  runtime_inv sz h r → m (router (owner r)) = (x, rt') →
  owner_inv sz h None [] [] (Router.set_router rt' (owner r)) →
  dom (retirement_by_lane rt') = dom (retirement_by_lane (router (owner r))) →
  outstanding_by_lane rt' = by_lane r →
  wp (rt_router (J := J) (Q := Q) (N := N) m) (λ y r', y = x ∧ runtime_step sz h 0 r r' ∧
    r' = set_owner (Router.set_router rt' (owner r)) r) r.
Proof.
  intros Hr Hm Ho Hd Hb. unfold rt_router, rt_owner. apply wp_zoom. unfold wp, on_router. rewrite Hm.
  split; [done|]. split; [|done]. split; [|by split_and!|unfold rt_total; simpl; lia].
  eapply runtime_inv_owner; [exact Hr|done|done|done|apply Hr|done|]. intros i. simpl. rewrite Hb. by left.
Qed.

Lemma begin_retirement_spec sz h i r :
  runtime_inv sz h r →
  wp (rt_router (begin_lane_retirement i)) (λ x r', runtime_step sz h 0 r r' ∧ lanes r' = lanes r ∧
    by_lane r' = by_lane r) r.
Proof.
  intros Hr. unfold begin_lane_retirement.
  destruct (retirement_by_lane (router (owner r)) !! i) as [x|] eqn:Hx.
  2:{ unfold rt_router, rt_owner. apply wp_zoom. unfold wp, on_router. rewrite Hx.
      assert (set_owner (Router.set_router (router (owner r)) (owner r)) r = r) as ->.
      { destruct r as [? ? ? o ? ? ? ? ? ? ? ? ?]; by destruct o. }
      split; [by apply step_refl|done]. }
  set (x' := mkLaneRetirement (retired_jetty_id x) (retired_jfr_id x) true (flush_done x)).
  set (rt' := set_retirement (<[i := x']> (retirement_by_lane (router (owner r)))) (router (owner r))).
  eapply wp_mono; [eapply (rt_router_owner sz h _ r (Ok tt) rt' Hr); [by rewrite Hx| | |done]|].
  - pose proof (oi_router _ _ _ _ _ _ (ri_owner _ _ _ Hr)) as [Ht Hs Hc Hla Hj].
    eapply owner_inv_same_router; [apply Hr|done|]. split; simpl; try done.
    intros j l. rewrite Hj. split.
    + intros (y & Hy & Hyj). destruct (decide (i = l)) as [<-|Hne].
      * rewrite lookup_insert_eq. exists x'. split; [done|]. simpl. congruence.
      * exists y. by rewrite lookup_insert_ne.
    + intros (y & [[<- <-]|[Hne Hy]]%lookup_insert_Some & Hyj); [|by exists y]. by exists x.
  - simpl. rewrite dom_insert_L. apply elem_of_dom_2 in Hx. set_solver.
  - by intros y r' (-> & Hs & ->).
Qed.

Lemma set_owner_same r : set_owner (owner r) r = r.
Proof. by destruct r. Qed.
Lemma set_router_same (o : Owner Seg) : Router.set_router (router o) o = o.
Proof. by destruct o. Qed.

(** The router and the table without lane [i]. *)
Lemma runtime_inv_unregister sz h r i x :
  runtime_inv sz h r → retirement_by_lane (router (owner r)) !! i = Some x → by_lane r !! i = None →
  let rt' := set_jetties (delete (retired_jetty_id x) (lane_by_jetty_id (router (owner r))))
               (set_retirement (delete i (retirement_by_lane (router (owner r)))) (router (owner r))) in
  runtime_inv sz h (set_lanes (delete i (lanes r)) (set_owner (Router.set_router rt' (owner r)) r)).
Proof.
  intros [Ho Hn Hl Hd Hb Hs Hac Hcc] Hx Hi rt'. pose proof (oi_router _ _ _ _ _ _ Ho) as [Ht Hse Hc Hla Hj].
  split; simpl; try done.
  - eapply owner_inv_same_router; [exact Ho|done|]. split; simpl; try done. intros j l.
    rewrite lookup_delete_Some, Hj. split.
    + intros [Hne (y & Hy & Hyj)]. exists y. rewrite lookup_delete_ne; [done|]. intros Heq. subst l. simplify_eq.
    + intros (y & [Hne Hy]%lookup_delete_Some & Hyj). split; [|by exists y]. intros Heq.
      assert (lane_by_jetty_id (router (owner r)) !! j = Some l) as H1 by (apply Hj; by exists y).
      assert (lane_by_jetty_id (router (owner r)) !! j = Some i) as H2 by (apply Hj; by exists x).
      congruence.
  - intros j l [_ Hjl]%lookup_delete_Some. by apply Hl.
  - by rewrite !dom_delete_L, Hd.
  - intros j Hj'. rewrite dom_delete_L. apply elem_of_difference. split; [by apply Hb|].
    intros ->%elem_of_singleton. destruct Hj' as [n Hn']. change (by_lane r !! i = Some n) in Hn'. congruence.
Qed.

Lemma reap_lane_spec sz h i r :
  runtime_inv sz h r → by_lane r !! i = None →
  wp (reap_lane i) (λ _ r', runtime_step sz h 0 r r' ∧ by_lane r' = by_lane r) r.
Proof.
  intros Hr Hi. unfold reap_lane. apply wp_bind_gets, wp_bind. eapply wp_mono.
  { apply rt_lane_spec; [exact Hr|]. intros j g. apply lane_methods_named. }
  intros [[]|e] r1 (H1 & [Hso1 Hd1] & _).
  2:{ split; [done|]. unfold by_lane. by rewrite Hso1. }
  unfold rt_router, rt_owner. apply wp_bind, wp_zoom. unfold wp at 1, on_router, unregister_lane.
  rewrite Hso1. destruct (existsb _ _).
  { rewrite set_router_same, <- Hso1, set_owner_same. split; [done|]. unfold by_lane. by rewrite Hso1. }
  destruct (retirement_by_lane (router (owner r)) !! i) as [x|] eqn:Hx.
  2:{ rewrite set_router_same, <- Hso1, set_owner_same. split; [done|]. unfold by_lane. by rewrite Hso1. }
  unfold wp, pr_modify. simpl. split; [|done]. eapply step_trans0; [exact H1|].
  rewrite <- Hso1 in Hx |- *. split; [|by split_and!|unfold rt_total; simpl; lia].
  apply runtime_inv_unregister; [apply H1|done|]. unfold by_lane. by rewrite Hso1.
Qed.

Lemma outstanding_zero (rt : CompletionRouter) i :
  router_ok None rt → outstanding_for_lane i rt = 0 → outstanding_by_lane rt !! i = None.
Proof.
  intros [_ _ _ Hl _]. unfold outstanding_for_lane. rewrite Hl. unfold nonzero.
  destruct (Z.eqb_spec (tally (lane_is i) (entries (outstanding rt))) 0); [done|]. simpl. done.
Qed.

(** Only lanes without outstanding work requests are reaped. *)
Lemma drained_none sz h r i : runtime_inv sz h r → i ∈ drained hash_order r → by_lane r !! i = None.
Proof.
  intros Hr Hi. unfold drained in Hi. apply list_elem_of_In, List.filter_In in Hi as [_ Hi].
  destruct (lanes r !! i); [|done]. apply andb_prop in Hi as [[_ Hi]%andb_prop _].
  apply outstanding_zero; [apply (oi_router _ _ _ _ _ _ (ri_owner _ _ _ Hr))|]. by apply Z.eqb_eq.
Qed.

Lemma reap_spec sz h r :
  runtime_inv sz h r →
  wp (reap_drained_lanes hash_order) (λ _ r', runtime_step sz h 0 r r' ∧ by_lane r' = by_lane r) r.
Proof.
  intros Hr. unfold reap_drained_lanes. apply wp_bind_gets. eapply wp_mono.
  { apply (wp_for _ _ (λ r', runtime_step sz h 0 r r' ∧ by_lane r' = by_lane r)
      (λ _ r', runtime_step sz h 0 r r' ∧ by_lane r' = by_lane r)); [split; [by apply step_refl|done]|].
    intros i r1 Hi [H1 Hb1]. eapply wp_mono; [apply reap_lane_spec; [apply H1|]|].
    - rewrite Hb1. by eapply drained_none.
    - intros x r2 [H2 Hb2]. rewrite Hb2. destruct x; (split; [by eapply step_trans0|done]). }
  by intros [].
Qed.

Lemma abort_lane_spec sz h i r :
  runtime_inv sz h r →
  wp (abort_lane hash_order i) (λ _ r', runtime_step sz h 0 r r' ∧ by_lane r' = by_lane r) r.
Proof.
  intros Hr. unfold abort_lane. apply wp_bind. eapply wp_mono; [by apply begin_retirement_spec|].
  intros [[]|e] r1 (H1 & Hl1 & Hb1); [|done]. apply wp_bind. eapply wp_mono.
  { apply rt_lane_spec; [apply H1|]. intros j g. apply lane_methods_named. }
  intros [[]|e] r2 (H2 & [Ho2 Hd2] & _).
  2:{ split; [by eapply step_trans0|]. rewrite <- Hb1. unfold by_lane. by rewrite Ho2. }
  eapply wp_mono; [apply reap_spec, H2|]. intros x r3 [H3 Hb3].
  split; [eapply step_trans0; [exact H1|]; by eapply step_trans0|]. rewrite Hb3, <- Hb1. unfold by_lane. by rewrite Ho2.
Qed.

(** ** Creating a lane *)
Lemma fresh_lane sz h r : runtime_inv sz h r → lanes r !! next_lane_id r = None.
Proof.
  intros Hr. destruct (lanes r !! next_lane_id r) as [l|] eqn:Hl; [|done].
  apply (ri_lanes _ _ _ Hr) in Hl as (_ & _ & ?). lia.
Qed.

Lemma set_next_inv sz h r n :
  runtime_inv sz h r → next_lane_id r ≤ n < 65536 → runtime_inv sz h (set_next_lane_id n r).
Proof.
  intros [Ho Hn Hl Hd Hb Hs Hac Hcc] Hle. split; simpl; try done; [lia|]. intros i l Hi.
  destruct (Hl i l Hi) as (? & ? & ?). split_and!; try done; lia.
Qed.

(** A registered lane enters the table. *)
Lemma runtime_inv_register sz h r i jid fid l :
  runtime_inv sz h r → lanes r !! i = None → 1 ≤ i < next_lane_id r → named i 1 l →
  lane_by_jetty_id (router (owner r)) !! jid = None →
  let rt' := set_retirement (<[i := mkLaneRetirement jid fid false false]> (retirement_by_lane (router (owner r))))
               (set_jetties (<[jid := i]> (lane_by_jetty_id (router (owner r)))) (router (owner r))) in
  runtime_inv sz h (set_lanes (<[i := l]> (lanes r)) (set_owner (Router.set_router rt' (owner r)) r)).
Proof.
  intros [Ho Hn Hl Hd Hb Hs Hac Hcc] Hi Hin [Hid Hgen] Hjid rt'. pose proof (oi_router _ _ _ _ _ _ Ho) as [Ht Hse Hc Hla Hj].
  assert (retirement_by_lane (router (owner r)) !! i = None) as Hret.
  { apply not_elem_of_dom. rewrite Hd. by apply not_elem_of_dom. }
  split; simpl; try done.
  - eapply owner_inv_same_router; [exact Ho|done|]. split; simpl; try done. intros j k.
    rewrite !lookup_insert_Some, Hj. split.
    + intros [[<- <-]|[Hne (y & Hy & Hyj)]].
      * eexists. rewrite lookup_insert_eq. by split.
      * exists y. rewrite lookup_insert_ne; [done|]. intros ->. congruence.
    + intros (y & [[<- <-]|[Hne Hy]]%lookup_insert_Some & Hyj); [by left|]. right. split; [|by exists y].
      intros ->. assert (lane_by_jetty_id (router (owner r)) !! j = Some k) by (apply Hj; by exists y). congruence.
  - intros j k [[<- <-]|[_ Hk]]%lookup_insert_Some; [done|by apply Hl].
  - by rewrite !dom_insert_L, Hd.
  - intros j Hj'. rewrite dom_insert_L. apply elem_of_union. right. by apply Hb.
Qed.

Lemma create_lane_spec sz h cfg created r :
  runtime_inv sz h r →
  wp (create_lane (Q := Q) (N := N) cfg created) (λ x r', runtime_step sz h 0 r r' ∧ by_lane r' = by_lane r ∧
    match x with
    | Ok (i, d) => i = next_lane_id r ∧ ∃ l, lanes r' = <[i := l]> (lanes r) ∧ lane_state l = DescriptorExchanged ∧
                     retirement_armed l = false
    | Err _ => lanes r' = lanes r
    end) r.
Proof.
  intros Hr. unfold create_lane. apply wp_bind_gets.
  assert (runtime_step sz h 0 r r ∧ by_lane r = by_lane r ∧ lanes r = lanes r) as Hsame.
  { split; [by apply step_refl|done]. }
  apply wp_bind_guard; [intros; exact Hsame|]. intros _.
  apply wp_bind_lift; [|intros; exact Hsame]. intros [] _.
  apply wp_bind_guard; [intros; exact Hsame|]. intros Hnext%Z.ltb_ge. change (u_max 16) with 65535 in Hnext. clear Hsame.
  apply wp_bind_modify. set (r1 := set_next_lane_id (next_lane_id r + 1) r).
  assert (runtime_step sz h 0 r r1) as H1.
  { pose proof (ri_next _ _ _ Hr). split; [apply set_next_inv; [done|lia]|done|unfold rt_total; simpl; lia]. }
  assert (runtime_step sz h 0 r r1 ∧ by_lane r1 = by_lane r ∧ lanes r1 = lanes r) as Hsame by done.
  do 3 (apply wp_bind_guard; [intros; exact Hsame|]; intros _).
  apply wp_bind_lift; [|intros; exact Hsame]. intros jt _.
  apply wp_bind_lift; [|intros; exact Hsame]. intros l0 Hl0. destruct (export_descriptor l0) as [d l1] eqn:Hexp.
  apply wp_bind_lift; [|intros; exact Hsame]. intros descr ->.
  assert (named (next_lane_id r) 1 l1 ∧ lane_state l1 = DescriptorExchanged ∧ retirement_armed l1 = false) as (Hnm & Hst & Harm).
  { unfold UrmaLane_new in Hl0. destruct (_ || _); [done|]. injection Hl0 as <-.
    unfold export_descriptor in Hexp. cbv [mbind st_mbind gets lift modify mret st_mret throw] in Hexp. simpl in Hexp.
    destruct (jetty_export_descriptor jt); [|done]. by injection Hexp as _ <-. }
  pose proof (fresh_lane _ _ _ Hr) as Hfresh.
  unfold rt_router, rt_owner. apply wp_bind, wp_zoom. unfold wp at 1, on_router, register_lane.
  assert (set_owner (Router.set_router (router (owner r1)) (owner r1)) r1 = r1) as Hid.
  { by rewrite set_router_same, set_owner_same. }
  destruct (retirement_by_lane (router (owner r1)) !! next_lane_id r) eqn:Hret; [by rewrite Hid|].
  destruct (lane_by_jetty_id (router (owner r1)) !! local_jetty_id jt) as [ex|] eqn:Hj.
  - match goal with |- context [Router.set_router ?a _] =>
      assert (a = router (owner r1)) as ->; [|by rewrite Hid] end.
    unfold set_jetties. simpl. rewrite insert_insert_eq, insert_id by exact Hj. by destruct (router (owner r)).
  - apply wp_bind_modify. unfold wp. simpl. split; [|split; [done|split; [done|by exists l1]]].
    eapply step_trans0; [exact H1|]. split; [|by split_and!|unfold rt_total; simpl; lia].
    pose proof (ri_next _ _ _ Hr).
    apply (runtime_inv_register sz h r1 (next_lane_id r) (local_jetty_id jt) (local_jfr_id jt) l1); try done;
      [apply H1|simpl; lia].
Qed.

(** ** Windows *)
Lemma entries_lookup (l : list (option OutstandingWr)) wr : wr ∈ entries l ↔ ∃ i, l !! i = Some (Some wr).
Proof.
  unfold entries. rewrite list_elem_of_omap. split.
  - intros (x & Hx & ->). by apply list_elem_of_lookup.
  - intros [i Hi]. exists (Some wr). split; [by eapply list_elem_of_lookup_2|done].
Qed.

Lemma tally_pos P es : 0 < tally P es ↔ ∃ wr, wr ∈ es ∧ P wr = true.
Proof.
  induction es as [|x es IH].
  - split; [unfold tally; simpl; lia|]. by intros (? & ?%not_elem_of_nil & _).
  - rewrite tally_cons. pose proof (tally_nonneg P es). split.
    + destruct (P x) eqn:Hx; [intros _; exists x; split; [by left|done]|].
      intros Hp. destruct (proj1 IH) as (wr & ? & ?); [lia|]. exists wr. split; [by right|done].
    + intros (wr & [->|Hin]%elem_of_cons & Hw); [rewrite Hw; lia|].
      assert (0 < tally P es) by (apply IH; by exists wr). destruct (P x); lia.
Qed.

Lemma by_lane_entry rt k :
  router_ok None rt → is_Some (outstanding_by_lane rt !! k) ↔
  ∃ i wr, outstanding rt !! i = Some (Some wr) ∧ wr_lane wr = Some k.
Proof.
  intros [_ _ _ Hl _]. rewrite Hl.
  assert (is_Some (nonzero (tally (lane_is k) (entries (outstanding rt)))) ↔ 0 < tally (lane_is k) (entries (outstanding rt))) as ->.
  { pose proof (tally_nonneg (lane_is k) (entries (outstanding rt))). unfold nonzero.
    destruct (Z.eqb_spec (tally (lane_is k) (entries (outstanding rt))) 0) as [->|]; split; [by intros []|lia|lia|by eexists]. }
  rewrite tally_pos. unfold lane_is. split.
  - intros (wr & [i Hi]%entries_lookup & Hw%bool_decide_eq_true). eauto.
  - intros (i & wr & Hi & Hw). exists wr. rewrite entries_lookup, bool_decide_eq_true. eauto.
Qed.

(** A posting method of a lane. *)
Lemma rt_posting_spec {A} sz h i dropped (m : PR (UrmaLane (J := J) * Owner Seg) Error A) (Ok_post : _ → Prop) r :
  runtime_inv sz h r → respects (quiet true) dropped → respects quiet_post m →
  wp dropped (λ x o', x = Ok tt ∧ owner_inv sz h None [] [] o') (owner r) →
  (∀ l, lanes r !! i = Some l → lane_valid l → is_Some (segment (pool (owner r))) →
     wp m (λ x s', same_lane l s'.1 ∧ owner_inv sz h None [] [] s'.2 ∧ entries_from (Lane.id l) (owner r) s'.2 ∧
       Ok_post (x, s')) (l, owner r)) →
  wp (rt_posting (Q := Q) (N := N) i dropped m) (λ x r', runtime_step sz h 0 r r' ∧
    (lanes r' = lanes r ∧ (∃ e, x = Err e) ∨
     ∃ l l', lanes r !! i = Some l ∧ lanes r' = <[i := l']> (lanes r) ∧ same_lane l l' ∧ Ok_post (x, (l', owner r')))) r.
Proof.
  intros Hr Hqd Hqm Hd Hm. unfold rt_posting, open_pool. apply wp_bind, wp_bind_gets.
  assert (∀ e : Error, wp (refused (A := A) (J := J) (Q := Q) (N := N) dropped e) (λ x r', runtime_step sz h 0 r r' ∧
    (lanes r' = lanes r ∧ (∃ e, x = Err e) ∨ ∃ l l', lanes r !! i = Some l ∧ lanes r' = <[i := l']> (lanes r) ∧
     same_lane l l' ∧ Ok_post (x, (l', owner r')))) r) as Href.
  { intros e. eapply wp_mono; [by apply (refused_spec sz h)|]. intros x r' (-> & ? & ?). split; [done|]. left. eauto. }
  destruct (pool_open r) eqn:Hopen.
  2:{ pose proof (Href (InvalidConfiguration "buffer pool is closed")) as Hw.
      unfold refused, wp, mbind, pr_mbind in *. destruct (rt_owner dropped r) as [[[[]|e] r']|]; done. }
  unfold wp at 1, mret, pr_mret. apply wp_bind_gets.
  destruct (lanes r !! i) as [l|] eqn:Hl; [|apply Href].
  destruct (ri_lanes _ _ _ Hr i l Hl) as (Hid & Hgen & Hrange). pose proof (ri_next _ _ _ Hr) as Hnx.
  assert (lane_valid l) as Hv by (split; [rewrite Hid|rewrite Hgen]; lia).
  specialize (Hm l eq_refl Hv (ri_segment _ _ _ Hr Hopen)).
  pose proof (wp_respects quiet_post m _ _ Hqm Hm) as Hw. clear Hm. unfold wp in Hw.
  destruct (m (l, owner r)) as [[x [l' o']]|] eqn:Hrun; [|done]. simpl in Hw.
  destruct Hw as [(Hsl & Ho' & Hfrom & Hpost) [Hqp Hret _]]. simpl in *. pose proof Hqp as [Hseg Hacc Hkinds Hle _].
  apply wp_bind. unfold wp at 1, pr_expect. simpl. apply wp_bind_modify. unfold wp, pr_lift.
  destruct (Hle (inv_lease_ids _ _ _ (oi_pool _ _ _ _ _ _ (ri_owner _ _ _ Hr)))) as [_ Htx].
  split; [|right; exists l, l'; done].
  assert (runtime_inv sz h (set_owner o' r)) as H1.
  { eapply runtime_inv_owner; [exact Hr|done|done|done| |done|].
    { eapply quiet_accounted; [apply Hr|done|apply Hr]. } intros k Hk.
    apply by_lane_entry in Hk as (j & wr & Hj & Hwr); [|apply Ho']. destruct (Hfrom j wr Hj) as [Hold|Hnew].
    - left. apply by_lane_entry; [apply Hr|]. eauto.
    - right. assert (k = i) as -> by congruence. by eapply elem_of_dom_2. }
  split; [|by split_and!|unfold rt_total, tx_total; simpl; rewrite Htx; lia].
  destruct Hsl as (Hid' & Hgen' & _). by apply (runtime_inv_lane _ _ (set_owner o' r) i l l').
Qed.

Lemma drop_rx_senders_spec sz h chs r :
  runtime_inv sz h r → wp (drop_rx_senders chs) (λ x o', x = Ok tt ∧ owner_inv sz h None [] [] o') (owner r).
Proof.
  intros Hr. unfold drop_rx_senders. eapply wp_mono.
  { apply (wp_for _ _ (owner_inv sz h None [] []) (λ _ _, False)); [apply Hr|].
    intros ch o _ Ho. by apply deliver_inv. }
  by intros [[]|] ?.
Qed.
Lemma drop_rx_senders_quiet chs : respects (quiet true) (drop_rx_senders (Seg := Seg) chs).
Proof. apply respects_for; [exact _|]. intros ch. apply respects_modify. intros o. by apply quiet_same. Qed.

Lemma drop_tx_arguments_spec sz h l ch r :
  runtime_inv sz h r → wp (drop_tx_arguments l ch) (λ x o', x = Ok tt ∧ owner_inv sz h None [] [] o') (owner r).
Proof.
  intros Hr. unfold drop_tx_arguments. apply wp_bind. eapply wp_mono; [by apply drop_tx_dropped|].
  intros x o' [-> Ho']. split; [done|]. by apply deliver_inv.
Qed.
Lemma drop_tx_arguments_quiet l ch : respects (quiet true) (drop_tx_arguments (Seg := Seg) l ch).
Proof.
  apply respects_bind; [exact _|apply drop_tx_lease_quiet|]. intros []. apply respects_modify.
  intros o. by apply quiet_same.
Qed.

(** On success every sequence has its waiter. *)
Lemma rt_post_receive_spec sz h i seqs chs r :
  runtime_inv sz h r →
  wp (rt_post_receive_window i seqs chs) (λ x r', runtime_step sz h 0 r r' ∧ dom (lanes r') = dom (lanes r) ∧
    (x = Ok tt → ∀ q ch, (q, ch) ∈ zip seqs chs →
       registered_rx_by_identity (router (owner r')) !! (i, q) = Some ch)) r.
Proof.
  intros Hr. eapply wp_mono.
  { apply (rt_posting_spec sz h i _ _ (λ y, y.1 = Ok tt → ∀ q ch, (q, ch) ∈ zip seqs chs →
      registered_rx_by_identity (router y.2.2) !! (i, q) = Some ch)); [done|apply drop_rx_senders_quiet|
      apply post_receive_window_quiet|by apply drop_rx_senders_spec|].
    intros l Hl Hv Hseg. eapply wp_mono; [by apply (post_receive_window_spec sz h [] seqs chs (l, owner r)); [apply Hr|..]|].
    intros x s' (Hsl & Ho & _ & _ & Hfrom & _ & Hok). split_and!; try done. simpl. intros Hx q ch Hin.
    destruct (Hok Hx) as [_ Hall]. destruct (ri_lanes _ _ _ Hr i l Hl) as [<- _]. by apply Hall. }
  intros x r' [Hs [[Hl [e ->]]|(l & l' & Hl & Hl' & Hsl & Hok)]].
  - split; [done|]. split; [by rewrite Hl|done].
  - split; [done|]. split; [|exact Hok]. rewrite Hl', dom_insert_L. apply elem_of_dom_2 in Hl. set_solver.
Qed.

(** On success every slot of the lease is outstanding. *)
Lemma rt_send_window_spec sz h i lease seqs ch r :
  runtime_inv sz h r → NoDup (index <$> (layout_slot <$> tx_layouts lease)) →
  wp (rt_send_window i lease seqs ch) (λ x r', runtime_step sz h 0 r r' ∧ dom (lanes r') = dom (lanes r) ∧
    (x = Ok tt → all_outstanding (layout_slot <$> tx_layouts lease) (owner r'))) r.
Proof.
  intros Hr Hnd. eapply wp_mono.
  { apply (rt_posting_spec sz h i _ _ (λ y, y.1 = Ok tt → all_outstanding (layout_slot <$> tx_layouts lease) y.2.2));
      [done|apply drop_tx_arguments_quiet|apply send_registered_window_quiet|by apply drop_tx_arguments_spec|].
    intros l Hl Hv Hseg. eapply wp_mono; [by apply (send_registered_window_spec sz h [] lease seqs ch (l, owner r)); [apply Hr|..]|].
    intros x s' (Hsl & Ho & [Hfrom _] & Hok & _). split_and!; try done. }
  intros x r' [Hs [[Hl [e ->]]|(l & l' & Hl & Hl' & Hsl & Hok)]].
  - split; [done|]. split; [by rewrite Hl|done].
  - split; [done|]. split; [|exact Hok]. rewrite Hl', dom_insert_L. apply elem_of_dom_2 in Hl. set_solver.
Qed.

(** ** Polling *)

(** After an error the completions of the windows are taken away ([h] is lost). *)
Lemma rt_poll_spec sz h s q r :
  runtime_inv sz h r → polled_typed s → polled_typed q →
  wp (rt_poll_once hash_order s q) (λ x r', runtime_step sz (h && is_ok x) 0 r r') r.
Proof.
  intros Hr Hs Hq. unfold rt_poll_once. apply wp_bind_gets.
  assert (runtime_step sz false 0 r r) as Hsame by (apply step_refl; by eapply runtime_inv_weaken).
  do 3 (apply wp_bind_guard; [intros; simpl; by rewrite andb_false_r|]; intros _).
  apply wp_bind_catch. eapply wp_mono.
  { apply (rt_owner_quiet sz h _ (λ _, h)); [done|apply poll_once_quiet|].
    apply poll_once_spec; [apply Hr|done|done]. }
  intros progress r1 [H1 _]. apply wp_bind.
  eapply (wp_mono _ (λ x r2, x = Ok tt ∧ runtime_step sz (h && is_ok progress) 0 r r2)).
  - destruct progress as [n|e]; simpl; [by rewrite andb_true_r|]. rewrite andb_false_r.
    pose proof (fail_pending_spec sz h [] e (owner r1) (ri_owner _ _ _ (rs_inv _ _ _ _ _ H1))) as Hf.
    pose proof (rt_owner_quiet sz h (fail_pending e) (λ _, false) r1 (rs_inv _ _ _ _ _ H1)
      (fail_pending_quiet true e)) as Hw.
    unfold wp, rt_owner, pr_zoom in *. destruct (fail_pending e (owner r1)) as [[x o']|]; [|done].
    destruct Hf as (-> & Ho' & _). destruct (Hw Ho') as [H2 _]. split; [done|]. by eapply step_trans0.
  - intros x r2 [-> H2]. apply wp_bind_catch. eapply wp_mono; [apply reap_spec, H2|]. intros reap r3 [H3 _].
    assert (runtime_step sz (h && is_ok progress) 0 r r3) as H by by eapply step_trans0.
    destruct progress as [n|e], reap as [[]|e']; try exact H. eapply step_weaken in H.
    unfold wp, pr_throw. simpl. by rewrite andb_false_r.
Qed.

(** ** Shutdown *)

(** Every outstanding work request belongs to a lane of the table. *)
Lemma no_lanes_no_work sz h r : runtime_inv sz h r → lanes r = ∅ → rt_outstanding r = 0.
Proof.
  intros Hr He. pose proof (oi_router _ _ _ _ _ _ (ri_owner _ _ _ Hr)) as Hok.
  unfold rt_outstanding. rewrite (total_ok _ _ Hok).
  destruct (entries (outstanding (router (owner r)))) as [|wr es] eqn:Hes; [done|].
  assert (wr ∈ entries (outstanding (router (owner r)))) as [i Hi]%entries_lookup by (rewrite Hes; by left).
  destruct (oi_entries _ _ _ _ _ _ (ri_owner _ _ _ Hr) i wr Hi) as (t & ? & Ht & _).
  assert (is_Some (by_lane r !! lane_id t)) as Hb.
  { apply by_lane_entry; [done|]. exists i, wr. split; [done|]. unfold wr_lane, wr_token. by rewrite Ht. }
  apply (ri_outstanding _ _ _ Hr) in Hb. rewrite He in Hb. set_solver.
Qed.

Definition polls_typed (polls : list (Polled * Polled)) : Prop :=
  Forall (λ x, polled_typed x.1 ∧ polled_typed x.2) polls.

Lemma abort_lanes_spec sz h ids fs r :
  runtime_inv sz h r →
  wp (abort_lanes hash_order ids fs) (λ x r', ∃ fs', x = Ok fs' ∧ runtime_step sz h 0 r r') r.
Proof.
  induction ids as [|i ids IH] in r, fs |- *; intros Hr; simpl.
  { eexists. split; [done|]. by apply step_refl. }
  apply wp_bind_catch. eapply wp_mono; [by apply (abort_lane_spec sz h)|]. intros x r1 [H1 _].
  eapply wp_mono; [apply IH, H1|]. intros y r2 (fs' & -> & H2). eexists. split; [done|]. by eapply step_trans0.
Qed.

Lemma drain_lanes_spec sz polls fs r :
  runtime_inv sz false r → polls_typed polls →
  wp (drain_lanes hash_order polls fs) (λ x r', ∃ fs', x = Ok fs' ∧ runtime_step sz false 0 r r') r.
Proof.
  intros Hr Hp. induction Hp as [|[s q] polls [Hs Hq] _ IH] in r, fs, Hr |- *; simpl.
  { eexists. split; [done|]. by apply step_refl. }
  apply wp_bind_gets. case_decide; [eexists; split; [done|by apply step_refl]|].
  apply wp_bind_catch. eapply wp_mono; [by apply (rt_poll_spec sz false)|]. intros x r1 H1.
  eapply wp_mono; [apply IH, H1|]. intros y r2 (fs' & -> & H2). eexists. split; [done|]. exact (step_trans0 _ _ _ _ _ _ H1 H2).
Qed.

(** What [shutdown_inner] leaves when it runs to the end of its work. *)
Definition released r : Prop :=
  pool_open r = false ∧ recv_jfc r = None ∧ send_jfc r = None ∧ native r = None.

Lemma set_released_inv sz h r : runtime_inv sz h r → runtime_inv sz h (set_released r).
Proof. intros []. by split. Qed.

Lemma release_native_spec sz r :
  runtime_inv sz false r → lanes r = ∅ →
  wp release_native (λ x r', ∃ fs, x = Ok fs ∧ runtime_inv sz false r' ∧ released r' ∧ lanes r' = ∅ ∧
    poisoned r' = poisoned r ∧ process_active r' = process_active r ∧ rt_accepting r' = rt_accepting r ∧
    (fs = [] → pool_open r = true → active (leases (pool (owner r'))) = ∅ ∧ segment (pool (owner r')) = None)) r.
Proof.
  intros Hr He. unfold release_native. apply wp_bind_gets, wp_bind.
  eapply (wp_mono _ (λ x r', ∃ fs, x = Ok fs ∧ runtime_inv sz false (set_released r') ∧ lanes r' = ∅ ∧
    poisoned r' = poisoned r ∧ process_active r' = process_active r ∧ rt_accepting r' = rt_accepting r ∧
    (fs = [] → pool_open r = true → active (leases (pool (owner r'))) = ∅ ∧ segment (pool (owner r')) = None))).
  - destruct (pool_open r) eqn:Ho.
    2:{ eexists. split; [done|]. split; [by apply set_released_inv|done]. }
    apply wp_bind_catch. unfold rt_owner. apply wp_zoom, wp_zoom. apply wp_bind_modify.
    pose proof (close_spec sz false (set_accepting false (pool (owner r)))
      (pool_inv_accepting _ _ _ _ (oi_pool _ _ _ _ _ _ (ri_owner _ _ _ Hr)))) as Hc.
    eapply wp_mono; [exact Hc|]. intros x p' (Hp' & _ & Hsl & Hle & Hx). simpl in Hsl, Hle.
    eexists. split; [done|]. split; [|split; [done|split; [done|split; [done|split; [done|]]]]].
    + apply (ri_owner _ _ _) in Hr as Hro. pose proof Hr as [_ Hn Hl Hd Hb _ _ Hcc].
      split; try done; simpl; [apply owner_inv_pool; [done|done|]; intros i wr _; by rewrite Hsl|].
      intros i s. rewrite Hsl. unfold covered_tx, tx_leases. rewrite Hle. apply Hcc.
    + destruct x as [[]|e]; [|done]. intros _ _. simpl. rewrite Hle. simpl in Hx. by destruct Hx.
  - intros x r1 (fs & -> & H1 & Hl1 & Hp1 & Ha1 & Hac1 & Hc1). apply wp_bind_modify. unfold wp, mret, pr_mret.
    eexists. split; [done|]. do 6 (split; [done|]).
    intros [Hfs _]%app_eq_nil. by apply Hc1.
Qed.

(** A shutdown releases the native resources only when no lane and no work
    request is left; it clears the process guard exactly when it succeeds, and
    then the segment is unregistered and no lease is active. *)
Definition shutdown_post sz r (x : Result unit) r' : Prop :=
  runtime_inv sz false r' ∧ rt_accepting r' = false ∧
  match x with
  | Ok _ => released r' ∧ lanes r' = ∅ ∧ rt_outstanding r' = 0 ∧ process_active r' = false ∧ poisoned r' = false ∧
      (pool_open r = true → active (leases (pool (owner r'))) = ∅ ∧ segment (pool (owner r')) = None)
  | Err e => poisoned r' = true ∧ process_active r' = process_active r ∧ (∃ f fs, e = Shutdown (f :: fs)) ∧
      (lanes r' ≠ ∅ → same_frame (set_stopping (set_poisoned true (process_active r) r)) r')
  end.

Lemma set_stopping_inv sz h r : runtime_inv sz h r → runtime_inv sz h (set_stopping r).
Proof. intros []. by split. Qed.
Lemma set_poisoned_inv sz h p a r : runtime_inv sz h r → runtime_inv sz h (set_poisoned p a r).
Proof. intros []. by split. Qed.

Lemma shutdown_inner_spec sz h polls r :
  runtime_inv sz h r → poisoned r = false → polls_typed polls →
  wp (shutdown_inner hash_order polls) (shutdown_post sz r) r.
Proof.
  intros Hr Hpo Hp. unfold shutdown_inner. apply wp_bind_gets. rewrite Hpo. apply wp_bind_guard; [done|]. intros _.
  apply wp_bind_modify, wp_bind. eapply wp_mono; [apply (abort_lanes_spec sz h); by apply set_stopping_inv|].
  intros x r1 (fs & -> & H1). apply wp_bind. eapply wp_mono.
  { apply (drain_lanes_spec sz); [by eapply runtime_inv_weaken, H1|done]. }
  intros x r2 (fs2 & -> & H2). eapply step_weaken in H1.
  assert (runtime_step sz false 0 (set_stopping r) r2) as H by by eapply step_trans0. clear H1 H2.
  apply wp_bind_gets, wp_bind. destruct H as [H2 Hfr _].
  assert (rt_accepting r2 = false ∧ pool_open r2 = pool_open r ∧ process_active r2 = process_active r)
    as (Hac & Hop & Hpa) by (by destruct Hfr as (? & ? & ? & ? & ? & ? & ? & ? & ?)).
  case_decide as He.
  - apply wp_bind. eapply wp_mono; [by apply (release_native_spec sz)|].
    intros x r3 (fs3 & -> & H3 & Hrel & Hl3 & Hp3 & Ha3 & Hac3 & Hc3). unfold wp at 1, mret, pr_mret.
    rewrite Hac in Hac3.
    destruct (fs2 ++ fs3) as [|f fs'] eqn:Hfs.
    + apply app_eq_nil in Hfs as [-> ->]. unfold wp, pr_modify. split; [by apply set_poisoned_inv|]. split; [done|].
      split; [done|]. split; [done|]. split; [by apply (no_lanes_no_work sz false r3)|]. split; [done|].
      split; [simpl; rewrite Hp3; destruct Hfr as (_ & _ & _ & _ & _ & _ & -> & _); exact Hpo|].
      intros Ho. apply Hc3; [done|]. by rewrite Hop.
    + apply wp_bind_modify. unfold wp, pr_throw. split; [by apply set_poisoned_inv|]. split; [done|].
      split; [done|]. split; [simpl; congruence|]. split; [by eexists _, _|]. by intros Hne.
  - unfold wp at 1, mret, pr_mret. destruct (fs2 ++ _) as [|f fs'] eqn:Hfs; [by destruct fs2|].
    apply wp_bind_modify. unfold wp, pr_throw. split; [by apply set_poisoned_inv|]. split; [done|].
    split; [done|]. split; [done|]. split; [by eexists _, _|]. intros _.
    destruct Hfr as (? & ? & ? & ? & ? & ? & ? & ? & ?). by split_and!.
Qed.

(** The drop of a runtime that was shut down stores into the process guard once
    more, whatever it holds by then. *)
Lemma drop_released polls r :
  released r → lanes r = ∅ → poisoned r = false → hash_order [] = [] →
  ∃ r', drop_runtime hash_order polls r = Some (Ok tt, r') ∧ process_active r' = false.
Proof.
  intros (Ho & H1 & H2 & H3) Hl Hp Hh. unfold drop_runtime, shutdown_inner. cbv [mbind pr_mbind pr_gets pr_catch].
  rewrite Hp. simpl. unfold pr_guard, pr_modify. simpl. rewrite Hp. simpl. rewrite Hl, dom_empty_L, elements_empty, Hh. simpl.
  unfold mret, pr_mret.
  assert (∀ s : RT, lanes s = ∅ → drain_lanes hash_order polls [] s = Some (Ok [], s)) as Hd.
  { intros s Hs. destruct polls as [|[a b] polls]; [done|]. simpl. cbv [mbind pr_mbind pr_gets].
    by rewrite decide_True. }
  rewrite Hd by done. simpl. rewrite decide_True by done. unfold release_native.
  cbv [mbind pr_mbind pr_gets]. simpl. rewrite Ho, H1, H2, H3. simpl. by eexists.
Qed.

(** ** Start-up *)
Lemma start_inner_spec config n r :
  0 ≤ tx_slot_count (buffer_pool config) → 0 ≤ rx_slot_count (buffer_pool config) → 0 ≤ slot_size (buffer_pool config) →
  start_inner (J := J) config n = Ok r →
  runtime_inv (slot_size (buffer_pool config)) true r ∧ pool_open r = true ∧ rt_total r = 0 ∧
  lanes r = ∅ ∧ poisoned r = false ∧ process_active r = true ∧
  List.length (tx_indices (pool (owner r))) = Z.to_nat (tx_slot_count (buffer_pool config)).
Proof.
  intros Htx Hrx Hsz. unfold start_inner. destruct (has_nul _); [done|]. rewrite result_bind_Ok. intros (nat & _ & H).
  destruct (or_native "query_device" _) as [cap|]; [|done]. destruct (validate_config _ _); [|done].
  destruct (or_native "create_send_jfc" _) as [sj|]; [|done]. destruct (or_native "create_recv_jfc" _) as [rj|]; [|done].
  destruct (create _ _ _) as [p|] eqn:Hc; [|done]. injection H as <-. simpl.
  pose proof Hc as Hcreate. apply create_spec in Hc as (Hp & Hact & Hacc & Hftx & Hfrx & Hfree); [|done..].
  split; [|split_and!; try done].
  - split; simpl; try done.
    + split; simpl; [by apply Hp|intros i wr Hi; by rewrite lookup_nil in Hi|..]; split; simpl; try done.
      * intros j l. rewrite lookup_empty. split; [done|]. intros (x & Hx & _). by rewrite lookup_empty in Hx.
      * by intros w ?%not_elem_of_nil.
      * intros w [x Hx]. by rewrite lookup_empty in Hx.
    + unfold by_lane. simpl. intros i [x Hx]. by rewrite lookup_empty in Hx.
    + intros _. unfold create in Hcreate. rewrite result_bind_Ok in Hcreate. destruct Hcreate as (t & _ & Hcreate).
      apply result_bind_Ok in Hcreate as (sg & _ & Hcreate). apply result_bind_Ok in Hcreate as (? & _ & Hcreate).
      apply result_bind_Ok in Hcreate as (? & _ & Hcreate). apply result_bind_Ok in Hcreate as (? & _ & [= <-]). done.
    + intros i s Hi _ Hst. by apply Hfree in Hi.
  - unfold rt_total, tx_total, tx_leases. simpl. rewrite Hact, map_filter_empty. done.
  - rewrite <- Hftx. apply Permutation_length, NoDup_Permutation; [apply tx_indices_NoDup|apply (Hp true)|].
    intros i. rewrite elem_of_tx_indices, (proj2 (inv_free_tx _ _ _ (Hp true)) i). unfold is_free. split.
    + intros (s & Hs & Hk). exists s. split_and!; try done. by eapply Hfree.
    + intros (s & ? & ? & _). by exists s.
Qed.
End runtime.
End RuntimeFacts.
