(* ===== verification/UrmaFabric.v ===== *)
(** * The fabric: the owner thread and its clients

    Models [src/dragonfly-client-storage/src/urma/fabric.rs]: the commands,
    [handle_command], the turns of the loop of [run_owner], the poisoning of the
    fabric, its shutdown, and the admission of the clients (the permits for send
    slots and for the command queue).

    What a client sends and what native calls return are inputs of a turn.  A
    reply is appended to [replies]; a reply whose receiver is gone drops what it
    carries.  A semaphore is the number of its free permits. *)

From S2P Require Import Prelude Engine UrmaBuffer UrmaLane UrmaCompletion UrmaPost UrmaRuntime.
From Stdlib Require Import ZArith Lia String.
From stdpp Require Import base tactics numbers list gmap strings pretty.
Local Open Scope Z_scope.

Module Fabric.
Import Urma Lane Router Post Runtime.

Definition DEFAULT_COMMAND_CAPACITY : Z := 16.
Definition MAX_COMMANDS_PER_TICK : nat := 16.

(** [window_chunks_for_slots]. *)
Definition window_chunks_for_slots (slots pipeline_depth : Z) : Z :=
  let depth := Z.max pipeline_depth 1 in u32_saturate (Z.max (slots `div` depth) 1).

#[global] Instance BufferPoolConfig_eq_dec : EqDecision BufferPoolConfig.
Proof. solve_decision. Defined.
#[global] Instance RuntimeConfig_eq_dec : EqDecision RuntimeConfig.
Proof. solve_decision. Defined.

(** [validate_shared_config]. *)
Definition validate_shared_config (active requested : RuntimeConfig) : Result unit :=
  if decide (active = requested) then Ok tt
  else Err (InvalidConfiguration
    ("URMA Fabric is already running for device " +:+ device_name active +:+ " EID " +:+
     pretty (cfg_eid_index active) +:+ ", requested device " +:+ device_name requested +:+ " EID " +:+
     pretty (cfg_eid_index requested))).

(** [struct UrmaLaneConfig], its default and its conversion. *)
Record UrmaLaneConfig := mkLaneConfig {
  lc_send_depth : Z;
  lc_recv_depth : Z;
  lc_max_send_sge : Z;
  lc_max_recv_sge : Z;
  lc_post_list_size : Z;
  lc_pipeline_depth : Z;
  lc_token : Z;
}.
Definition UrmaLaneConfig_default : UrmaLaneConfig := mkLaneConfig 128 512 1 1 1 2 0.
Definition into_JettyConfig (c : UrmaLaneConfig) : JettyConfig :=
  mkJettyConfig (lc_send_depth c) (lc_recv_depth c) (lc_max_send_sge c) (lc_max_recv_sge c)
    (lc_post_list_size c) (lc_pipeline_depth c) (lc_token c).

(** [enum FabricReadiness]. *)
Inductive FabricReadiness : Type := Starting | FabricReady | FabricFailed (error : string) | Stopped.

(** [fabric_stopped]. *)
Definition fabric_stopped : Error := Shutdown ["URMA owner thread is stopped"].

(** [UrmaFabric::get_or_start_config]: the registry holds the configuration and
    readiness of a fabric that is still referenced; [None] means that a new one
    is started. *)
Definition get_or_start_config (shared : option (RuntimeConfig * FabricReadiness))
    (config : RuntimeConfig) : option (Result unit) :=
  match shared with
  | None => None
  | Some (active, readiness) => Some (
      _ ← validate_shared_config active config;
      match readiness with
      | FabricReady => Ok tt
      | Starting => Err (InvalidConfiguration "shared URMA Fabric is still starting")
      | FabricFailed error => Err (Protocol ("shared URMA Fabric failed: " +:+ error))
      | Stopped => Err fabric_stopped
      end)
  end.

(** [registered_bytes], [tx_registered_bytes], [rx_registered_bytes]. *)
Definition registered_bytes (c : RuntimeConfig) : Z :=
  match total_len (buffer_pool c) with Ok n => n | Err _ => 0 end.
Definition saturating_mul (a b : Z) : Z := Z.min (a * b) (u_max 64).
Definition tx_registered_bytes (c : RuntimeConfig) : Z :=
  saturating_mul (slot_size (buffer_pool c)) (tx_slot_count (buffer_pool c)).
Definition rx_registered_bytes (c : RuntimeConfig) : Z :=
  saturating_mul (slot_size (buffer_pool c)) (rx_slot_count (buffer_pool c)).

(** [max_tx_window_chunks], [max_native_receive_depth], [max_native_send_depth]. *)
Definition max_tx_window_chunks (c : RuntimeConfig) (pipeline_depth : Z) : Z :=
  window_chunks_for_slots (tx_slot_count (buffer_pool c)) pipeline_depth.
Definition max_native_receive_depth (c : RuntimeConfig) (max_jfr_depth : Z) : Z :=
  Z.min max_jfr_depth (u32_saturate (rx_slot_count (buffer_pool c))).
Definition max_native_send_depth (c : RuntimeConfig) (max_jfs_depth : Z) : Z :=
  Z.min max_jfs_depth (u32_saturate (tx_slot_count (buffer_pool c))).

(** [enum FabricCommand]; [tx_slots] is the number of permits it owns. *)
Inductive FabricCommand : Type :=
| CreateLane (config : UrmaLaneConfig)
| BindLane (lane_id : Z) (descriptor : bytes)
| PostReceiveWindowRegistered (lane_id : Z) (sequences : list Z) (completion_txs : list nat)
| GrantSendCredit (lane_id count : Z)
| AcquireTxWindow (length tx_slots : Z)
| AcquireTxWindowChunks (chunk_lengths : list Z) (tx_slots : Z)
| RecycleTxWindow (lease : TxWindowLease)
| RecycleRxWindow (lease : RegisteredRxWindowLease)
| SendRegisteredWindow (lane_id : Z) (lease : TxWindowLease) (sequences : list Z) (completion : nat)
| CloseLane (lane_id : Z)
| AbortLane (lane_id : Z)
| RecycleLease (recycle : LeaseRecycle)
| ShutdownFabric (reply : bool).

(** What is sent through a reply channel. *)
Inductive Reply : Type :=
| ReplyLane (r : Result (Z * bytes))
| ReplyUnit (r : Result unit)
| ReplyLease (r : Result TxWindowLease)
| ReplyCount (r : Result Z).

(** [enum OwnerControl]. *)
Inductive OwnerControl : Type := Continue | ShutdownOwner (reply : bool).

(** The most permits a semaphore holds ([Semaphore::MAX_PERMITS]). *)
Definition MAX_PERMITS : Z := 2 ^ 61 - 1.

(** [reject_if_poisoned]. *)
Definition reject_if_poisoned (poisoned : option string) : Result unit :=
  match poisoned with
  | Some failure => Err (Protocol ("URMA fabric is poisoned: " +:+ failure))
  | None => Ok tt
  end.

Section fabric.
Context {J Seg Q N : Type} `{NativeSegment Seg} `{NativeJetty J Seg} `{NativeFabric Q N}.
Context (hash_order : list Z → list Z).

(** The state of the owner thread: its runtime, the local [poisoned] of
    [run_owner], the send permits, the published readiness and the replies. *)
Abbreviation RT := (UrmaRuntime (J := J) (Seg := Seg) (Q := Q) (N := N)).
Record FabricOwner := mkFabricOwner {
  runtime : RT;
  poison : option string;
  tx_slot_admission : Z;
  readiness : FabricReadiness;
  replies : list Reply;
}.

Definition set_runtime r (f : FabricOwner) : FabricOwner :=
  mkFabricOwner r (poison f) (tx_slot_admission f) (readiness f) (replies f).
Definition set_admission n (f : FabricOwner) : FabricOwner :=
  mkFabricOwner (runtime f) (poison f) n (readiness f) (replies f).
Definition set_readiness x (f : FabricOwner) : FabricOwner :=
  mkFabricOwner (runtime f) (poison f) (tx_slot_admission f) x (replies f).
Definition add_reply x (f : FabricOwner) : FabricOwner :=
  mkFabricOwner (runtime f) (poison f) (tx_slot_admission f) (readiness f) (replies f ++ [x]).

Abbreviation FM A := (PR FabricOwner Error A).
Definition on_runtime {A} (m : PR RT Error A) : FM A := pr_zoom runtime set_runtime m.

(** [Semaphore::add_permits] panics above its maximum. *)
Definition add_permits (count : Z) : FM unit :=
  f ← pr_gets (λ f, f);
  n ← pr_expect (if MAX_PERMITS <? tx_slot_admission f + count then None
                 else Some (tx_slot_admission f + count));
  pr_modify (set_admission n).

(** [reply.send(..)]: without a receiver the value is dropped. *)
Definition send_reply (open : bool) (x : Reply) : FM unit :=
  if open then pr_modify (add_reply x)
  else match x with
       | ReplyLease (Ok lease) => on_runtime (rt_owner (drop_tx_lease (Some lease)))
       | _ => mret tt
       end.

(** [reject_if_poisoned(poisoned).and_then(..)]; a refusal drops what the closure
    captured. *)
Definition unless_poisoned {A} (dropped : PR (Owner Seg) Error unit) (m : PR RT Error A)
    : FM (Result A) :=
  f ← pr_gets (λ f, f);
  match reject_if_poisoned (poison f) with
  | Err e => _ ← on_runtime (rt_owner dropped); mret (Err e)
  | Ok _ => pr_catch (on_runtime m)
  end.

(** The [CreateLane] arm: a descriptor that does not serialise closes the lane. *)
Definition create_lane_command (config : UrmaLaneConfig) (created : result FfiError J)
    : PR RT Error (Z * bytes) :=
  '(lane_id, descriptor) ← create_lane (into_JettyConfig config) created;
  match JettyDescriptor_serialize descriptor with
  | Ok descriptor => mret (lane_id, descriptor)
  | Err error => _ ← pr_catch (abort_lane hash_order lane_id); pr_throw error
  end.

Definition bind_lane_command (lane_id : Z) (descriptor : bytes) : PR RT Error unit :=
  descriptor ← pr_lift (JettyDescriptor_deserialize descriptor);
  bind_lane lane_id descriptor.

(** The [AcquireTxWindow] arms: the permits are forgotten on success
    ([commit_tx_slot_permit]) and returned when the permit is dropped. *)
Definition acquire_command (open : bool) (tx_slots : Z) (m : PR RT Error TxWindowLease)
    : FM unit :=
  result ← unless_poisoned (mret tt) m;
  _ ← send_reply open (ReplyLease result);
  match result with Ok _ => mret tt | Err _ => add_permits tx_slots end.

(** [handle_command]; [created] is the native Jetty of a [CreateLane]. *)
Definition handle_command (command : FabricCommand) (open : bool) (created : result FfiError J)
    : FM OwnerControl :=
  match command with
  | CreateLane config =>
      result ← unless_poisoned (mret tt) (create_lane_command config created);
      _ ← send_reply open (ReplyLane result);
      mret Continue
  | BindLane lane_id descriptor =>
      result ← unless_poisoned (mret tt) (bind_lane_command lane_id descriptor);
      _ ← send_reply open (ReplyUnit result);
      mret Continue
  | PostReceiveWindowRegistered lane_id sequences completion_txs =>
      result ← unless_poisoned (drop_rx_senders completion_txs)
                 (rt_post_receive_window lane_id sequences completion_txs);
      _ ← send_reply open (ReplyUnit result);
      mret Continue
  | GrantSendCredit lane_id count =>
      result ← unless_poisoned (mret tt) (rt_grant_send_credit lane_id count);
      _ ← send_reply open (ReplyUnit result);
      mret Continue
  | AcquireTxWindow length tx_slots =>
      _ ← acquire_command open tx_slots (rt_acquire_tx_window length); mret Continue
  | AcquireTxWindowChunks chunk_lengths tx_slots =>
      _ ← acquire_command open tx_slots (rt_acquire_tx_window_chunks chunk_lengths); mret Continue
  | RecycleTxWindow lease =>
      result ← pr_catch (on_runtime (rt_recycle_tx_window lease));
      _ ← match result with Ok count => add_permits count | Err _ => mret tt end;
      _ ← send_reply open (ReplyCount result);
      mret Continue
  | RecycleRxWindow lease =>
      result ← pr_catch (on_runtime (rt_recycle_rx_window lease));
      _ ← send_reply open (ReplyCount result);
      mret Continue
  | SendRegisteredWindow lane_id lease sequences completion =>
      result ← unless_poisoned (drop_tx_arguments lease completion)
                 (rt_send_window lane_id lease sequences completion);
      _ ← send_reply open (ReplyUnit result);
      mret Continue
  | CloseLane lane_id | AbortLane lane_id =>
      result ← pr_catch (on_runtime (abort_lane hash_order lane_id));
      _ ← send_reply open (ReplyUnit result);
      mret Continue
  | RecycleLease recycle =>
      result ← pr_catch (on_runtime (rt_recycle_dropped_lease recycle));
      _ ← match result with Ok (count, LeaseTx) => add_permits count | _ => mret tt end;
      mret Continue
  | ShutdownFabric reply => mret (ShutdownOwner reply)
  end.

(** [poison_once]. *)
Definition poison_once (failure : string) (f : FabricOwner) : FabricOwner :=
  match poison f with
  | None => mkFabricOwner (runtime f) (Some failure) (tx_slot_admission f) (FabricFailed failure) (replies f)
  | Some _ => f
  end.

(** ** The loop of [run_owner] *)

(** What the command channel returns. *)
Inductive Received : Type :=
| Command (command : FabricCommand) (open : bool) (created : result FfiError J)
| Disconnected.

(** What happens in a turn: commands in the channel, then the polls. *)
Record Turn := mkTurn {
  received : list Received;
  send_polled : Polled;
  recv_polled : Polled;
}.

(** How a turn ends: the loop goes on, it waits for a command, or it leaves. *)
Inductive TurnEnd : Type := Continued | Blocked | Left (reply : bool).

Definition after_command (r : Received) : FM TurnEnd :=
  match r with
  | Disconnected => mret (Left false)
  | Command command open created =>
      control ← handle_command command open created;
      mret (match control with Continue => Continued | ShutdownOwner reply => Left reply end)
  end.

(** The commands of a turn that polls, at most [MAX_COMMANDS_PER_TICK]. *)
Fixpoint take_commands (n : nat) (received : list Received) : FM TurnEnd :=
  match n, received with
  | S n, r :: received =>
      e ← after_command r;
      match e with Continued => take_commands n received | e => mret e end
  | _, _ => mret Continued
  end.

(** The poll at the end of a turn. *)
Definition owner_poll (s q : Polled) : FM TurnEnd :=
  progress ← pr_catch (on_runtime (rt_poll_once hash_order s q));
  match progress with
  | Ok _ => mret Continued
  | Err error => _ ← pr_modify (poison_once (Error_fmt error)); mret Continued
  end.

(** One turn of the loop. *)
Definition run_turn (t : Turn) : FM TurnEnd :=
  f ← pr_gets (λ f, f);
  if rt_outstanding (runtime f) =? 0 then
    match received t with
    | [] => mret Blocked
    | r :: _ => after_command r
    end
  else
    e ← take_commands MAX_COMMANDS_PER_TICK (received t);
    match e with
    | Continued => owner_poll (send_polled t) (recv_polled t)
    | e => mret e
    end.

(** [shutdown_runtime], [finish_owner]. *)
Definition finish_owner (reply : bool) (polls polls' : list (Polled * Polled)) : FM unit :=
  result ← pr_catch (on_runtime (shutdown hash_order polls polls'));
  _ ← pr_modify (set_readiness match result with
                               | Ok _ => Stopped
                               | Err error => FabricFailed (Error_fmt error)
                               end);
  if reply then pr_modify (add_reply (ReplyUnit result)) else mret tt.

(** The owner after [UrmaRuntime::start] succeeded. *)
Definition started (config : RuntimeConfig) (r : RT) : FabricOwner :=
  mkFabricOwner r None (tx_slot_count (buffer_pool config)) FabricReady [].

(** ** The clients *)

(** [acquire_tx_slot_permit]: an error, or the number of permits to wait for. *)
Definition tx_slot_request (count : Z) (readiness : FabricReadiness) : Result Z :=
  if u_max 32 <? count then Err (InvalidConfiguration "TX slot count exceeds u32")
  else if count =? 0 then Err (InvalidConfiguration "TX slot admission count must be non-zero")
  else match readiness with
       | FabricReady => Ok count
       | FabricFailed error => Err (Protocol ("URMA Fabric failed: " +:+ error))
       | Starting | Stopped => Err fabric_stopped
       end.

(** [try_acquire_tx_window_chunks]: the permits left, or the refusal. *)
Definition try_tx_slots (chunk_lengths : list Z) (available : Z) : Result Z :=
  let requested := Z.of_nat (List.length chunk_lengths) in
  if u_max 32 <? requested then Err (InvalidConfiguration "TX slot count exceeds u32")
  else if requested =? 0 then Err (InvalidConfiguration "TX slot admission count must be non-zero")
  else if available <? requested then Err (BufferUnavailable "TX" requested available)
  else Ok (available - requested).

(** The checks of [post_receive_window_registered_with_admission]. *)
Definition rx_admission (sequences : list Z) (try_admission : bool) (required_rx_waiters : Z) : Result unit :=
  if decide (sequences = []) then Err (InvalidConfiguration "registered RX window cannot be empty")
  else if try_admission && negb (required_rx_waiters =? 0) then
    Err (BufferUnavailable "RX" (Z.of_nat (List.length sequences)) 0)
  else Ok tt.

(** [try_submit]: the free places of the command queue. *)
Definition try_command_slot (available : Z) : Result Z :=
  if available <? 1 then Err (BufferUnavailable "fabric command" 1 available) else Ok (available - 1).

(** [wait_timeout] of an operation handle: [outcome] is what arrives before the
    timeout (no value when the sender is dropped), [aborted] the result of the
    abort sent after it. *)
Definition wait_timeout {A} (sequence : Z) (outcome : option (option (Result A))) (abort : bool)
    (aborted : Result unit) : Result A :=
  match outcome with
  | Some (Some r) => r
  | Some None => Err fabric_stopped
  | None =>
      _ ← (if abort then aborted else Ok tt);
      Err (OperationTimeout (Some sequence))
  end.
End fabric.
End Fabric.
