(* ===== verification/UrmaFabricFacts.v ===== *)
(** * Safety of the fabric

    Every command and every poll keeps the invariant of the owner thread,
    without a panic; the permits for send slots are conserved, so that a client
    that holds permits finds as many free send slots. *)

From S2P Require Import Prelude Engine UrmaBuffer UrmaBufferFacts UrmaLane UrmaCompletion UrmaPost UrmaOwnerFacts UrmaPostFacts UrmaFrame UrmaLedger UrmaRuntime UrmaRuntimeFacts UrmaFabric.
From Stdlib Require Import ZArith Lia String.
From stdpp Require Import base tactics numbers list gmap strings pretty.
Local Open Scope Z_scope.

Module FabricFacts.
Import Urma Lane Router Post Runtime Fabric UrmaBufferFacts OwnerFacts PostFacts Frame Ledger RuntimeFacts.

Section fabric.
Context {J Seg Q N : Type} `{!NativeSegment Seg} `{!NativeJetty J Seg} `{!NativeFabric Q N}.
Context (hash_order : list Z → list Z).
Abbreviation FO := (FabricOwner (J := J) (Seg := Seg) (Q := Q) (N := N)).
Abbreviation RT := (UrmaRuntime (J := J) (Seg := Seg) (Q := Q) (N := N)).
Implicit Types f : FO.

(** As long as the fabric is not poisoned, no window lost a completion. *)
Definition healthy f : bool := match poison f with None => true | Some _ => false end.

(** [sz] and [n] are the slot size and the number of send slots; [held] are the
    permits that clients and queued commands own. *)
Record fabric_inv (sz n held : Z) f : Prop := {
  fi_runtime : runtime_inv sz (healthy f) (runtime f);
  fi_open : pool_open (runtime f) = true;
  fi_alive : poisoned (runtime f) = false;
  fi_permits : tx_slot_admission f + held + rt_total (runtime f) = n;
  fi_admission : 0 ≤ tx_slot_admission f;
  fi_held : 0 ≤ held;
  fi_slots : Z.of_nat (List.length (tx_indices (pool (owner (runtime f))))) = n;
  fi_readiness : readiness f = match poison f with None => FabricReady | Some e => FabricFailed e end;
}.

(** A step of the runtime under the owner thread. *)
Record fabric_step (sz n : Z) f f' : Prop := {
  fs_runtime : runtime_step sz (healthy f) n (runtime f) (runtime f');
  fs_poison : poison f' = poison f;
  fs_admission : tx_slot_admission f' = tx_slot_admission f;
  fs_readiness : readiness f' = readiness f;
}.

Lemma tx_indices_kinds (p p' : UrmaBufferPool (Seg := Seg)) :
  kind <$> slots p' = kind <$> slots p → tx_indices p' = tx_indices p.
Proof. intros Hk. unfold tx_indices. by rewrite Hk. Qed.

Lemma fabric_inv_step sz n held k f f' :
  fabric_inv sz n held f → 0 ≤ held - k → fabric_step sz k f f' → fabric_inv sz n (held - k) f'.
Proof.
  intros [Hr Ho Ha Hp Had Hh Hs Hre] Hk [[Hr' Hfr Ht] Hpo Hadm Hrd].
  assert (healthy f' = healthy f) as Hhe by (unfold healthy; by rewrite Hpo).
  destruct Hfr as (_ & Hf1 & _ & _ & _ & _ & Hf2 & _ & Hf3).
  split; [by rewrite Hhe|congruence|congruence|lia|lia|done| |by rewrite Hrd, Hpo].
  by rewrite (tx_indices_kinds _ _ Hf3).
Qed.

Lemma fabric_inv_step0 sz n held f f' :
  fabric_inv sz n held f → fabric_step sz 0 f f' → fabric_inv sz n held f'.
Proof.
  intros Hf Hs. replace held with (held - 0) by lia. eapply fabric_inv_step; [exact Hf| |done].
  pose proof (fi_held _ _ _ _ Hf). lia.
Qed.

Lemma n_bound sz n held f : fabric_inv sz n held f → n ≤ 65536.
Proof.
  intros [Hr _ _ _ _ _ Hs _]. rewrite <- Hs.
  pose proof (inv_count _ _ _ (oi_pool _ _ _ _ _ _ (ri_owner _ _ _ Hr))) as Hc.
  enough (List.length (tx_indices (pool (owner (runtime f)))) ≤ List.length (slots (pool (owner (runtime f)))))%nat by lia.
  unfold tx_indices. etrans; [apply List.filter_length_le|]. by rewrite length_seq, length_fmap.
Qed.

(** A runtime operation of the owner thread. *)
Lemma on_runtime_spec {A} sz f (m : PR RT Error A) (k : Result A → Z) (P : Result A → RT → Prop) :
  wp m (λ x r', runtime_step sz (healthy f) (k x) (runtime f) r' ∧ P x r') (runtime f) →
  wp (on_runtime m) (λ x f', fabric_step sz (k x) f f' ∧ P x (runtime f')) f.
Proof. intros Hm. unfold on_runtime. apply wp_zoom. eapply wp_mono; [exact Hm|]. intros x r' [Hs HP]. by split. Qed.

Lemma add_permits_spec sz n held count f :
  fabric_inv sz n held f → 0 ≤ count ≤ held →
  wp (add_permits count) (λ x f', x = Ok tt ∧ fabric_inv sz n (held - count) f' ∧ poison f' = poison f ∧
    runtime f' = runtime f) f.
Proof.
  intros Hf Hc. pose proof (n_bound _ _ _ _ Hf) as Hn. pose proof Hf as [Hr Ho Ha Hp Had Hh Hs Hre].
  pose proof (slot_sum_nonneg (tx_leases (pool (owner (runtime f))))) as Hnn.
  unfold add_permits. apply wp_bind_gets, wp_bind. unfold rt_total, tx_total in Hp.
  destruct (Z.ltb_spec MAX_PERMITS (tx_slot_admission f + count)) as [Hgt|_].
  { unfold MAX_PERMITS in Hgt. lia. }
  unfold wp, pr_expect, pr_modify. simpl. split; [done|]. split; [|done].
  split; simpl; try done; [unfold rt_total, tx_total; lia|lia|lia].
Qed.

(** What a reply does. *)
Lemma send_reply_spec sz n held open x f :
  fabric_inv sz n held f →
  wp (send_reply open x) (λ y f', y = Ok tt ∧ fabric_inv sz n held f' ∧ poison f' = poison f) f.
Proof.
  intros Hf. unfold send_reply. destruct open.
  { split; [done|]. split; [|done]. by destruct Hf. }
  assert (wp (mret (M := PR FO Error) tt) (λ y f', y = Ok tt ∧ fabric_inv sz n held f' ∧ poison f' = poison f) f) as Hret by done.
  destruct x as [| |[lease|]|]; try exact Hret.
  eapply wp_mono.
  { apply (on_runtime_spec sz f _ (λ _, 0) (λ x _, x = Ok tt)).
    pose proof (rt_owner_quiet sz (healthy f) (drop_tx_lease (Some lease)) (λ _, healthy f) (runtime f)
      (fi_runtime _ _ _ _ Hf) (drop_tx_lease_quiet true (Some lease))) as Hw.
    pose proof (drop_tx_dropped sz (healthy f) (Some lease) (runtime f) (fi_runtime _ _ _ _ Hf)) as Hd.
    unfold wp, rt_owner, pr_zoom in *. destruct (drop_tx_lease (Some lease) (owner (runtime f))) as [[y o']|]; [|done].
    destruct Hd as [-> Ho']. destruct (Hw Ho') as [Hs _]. done. }
  intros y f' [Hs ->]. split; [done|]. split; [by eapply fabric_inv_step0|apply Hs].
Qed.

(** [reject_if_poisoned(..).and_then(..)]. *)
Lemma unless_poisoned_spec {A} sz n held f dropped (m : PR RT Error A) (k : Result A → Z) :
  fabric_inv sz n held f → respects (quiet true) dropped →
  wp dropped (λ x o', x = Ok tt ∧ owner_inv sz (healthy f) None [] [] o') (owner (runtime f)) →
  (∀ e, k (Err e) = 0) →
  (poison f = None → wp m (λ x r', runtime_step sz true (k x) (runtime f) r') (runtime f)) →
  wp (unless_poisoned dropped m) (λ x f', ∃ res, x = Ok res ∧ fabric_step sz (k res) f f' ∧
    (is_Some (poison f) → ∃ e, res = Err e)) f.
Proof.
  intros Hf Hq Hd Hk Hm. unfold unless_poisoned. apply wp_bind_gets.
  destruct (poison f) as [e|] eqn:Hpo; simpl.
  - apply wp_bind. eapply wp_mono.
    { apply (on_runtime_spec sz f _ (λ _, 0) (λ x _, x = Ok tt)).
      pose proof (rt_owner_quiet sz (healthy f) dropped (λ _, healthy f) (runtime f) (fi_runtime _ _ _ _ Hf) Hq) as Hw.
      unfold wp, rt_owner, pr_zoom in *. destruct (dropped (owner (runtime f))) as [[y o']|]; [|done].
      destruct Hd as [-> Ho']. destruct (Hw Ho') as [Hs _]. done. }
    intros y f' [Hs ->]. eexists. split; [done|]. rewrite Hk. split; [done|]. intros _. by eexists.
  - apply wp_catch. eapply wp_mono; [apply (on_runtime_spec sz f m k (λ _ _, True))|].
    + eapply wp_mono; [by apply Hm|]. intros x r' Hs. split; [|done]. unfold healthy. by rewrite Hpo.
    + intros x f' [Hs _]. exists x. split; [done|]. split; [done|]. by intros [? ?].
Qed.

(** ** Commands *)

(** The send permits a command owns. *)
Definition permits (c : FabricCommand) : Z :=
  match c with AcquireTxWindow _ n | AcquireTxWindowChunks _ n => n | _ => 0 end.

(** A command as the handle submits it: one permit per chunk; a lease names
    distinct slots, as [acquire_tx_window_chunks] issued it. *)
Definition command_ok (c : FabricCommand) : Prop :=
  match c with
  | AcquireTxWindow _ n => n = 1
  | AcquireTxWindowChunks lens n => n = Z.of_nat (List.length lens)
  | SendRegisteredWindow _ lease _ _ => NoDup (index <$> (layout_slot <$> tx_layouts lease))
  | _ => True
  end.

Lemma permits_nonneg c : command_ok c → 0 ≤ permits c.
Proof. destruct c; simpl; intros; subst; lia. Qed.

(** A command that owns no permit and whose reply carries no lease. *)
Lemma plain_command {A} sz n held f dropped (m : PR RT Error A) open (reply : Result A → Reply) :
  fabric_inv sz n held f → respects (quiet true) dropped →
  wp dropped (λ x o', x = Ok tt ∧ owner_inv sz (healthy f) None [] [] o') (owner (runtime f)) →
  (runtime_inv sz true (runtime f) → wp m (λ _ r', runtime_step sz true 0 (runtime f) r') (runtime f)) →
  wp (result ← unless_poisoned dropped m; _ ← send_reply open (reply result); mret Continue)
    (λ x f', x = Ok Continue ∧ fabric_inv sz n held f' ∧ poison f' = poison f) f.
Proof.
  intros Hf Hq Hd Hm. apply wp_bind. eapply wp_mono.
  { apply (unless_poisoned_spec sz n held f dropped m (λ _, 0)); [done|done|done|done|].
    intros Hpo. apply Hm. pose proof (fi_runtime _ _ _ _ Hf) as Hr. unfold healthy in Hr. by rewrite Hpo in Hr. }
  intros x f1 (res & -> & Hs & _). apply wp_bind. eapply wp_mono.
  { apply (send_reply_spec sz n held). by eapply fabric_inv_step0. }
  intros y f2 (-> & Hf2 & Hp2). split; [done|]. split; [done|]. rewrite Hp2. apply Hs.
Qed.

Lemma nothing_dropped sz n held f :
  fabric_inv sz n held f →
  wp (mret (M := PR (Owner Seg) Error) tt) (λ x o', x = Ok tt ∧ owner_inv sz (healthy f) None [] [] o') (owner (runtime f)).
Proof. intros Hf. split; [done|]. apply Hf. Qed.

Lemma acquire_command_spec sz n held f open lens k :
  fabric_inv sz n held f → k = Z.of_nat (List.length lens) → k ≤ held →
  wp (acquire_command open k (rt_acquire_tx_window_chunks lens)) (λ x f', x = Ok tt ∧
    fabric_inv sz n (held - k) f' ∧ poison f' = poison f) f.
Proof.
  intros Hf Hk Hle. unfold acquire_command. apply wp_bind. eapply wp_mono.
  { apply (unless_poisoned_spec sz n held f _ _ (λ x, match x with Ok _ => k | Err _ => 0 end));
      [done|apply respects_ret; exact _|by eapply nothing_dropped|done|].
    intros Hpo. pose proof (fi_runtime _ _ _ _ Hf) as Hr. unfold healthy in Hr. rewrite Hpo in Hr.
    eapply wp_mono; [by apply (rt_acquire_spec sz true)|]. intros x r' [Hs _]. by rewrite Hk. }
  intros x f1 (res & -> & Hs & _). apply wp_bind. destruct res as [lease|e].
  - eapply wp_mono; [apply (send_reply_spec sz n (held - k)); eapply fabric_inv_step; [exact Hf|lia|done]|].
    intros y f2 (-> & Hf2 & Hp2). split; [done|]. split; [done|]. rewrite Hp2. apply Hs.
  - eapply wp_mono; [apply (send_reply_spec sz n held); by eapply fabric_inv_step0|].
    intros y f2 (-> & Hf2 & Hp2). eapply wp_mono; [apply (add_permits_spec sz n held k); [done|lia]|].
    intros z f3 (-> & Hf3 & Hp3 & _). split; [done|]. split; [done|]. rewrite Hp3, Hp2. apply Hs.
Qed.

(** Slots that leave the books return as permits. *)
Lemma return_permits_spec sz n held k f f' :
  fabric_inv sz n held f → fabric_step sz (- k) f f' → 0 ≤ k →
  wp (add_permits k) (λ x f'', x = Ok tt ∧ fabric_inv sz n held f'' ∧ poison f'' = poison f) f'.
Proof.
  intros Hf Hs Hk. pose proof (fi_held _ _ _ _ Hf) as Hh.
  assert (fabric_inv sz n (held + k) f') as Hf'.
  { replace (held + k) with (held - (- k)) by lia. eapply fabric_inv_step; [exact Hf|lia|done]. }
  eapply wp_mono; [apply (add_permits_spec sz n (held + k) k); [done|lia]|].
  intros x f2 (-> & Hf2 & Hp2 & _). replace (held + k - k) with held in Hf2 by lia.
  split; [done|]. split; [done|]. rewrite Hp2. apply Hs.
Qed.

(** What handling a command amounts to. *)
Definition handled sz n held f (c : FabricCommand) (x : Result OwnerControl) f' : Prop :=
  ∃ control, x = Ok control ∧ fabric_inv sz n (held - permits c) f' ∧ poison f' = poison f ∧
    (∀ reply, control = ShutdownOwner reply → f' = f).

Lemma handled_continue sz n held f c (x : Result OwnerControl) f' :
  permits c = 0 → x = Ok Continue ∧ fabric_inv sz n held f' ∧ poison f' = poison f → handled sz n held f c x f'.
Proof. intros H0 (-> & Hf' & Hp'). exists Continue. by rewrite H0, Z.sub_0_r. Qed.

Lemma wp_handled sz n held f c (m : PR FO Error OwnerControl) :
  permits c = 0 → wp m (λ x f', x = Ok Continue ∧ fabric_inv sz n held f' ∧ poison f' = poison f) f →
  wp m (handled sz n held f c) f.
Proof. intros H0 Hm. eapply wp_mono; [exact Hm|]. intros x f' Hx. by apply handled_continue. Qed.

(** A command that is answered even when the fabric is poisoned. *)
Lemma urgent_command {A} sz n held f (m : PR RT Error A) open (reply : Result A → Reply) :
  fabric_inv sz n held f → wp m (λ _ r', runtime_step sz (healthy f) 0 (runtime f) r') (runtime f) →
  wp (result ← pr_catch (on_runtime m); _ ← send_reply open (reply result); mret Continue)
    (λ x f', x = Ok Continue ∧ fabric_inv sz n held f' ∧ poison f' = poison f) f.
Proof.
  intros Hf Hm. apply wp_bind_catch. eapply wp_mono.
  { apply (on_runtime_spec sz f m (λ _, 0) (λ _ _, True)). eapply wp_mono; [exact Hm|]. by intros. }
  intros x f1 [Hs _]. apply wp_bind. eapply wp_mono; [apply (send_reply_spec sz n held); by eapply fabric_inv_step0|].
  intros y f2 (-> & Hf2 & Hp2). split; [done|]. split; [done|]. rewrite Hp2. apply Hs.
Qed.

Lemma create_lane_command_spec sz cfg created (r : RT) :
  runtime_inv sz true r → wp (create_lane_command hash_order cfg created) (λ _ r', runtime_step sz true 0 r r') r.
Proof.
  intros Hrt. unfold create_lane_command. apply wp_bind. eapply wp_mono; [by apply (create_lane_spec sz true)|].
  intros [[i d]|e] r1 (H1 & _); [|done]. destruct (JettyDescriptor_serialize d); [done|]. apply wp_bind_catch.
  eapply wp_mono; [apply (abort_lane_spec hash_order sz true), H1|]. intros y r2 [H2 _].
  unfold wp, pr_throw. by eapply step_trans0.
Qed.

Lemma recycle_tx_command_spec sz n held f l open created :
  fabric_inv sz n held f →
  wp (handle_command hash_order (RecycleTxWindow l) open created) (handled sz n held f (RecycleTxWindow l)) f.
Proof.
  intros Hf. cbn [handle_command]. apply wp_bind_catch. eapply wp_mono.
  { apply (on_runtime_spec sz f _ (λ x, match x with Ok n => - n | Err _ => 0 end) (λ x _, ∀ n, x = Ok n → 0 ≤ n)).
    eapply wp_mono; [apply (rt_recycle_tx_spec sz (healthy f)), Hf|]. by intros x r' (? & _ & ?). }
  intros [k|e] f1 [Hs Hk]; apply wp_bind.
  - eapply wp_mono; [eapply (return_permits_spec sz n held k f f1); [done|done|by apply Hk]|].
    intros x f2 (-> & Hf2 & Hp2). apply wp_bind. eapply wp_mono; [by apply (send_reply_spec sz n held)|].
    intros x f3 (-> & Hf3 & Hp3). apply handled_continue; [done|]. split; [done|]. split; [done|]. congruence.
  - unfold wp at 1, mret, pr_mret. apply wp_bind. eapply wp_mono.
    { apply (send_reply_spec sz n held). by eapply fabric_inv_step0. }
    intros x f3 (-> & Hf3 & Hp3). apply handled_continue; [done|]. split; [done|]. split; [done|]. rewrite Hp3. apply Hs.
Qed.

Lemma recycle_lease_command_spec sz n held f rc open created :
  fabric_inv sz n held f →
  wp (handle_command hash_order (RecycleLease rc) open created) (handled sz n held f (RecycleLease rc)) f.
Proof.
  intros Hf. cbn [handle_command]. apply wp_bind_catch. eapply wp_mono.
  { apply (on_runtime_spec sz f _ (λ x, match x with Ok (n, LeaseTx) => - n | _ => 0 end)
      (λ x _, ∀ n k, x = Ok (n, k) → 0 ≤ n)). apply (rt_recycle_dropped_spec sz (healthy f)), Hf. }
  assert (∀ f1, fabric_step sz 0 f f1 → handled sz n held f (RecycleLease rc) (Ok Continue) f1) as Hzero.
  { intros f1 Hs. apply handled_continue; [done|]. split; [done|]. split; [by eapply fabric_inv_step0|apply Hs]. }
  intros x f1 [Hs Hk]. apply wp_bind. destruct x as [[k []]|e].
  - by apply Hzero.
  - eapply wp_mono; [eapply (return_permits_spec sz n held k f f1); [done|done|by eapply Hk]|].
    intros x f2 (-> & Hf2 & Hp2). by apply handled_continue.
  - by apply Hzero.
Qed.

(** Every command keeps the invariant; none panics. *)
Lemma handle_command_spec sz n held f c open created :
  fabric_inv sz n held f → command_ok c → permits c ≤ held →
  wp (handle_command hash_order c open created) (handled sz n held f c) f.
Proof.
  intros Hf Hc Hle. pose proof (fi_runtime _ _ _ _ Hf) as Hr.
  destruct c as [cfg|i d|i seqs chs|i k|len k|lens k|l|l|i l seqs ch|i|i|rc|rep].
  - apply wp_handled; [done|].
    apply plain_command; [done|apply respects_ret; exact _|by eapply nothing_dropped|apply create_lane_command_spec].
  - apply wp_handled; [done|].
    apply plain_command; [done|apply respects_ret; exact _|by eapply nothing_dropped|]. intros Hrt.
    unfold bind_lane_command. apply wp_bind_lift; [|intros; by apply step_refl]. intros d' _.
    eapply wp_mono; [by apply (bind_lane_spec sz true)|]. by intros x r' [? _].
  - apply wp_handled; [done|].
    apply plain_command; [done|apply drop_rx_senders_quiet|apply drop_rx_senders_spec, Hr|]. intros Hrt.
    eapply wp_mono; [by apply (rt_post_receive_spec hash_order sz true)|]. by intros x r' [? _].
  - apply wp_handled; [done|].
    apply plain_command; [done|apply respects_ret; exact _|by eapply nothing_dropped|]. intros Hrt.
    eapply wp_mono; [by apply (grant_spec sz true)|]. by intros x r' [? _].
  - apply wp_bind. eapply wp_mono; [apply (acquire_command_spec sz n held f open [len] k); [done|exact Hc|exact Hle]|].
    intros x f' (-> & Hf' & Hp'). by exists Continue.
  - apply wp_bind. eapply wp_mono; [apply (acquire_command_spec sz n held f open lens k); [done|exact Hc|exact Hle]|].
    intros x f' (-> & Hf' & Hp'). by exists Continue.
  - by apply recycle_tx_command_spec.
  - apply wp_handled; [done|]. apply urgent_command; [done|].
    eapply wp_mono; [apply (rt_recycle_rx_spec sz (healthy f)), Hr|]. by intros x r' [? _].
  - apply wp_handled; [done|].
    apply plain_command; [done|apply drop_tx_arguments_quiet|apply drop_tx_arguments_spec, Hr|]. intros Hrt.
    eapply wp_mono; [by apply (rt_send_window_spec hash_order sz true)|]. by intros x r' [? _].
  - apply wp_handled; [done|]. apply urgent_command; [done|].
    eapply wp_mono; [apply (abort_lane_spec hash_order sz (healthy f)), Hr|]. by intros x r' [? _].
  - apply wp_handled; [done|]. apply urgent_command; [done|].
    eapply wp_mono; [apply (abort_lane_spec hash_order sz (healthy f)), Hr|]. by intros x r' [? _].
  - by apply recycle_lease_command_spec.
  - eexists. split; [done|]. simpl. by rewrite Z.sub_0_r.
Qed.

(** ** The poll *)

(** The poll at the end of a turn: an error poisons the fabric. *)
Lemma owner_poll_spec sz n held f s q :
  fabric_inv sz n held f → polled_typed s → polled_typed q →
  wp (owner_poll hash_order s q) (λ x f', x = Ok Continued ∧ fabric_inv sz n held f' ∧
    (is_Some (poison f) → poison f' = poison f)) f.
Proof.
  intros Hf Hs Hq. unfold owner_poll. apply wp_bind_catch. unfold on_runtime. apply wp_zoom.
  eapply wp_mono; [apply (rt_poll_spec hash_order sz (healthy f)); [apply Hf|done|done]|].
  intros progress r' Hst. pose proof Hf as [Hr Ho Ha Hp Had Hh Hsl Hre]. destruct Hst as [Hr' Hfr Ht].
  destruct Hfr as (_ & Hf1 & _ & _ & _ & _ & Hf2 & _ & Hf3). pose proof (tx_indices_kinds _ _ Hf3) as Htx.
  destruct progress as [k|e]; simpl in Hr'.
  - rewrite andb_true_r in Hr'. split; [done|]. split; [|done]. split; simpl; try done; [congruence|congruence|lia|].
    by rewrite Htx.
  - rewrite andb_false_r in Hr'. apply wp_bind_modify. unfold wp, mret, pr_mret. split; [done|].
    unfold poison_once. simpl. destruct (poison f) as [e0|] eqn:Hpo.
    + split; [|done]. split; simpl; try done; [|congruence|congruence|lia| |by rewrite Hre, Hpo].
      * unfold healthy. simpl. by rewrite Hpo.
      * by rewrite Htx.
    + split; [|by intros [? ?]]. split; simpl; try done; [congruence|congruence|lia|]. by rewrite Htx.
Qed.

(** ** The clients and the owner thread together *)

(** The states the fabric can reach, with the permits held by clients and queued
    commands.  A client takes permits ([acquire_many_owned], [try_acquire]) or
    gives them back unused; the owner thread handles commands, each with the
    permits it owns, and polls, in any order and with any native behaviour. *)
Inductive reaches (config : RuntimeConfig) : Z → FO → Prop :=
| reaches_start (n : NativeStart) (r : RT) :
    start_inner config n = Ok r → reaches config 0 (started config r)
| reaches_take held f k :
    reaches config held f → 0 ≤ k ≤ tx_slot_admission f →
    reaches config (held + k) (set_admission (tx_slot_admission f - k) f)
| reaches_give held f k :
    reaches config held f → 0 ≤ k ≤ held →
    reaches config (held - k) (set_admission (tx_slot_admission f + k) f)
| reaches_command held f c open created control f' :
    reaches config held f → command_ok c → permits c ≤ held →
    handle_command hash_order c open created f = Some (Ok control, f') →
    reaches config (held - permits c) f'
| reaches_poll held f s q e f' :
    reaches config held f → polled_typed s → polled_typed q →
    owner_poll hash_order s q f = Some (Ok e, f') → reaches config held f'.

(** A configuration whose sizes are machine integers. *)
Definition config_typed (config : RuntimeConfig) : Prop :=
  0 ≤ tx_slot_count (buffer_pool config) ∧ 0 ≤ rx_slot_count (buffer_pool config) ∧
  0 ≤ slot_size (buffer_pool config).

Definition config_inv (config : RuntimeConfig) (held : Z) f : Prop :=
  fabric_inv (slot_size (buffer_pool config)) (tx_slot_count (buffer_pool config)) held f.

Lemma reaches_inv config held f : config_typed config → reaches config held f → config_inv config held f.
Proof.
  intros (Htx & Hrx & Hsz) Hreach. unfold config_inv.
  induction Hreach as [n r Hstart|held f k _ IH Hk|held f k _ IH Hk|held f c open created control f' _ IH Hc Hle Hrun
    |held f s q e f' _ IH Hs Hq Hrun].
  - apply start_inner_spec in Hstart as (Hr & Ho & Htot & _ & Hp & _ & Hlen); [|done..].
    split; simpl; try done; [lia|]. rewrite Hlen. lia.
  - destruct IH as [Hr Ho Ha Hp Had Hh Hs Hre]. split; simpl; try done; lia.
  - destruct IH as [Hr Ho Ha Hp Had Hh Hs Hre]. split; simpl; try done; lia.
  - pose proof (handle_command_spec _ _ _ f c open created IH Hc Hle) as Hw. unfold wp in Hw. rewrite Hrun in Hw.
    by destruct Hw as (? & _ & ? & _).
  - pose proof (owner_poll_spec _ _ _ f s q IH Hs Hq) as Hw. unfold wp in Hw. rewrite Hrun in Hw. by destruct Hw as (_ & ? & _).
Qed.

(** ** Turns of the loop *)

(** The commands of a turn, with the permits they own. *)
Definition received_permits (l : list (Received (J := J))) : Z :=
  foldr (λ x n, match x with Command c _ _ => permits c + n | Disconnected => n end) 0 l.
Definition received_ok (l : list (Received (J := J))) : Prop :=
  Forall (λ x, match x with Command c _ _ => command_ok c | Disconnected => True end) l.
Definition turn_ok (t : Turn (J := J)) : Prop :=
  received_ok (received t) ∧ polled_typed (send_polled t) ∧ polled_typed (recv_polled t).

Lemma received_permits_nonneg l : received_ok l → 0 ≤ received_permits l.
Proof.
  induction 1 as [|[c open created|] l Hx _ IH]; simpl; [lia| |lia]. pose proof (permits_nonneg c Hx). lia.
Qed.
Lemma received_permits_cons x l : received_permits (x :: l) = received_permits [x] + received_permits l.
Proof. destruct x; simpl; lia. Qed.

Section turns.
Context (config : RuntimeConfig) (Hconfig : config_typed config).

Lemma after_command_reaches held f x :
  reaches config held f → received_ok [x] → received_permits [x] ≤ held →
  wp (after_command hash_order x) (λ y f', ∃ e, y = Ok e ∧ reaches config (held - received_permits [x]) f' ∧
    e ≠ Blocked) f.
Proof.
  intros Hf Hx Hle. destruct x as [c open created|]; simpl in *.
  - inversion Hx as [|? ? Hc]; subst. rewrite Z.add_0_r in Hle. apply wp_bind.
    pose proof (handle_command_spec _ _ _ f c open created (reaches_inv _ _ _ Hconfig Hf) Hc Hle) as Hw. unfold wp in Hw |- *.
    destruct (handle_command hash_order c open created f) as [[y f']|] eqn:Hrun; [|done].
    destruct Hw as (control & -> & _). eexists. split; [done|]. rewrite Z.add_0_r.
    split; [by eapply reaches_command|]. by destruct control.
  - eexists. split; [done|]. rewrite Z.sub_0_r. done.
Qed.

(** A turn handles a prefix of the commands in the channel. *)
Lemma take_commands_reaches held f k l :
  reaches config held f → received_ok l → received_permits l ≤ held →
  wp (take_commands hash_order k l) (λ y f', ∃ e j, y = Ok e ∧ (j ≤ k)%nat ∧
    reaches config (held - received_permits (take j l)) f') f.
Proof.
  intros Hf Hok. induction Hok as [|x l Hx Hl IH] in held, f, k, Hf |- *; intros Hle.
  { destruct k; simpl; eexists _, 0%nat; simpl; rewrite Z.sub_0_r; (split; [done|]); split; [lia|done|lia|done]. }
  destruct k as [|k]; simpl.
  { eexists _, 0%nat. simpl. rewrite Z.sub_0_r. split; [done|]. split; [lia|done]. }
  pose proof (received_permits_nonneg l Hl) as Hn. rewrite received_permits_cons in Hle.
  apply wp_bind. eapply wp_mono; [apply (after_command_reaches held); [done|by constructor|lia]|].
  intros y f1 (e & -> & Hf1 & He).
  destruct e; [|done|exists (Left reply), 1%nat; split; [done|]; split; [lia|by simpl]].
  eapply wp_mono; [apply IH; [exact Hf1|lia]|].
  intros y f2 (e & j & -> & Hj & Hf2). exists e, (S j). split; [done|]. split; [lia|].
  change (take (S j) (x :: l)) with (x :: take j l). rewrite received_permits_cons.
  by replace (held - (received_permits [x] + received_permits (take j l)))
    with (held - received_permits [x] - received_permits (take j l)) by lia.
Qed.

(** A turn of the loop never panics; it handles at most [MAX_COMMANDS_PER_TICK]
    commands, a prefix of those in the channel, and ends in a reachable state. *)
Lemma run_turn_reaches held f t :
  reaches config held f → turn_ok t → received_permits (received t) ≤ held →
  wp (run_turn hash_order t) (λ x f', ∃ e j, x = Ok e ∧ (j ≤ MAX_COMMANDS_PER_TICK)%nat ∧
    reaches config (held - received_permits (take j (received t))) f') f.
Proof.
  intros Hf (Hr & Hs & Hq) Hle. unfold run_turn. apply wp_bind_gets. destruct (_ =? 0).
  - destruct (received t) as [|x l] eqn:Hl.
    { eexists _, 0%nat. split; [done|]. split; [lia|]. simpl. by rewrite Z.sub_0_r. }
    inversion Hr as [|? ? Hx Hrest]; subst. pose proof (received_permits_nonneg l Hrest) as Hn.
    rewrite received_permits_cons in Hle.
    eapply wp_mono; [apply (after_command_reaches held); [done|by constructor|lia]|].
    intros y f' (e & -> & Hf' & _). exists e, 1%nat. split; [done|]. split; [unfold MAX_COMMANDS_PER_TICK; lia|].
    simpl take. done.
  - apply wp_bind. eapply wp_mono; [by apply (take_commands_reaches held)|].
    intros y f1 (e & j & -> & Hj & Hf1).
    destruct e as [| |reply]; [|exists Blocked, j; done|exists (Left reply), j; done].
    pose proof (owner_poll_spec _ _ _ f1 _ _ (reaches_inv _ _ _ Hconfig Hf1) Hs Hq) as Hw. unfold wp in Hw |- *.
    destruct (owner_poll hash_order (send_polled t) (recv_polled t) f1) as [[y f2]|] eqn:Hrun; [|done].
    destruct Hw as (-> & _). exists Continued, j. split; [done|]. split; [done|].
    exact (reaches_poll _ _ _ _ _ _ _ Hf1 Hs Hq Hrun).
Qed.
End turns.

(** While no work request is outstanding the loop waits for a command and never
    polls, whatever the queues hold. *)
Lemma idle_never_polls f (l : list (Received (J := J))) s q s' q' :
  rt_outstanding (runtime f) = 0 →
  run_turn hash_order (mkTurn l s q) f = run_turn hash_order (mkTurn l s' q') f ∧
  run_turn hash_order (mkTurn [] s q) f = Some (Ok Blocked, f).
Proof.
  intros H0. unfold run_turn. cbv [mbind pr_mbind pr_gets]. by rewrite H0.
Qed.

(** ** Admission *)

(** A client that holds a permit per chunk gets its lease, as long as the fabric
    is not poisoned, its chunks fit the slots and the segment answers. *)
Lemma admitted_acquire config held f lens open created :
  config_typed config → reaches config held f → poison f = None → Z.of_nat (List.length lens) ≤ held →
  let p := pool (owner (runtime f)) in
  chunks_ok (slot_size (buffer_pool config)) lens → memory_ok (slot_size (buffer_pool config)) p →
  (∃ s l, slots p = s :: l ∧ kind s = Tx) → 0 ≤ next_lease_id (leases p) < u_max 64 →
  ∃ lease r', rt_acquire_tx_window_chunks lens (runtime f) = Some (Ok lease, r') ∧
    (open = true → ∃ f', handle_command hash_order (AcquireTxWindowChunks lens (Z.of_nat (List.length lens))) open created f
        = Some (Ok Continue, f') ∧ replies f' = replies f ++ [ReplyLease (Ok lease)]).
Proof.
  intros Hcfg Hreach Hpo Hheld p Hchunks Hmem Hfirst Hlid.
  pose proof (reaches_inv _ _ _ Hcfg Hreach) as [Hr Ho Ha Hp Had Hh Hs Hre].
  assert (pool_inv (slot_size (buffer_pool config)) (healthy f) p) as Hpool by apply Hr.
  pose proof (free_tx_count _ _ _ Hpool (ri_accounted _ _ _ Hr)) as Hcount. fold p in Hs. rewrite Hs in Hcount.
  unfold rt_total in Hp. fold p in Hp.
  destruct (acquire_succeeds _ _ lens p Hpool Hchunks Hmem (ri_accepting _ _ _ Hr Ho) Hfirst) as (l & p' & Hacq); [lia|done|].
  assert (rt_acquire_tx_window_chunks lens (runtime f) = Some (Ok l, set_owner (Router.set_pool p' (owner (runtime f))) (runtime f)))
    as Hrun.
  { unfold rt_acquire_tx_window_chunks, rt_pool, open_pool, rt_owner, on_pool, pr_zoom. cbv [mbind pr_mbind pr_gets mret pr_mret].
    rewrite Ho. fold p. by rewrite Hacq. }
  exists l. eexists. split; [exact Hrun|]. intros ->. eexists. split.
  - cbn [handle_command]. unfold acquire_command, unless_poisoned. cbv [mbind pr_mbind pr_gets].
    rewrite Hpo. simpl. unfold pr_catch, on_runtime, pr_zoom. rewrite Hrun. done.
  - done.
Qed.
End fabric.
End FabricFacts.
