(* ===== verification/UrmaTheorems.v ===== *)
(** * What the URMA transport guarantees

    The theorems about the buffers, lanes, completions, runtime and owner thread
    of the URMA transport, stated over every behaviour of the native library, and
    a small concrete device ([UrmaDemo]) on which each of them is exercised. *)

From S2P Require Import Prelude Engine UrmaBuffer UrmaBufferFacts UrmaLane UrmaCompletion UrmaPost UrmaOwnerFacts UrmaPostFacts UrmaFrame UrmaLedger UrmaRuntime UrmaRuntimeFacts UrmaFabric UrmaFabricFacts.
From Stdlib Require Import ZArith Lia String.
From stdpp Require Import base tactics numbers list gmap strings pretty.
Local Open Scope Z_scope.

(** ** A device that accepts everything *)
Module UrmaDemo.
Import Urma Lane Router Post Runtime Fabric.

#[export] Instance demo_segment : NativeSegment unit :=
  {| segment_data _ := Ok (4096, 16384); segment_close s := (Ok tt, s) |}.
Definition demo_export : JettyDescriptorData := mkJettyDescriptorData 1 0 7 [Byte.x01].
#[export] Instance demo_jetty : NativeJetty unit unit :=
  {| jetty_open _ := true; segment_open _ := true; jetty_local_ids _ := Ok (7, 8);
     jetty_export _ := Ok demo_export; jetty_import _ _ j := (Ok tt, j); jetty_bind j := (Ok tt, j);
     jetty_mark_error j := (Ok tt, j); jetty_unbind j := (Ok tt, j); jetty_unimport j := (Ok tt, j);
     jetty_close j := (Ok tt, j);
     jetty_post _ _ es j := ((0, Z.of_nat (List.length es), (λ _, true) <$> es), j) |}.
#[export] Instance demo_fabric : NativeFabric unit unit :=
  {| jfc_close _ := Ok tt; native_close _ := Ok tt |}.

(** Two send and two receive slots of 4 KiB. *)
Definition demo_config : RuntimeConfig :=
  mkRuntimeConfig "dev" 0 16 16 (mkBufferPoolConfig 4096 2 2 4096).
Definition demo_start : NativeStart (Q := unit) (N := unit) (Seg := unit) :=
  mkNativeStart (Ok tt) (Ok (mkCapability 1 4 4 4 4 64 64 64 4 4 4 65536)) (Ok tt) (Ok tt)
    (λ _ _, Ok tt) 1.
Definition demo_lane : UrmaLaneConfig := mkLaneConfig 16 16 1 1 1 2 0.

Abbreviation RT := (UrmaRuntime (J := unit) (Seg := unit) (Q := unit) (N := unit)).
Abbreviation FO := (FabricOwner (J := unit) (Seg := unit) (Q := unit) (N := unit)).

Lemma demo_starts : ∃ r : RT, start_inner demo_config demo_start = Ok r.
Proof.
  destruct (start_inner (J := unit) demo_config demo_start) as [r|e] eqn:Hr; [by exists r|].
  assert (is_ok (start_inner (J := unit) demo_config demo_start) = true) as Hok by (vm_compute; reflexivity).
  by rewrite Hr in Hok.
Qed.

(** The owner after the start and a list of commands, each with an open reply. *)
Definition identity_order (l : list Z) : list Z := l.
Definition after (commands : list FabricCommand) : option FO :=
  foldl (λ f c, f ← f; '(_, f) ← handle_command identity_order c true (Ok tt) f; Some f)
    (match start_inner demo_config demo_start with Ok r => Some (started demo_config r) | Err _ => None end)
    commands.
Definition polled_after (f : option FO) (s q : Polled) : option FO :=
  f ← f; '(_, f) ← owner_poll identity_order s q f; Some f.

Definition demo_descriptor : bytes :=
  match (d ← JettyDescriptor_from_ffi demo_export; JettyDescriptor_serialize d) with Ok b => b | Err _ => [] end.
Definition receiving : list FabricCommand :=
  [CreateLane demo_lane; BindLane 1 demo_descriptor; PostReceiveWindowRegistered 1 [5] [0%nat]].

(** The completion of the posted receive, with status [status]. *)
Definition demo_record (status : Z) : CompletionRecord :=
  mkCompletionRecord status 1 282583078338562 5 100 7 true true true true WorkRequest.
Definition flush_done_record : CompletionRecord :=
  mkCompletionRecord 0 0 0 0 0 7 false true false false FlushErrorDone.

(** A lane with a send window of one chunk in flight, and the completion of it. *)
Definition leased : option (FO * TxWindowLease) :=
  f ← after [CreateLane demo_lane; BindLane 1 demo_descriptor; GrantSendCredit 1 4; AcquireTxWindowChunks [100] 1];
  match last (replies f) with Some (ReplyLease (Ok lease)) => Some (f, lease) | _ => None end.
Definition command_on (c : FabricCommand) (f : option FO) : option FO :=
  f ← f; '(_, f) ← handle_command identity_order c true (Ok tt) f; Some f.
Definition sending : option FO :=
  '(f, lease) ← leased; command_on (SendRegisteredWindow 1 lease [9] 3%nat) (Some f).
Definition send_record : CompletionRecord :=
  mkCompletionRecord 0 0 282578783371264 0 100 7 false true true false WorkRequest.
Definition unknown_record : CompletionRecord :=
  mkCompletionRecord 0 0 0 0 0 7 false true false false (Unknown 9).

Lemma demo_typed : FabricFacts.config_typed demo_config.
Proof. unfold FabricFacts.config_typed. simpl. lia. Qed.
End UrmaDemo.

Module UrmaTheorems.
Import Urma Lane Router Post Runtime Fabric UrmaBufferFacts OwnerFacts PostFacts Frame Ledger RuntimeFacts FabricFacts LaneFacts UrmaDemo.

(** ** The buffers *)

(** C19: From its creation on, whatever calls of its interface are made in whatever order,
    as long as the lengths of completions are not negative, the registered buffer pool is
    well formed: the free lists name exactly the free slots, every slot has its place in the
    segment and, unless it is free, a live generation, every lease covers distinct slots, the
    slots of a receive lease are receive slots leased to it, and no two receive leases share
    a slot.  Send leases own their slots in the same way, and share none with another lease,
    if the calls include neither [complete_error] of a send nor [rollback_post] of a send
    slot: these two free a slot although a lease may cover it. *)
Theorem pool_reachable_well_formed {Seg} `{!NativeSegment Seg} (created : Z → Z → result FfiError Seg)
    (config : BufferPoolConfig) pid (p : UrmaBufferPool (Seg := Seg)) :
  0 ≤ tx_slot_count config → 0 ≤ rx_slot_count config → 0 ≤ slot_size config →
  (reachable false created config pid p → pool_inv (slot_size config) false p) ∧
  (reachable true created config pid p → pool_inv (slot_size config) true p).
Proof. intros Htx Hrx Hsz. split; by apply reachable_inv. Qed.

Lemma pool_reachable_well_formed_witness :
  ∃ p : UrmaBufferPool (Seg := unit),
    create (λ _ _, Ok tt) (buffer_pool demo_config) 1 = Ok p ∧ pool_inv 4096 false p ∧ pool_inv 4096 true p.
Proof.
  destruct (create (λ _ _, Ok tt) (buffer_pool demo_config) 1) as [p|e] eqn:Hc; [|exfalso; vm_compute in Hc; done].
  exists p. split; [done|].
  destruct (pool_reachable_well_formed (λ _ _, Ok tt) (buffer_pool demo_config) 1 p) as [Hany Hsend]; [vm_compute; congruence..|].
  split; [by apply Hany, reach_create|by apply Hsend, reach_create].
Defined.

(** A lease is given back as a whole or not at all: on success its record is
    gone, exactly its slots become free and every other slot is untouched; on an
    error (an unknown, stale or already recycled lease, the wrong kind, a slot
    that is not in its leased state) the pool is unchanged, and an error is
    returned only then. *)
Theorem recycle_all_or_nothing {Seg} `{!NativeSegment Seg} sz h (rc : LeaseRecycle) (k : LeaseKind)
    (p : UrmaBufferPool (Seg := Seg)) :
  pool_inv sz h p →
  wp (recycle rc k) (λ r p', pool_inv sz h p' ∧
    match r with
    | Ok n => ∃ rec, record (leases p) rc = Ok rec ∧ lease_kind rec = k ∧
        n = Z.of_nat (List.length (lease_slots rec)) ∧
        active (leases p') = delete (Urma.lease_id rc) (active (leases p)) ∧
        (∀ i, i ∉ index <$> lease_slots rec → slots p' !! i = slots p !! i) ∧
        (∀ id, id ∈ lease_slots rec → ∃ s, holds p id s ∧ kind s = lease_slot_kind k ∧
           state s = leased_state k ∧ holds p' id (set_state Free s))
    | Err _ => p' = p ∧ ¬ ∃ rec, record (leases p) rc = Ok rec ∧ lease_kind rec = k ∧
        ∀ id, id ∈ lease_slots rec → ∃ s, holds p id s ∧ kind s = lease_slot_kind k ∧
           state s = leased_state k
    end) p.
Proof.
  intros Hp. eapply wp_mono; [by apply recycle_spec|]. intros [n|e] p' (Hp' & Hr); split; try done.
  destruct Hr as (rec & ? & ? & ? & (Hle & _) & ? & ?). exists rec. split_and!; try done. by rewrite Hle.
Qed.

Lemma recycle_all_or_nothing_witness :
  ∃ p : UrmaBufferPool (Seg := unit), create (λ _ _, Ok tt) (buffer_pool demo_config) 1 = Ok p ∧
    wp (recycle (mkLeaseRecycle 1 1) LeaseTx) (λ r p', p' = p ∧ ∃ e, r = Err e) p.
Proof.
  destruct (create (λ _ _, Ok tt) (buffer_pool demo_config) 1) as [p|e] eqn:Hc; [|exfalso; vm_compute in Hc; done].
  exists p. split; [done|]. apply create_spec in Hc as (Hp & Hact & _); [|vm_compute; congruence..].
  eapply wp_mono; [apply (recycle_all_or_nothing 4096 true), Hp|].
  intros [n|e] p' (_ & Hr); [|by destruct Hr; eauto].
  destruct Hr as (rec & Hrec & _). unfold record in Hrec. rewrite Hact, lookup_empty in Hrec.
  by destruct (negb _).
Defined.

(** The spans of a received window are exactly the received bytes: their
    addresses, in order, are those of the completed parts of the slots, merged
    when adjacent, with the right total; every part lies inside its slot and
    inside the segment, and the slots were completed receives. *)
Theorem rx_lease_spans_exact {Seg} `{!NativeSegment Seg} base rlen (cs : list (SlotId * Z))
    (p : UrmaBufferPool (Seg := Seg)) :
  (∀ c, c ∈ cs → 0 ≤ c.2) →
  wp (rx_lease_spans base rlen cs None [] 0) (λ r p', p' = p ∧
    ∀ spans total, r = Ok (spans, total) →
      spans ≫= span_bytes = cs ≫= slot_bytes base p ∧ total = foldr Z.add 0 (snd <$> cs) ∧
      ∀ c, c ∈ cs → ∃ s, holds p c.1 s ∧ kind s = Rx ∧ state s = RecvCompleted ∧
                         1 ≤ c.2 ≤ len s ∧ offset s + c.2 ≤ rlen) p.
Proof.
  intros Hcs. eapply wp_mono; [apply (rx_lease_spans_spec base rlen cs None [] 0); [done|congruence]|].
  intros r p' [-> Hr]. split; [done|]. intros spans total ->. by destruct Hr as (? & -> & ?).
Qed.

Lemma rx_lease_spans_exact_witness :
  let p := mkPool (Seg := unit) (Some tt)
    [mkBufferSlot Rx 0 8 RecvCompleted 1; mkBufferSlot Rx 8 8 RecvCompleted 1] [] [] (mkLeaseBook 1 1 ∅) [] true in
  rx_lease_spans 1000 16 [(mkSlotId 0 1, 8); (mkSlotId 1 1, 3)] None [] 0 p
    = Some (Ok ([mkRegisteredSpan 1000 11], 11), p) ∧
  [mkRegisteredSpan 1000 11] ≫= span_bytes = [(mkSlotId 0 1, 8); (mkSlotId 1 1, 3)] ≫= slot_bytes 1000 p.
Proof.
  intros p. assert (rx_lease_spans 1000 16 [(mkSlotId 0 1, 8); (mkSlotId 1 1, 3)] None [] 0 p
    = Some (Ok ([mkRegisteredSpan 1000 11], 11), p)) as Hrun by (vm_compute; reflexivity).
  split; [exact Hrun|].
  pose proof (rx_lease_spans_exact 1000 16 [(mkSlotId 0 1, 8); (mkSlotId 1 1, 3)] p) as Hw.
  unfold wp in Hw. rewrite Hrun in Hw. destruct Hw as [_ Hw].
  { intros c [->|[->|[]%not_elem_of_nil]%elem_of_cons]%elem_of_cons; simpl; lia. }
  by destruct (Hw _ _ eq_refl) as (Hb & _).
Defined.

(** ** Identities and descriptors *)

(** The 64-bit context of a work request identifies it: every valid token is
    packed and read back, and whatever number decodes is the context of a valid
    token. *)
Theorem wr_token_roundtrip (t : WrToken) :
  token_valid t →
  (∃ v, WrToken_encode t = Ok v ∧ 0 ≤ v < 2 ^ 64 ∧ WrToken_decode v = Ok t) ∧
  (∀ v t', WrToken_decode v = Ok t' → token_valid t').
Proof.
  intros Ht. split; [|apply WrToken_decode_valid]. pose proof (WrToken_encode_eq t Ht) as Hv.
  eexists. split; [exact Hv|]. split; [|by apply (WrToken_encode_decode t)].
  pose proof (operation_code_range (operation t)). destruct Ht as (Hl & Hg & Hsg & Hsi).
  rewrite SlotId_encode_eq by done. unfold packed. lia.
Qed.

Lemma wr_token_roundtrip_witness :
  WrToken_decode 282583078338562 = Ok (mkWrToken 1 1 Recv (mkSlotId 2 1)) ∧
  token_valid (mkWrToken 1 1 Recv (mkSlotId 2 1)).
Proof.
  assert (WrToken_decode 282583078338562 = Ok (mkWrToken 1 1 Recv (mkSlotId 2 1))) as Hd by (vm_compute; reflexivity).
  split; [exact Hd|]. apply (proj2 (wr_token_roundtrip (mkWrToken 1 1 Send (mkSlotId 0 1)) ltac:(unfold token_valid; simpl; lia)) _ _ Hd).
Defined.

(** A Jetty descriptor survives the wire in both directions: what is serialised
    is read back as it was, and whatever bytes are accepted are the serialisation
    of the descriptor they were read as. *)
Theorem jetty_descriptor_roundtrip (d : JettyDescriptor) (b : bytes) :
  (descriptor_typed d → JettyDescriptor_serialize d = Ok b → JettyDescriptor_deserialize b = Ok d) ∧
  (JettyDescriptor_deserialize b = Ok d → JettyDescriptor_serialize d = Ok b).
Proof. split; [apply descriptor_serialize_deserialize|apply descriptor_deserialize_serialize]. Qed.

Lemma jetty_descriptor_roundtrip_witness :
  JettyDescriptor_deserialize demo_descriptor = Ok (mkJettyDescriptor 1 1 0 7 1 [Byte.x01]).
Proof.
  apply (proj1 (jetty_descriptor_roundtrip (mkJettyDescriptor 1 1 0 7 1 [Byte.x01]) demo_descriptor)).
  - unfold descriptor_typed. simpl. lia.
  - vm_compute. reflexivity.
Defined.

(** ** Lanes *)

(** How far a lane is in its life. *)
Definition lane_rank (s : LaneState) : nat :=
  match s with
  | JettyCreated => 0 | DescriptorExchanged => 1 | Bound => 2 | Ready => 3
  | Draining | Failed => 4 | Closed => 5
  end.

Lemma lane_edge_rank s s' : lane_edge s s' → (lane_rank s ≤ lane_rank s')%nat.
Proof. destruct 1 as [| |? [->| ->]| |[]|[]|[]]; simpl; lia || done. Qed.

(** Any sequence of calls of a lane. *)
Definition run_lanes {J Seg} `{!NativeJetty J Seg} (cs : list LaneCall) (l : UrmaLane (J := J)) : UrmaLane (J := J) :=
  foldl (λ l c, (run_lane (Seg := Seg) c l).2) l cs.

(** A lane only moves forward, whatever is called in whatever order and whatever
    the native library answers: it becomes ready only after it was bound, and a
    lane that drains, failed or closed is never ready again; closed is final. *)
Theorem lane_never_revives {J Seg} `{!NativeJetty J Seg} (cs : list LaneCall) (l : UrmaLane (J := J)) :
  let l' := run_lanes (Seg := Seg) cs l in
  (lane_rank (lane_state l) ≤ lane_rank (lane_state l'))%nat ∧
  (lane_state l = Closed → lane_state l' = Closed) ∧
  (lane_state l' = Ready → lane_state l ∈ [JettyCreated; DescriptorExchanged; Bound; Ready]).
Proof.
  assert (lane_rank (lane_state l) ≤ lane_rank (lane_state (run_lanes (Seg := Seg) cs l)))%nat as Hmono.
  { induction cs as [|c cs IH] in l |- *; [done|]. simpl. etrans; [|apply IH].
    apply lane_edge_rank, run_lane_edge. }
  intros l'. fold l' in Hmono. split_and!; [done|..].
  - intros Hc. rewrite Hc in Hmono. destruct (lane_state l'); simpl in Hmono; lia || done.
  - intros Hr. rewrite Hr in Hmono. destruct (lane_state l); simpl in Hmono; first [set_solver|lia].
Qed.

(** ** The owner thread *)

(** C16: In every state the fabric can reach, under every interleaving of clients,
    commands and polls and every native behaviour, the send permits that are free,
    held by clients or turned into leases add up to the number of send slots, and
    the state of the owner thread is consistent: each outstanding work request
    owns its slot, the counters count the requests, each lane's requests belong to
    a lane of the table, and the published readiness says whether the fabric is
    poisoned. *)
Theorem fabric_permits_conserved {J Seg Q N} `{!NativeSegment Seg} `{!NativeJetty J Seg} `{!NativeFabric Q N}
    (hash_order : list Z → list Z) config held (f : FabricOwner (J := J) (Seg := Seg) (Q := Q) (N := N)) :
  config_typed config → reaches hash_order config held f →
  tx_slot_admission f + held + rt_total (runtime f) = tx_slot_count (buffer_pool config) ∧
  0 ≤ tx_slot_admission f ∧ runtime_inv (slot_size (buffer_pool config)) (healthy f) (runtime f) ∧
  readiness f = match poison f with None => FabricReady | Some e => FabricFailed e end.
Proof. intros Hc Hr. pose proof (reaches_inv _ _ _ _ Hc Hr) as []. done. Qed.

Lemma fabric_permits_conserved_witness :
  ∃ r : RT, start_inner demo_config demo_start = Ok r ∧ rt_total r = 0 ∧
    runtime_inv 4096 true r.
Proof.
  destruct demo_starts as [r Hr]. exists r. split; [done|].
  destruct (fabric_permits_conserved identity_order demo_config 0 (started demo_config r) demo_typed
    (reaches_start _ _ _ _ Hr)) as (Hsum & _ & Hinv & _).
  split; [simpl in Hsum; lia|exact Hinv].
Defined.

(** C7: No turn of the owner thread's loop panics or gets stuck: it handles at most
    [MAX_COMMANDS_PER_TICK] commands, a prefix of those in the channel, polls, and
    ends in a reachable state with the permits of those commands spent. *)
Theorem owner_turn_safe {J Seg Q N} `{!NativeSegment Seg} `{!NativeJetty J Seg} `{!NativeFabric Q N}
    (hash_order : list Z → list Z) config held (f : FabricOwner (J := J) (Seg := Seg) (Q := Q) (N := N)) t :
  config_typed config → reaches hash_order config held f → turn_ok t → received_permits (received t) ≤ held →
  ∃ e j f', run_turn hash_order t f = Some (Ok e, f') ∧ (j ≤ MAX_COMMANDS_PER_TICK)%nat ∧
    reaches hash_order config (held - received_permits (take j (received t))) f'.
Proof.
  intros Hc Hf Ht Hle. pose proof (run_turn_reaches hash_order config Hc held f t Hf Ht Hle) as Hw.
  unfold wp in Hw. destruct (run_turn hash_order t f) as [[x f']|]; [|done].
  destruct Hw as (e & j & -> & ? & ?). by exists e, j, f'.
Qed.

Lemma owner_turn_safe_witness :
  ∃ (r : RT) e j f', start_inner demo_config demo_start = Ok r ∧
    run_turn identity_order (mkTurn [Command (CreateLane demo_lane) true (Ok tt)] (Ok []) (Ok []))
      (started demo_config r) = Some (Ok e, f') ∧ (j ≤ 16)%nat.
Proof.
  destruct demo_starts as [r Hr].
  destruct (owner_turn_safe identity_order demo_config 0 (started demo_config r)
    (mkTurn [Command (CreateLane demo_lane) true (Ok tt)] (Ok []) (Ok [])) demo_typed (reaches_start _ _ _ _ Hr))
    as (e & j & f' & Hrun & Hj & _).
  - split; [by repeat constructor|]. by split; constructor.
  - simpl. lia.
  - by exists r, e, j, f'.
Defined.

(** C17: A client that holds one permit per chunk is served: as long as the fabric is
    not poisoned, its chunks fit the slots and the segment answers, the command
    returns a lease and the lease is the reply (no wait and no refusal remains
    after the admission). *)
Theorem admitted_acquire_served {J Seg Q N} `{!NativeSegment Seg} `{!NativeJetty J Seg} `{!NativeFabric Q N}
    (hash_order : list Z → list Z) config held (f : FabricOwner (J := J) (Seg := Seg) (Q := Q) (N := N)) lens created :
  config_typed config → reaches hash_order config held f → poison f = None →
  Z.of_nat (List.length lens) ≤ held →
  let p := pool (owner (runtime f)) in
  chunks_ok (slot_size (buffer_pool config)) lens → memory_ok (slot_size (buffer_pool config)) p →
  (∃ s l, slots p = s :: l ∧ kind s = Tx) → 0 ≤ next_lease_id (leases p) < u_max 64 →
  ∃ lease f', handle_command hash_order (AcquireTxWindowChunks lens (Z.of_nat (List.length lens))) true created f
      = Some (Ok Continue, f') ∧ replies f' = replies f ++ [ReplyLease (Ok lease)].
Proof.
  intros ????? ????. destruct (admitted_acquire hash_order config held f lens true created) as (l & r' & _ & Hl);
    [done..|]. destruct (Hl eq_refl) as (f' & ? & ?). by exists l, f'.
Qed.

Lemma admitted_acquire_served_witness :
  ∃ (r : RT) lease f', start_inner demo_config demo_start = Ok r ∧
    handle_command identity_order (AcquireTxWindowChunks [100; 4096] 2) true (Ok tt)
      (set_admission 0 (started demo_config r)) = Some (Ok Continue, f') ∧ replies f' = [ReplyLease (Ok lease)].
Proof.
  destruct demo_starts as [r Hr].
  assert (match start_inner (J := unit) demo_config demo_start with
          | Ok r => let p := pool (owner r) in Some (segment p, slots p, next_lease_id (leases p))
          | Err _ => None end =
    Some (Some tt, [mkBufferSlot Tx 0 4096 Urma.Free 0; mkBufferSlot Tx 4096 4096 Urma.Free 0;
                    mkBufferSlot Rx 8192 4096 Urma.Free 0; mkBufferSlot Rx 12288 4096 Urma.Free 0], 1)) as Hp
    by (vm_compute; reflexivity).
  rewrite Hr in Hp. injection Hp as Hseg Hsl Hid.
  destruct (admitted_acquire_served identity_order demo_config (0 + 2)
    (set_admission (tx_slot_admission (started demo_config r) - 2) (started demo_config r)) [100; 4096] (Ok tt))
    as (lease & f' & Hrun & Hrep); simpl.
  - apply demo_typed.
  - apply reaches_take; [by eapply reaches_start|]. simpl. lia.
  - done.
  - lia.
  - split; [done| |done]. intros n Hn. repeat (apply elem_of_cons in Hn as [->|Hn]; [vm_compute; intuition congruence|]).
    by apply not_elem_of_nil in Hn.
  - exists tt, 4096, 16384. rewrite Hseg, Hsl. simpl. split_and!; try done; vm_compute; congruence.
  - rewrite Hsl. by eexists _, _.
  - rewrite Hid. vm_compute. split; congruence.
  - exists r, lease, f'. by split_and!.
Defined.

(** ** Errors and shutdown *)

(** A failed poll poisons the fabric once: the first failure is what clients are
    told from then on, the published readiness names it, and every command that
    would start new work is refused with it, without touching the runtime's lanes
    or the native library. *)
Theorem poisoned_fabric_refuses {J Seg Q N} `{!NativeSegment Seg} `{!NativeJetty J Seg} `{!NativeFabric Q N}
    (hash_order : list Z → list Z) (f : FabricOwner (J := J) (Seg := Seg) (Q := Q) (N := N)) failure :
  poison f = Some failure →
  (∀ later, poison_once later f = f) ∧
  ∀ c created, match c with
    | CreateLane _ | BindLane _ _ | GrantSendCredit _ _ => True | _ => False end →
  ∃ reply, handle_command hash_order c true created f
      = Some (Ok Continue, add_reply reply (set_runtime (set_owner (owner (runtime f)) (runtime f)) f)) ∧
    reply ∈ [ReplyLane (Err (Protocol ("URMA fabric is poisoned: " +:+ failure)));
             ReplyUnit (Err (Protocol ("URMA fabric is poisoned: " +:+ failure)))].
Proof.
  intros Hp. split.
  { intros later. unfold poison_once. by rewrite Hp. }
  assert (∀ A (m : PR _ Error A), unless_poisoned (mret tt) m f =
    Some (Ok (Err (Protocol ("URMA fabric is poisoned: " +:+ failure))),
          set_runtime (set_owner (owner (runtime f)) (runtime f)) f)) as Hr.
  { intros A m. unfold unless_poisoned. cbv [mbind pr_mbind pr_gets]. by rewrite Hp. }
  intros c created Hc. destruct c; try done; cbn [handle_command]; cbv [mbind pr_mbind]; rewrite Hr; simpl;
    (eexists; split; [done|]; set_solver).
Qed.

Lemma poisoned_fabric_refuses_witness :
  ∃ r : RT, start_inner demo_config demo_start = Ok r ∧
    poison_once "second" (poison_once "first" (started demo_config r)) = poison_once "first" (started demo_config r).
Proof.
  destruct demo_starts as [r Hr]. exists r. split; [done|].
  apply (proj1 (poisoned_fabric_refuses identity_order (poison_once "first" (started demo_config r)) "first" eq_refl)).
Defined.

(** C18: A shutdown releases the native resources only when no lane and no work
    request is left.  When it succeeds, the segment is unregistered, the queues
    and the native runtime are closed, no lease is active and the process guard
    is cleared; when it fails, the runtime is poisoned, the guard stays, and if
    lanes remain every native resource stays as it was. *)
Theorem shutdown_releases_everything {J Seg Q N} `{!NativeSegment Seg} `{!NativeJetty J Seg} `{!NativeFabric Q N}
    (hash_order : list Z → list Z) sz h polls (r : UrmaRuntime (J := J) (Seg := Seg) (Q := Q) (N := N)) :
  runtime_inv sz h r → poisoned r = false → polls_typed polls →
  wp (shutdown_inner hash_order polls) (λ x r',
    match x with
    | Ok _ => pool_open r' = false ∧ recv_jfc r' = None ∧ send_jfc r' = None ∧ native r' = None ∧
        lanes r' = ∅ ∧ rt_outstanding r' = 0 ∧ process_active r' = false ∧
        (pool_open r = true → active (leases (pool (owner r'))) = ∅ ∧ segment (pool (owner r')) = None)
    | Err e => poisoned r' = true ∧ process_active r' = process_active r ∧ (∃ x xs, e = Shutdown (x :: xs)) ∧
        (lanes r' ≠ ∅ → pool_open r' = pool_open r ∧ recv_jfc r' = recv_jfc r ∧ send_jfc r' = send_jfc r ∧
           native r' = native r)
    end) r.
Proof.
  intros Hr Hp Hpolls. eapply wp_mono; [by apply (shutdown_inner_spec hash_order sz h)|].
  intros [[]|e] r' (_ & _ & Hx).
  - destruct Hx as ((? & ? & ? & ?) & ? & ? & ? & _ & ?). by split_and!.
  - destruct Hx as (? & ? & ? & Hf). split_and!; try done. intros Hl.
    destruct (Hf Hl) as (_ & ? & ? & ? & ? & _). by split_and!.
Qed.

Lemma shutdown_releases_everything_witness :
  ∃ (r r' : RT), start_inner demo_config demo_start = Ok r ∧
    shutdown_inner identity_order [] r = Some (Ok tt, r') ∧ segment (pool (owner r')) = None.
Proof.
  destruct demo_starts as [r Hr]. exists r. pose proof Hr as Hs.
  apply start_inner_spec in Hs as (Hinv & Hopen & _ & _ & Hpo & _); [|vm_compute; congruence..].
  pose proof (shutdown_releases_everything identity_order _ true [] r Hinv Hpo ltac:(constructor)) as Hw.
  assert (match start_inner (J := unit) demo_config demo_start with
          | Ok r => match shutdown_inner identity_order [] r with Some (Ok tt, _) => true | _ => false end
          | Err _ => false end = true) as Hrun by (vm_compute; reflexivity).
  rewrite Hr in Hrun. unfold wp in Hw. destruct (shutdown_inner identity_order [] r) as [[[[]|e] r']|]; try done.
  exists r'. split_and!; try done. destruct Hw as (_ & _ & _ & _ & _ & _ & _ & Hseg). by apply Hseg.
Defined.

(** [UrmaRuntime::shutdown] runs its work a second time when it drops the
    runtime.  A runtime that another thread starts in between (it may, the guard
    is clear) loses the process guard to the second store, so that a third one can
    be started beside it. *)
Theorem shutdown_clears_guard_twice {J Seg Q N} `{!NativeSegment Seg} `{!NativeJetty J Seg} `{!NativeFabric Q N}
    (hash_order : list Z → list Z) sz h polls polls' (r r1 : UrmaRuntime (J := J) (Seg := Seg) (Q := Q) (N := N)) :
  runtime_inv sz h r → poisoned r = false → polls_typed polls → hash_order [] = [] →
  shutdown_inner hash_order polls r = Some (Ok tt, r1) →
  let other_started := set_poisoned (poisoned r1) true r1 in
  ∃ r2, drop_runtime hash_order polls' other_started = Some (Ok tt, r2) ∧ process_active r2 = false.
Proof.
  intros Hr Hp Hpolls Hh Hrun. pose proof (shutdown_inner_spec hash_order sz h polls r Hr Hp Hpolls) as Hw.
  unfold wp in Hw. rewrite Hrun in Hw. destruct Hw as (_ & _ & Hrel & Hl & _ & _ & Hp1 & _).
  by apply drop_released.
Qed.

Lemma shutdown_clears_guard_twice_witness :
  ∃ (r r1 r2 : RT), start_inner demo_config demo_start = Ok r ∧
    shutdown_inner identity_order [] r = Some (Ok tt, r1) ∧
    drop_runtime identity_order [] (set_poisoned (poisoned r1) true r1) = Some (Ok tt, r2) ∧ process_active r2 = false.
Proof.
  destruct demo_starts as [r Hr]. exists r. pose proof Hr as Hs.
  apply start_inner_spec in Hs as (Hinv & _ & _ & _ & Hpo & _); [|vm_compute; congruence..].
  assert (match start_inner (J := unit) demo_config demo_start with
          | Ok r => match shutdown_inner identity_order [] r with Some (Ok tt, _) => true | _ => false end
          | Err _ => false end = true) as Hrun by (vm_compute; reflexivity).
  rewrite Hr in Hrun. destruct (shutdown_inner identity_order [] r) as [[[[]|e] r1]|] eqn:H1; try done. exists r1.
  destruct (shutdown_clears_guard_twice identity_order _ true [] [] r r1 Hinv Hpo ltac:(constructor) eq_refl H1) as (r2 & ? & ?).
  by exists r2.
Defined.

(** While no work request is outstanding the loop waits for a command and never
    polls, whatever the completion queues hold: a lane that was closed when idle is
    reaped only after some other lane has work, although the router asks for polls
    until its flush is reported. *)
Theorem idle_owner_never_polls {J Seg Q N} `{!NativeSegment Seg} `{!NativeJetty J Seg} `{!NativeFabric Q N}
    (hash_order : list Z → list Z) (f : FabricOwner (J := J) (Seg := Seg) (Q := Q) (N := N)) received s q s' q' :
  rt_outstanding (runtime f) = 0 →
  run_turn hash_order (mkTurn received s q) f = run_turn hash_order (mkTurn received s' q') f ∧
  run_turn hash_order (mkTurn [] s q) f = Some (Ok Blocked, f).
Proof. apply idle_never_polls. Qed.

Lemma idle_owner_never_polls_witness :
  ∃ f : FO, after [CreateLane demo_lane; CloseLane 1] = Some f ∧
    has_pending_flush (router (owner (runtime f))) = true ∧
    run_turn identity_order (mkTurn [] (Ok [flush_done_record]) (Ok [])) f = Some (Ok Blocked, f).
Proof.
  destruct (after [CreateLane demo_lane; CloseLane 1]) as [f|] eqn:Hf; [|exfalso; vm_compute in Hf; done].
  assert (match after [CreateLane demo_lane; CloseLane 1] with
          | Some f => (has_pending_flush (router (owner (runtime f))), rt_outstanding (runtime f))
          | None => (false, 1) end = (true, 0)) as Hrun by (vm_compute; reflexivity).
  rewrite Hf in Hrun. injection Hrun as Hpf H0. exists f. split_and!; [done|done|].
  apply (proj2 (idle_owner_never_polls identity_order f [] (Ok [flush_done_record]) (Ok []) (Ok []) (Ok []) H0)).
Defined.

(** ** Posting and completing work *)

(** Posting a receive window: whatever the native library accepts, the runtime
    stays consistent and no lane appears or disappears; on success every sequence
    of the window has its own waiter, which only its completion takes. *)
Theorem receive_window_registers {J Seg Q N} `{!NativeSegment Seg} `{!NativeJetty J Seg} `{!NativeFabric Q N}
    sz h lane seqs chs (r : UrmaRuntime (J := J) (Seg := Seg) (Q := Q) (N := N)) :
  runtime_inv sz h r →
  wp (rt_post_receive_window lane seqs chs) (λ x r', runtime_inv sz h r' ∧ rt_total r' = rt_total r ∧
    dom (lanes r') = dom (lanes r) ∧
    (x = Ok tt → ∀ q ch, (q, ch) ∈ zip seqs chs →
       registered_rx_by_identity (router (owner r')) !! (lane, q) = Some ch)) r.
Proof.
  intros Hr. eapply wp_mono; [by apply (rt_post_receive_spec (λ l, l) sz h)|].
  intros x r' ([Hr' _ Ht] & Hd & Hok). split_and!; try done. lia.
Qed.

(** The runtime of the demonstration after commands keeps its invariant. *)
Lemma after_reaches cs f :
  Forall (λ c, permits c = 0 ∧ command_ok c) cs → after cs = Some f → reaches identity_order demo_config 0 f.
Proof.
  intros Hcs. unfold after. destruct demo_starts as [r Hr]. rewrite Hr.
  assert (reaches identity_order demo_config 0 (started demo_config r)) as H0 by by eapply reaches_start.
  generalize (started demo_config r) H0. clear r Hr H0.
  induction Hcs as [|c cs [H0 Hc] _ IH]; intros g Hg; simpl; [congruence|].
  destruct (handle_command identity_order c true (Ok tt) g) as [[x g']|] eqn:Hrun; simpl.
  2:{ clear. intros Hn. exfalso. revert Hn. induction cs; done. }
  intros Hf. apply (IH g'); [|done].
  pose proof (handle_command_spec identity_order _ _ _ g c true (Ok tt) (reaches_inv _ _ _ _ demo_typed Hg) Hc
    ltac:(rewrite H0; done)) as Hw.
  unfold wp in Hw. rewrite Hrun in Hw. destruct Hw as (control & -> & _).
  pose proof (reaches_command identity_order demo_config 0 g c true (Ok tt) control g' Hg Hc ltac:(lia) Hrun) as Hreach.
  by rewrite H0 in Hreach.
Qed.

Lemma receive_window_registers_witness :
  ∃ (f : FO) r', after [CreateLane demo_lane; BindLane 1 demo_descriptor] = Some f ∧
    rt_post_receive_window 1 [5; 6] [0%nat; 1%nat] (runtime f) = Some (Ok tt, r') ∧
    registered_rx_by_identity (router (owner r')) !! (1, 6) = Some 1%nat.
Proof.
  destruct (after [CreateLane demo_lane; BindLane 1 demo_descriptor]) as [f|] eqn:Hf; [|exfalso; vm_compute in Hf; done].
  exists f. pose proof (after_reaches [CreateLane demo_lane; BindLane 1 demo_descriptor] f ltac:(by repeat constructor) Hf) as Hr.
  apply reaches_inv, fi_runtime in Hr; [|apply demo_typed].
  pose proof (receive_window_registers _ _ 1 [5; 6] [0%nat; 1%nat] (runtime f) Hr) as Hw.
  assert (match after [CreateLane demo_lane; BindLane 1 demo_descriptor] with
          | Some f => match rt_post_receive_window 1 [5; 6] [0%nat; 1%nat] (runtime f) with
                      | Some (Ok tt, _) => true | _ => false end
          | None => false end = true) as Hrun by (vm_compute; reflexivity).
  rewrite Hf in Hrun. unfold wp in Hw.
  destruct (rt_post_receive_window 1 [5; 6] [0%nat; 1%nat] (runtime f)) as [[[[]|e] r']|]; try done.
  exists r'. split_and!; try done. destruct Hw as (_ & _ & _ & Hid). apply Hid; [done|]. simpl. set_solver.
Defined.

(** What a completion leaves of the identities of receives. *)
Definition same_identities {Seg} `{!NativeSegment Seg} (o o' : Owner Seg) : Prop :=
  registered_rx_by_identity (router o') = registered_rx_by_identity (router o).
#[local] Instance same_identities_preorder {Seg} `{!NativeSegment Seg} : PreOrder (same_identities (Seg := Seg)).
Proof. split; [done|]. unfold same_identities. congruence. Qed.

Section identities.
Context {Seg : Type} `{!NativeSegment Seg}.
Abbreviation same := (same_identities (Seg := Seg)).

Lemma on_pool_identities {A} (m : PR (UrmaBufferPool (Seg := Seg)) Error A) : respects same (on_pool m).
Proof. apply (respects_zoom _ (λ _ _, True)); by intros. Qed.
Lemma modify_identities f : (∀ o, same o (f o)) → respects same (pr_modify (E := Error) f).
Proof. apply respects_modify. Qed.
#[local] Hint Resolve on_pool_identities : respects.
#[local] Hint Extern 1 (respects _ (pr_modify _)) => apply modify_identities; by intros : respects.
#[local] Hint Extern 1 (respects _ (up_router _)) => apply modify_identities; by intros : respects.

Lemma take_outstanding_identities u : respects same (take_outstanding u).
Proof. unfold take_outstanding. respects. Qed.
Lemma retire_failed_identities b t e : respects same (retire_failed b t e).
Proof. unfold retire_failed, decrement_operation, complete_and_release. respects. Qed.
Lemma window_drop_identities w : respects same (window_drop w).
Proof. unfold window_drop, window_get, window_set, drop_tx_lease. respects. Qed.
Lemma window_completed_identities w x : respects same (window_completed w x).
Proof. unfold window_completed, window_resolve, window_get, window_set, drop_tx_lease. respects. Qed.
#[local] Hint Resolve take_outstanding_identities retire_failed_identities window_drop_identities
  window_completed_identities : respects.

Lemma target_send_identities t x : respects same (target_send t x).
Proof. unfold target_send, drop_routed. respects. Qed.
Lemma drop_routed_identities x : respects same (drop_routed x).
Proof. unfold drop_routed. respects. Qed.
#[local] Hint Resolve target_send_identities drop_routed_identities : respects.

Lemma route_failed_identities rec q :
  event_kind rec = WorkRequest → status rec ≠ 0 → respects same (route rec q).
Proof.
  intros Hk Hs. unfold route. rewrite Hk. respects. unfold route_result.
  rewrite (proj2 (Z.eqb_neq _ _) Hs). simpl. respects.
Qed.
End identities.

Lemma unregister_refused (r : CompletionRouter) lane imm ch :
  registered_rx_by_identity r !! (lane, imm) = Some ch → ∃ e, unregister_lane lane r = (Err e, r).
Proof.
  intros Hid. unfold unregister_lane. rewrite (proj2 (existsb_exists _ _)); [by eexists|].
  exists ((lane, imm), ch). split; [apply list_elem_of_In; by apply elem_of_map_to_list|]. simpl. apply Z.eqb_refl.
Qed.

(** A receive that completes with an error (a flushed one, when its lane is
    closed) frees its slot but keeps its identity, its waiter is told nothing, and
    the lane cannot be unregistered any more: reaping it fails, and the failure
    poisons the fabric. *)
Theorem failed_receive_strands_lane {Seg} `{!NativeSegment Seg} (o o' : Owner Seg) rec q r lane imm ch :
  event_kind rec = WorkRequest → status rec ≠ 0 →
  registered_rx_by_identity (router o) !! (lane, imm) = Some ch →
  route rec q o = Some (r, o') →
  registered_rx_by_identity (router o') !! (lane, imm) = Some ch ∧
  ∃ e, unregister_lane lane (router o') = (Err e, router o').
Proof.
  intros Hk Hs Hid Hrun. pose proof (route_failed_identities rec q Hk Hs o r o' Hrun) as Heq.
  unfold same_identities in Heq. rewrite Heq. split; [done|]. eapply unregister_refused. by rewrite Heq.
Qed.

Lemma failed_receive_strands_lane_witness :
  (∃ (f : FO) r o', after (receiving ++ [CloseLane 1]) = Some f ∧
    route (demo_record 10) true (owner (runtime f)) = Some (r, o') ∧
    ∃ e, unregister_lane 1 (router o') = (Err e, router o')) ∧
  (f ← polled_after (after (receiving ++ [CloseLane 1])) (Ok [flush_done_record]) (Ok [demo_record 10]); poison f)
    = Some "protocol error: cannot unregister lane 1 with registered RX identities".
Proof.
  split; [|vm_compute; reflexivity].
  destruct (after (receiving ++ [CloseLane 1])) as [f|] eqn:Hf; [|exfalso; vm_compute in Hf; done].
  assert (match after (receiving ++ [CloseLane 1]) with
          | Some f => let o := owner (runtime f) in
              (registered_rx_by_identity (router o) !! (1, 5),
               match route (demo_record 10) true o with Some _ => true | None => false end)
          | None => (None, false) end = (Some 0%nat, true)) as Hrun by (vm_compute; reflexivity).
  rewrite Hf in Hrun. injection Hrun as Hid Hro.
  destruct (route (demo_record 10) true (owner (runtime f))) as [[r o']|] eqn:Hroute; [|done].
  exists f, r, o'. split_and!; [done|done|].
  destruct (failed_receive_strands_lane (owner (runtime f)) o' (demo_record 10) true r 1 5 0%nat eq_refl
    ltac:(done) Hid Hroute) as [_ He]. exact He.
Defined.

(** When a poll fails while a send window is in flight, its lease is dropped with
    its slots still posted: the recycling is refused, the later completion frees
    the slot but not the lease, and the shutdown fails on the active lease although
    nothing is outstanding. *)
Theorem failed_window_blocks_shutdown :
  let failed := polled_after sending (Ok [unknown_record]) (Ok []) in
  let completed := polled_after (command_on (RecycleLease (mkLeaseRecycle 1 1)) failed) (Ok [send_record]) (Ok []) in
  (f ← failed; last (sent (owner (runtime f)))) = Some (SendTx 3 (Err (Protocol "unknown URMA completion event kind 9"))) ∧
  (f ← completed; Some (rt_outstanding (runtime f), slots (pool (owner (runtime f))) !! 0%nat,
                        elements (dom (active (leases (pool (owner (runtime f))))))))
    = Some (0, Some (mkBufferSlot Tx 0 4096 Urma.Free 1), [1]) ∧
  (f ← completed; '(_, f) ← finish_owner identity_order true [(Ok [flush_done_record], Ok [])] [] f; last (replies f))
    = Some (ReplyUnit (Err (Shutdown
        ["invalid configuration: cannot close registered Segment with 1 active leases"]))).
Proof. intros failed completed. split_and!; vm_compute; reflexivity. Qed.

End UrmaTheorems.
