(* ===== verification/UrmaSession.v ===== *)
(** * URMA sessions: piece transfers over a lane

    Models [src/dragonfly-client-storage/src/urma/session.rs]: the identities of
    chunks, the shape of a transfer, the reordering of received chunks, the
    admission of receive windows, and the handlers of the downloader's and the
    uploader's side of a transfer.

    What the awaited calls (the fabric, the control connection, the timers)
    return are inputs of the handlers.  What a handler does to the control
    connection and to the lane is appended to [log].  The lane's native permits
    live in the windows that own them; the metrics and log lines are left out, and
    the derived [Debug] text of a frame and the text of a [ClientError] are
    parameters, since they only end in messages.  A handler is [None] if it panics or
    waits for ever: the wait of [fill_receive_pipeline] for a pipeline permit has no
    timeout and ends only when the client drops a delivered lease ([awaited_lease]). *)

From S2P Require Import Prelude Errors Engine Wire UrmaBuffer UrmaLane UrmaCompletion.
From Stdlib Require Import ZArith Lia String.
From stdpp Require Import base tactics numbers list gmap strings pretty.
Local Open Scope Z_scope.

Module Session.
Import Urma Router.

Abbreviation TransferId := Z.
Abbreviation ReceiveWindow := Wire.ReceiveWindow.
Abbreviation PieceMetadata := Wire.PieceMetadata.
Abbreviation PieceRequest := Wire.PieceRequest.
Abbreviation Frame := Wire.Frame.

(** Codes of [rendezvous.rs]. *)
Definition ERROR_CODE_INCOMPATIBLE : Z := 1.
Definition ERROR_CODE_INTERNAL : Z := 3.
Definition ERROR_CODE_BUSY : Z := 5.

(** ** Identities of chunks *)

(** [transfer_sequence], [decode_transfer_sequence]. *)
Definition transfer_sequence (transfer_id : TransferId) (chunk : Z) : Result Z :=
  if (transfer_id =? 0) || (u_max 32 <? chunk) then
    Err (Protocol ("invalid URMA transfer sequence: transfer_id=" +:+ pretty transfer_id +:+
                   " chunk=" +:+ pretty chunk))
  else Ok (Z.lor (Z.shiftl transfer_id 32) chunk).

Definition decode_transfer_sequence (sequence : Z) : Result (TransferId * Z) :=
  let transfer_id := u_wrap 32 (Z.shiftr sequence 32) in
  let chunk := Z.land sequence (u_max 32) in
  if transfer_id =? 0 then
    Err (Protocol ("invalid URMA SEND_IMM identity: sequence=" +:+ pretty sequence +:+ " transfer_id=0"))
  else Ok (transfer_id, chunk).

(** [{:?}] of a [ReceiveWindow] and of a [Vec<u64>]. *)
Definition show_window (w : ReceiveWindow) : string :=
  "ReceiveWindow { start_chunk: " +:+ pretty (Wire.start_chunk w) +:+ ", chunk_count: " +:+
  pretty (Wire.chunk_count w) +:+ " }".
Definition show_list (l : list Z) : string := "[" +:+ String.concat ", " (pretty <$> l) +:+ "]".

Section session.
Context (show_frame : Frame → string) (show_client_error : DFError → string).

(** [control_error], [unexpected]. *)
Definition control_error (e : DFError) : Error :=
  Protocol ("URMA rendezvous failed: " +:+ show_client_error e).
Definition unexpected (frame : Frame) (phase : string) : Error :=
  match frame with
  | Wire.FError _ error => PeerRejected (Wire.code error) (Wire.message error)
  | frame => Protocol ("unexpected URMA frame during " +:+ phase +:+ ": " +:+ show_frame frame)
  end.

(** ** The shape of a transfer *)

(** [struct TransferShape]. *)
Record TransferShape := mkTransferShape { metadata : PieceMetadata; shape_chunk_count : Z }.

(** [u64::div_ceil]. *)
Definition div_ceil (a b : Z) : Z := if a `mod` b =? 0 then a `div` b else a `div` b + 1.

(** [TransferShape::negotiate]. *)
Definition negotiate (request : PieceRequest) (m : PieceMetadata) (max_message_size : Z)
    (max_inflight_chunks : Z) : Result TransferShape :=
  if bool_decide (Wire.task_id request = "") || (Wire.req_chunk_size request =? 0) ||
     (Wire.req_max_inflight_chunks request =? 0) || (Wire.pm_length m =? 0) ||
     (Wire.pm_chunk_size m =? 0) || (Wire.req_chunk_size request <? Wire.pm_chunk_size m) ||
     (max_message_size <? Wire.pm_chunk_size m) || (Wire.pm_max_inflight_chunks m =? 0) ||
     (Wire.req_max_inflight_chunks request <? Wire.pm_max_inflight_chunks m) ||
     (max_inflight_chunks <? Wire.pm_max_inflight_chunks m)
  then Err (Protocol ("invalid URMA Piece negotiation: request chunk=" +:+
              pretty (Wire.req_chunk_size request) +:+ " inflight=" +:+
              pretty (Wire.req_max_inflight_chunks request) +:+ ", metadata length=" +:+
              pretty (Wire.pm_length m) +:+ " chunk=" +:+ pretty (Wire.pm_chunk_size m) +:+
              " inflight=" +:+ pretty (Wire.pm_max_inflight_chunks m)))
  else Ok (mkTransferShape m (div_ceil (Wire.pm_length m) (Wire.pm_chunk_size m))).

(** [TransferShape::window]; the minimum is at most a [u32]. *)
Definition shape_window (s : TransferShape) (start_chunk : Z) : Result ReceiveWindow :=
  if shape_chunk_count s <=? start_chunk then
    Err (Protocol "receive window starts after the final chunk")
  else Ok (Wire.mkReceiveWindow start_chunk
             (u_wrap 32 (Z.min (shape_chunk_count s - start_chunk)
                           (Wire.pm_max_inflight_chunks (metadata s))))).

(** [TransferShape::chunk_len]; the subtraction wraps. *)
Definition chunk_len (s : TransferShape) (chunk : Z) : Result Z :=
  if shape_chunk_count s <=? chunk then Err (Protocol "chunk index exceeds Piece length")
  else
    offset ← ok_or (Protocol "chunk offset overflow")
               (u64_checked_mul chunk (Wire.pm_chunk_size (metadata s)));
    Ok (Z.min (Wire.pm_chunk_size (metadata s)) (u64_sub (Wire.pm_length (metadata s)) offset)).

(** The loop of [window_len] over [n] chunks from [chunk]. *)
Fixpoint chunks_len (s : TransferShape) (n : nat) (chunk length : Z) : Result Z :=
  match n with
  | O => Ok length
  | S n =>
      l ← chunk_len s chunk;
      length ← ok_or (Protocol "receive window length overflow") (u64_checked_add length l);
      chunks_len s n (chunk + 1) length
  end.

(** [TransferShape::window_len]. *)
Definition window_len (s : TransferShape) (w : ReceiveWindow) : Result Z :=
  if shape_chunk_count s <? Wire.start_chunk w then
    Err (Protocol "receive window starts past Piece end")
  else
    _ ← match Wire.ReceiveWindow_validate w (Wire.start_chunk w)
                (shape_chunk_count s - Wire.start_chunk w) with
        | Ok _ => Ok tt
        | Err e => Err (control_error e)
        end;
    chunks_len s (Z.to_nat (Wire.chunk_count w)) (Wire.start_chunk w) 0.

(** ** Received chunks *)

(** [struct ReceiveWindowRoutingStats]. *)
Record RoutingStats := mkRoutingStats {
  reordered_chunk_count : Z;
  cross_transfer_chunk_count : Z;
}.

Definition b2z (b : bool) : Z := if b then 1 else 0.

(** The loop of [reorder_receive_window_completions] over the completions. *)
Fixpoint place_completions (lane_id : Z) (transfer_id : TransferId) (shape : TransferShape)
    (window : ReceiveWindow) (end_chunk : Z) (completions : list RegisteredRxCompletion)
    (leases_by_chunk : list (option RegisteredRxWindowLease)) (routing : RoutingStats)
    : Result (list (option RegisteredRxWindowLease) * RoutingStats) :=
  match completions with
  | [] => Ok (leases_by_chunk, routing)
  | c :: completions =>
      if negb (rx_lane_id c =? lane_id) then
        Err (Protocol ("URMA receive completion changed lane: expected=" +:+ pretty lane_id +:+
                       " received=" +:+ pretty (rx_lane_id c)))
      else
        posted ← ok_or (Protocol "registered URMA receive completion has no posted sequence")
                   (posted_sequence c);
        '(posted_transfer_id, _) ← decode_transfer_sequence posted;
        '(received_transfer_id, received_chunk) ← decode_transfer_sequence (rx_imm_data c);
        if negb (received_transfer_id =? transfer_id) then
          Err (Protocol ("URMA SEND_IMM transfer mismatch: expected=" +:+ pretty transfer_id +:+
                 " received=" +:+ pretty received_transfer_id +:+ " sequence=" +:+ pretty (rx_imm_data c)))
        else if (received_chunk <? Wire.start_chunk window) || (end_chunk <=? received_chunk) then
          Err (Protocol ("URMA SEND_IMM chunk is outside the active window: transfer_id=" +:+
                 pretty transfer_id +:+ " window=" +:+ show_window window +:+ " received_chunk=" +:+
                 pretty received_chunk))
        else
          expected_len ← chunk_len shape received_chunk;
          if negb (rx_length (rx_lease c) =? expected_len) then
            Err (Protocol ("URMA SEND_IMM chunk length mismatch: transfer_id=" +:+ pretty transfer_id +:+
                   " chunk=" +:+ pretty received_chunk +:+ " expected=" +:+ pretty expected_len +:+
                   " received=" +:+ pretty (rx_length (rx_lease c)) +:+ " rx_slot=" +:+
                   pretty (Z.of_nat (index (rx_slot c)))))
          else
            let received_index := Z.to_nat (received_chunk - Wire.start_chunk window) in
            if bool_decide (is_Some (mjoin (leases_by_chunk !! received_index))) then
              Err (Protocol ("duplicate URMA SEND_IMM chunk: transfer_id=" +:+ pretty transfer_id +:+
                             " chunk=" +:+ pretty received_chunk))
            else
              place_completions lane_id transfer_id shape window end_chunk completions
                (<[received_index := Some (rx_lease c)]> leases_by_chunk)
                (mkRoutingStats
                   (reordered_chunk_count routing + b2z (negb (posted =? rx_imm_data c)))
                   (cross_transfer_chunk_count routing + b2z (negb (posted_transfer_id =? transfer_id))))
  end.

(** The indices of [l] that are empty, from chunk [start] on. *)
Definition missing {A} (start : Z) (l : list (option A)) : list Z :=
  omap (λ x : nat * option A, match x.2 with None => Some (start + Z.of_nat x.1) | Some _ => None end)
    (imap pair l).

(** [reorder_receive_window_completions]. *)
Definition reorder_receive_window_completions (lane_id : Z) (transfer_id : TransferId)
    (shape : TransferShape) (window : ReceiveWindow) (completions : list RegisteredRxCompletion)
    : Result (list RegisteredRxWindowLease * RoutingStats) :=
  _ ← window_len shape window;
  let count := Z.to_nat (Wire.chunk_count window) in
  if negb (List.length completions =? count)%nat then
    Err (Protocol ("URMA receive window completion count mismatch: expected=" +:+
           pretty (Wire.chunk_count window) +:+ " received=" +:+
           pretty (Z.of_nat (List.length completions))))
  else
    end_chunk ← ok_or (Protocol "URMA receive window chunk range overflow")
                  (u64_checked_add (Wire.start_chunk window) (Wire.chunk_count window));
    '(leases, routing) ← place_completions lane_id transfer_id shape window end_chunk completions
                           (replicate count None) (mkRoutingStats 0 0);
    match missing (Wire.start_chunk window) leases with
    | [] => Ok (omap (λ x, x) leases, routing)
    | l => Err (Protocol ("URMA receive window identities are incomplete: transfer_id=" +:+
                          pretty transfer_id +:+ " missing_received=" +:+ show_list l))
    end.
(** ** Admission of receive windows *)

(** [struct NativeReceiveAdmissionState]. *)
Record NativeReceiveAdmissionState := mkAdmission {
  active_windows : Z;
  active_windows_by_transfer : gmap TransferId Z;
}.

(** [NativeReceiveWindowPermit::new] and its drop. *)
Definition admit_window (transfer_id : TransferId) (a : NativeReceiveAdmissionState)
    : NativeReceiveAdmissionState :=
  mkAdmission (active_windows a + 1)
    (<[transfer_id := default 0 (active_windows_by_transfer a !! transfer_id) + 1]>
       (active_windows_by_transfer a)).
Definition saturating_decr (n : Z) : Z := if n =? 0 then 0 else n - 1.
Definition release_admission (transfer_id : TransferId) (a : NativeReceiveAdmissionState)
    : NativeReceiveAdmissionState :=
  mkAdmission (saturating_decr (active_windows a))
    match active_windows_by_transfer a !! transfer_id with
    | None => active_windows_by_transfer a
    | Some count =>
        let count := saturating_decr count in
        if count =? 0 then delete transfer_id (active_windows_by_transfer a)
        else <[transfer_id := count]> (active_windows_by_transfer a)
    end.

(** ** The downloader *)

(** [struct PendingReceiveWindow]: the operations by their sequence; it owns a
    permit of the pipeline and [chunk_count] native permits. *)
Record PendingReceiveWindow := mkPendingWindow {
  pending_window : ReceiveWindow;
  expected_len : Z;
  operations : list Z;
}.

(** [struct ClientPiece]; [window_permits] counts the free permits. *)
Record ClientPiece := mkClientPiece {
  piece_transfer_id : TransferId;
  shape : TransferShape;
  next_post_chunk : Z;
  next_deliver_chunk : Z;
  receive_window_count : Z;
  send_imm_chunk_count : Z;
  routing : RoutingStats;
  pending : list PendingReceiveWindow;
  window_permits : Z;
  pipeline_depth : nat;
}.

(** What happens to the control connection and to the lane. *)
Inductive SessionEvent : Type :=
| Sent (frame : Frame)
| ControlFinished
| ControlDropped
| ControlAborted (message : string)
| LaneAborted.

(** [struct ClientLane], without the connection and the fabric. *)
Record ClientLane := mkClientLane {
  lane_id : Z;
  max_message_size : Z;
  max_receive_inflight : Z;
  receive_pipeline_depth : nat;
  next_transfer_id : Z;
  failed : bool;
  admission : NativeReceiveAdmissionState;
}.

(** [struct UrmaClientTransfer] with its lane; [transfer_control] is the identity
    of the control while there is one. *)
Record ClientTransfer := mkClientTransfer {
  client_lane : ClientLane;
  transfer_control : option TransferId;
  client_piece : option ClientPiece;
  log : list SessionEvent;
}.

Definition set_lane (l : ClientLane) (t : ClientTransfer) : ClientTransfer :=
  mkClientTransfer l (transfer_control t) (client_piece t) (log t).
Definition set_control (c : option TransferId) (t : ClientTransfer) : ClientTransfer :=
  mkClientTransfer (client_lane t) c (client_piece t) (log t).
Definition set_piece (p : option ClientPiece) (t : ClientTransfer) : ClientTransfer :=
  mkClientTransfer (client_lane t) (transfer_control t) p (log t).
Definition add_event (e : SessionEvent) (t : ClientTransfer) : ClientTransfer :=
  mkClientTransfer (client_lane t) (transfer_control t) (client_piece t) (log t ++ [e]).
Definition set_failed (l : ClientLane) : ClientLane :=
  mkClientLane (lane_id l) (max_message_size l) (max_receive_inflight l) (receive_pipeline_depth l)
    (next_transfer_id l) true (admission l).
Definition on_admission (f : NativeReceiveAdmissionState → NativeReceiveAdmissionState) (t : ClientTransfer)
    : ClientTransfer :=
  let l := client_lane t in
  set_lane (mkClientLane (lane_id l) (max_message_size l) (max_receive_inflight l)
              (receive_pipeline_depth l) (next_transfer_id l) (failed l) (f (admission l))) t.
Definition set_pending (pending : list PendingReceiveWindow) (permits : Z) (p : ClientPiece) : ClientPiece :=
  mkClientPiece (piece_transfer_id p) (shape p) (next_post_chunk p) (next_deliver_chunk p)
    (receive_window_count p) (send_imm_chunk_count p) (routing p) pending permits (pipeline_depth p).

Abbreviation CM A := (PR ClientTransfer Error A).

(** [Arc::clone(..).send(frame)] under a timeout: [sent] is the outcome; a frame
    of another transfer is refused. *)
Definition send_transfer_control (frame : Frame) (sent : Result unit) : CM unit :=
  t ← pr_gets (λ t, t);
  id ← pr_expect (transfer_control t);
  if bool_decide (Wire.transfer_id frame = Some id) then
    _ ← pr_lift sent; pr_modify (add_event (Sent frame))
  else pr_throw (Protocol "attempted to send a frame through another transfer").

(** The drop of a window of transfer [id]: its native permits return. *)
Definition drop_window (id : TransferId) : CM unit := pr_modify (on_admission (release_admission id)).

(** [UrmaClientTransfer::abort]: dropping a pending window returns its permit. *)
Definition abort {A} (error : Error) : CM A :=
  t ← pr_gets (λ t, t);
  _ ← match client_piece t with
      | Some p =>
          _ ← pr_modify (set_piece (Some (set_pending []
                (window_permits p + Z.of_nat (List.length (pending p))) p)));
          pr_for (λ _ : PendingReceiveWindow, drop_window (piece_transfer_id p)) (pending p)
      | None => mret tt
      end;
  _ ← match transfer_control t with
      | Some _ => pr_modify (λ t, add_event ControlDropped (set_control None t))
      | None => mret tt
      end;
  _ ← pr_modify (λ t, set_lane (set_failed (client_lane t)) t);
  _ ← pr_modify (add_event (ControlAborted (Error_fmt error)));
  _ ← pr_modify (add_event LaneAborted);
  pr_throw error.

(** [UrmaClientSession::abort_lane]; the control of the request is dropped when the
    caller returns. *)
Definition abort_lane {A} (error : Error) : CM A :=
  _ ← pr_modify (λ t, set_lane (set_failed (client_lane t)) t);
  _ ← pr_modify (add_event (ControlAborted (Error_fmt error)));
  _ ← pr_modify (add_event LaneAborted);
  _ ← pr_modify (λ t, add_event ControlDropped (set_control None t));
  pr_throw error.

(** [UrmaClientSession::request_piece], on the fresh transfer state of the lane:
    [registered] is the outcome of [LaneControl::register], [sent] and [received]
    those of the request and its answer.  The state keeps the advanced counter. *)
Definition request_piece (request : PieceRequest) (registered : Result unit) (sent : Result unit)
    (received : Result Frame) : CM PieceMetadata :=
  t ← pr_gets (λ t, t);
  let l := client_lane t in
  _ ← pr_guard (failed l) (Protocol "URMA client lane is failed");
  _ ← pr_guard (bool_decide (Wire.task_id request = "") || (Wire.req_chunk_size request =? 0) ||
                (max_message_size l <? Wire.req_chunk_size request) ||
                (Wire.req_max_inflight_chunks request =? 0) ||
                (max_receive_inflight l <? Wire.req_max_inflight_chunks request))
        (Protocol "invalid URMA Piece request");
  let id := next_transfer_id l in
  _ ← pr_modify (set_lane (mkClientLane (lane_id l) (max_message_size l) (max_receive_inflight l)
        (receive_pipeline_depth l) (Z.max (u_wrap 32 (id + 1)) 1) (failed l) (admission l)));
  _ ← pr_lift registered;
  _ ← pr_modify (set_control (Some id));
  x ← pr_catch (send_transfer_control (Wire.Request id request) sent);
  match x with
  | Err error => abort_lane error
  | Ok _ =>
      match received with
      | Err error => abort_lane error
      | Ok frame =>
          match frame with
          | Wire.Ready response_id m =>
              if response_id =? id then
                match negotiate request m (max_message_size l) (max_receive_inflight l) with
                | Err error => abort_lane error
                | Ok s =>
                    _ ← pr_modify (set_piece (Some (mkClientPiece id s 0 0 0 0 (mkRoutingStats 0 0) []
                          (Z.of_nat (receive_pipeline_depth l)) (receive_pipeline_depth l))));
                    mret (metadata s)
                end
              else abort_lane (unexpected frame "Piece request")
          | Wire.FError response_id err =>
              if (response_id =? id) && (Wire.code err =? ERROR_CODE_BUSY) then
                _ ← pr_modify (λ t, add_event ControlFinished (set_control None t));
                pr_throw (PeerRejected (Wire.code err) (Wire.message err))
              else abort_lane (unexpected frame "Piece request")
          | frame => abort_lane (unexpected frame "Piece request")
          end
      end
  end.

(** What happens in one iteration of [fill_receive_pipeline]: the leases that were
    dropped before it, whether one is dropped while it waits for a permit of the
    pipeline, the native admission, the post of the window and the announcement. *)
Inductive NativeAdmission : Type := Granted | AdmissionTimeout | AdmissionClosed.
Record FillTurn := mkFillTurn {
  dropped_leases : Z;
  awaited_lease : bool;
  native_admission : NativeAdmission;
  posted : Result unit;
  announced : Result unit;
}.

(** The sequences of the chunks of a window. *)
Definition window_sequences (id : TransferId) (w : ReceiveWindow) : Result (list Z) :=
  collect (transfer_sequence id) (seqZ (Wire.start_chunk w) (Wire.chunk_count w)).

(** The iteration: [true] when the loop goes on. *)
Definition fill_turn (turn : FillTurn) : CM bool :=
  t ← pr_gets (λ t, t);
  p ← pr_lift (ok_or (Protocol "no active URMA Piece") (client_piece t));
  let p := set_pending (pending p) (window_permits p + dropped_leases turn) p in
  _ ← pr_modify (set_piece (Some p));
  if (pipeline_depth p <=? List.length (pending p))%nat ||
     (next_post_chunk p =? shape_chunk_count (shape p)) then mret false
  else
    window ← pr_lift (shape_window (shape p) (next_post_chunk p));
    expected ← pr_lift (window_len (shape p) window);
    let pending_count := List.length (pending p) in
    if (window_permits p <=? 0) && negb (pending_count =? 0)%nat then mret false
    else
      (* [permits.acquire_owned().await] has no timeout: without a free permit it returns
         with the permit of a delivered lease that is dropped, or never *)
      permits ← (if window_permits p <=? 0
                 then if awaited_lease turn then mret (window_permits p) else λ _, None
                 else mret (window_permits p - 1) : CM Z);
      _ ← pr_modify (set_piece (Some (set_pending (pending p) permits p)));
      let return_permit : CM unit := pr_modify (λ t,
        set_piece (option_map (λ p, set_pending (pending p) (window_permits p + 1) p) (client_piece t)) t) in
      match native_admission turn with
      | AdmissionClosed =>
          if (pending_count =? 0)%nat then
            x ← pr_catch (abort (A := bool) (Shutdown ["URMA native RX admission is closed"]));
            _ ← return_permit; pr_lift x
          else _ ← return_permit; mret false
      | AdmissionTimeout =>
          if (pending_count =? 0)%nat then
            match transfer_sequence (piece_transfer_id p) (Wire.start_chunk window) with
            | Err e => _ ← return_permit; pr_throw e
            | Ok sequence =>
                x ← pr_catch (abort (A := bool) (OperationTimeout (Some sequence)));
                _ ← return_permit; pr_lift x
            end
          else _ ← return_permit; mret false
      | Granted =>
          match window_sequences (piece_transfer_id p) window with
          | Err e => _ ← return_permit; pr_throw e
          | Ok sequences =>
              match posted turn with
              | Err error =>
                  match error with
                  | BufferUnavailable _ _ _ =>
                      if negb (pending_count =? 0)%nat then _ ← return_permit; mret false
                      else x ← pr_catch (abort (A := bool) error); _ ← return_permit; pr_lift x
                  | _ => x ← pr_catch (abort (A := bool) error); _ ← return_permit; pr_lift x
                  end
              | Ok _ =>
                  _ ← pr_modify (on_admission (admit_window (piece_transfer_id p)));
                  x ← pr_catch (send_transfer_control
                        (Wire.RecvPosted (piece_transfer_id p) window) (announced turn));
                  match x with
                  | Err error =>
                      y ← pr_catch (abort (A := bool) error);
                      _ ← drop_window (piece_transfer_id p);
                      _ ← return_permit; pr_lift y
                  | Ok _ =>
                      t ← pr_gets (λ t, t);
                      p ← pr_expect (client_piece t);
                      _ ← pr_modify (set_piece (Some (mkClientPiece (piece_transfer_id p) (shape p)
                            (u64_add (next_post_chunk p) (Wire.chunk_count window)) (next_deliver_chunk p)
                            (receive_window_count p) (send_imm_chunk_count p) (routing p)
                            (pending p ++ [mkPendingWindow window expected sequences])
                            (window_permits p) (pipeline_depth p))));
                      mret true
                  end
              end
          end
      end.

(** [UrmaClientTransfer::fill_receive_pipeline]; [turns] gives the outcomes of the
    iterations. *)
Fixpoint fill_receive_pipeline (fuel : nat) (turns : nat → FillTurn) (i : nat) : CM unit :=
  match fuel with
  | O => λ _, None
  | S fuel =>
      go ← fill_turn (turns i);
      if (go : bool) then fill_receive_pipeline fuel turns (S i) else mret tt
  end.

(** The waits for the operations of a window: the first error stops them. *)
Fixpoint wait_operations (operations : list Z) (outcomes : list (Result RegisteredRxCompletion))
    : option (Result (list RegisteredRxCompletion)) :=
  match operations with
  | [] => Some (Ok [])
  | _ :: operations =>
      match outcomes with
      | [] => None
      | Err e :: _ => Some (Err e)
      | Ok c :: outcomes =>
          r ← wait_operations operations outcomes;
          Some (match r with Ok cs => Ok (c :: cs) | Err e => Err e end)
      end
  end.

(** [UrmaClientTransfer::receive_next_window_registered]. *)
Definition receive_next_window (fuel : nat) (turns : nat → FillTurn)
    (outcomes : list (Result RegisteredRxCompletion)) : CM RegisteredRxWindowLease :=
  _ ← fill_receive_pipeline fuel turns 0;
  t ← pr_gets (λ t, t);
  match client_piece t with
  | None | Some (mkClientPiece _ _ _ _ _ _ _ [] _ _) => pr_throw (Protocol "no pending URMA receive window")
  | Some (mkClientPiece id s np nd wc sc ro (w :: rest) permits depth) =>
      _ ← pr_modify (set_piece (Some (mkClientPiece id s np nd wc sc ro rest permits depth)));
      (* on an error the window is dropped with its permits after the abort *)
      let fail {A} (error : Error) : CM A :=
        x ← pr_catch (abort (A := A) error);
        _ ← drop_window id;
        _ ← pr_modify (λ t, set_piece (option_map
              (λ p, set_pending (pending p) (window_permits p + 1) p) (client_piece t)) t);
        pr_lift x in
      completions ← pr_expect (wait_operations (operations w) outcomes);
      match completions with
      | Err error => fail error
      | Ok completions =>
          match reorder_receive_window_completions (lane_id (client_lane t)) id s (pending_window w) completions with
          | Err error => fail error
          | Ok (leases, r) =>
              match merge leases with
              | Err error => fail error
              | Ok lease =>
                  if rx_length lease =? expected_len w then
                    _ ← pr_modify (set_piece (Some (mkClientPiece id s np
                          (u64_add nd (Wire.chunk_count (pending_window w))) (wc + 1)
                          (sc + Wire.chunk_count (pending_window w))
                          (mkRoutingStats (reordered_chunk_count ro + reordered_chunk_count r)
                             (cross_transfer_chunk_count ro + cross_transfer_chunk_count r))
                          rest permits depth)));
                    _ ← drop_window id;
                    mret (with_pipeline_permit lease)
                  else fail (Protocol ("registered URMA window length mismatch: expected " +:+
                               pretty (expected_len w) +:+ ", got " +:+ pretty (rx_length lease)))
              end
          end
      end
  end.

(** [UrmaClientTransfer::piece_complete], [finish_piece], [abort_transfer]. *)
Definition piece_complete (t : ClientTransfer) : bool :=
  match client_piece t with
  | Some p => next_deliver_chunk p =? shape_chunk_count (shape p)
  | None => false
  end.

Definition client_finish_piece (received : Result Frame) : CM unit :=
  t ← pr_gets (λ t, t);
  p ← pr_lift (ok_or (Protocol "no active URMA Piece") (client_piece t));
  _ ← pr_guard (negb (next_deliver_chunk p =? shape_chunk_count (shape p)) ||
                bool_decide (pending p ≠ [])) (Protocol "URMA Piece is not fully received");
  _ ← pr_guard (bool_decide (transfer_control t = None)) (Protocol "no active URMA Piece control");
  match received with
  | Err error => abort error
  | Ok (Wire.Done id) =>
      if id =? piece_transfer_id p then
        pr_modify (λ t, add_event ControlFinished (set_control None (set_piece None t)))
      else abort (unexpected (Wire.Done id) "Piece finish")
  | Ok frame => abort (unexpected frame "Piece finish")
  end.

Definition abort_transfer (message : string) : CM unit := abort (Protocol message).

(** ** The uploader *)

(** [struct ServerPiece], [struct ServerLane], [struct UrmaServerTransfer]. *)
Record ServerPiece := mkServerPiece {
  sp_transfer_id : TransferId;
  sp_request : PieceRequest;
  sp_shape : option TransferShape;
  next_chunk : Z;
}.
Record ServerLane := mkServerLane {
  sl_lane_id : Z;
  sl_max_message_size : Z;
  max_send_inflight : Z;
  sl_failed : bool;
}.
Record ServerTransfer := mkServerTransfer {
  server_lane : ServerLane;
  server_control : option TransferId;
  server_piece : option ServerPiece;
  server_log : list SessionEvent;
}.

Definition s_lane (l : ServerLane) (t : ServerTransfer) : ServerTransfer :=
  mkServerTransfer l (server_control t) (server_piece t) (server_log t).
Definition s_control (c : option TransferId) (t : ServerTransfer) : ServerTransfer :=
  mkServerTransfer (server_lane t) c (server_piece t) (server_log t).
Definition s_piece (p : option ServerPiece) (t : ServerTransfer) : ServerTransfer :=
  mkServerTransfer (server_lane t) (server_control t) p (server_log t).
Definition s_event (e : SessionEvent) (t : ServerTransfer) : ServerTransfer :=
  mkServerTransfer (server_lane t) (server_control t) (server_piece t) (server_log t ++ [e]).
Definition s_failed (l : ServerLane) : ServerLane :=
  mkServerLane (sl_lane_id l) (sl_max_message_size l) (max_send_inflight l) true.

Abbreviation SM A := (PR ServerTransfer Error A).

Definition s_send (frame : Frame) (sent : Result unit) : SM unit :=
  t ← pr_gets (λ t, t);
  id ← pr_expect (server_control t);
  if bool_decide (Wire.transfer_id frame = Some id) then
    _ ← pr_lift sent; pr_modify (s_event (Sent frame))
  else pr_throw (Protocol "attempted to send a frame through another transfer").

(** [send_piece_error]. *)
Definition send_piece_error (transfer_id : TransferId) (code : Z) (message : string) (sent : Result unit)
    : SM unit := s_send (Wire.FError transfer_id (Wire.mkRendezvousError code message)) sent.

(** [UrmaServerTransfer::abort], [abort_peer]; [told] is the outcome of sending the
    error. *)
Definition s_abort {A} (error : Error) : SM A :=
  t ← pr_gets (λ t, t);
  _ ← match server_control t with
      | Some _ => pr_modify (λ t, s_event ControlDropped (s_control None t))
      | None => mret tt
      end;
  _ ← pr_modify (λ t, s_lane (s_failed (server_lane t)) t);
  _ ← pr_modify (s_event (ControlAborted (Error_fmt error)));
  _ ← pr_modify (s_event LaneAborted);
  pr_throw error.
Definition s_abort_peer {A} (told : Result unit) (error : Error) : SM A :=
  t ← pr_gets (λ t, t);
  _ ← match server_piece t, server_control t with
      | Some p, Some _ =>
          _ ← pr_catch (send_piece_error (sp_transfer_id p) ERROR_CODE_INTERNAL (Error_fmt error) told);
          mret tt
      | _, _ => mret tt
      end;
  _ ← pr_modify (s_event (ControlAborted (Error_fmt error)));
  s_abort error.

(** [UrmaServerSession::receive_request], after the control handed over a request;
    [told] is the outcome of sending an error. *)
Definition receive_request (l : ServerLane) (transfer_id : TransferId) (request : PieceRequest)
    (told : Result unit) : option (Result unit * ServerTransfer) :=
  let t := mkServerTransfer l (Some transfer_id)
             (Some (mkServerPiece transfer_id request None 0)) [] in
  if sl_failed l then Some (Err (Protocol "URMA server lane is failed"), s_control None (s_piece None t))
  else if bool_decide (Wire.task_id request = "") || (Wire.req_chunk_size request =? 0) ||
     (sl_max_message_size l <? Wire.req_chunk_size request) || (Wire.req_max_inflight_chunks request =? 0)
  then
    let error := Protocol "invalid URMA Piece request" in
    (_ ← pr_catch (send_piece_error transfer_id ERROR_CODE_INTERNAL (Error_fmt error) told);
     _ ← pr_modify (λ t, s_lane (s_failed (server_lane t)) (s_piece None t));
     _ ← pr_modify (s_event (ControlAborted (Error_fmt error)));
     _ ← pr_modify (s_event LaneAborted);
     _ ← pr_modify (λ t, s_event ControlDropped (s_control None t));
     pr_throw error) t
  else Some (Ok tt, t).

(** [UrmaServerTransfer::ready]. *)
Definition ready (m : PieceMetadata) (told sent : Result unit) : SM unit :=
  t ← pr_gets (λ t, t);
  p ← pr_lift (ok_or (Protocol "no pending URMA Piece") (server_piece t));
  _ ← pr_guard (bool_decide (is_Some (sp_shape p))) (Protocol "URMA Piece is already ready");
  match negotiate (sp_request p) m (sl_max_message_size (server_lane t)) (max_send_inflight (server_lane t)) with
  | Err error => s_abort_peer told error
  | Ok s =>
      x ← pr_catch (s_send (Wire.Ready (sp_transfer_id p) m) sent);
      match x with
      | Err error => s_abort error
      | Ok _ => pr_modify (s_piece (Some (mkServerPiece (sp_transfer_id p) (sp_request p) (Some s) (next_chunk p))))
      end
  end.

(** What the awaits of [send_next_registered_window] return: the announcement of the
    receiver, the native admission, the grant of the credit, the post and its
    completion (lane, sequences, lease). *)
Record SendTurn := mkSendTurn {
  received_frame : Result Frame;
  send_admission : NativeAdmission;
  granted : Result unit;
  send_posted : Result unit;
  send_completed : Result (Z * list Z * TxWindowLease);
  send_told : Result unit;
}.

(** [UrmaServerTransfer::send_next_registered_window]. *)
Definition send_next_registered_window (lease : TxWindowLease) (turn : SendTurn) : SM TxWindowLease :=
  t ← pr_gets (λ t, t);
  let lane := sl_lane_id (server_lane t) in
  p ← pr_lift (ok_or (Protocol "no active URMA Piece") (server_piece t));
  s ← pr_lift (ok_or (Protocol "URMA Piece is not ready") (sp_shape p));
  expected ← pr_lift (shape_window s (next_chunk p));
  _ ← pr_expect (server_control t);
  match received_frame turn with
  | Err error => s_abort error
  | Ok frame =>
      match (match frame with
             | Wire.RecvPosted id window => if id =? sp_transfer_id p then Some window else None
             | _ => None end) with
      | None => s_abort_peer (send_told turn) (unexpected frame "receive credit")
      | Some window =>
          if negb ((Wire.start_chunk window =? Wire.start_chunk expected) &&
                   (Wire.chunk_count window =? Wire.chunk_count expected)) then
            s_abort_peer (send_told turn) (Protocol ("invalid URMA receive window: expected " +:+
              show_window expected +:+ ", got " +:+ show_window window))
          else
            expected_len ← pr_lift (window_len s window);
            if negb (tx_length lease =? expected_len) ||
               negb (Z.of_nat (List.length (tx_layouts lease)) =? Wire.chunk_count window) then
              s_abort_peer (send_told turn) (Protocol ("URMA registered TX window mismatch: expected " +:+
                pretty expected_len +:+ " bytes/" +:+ pretty (Wire.chunk_count window) +:+ " chunks, got " +:+
                pretty (tx_length lease) +:+ " bytes/" +:+ pretty (Z.of_nat (List.length (tx_layouts lease))) +:+
                " chunks"))
            else
              match send_admission turn with
              | AdmissionClosed => s_abort (Shutdown ["URMA native TX admission is closed"])
              | AdmissionTimeout =>
                  sequence ← pr_lift (transfer_sequence (sp_transfer_id p) (Wire.start_chunk window));
                  s_abort_peer (send_told turn) (OperationTimeout (Some sequence))
              | Granted =>
                  match granted turn with
                  | Err error => s_abort_peer (send_told turn) error
                  | Ok _ =>
                      sequences ← pr_lift (window_sequences (sp_transfer_id p) window);
                      match send_posted turn with
                      | Err error => s_abort_peer (send_told turn) error
                      | Ok _ =>
                          match send_completed turn with
                          | Err error => s_abort_peer (send_told turn) error
                          | Ok (completed_lane, completed_sequences, completed) =>
                              if negb (completed_lane =? lane) ||
                                 bool_decide (completed_sequences ≠ sequences) then
                                s_abort_peer (send_told turn)
                                  (Protocol "invalid URMA registered TX window completion")
                              else
                                _ ← pr_modify (s_piece (Some (mkServerPiece (sp_transfer_id p) (sp_request p)
                                      (sp_shape p) (u64_add (next_chunk p) (Wire.chunk_count window)))));
                                mret completed
                          end
                      end
                  end
              end
      end
  end.

(** [UrmaServerTransfer::finish_piece]. *)
Definition server_finish_piece (told sent : Result unit) : SM unit :=
  t ← pr_gets (λ t, t);
  p ← pr_lift (ok_or (Protocol "no active URMA Piece") (server_piece t));
  s ← pr_lift (ok_or (Protocol "URMA Piece is not ready") (sp_shape p));
  if negb (next_chunk p =? shape_chunk_count s) then
    s_abort_peer told (Protocol "URMA Piece is not fully sent")
  else
    x ← pr_catch (s_send (Wire.Done (sp_transfer_id p)) sent);
    match x with
    | Err error => s_abort error
    | Ok _ => pr_modify (λ t, s_event ControlFinished (s_control None (s_piece None t)))
    end.

(** [UrmaServerTransfer::reject_piece]; [aborted] is the outcome of the fabric's
    abort. *)
Definition reject_piece (code : Z) (message : string) (told sent aborted : Result unit) : SM unit :=
  t ← pr_gets (λ t, t);
  p ← pr_lift (ok_or (Protocol "no pending URMA Piece to reject") (server_piece t));
  if bool_decide (is_Some (sp_shape p)) then
    s_abort_peer told (Protocol ("cannot reject active URMA Piece locally: code=" +:+ pretty code +:+
                                 " message=" +:+ message))
  else
    write_result ← pr_catch (send_piece_error (sp_transfer_id p) code message sent);
    _ ← pr_modify (λ t, s_event ControlDropped (s_control None (s_piece None t)));
    _ ← pr_modify (λ t, s_lane (s_failed (server_lane t)) t);
    _ ← pr_modify (s_event (ControlAborted message));
    _ ← pr_modify (s_event LaneAborted);
    pr_lift (match write_result with Ok _ => aborted | Err e => Err e end).

(** [UrmaServerTransfer::reject_piece_transient]. *)
Definition reject_piece_transient (code : Z) (message : string) (told sent : Result unit) : SM unit :=
  t ← pr_gets (λ t, t);
  p ← pr_lift (ok_or (Protocol "no pending URMA Piece to reject") (server_piece t));
  if bool_decide (is_Some (sp_shape p)) then
    s_abort_peer told (Protocol ("cannot reject active URMA Piece transiently: code=" +:+ pretty code +:+
                                 " message=" +:+ message))
  else
    write_result ← pr_catch (send_piece_error (sp_transfer_id p) code message sent);
    _ ← pr_modify (λ t, s_event ControlFinished (s_control None (s_piece None t)));
    pr_lift write_result.
End session.
End Session.
