(* ===== verification/UrmaSessionFacts.v ===== *)
(** * Correctness of URMA sessions

    The windows of a transfer tile the piece, received chunks are put in order
    whatever order they arrive in, the books of the receive windows are exact, and
    two peers that follow the handlers always agree on the next window and finish. *)

From S2P Require Import Prelude Errors Engine Wire UrmaBuffer UrmaLane UrmaCompletion UrmaSession.
From Stdlib Require Import ZArith Lia String.
From stdpp Require Import base tactics numbers list gmap strings pretty.
Local Open Scope Z_scope.

Module SessionFacts.
Import Urma Router Session.

(** ** Identities *)
Lemma transfer_sequence_decode id chunk seq :
  0 ≤ id < 2 ^ 32 → 0 ≤ chunk → transfer_sequence id chunk = Ok seq →
  decode_transfer_sequence seq = Ok (id, chunk) ∧ 0 ≤ seq < 2 ^ 64.
Proof.
  intros Hid Hc. unfold transfer_sequence. destruct (Z.eqb_spec id 0) as [|Hid0]; [done|].
  destruct (Z.ltb_spec (u_max 32) chunk) as [|Hle]; [done|]. simpl. intros [= <-].
  unfold u_max in Hle. assert (chunk < 2 ^ 32) by lia.
  rewrite lor_pack by lia. unfold decode_transfer_sequence.
  rewrite pack_high, u_wrap_small by lia. unfold u_max.
  change (2 ^ 32 - 1) with (Z.ones 32). rewrite Z.land_ones by lia.
  change ((id * 2 ^ 32 + chunk) `mod` 2 ^ 32) with (u_wrap 32 (id * 2 ^ 32 + chunk)). rewrite pack_low by lia.
  destruct (Z.eqb_spec id 0); [done|]. split; [done|]. nia.
Qed.

(** ** Shapes *)

Record shape_ok (s : TransferShape) : Prop := {
  so_length : 1 ≤ Wire.pm_length (metadata s) ≤ u_max 64;
  so_chunk : 1 ≤ Wire.pm_chunk_size (metadata s);
  so_inflight : 1 ≤ Wire.pm_max_inflight_chunks (metadata s) ≤ u_max 32;
  so_count : shape_chunk_count s = div_ceil (Wire.pm_length (metadata s)) (Wire.pm_chunk_size (metadata s));
}.

(** The fields of a metadata message are unsigned machine integers. *)
Definition metadata_typed (m : PieceMetadata) : Prop :=
  0 ≤ Wire.pm_length m ≤ u_max 64 ∧ 0 ≤ Wire.pm_chunk_size m ∧ 0 ≤ Wire.pm_max_inflight_chunks m ≤ u_max 32.

Lemma negotiate_ok req m mms inflight s :
  metadata_typed m → negotiate req m mms inflight = Ok s →
  shape_ok s ∧ metadata s = m ∧ Wire.pm_chunk_size m ≤ mms ∧ Wire.pm_max_inflight_chunks m ≤ inflight ∧
  Wire.pm_chunk_size m ≤ Wire.req_chunk_size req ∧ Wire.pm_max_inflight_chunks m ≤ Wire.req_max_inflight_chunks req.
Proof.
  intros (Hl & Hc & Hi). unfold negotiate.
  destruct (_ || _) eqn:E; [done|]. intros [= <-]. simpl.
  repeat (apply orb_false_iff in E as [E ?]).
  rewrite ?Z.eqb_neq, ?Z.ltb_ge in *. split_and!; try done; try lia. split; simpl; lia || done.
Qed.

Section shape.
Context (s : TransferShape) (Hs : shape_ok s).
Abbreviation len := (Wire.pm_length (metadata s)).
Abbreviation cs := (Wire.pm_chunk_size (metadata s)).
Abbreviation count := (shape_chunk_count s).

Lemma count_bounds : 1 ≤ count ∧ (count - 1) * cs < len ≤ count * cs ∧ count ≤ len.
Proof.
  destruct Hs as [Hl Hc _ ->]. unfold div_ceil.
  pose proof (Z.div_mod len cs ltac:(lia)) as Hdm. pose proof (Z.mod_pos_bound len cs ltac:(lia)) as Hm.
  destruct (Z.eqb_spec (len `mod` cs) 0) as [H0|H0]; nia.
Qed.

Lemma chunk_len_Ok c : 0 ≤ c < count → chunk_len s c = Ok (Z.min cs (len - c * cs)) ∧ 1 ≤ Z.min cs (len - c * cs) ≤ cs.
Proof.
  intros Hc. pose proof count_bounds as (H1 & H2 & H3). pose proof (so_length s Hs) as Hl. pose proof (so_chunk s Hs).
  assert (c * cs < len) as Hlt by nia. unfold chunk_len. destruct (Z.leb_spec count c); [lia|].
  unfold u64_checked_mul. rewrite decide_True by (unfold u_max in *; nia). simpl.
  unfold u64_sub. rewrite u_wrap_small by (unfold u_max in *; nia). split; [done|lia].
Qed.

(** The bytes of the chunks from [c] on. *)
Definition bytes_from (c : Z) : Z := len - Z.min len (c * cs).

Lemma chunks_len_Ok n c acc :
  0 ≤ c → c + Z.of_nat n ≤ count → 0 ≤ acc → acc + bytes_from c ≤ u_max 64 →
  chunks_len s n c acc = Ok (acc + (bytes_from c - bytes_from (c + Z.of_nat n))).
Proof.
  induction n as [|n IH] in c, acc |- *; intros Hc Hn Hacc Hb; simpl.
  { rewrite Z.add_0_r. f_equal. lia. }
  destruct (chunk_len_Ok c) as [-> Hr]; [lia|]. simpl.
  assert (bytes_from c = Z.min cs (len - c * cs) + bytes_from (c + 1)) as Hsplit.
  { pose proof count_bounds. pose proof (so_chunk s Hs). assert (c * cs < len) by nia. unfold bytes_from.
    destruct (Z.le_gt_cases len ((c + 1) * cs)); nia. }
  assert (0 ≤ bytes_from (c + 1)) as Hpos by (unfold bytes_from; lia).
  unfold u64_checked_add. rewrite decide_True by lia. simpl.
  rewrite IH by lia. f_equal. replace (c + 1 + Z.of_nat n) with (c + Z.of_nat (S n)) by lia. lia.
Qed.

(** The window at [c]. *)
Lemma shape_window_Ok c :
  0 ≤ c < count →
  ∃ n, shape_window s c = Ok (Wire.mkReceiveWindow c n) ∧ 1 ≤ n ≤ Wire.pm_max_inflight_chunks (metadata s) ∧
    c + n ≤ count ∧ (n = Wire.pm_max_inflight_chunks (metadata s) ∨ c + n = count).
Proof.
  intros Hc. unfold shape_window. destruct (Z.leb_spec count c); [lia|]. pose proof (so_inflight s Hs).
  rewrite u_wrap_small by (unfold u_max in *; lia). eexists. split; [done|]. lia.
Qed.

Context (show_client_error : DFError → string).

Lemma window_len_Ok c n :
  0 ≤ c → 1 ≤ n → c + n ≤ count →
  window_len show_client_error s (Wire.mkReceiveWindow c n) = Ok (bytes_from c - bytes_from (c + n)).
Proof.
  intros Hc Hn Hle. unfold window_len. simpl. destruct (Z.ltb_spec count c); [lia|].
  unfold Wire.ReceiveWindow_validate. simpl. rewrite Z.eqb_refl. simpl.
  destruct (Z.eqb_spec n 0); [lia|]. simpl. destruct (Z.ltb_spec (count - c) n); [lia|]. simpl.
  rewrite chunks_len_Ok; [f_equal; rewrite Z2Nat.id by lia; lia|lia|lia|lia|].
  pose proof (so_length s Hs). pose proof (so_chunk s Hs). unfold bytes_from. nia.
Qed.

(** ** The plan of a transfer *)

(** The windows in the order the client announces them. *)
Fixpoint plan (fuel : nat) (c : Z) : list ReceiveWindow :=
  match fuel with
  | O => []
  | S fuel =>
      match shape_window s c with
      | Ok w => w :: plan fuel (c + Wire.chunk_count w)
      | Err _ => []
      end
  end.

Definition window_chunks (w : ReceiveWindow) : list Z := seqZ (Wire.start_chunk w) (Wire.chunk_count w).

Lemma plan_tiles fuel c :
  0 ≤ c ≤ count → count - c ≤ Z.of_nat fuel →
  plan fuel c ≫= window_chunks = seqZ c (count - c) ∧
  collect (window_len show_client_error s) (plan fuel c) = Ok ((λ w, bytes_from (Wire.start_chunk w) -
     bytes_from (Wire.start_chunk w + Wire.chunk_count w)) <$> plan fuel c) ∧
  foldr Z.add 0 ((λ w, bytes_from (Wire.start_chunk w) -
     bytes_from (Wire.start_chunk w + Wire.chunk_count w)) <$> plan fuel c) = bytes_from c ∧
  Forall (λ w, 1 ≤ Wire.chunk_count w ≤ Wire.pm_max_inflight_chunks (metadata s)) (plan fuel c).
Proof.
  induction fuel as [|fuel IH] in c |- *; intros Hc Hf.
  { assert (c = count) as -> by lia. rewrite Z.sub_diag. simpl. split_and!; try done.
    pose proof count_bounds. unfold bytes_from. lia. }
  cbn [plan]. destruct (decide (c = count)) as [->|Hne].
  { unfold shape_window. rewrite (proj2 (Z.leb_le _ _)) by lia. rewrite Z.sub_diag. simpl. split_and!; try done.
    pose proof count_bounds. unfold bytes_from. lia. }
  destruct (shape_window_Ok c) as (n & -> & Hn & Hle & _); [lia|].
  cbn [Wire.chunk_count]. destruct (IH (c + n)) as (H1 & H2 & H3 & H4); [lia|lia|].
  rewrite bind_cons, H1, fmap_cons. cbn [collect]. rewrite window_len_Ok by lia. rewrite H2. split_and!.
  - unfold window_chunks. cbn [Wire.start_chunk Wire.chunk_count]. rewrite <- (seqZ_app c n (count - (c + n))) by lia. f_equal. lia.
  - done.
  - cbn [foldr]. rewrite H3. simpl. lia.
  - by constructor.
Qed.
End shape.
(** ** Reordering *)

Section reorder.
Context (show_client_error : DFError → string).
Context (lane : Z) (tid : TransferId) (s : TransferShape) (w : ReceiveWindow).
Abbreviation Lease := RegisteredRxWindowLease.
Abbreviation start := (Wire.start_chunk w).
Abbreviation end_ := (start + Wire.chunk_count w).

(** Completion [c] is chunk [chunk] of the window. *)
Record carries (c : RegisteredRxCompletion) (chunk : Z) : Prop := {
  ca_lane : rx_lane_id c = lane;
  ca_posted : ∃ p x, posted_sequence c = Some p ∧ decode_transfer_sequence p = Ok x;
  ca_imm : decode_transfer_sequence (rx_imm_data c) = Ok (tid, chunk);
  ca_range : start ≤ chunk < end_;
  ca_len : chunk_len s chunk = Ok (rx_length (rx_lease c));
}.

(** The leases that are in place. *)
Definition placed (l : list (option Lease)) : list Lease := omap (λ x, x) l.

Lemma placed_insert l i x :
  l !! i = Some None → placed (<[i := Some x]> l) ≡ₚ x :: placed l.
Proof.
  intros Hi. rewrite (insert_take_drop l i _) by by eapply lookup_lt_Some.
  assert (placed l = placed (take i l) ++ placed (drop (S i) l)) as Hl.
  { rewrite <- (take_drop_middle l i None Hi) at 1. unfold placed. by rewrite omap_app. }
  rewrite Hl. unfold placed. rewrite omap_app. csimpl. by rewrite <- Permutation_middle.
Qed.

Lemma length_placed l : (List.length (placed l) ≤ List.length l)%nat.
Proof. induction l as [|[x|] l IH]; unfold placed in *; csimpl; lia. Qed.

Lemma placed_full l : List.length (placed l) = List.length l → l = Some <$> placed l.
Proof.
  induction l as [|[x|] l IH]; [done| |]; unfold placed in *; csimpl; intros Hl.
  - f_equal. apply IH. lia.
  - pose proof (length_placed l). unfold placed in *. lia.
Qed.

(** The loop places each completion it accepts, at the index of its chunk. *)
Lemma place_completions_sound cs acc ro acc' ro' :
  Z.of_nat (List.length acc) = Wire.chunk_count w →
  place_completions lane tid s w end_ cs acc ro = Ok (acc', ro') →
  List.length acc' = List.length acc ∧ placed acc' ≡ₚ (rx_lease <$> cs) ++ placed acc ∧
  (∀ i l, acc' !! i = Some (Some l) → acc !! i = Some (Some l) ∨
     ∃ c, c ∈ cs ∧ rx_lease c = l ∧ carries c (start + Z.of_nat i)).
Proof.
  induction cs as [|c cs IH] in acc, ro |- *; intros Hlen; cbn [place_completions].
  { intros [= <- <-]. split; [done|]. split; [done|]. intros i l Hl. by left. }
  destruct (Z.eqb_spec (rx_lane_id c) lane) as [Hlane|]; [|done]. cbn [negb].
  destruct (posted_sequence c) as [p|] eqn:Hp; [|done]. cbn [ok_or mbind result_mbind].
  destruct (decode_transfer_sequence p) as [[pt pc]|] eqn:Hdp; [|done].
  destruct (decode_transfer_sequence (rx_imm_data c)) as [[rt rc]|] eqn:Hdi; [|done]. cbn [mbind result_mbind].
  destruct (Z.eqb_spec rt tid) as [->|]; [|done]. cbn [negb].
  destruct (Z.ltb_spec rc start) as [|Hlo]; [done|]. destruct (Z.leb_spec end_ rc) as [|Hhi]; [done|]. cbn [orb].
  destruct (chunk_len s rc) as [n|] eqn:Hn; [|done]. cbn [mbind result_mbind].
  destruct (Z.eqb_spec (rx_length (rx_lease c)) n) as [Hrl|]; [|done]. cbn [negb].
  case_bool_decide as Hdup; [done|].
  set (i := Z.to_nat (rc - start)) in *.
  assert (i < List.length acc)%nat as Hi by lia.
  assert (acc !! i = Some None) as Hnone.
  { destruct (lookup_lt_is_Some_2 acc i Hi) as [[x|] Hx]; [|done]. exfalso. apply Hdup. rewrite Hx. by eexists. }
  intros Hrun. apply IH in Hrun as (Hl & Hperm & Hpos); [|by rewrite length_insert].
  rewrite length_insert in Hl. split; [done|]. split.
  - rewrite Hperm, placed_insert by done. rewrite fmap_cons. by rewrite <- Permutation_middle.
  - intros j l Hj. destruct (Hpos j l Hj) as [Hin|(c' & Hc' & ? & ?)].
    + apply list_lookup_insert_Some in Hin as [(<- & [= <-] & _)|[_ Hin]]; [|by left].
      right. exists c. split; [by left|]. split; [done|]. replace (start + Z.of_nat i) with rc by lia.
      split; [done|by eexists _, _|done|lia|by rewrite Hn, Hrl].
    + right. exists c'. split; [by right|done].
Qed.

Lemma placed_all l : missing start l = [] → l = Some <$> placed l.
Proof.
  intros Hm. assert (∀ k, omap (λ x : nat * option Lease, match x.2 with None => Some (start + Z.of_nat x.1) | Some _ => None end)
    (imap (λ i x, (k + i, x))%nat l) = [] → l = Some <$> placed l) as H.
  { clear Hm. induction l as [|x l IH]; intros k; [done|]. cbn [imap omap].
    destruct x as [x|]; csimpl; [|done]. intros Hm. f_equal.
    apply (IH (S k)). rewrite <- Hm. f_equal. apply imap_ext. intros. simpl. f_equal. lia. }
  by apply (H 0%nat).
Qed.

Lemma missing_none l : missing start (Some <$> l : list (option Lease)) = [].
Proof.
  assert (∀ k, omap (λ x : nat * option Lease, match x.2 with None => Some (start + Z.of_nat x.1) | Some _ => None end)
    (imap (λ i x, (k + i, x))%nat (Some <$> l)) = []) as H.
  { induction l as [|x l IH]; intros k; [done|]. csimpl. rewrite <- (IH (S k)). f_equal. apply imap_ext.
    intros. simpl. f_equal. lia. }
  apply (H 0%nat).
Qed.

(** The length of a full window is the sum of the lengths of its chunks. *)
Lemma chunks_len_sum n c (ls : list Lease) acc :
  List.length ls = n → (∀ i l, ls !! i = Some l → chunk_len s (c + Z.of_nat i) = Ok (rx_length l)) →
  ∀ total, chunks_len s n c acc = Ok total → total = acc + foldr Z.add 0 (rx_length <$> ls).
Proof.
  intros <-. induction ls as [|l ls IH] in c, acc |- *; intros Hl total; cbn [List.length chunks_len].
  { intros [= <-]. simpl. lia. }
  pose proof (Hl 0%nat l eq_refl) as H0. rewrite Z.add_0_r in H0. rewrite H0. cbn [mbind result_mbind].
  unfold u64_checked_add. case_decide; [|done]. cbn [ok_or mbind result_mbind]. intros Hrun.
  apply IH in Hrun; [|intros i x Hi; rewrite <- (Hl (S i) x Hi); f_equal; lia]. subst total. csimpl. lia.
Qed.

Lemma reorder_sound cs leases ro :
  0 ≤ Wire.chunk_count w →
  reorder_receive_window_completions show_client_error lane tid s w cs = Ok (leases, ro) →
  leases ≡ₚ rx_lease <$> cs ∧ Z.of_nat (List.length leases) = Wire.chunk_count w ∧
  (∀ i l, leases !! i = Some l → ∃ c, c ∈ cs ∧ rx_lease c = l ∧ carries c (start + Z.of_nat i)) ∧
  window_len show_client_error s w = Ok (foldr Z.add 0 (rx_length <$> leases)).
Proof.
  intros Hpos. unfold reorder_receive_window_completions.
  destruct (window_len show_client_error s w) as [n|] eqn:Hwl; [|done]. cbn [mbind result_mbind].
  destruct (Nat.eqb_spec (List.length cs) (Z.to_nat (Wire.chunk_count w))) as [Hlen|]; [|done]. cbn [negb].
  unfold u64_checked_add. case_decide; [|done]. cbn [ok_or mbind result_mbind].
  destruct (place_completions _ _ _ _ _ _ _ _) as [[acc ro']|] eqn:Hrun; [|done]. cbn [mbind result_mbind].
  destruct (missing start acc) eqn:Hm; [|done]. intros [= <- <-].
  apply place_completions_sound in Hrun as (Hl & Hperm & Hcar); [|rewrite length_replicate; lia].
  rewrite length_replicate in Hl. apply placed_all in Hm. change (omap (λ x, x) acc) with (placed acc).
  assert (placed (replicate (Z.to_nat (Wire.chunk_count w)) None) = []) as Hnone.
  { generalize (Z.to_nat (Wire.chunk_count w)). intros k. by induction k. }
  rewrite Hnone, app_nil_r in Hperm.
  assert (∀ i l, placed acc !! i = Some l → ∃ c, c ∈ cs ∧ rx_lease c = l ∧ carries c (start + Z.of_nat i)) as Hall.
  { intros i l Hi. destruct (Hcar i l) as [Hin|?]; [|by apply lookup_replicate in Hin as [? _]|done].
    rewrite Hm, list_lookup_fmap, Hi. done. }
  assert (List.length (placed acc) = Z.to_nat (Wire.chunk_count w)) as Hlp.
  { rewrite <- Hl. rewrite Hm at 2. by rewrite length_fmap. }
  split_and!; [done|lia|done|]. unfold window_len in Hwl. destruct (_ <? _) in Hwl; [done|].
  destruct (Wire.ReceiveWindow_validate _ _ _) in Hwl; [|done]. cbn [mbind result_mbind] in Hwl.
  f_equal. rewrite <- (Z.add_0_l (foldr _ _ _)). eapply (chunks_len_sum _ _ _ _ Hlp); [|exact Hwl].
  intros i l Hi. destruct (Hall i l Hi) as (c & _ & <- & Hc). apply Hc.
Qed.

(** The chunks of the window, in any order, are all accepted. *)
Lemma place_completions_complete cs chunks acc ro :
  Forall2 carries cs chunks → NoDup chunks →
  Z.of_nat (List.length acc) = Wire.chunk_count w →
  (∀ c, c ∈ chunks → acc !! Z.to_nat (c - start) = Some None) →
  ∃ x, place_completions lane tid s w end_ cs acc ro = Ok x.
Proof.
  intros H2. induction H2 as [|c k cs chunks Hc Hcs IH] in acc, ro |- *; intros Hnd Hlen Hfree; [by eexists|].
  destruct Hc as [Hlane (p & [pt pc] & Hp & Hdp) Hdi Hr Hn]. cbn [place_completions].
  rewrite Hlane, Z.eqb_refl, Hp. cbn [negb ok_or mbind result_mbind]. rewrite Hdp. cbn [mbind result_mbind].
  rewrite Hdi. cbn [mbind result_mbind]. rewrite Z.eqb_refl. cbn [negb].
  destruct (Z.ltb_spec k start); [lia|]. destruct (Z.leb_spec end_ k); [lia|]. cbn [orb]. rewrite Hn.
  cbn [mbind result_mbind]. rewrite Z.eqb_refl. cbn [negb]. rewrite (Hfree k) by by left.
  rewrite bool_decide_false by by intros [? ?]. apply NoDup_cons in Hnd as [Hk Hnd].
  apply IH; [done|by rewrite length_insert|]. intros k' Hk'. rewrite list_lookup_insert_ne; [apply Hfree; by right|].
  intros Heq. apply Hk. apply list_elem_of_lookup in Hk' as Hj. destruct Hj as [j Hj].
  destruct (Forall2_lookup_r _ _ _ _ _ Hcs Hj) as (c' & _ & Hc'). pose proof (ca_range _ _ Hc') as Hr'. simpl in *.
  assert (k = k') as -> by lia. done.
Qed.

Lemma reorder_complete cs chunks :
  Forall2 carries cs chunks → chunks ≡ₚ seqZ start (Wire.chunk_count w) →
  is_ok (window_len show_client_error s w) = true → 0 ≤ start → end_ ≤ u_max 64 → 0 ≤ Wire.chunk_count w →
  ∃ leases ro, reorder_receive_window_completions show_client_error lane tid s w cs = Ok (leases, ro).
Proof.
  intros H2 Hp Hok Hs0 He Hc0. unfold reorder_receive_window_completions.
  destruct (window_len show_client_error s w) as [n|]; [|done]. cbn [mbind result_mbind].
  assert (List.length cs = Z.to_nat (Wire.chunk_count w)) as Hlen.
  { rewrite (Forall2_length _ _ _ H2), Hp. apply length_seqZ. }
  rewrite Hlen, Nat.eqb_refl. cbn [negb]. unfold u64_checked_add. rewrite decide_True by done.
  cbn [ok_or mbind result_mbind].
  destruct (place_completions_complete cs chunks (replicate (Z.to_nat (Wire.chunk_count w)) None) (mkRoutingStats 0 0))
    as [[acc ro] Hrun]; [done|rewrite Hp; apply NoDup_seqZ|rewrite length_replicate; lia| |].
  { intros c Hc. rewrite Hp in Hc. apply elem_of_seqZ in Hc. apply lookup_replicate. split; [done|lia]. }
  rewrite Hrun. cbn [mbind result_mbind].
  apply place_completions_sound in Hrun as (Hl & Hperm & _); [|rewrite length_replicate; lia].
  rewrite length_replicate in Hl.
  assert (placed (replicate (Z.to_nat (Wire.chunk_count w)) None) = []) as Hnone.
  { generalize (Z.to_nat (Wire.chunk_count w)). intros k. by induction k. }
  rewrite Hnone, app_nil_r in Hperm. apply Permutation_length in Hperm. rewrite length_fmap, Hlen in Hperm.
  rewrite <- Hl in Hperm. apply placed_full in Hperm as Hfull.
  rewrite Hfull, missing_none. by eexists _, _.
Qed.
End reorder.

(** ** The books of the receive windows *)

(** The counters agree, and transfer [id] has [n] windows. *)
Record counted (id : TransferId) (n : Z) (a : NativeReceiveAdmissionState) : Prop := {
  co_total : active_windows a = map_fold (λ _ k s, k + s) 0 (active_windows_by_transfer a);
  co_pos : ∀ j k, active_windows_by_transfer a !! j = Some k → 1 ≤ k;
  co_id : default 0 (active_windows_by_transfer a !! id) = n;
}.

Lemma map_sum_insert (m : gmap Z Z) i x :
  m !! i = None → map_fold (λ _ k s, k + s) 0 (<[i := x]> m) = x + map_fold (λ _ k s, k + s) 0 m.
Proof. intros Hi. apply map_fold_insert_L; [|done]. intros. lia. Qed.
Lemma map_sum_delete (m : gmap Z Z) i :
  map_fold (λ _ k s, k + s) 0 m = default 0 (m !! i) + map_fold (λ _ k s, k + s) 0 (delete i m).
Proof.
  destruct (m !! i) as [x|] eqn:Hi; simpl; [|by rewrite delete_id].
  rewrite <- (insert_delete_id m i x) at 1 by done. apply map_sum_insert, lookup_delete_eq.
Qed.

Lemma map_sum_nonneg (m : gmap Z Z) : (∀ j k, m !! j = Some k → 0 ≤ k) → 0 ≤ map_fold (λ _ k s, k + s) 0 m.
Proof.
  induction m as [|i x m Hi IH] using map_ind; intros Hp; [done|]. rewrite map_sum_insert by done.
  assert (0 ≤ x) by (apply (Hp i), lookup_insert_eq).
  enough (0 ≤ map_fold (λ _ k s, k + s) 0 m) by lia. apply IH. intros j k Hj. apply (Hp j).
  rewrite lookup_insert_ne; [done|]. intros ->. congruence.
Qed.

Lemma admit_counted id n a : counted id n a → counted id (n + 1) (admit_window id a).
Proof.
  intros [Ht Hp Hn]. unfold admit_window. rewrite Hn. assert (0 ≤ n) as Hn0.
  { subst n. destruct (active_windows_by_transfer a !! id) eqn:Hi; simpl; [apply Hp in Hi|]; lia. }
  split; simpl.
  - rewrite <- insert_delete_eq, map_sum_insert by apply lookup_delete_eq.
    rewrite Ht, (map_sum_delete _ id), Hn. lia.
  - intros j k [[<- <-]|[_ Hk]]%lookup_insert_Some; [lia|by apply Hp in Hk].
  - by rewrite lookup_insert_eq.
Qed.

Lemma release_counted id n a : counted id n a → 1 ≤ n → counted id (n - 1) (release_admission id a).
Proof.
  intros [Ht Hp Hn] H1. unfold release_admission.
  destruct (active_windows_by_transfer a !! id) as [k|] eqn:Hi; simpl in Hn; [subst k|lia].
  unfold saturating_decr. destruct (Z.eqb_spec n 0); [lia|].
  assert (active_windows a = n + map_fold (λ _ k s, k + s) 0 (delete id (active_windows_by_transfer a))) as Hsum.
  { by rewrite Ht, (map_sum_delete _ id), Hi. }
  assert (0 ≤ map_fold (λ _ k s, k + s) 0 (delete id (active_windows_by_transfer a))) as Hnn.
  { apply map_sum_nonneg. intros j k [_ Hk]%lookup_delete_Some. apply Hp in Hk. lia. }
  destruct (Z.eqb_spec (active_windows a) 0); [lia|].
  destruct (Z.eqb_spec (n - 1) 0); split; simpl.
  - lia.
  - intros j k [_ Hk]%lookup_delete_Some. by apply Hp in Hk.
  - rewrite lookup_delete_eq. simpl. lia.
  - rewrite <- insert_delete_eq, map_sum_insert by apply lookup_delete_eq. lia.
  - intros j k [[<- <-]|[_ Hk]]%lookup_insert_Some; [lia|by apply Hp in Hk].
  - by rewrite lookup_insert_eq.
Qed.

(** ** The downloader *)

Section client.
Context (show_frame : Frame → string) (show_client_error : DFError → string).
Implicit Types (t : ClientTransfer) (p : ClientPiece).

(** The pending windows cover the chunks from [c] to [e], in order. *)
Fixpoint pending_from (s : TransferShape) (id : TransferId) (c : Z) (l : list PendingReceiveWindow) (e : Z) : Prop :=
  match l with
  | [] => c = e
  | w :: l =>
      shape_window s c = Ok (pending_window w) ∧
      window_len show_client_error s (pending_window w) = Ok (expected_len w) ∧
      window_sequences id (pending_window w) = Ok (operations w) ∧
      pending_from s id (c + Wire.chunk_count (pending_window w)) l e
  end.

Lemma pending_from_app s id c l1 l2 e :
  pending_from s id c (l1 ++ l2) e ↔ ∃ m, pending_from s id c l1 m ∧ pending_from s id m l2 e.
Proof.
  induction l1 as [|w l1 IH] in c |- *; simpl.
  { split; [by exists c|]. by intros (m & -> & ?). }
  rewrite IH. split; [intros (? & ? & ? & m & ? & ?)|intros (m & (? & ? & ? & ?) & ?)]; eauto 8.
Qed.

Lemma pending_from_le s id c l e : pending_from s id c l e → shape_ok s → 0 ≤ c → c ≤ e.
Proof.
  intros Hpf Hs. induction l as [|w l IH] in c, Hpf |- *; simpl in Hpf; [lia|]. destruct Hpf as (Hw & _ & _ & Hpf). intros Hc.
  destruct (decide (c < shape_chunk_count s)) as [Hlt|].
  - destruct (shape_window_Ok _ Hs c) as (n & Hw' & Hn & _); [lia|]. rewrite Hw' in Hw. injection Hw as Hw.
    rewrite <- Hw in Hpf. simpl in Hpf. apply IH in Hpf; lia.
  - unfold shape_window in Hw. rewrite (proj2 (Z.leb_le _ _)) in Hw by lia. done.
Qed.

(** The windows that [log] announced for transfer [id]. *)
Definition announced_windows (id : TransferId) (log : list SessionEvent) : list ReceiveWindow :=
  omap (λ e, match e with
             | Sent (Wire.RecvPosted i w) => if i =? id then Some w else None
             | _ => None
             end) log.

(** The windows tile the chunks from [c] to [e]. *)
Fixpoint tiles (s : TransferShape) (c : Z) (ws : list ReceiveWindow) (e : Z) : Prop :=
  match ws with
  | [] => c = e
  | w :: ws => shape_window s c = Ok w ∧ tiles s (c + Wire.chunk_count w) ws e
  end.

Lemma tiles_snoc s c ws e w :
  tiles s c ws e → shape_window s e = Ok w → tiles s c (ws ++ [w]) (e + Wire.chunk_count w).
Proof. induction ws as [|w' ws IH] in c |- *; simpl; [by intros -> ?|]. intros [? ?] ?. split; [done|]. by apply IH. Qed.

(** The permits: [out] delivered leases are still alive. *)
Record books (out : Z) t p : Prop := {
  bk_piece : client_piece t = Some p;
  bk_permits : window_permits p + Z.of_nat (List.length (pending p)) + out = Z.of_nat (pipeline_depth p);
  bk_free : 0 ≤ window_permits p;
  bk_out : 0 ≤ out;
  bk_count : counted (piece_transfer_id p) (Z.of_nat (List.length (pending p))) (admission (client_lane t));
}.

(** A transfer that makes progress. *)
Record running (out : Z) t p : Prop := {
  rn_books : books out t p;
  rn_control : transfer_control t = Some (piece_transfer_id p);
  rn_id : 1 ≤ piece_transfer_id p < 2 ^ 32;
  rn_depth : (1 ≤ pipeline_depth p)%nat;
  rn_shape : shape_ok (shape p);
  rn_small : shape_chunk_count (shape p) ≤ 2 ^ 32;
  rn_pending : pending_from (shape p) (piece_transfer_id p) (next_deliver_chunk p) (pending p) (next_post_chunk p);
  rn_log : tiles (shape p) 0 (announced_windows (piece_transfer_id p) (log t)) (next_post_chunk p);
  rn_range : 0 ≤ next_deliver_chunk p ∧ next_deliver_chunk p ≤ next_post_chunk p ≤ shape_chunk_count (shape p);
}.

(** A transfer that was aborted holds nothing but its delivered leases. *)
Record aborted (out : Z) t : Prop := {
  ab_control : transfer_control t = None;
  ab_failed : failed (client_lane t) = true;
  ab_books : ∃ p, books out t p ∧ pending p = [];
}.

(** Dropping [n] windows. *)
Lemma drop_windows_spec {X} (l : list X) id n t :
  counted id (n + Z.of_nat (List.length l)) (admission (client_lane t)) → 0 ≤ n →
  wp (pr_for (λ _ : X, drop_window id) l) (λ r t', r = Ok tt ∧ counted id n (admission (client_lane t')) ∧
    client_piece t' = client_piece t ∧ transfer_control t' = transfer_control t ∧
    failed (client_lane t') = failed (client_lane t)) t.
Proof.
  induction l as [|x l IH] in t |- *; intros Hc Hn; cbn [pr_for List.length] in *.
  { rewrite Z.add_0_r in Hc. done. }
  apply wp_bind. unfold wp at 1, drop_window, pr_modify. eapply wp_mono; [apply IH|].
  - simpl. replace (n + Z.of_nat (List.length l)) with (n + Z.of_nat (S (List.length l)) - 1) by lia.
    apply release_counted; [done|lia].
  - done.
  - done.
Qed.

(** [k] windows of the transfer are owned by the caller of [abort]. *)
Lemma abort_gen {A} k e t p :
  client_piece t = Some p → counted (piece_transfer_id p) (k + Z.of_nat (List.length (pending p))) (admission (client_lane t)) →
  0 ≤ k → is_Some (transfer_control t) →
  wp (abort (A := A) e) (λ r t', r = Err e ∧ transfer_control t' = None ∧ failed (client_lane t') = true ∧
    client_piece t' = Some (set_pending [] (window_permits p + Z.of_nat (List.length (pending p))) p) ∧
    counted (piece_transfer_id p) k (admission (client_lane t'))) t.
Proof.
  intros Hp Hc Hk [c Hctl]. unfold abort. apply wp_bind_gets. rewrite Hp, Hctl. apply wp_bind, wp_bind_modify.
  eapply wp_mono; [by apply (drop_windows_spec _ _ k)|].
  intros r t1 (-> & Hc1 & Hp1 & Hctl1 & _). simpl in Hp1, Hctl1. do 4 apply wp_bind_modify.
  unfold wp, pr_throw. by split_and!.
Qed.

Lemma abort_spec {A} out e t p :
  books out t p → is_Some (transfer_control t) →
  wp (abort (A := A) e) (λ r t', r = Err e ∧ aborted out t' ∧
    client_piece t' = Some (set_pending [] (window_permits p + Z.of_nat (List.length (pending p))) p)) t.
Proof.
  intros [Hp Hb Hf Ho Hc] Hctl. eapply wp_mono; [by apply (abort_gen 0)|].
  intros r t' (-> & H1 & H2 & H3 & H4). split; [done|]. split; [|done]. split; [done|done|].
  eexists. split; [split; [exact H3|simpl; lia|simpl; lia|lia|done]|done].
Qed.

(** Every error path of an iteration: the window's permit returns after the abort. *)
Lemma fail_turn_spec out e t p :
  books (out + 1) t p → is_Some (transfer_control t) → 0 ≤ out →
  wp (x ← pr_catch (abort (A := bool) e);
      _ ← pr_modify (λ t, set_piece (option_map (λ p, set_pending (pending p) (window_permits p + 1) p) (client_piece t)) t);
      pr_lift x) (λ r t', r = Err e ∧ aborted out t') t.
Proof.
  intros Hb Hctl Ho. apply wp_bind_catch. eapply wp_mono; [by apply (abort_spec (A := bool) (out + 1))|].
  intros r t1 (-> & [Hc Hf (p1 & [Hp Hbk Hfr _ Hcn] & Hnil)] & _). apply wp_bind_modify. unfold wp, pr_lift.
  split; [done|]. split; [done|done|]. rewrite Hp. eexists. split; [split; simpl; [done|simpl; lia|simpl; lia|done|done]|done].
Qed.

Lemma window_sequences_Ok id c n :
  1 ≤ id → 0 ≤ c → c + n ≤ 2 ^ 32 → ∃ l, window_sequences id (Wire.mkReceiveWindow c n) = Ok l ∧
    List.length l = Z.to_nat n.
Proof.
  intros Hid Hc Hn. unfold window_sequences. cbn [Wire.start_chunk Wire.chunk_count].
  assert (∀ k, k ∈ seqZ c n → transfer_sequence id k = Ok (Z.lor (Z.shiftl id 32) k)) as Hall.
  { intros k Hk%elem_of_seqZ. unfold transfer_sequence. destruct (Z.eqb_spec id 0); [lia|].
    destruct (Z.ltb_spec (u_max 32) k) as [Hgt|]; [unfold u_max in Hgt; lia|done]. }
  rewrite <- (length_seqZ c n). revert Hall. generalize (seqZ c n) as l. clear.
  induction l as [|k l IH]; intros Hall; [by eexists|]. cbn [collect]. rewrite Hall by by left.
  destruct IH as (l' & -> & Hl'); [intros; apply Hall; by right|]. eexists. split; [done|]. simpl. lia.
Qed.

(** What an iteration of the loop does. *)
Definition turn_post lo out p (r : Result bool) t' : Prop :=
  match r with
  | Ok go => ∃ p' out', running out' t' p' ∧ lo ≤ out' ≤ out ∧
      next_deliver_chunk p' = next_deliver_chunk p ∧ shape p' = shape p ∧ piece_transfer_id p' = piece_transfer_id p ∧
      pipeline_depth p' = pipeline_depth p ∧
      if go then List.length (pending p') = S (List.length (pending p))
      else pending p' = pending p ∧ (next_deliver_chunk p < shape_chunk_count (shape p) → pending p ≠ [])
  | Err e => ∃ out', 0 ≤ out' ≤ out ∧ aborted out' t'
  end.

Lemma pending_next s id c l e : pending_from s id c l e → c < e → l ≠ [].
Proof. destruct l; [simpl; lia|done]. Qed.

(** An iteration that stops the loop without posting; the piece may have got permits
    back. *)
Lemma stop_turn o lo out out' t p n :
  running o t p → window_permits p + n = Z.of_nat (pipeline_depth p) - Z.of_nat (List.length (pending p)) - out' →
  0 ≤ window_permits p + n → 0 ≤ out' → lo ≤ out' ≤ out →
  (next_deliver_chunk p < shape_chunk_count (shape p) → pending p ≠ []) →
  turn_post lo out p (Ok false) (set_piece (Some (set_pending (pending p) (window_permits p + n) p)) t).
Proof.
  intros [[Hp Hb Hf Ho Hc] Hctl Hid Hd Hs Hsm Hpf Hlog Hr] Hn H0 Ho' Hout Hne.
  exists (set_pending (pending p) (window_permits p + n) p), out'. split; [|done]. split; simpl; try done. split; simpl; [done|lia|lia|lia|done].
Qed.

(** The iteration after the admission: the window is posted and announced. *)
Definition post_window (turn : FillTurn) (p : ClientPiece) (window : ReceiveWindow) (expected : Z) (sequences : list Z)
    : PR ClientTransfer Error bool :=
  _ ← pr_modify (on_admission (admit_window (piece_transfer_id p)));
  x ← pr_catch (send_transfer_control (Wire.RecvPosted (piece_transfer_id p) window) (announced turn));
  match x with
  | Err error =>
      y ← pr_catch (abort (A := bool) error);
      _ ← drop_window (piece_transfer_id p);
      _ ← pr_modify (λ t, set_piece (option_map (λ p, set_pending (pending p) (window_permits p + 1) p) (client_piece t)) t);
      pr_lift y
  | Ok _ =>
      t ← pr_gets (λ t, t);
      p ← pr_expect (client_piece t);
      _ ← pr_modify (set_piece (Some (mkClientPiece (piece_transfer_id p) (shape p)
            (u64_add (next_post_chunk p) (Wire.chunk_count window)) (next_deliver_chunk p)
            (receive_window_count p) (send_imm_chunk_count p) (routing p)
            (pending p ++ [mkPendingWindow window expected sequences])
            (window_permits p) (pipeline_depth p))));
      mret true
  end.

Lemma post_window_spec turn out t p n expected sequences :
  running (out + 1) t p → 0 ≤ out →
  let window := Wire.mkReceiveWindow (next_post_chunk p) n in
  shape_window (shape p) (next_post_chunk p) = Ok window → 1 ≤ n → next_post_chunk p + n ≤ shape_chunk_count (shape p) →
  window_len show_client_error (shape p) window = Ok expected → window_sequences (piece_transfer_id p) window = Ok sequences →
  wp (post_window turn p window expected sequences) (turn_post out out p) t.
Proof.
  intros [[Hp Hb Hf Ho1 Hc] Hctl Hid Hd Hs Hsm Hpf Hlog Hr] Ho window Hw Hn Hle Hex Hsq. unfold post_window.
  apply wp_bind_modify, wp_bind_catch. unfold send_transfer_control. apply wp_bind_gets.
  cbn [on_admission set_lane transfer_control]. rewrite Hctl. apply wp_bind. unfold wp at 1, pr_expect. simpl.
  rewrite bool_decide_true by done. apply wp_bind_lift.
  - intros [] _. unfold wp at 1, pr_modify. apply wp_bind_gets, wp_bind. unfold wp at 1, pr_expect. simpl.
    rewrite Hp. simpl. apply wp_bind_modify. unfold wp, mret, pr_mret. simpl.
    exists (mkClientPiece (piece_transfer_id p) (shape p) (u64_add (next_post_chunk p) n) (next_deliver_chunk p)
              (receive_window_count p) (send_imm_chunk_count p) (routing p)
              (pending p ++ [mkPendingWindow window expected sequences]) (window_permits p) (pipeline_depth p)), out.
    split; [|simpl; split; [lia|]; rewrite length_app; simpl; split_and!; try done; lia].
    pose proof (so_length _ Hs) as Hlen. pose proof (count_bounds _ Hs).
    assert (u64_add (next_post_chunk p) n = next_post_chunk p + n) as Hadd.
    { unfold u64_add. apply u_wrap_small. unfold u_max in Hlen. lia. }
    split; simpl; try done.
    + split; simpl; try done; rewrite ?length_app; simpl; [lia|].
      replace (Z.of_nat (List.length (pending p) + 1)) with (Z.of_nat (List.length (pending p)) + 1) by lia.
      by apply admit_counted.
    + rewrite Hadd. apply pending_from_app. exists (next_post_chunk p). split; [done|]. simpl. by rewrite Hw.
    + rewrite Hadd. unfold announced_windows. rewrite omap_app. csimpl. rewrite Z.eqb_refl. by apply (tiles_snoc _ _ _ _ window).
    + rewrite Hadd. lia.
  - intros e _. apply wp_bind_catch. eapply wp_mono; [eapply (abort_gen 1); [exact Hp| |lia|by exists (piece_transfer_id p)]|].
    { simpl. rewrite Z.add_comm. by apply admit_counted. }
    intros y t2 (-> & H1 & H2 & H3 & H4). apply wp_bind. unfold wp at 1, drop_window, pr_modify. apply wp_bind_modify.
    unfold wp, pr_lift. exists out. split; [lia|]. split; simpl; [done|done|]. rewrite H3. eexists.
    split; [split; [reflexivity|simpl; lia|simpl; lia|done|]|done]. simpl. change (Z.of_nat 0) with (1 - 1). by apply release_counted.
Qed.

(** The iteration once it holds a permit. *)
Definition admitted_turn (turn : FillTurn) (p : ClientPiece) (window : ReceiveWindow) (expected : Z)
    : PR ClientTransfer Error bool :=
  let pending_count := List.length (pending p) in
  let return_permit : PR ClientTransfer Error unit := pr_modify (λ t,
    set_piece (option_map (λ p, set_pending (pending p) (window_permits p + 1) p) (client_piece t)) t) in
  let fail error := x ← pr_catch (abort (A := bool) error); _ ← return_permit; pr_lift x in
  let stop := _ ← return_permit; mret false in
  match native_admission turn with
  | AdmissionClosed =>
      if (pending_count =? 0)%nat then fail (Shutdown ["URMA native RX admission is closed"]) else stop
  | AdmissionTimeout =>
      if (pending_count =? 0)%nat then
        match transfer_sequence (piece_transfer_id p) (Wire.start_chunk window) with
        | Err e => _ ← return_permit; pr_throw e
        | Ok sequence => fail (OperationTimeout (Some sequence))
        end
      else stop
  | Granted =>
      match window_sequences (piece_transfer_id p) window with
      | Err e => _ ← return_permit; pr_throw e
      | Ok sequences =>
          match posted turn with
          | Err error =>
              match error with
              | BufferUnavailable _ _ _ => if negb (pending_count =? 0)%nat then stop else fail error
              | _ => fail error
              end
          | Ok _ => post_window turn p window expected sequences
          end
      end
  end.

Lemma stop_permit_spec out t p :
  running (out + 1) t p → 0 ≤ out → pending p ≠ [] →
  wp (_ ← pr_modify (λ t,
        set_piece (option_map (λ p, set_pending (pending p) (window_permits p + 1) p) (client_piece t)) t);
      mret false) (turn_post out out p) t.
Proof.
  intros Hrn Ho Hne. destruct (rn_books _ _ _ Hrn) as [Hp Hb Hf _ _]. apply wp_bind_modify.
  unfold wp, mret, pr_mret. rewrite Hp. cbn [option_map]. eapply (stop_turn _ _ _ out _ _ 1); [exact Hrn|lia..|done].
Qed.

Lemma admitted_turn_spec turn out t p n expected :
  running (out + 1) t p → 0 ≤ out →
  let window := Wire.mkReceiveWindow (next_post_chunk p) n in
  shape_window (shape p) (next_post_chunk p) = Ok window → 1 ≤ n → next_post_chunk p + n ≤ shape_chunk_count (shape p) →
  window_len show_client_error (shape p) window = Ok expected →
  wp (admitted_turn turn p window expected) (turn_post out out p) t.
Proof.
  intros Hrn Ho window Hw Hn Hle Hex.
  assert (∀ e, wp (x ← pr_catch (abort (A := bool) e);
      _ ← pr_modify (λ t, set_piece (option_map (λ p, set_pending (pending p) (window_permits p + 1) p) (client_piece t)) t);
      pr_lift x) (turn_post out out p) t) as Hfail.
  { intros e. eapply wp_mono; [apply (fail_turn_spec out e t p); [by apply Hrn|rewrite (rn_control _ _ _ Hrn); by eexists|done]|].
    intros r t' [-> Ha]. by exists out. }
  assert ((List.length (pending p) =? 0)%nat = false → wp (_ ← pr_modify (λ t,
        set_piece (option_map (λ p, set_pending (pending p) (window_permits p + 1) p) (client_piece t)) t);
      mret false) (turn_post out out p) t) as Hstop.
  { intros H%Nat.eqb_neq. apply stop_permit_spec; [done..|]. intros Hnil. by rewrite Hnil in H. }
  pose proof (rn_id _ _ _ Hrn). pose proof (rn_range _ _ _ Hrn). pose proof (rn_small _ _ _ Hrn).
  unfold admitted_turn. destruct (native_admission turn).
  - destruct (window_sequences_Ok (piece_transfer_id p) (next_post_chunk p) n) as (sqs & Hsq & _); [lia..|].
    fold window in Hsq. rewrite Hsq. destruct (posted turn) as [?|error]; [by apply post_window_spec|].
    destruct error; try apply Hfail. destruct (_ =? 0)%nat eqn:Hz; simpl; [apply Hfail|by apply Hstop].
  - destruct (_ =? 0)%nat eqn:Hz; [|by apply Hstop]. unfold transfer_sequence.
    destruct (Z.eqb_spec (piece_transfer_id p) 0); [lia|]. simpl.
    destruct (Z.ltb_spec (u_max 32) (next_post_chunk p)) as [Hgt|]; [unfold u_max in Hgt; lia|]. apply Hfail.
  - destruct (_ =? 0)%nat eqn:Hz; [apply Hfail|by apply Hstop].
Qed.

(** The piece with its permits moved is still running. *)
Lemma running_permits out out' t p n :
  running out t p → n = Z.of_nat (pipeline_depth p) - Z.of_nat (List.length (pending p)) - out' →
  0 ≤ n → 0 ≤ out' →
  running out' (set_piece (Some (set_pending (pending p) n p)) t) (set_pending (pending p) n p).
Proof.
  intros [[Hp Hb Hf Ho Hc] Hctl Hid Hd Hs Hsm Hpf Hlog Hr] -> Hn Ho'. split; simpl; try done.
  split; simpl; [done|lia|lia|lia|done].
Qed.

(** The iteration waits for a delivered lease to be dropped. *)
Definition waits (turn : FillTurn) p : bool :=
  (window_permits p + dropped_leases turn <=? 0) && (List.length (pending p) =? 0)%nat.

Lemma fill_turn_spec turn out t p :
  running out t p → 0 ≤ dropped_leases turn ≤ out → (waits turn p = true → awaited_lease turn = true) →
  wp (fill_turn show_client_error turn) (turn_post (out - dropped_leases turn - Z.b2z (waits turn p)) out p) t.
Proof.
  intros Hrn Hd Haw. pose proof (rn_books _ _ _ Hrn) as [Hp Hb Hf Ho Hc].
  pose proof (rn_depth _ _ _ Hrn) as Hdepth. pose proof (rn_range _ _ _ Hrn) as Hr.
  unfold fill_turn. apply wp_bind_gets. rewrite Hp. apply wp_bind. unfold wp at 1, pr_lift. simpl ok_or.
  apply wp_bind_modify. cbn [set_pending pipeline_depth pending next_post_chunk shape window_permits piece_transfer_id].
  assert ((next_deliver_chunk p < shape_chunk_count (shape p) → pending p ≠ []) →
    turn_post (out - dropped_leases turn - Z.b2z (waits turn p)) out p (Ok false)
      (set_piece (Some (set_pending (pending p) (window_permits p + dropped_leases turn) p)) t)) as Hstop.
  { intros Hne. eapply (stop_turn _ _ _ (out - dropped_leases turn)); [exact Hrn|lia..| |done].
    destruct (waits turn p); simpl; lia. }
  destruct ((pipeline_depth p <=? _)%nat || _) eqn:Hfull.
  { apply Hstop. intros Hlt. apply orb_true_iff in Hfull as [Hfull%Nat.leb_le|Hend%Z.eqb_eq].
    - intros Hnil. rewrite Hnil in Hfull. simpl in Hfull. lia.
    - eapply pending_next; [apply (rn_pending _ _ _ Hrn)|lia]. }
  apply orb_false_iff in Hfull as [Hfull%Nat.leb_gt Hend%Z.eqb_neq].
  destruct (shape_window_Ok (shape p) (rn_shape _ _ _ Hrn) (next_post_chunk p)) as (n & Hw & Hn & Hle & _); [lia|].
  rewrite Hw. apply wp_bind. unfold wp at 1, pr_lift.
  pose proof (window_len_Ok (shape p) (rn_shape _ _ _ Hrn) show_client_error (next_post_chunk p) n ltac:(lia) ltac:(lia) Hle) as Hex.
  rewrite Hex. apply wp_bind. unfold wp at 1, pr_lift.
  destruct ((_ <=? 0) && _) eqn:Hwait.
  { apply Hstop. intros _ Hnil. rewrite Hnil in Hwait. by rewrite andb_false_r in Hwait. }
  set (permits := if window_permits p + dropped_leases turn <=? 0 then window_permits p + dropped_leases turn
                  else window_permits p + dropped_leases turn - 1).
  apply wp_bind. eapply (wp_mono _ (λ r t', r = Ok permits ∧ t' = _)).
  { subst permits. unfold waits in Haw. destruct (_ <=? 0); simpl in Hwait, Haw; [|by split].
    apply negb_false_iff in Hwait. rewrite (Haw Hwait). by split. }
  intros ? ? [-> ->]. apply wp_bind_modify.
  assert (∃ out', 0 ≤ out' ≤ out ∧ out' = out - dropped_leases turn - Z.b2z (waits turn p) ∧ 0 ≤ permits ∧
            permits = Z.of_nat (pipeline_depth p) - Z.of_nat (List.length (pending p)) - (out' + 1)) as (out' & Ho' & Hlo & Hp0 & Hpe).
  { subst permits. unfold waits. destruct (Z.leb_spec (window_permits p + dropped_leases turn) 0); simpl in Hwait.
    - exists (out - dropped_leases turn - 1). apply negb_false_iff in Hwait. rewrite Hwait. apply Nat.eqb_eq in Hwait. simpl. lia.
    - exists (out - dropped_leases turn). simpl. lia. }
  assert (turn_post out' out' p = turn_post out' out' (set_pending (pending p) permits p)) as Hpost by done.
  pose proof (admitted_turn_spec turn out' (set_piece (Some (set_pending (pending p) permits p)) t)
    (set_pending (pending p) permits p) n _ (running_permits out (out' + 1) t p permits Hrn Hpe Hp0 ltac:(lia))
    ltac:(lia) Hw ltac:(lia) Hle Hex) as Hadm.
  eapply wp_mono; [exact Hadm|].
  intros r t'. rewrite <- Hpost, <- Hlo. destruct r; simpl; naive_solver lia.
Qed.

(** The leases dropped by the [k] iterations from [i] on. *)
Definition drops (turns : nat → FillTurn) (i k : nat) : Z :=
  foldr Z.add 0 ((λ j, dropped_leases (turns j)) <$> seq i k).

(** No lease is dropped twice: the iterations drop at most the [out] leases, less the
    one that the first iteration waits for; and if it must wait, a lease is dropped. *)
Definition leases_ok (turns : nat → FillTurn) (i : nat) out p : Prop :=
  (∀ j, 0 ≤ dropped_leases (turns j)) ∧ (∀ k, drops turns i k + Z.b2z (waits (turns i) p) ≤ out) ∧
  (waits (turns i) p = true → awaited_lease (turns i) = true).

Lemma leases_ok_first turns i out p :
  leases_ok turns i out p → 0 ≤ dropped_leases (turns i) ≤ out - Z.b2z (waits (turns i) p).
Proof. intros (H0 & Hk & _). specialize (Hk 1%nat). unfold drops in Hk. simpl in Hk. specialize (H0 i). lia. Qed.

Lemma leases_ok_next turns i out out' p p' :
  leases_ok turns i out p → out - dropped_leases (turns i) - Z.b2z (waits (turns i) p) ≤ out' → pending p' ≠ [] →
  leases_ok turns (S i) out' p'.
Proof.
  intros (H0 & Hk & _) Ho Hne. assert (waits (turns (S i)) p' = false) as Hw.
  { unfold waits. destruct (pending p'); [done|]. by rewrite andb_false_r. }
  unfold leases_ok. rewrite Hw. split; [done|]. split; [|done]. intros k. specialize (Hk (S k)).
  unfold drops in *. csimpl in *. lia.
Qed.

(** The loop ends: on success an incomplete piece has a window to wait for, on an
    error the transfer holds nothing. *)
Definition fill_post out p (r : Result unit) t' : Prop :=
  match r with
  | Ok _ => ∃ p' out', running out' t' p' ∧ 0 ≤ out' ≤ out ∧
      next_deliver_chunk p' = next_deliver_chunk p ∧ shape p' = shape p ∧ piece_transfer_id p' = piece_transfer_id p ∧
      pipeline_depth p' = pipeline_depth p ∧ (next_deliver_chunk p < shape_chunk_count (shape p) → pending p' ≠ [])
  | Err e => ∃ out', 0 ≤ out' ≤ out ∧ aborted out' t'
  end.

Lemma fill_spec turns fuel i t p out :
  running out t p → leases_ok turns i out p → (pipeline_depth p - List.length (pending p) < fuel)%nat →
  wp (fill_receive_pipeline show_client_error fuel turns i) (fill_post out p) t.
Proof.
  induction fuel as [|fuel IH] in i, t, p, out |- *; intros Hrn Hl Hf; [lia|].
  pose proof (leases_ok_first _ _ _ _ Hl) as Hd. cbn [fill_receive_pipeline]. apply wp_bind.
  eapply wp_mono; [apply (fill_turn_spec _ out); [done|destruct (waits _ _); simpl in Hd; lia|apply Hl]|].
  intros [go|e] t' Hpost; [|exact Hpost].
  destruct Hpost as (p' & out' & Hrn' & Ho & Hnd & Hs & Hid & Hdep & Hgo).
  destruct go; [|unfold wp, mret, pr_mret; exists p', out'; destruct Hgo as [-> Hgo];
    pose proof (bk_out _ _ _ (rn_books _ _ _ Hrn')); split_and!; (done || lia)].
  eapply wp_mono; [apply (IH _ _ p' out')|].
  - done.
  - eapply leases_ok_next; [done|lia|]. intros Hnil. by rewrite Hnil in Hgo.
  - pose proof (rn_books _ _ _ Hrn') as [_ Hb Hfr Ho' _]. lia.
  - intros [[]|e] t2; simpl.
    + intros (p2 & out2 & ?). exists p2, out2. rewrite <- Hnd, <- Hs, <- Hid, <- Hdep. naive_solver lia.
    + intros (out2 & ? & ?). exists out2. split; [lia|done].
Qed.

(** The error paths of a delivery: the window is dropped after the abort. *)
Lemma fail_delivery_spec {A} out e t p :
  client_piece t = Some p → window_permits p + Z.of_nat (List.length (pending p)) + out + 1 = Z.of_nat (pipeline_depth p) →
  0 ≤ window_permits p → 0 ≤ out → is_Some (transfer_control t) →
  counted (piece_transfer_id p) (1 + Z.of_nat (List.length (pending p))) (admission (client_lane t)) →
  wp (x ← pr_catch (abort (A := A) e);
      _ ← drop_window (piece_transfer_id p);
      _ ← pr_modify (λ t, set_piece (option_map
            (λ p, set_pending (pending p) (window_permits p + 1) p) (client_piece t)) t);
      pr_lift x) (λ r t', r = Err e ∧ aborted out t') t.
Proof.
  intros Hp Hb Hf Ho Hctl Hc. apply wp_bind_catch. eapply wp_mono; [by apply (abort_gen 1)|].
  intros y t2 (-> & H1 & H2 & H3 & H4). apply wp_bind. unfold wp at 1, drop_window, pr_modify. apply wp_bind_modify.
  unfold wp, pr_lift. split; [done|]. split; simpl; [done|done|]. rewrite H3. eexists.
  split; [split; [reflexivity|simpl; lia|simpl; lia|done|]|done]. simpl. change (Z.of_nat 0) with (1 - 1). by apply release_counted.
Qed.

(** Every operation is answered. *)
Lemma wait_operations_enough (ops : list Z) outcomes :
  (List.length ops ≤ List.length outcomes)%nat → wait_operations ops outcomes ≠ None.
Proof.
  induction ops as [|o ops IH] in outcomes |- *; [done|]. destruct outcomes as [|[c|e] outcomes]; simpl; [lia| |done].
  intros Hl. destruct (wait_operations ops outcomes) eqn:Hw; [done|]. apply IH in Hw; [done|lia].
Qed.

(** What a delivery gives: the next window of the plan, whole; its lease holds a
    permit. *)
Definition delivered out p (r : Result RegisteredRxWindowLease) t' : Prop :=
  match r with
  | Ok lease => ∃ p' out' n, running out' t' p' ∧ 1 ≤ out' ≤ out + 1 ∧
      shape_window (shape p) (next_deliver_chunk p) = Ok (Wire.mkReceiveWindow (next_deliver_chunk p) n) ∧
      next_deliver_chunk p' = next_deliver_chunk p + n ∧ shape p' = shape p ∧ pipeline_depth p' = pipeline_depth p ∧
      window_len show_client_error (shape p) (Wire.mkReceiveWindow (next_deliver_chunk p) n) = Ok (rx_length lease)
  | Err e => ∃ out', 0 ≤ out' ≤ out ∧ aborted out' t'
  end.

Lemma receive_next_window_spec turns fuel outcomes t p out :
  running out t p → leases_ok turns 0 out p → (pipeline_depth p < fuel)%nat →
  next_deliver_chunk p < shape_chunk_count (shape p) →
  Wire.pm_max_inflight_chunks (metadata (shape p)) ≤ Z.of_nat (List.length outcomes) →
  wp (receive_next_window show_client_error fuel turns outcomes) (delivered out p) t.
Proof.
  intros Hrn Hl Hf Hlt Hout. unfold receive_next_window. apply wp_bind.
  eapply wp_mono; [apply (fill_spec turns fuel 0 t p out); [done..|lia]|].
  intros [[]|e] t1; [|by intros Ha].
  intros (p1 & out1 & [[Hp Hb Hfr Ho Hc] Hctl Hid Hd Hs Hsm Hpf Hlog Hr] & Ho1 & Hnd & Hsh & Hi & Hde & Hne).
  apply wp_bind_gets. rewrite Hp. destruct p1 as [id s np nd wc sc ro [|w rest] permits depth]; [by destruct Hne|].
  simpl in *. subst nd s id depth. destruct Hpf as (Hw & Hwl & Hsq & Hpf).
  pose proof (rn_range _ _ _ Hrn) as Hr0.
  destruct (shape_window_Ok _ Hs (next_deliver_chunk p) ltac:(lia)) as (n & Hw' & Hn & Hle & _).
  rewrite Hw' in Hw. injection Hw as Hw. rewrite <- Hw in *.
  apply wp_bind_modify. apply wp_bind. unfold wp at 1, pr_expect.
  assert (List.length (operations w) = Z.to_nat n) as Hops.
  { destruct (window_sequences_Ok (piece_transfer_id p) (next_deliver_chunk p) n) as (l & Hl' & <-); [lia..|].
    rewrite Hl' in Hsq. by injection Hsq as ->. }
  destruct (wait_operations (operations w) outcomes) as [cs|] eqn:Hcs; [|by apply wait_operations_enough in Hcs; [|lia]].
  set (p2 := mkClientPiece _ _ _ _ _ _ _ rest permits _). set (t2 := set_piece (Some p2) t1).
  assert (∀ A e, wp (x ← pr_catch (abort (A := A) e);
      _ ← drop_window (piece_transfer_id p2);
      _ ← pr_modify (λ t, set_piece (option_map
            (λ p, set_pending (pending p) (window_permits p + 1) p) (client_piece t)) t);
      pr_lift x) (λ r t', r = Err e ∧ aborted out1 t') t2) as Hfail.
  { intros A e. apply fail_delivery_spec; [reflexivity|simpl; lia|simpl; lia|lia|simpl; by rewrite Hctl|simpl].
    replace (1 + Z.of_nat (List.length rest)) with (Z.of_nat (S (List.length rest))) by lia. done. }
  assert (∀ e, wp (x ← pr_catch (abort (A := RegisteredRxWindowLease) e);
      _ ← drop_window (piece_transfer_id p2);
      _ ← pr_modify (λ t, set_piece (option_map
            (λ p, set_pending (pending p) (window_permits p + 1) p) (client_piece t)) t);
      pr_lift x) (delivered out p) t2) as Hfail'.
  { intros e. eapply wp_mono; [apply Hfail|]. intros r t' [-> Ha]. by exists out1. }
  destruct cs as [cs|error]; [|apply Hfail']. cbn [fmap option_fmap option_map].
  destruct (reorder_receive_window_completions _ _ _ _ _ cs) as [[leases r]|error]; [|apply Hfail'].
  destruct (merge leases) as [lease|error]; [|apply Hfail'].
  destruct (Z.eqb_spec (rx_length lease) (expected_len w)) as [Hlen|]; [|apply Hfail'].
  apply wp_bind_modify, wp_bind. unfold wp at 1, drop_window, pr_modify. unfold wp, mret, pr_mret. simpl.
  pose proof (so_length _ Hs) as Hln. pose proof (count_bounds _ Hs) as Hcb.
  assert (u64_add (next_deliver_chunk p) n = next_deliver_chunk p + n) as Hadd.
  { unfold u64_add. apply u_wrap_small. unfold u_max in Hln. lia. }
  set (p3 := mkClientPiece _ _ _ _ _ _ _ _ _ _). exists p3, (out1 + 1), n.
  split; [|simpl; rewrite Hadd, Hlen; split_and!; (done || lia)].
  split; simpl; try done; rewrite ?Hadd.
  - split; simpl; [done|lia|lia|lia|].
    replace (Z.of_nat (List.length rest)) with (Z.of_nat (S (List.length rest)) - 1) by lia. apply release_counted; [done|lia].
  - exact Hpf.
  - simpl in Hpf. apply pending_from_le in Hpf; [lia|done|lia].
Qed.

(** A downloader that drops a lease only when the call must wait for one. *)
Lemma leases_ok_kept turns out t p :
  running out t p → (∀ j, dropped_leases (turns j) = 0 ∧ awaited_lease (turns j) = true) → leases_ok turns 0 out p.
Proof.
  intros Hrn H0. split; [intros j; rewrite (proj1 (H0 j)); lia|]. split; [|intros _; apply H0]. intros k.
  assert (∀ i, drops turns i k = 0) as Hd.
  { unfold drops. induction k as [|k IH]; intros i; csimpl; [done|]. rewrite (proj1 (H0 i)), IH. done. }
  rewrite Hd. pose proof (rn_books _ _ _ Hrn) as [_ Hb _ Ho _]. pose proof (rn_depth _ _ _ Hrn). unfold waits.
  destruct (Z.leb_spec (window_permits p + dropped_leases (turns 0%nat)) 0); simpl; [|lia].
  rewrite (proj1 (H0 0%nat)) in *. destruct (Nat.eqb_spec (List.length (pending p)) 0); simpl; lia.
Qed.

(** A downloader that keeps all the leases the pipeline can have waits for ever. *)
Lemma kept_leases_block turns fuel outcomes t p out :
  running out t p → next_post_chunk p < shape_chunk_count (shape p) → 0 ≤ dropped_leases (turns 0%nat) →
  waits (turns 0%nat) p = true → awaited_lease (turns 0%nat) = false →
  receive_next_window show_client_error fuel turns outcomes t = None.
Proof.
  intros Hrn Hlt Hd Hw Haw. destruct fuel as [|fuel]; [done|].
  pose proof (rn_books _ _ _ Hrn) as [Hp _ _ _ _]. pose proof (rn_depth _ _ _ Hrn) as Hdepth. pose proof (rn_range _ _ _ Hrn) as Hr.
  destruct (shape_window_Ok (shape p) (rn_shape _ _ _ Hrn) (next_post_chunk p)) as (n & Hwin & Hn & Hle & _); [lia|].
  pose proof (window_len_Ok (shape p) (rn_shape _ _ _ Hrn) show_client_error (next_post_chunk p) n ltac:(lia) ltac:(lia) Hle) as Hex.
  apply andb_true_iff in Hw as [Hw H0]. unfold receive_next_window. cbn [fill_receive_pipeline]. unfold fill_turn.
  cbv [mbind pr_mbind pr_gets pr_lift pr_modify]. rewrite Hp. cbn [ok_or set_pending pending pipeline_depth next_post_chunk shape window_permits].
  apply Nat.eqb_eq in H0. rewrite H0, (proj2 (Nat.leb_gt _ _)) by lia. rewrite (proj2 (Z.eqb_neq _ _)) by lia.
  cbn [orb]. rewrite Hwin, Hex, Hw, Haw. reflexivity.
Qed.

(** The downloader's loop over the windows; a round gives what the awaits of one
    call return. *)
Definition Round : Type := (nat → FillTurn) * list (Result RegisteredRxCompletion).
Fixpoint receive_all (fuel : nat) (rounds : list (ClientTransfer → Round))
    : PR ClientTransfer Error (list RegisteredRxWindowLease) :=
  match rounds with
  | [] => mret []
  | round :: rounds =>
      t ← pr_gets (λ t, t);
      if piece_complete t then mret []
      else
        let '(turns, outcomes) := round t in
        lease ← receive_next_window show_client_error fuel turns outcomes;
        leases ← receive_all fuel rounds;
        mret (lease :: leases)
  end.

(** In a round the downloader drops only leases it holds, one of them if the call must wait
    for it, and every wait for an operation, which has a timeout, ends. *)
Definition round_ok (s : TransferShape) (r : ClientTransfer → Round) : Prop := ∀ out t p,
  running out t p → shape p = s →
  leases_ok (r t).1 0 out p ∧ Wire.pm_max_inflight_chunks (metadata s) ≤ Z.of_nat (List.length (r t).2).

Definition all_received s c (r : Result (list RegisteredRxWindowLease)) t' : Prop :=
  match r with
  | Ok leases => ∃ p' out', running out' t' p' ∧ shape p' = s ∧ piece_complete t' = true ∧
      foldr Z.add 0 (rx_length <$> leases) = bytes_from s c
  | Err e => ∃ out', aborted out' t'
  end.

Lemma receive_all_spec fuel rounds t p out :
  running out t p → Forall (round_ok (shape p)) rounds → (pipeline_depth p < fuel)%nat →
  shape_chunk_count (shape p) - next_deliver_chunk p ≤ Z.of_nat (List.length rounds) →
  wp (receive_all fuel rounds) (all_received (shape p) (next_deliver_chunk p)) t.
Proof.
  intros Hrn Hrounds. remember (shape p) as s eqn:Hsp in Hrounds.
  induction Hrounds as [|round rounds H0 _ IH] in t, p, out, Hrn, Hsp |- *; intros Hf Hn;
    pose proof (rn_range _ _ _ Hrn) as Hr; pose proof (rn_shape _ _ _ Hrn) as Hs; pose proof (rn_books _ _ _ Hrn) as [Hp _ _ _ _];
    pose proof (count_bounds _ Hs) as Hcb.
  - unfold wp, receive_all, mret, pr_mret. exists p, out. simpl in Hn.
    assert (next_deliver_chunk p = shape_chunk_count (shape p)) as Hend by lia.
    unfold piece_complete. rewrite Hp, Hend, Z.eqb_refl. split_and!; try done. simpl. unfold bytes_from. lia.
  - cbn [receive_all]. apply wp_bind_gets. unfold piece_complete at 1. rewrite Hp.
    destruct (Z.eqb_spec (next_deliver_chunk p) (shape_chunk_count (shape p))) as [Hend|Hne].
    { unfold wp, mret, pr_mret. exists p, out. unfold piece_complete. rewrite Hp, Hend, Z.eqb_refl.
      split_and!; try done. simpl. unfold bytes_from. lia. }
    destruct (H0 out t p Hrn (eq_sym Hsp)) as [Hl Hw]. destruct (round t) as [turns outcomes]. simpl in Hl, Hw.
    apply wp_bind. eapply wp_mono; [apply (receive_next_window_spec _ _ _ _ p out); [done|done|done|lia|by rewrite <- Hsp]|].
    intros [lease|e] t1; [|intros (out' & _ & ?); by exists out'].
    intros (p1 & out1 & n & Hrn1 & _ & Hwin & Hnd & Hsh & Hdep & Hwl).
    destruct (shape_window_Ok _ Hs (next_deliver_chunk p)) as (n' & Hwin' & Hn' & Hle & _); [lia|].
    rewrite Hwin in Hwin'. injection Hwin' as <-. rewrite window_len_Ok in Hwl by (done || lia). injection Hwl as Hwl.
    apply wp_bind. eapply wp_mono; [apply (IH t1 p1 out1 Hrn1); [congruence| |]|].
    + by rewrite Hdep.
    + rewrite Hsh, Hnd. cbn [List.length] in Hn. lia.
    + intros [leases|e] t2; [|done]. intros (p2 & out2 & Hrn2 & Hsh2 & Hc2 & Hsum).
      unfold wp, mret, pr_mret. exists p2, out2. rewrite Hsh2, Hsh, Hc2. split_and!; try done.
      csimpl. rewrite Hsum, Hsh, Hnd. lia.
Qed.

(** A granted request starts a running transfer. *)
Lemma request_piece_running request registered sent received t :
  (∀ frame, received = Ok frame → match frame with Wire.Ready _ m => metadata_typed m | _ => True end) →
  (1 ≤ receive_pipeline_depth (client_lane t))%nat → 1 ≤ next_transfer_id (client_lane t) < 2 ^ 32 →
  counted (next_transfer_id (client_lane t)) 0 (admission (client_lane t)) →
  announced_windows (next_transfer_id (client_lane t)) (log t) = [] →
  wp (request_piece show_frame request registered sent received) (λ r t', match r with
    | Ok m => Wire.pm_length m ≤ 2 ^ 32 → ∃ p, running 0 t' p ∧ next_deliver_chunk p = 0 ∧ metadata (shape p) = m ∧
        piece_transfer_id p = next_transfer_id (client_lane t)
    | Err _ => True
    end) t.
Proof.
  intros Hty Hd Hid Hc Hlog. unfold request_piece. apply wp_bind_gets. cbv zeta.
  set (l := client_lane t) in *. set (id := next_transfer_id l) in *.
  apply wp_bind_guard; [done|intros _]. apply wp_bind_guard; [done|intros _]. apply wp_bind_modify.
  apply wp_bind_lift; [intros [] _|done]. apply wp_bind_modify, wp_bind_catch.
  unfold send_transfer_control. apply wp_bind_gets, wp_bind. unfold wp at 1, pr_expect. cbn [transfer_control set_control fmap option_fmap option_map].
  cbn [Wire.transfer_id]. rewrite bool_decide_true by done. apply wp_bind_lift; [intros [] _|intros e _; exact I].
  unfold wp at 1, pr_modify. destruct received as [frame|]; [|exact I].
  destruct frame as [| | |rid m| | |eid err| |]; try exact I.
  - destruct (rid =? id); [|exact I]. specialize (Hty _ eq_refl). simpl in Hty.
    destruct (negotiate _ _ _ _) as [s|e] eqn:Hneg; [|exact I]. apply negotiate_ok in Hneg as (Hs & Hm & _); [|done].
    apply wp_bind_modify. unfold wp, mret, pr_mret. intros Hlen.
    exists (mkClientPiece id s 0 0 0 0 (mkRoutingStats 0 0) [] (Z.of_nat (receive_pipeline_depth l)) (receive_pipeline_depth l)).
    rewrite Hm in *. split; [|by split_and!].
    pose proof (count_bounds _ Hs) as Hcb. rewrite Hm in Hcb. split; cbn; try done.
    + split; cbn; [done|lia|lia|lia|done].
    + lia.
    + unfold announced_windows in *. rewrite omap_app, Hlog. done.
    + lia.
  - destruct ((_ =? _) && _); exact I.
Qed.

(** A transfer whose windows are all delivered is closed by the uploader's [Done]. *)
Lemma client_finish_spec t p out :
  running out t p → piece_complete t = true →
  wp (client_finish_piece show_frame (Ok (Wire.Done (piece_transfer_id p)))) (λ r t', r = Ok tt ∧
    client_piece t' = None ∧ transfer_control t' = None ∧ client_lane t' = client_lane t) t.
Proof.
  intros Hrn Hend. pose proof (rn_books _ _ _ Hrn) as [Hp _ _ _ _]. pose proof (rn_range _ _ _ Hrn).
  unfold piece_complete in Hend. rewrite Hp in Hend. apply Z.eqb_eq in Hend.
  assert (pending p = []) as Hnil.
  { pose proof (rn_pending _ _ _ Hrn) as Hpf. destruct (pending p) as [|w l]; [done|]. destruct Hpf as [Hw _].
    unfold shape_window in Hw. by rewrite (proj2 (Z.leb_le _ _)) in Hw by lia. }
  unfold client_finish_piece. apply wp_bind_gets. rewrite Hp, (rn_control _ _ _ Hrn).
  apply wp_bind_lift; [intros p' [= <-]|done]. rewrite Hend, !Z.eqb_refl, Hnil. cbn [negb orb].
  apply wp_bind_guard; [by intros ?%bool_decide_eq_true|intros _].
  apply wp_bind_guard; [by intros ?%bool_decide_eq_true|intros _]. done.
Qed.
End client.

(** ** The uploader *)

Section server.
Context (show_frame : Frame → string) (show_client_error : DFError → string).
Implicit Types (t : ServerTransfer) (lease : TxWindowLease) (turn : SendTurn).

(** The uploader has sent the chunks before [c]. *)
Record serving (id : TransferId) (s : TransferShape) (c : Z) t : Prop := {
  sv_piece : ∃ request, server_piece t = Some (mkServerPiece id request (Some s) c);
  sv_control : server_control t = Some id;
  sv_id : 1 ≤ id < 2 ^ 32;
  sv_shape : shape_ok s;
  sv_small : shape_chunk_count s ≤ 2 ^ 32;
  sv_range : 0 ≤ c ≤ shape_chunk_count s;
}.

(** Every abort takes the control and fails the lane. *)
Definition server_aborted t : Prop := server_control t = None ∧ sl_failed (server_lane t) = true.

Lemma s_abort_spec {A} e t : wp (s_abort (A := A) e) (λ r t', r = Err e ∧ server_aborted t') t.
Proof.
  unfold s_abort. apply wp_bind_gets. destruct (server_control t) eqn:Hc; apply wp_bind.
  - unfold wp at 1, pr_modify. do 3 apply wp_bind_modify. by unfold wp, pr_throw.
  - unfold wp at 1, mret, pr_mret. do 3 apply wp_bind_modify. by unfold wp, pr_throw.
Qed.

Lemma s_send_total frame sent t :
  is_Some (server_control t) → wp (pr_catch (s_send frame sent)) (λ r _, is_ok r = true) t.
Proof.
  intros [id Hid]. apply wp_catch. unfold s_send. apply wp_bind_gets, wp_bind. unfold wp at 1, pr_expect. rewrite Hid. simpl.
  case_bool_decide; [|done]. by apply wp_bind_lift.
Qed.

Lemma s_abort_peer_spec {A} told e t :
  wp (s_abort_peer (A := A) told e) (λ r t', r = Err e ∧ server_aborted t') t.
Proof.
  unfold s_abort_peer. apply wp_bind_gets. apply wp_bind.
  destruct (server_piece t) as [p|]; [destruct (server_control t) eqn:Hc|].
  - apply wp_bind. eapply wp_mono; [apply s_send_total; by rewrite Hc|]. intros [x|] t' Hok; [|done].
    unfold wp at 1, mret, pr_mret. apply wp_bind_modify, s_abort_spec.
  - unfold wp at 1, mret, pr_mret. apply wp_bind_modify, s_abort_spec.
  - unfold wp at 1, mret, pr_mret. apply wp_bind_modify, s_abort_spec.
Qed.

(** The lease holds the window, chunk by chunk. *)
Definition fits (s : TransferShape) (w : ReceiveWindow) lease : Prop :=
  window_len show_client_error s w = Ok (tx_length lease) ∧
  Z.of_nat (List.length (tx_layouts lease)) = Wire.chunk_count w.

(** What one call of [send_next_registered_window] does. *)
Definition window_sent (id : TransferId) (s : TransferShape) (c : Z) lease turn (r : Result TxWindowLease) t' : Prop :=
  match r with
  | Ok _ => ∃ w, received_frame turn = Ok (Wire.RecvPosted id w) ∧ shape_window s c = Ok w ∧ fits s w lease ∧
      serving id s (c + Wire.chunk_count w) t'
  | Err e => server_aborted t'
  end.

Lemma window_eq (w w' : ReceiveWindow) :
  (Wire.start_chunk w =? Wire.start_chunk w') && (Wire.chunk_count w =? Wire.chunk_count w') = true → w = w'.
Proof. destruct w, w'. simpl. intros [->%Z.eqb_eq ->%Z.eqb_eq]%andb_true_iff. done. Qed.

Lemma send_window_spec id s c lease turn t :
  serving id s c t → c < shape_chunk_count s →
  wp (send_next_registered_window show_frame show_client_error lease turn) (window_sent id s c lease turn) t.
Proof.
  intros [(request & Hp) Hctl Hid Hs Hsm Hr] Hlt.
  assert (∀ e, wp (s_abort e) (window_sent id s c lease turn) t) as Habort.
  { intros e. eapply wp_mono; [apply s_abort_spec|]. by intros r t' [-> ?]. }
  assert (∀ told e, wp (s_abort_peer told e) (window_sent id s c lease turn) t) as Hpeer.
  { intros told e. eapply wp_mono; [apply s_abort_peer_spec|]. by intros r t' [-> ?]. }
  destruct (shape_window_Ok _ Hs c) as (n & Hw & Hn & Hle & _); [lia|].
  pose proof (window_len_Ok _ Hs show_client_error c n ltac:(lia) ltac:(lia) Hle) as Hwl.
  unfold send_next_registered_window. apply wp_bind_gets. rewrite Hp. apply wp_bind. unfold wp at 1, pr_lift. cbn [ok_or].
  apply wp_bind. unfold wp at 1, pr_lift. cbn [ok_or sp_shape next_chunk sp_transfer_id sp_request]. rewrite Hw.
  apply wp_bind. unfold wp at 1, pr_lift. apply wp_bind. unfold wp at 1, pr_expect. rewrite Hctl. cbn [fmap option_fmap option_map].
  destruct (received_frame turn) as [frame|e] eqn:Hfr; [|apply Habort].
  destruct frame as [| | | |fid w| | | |]; try apply Hpeer.
  destruct (Z.eqb_spec fid id) as [->|]; [|apply Hpeer].
  destruct (_ && _) eqn:Heq; [|apply Hpeer]. apply window_eq in Heq as ->. cbn [negb]. rewrite Hwl.
  apply wp_bind. unfold wp at 1, pr_lift. destruct (Z.eqb_spec (tx_length lease) (bytes_from s c - bytes_from s (c + n))) as [Htl|];
    [|apply Hpeer].
  destruct (Z.eqb_spec (Z.of_nat (List.length (tx_layouts lease))) (Wire.chunk_count (Wire.mkReceiveWindow c n))) as [Hlay|]; [|apply Hpeer].
  cbn [negb orb]. destruct (window_sequences_Ok id c n) as (sqs & Hsq & _); [lia..|].
  destruct (send_admission turn).
  - destruct (granted turn); [|apply Hpeer]. rewrite Hsq. apply wp_bind. unfold wp at 1, pr_lift.
    destruct (send_posted turn); [|apply Hpeer]. destruct (send_completed turn) as [[[lane sequences] completed]|]; [|apply Hpeer].
    destruct (negb (lane =? _) || _); [apply Hpeer|]. apply wp_bind_modify. unfold wp, mret, pr_mret.
    eexists. split; [done|]. split; [done|]. split; [split; [by rewrite Hwl, Htl|done]|].
    pose proof (so_length _ Hs) as Hln. pose proof (count_bounds _ Hs) as Hcb. cbn [Wire.chunk_count].
    assert (u64_add c n = c + n) as Hadd by (unfold u64_add; apply u_wrap_small; unfold u_max in Hln; lia).
    rewrite Hadd. split; simpl; [by eexists|done|done|done|done|lia].
  - apply wp_bind. unfold transfer_sequence. cbn [Wire.start_chunk]. destruct (Z.eqb_spec id 0); [lia|].
    destruct (Z.ltb_spec (u_max 32) c) as [Hgt|]; [unfold u_max in Hgt; lia|]. unfold wp at 1, pr_lift. apply Hpeer.
  - apply Habort.
Qed.

(** A turn in which the fabric does its work. *)
Record smooth (id : TransferId) (lane : Z) (w : ReceiveWindow) turn : Prop := {
  sm_frame : received_frame turn = Ok (Wire.RecvPosted id w);
  sm_admission : send_admission turn = Granted;
  sm_granted : granted turn = Ok tt;
  sm_posted : send_posted turn = Ok tt;
  sm_completed : ∃ sequences lease, window_sequences id w = Ok sequences ∧
    send_completed turn = Ok (lane, sequences, lease);
}.

Lemma send_window_accepts id s c w lease turn t :
  serving id s c t → shape_window s c = Ok w → fits s w lease → smooth id (sl_lane_id (server_lane t)) w turn →
  wp (send_next_registered_window show_frame show_client_error lease turn) (λ r t', is_ok r = true ∧
    serving id s (c + Wire.chunk_count w) t' ∧ server_lane t' = server_lane t) t.
Proof.
  intros Hsv Hw [Hwl Hlay] [Hfr Had Hg Hps (sequences & completed & Hsq & Hcm)].
  assert (c < shape_chunk_count s) as Hlt.
  { unfold shape_window in Hw. destruct (Z.leb_spec (shape_chunk_count s) c); [done|lia]. }
  pose proof (send_window_spec id s c lease turn t Hsv Hlt) as Hspec. destruct Hsv as [(request & Hp) Hctl Hid Hs Hsm Hr].
  revert Hspec. unfold wp, send_next_registered_window. cbv [mbind pr_mbind pr_gets]. rewrite Hp. cbn [ok_or pr_lift sp_shape next_chunk sp_transfer_id sp_request].
  rewrite Hw. cbn [pr_lift]. unfold pr_expect. rewrite Hctl, Hfr. cbn [fmap option_fmap option_map]. rewrite Z.eqb_refl, !Z.eqb_refl. cbn [andb negb].
  rewrite Hwl. cbn [pr_lift]. rewrite Z.eqb_refl, Hlay, Z.eqb_refl. cbn [negb orb]. rewrite Had, Hg, Hsq. cbn [pr_lift].
  rewrite Hps, Hcm, Z.eqb_refl, bool_decide_false by naive_solver. cbn [negb orb]. unfold pr_modify, mret, pr_mret.
  intros (w' & _ & Hw' & _ & Hsv'). rewrite Hw in Hw'. injection Hw' as <-. done.
Qed.

(** The uploader's loop over its windows. *)
Definition serve (work : list (TxWindowLease * SendTurn)) : PR ServerTransfer Error unit :=
  pr_for (λ x, _ ← send_next_registered_window show_frame show_client_error x.1 x.2; mret tt) work.

(** Windows that tile are all accepted, in order. *)
Lemma serve_tiles id s lane c ws e work t :
  serving id s c t → sl_lane_id (server_lane t) = lane → tiles s c ws e →
  Forall2 (λ w x, fits s w x.1 ∧ smooth id lane w x.2) ws work →
  wp (serve work) (λ r t', r = Ok tt ∧ serving id s e t' ∧ server_lane t' = server_lane t) t.
Proof.
  intros Hsv Hl Ht H2. induction H2 as [|w x ws work [Hfit Hsmo] H2 IH] in c, t, Hsv, Hl, Ht |- *.
  { simpl in Ht. by subst e. }
  destruct Ht as [Hw Ht]. unfold serve. cbn [pr_for]. apply wp_bind, wp_bind.
  eapply wp_mono; [eapply send_window_accepts; [done..|by rewrite Hl]|].
  intros [l|] t' (Hok & Hsv' & Hlane); [|done]. unfold wp at 1, mret, pr_mret.
  rewrite <- Hlane. eapply IH; [done|by rewrite Hlane|done].
Qed.

(** Whatever the outcome, the windows the uploader sent are those of the plan. *)
Lemma serve_sound id s c work t :
  serving id s c t →
  wp (serve work) (λ r t', match r with
    | Ok _ => ∃ ws e, tiles s c ws e ∧ serving id s e t' ∧
        Forall2 (λ w x, received_frame x.2 = Ok (Wire.RecvPosted id w) ∧ fits s w x.1) ws work
    | Err _ => server_aborted t' ∨ serving id s (shape_chunk_count s) t' end) t.
Proof.
  induction work as [|x work IH] in c, t |- *; intros Hsv.
  { exists [], c. by split_and!. }
  unfold serve. cbn [pr_for]. apply wp_bind, wp_bind.
  destruct (decide (c = shape_chunk_count s)) as [->|Hne].
  - destruct Hsv as [(request & Hp) Hctl Hid Hs Hsm Hr]. unfold wp, send_next_registered_window. cbv [mbind pr_mbind pr_gets].
    rewrite Hp. cbn [ok_or pr_lift sp_shape next_chunk]. unfold shape_window.
    rewrite (proj2 (Z.leb_le _ _)) by lia. cbn [pr_lift]. right. split; [by eexists|done..].
  - pose proof (sv_range _ _ _ _ Hsv). eapply wp_mono; [apply send_window_spec; [done|lia]|].
    intros [l|e] t'; [|by left]. intros (w & Hfr & Hw & Hfit & Hsv'). unfold wp at 1, mret, pr_mret.
    eapply wp_mono; [apply (IH _ _ Hsv')|]. intros [[]|e'] t2; [|done].
    intros (ws & e & Ht & Hsv2 & H2). exists (w :: ws), e. split_and!; [by split|done|by constructor].
Qed.

(** The uploader that announced the metadata serves from the first chunk. *)
Lemma ready_serving id request m told sent t :
  server_piece t = Some (mkServerPiece id request None 0) → server_control t = Some id → 1 ≤ id < 2 ^ 32 →
  metadata_typed m → Wire.pm_length m ≤ 2 ^ 32 →
  wp (ready m told sent) (λ r t', match r with
    | Ok _ => ∃ s, metadata s = m ∧ serving id s 0 t' ∧ server_lane t' = server_lane t
    | Err _ => server_aborted t' end) t.
Proof.
  intros Hp Hctl Hid Hm Hlen. unfold ready. apply wp_bind_gets. rewrite Hp.
  apply wp_bind_lift; [intros p [= <-]|done]. apply wp_bind_guard; [by rewrite bool_decide_false by by intros [? ?]|intros _].
  cbn [sp_request sp_transfer_id next_chunk]. destruct (negotiate _ _ _ _) as [s|e] eqn:Hneg.
  - apply negotiate_ok in Hneg as (Hs & Hmeta & _); [|done]. pose proof (count_bounds _ Hs) as Hcb. rewrite Hmeta in Hcb.
    apply wp_bind_catch. unfold s_send. apply wp_bind_gets, wp_bind. unfold wp at 1, pr_expect. rewrite Hctl.
    cbn [fmap option_fmap option_map Wire.transfer_id]. rewrite bool_decide_true by done. apply wp_bind_lift.
    + intros [] _. unfold wp, pr_modify. exists s. split; [done|]. split; [|done]. split; simpl; try done; [by eexists|lia|lia].
    + intros e _. eapply wp_mono; [apply s_abort_spec|]. by intros r t' [-> ?].
  - eapply wp_mono; [apply s_abort_peer_spec|]. by intros r t' [-> ?].
Qed.

(** The uploader closes a transfer exactly when it has sent every chunk. *)
Lemma server_finish_spec id s c t :
  serving id s c t →
  wp (server_finish_piece (Ok tt) (Ok tt)) (λ r t', match r with
    | Ok _ => c = shape_chunk_count s ∧ server_piece t' = None ∧ server_control t' = None ∧
        server_lane t' = server_lane t ∧ server_log t' = server_log t ++ [Sent (Wire.Done id); ControlFinished]
    | Err _ => c ≠ shape_chunk_count s ∧ server_aborted t' end) t.
Proof.
  intros [(request & Hp) Hctl Hid Hs Hsm Hr]. unfold server_finish_piece. apply wp_bind_gets. rewrite Hp.
  apply wp_bind_lift; [intros p [= <-]|done]. cbn [sp_shape next_chunk sp_transfer_id ok_or]. apply wp_bind_lift; [intros s' [= <-]|done].
  destruct (Z.eqb_spec c (shape_chunk_count s)) as [->|Hne]; cbn [negb].
  - apply wp_bind_catch. unfold s_send. apply wp_bind_gets, wp_bind. unfold wp at 1, pr_expect. rewrite Hctl.
    cbn [fmap option_fmap option_map Wire.transfer_id]. rewrite bool_decide_true by done. apply wp_bind_lift; [intros [] _|done].
    unfold wp, pr_modify. simpl. split_and!; try done. by rewrite <- app_assoc.
  - eapply wp_mono; [apply s_abort_peer_spec|]. by intros r t' [-> ?].
Qed.
End server.

End SessionFacts.
