(* ===== verification/UrmaSessionTheorems.v ===== *)
(** * What a URMA piece transfer guarantees

    The theorems about the sessions of the URMA transport, and a small concrete
    transfer ([SessionDemo]) on which each of them is exercised. *)

From S2P Require Import Prelude Errors Engine Wire UrmaBuffer UrmaLane UrmaCompletion UrmaSession UrmaSessionFacts.
From Stdlib Require Import ZArith Lia String.
From stdpp Require Import base tactics numbers list gmap strings pretty.
Local Open Scope Z_scope.

(** ** A transfer of ten bytes in chunks of four, two chunks at a time *)
Module SessionDemo.
Import Urma Router Session SessionFacts.

Definition text_of_frame (f : Frame) : string := "frame".
Definition text_of_error (e : DFError) : string := "error".

Definition demo_request : PieceRequest := Wire.mkPieceRequest Wire.KPiece "task" 0 4 2.
Definition demo_metadata : PieceMetadata := Wire.mkPieceMetadata 0 10 "crc32:0" 4 2.
Definition demo_shape : TransferShape := mkTransferShape demo_metadata 3.
Definition demo_client_lane : ClientLane := mkClientLane 1 4096 2 1 1 false (mkAdmission 0 ∅).
Definition demo_client : ClientTransfer := mkClientTransfer demo_client_lane None None [].
Definition demo_piece : ClientPiece :=
  mkClientPiece 1 demo_shape 0 0 0 0 (mkRoutingStats 0 0) [] 1 1.
Definition demo_running : ClientTransfer :=
  mkClientTransfer (mkClientLane 1 4096 2 1 2 false (mkAdmission 0 ∅)) (Some 1) (Some demo_piece)
    [Sent (Wire.Request 1 demo_request)].

(** The chunks arrive out of order; a lease is dropped when the pipeline waits for it. *)
Definition demo_turns (_ : nat) : FillTurn := mkFillTurn 0 true Granted (Ok tt) (Ok tt).
Definition chunk_lease (chunk : nat) (length : Z) : RegisteredRxWindowLease :=
  mkRxLease [mkRegisteredSpan (Z.of_nat chunk) length] length [] false.
Definition chunk_completion (posted chunk : nat) (length : Z) : RegisteredRxCompletion :=
  mkRxCompletion 1 (Some (2 ^ 32 + Z.of_nat posted)) (2 ^ 32 + Z.of_nat chunk) (mkSlotId chunk 1)
    (chunk_lease chunk length).
Definition first_window : list RegisteredRxCompletion := [chunk_completion 0 1 4; chunk_completion 1 0 4].
Definition demo_round (completions : list RegisteredRxCompletion) (t : ClientTransfer) : Round :=
  (demo_turns, Ok <$> completions).
Definition demo_rounds : list (ClientTransfer → Round) :=
  [demo_round first_window; demo_round [chunk_completion 2 2 2; chunk_completion 3 3 0]; demo_round first_window].

(** After the last window; the downloader holds the last lease. *)
Definition demo_received_piece : ClientPiece :=
  mkClientPiece 1 demo_shape 3 3 2 3 (mkRoutingStats 2 0) [] 0 1.
Definition demo_received : ClientTransfer :=
  mkClientTransfer (mkClientLane 1 4096 2 1 2 false (mkAdmission 0 ∅)) (Some 1) (Some demo_received_piece)
    [Sent (Wire.Request 1 demo_request); Sent (Wire.RecvPosted 1 (Wire.mkReceiveWindow 0 2));
     Sent (Wire.RecvPosted 1 (Wire.mkReceiveWindow 2 1))].

Definition demo_server : ServerTransfer :=
  mkServerTransfer (mkServerLane 1 4096 2 false) (Some 1)
    (Some (mkServerPiece 1 demo_request (Some demo_shape) 0)) [].
Definition tx_window (n : nat) (length : Z) : TxWindowLease :=
  mkTxLease [] (replicate n (mkTxLeaseLayout (mkSlotId 0 1) 0 4)) length None.
Definition demo_turn (w : ReceiveWindow) (sequences : list Z) : SendTurn :=
  mkSendTurn (Ok (Wire.RecvPosted 1 w)) Granted (Ok tt) (Ok tt) (Ok (1, sequences, tx_window 0 0)) (Ok tt).
Definition demo_work : list (TxWindowLease * SendTurn) :=
  [(tx_window 2 8, demo_turn (Wire.mkReceiveWindow 0 2) [2 ^ 32; 2 ^ 32 + 1]);
   (tx_window 1 2, demo_turn (Wire.mkReceiveWindow 2 1) [2 ^ 32 + 2])].

Lemma demo_shape_ok : shape_ok demo_shape.
Proof. split; vm_compute; (reflexivity || (split; congruence) || congruence). Qed.
Lemma demo_counted : counted 1 0 (mkAdmission 0 ∅).
Proof. split; [reflexivity| |reflexivity]. intros j k Hj. exfalso. exact (lookup_empty_Some (M := gmap Z) j k Hj). Qed.
Lemma demo_client_running : running text_of_error 0 demo_running demo_piece.
Proof.
  split; [|reflexivity|vm_compute; by split|simpl; lia|apply demo_shape_ok|vm_compute; congruence|reflexivity..|
          vm_compute; split_and!; congruence].
  split; [reflexivity..|vm_compute; congruence|vm_compute; congruence|apply demo_counted].
Qed.
Lemma demo_received_running : running text_of_error 1 demo_received demo_received_piece.
Proof.
  split; [|reflexivity|vm_compute; by split|simpl; lia|apply demo_shape_ok|vm_compute; congruence|reflexivity| |
          vm_compute; split_and!; congruence].
  - split; [reflexivity..|vm_compute; congruence|vm_compute; congruence|apply demo_counted].
  - vm_compute. by split_and!.
Qed.
Lemma demo_serving : serving 1 demo_shape 0 demo_server.
Proof.
  split; [by eexists|reflexivity|lia|apply demo_shape_ok| |]; vm_compute; [congruence|split; congruence].
Qed.
End SessionDemo.

Module SessionTheorems.
Import Urma Router Session SessionFacts SessionDemo.

(** The 64-bit immediate of a chunk names its transfer and its index: every
    identity with a transfer identity and an index of 32 bits is encoded and
    decoded to itself, and every other identity is refused. *)
Theorem transfer_sequence_roundtrip (id : TransferId) (chunk : Z) :
  0 ≤ id < 2 ^ 32 → 0 ≤ chunk →
  match transfer_sequence id chunk with
  | Ok sequence => 0 ≤ sequence < 2 ^ 64 ∧ decode_transfer_sequence sequence = Ok (id, chunk)
  | Err _ => id = 0 ∨ u_max 32 < chunk
  end.
Proof.
  intros Hid Hc. destruct (transfer_sequence id chunk) as [q|e] eqn:Hq.
  - by apply transfer_sequence_decode in Hq as [? ?].
  - unfold transfer_sequence in Hq. destruct (Z.eqb_spec id 0); [by left|].
    destruct (Z.ltb_spec (u_max 32) chunk); [by right|done].
Qed.

Lemma transfer_sequence_roundtrip_witness :
  transfer_sequence 3 5 = Ok 12884901893 ∧ decode_transfer_sequence 12884901893 = Ok (3, 5).
Proof. split; [reflexivity|]. apply (transfer_sequence_roundtrip 3 5); lia. Defined.

(** The windows of a negotiated transfer, each starting where the one before
    ended, cover every chunk of the piece once and in order, hold at most the
    negotiated number of chunks, and their lengths, which never overflow, add up
    to the length of the piece; the negotiated chunk size and window respect the
    request and the limits of the lane. *)
Theorem windows_tile_piece (show_client_error : DFError → string) (request : PieceRequest) (m : PieceMetadata)
    (max_message_size max_inflight : Z) (s : TransferShape) (fuel : nat) :
  metadata_typed m → negotiate request m max_message_size max_inflight = Ok s →
  shape_chunk_count s ≤ Z.of_nat fuel →
  plan s fuel 0 ≫= window_chunks = seqZ 0 (shape_chunk_count s) ∧
  (∃ lengths, collect (window_len show_client_error s) (plan s fuel 0) = Ok lengths ∧
     foldr Z.add 0 lengths = Wire.pm_length m) ∧
  Forall (λ w, 1 ≤ Wire.chunk_count w ≤ Wire.pm_max_inflight_chunks m) (plan s fuel 0) ∧
  Wire.pm_chunk_size m ≤ max_message_size ∧ Wire.pm_max_inflight_chunks m ≤ max_inflight ∧
  Wire.pm_chunk_size m ≤ Wire.req_chunk_size request ∧
  Wire.pm_max_inflight_chunks m ≤ Wire.req_max_inflight_chunks request.
Proof.
  intros Hm Hn Hf. apply negotiate_ok in Hn as (Hs & <- & Hlim); [|done].
  destruct (plan_tiles s Hs show_client_error fuel 0) as (H1 & H2 & H3 & H4); [pose proof (count_bounds s Hs); lia|lia|].
  rewrite Z.sub_0_r in H1. split; [done|]. split; [|by split].
  eexists. split; [exact H2|]. rewrite H3. pose proof (so_length s Hs). unfold bytes_from. lia.
Qed.

Lemma windows_tile_piece_witness :
  plan demo_shape 3 0 = [Wire.mkReceiveWindow 0 2; Wire.mkReceiveWindow 2 1] ∧
  plan demo_shape 3 0 ≫= window_chunks = [0; 1; 2].
Proof.
  split; [reflexivity|].
  apply (windows_tile_piece text_of_error demo_request demo_metadata 4096 2 demo_shape 3);
    [vm_compute; intuition congruence|reflexivity|vm_compute; congruence].
Defined.

(** Received chunks are put back in order.  When the completions of a window are
    accepted, the leases returned are those of the completions, one per chunk, the
    [i]-th one from a completion that carries the [i]-th chunk on this lane, and
    their lengths add up to the window's.  And completions that carry the chunks
    of the window, each once and in whatever order, are always accepted. *)
Theorem reorder_by_identity (show_client_error : DFError → string) (lane : Z) (id : TransferId) (s : TransferShape)
    (w : ReceiveWindow) (cs : list RegisteredRxCompletion) :
  is_ok (window_len show_client_error s w) = true → 0 ≤ Wire.start_chunk w → 0 ≤ Wire.chunk_count w →
  Wire.start_chunk w + Wire.chunk_count w ≤ u_max 64 →
  (∀ leases ro, reorder_receive_window_completions show_client_error lane id s w cs = Ok (leases, ro) →
     leases ≡ₚ rx_lease <$> cs ∧ Z.of_nat (List.length leases) = Wire.chunk_count w ∧
     (∀ i l, leases !! i = Some l → ∃ c, c ∈ cs ∧ rx_lease c = l ∧
        carries lane id s w c (Wire.start_chunk w + Z.of_nat i)) ∧
     window_len show_client_error s w = Ok (foldr Z.add 0 (rx_length <$> leases))) ∧
  (∀ chunks, Forall2 (carries lane id s w) cs chunks → chunks ≡ₚ seqZ (Wire.start_chunk w) (Wire.chunk_count w) →
     ∃ leases ro, reorder_receive_window_completions show_client_error lane id s w cs = Ok (leases, ro)).
Proof.
  intros Hok H0 Hc He. split; [intros leases ro; by apply reorder_sound|].
  intros chunks H2 Hp. by eapply reorder_complete.
Qed.

Lemma reorder_by_identity_witness :
  ∃ leases ro, reorder_receive_window_completions text_of_error 1 1 demo_shape (Wire.mkReceiveWindow 0 2) first_window
    = Ok (leases, ro) ∧ leases = [chunk_lease 0 4; chunk_lease 1 4].
Proof.
  assert (reorder_receive_window_completions text_of_error 1 1 demo_shape (Wire.mkReceiveWindow 0 2) first_window =
    Ok ([chunk_lease 0 4; chunk_lease 1 4], mkRoutingStats 2 0)) as Hr by (vm_compute; reflexivity).
  destruct (reorder_by_identity text_of_error 1 1 demo_shape (Wire.mkReceiveWindow 0 2) first_window)
    as [Hsound _]; [reflexivity|simpl; lia|simpl; lia|vm_compute; congruence|].
  destruct (Hsound _ _ Hr) as [Hperm _]. eexists _, _. split; [exact Hr|reflexivity].
Defined.

(** C15: Receiving the next window ends, if a delivered lease is dropped when no window is
    pending and every permit of the pipeline is held by delivered leases: the wait for a
    permit has no timeout, and without a drop it never returns.  The downloader may drop any
    of the leases it holds before each iteration, but none twice, and the waits for the
    operations, which have timeouts, end.  Then, whatever the fabric answers, the pipeline is
    filled within its depth, and either the next window of the piece is delivered whole, with
    the books of the permits exact, or the transfer is aborted: its control is gone, its lane
    failed, and every permit of the pipeline and of the lane's admission is back, but for the
    leases the downloader still holds. *)
Theorem receive_window_ends (show_client_error : DFError → string) turns (fuel : nat) outcomes t p out :
  running show_client_error out t p → leases_ok turns 0 out p → (pipeline_depth p < fuel)%nat →
  next_deliver_chunk p < shape_chunk_count (shape p) →
  Wire.pm_max_inflight_chunks (metadata (shape p)) ≤ Z.of_nat (List.length outcomes) →
  wp (receive_next_window show_client_error fuel turns outcomes) (delivered show_client_error out p) t.
Proof. apply receive_next_window_spec. Qed.

Lemma receive_window_ends_witness :
  running text_of_error 0 demo_running demo_piece ∧
  wp (receive_next_window text_of_error 2 demo_turns (Ok <$> first_window)) (delivered text_of_error 0 demo_piece)
    demo_running.
Proof.
  split; [exact demo_client_running|].
  apply (receive_window_ends text_of_error demo_turns 2 (Ok <$> first_window) demo_running demo_piece 0);
    [exact demo_client_running| |simpl; lia|vm_compute; reflexivity|vm_compute; congruence].
  by apply (leases_ok_kept text_of_error demo_turns 0 demo_running demo_piece demo_client_running).
Defined.

(** C14: A downloader that asks for window after window, and in each call drops only leases
    it holds, one of them whenever the call must wait for a permit of the pipeline, comes to
    the end of its piece: in at most as many calls as the piece has chunks it has received
    windows that add up to exactly the piece, or the transfer was aborted with its books
    balanced.  The waits for the operations, which have timeouts, end. *)
Theorem download_completes (show_client_error : DFError → string) (fuel : nat) (rounds : list (ClientTransfer → Round)) t p out :
  running show_client_error out t p → Forall (round_ok show_client_error (shape p)) rounds → (pipeline_depth p < fuel)%nat →
  shape_chunk_count (shape p) - next_deliver_chunk p ≤ Z.of_nat (List.length rounds) →
  wp (receive_all show_client_error fuel rounds) (all_received show_client_error (shape p) (next_deliver_chunk p)) t.
Proof. apply receive_all_spec. Qed.

Lemma download_completes_witness :
  (∃ x, receive_all text_of_error 2 demo_rounds demo_running = Some x ∧ is_ok x.1 = true ∧ piece_complete x.2 = true) ∧
  wp (receive_all text_of_error 2 demo_rounds) (all_received text_of_error demo_shape 0) demo_running.
Proof.
  split.
  - destruct (receive_all text_of_error 2 demo_rounds demo_running) as [x|] eqn:Hx.
    + exists x. assert (match receive_all text_of_error 2 demo_rounds demo_running with
        | Some x => is_ok x.1 && piece_complete x.2 | None => false end = true) as Hb by (vm_compute; reflexivity).
      rewrite Hx in Hb. apply andb_true_iff in Hb as [H1 H2]. split; [reflexivity|]. split; [exact H1|exact H2].
    + assert (bool_decide (is_Some (fst <$> receive_all text_of_error 2 demo_rounds demo_running)) = true) as Hb by (vm_compute; reflexivity).
      by rewrite Hx in Hb.
  - apply (download_completes text_of_error 2 demo_rounds demo_running demo_piece 0);
      [exact demo_client_running| |simpl; lia|vm_compute; congruence].
    repeat constructor; try (vm_compute; congruence); by eapply leases_ok_kept.
Defined.

(** C8: The two peers agree.  When a downloader has received its piece, an uploader
    of the same transfer that reads the announcements the downloader sent, in
    order, with leases that hold the windows and a fabric that does its work,
    accepts every one of them, has then sent the whole piece, closes the transfer
    with [Done], and the downloader, which reads it, closes its side; both controls are
    given back and both lanes are left as they were, so that neither has failed. *)
Theorem peers_agree (show_frame : Frame → string) (show_client_error : DFError → string) t p out st work :
  running show_client_error out t p → piece_complete t = true →
  serving (piece_transfer_id p) (shape p) 0 st →
  Forall2 (λ w x, fits show_client_error (shape p) w x.1 ∧
             smooth (piece_transfer_id p) (sl_lane_id (server_lane st)) w x.2)
    (announced_windows (piece_transfer_id p) (log t)) work →
  wp (_ ← serve show_frame show_client_error work; server_finish_piece (Ok tt) (Ok tt)) (λ r st', r = Ok tt ∧
    server_piece st' = None ∧ server_control st' = None ∧ server_lane st' = server_lane st ∧
    last (take (List.length (server_log st') - 1) (server_log st')) =
      Some (Sent (Wire.Done (piece_transfer_id p)))) st ∧
  wp (client_finish_piece show_frame (Ok (Wire.Done (piece_transfer_id p)))) (λ r t', r = Ok tt ∧
    client_piece t' = None ∧ transfer_control t' = None ∧ client_lane t' = client_lane t) t.
Proof.
  intros Hrn Hend Hsv H2. split; [|by eapply client_finish_spec].
  pose proof (rn_range _ _ _ _ Hrn) as Hr. pose proof (rn_books _ _ _ _ Hrn) as [Hp _ _ _ _].
  unfold piece_complete in Hend. rewrite Hp in Hend. apply Z.eqb_eq in Hend.
  apply wp_bind. eapply wp_mono; [eapply serve_tiles; [done|done|apply (rn_log _ _ _ _ Hrn)|done]|].
  intros r st1 (-> & Hsv1 & Hlane). eapply wp_mono; [by apply server_finish_spec|].
  intros [[]|e] st2; [|intros [Hne _]; lia]. intros (_ & Hpc & Hctl & Hlane2 & ->).
  split; [done|]. split; [done|]. split; [done|]. split; [congruence|].
  rewrite length_app. replace (List.length (server_log st1) + _ - 1)%nat with (List.length (server_log st1 ++ [Sent (Wire.Done (piece_transfer_id p))]))
    by (rewrite length_app; simpl; lia).
  rewrite (app_assoc _ [_] [_] : server_log st1 ++ [_; _] = (server_log st1 ++ [_]) ++ [_]), take_app_length, last_snoc. done.
Qed.

Lemma peers_agree_witness :
  announced_windows 1 (log demo_received) = [Wire.mkReceiveWindow 0 2; Wire.mkReceiveWindow 2 1] ∧
  wp (_ ← serve text_of_frame text_of_error demo_work; server_finish_piece (Ok tt) (Ok tt))
    (λ r st', r = Ok tt ∧ server_piece st' = None ∧ server_control st' = None ∧ server_lane st' = server_lane demo_server ∧
       last (take (List.length (server_log st') - 1) (server_log st')) = Some (Sent (Wire.Done 1))) demo_server.
Proof.
  split; [reflexivity|].
  apply (peers_agree text_of_frame text_of_error demo_received demo_received_piece 1 demo_server demo_work);
    [exact demo_received_running|reflexivity|exact demo_serving|].
  repeat constructor; try (vm_compute; reflexivity); eexists _, _; (split; vm_compute; reflexivity).
Defined.

(** An uploader never sends anything but the plan: for any frames, leases and
    answers of the fabric, the windows it sent before it stopped are the windows of
    the transfer in order, each announced by the downloader of this transfer and
    held exactly by its lease; whenever a call fails the lane is failed and the
    control gone, unless the whole piece had been sent already. *)
Theorem uploader_sends_the_plan (show_frame : Frame → string) (show_client_error : DFError → string)
    (id : TransferId) (s : TransferShape) (c : Z) work t :
  serving id s c t →
  wp (serve show_frame show_client_error work) (λ r t', match r with
    | Ok _ => ∃ ws e, tiles s c ws e ∧ serving id s e t' ∧
        Forall2 (λ w x, received_frame x.2 = Ok (Wire.RecvPosted id w) ∧ fits show_client_error s w x.1) ws work
    | Err _ => server_aborted t' ∨ serving id s (shape_chunk_count s) t' end) t.
Proof. apply serve_sound. Qed.

Lemma uploader_sends_the_plan_witness :
  ∃ t', serve text_of_frame text_of_error (take 1 demo_work) demo_server = Some (Ok tt, t') ∧ serving 1 demo_shape 2 t'.
Proof.
  pose proof (uploader_sends_the_plan text_of_frame text_of_error 1 demo_shape 0 (take 1 demo_work) demo_server demo_serving) as Hw.
  assert (option_map (λ x, is_ok x.1) (serve text_of_frame text_of_error (take 1 demo_work) demo_server) = Some true) as Hok
    by (vm_compute; reflexivity).
  unfold wp in Hw. destruct (serve _ _ _ _) as [[[[]|e] t']|]; [|done|done]. exists t'. split; [done|].
  destruct Hw as (ws & e & Ht & Hsv & H2).
  destruct (Forall2_cons_inv_r _ _ _ _ H2) as (w & ws' & [Hfr _] & H2' & ->). apply Forall2_nil_inv_r in H2' as ->.
  injection Hfr as <-. destruct Ht as [_ <-]. exact Hsv.
Defined.
End SessionTheorems.
