(* ===== verification/GC.v ===== *)
(** * The garbage collector

    Models [src/dragonfly-client/src/gc/mod.rs]: the passes of one tick over the
    three kinds of tasks, and the disk space of
    [src/dragonfly-client-storage/src/content_linux.rs] that they look at.

    The two kinds of persistent task share one definition.  Where a pass awaits,
    other tasks run: [others] takes the storage to any state.  The scheduler
    answers nothing the collector uses, so a call of it, like a deletion, is an
    event of the [trace]. *)

From S2P Require Import Prelude Errors LruCache MetadataTypes Cache Engine Metadata Wire Storage Float64.
From Stdlib Require Import ZArith Lia String Strings.Byte.
From stdpp Require Import base tactics list gmap strings.
Local Open Scope Z_scope.

(** [struct Policy] of [src/dragonfly-client-config/src/dfdaemon.rs], the fields the
    collector reads; [disk_threshold] is zero when it is not set. *)
Record Policy := mkPolicy {
  task_ttl : Duration;
  page_cache_idle_timeout : Duration;
  disk_threshold : Z;
  disk_high_threshold_percent : Z;
  disk_low_threshold_percent : Z;
}.

(** [#[validate(range(min = 1, max = 99))]] of the two thresholds. *)
Definition Policy_validate (p : Policy) : bool :=
  (1 <=? disk_high_threshold_percent p) && (disk_high_threshold_percent p <=? 99) &&
  (1 <=? disk_low_threshold_percent p) && (disk_low_threshold_percent p <=? 99).

(** What the collector does. *)
Inductive GCEvent : Type :=
| Deleted (kind : Kind) (id : string)
| DeletedFromScheduler (id : string)
| PageCacheDropped (kind : Kind) (id : string).

Module GC.
Section gc.
Context {E : Type} `{Operations E} `{MetadataBincode} (clock : nat → NaiveDateTime).
Context {L : Type} `{LruApi string Cache.CTask L}.
Context {C : Type} `{Content C}.
Abbreviation Storage := (Storage.Storage (E := E) (L := L) (C := C)).

(** Other tasks at the [n]-th await. *)
Context (others : nat → Storage → Storage).
(** The file system: [posix_fadvise] on the content, the bytes of the files under
    the directory, and [statvfs] (available and total space). *)
Context (fadvise_dontneed : Kind → string → ST C DFError unit).
Context (usage_space : C → Z) (statvfs : C → Result (Z * Z)).
Context (config : Policy).

(** [struct GC]. *)
Record GC := mkGC { storage : Storage; trace : list GCEvent }.
Definition GM (A : Type) : Type := PR GC DFError A.
#[global] Instance gm_mret : MRet GM := λ A, pr_mret A.
#[global] Instance gm_mbind : MBind GM := λ A B, pr_mbind A B.

Definition in_storage {A} (m : Storage.R A) : GM A :=
  λ g, match m (storage g) with
       | Some (r, s) => Some (r, mkGC s (trace g))
       | None => None
       end.
Definition event (e : GCEvent) : GM unit := pr_modify (λ g, mkGC (storage g) (trace g ++ [e])).
Definition yield_ : GM unit :=
  pr_modify (λ g,
    let s := others (Storage.awaits (storage g)) (storage g) in
    mkGC (Storage.mkStorage (Storage.metadata s) (Storage.content s) (Storage.cache s)
            (Storage.notifiers s) (S (Storage.awaits (storage g)))) (trace g)).
(** [Utc::now()] of the predicates of tasks. *)
Definition now : GM NaiveDateTime := in_storage (Storage.in_metadata (Metadata.now clock)).
(** [if let Err(err) = m { info!(..) }]. *)
Definition log_error (m : GM unit) : GM unit := _ ← pr_catch m; mret tt.

(** ** Disk space *)

(** [Content::available_space], [Content::total_space]. *)
Definition available_space : GM Z :=
  λ g, let c := Storage.content (storage g) in
       Some (if negb (disk_threshold config =? 0) then
               if disk_threshold config <=? usage_space c then Ok 0
               else Ok (disk_threshold config - usage_space c)
             else match statvfs c with Ok x => Ok x.1 | Err e => Err e end, g).
Definition total_space : GM Z :=
  λ g, Some (if negb (disk_threshold config =? 0) then Ok (disk_threshold config)
             else match statvfs (Storage.content (storage g)) with Ok x => Ok x.2 | Err e => Err e end, g).

(** [(100 - available_space * 100 / total_space) as u8]: [None] is the division by
    zero. *)
Definition usage_percent (available total : Z) : option Z :=
  if total =? 0 then None
  else Some (u_wrap 8 (u64_sub 100 (u64_mul available 100 / total))).

(** [total_space as f64 * ((usage_percent - low) as f64 / 100.0)], as [u64]; the
    subtraction of the two [u8] wraps. *)
Definition need_evict_space (total usage : Z) : Z :=
  F64.as_uint 64 (F64.mul (F64.of_u64 total)
    (F64.div (F64.of_u64 (u_wrap 8 (usage - disk_low_threshold_percent config))) (F64.of_u64 100))).

(** The eviction of the three kinds by disk usage; [evict_space] is the eviction of
    the kind. *)
Definition evict_by_disk_usage (evict_space : Z → GM unit) : GM unit :=
  available ← available_space;
  total ← total_space;
  usage ← pr_expect (usage_percent available total);
  if disk_high_threshold_percent config <=? usage then log_error (evict_space (need_evict_space total usage))
  else mret tt.

(** ** The passes over a snapshot *)

(** [GC::delete_task_from_scheduler]. *)
Definition delete_task_from_scheduler (task : Task) : GM unit :=
  _ ← event (DeletedFromScheduler (Task.id task)); yield_.

(** [self.storage.delete_task(&task.id).await] and its kinds. *)
Definition delete_task (id : string) : GM unit :=
  _ ← in_storage (Storage.delete_task id); _ ← event (Deleted KTask id); yield_.
Definition delete_ptask (k : PersistentKind) (id : string) : GM unit :=
  _ ← in_storage (Storage.delete_ptask k id); _ ← event (Deleted (KPTask k) id); yield_.

(** [GC::evict_task_by_ttl]. *)
Definition evict_task_by_ttl (tasks : list Task) : GM unit :=
  pr_for (λ task,
    t ← now;
    if Task.is_expired t (task_ttl config) task then
      _ ← delete_task (Task.id task); delete_task_from_scheduler task
    else mret tt) tasks.

(** [GC::drop_task_page_cache]. *)
Definition drop_page_cache (kind : Kind) (id : string) : GM unit :=
  _ ← pr_catch (in_storage (Storage.in_content (fadvise_dontneed kind id)));
  _ ← event (PageCacheDropped kind id); yield_.
Definition drop_task_page_cache (tasks : list Task) : GM unit :=
  pr_for (λ task,
    t ← now;
    if Task.need_drop_page_cache t (page_cache_idle_timeout config) task
    then drop_page_cache KTask (Task.id task) else mret tt) tasks.

(** [evict_persistent_task_by_ttl], [evict_persistent_cache_task_by_ttl]. *)
Definition evict_ptask_by_ttl (k : PersistentKind) (tasks : list (PTask.PTask k)) : GM unit :=
  pr_for (λ task,
    t ← now;
    if PTask.is_expired t task then delete_ptask k (PTask.id task) else mret tt) tasks.

(** [drop_persistent_task_page_cache], [drop_persistent_cache_task_page_cache]. *)
Definition drop_ptask_page_cache (k : PersistentKind) (tasks : list (PTask.PTask k)) : GM unit :=
  pr_for (λ task,
    t ← now;
    if PTask.need_drop_page_cache t (page_cache_idle_timeout config) task
    then drop_page_cache (KPTask k) (PTask.id task) else mret tt) tasks.

(** ** Eviction of space *)

(** [tasks.sort_by(|a, b| a.updated_at.cmp(&b.updated_at))], a stable sort. *)
Fixpoint insert_by {X} (key : X → Z) (x : X) (l : list X) : list X :=
  match l with
  | [] => [x]
  | y :: l' => if key x <=? key y then x :: y :: l' else y :: insert_by key x l'
  end.
Definition sort_by {X} (key : X → Z) (l : list X) : list X := foldr (insert_by key) [] l.

(** The loop: [space] is the space a task frees, or [None] when it is skipped;
    returns the evicted space. *)
Fixpoint evict_loop {X} (space : X → GM (option Z)) (delete : X → GM unit) (need : Z)
    (tasks : list X) (evicted : Z) : GM Z :=
  match tasks with
  | [] => mret evicted
  | task :: tasks =>
      if need <=? evicted then mret evicted
      else
        s ← space task;
        match s with
        | None => evict_loop space delete need tasks evicted
        | Some s => _ ← delete task; evict_loop space delete need tasks (u64_add evicted s)
        end
  end.

(** What a task frees: a task without a content length that has not failed is
    skipped, and so is one that need not be evicted. *)
Definition task_space (task : Task) : GM (option Z) :=
  let evictable (s : Z) : GM (option Z) :=
    t ← now; mret (if Task.need_evict t task then Some s else None) in
  match Task.content_length task with
  | Some content_length => evictable content_length
  | None => if negb (Task.is_failed task) then mret None else evictable 0
  end.
Definition ptask_space {k} (task : PTask.PTask k) : GM (option Z) :=
  t ← now; mret (if PTask.need_evict t task then Some (PTask.content_length task) else None).

(** [GC::evict_task_space]. *)
Definition evict_task_space (need : Z) : GM unit :=
  tasks ← in_storage (Storage.in_metadata Metadata.get_tasks);
  _ ← evict_loop task_space
        (λ task, _ ← delete_task (Task.id task); delete_task_from_scheduler task)
        need (sort_by Task.updated_at tasks) 0;
  mret tt.

(** [evict_persistent_task_space], [evict_persistent_cache_task_space]. *)
Definition evict_ptask_space (k : PersistentKind) (need : Z) : GM unit :=
  tasks ← in_storage (Storage.in_metadata (Metadata.get_ptasks k));
  _ ← evict_loop ptask_space (λ task, delete_ptask k (PTask.id task))
        need (sort_by PTask.updated_at tasks) 0;
  mret tt.

(** [evict_task_by_disk_usage], [evict_persistent_task_by_disk_usage],
    [evict_persistent_cache_task_by_disk_usage]. *)
Definition evict_task_by_disk_usage : GM unit := evict_by_disk_usage evict_task_space.
Definition evict_ptask_by_disk_usage (k : PersistentKind) : GM unit := evict_by_disk_usage (evict_ptask_space k).

(** The methods of the two persistent kinds. *)
Definition evict_persistent_task_by_ttl := evict_ptask_by_ttl KPersistent.
Definition evict_persistent_cache_task_by_ttl := evict_ptask_by_ttl KPersistentCache.
Definition drop_persistent_task_page_cache := drop_ptask_page_cache KPersistent.
Definition drop_persistent_cache_task_page_cache := drop_ptask_page_cache KPersistentCache.
Definition evict_persistent_task_space := evict_ptask_space KPersistent.
Definition evict_persistent_cache_task_space := evict_ptask_space KPersistentCache.
Definition evict_persistent_task_by_disk_usage := evict_ptask_by_disk_usage KPersistent.
Definition evict_persistent_cache_task_by_disk_usage := evict_ptask_by_disk_usage KPersistentCache.

(** ** A tick *)

(** The two passes over one snapshot; a snapshot that fails skips them. *)
Definition with_snapshot {X} (m : ST (Metadata.Metadata E) DFError (list X)) (f : list X → GM unit) : GM unit :=
  r ← pr_catch (in_storage (Storage.in_metadata m));
  match r with Ok tasks => f tasks | Err _ => mret tt end.

Definition ptask_passes (k : PersistentKind) : GM unit :=
  _ ← with_snapshot (Metadata.get_ptasks k) (λ tasks,
        _ ← log_error (drop_ptask_page_cache k tasks); log_error (evict_ptask_by_ttl k tasks));
  log_error (evict_ptask_by_disk_usage k).

(** The body of [GC::run] on a tick of the interval. *)
Definition tick : GM unit :=
  _ ← with_snapshot Metadata.get_tasks (λ tasks,
        _ ← log_error (drop_task_page_cache tasks); log_error (evict_task_by_ttl tasks));
  _ ← log_error evict_task_by_disk_usage;
  _ ← ptask_passes KPersistentCache;
  ptask_passes KPersistent.
End gc.
End GC.
