(* ===== verification/GCFacts.v ===== *)
(** * Correctness of the garbage collector

    Which tasks a pass evicts and in which order, how much space it asks for, and
    that a tick always comes to its end. *)

From S2P Require Import Prelude Errors LruCache MetadataTypes Cache Engine Metadata MetadataFacts Wire Storage StorageFacts Float64 GC.
From Stdlib Require Import ZArith Lia String Strings.Byte.
From stdpp Require Import base tactics list gmap strings sorting.
Local Open Scope Z_scope.

(** ** Floating-point products *)
Module F64Facts.
Import F64.

(** The integer part of a rounded ratio is off by a relative error of 2^-53. *)
Lemma rounds_integer n d m e :
  0 < n → 0 < d → rounds n d m e →
  let v := if 0 <=? e then m * 2 ^ e else m / 2 ^ (- e) in
  2 ^ 53 * (v * d) ≤ (2 ^ 53 + 1) * n ∧ (2 ^ 53 - 1) * n < 2 ^ 53 * ((v + 1) * d).
Proof.
  intros Hn Hd. unfold rounds. case_decide as He.
  - intros (Herr & Hlo & _). set (P := 2 ^ (- e)) in *. assert (0 < P) as HP by (apply Z.pow_pos_nonneg; lia).
    assert (∃ v, (if 0 <=? e then m * 2 ^ e else m / P) = v ∧ v * P ≤ m < (v + 1) * P) as (v & -> & Hv).
    { destruct (Z.leb_spec 0 e).
      - assert (e = 0) as -> by lia. exists m. subst P. simpl. lia.
      - eexists. split; [done|]. pose proof (Z.div_mod m P ltac:(lia)). pose proof (Z.mod_pos_bound m P HP). nia. }
    cbv zeta. assert (2 ^ 53 * Z.abs (m * d - n * P) ≤ n * P) as Hrel by lia.
    assert (v * P * d ≤ m * d ∧ m * d + d ≤ (v + 1) * P * d) as [H1 H2] by nia.
    split; apply (Z.mul_le_mono_pos_r _ _ P HP) || apply (Z.mul_lt_mono_pos_r P _ _ HP); nia.
  - intros (Herr & Hlo & _). set (P := 2 ^ e) in *. assert (0 < P) as HP by (apply Z.pow_pos_nonneg; lia).
    destruct (Z.leb_spec 0 e); [|lia]. cbv zeta. fold P.
    assert (2 ^ 53 * Z.abs (m * (d * P) - n) ≤ n) as Hrel by lia. split; nia.
Qed.

(** [t * (d / 100)] is right up to two roundings. *)
Lemma percent_bounds t d :
  0 < t < 2 ^ 53 → 0 < d < 2 ^ 8 →
  let v := as_uint 64 (mul (of_u64 t) (div (of_u64 d) (of_u64 100))) in
  2 ^ 106 * (100 * v) ≤ (2 ^ 53 + 1) ^ 2 * (t * d) ∧
  (2 ^ 53 - 1) ^ 2 * (t * d) < 2 ^ 106 * (100 * (v + 1)).
Proof.
  intros Ht Hd. destruct (div_rounds d 100 ltac:(lia) ltac:(lia)) as (m & e & -> & Hr).
  destruct (of_u64_exact t Ht) as (k & Hk & ->).
  assert (e ≤ 0) as He.
  { destruct (decide (e ≤ 0)); [done|]. exfalso. unfold rounds in Hr. rewrite decide_False in Hr by done.
    destruct Hr as (_ & Hlo & _). assert (2 ^ 1 ≤ 2 ^ e) by (apply Z.pow_le_mono_r; lia). lia. }
  unfold rounds in Hr. rewrite decide_True in Hr by done. destruct Hr as (Herr & Hlo & Hhi).
  unfold mul. rewrite (Z.max_l 0 (- k + e)), (Z.max_r 0 (- (- k + e))) by lia.
  rewrite Z.pow_0_r, Z.mul_1_r. replace (- (- k + e)) with (k + - e) by lia. rewrite Z.pow_add_r by lia.
  set (P := 2 ^ (- e)) in *. set (K := 2 ^ k). assert (0 < P) as HP by (apply Z.pow_pos_nonneg; lia).
  assert (0 < K) as HK by (apply Z.pow_pos_nonneg; lia).
  assert (d * P ≤ m * 100 + 50) as HdP by lia. assert (0 < m) as Hm by lia.
  destruct (of_ratio_rounds (t * K * m) (K * P)) as (m' & e' & -> & Hr'); [nia|nia| |].
  { assert (P ≤ m * 2 ^ 8) by nia. assert (K * P ≤ K * (m * 2 ^ 8)) by (apply Z.mul_le_mono_nonneg_l; lia). nia. }
  apply rounds_integer in Hr' as [Hup Hdn]; [|nia|nia]. cbv zeta in *. unfold as_uint.
  set (v := if 0 <=? e' then _ else _) in *.
  assert (2 ^ 53 * (v * P) ≤ (2 ^ 53 + 1) * (t * m)) as Hup'.
  { apply (Z.mul_le_mono_pos_r _ _ K HK). nia. }
  assert ((2 ^ 53 - 1) * (t * m) < 2 ^ 53 * ((v + 1) * P)) as Hdn'.
  { apply (Z.mul_lt_mono_pos_r K _ _ HK). nia. }
  assert (2 ^ 53 * Z.abs (m * 100 - d * P) ≤ d * P) as Hrel by lia.
  assert (2 ^ 53 * (m * 100) ≤ (2 ^ 53 + 1) * (d * P) ∧ (2 ^ 53 - 1) * (d * P) ≤ 2 ^ 53 * (m * 100)) as [Hm1 Hm2] by lia.
  assert (2 ^ 106 * (100 * v) ≤ (2 ^ 53 + 1) ^ 2 * (t * d) ∧ (2 ^ 53 - 1) ^ 2 * (t * d) < 2 ^ 106 * (100 * (v + 1))) as [Hu Hl].
  { change (2 ^ 106) with (2 ^ 53 * 2 ^ 53). change ((2 ^ 53 + 1) ^ 2) with ((2 ^ 53 + 1) * (2 ^ 53 + 1)).
    change ((2 ^ 53 - 1) ^ 2) with ((2 ^ 53 - 1) * (2 ^ 53 - 1)).
    split; apply (Z.mul_le_mono_pos_r _ _ P HP) || apply (Z.mul_lt_mono_pos_r P _ _ HP); nia. }
  assert (v ≤ u_max 64) as Hmax by (unfold u_max; nia).
  rewrite Z.min_r by done. done.
Qed.
End F64Facts.

Module GCFacts.
Import GC.

(** ** Thresholds *)
Lemma percent_reached config T a a' u :
  0 ≤ disk_low_threshold_percent config → 2 ^ 7 ≤ T < 2 ^ 53 → 0 ≤ a ≤ T →
  usage_percent a T = Some u → disk_low_threshold_percent config ≤ u →
  a + need_evict_space config T u ≤ a' ≤ T →
  ∃ u', usage_percent a' T = Some u' ∧ u' ≤ disk_low_threshold_percent config + 1.
Proof.
  set (low := disk_low_threshold_percent config). intros Hlow HT Ha Hu Hlu Ha'.
  assert (∀ b, 0 ≤ b ≤ T → usage_percent b T = Some (100 - b * 100 / T) ∧ 0 ≤ b * 100 / T ≤ 100) as Hpct.
  { intros b Hb. unfold usage_percent. destruct (Z.eqb_spec T 0); [lia|].
    assert (0 ≤ b * 100 / T ≤ 100) as Hq.
    { split; [apply Z.div_pos; lia|]. apply Z.div_le_upper_bound; lia. }
    unfold u64_mul, u64_sub. rewrite (u_wrap_small 64 (b * 100)), (u_wrap_small 64 (100 - _)), u_wrap_small by lia. done. }
  destruct (Hpct a Ha) as [Hua Hqa]. rewrite Hua in Hu. injection Hu as <-.
  set (d := 100 - a * 100 / T - low) in *. unfold need_evict_space in Ha'. fold low in Ha'.
  fold d in Ha'. rewrite (u_wrap_small 8 d) in Ha' by lia.
  destruct (decide (d = 0)) as [Hd0|Hd0].
  { assert (0 ≤ F64.as_uint 64 (F64.mul (F64.of_u64 T) (F64.div (F64.of_u64 d) (F64.of_u64 100)))) as H0.
    { rewrite Hd0. destruct (F64.of_u64_exact T ltac:(lia)) as (k & _ & ->). unfold F64.of_u64 at 1, F64.of_ratio. simpl.
      unfold F64.of_ratio. rewrite Z.mul_0_r, Z.mul_0_l. done. }
    destruct (Hpct a' ltac:(lia)) as [-> Hq']. eexists. split; [done|].
    assert (a * 100 / T ≤ a' * 100 / T) by (apply Z.div_le_mono; lia). lia. }
  destruct (F64Facts.percent_bounds T d ltac:(lia) ltac:(lia)) as [_ Hlo]. set (v := F64.as_uint 64 _) in *.
  assert (0 ≤ v) as Hv by nia.
  destruct (Hpct a' ltac:(lia)) as [-> Hq']. eexists. split; [done|].
  assert (a * 100 / T + d - 1 ≤ a' * 100 / T) as Hge; [|lia].
  apply Z.div_le_lower_bound; [lia|].
  pose proof (Z.mul_div_le (a * 100) T ltac:(lia)) as Hfl.
  assert (T * d ≤ 100 * v + T) by nia. nia.
Qed.

(** With the low threshold above the usage the subtraction wraps, and more than the
    whole disk is asked for. *)
Lemma percent_inverted config T u :
  Policy_validate config = true → 2 ≤ T < 2 ^ 53 → 0 ≤ u →
  disk_high_threshold_percent config ≤ u < disk_low_threshold_percent config →
  T ≤ need_evict_space config T u.
Proof.
  intros Hval HT Hu Hlt. unfold Policy_validate in Hval. rewrite !andb_true_iff, !Z.leb_le in Hval.
  unfold need_evict_space. set (low := disk_low_threshold_percent config) in *.
  assert (u_wrap 8 (u - low) = 256 + u - low) as ->.
  { unfold u_wrap. replace (u - low) with (256 + u - low + -1 * 2 ^ 8) by lia. rewrite Z.mod_add by lia. apply Z.mod_small. lia. }
  destruct (F64Facts.percent_bounds T (256 + u - low) ltac:(lia) ltac:(lia)) as [_ Hlo]. cbv zeta in Hlo.
  set (v := F64.as_uint 64 _) in *. nia.
Qed.

(** ** Sorting *)
Lemma sum_perm (l l' : list Z) : l ≡ₚ l' → foldr Z.add 0 l = foldr Z.add 0 l'.
Proof. induction 1; simpl; lia. Qed.

Section sorting.
Context {X : Type} (key : X → Z).

Lemma insert_by_perm x l : insert_by key x l ≡ₚ x :: l.
Proof. induction l as [|y l IH]; simpl; [done|]. destruct (key x <=? key y); [done|]. rewrite IH. apply Permutation_swap. Qed.
Lemma sort_by_perm l : sort_by key l ≡ₚ l.
Proof. induction l as [|x l IH]; simpl; [done|]. by rewrite insert_by_perm, IH. Qed.

Lemma insert_by_sorted x l :
  StronglySorted (λ a b, key a ≤ key b) l → StronglySorted (λ a b, key a ≤ key b) (insert_by key x l).
Proof.
  induction 1 as [|y l Hl IH Hall]; simpl; [repeat constructor|]. destruct (Z.leb_spec (key x) (key y)).
  - constructor; [by constructor|]. constructor; [done|]. eapply Forall_impl; [exact Hall|]. simpl. lia.
  - constructor; [done|]. rewrite insert_by_perm. constructor; [lia|done].
Qed.
Lemma sort_by_sorted l : StronglySorted (λ a b, key a ≤ key b) (sort_by key l).
Proof. induction l; simpl; [constructor|]. by apply insert_by_sorted. Qed.
End sorting.

(** ** Passes *)
Section passes.
Context {E : Type} `{OperationsLaws E} `{MetadataBincodeLaws} (clock : nat → NaiveDateTime).
Context {L : Type} `{!LruApi string Cache.CTask L} `{!LruSpec string Cache.CTask L}.
Context {C : Type} `{!Content C}.
Abbreviation Storage := (Storage.Storage (E := E) (L := L) (C := C)).
Abbreviation GC := (GC (E := E) (L := L) (C := C)).
Context (others : nat → Storage → Storage).
Context (fadvise_dontneed : Kind → string → ST C DFError unit).
Context (usage_space : C → Z) (statvfs : C → Result (Z * Z)) (config : Policy).
Implicit Types (g : GC) (s : Storage).

(** The cache of the storage is well formed. *)
Definition storage_ok s : Prop := ∃ l, Cache.inv (Storage.cache s) l.
Context (Hothers : ∀ n s, storage_ok s → storage_ok (others n s)).

(** What a step of the collector keeps, and the events it adds. *)
Definition adds {A} (evs : list GCEvent) (Q : Result A → Prop) g (r : Result A) g' : Prop :=
  Q r ∧ storage_ok (storage g') ∧ trace g' = trace g ++ evs.

Lemma now_adds g : storage_ok (storage g) → wp (now clock) (adds [] (λ r, ∃ n, r = Ok (clock n)) g) g.
Proof.
  intros Hok. unfold wp, now, in_storage, Storage.in_metadata, Metadata.now. simpl. split; [by eexists|]. split; [done|].
  by rewrite app_nil_r.
Qed.

Lemma yield_adds g : storage_ok (storage g) → wp (yield_ others) (adds [] (λ r, r = Ok tt) g) g.
Proof.
  intros Hok. unfold wp, yield_, pr_modify. split; [done|]. split; [|by rewrite app_nil_r].
  apply (Hothers (Storage.awaits (storage g))) in Hok. done.
Qed.

Lemma event_adds e g : storage_ok (storage g) → wp (event e) (adds [e] (λ r, r = Ok tt) g) g.
Proof. done. Qed.

Lemma delete_task_total id s : storage_ok s → ∃ s', Storage.delete_task id s = Some (Ok tt, s') ∧ storage_ok s'.
Proof.
  intros [l Hinv]. destruct (Cache.delete_task_inv id _ _ Hinv) as (c & Hc & Hinv').
  assert (∃ r, Cache.delete_task id (Storage.cache s) = Some (r, c)) as [r Hr].
  { destruct (Lru.find_key id l); destruct Hc as [Hc _]; eauto. }
  eexists. split.
  - unfold Storage.delete_task. cbv [mbind Storage.r_mbind pr_mbind]. rewrite StorageFacts.log_err_metadata, StorageFacts.log_err_metadata.
    rewrite StorageFacts.log_err_content. unfold Storage.log_err, Storage.in_cache. simpl. rewrite Hr. reflexivity.
  - by eexists.
Qed.

Lemma delete_ptask_total k id s : storage_ok s → ∃ s', Storage.delete_ptask k id s = Some (Ok tt, s') ∧ storage_ok s'.
Proof.
  intros Hok. eexists. split.
  - unfold Storage.delete_ptask. cbv [mbind Storage.r_mbind pr_mbind].
    rewrite StorageFacts.log_err_metadata, StorageFacts.log_err_metadata, StorageFacts.log_err_content. reflexivity.
  - exact Hok.
Qed.

(** Composing. *)
Lemma adds_bind {A B} evs (Q : Result A → Prop) (m : GM A) (f : A → GM B) (Q' : Result B → GC → Prop) g :
  wp m (adds evs Q g) g →
  (∀ a g', Q (Ok a) → storage_ok (storage g') → trace g' = trace g ++ evs → wp (f a) Q' g') →
  (∀ e, ¬ Q (Err e)) → wp (m ≫= f) Q' g.
Proof.
  intros Hm Hf He. apply wp_bind. eapply wp_mono; [exact Hm|]. intros [a|e] g' (HQ & Hok & Ht); [by apply Hf|by apply He in HQ].
Qed.

Lemma in_storage_adds {A} (m : Storage.R A) (Q : Result A → Prop) g :
  (∃ r s', m (storage g) = Some (r, s') ∧ Q r ∧ storage_ok s') → wp (in_storage m) (adds [] Q g) g.
Proof.
  intros (r & s' & Hm & HQ & Hok). unfold wp, in_storage. rewrite Hm. split; [done|]. split; [done|]. simpl. by rewrite app_nil_r.
Qed.

Lemma delete_adds (m : Storage.R unit) kind id g :
  storage_ok (storage g) → (∃ s', m (storage g) = Some (Ok tt, s') ∧ storage_ok s') →
  wp (_ ← in_storage m; _ ← event (Deleted kind id); yield_ others) (adds [Deleted kind id] (λ r, r = Ok tt) g) g.
Proof.
  intros Hok (s' & Hm & Hok'). eapply adds_bind; [apply (in_storage_adds m (λ r, r = Ok tt)); eauto| |done].
  intros [] g1 _ Hok1 Ht1. eapply adds_bind; [by apply event_adds| |done]. intros [] g2 _ Hok2 Ht2.
  eapply wp_mono; [by apply yield_adds|]. intros r g3 (-> & Hok3 & Ht3). split; [done|]. split; [done|].
  by rewrite Ht3, Ht2, Ht1, !app_nil_r.
Qed.

Lemma evict_task_adds id g :
  storage_ok (storage g) →
  wp (_ ← delete_task others id; _ ← event (DeletedFromScheduler id); yield_ others)
    (adds [Deleted KTask id; DeletedFromScheduler id] (λ r, r = Ok tt) g) g.
Proof.
  intros Hok. eapply adds_bind; [apply delete_adds; [done|by apply delete_task_total]| |done]. intros [] g1 _ Hok1 Ht1.
  eapply adds_bind; [by apply event_adds| |done]. intros [] g2 _ Hok2 Ht2.
  eapply wp_mono; [by apply yield_adds|]. intros r g3 (-> & Hok3 & Ht3). split; [done|]. split; [done|].
  by rewrite Ht3, Ht2, Ht1, app_nil_r, <- app_assoc.
Qed.

(** A loop over a snapshot that treats the tasks that pass a test at the time they
    come up. *)
Lemma snapshot_loop {X} (test : NaiveDateTime → X → bool) (act : X → GM unit) (evs : X → list GCEvent) (tasks : list X) g :
  (∀ x g, storage_ok (storage g) → wp (act x) (adds (evs x) (λ r, r = Ok tt) g) g) → storage_ok (storage g) →
  wp (pr_for (λ x, t ← now clock; if test t x then act x else mret tt) tasks) (λ r g', r = Ok tt ∧ storage_ok (storage g') ∧
    ∃ times, Forall2 (λ (x : X) t, ∃ n, t = clock n) tasks times ∧
      trace g' = trace g ++ (zip tasks times ≫= λ xt, if test xt.2 xt.1 then evs xt.1 else [])) g.
Proof.
  intros Hact. induction tasks as [|x tasks IH] in g |- *; intros Hok.
  { split; [done|]. split; [done|]. exists []. split; [constructor|]. by rewrite app_nil_r. }
  cbn [pr_for]. apply wp_bind. eapply adds_bind; [by apply now_adds| |by intros e [? ?]].
  intros t g1 (n & [= ->]) Hok1 Ht1.
  assert (wp (if test (clock n) x then act x else mret tt)
    (adds (if test (clock n) x then evs x else []) (λ r, r = Ok tt) g1) g1) as Hx.
  { destruct (test (clock n) x); [by apply Hact|]. split; [done|]. split; [done|]. by rewrite app_nil_r. }
  eapply wp_mono; [exact Hx|]. intros r g2 (-> & Hok2 & Ht2). eapply wp_mono; [by apply IH|].
  intros r g3 (-> & Hok3 & times & Hf & Ht3). split; [done|]. split; [done|]. exists (clock n :: times).
  split; [constructor; [by exists n|done]|]. cbn [zip_with]. rewrite bind_cons. by rewrite Ht3, Ht2, Ht1, app_nil_r, <- app_assoc.
Qed.

(** *** Eviction of space *)

(** The decisions of the loop: which tasks it looked at and what each frees. *)
Definition freed {X} (decided : list (X * option Z)) : Z := foldr Z.add 0 (omap snd decided).
Definition evicted {X} (decided : list (X * option Z)) : list X :=
  omap (λ d : X * option Z, match d.2 with Some _ => Some d.1 | None => None end) decided.

(** [decided] is what a loop over [tasks] does that is to free [need] and has freed
    [acc]: it looks at the tasks in order, until it has freed enough and no longer. *)
Record greedy {X} (verdict : X → option Z → Prop) (need acc : Z) (tasks : list X) (decided : list (X * option Z)) : Prop := {
  gr_prefix : ∃ rest, tasks = decided.*1 ++ rest ∧ (rest = [] ∨ need ≤ acc + freed decided);
  gr_verdicts : Forall (λ d, verdict d.1 d.2) decided;
  gr_needed : ∀ pre d post, decided = pre ++ d :: post → acc + freed pre < need;
}.

Lemma freed_cons {X} (x : X) v l : freed ((x, v) :: l) = default 0 v + freed l.
Proof. by destruct v. Qed.

Lemma greedy_cons {X} (verdict : X → option Z → Prop) need acc x v tasks decided :
  acc < need → verdict x v → greedy verdict need (acc + default 0 v) tasks decided →
  greedy verdict need acc (x :: tasks) ((x, v) :: decided).
Proof.
  intros Hlt Hv [(rest & -> & Hrest) Hall Hn]. split.
  - exists rest. split; [done|]. rewrite freed_cons. destruct Hrest; [by left|right; lia].
  - by constructor.
  - intros [|d' pre] d post; simpl; [intros [= <- _]; unfold freed; simpl; lia|].
    intros [= <- Heq]. rewrite freed_cons. specialize (Hn _ _ _ Heq). lia.
Qed.

Lemma evict_loop_spec {X} (space : X → GM (option Z)) (delete : X → GM unit) (verdict : X → option Z → Prop)
    (evs : X → list GCEvent) (size : X → Z) need tasks acc g :
  (∀ x g, storage_ok (storage g) → wp (space x) (adds [] (λ r, ∃ v, r = Ok v ∧ verdict x v) g) g) →
  (∀ x g, storage_ok (storage g) → wp (delete x) (adds (evs x) (λ r, r = Ok tt) g) g) →
  (∀ x v, verdict x (Some v) → x ∈ tasks → 0 ≤ v ≤ size x) → (∀ x, x ∈ tasks → 0 ≤ size x) →
  0 ≤ acc → acc + foldr Z.add 0 (size <$> tasks) ≤ u_max 64 →
  storage_ok (storage g) →
  wp (evict_loop space delete need tasks acc) (λ r g', storage_ok (storage g') ∧
    ∃ decided, greedy verdict need acc tasks decided ∧ r = Ok (acc + freed decided) ∧
      trace g' = trace g ++ (evicted decided ≫= evs)) g.
Proof.
  intros Hsp Hdel. induction tasks as [|x tasks IH] in acc, g |- *; intros Hv Hsz Hacc Hsum Hok.
  { split; [done|]. exists []. split; [|by rewrite Z.add_0_r, app_nil_r].
    split; [by exists []; eauto|constructor|by intros [] ? ? ?]. }
  assert (0 ≤ foldr Z.add 0 (size <$> tasks)) as Hnn.
  { assert (∀ y, y ∈ tasks → 0 ≤ size y) as Hy by (intros; apply Hsz; by right). clear -Hy.
    induction tasks as [|y l IH]; csimpl; [lia|]. specialize (IH (λ z Hz, Hy z ltac:(by right))).
    specialize (Hy y ltac:(by left)). lia. }
  csimpl in Hsum. pose proof (Hsz x ltac:(by left)) as Hx0.
  cbn [evict_loop]. destruct (Z.leb_spec need acc) as [Hdone|Hmore].
  { split; [done|]. exists []. split; [|by rewrite Z.add_0_r, app_nil_r].
    split; [exists (x :: tasks); split; [done|right; unfold freed; simpl; lia]|constructor|by intros [] ? ? ?]. }
  eapply adds_bind; [by apply Hsp| |by intros e (v & ? & _)]. intros v g1 (v' & [= <-] & Hvd) Hok1 Ht1. destruct v as [v|].
  - pose proof (Hv x v Hvd ltac:(by left)). eapply adds_bind; [by apply Hdel| |done]. intros [] g2 _ Hok2 Ht2.
    assert (u64_add acc v = acc + v) as -> by (unfold u64_add; apply u_wrap_small; unfold u_max in Hsum; lia).
    eapply wp_mono; [apply IH; [intros; apply Hv; [done|by right]|intros; apply Hsz; by right|lia|lia|done]|].
    intros r g3 (Hok3 & decided & Hg & -> & Ht3). split; [done|]. exists ((x, Some v) :: decided).
    split; [by apply greedy_cons|]. rewrite freed_cons. split; [f_equal; simpl; lia|].
    change (evicted ((x, Some v) :: decided)) with (x :: evicted decided).
    rewrite bind_cons, Ht3, Ht2, Ht1, app_nil_r, <- app_assoc. done.
  - eapply wp_mono; [apply (IH acc); [intros; apply Hv; [done|by right]|intros; apply Hsz; by right|lia|lia|done]|].
    intros r g3 (Hok3 & decided & Hg & -> & Ht3). split; [done|]. exists ((x, None) :: decided).
    split; [apply greedy_cons; [done|done|]; simpl; by rewrite Z.add_0_r|]. rewrite freed_cons. split; [done|].
    change (evicted ((x, None) :: decided)) with (evicted decided). by rewrite Ht3, Ht1, app_nil_r.
Qed.

(** What the loops decide of a task at some time. *)
Definition task_verdict (t : Task) (v : option Z) : Prop :=
  match v with
  | Some n => (∃ k, Task.need_evict (clock k) t = true) ∧ n = default 0 (Task.content_length t)
  | None => (Task.content_length t = None ∧ Task.is_failed t = false) ∨ ∃ k, Task.need_evict (clock k) t = false
  end.
Definition ptask_verdict {k} (t : PTask.PTask k) (v : option Z) : Prop :=
  match v with
  | Some n => (∃ k, PTask.need_evict (clock k) t = true) ∧ n = PTask.content_length t
  | None => ∃ k, PTask.need_evict (clock k) t = false
  end.

Lemma task_space_adds (t : Task) g :
  storage_ok (storage g) → wp (task_space clock t) (adds [] (λ r, ∃ v, r = Ok v ∧ task_verdict t v) g) g.
Proof.
  intros Hok.
  assert (∀ n, n = default 0 (Task.content_length t) →
    wp (x ← now clock; mret (if Task.need_evict x t then Some n else None)) (adds [] (λ r, ∃ v, r = Ok v ∧ task_verdict t v) g) g) as Hev.
  { intros n Hn. eapply adds_bind; [by apply now_adds| |by intros e [? ?]]. intros x g1 (i & [= ->]) Hok1 Ht1.
    split; [|done]. eexists. split; [done|]. destruct (Task.need_evict (clock i) t) eqn:He; simpl; eauto. }
  unfold task_space. destruct (Task.content_length t) as [n|] eqn:Hc; [by apply Hev|].
  destruct (Task.is_failed t) eqn:Hf; [by apply Hev|]. split; [|split; [done|by rewrite app_nil_r]].
  eexists. split; [done|]. left. done.
Qed.

Lemma ptask_space_adds {k} (t : PTask.PTask k) g :
  storage_ok (storage g) → wp (ptask_space clock t) (adds [] (λ r, ∃ v, r = Ok v ∧ ptask_verdict t v) g) g.
Proof.
  intros Hok. eapply adds_bind; [by apply now_adds| |by intros e [? ?]]. intros x g1 (i & [= ->]) Hok1 Ht1.
  split; [|done]. eexists. split; [done|]. destruct (PTask.need_evict (clock i) t) eqn:He; simpl; eauto.
Qed.

(** *** A tick *)

(** [m] returns, whatever its outcome, and keeps the storage well formed. *)
Definition total {A} (m : GM A) : Prop := ∀ g, storage_ok (storage g) → wp m (λ _ g', storage_ok (storage g')) g.

Lemma total_adds {A} (m : GM A) :
  (∀ g, storage_ok (storage g) → ∃ evs Q, wp m (adds evs Q g) g) → total m.
Proof. intros Hm g Hok. destruct (Hm g Hok) as (evs & Q & Hw). eapply wp_mono; [exact Hw|]. by intros r g' (_ & ? & _). Qed.
Lemma total_ret {A} (a : A) : total (mret a).
Proof. by intros g Hok. Qed.
Lemma total_bind {A B} (m : GM A) (f : A → GM B) : total m → (∀ a, total (f a)) → total (m ≫= f).
Proof. intros Hm Hf g Hok. apply wp_bind. eapply wp_mono; [by apply Hm|]. intros [a|e] g' Hg'; [by apply Hf|done]. Qed.
Lemma total_for {X} (f : X → GM unit) l : (∀ x, total (f x)) → total (pr_for f l).
Proof. intros Hf. induction l; [apply total_ret|]. by apply total_bind. Qed.
Lemma total_catch {A} (m : GM A) : total m → total (pr_catch m).
Proof. intros Hm g Hok. apply wp_catch. by apply Hm. Qed.
Lemma total_log m : total m → total (log_error m).
Proof. intros Hm. apply total_bind; [by apply total_catch|]. intros. apply total_ret. Qed.
Lemma total_now : total (now clock).
Proof. apply total_adds. intros g Hok. eexists _, _. by apply now_adds. Qed.
Lemma total_metadata {A} (m : ST (Metadata.Metadata E) DFError A) : total (in_storage (Storage.in_metadata m)).
Proof. intros g Hok. unfold wp, in_storage, Storage.in_metadata. by destruct (m _). Qed.
Lemma total_delete_task id : total (delete_task others id).
Proof. apply total_adds. intros g Hok. eexists _, _. apply delete_adds; [done|by apply delete_task_total]. Qed.
Lemma total_delete_ptask k id : total (delete_ptask others k id).
Proof. apply total_adds. intros g Hok. eexists _, _. apply delete_adds; [done|by apply delete_ptask_total]. Qed.
Lemma total_event_yield e : total (_ ← event e; yield_ others).
Proof.
  apply total_bind; [by intros g Hok|]. intros _. apply total_adds. intros g Hok. eexists _, _. by apply yield_adds.
Qed.
Lemma total_drop kind id : total (drop_page_cache others fadvise_dontneed kind id).
Proof.
  apply total_bind; [|intros _; apply total_event_yield]. apply total_catch. intros g Hok.
  unfold wp, in_storage, Storage.in_content. by destruct (fadvise_dontneed _ _ _).
Qed.
Lemma total_evict_loop {X} (space : X → GM (option Z)) (delete : X → GM unit) need tasks acc :
  (∀ x, total (space x)) → (∀ x, total (delete x)) → total (evict_loop space delete need tasks acc).
Proof.
  intros Hs Hd. induction tasks as [|x tasks IH] in acc |- *; cbn [evict_loop]; [apply total_ret|].
  destruct (need <=? acc); [apply total_ret|]. apply total_bind; [done|]. intros [v|]; [|done]. by apply total_bind.
Qed.

Lemma total_task_space t : total (task_space clock t).
Proof. apply total_adds. intros g Hok. eexists _, _. by apply task_space_adds. Qed.
Lemma total_ptask_space {k} (t : PTask.PTask k) : total (ptask_space clock t).
Proof. apply total_adds. intros g Hok. eexists _, _. by apply ptask_space_adds. Qed.

(** The disk has a size. *)
Definition disk_sized : Prop :=
  disk_threshold config ≠ 0 ∨ ∀ c a t, statvfs c = Ok (a, t) → t ≠ 0.

Lemma total_disk_usage (evict : Z → GM unit) :
  disk_sized → (∀ n, total (evict n)) → total (evict_by_disk_usage usage_space statvfs config evict).
Proof.
  intros Hsz Hev g Hok. unfold evict_by_disk_usage. apply wp_bind. unfold wp at 1, available_space.
  destruct (negb (disk_threshold config =? 0)) eqn:Ht.
  - match goal with |- context [if ?b then Ok 0 else _] => destruct b end;
      (apply wp_bind; unfold wp at 1, total_space; rewrite Ht; apply wp_bind; unfold wp at 1, pr_expect, usage_percent;
       apply negb_true_iff in Ht; rewrite Ht; simpl; destruct (_ <=? _); [by apply total_log|done]).
  - destruct (statvfs (Storage.content (storage g))) as [[a t]|e] eqn:Hst; [|done]. apply wp_bind. unfold wp at 1, total_space.
    rewrite Ht, Hst. apply wp_bind. unfold wp at 1, pr_expect, usage_percent. apply negb_false_iff, Z.eqb_eq in Ht.
    destruct Hsz as [|Hsz]; [done|]. apply Hsz in Hst. simpl. destruct (Z.eqb_spec t 0); [done|]. simpl.
    destruct (_ <=? _); [by apply total_log|done].
Qed.

Lemma total_snapshot {X} (m : ST (Metadata.Metadata E) DFError (list X)) (f : list X → GM unit) :
  (∀ l, total (f l)) → total (with_snapshot m f).
Proof.
  intros Hf. apply total_bind; [apply total_catch, total_metadata|]. intros [l|e]; [done|apply total_ret].
Qed.

Lemma total_if (b : bool) (m : GM unit) : total m → total (if b then m else mret tt).
Proof. destruct b; [done|]. intros _. apply total_ret. Qed.

Lemma tick_total : disk_sized → total (tick clock others fadvise_dontneed usage_space statvfs config).
Proof.
  intros Hsz.
  assert (∀ k, total (ptask_passes clock others fadvise_dontneed usage_space statvfs config k)) as Hp.
  { intros k. apply total_bind.
    - apply total_snapshot. intros l. apply total_bind; [apply total_log, total_for|intros _; apply total_log, total_for];
        intros t; apply total_bind; auto using total_now; intros n; apply total_if; auto using total_drop, total_delete_ptask.
    - intros _. apply total_log, total_disk_usage; [done|]. intros n. apply total_bind; [apply total_metadata|].
      intros l. apply total_bind; [|intros; apply total_ret]. apply total_evict_loop; [apply total_ptask_space|].
      intros t. apply total_delete_ptask. }
  apply total_bind; [|intros _; apply total_bind; [|intros _; apply total_bind; auto]].
  - apply total_snapshot. intros l. apply total_bind; [apply total_log, total_for|intros _; apply total_log, total_for];
      intros t; apply total_bind; auto using total_now; intros n; apply total_if; [apply total_drop|].
    apply total_bind; [apply total_delete_task|]. intros _. apply total_event_yield.
  - apply total_log, total_disk_usage; [done|]. intros n. apply total_bind; [apply total_metadata|].
    intros l. apply total_bind; [|intros; apply total_ret]. apply total_evict_loop; [apply total_task_space|].
    intros t. apply total_bind; [apply total_delete_task|]. intros _. apply total_event_yield.
Qed.

(** *** The properties *)

(** The pass by time to live looks only at the age of a task: whatever the other
    tasks of the daemon do meanwhile, it deletes, from the storage and then from
    the scheduler, exactly the tasks of the snapshot that have expired when they
    come up, in order.  A task that is being uploaded is no exception, although the
    comment of the loop says so. *)
Theorem ttl_evicts_uploading (tasks : list Task) g :
  storage_ok (storage g) →
  wp (evict_task_by_ttl clock others config tasks) (λ r g', r = Ok tt ∧
    (∃ times, Forall2 (λ (_ : Task) t, ∃ n, t = clock n) tasks times ∧
      trace g' = trace g ++ (zip tasks times ≫= λ xt,
        if Task.is_expired xt.2 (task_ttl config) xt.1
        then [Deleted KTask (Task.id xt.1); DeletedFromScheduler (Task.id xt.1)] else [])) ∧
    ∀ task, task ∈ tasks → Task.is_uploading task = true →
      (∀ n, Task.is_expired (clock n) (task_ttl config) task = true) → Deleted KTask (Task.id task) ∈ trace g') g.
Proof.
  intros Hok. eapply wp_mono; [apply (snapshot_loop (λ t, Task.is_expired t (task_ttl config))
    _ (λ x, [Deleted KTask (Task.id x); DeletedFromScheduler (Task.id x)])); [|done]|].
  { intros x g1 Hok1. by apply evict_task_adds. }
  intros r g' (-> & _ & times & Hf & Ht). split; [done|]. split; [by exists times|].
  intros task Hin _ Hexp. rewrite Ht. apply elem_of_app. right. apply list_elem_of_bind.
  apply list_elem_of_lookup in Hin as [i Hi]. destruct (Forall2_lookup_l _ _ _ _ _ Hf Hi) as (t & Hti & n & ->).
  exists (task, clock n). cbn [fst snd]. rewrite Hexp. split; [by left|].
  apply list_elem_of_lookup. exists i. by rewrite lookup_zip_with, Hi; simpl; rewrite Hti.
Qed.

Lemma space_eviction_greedy_spec need tasks m' g :
  storage_ok (storage g) → Metadata.get_tasks (Storage.metadata (storage g)) = (Ok tasks, m') →
  (∀ t, t ∈ tasks → 0 ≤ default 0 (Task.content_length t)) →
  foldr Z.add 0 ((λ t, default 0 (Task.content_length t)) <$> tasks) ≤ u_max 64 →
  wp (evict_task_space clock others need) (λ r g', r = Ok tt ∧
    ∃ order decided, order ≡ₚ tasks ∧ StronglySorted (λ a b, Task.updated_at a ≤ Task.updated_at b) order ∧
      greedy task_verdict need 0 order decided ∧
      trace g' = trace g ++ (evicted decided ≫= λ t, [Deleted KTask (Task.id t); DeletedFromScheduler (Task.id t)])) g.
Proof.
  intros Hok Hget Hpos Hsum. unfold evict_task_space.
  eapply adds_bind; [apply (in_storage_adds _ (λ r, r = Ok tasks))| |done].
  { unfold Storage.in_metadata. rewrite Hget. eexists _, _. split; [done|]. split; [done|]. exact Hok. }
  intros tasks' g1 [= ->] Hok1 Ht1. apply wp_bind.
  pose proof (sort_by_perm Task.updated_at tasks) as Hperm.
  eapply wp_mono; [apply (evict_loop_spec (task_space clock) _ task_verdict
    (λ t, [Deleted KTask (Task.id t); DeletedFromScheduler (Task.id t)]) (λ t, default 0 (Task.content_length t)))|].
  - intros x g2 Hg2. by apply task_space_adds.
  - intros x g2 Hg2. by apply evict_task_adds.
  - intros x v [_ ->] Hin. rewrite Hperm in Hin. apply Hpos in Hin. lia.
  - intros x Hin. rewrite Hperm in Hin. by apply Hpos.
  - lia.
  - rewrite Z.add_0_l. etrans; [|exact Hsum]. apply Z.eq_le_incl, sum_perm. by apply fmap_Permutation.
  - done.
  - intros r g3 (_ & decided & Hg & -> & Ht3). unfold wp, mret, gm_mret, pr_mret. split; [done|].
    exists (sort_by Task.updated_at tasks), decided. split; [done|]. split; [apply sort_by_sorted|].
    split; [done|]. by rewrite Ht3, Ht1, app_nil_r.
Qed.

(** C31: The eviction for space takes the tasks from the least recently updated on,
    skips those that may not be evicted, deletes the others one by one from the
    storage and the scheduler, and stops as soon as they free what is needed: no
    task is deleted once enough is freed, and unless enough is freed every task was
    looked at. *)
Theorem space_eviction_greedy need tasks m' g :
  storage_ok (storage g) → Metadata.get_tasks (Storage.metadata (storage g)) = (Ok tasks, m') →
  (∀ t, t ∈ tasks → 0 ≤ default 0 (Task.content_length t)) →
  foldr Z.add 0 ((λ t, default 0 (Task.content_length t)) <$> tasks) ≤ u_max 64 →
  wp (evict_task_space clock others need) (λ r g', r = Ok tt ∧
    ∃ order decided, order ≡ₚ tasks ∧ StronglySorted (λ a b, Task.updated_at a ≤ Task.updated_at b) order ∧
      greedy task_verdict need 0 order decided ∧
      trace g' = trace g ++ (evicted decided ≫= λ t, [Deleted KTask (Task.id t); DeletedFromScheduler (Task.id t)])) g.
Proof. apply space_eviction_greedy_spec. Qed.

Lemma freed_bound (order : list Task) decided rest :
  order = decided.*1 ++ rest → Forall (λ d, task_verdict d.1 d.2) decided →
  (∀ t, t ∈ order → 0 ≤ default 0 (Task.content_length t)) →
  freed decided ≤ foldr Z.add 0 ((λ t, default 0 (Task.content_length t)) <$> order).
Proof.
  intros ->. induction decided as [|[t v] decided IH]; intros Hv Hpos; csimpl.
  - unfold freed. simpl. induction rest as [|t rest IH]; csimpl; [done|]. simpl in Hpos.
    specialize (IH (λ y Hy, Hpos y ltac:(by right))). specialize (Hpos t ltac:(by left)). lia.
  - apply Forall_cons in Hv as [Hv Hvs]. specialize (IH Hvs (λ y Hy, Hpos y ltac:(csimpl; by right))).
    specialize (Hpos t ltac:(csimpl; by left)). rewrite freed_cons. destruct v as [v|]; simpl in *; [destruct Hv as [_ ->]|]; lia.
Qed.

(** Thresholds that pass the validation can still be inverted, the low one above
    the high one.  A usage between them then makes the subtraction of the two bytes
    wrap: at least the whole disk is to be freed, and the pass considers every task
    there is, so that nothing that may be evicted survives. *)
Theorem inverted_thresholds_evict_all T u tasks m' g :
  Policy_validate config = true → 2 ≤ T < 2 ^ 53 → 0 ≤ u →
  disk_high_threshold_percent config ≤ u < disk_low_threshold_percent config →
  storage_ok (storage g) → Metadata.get_tasks (Storage.metadata (storage g)) = (Ok tasks, m') →
  (∀ t, t ∈ tasks → 0 ≤ default 0 (Task.content_length t)) →
  foldr Z.add 0 ((λ t, default 0 (Task.content_length t)) <$> tasks) < T →
  wp (evict_task_space clock others (need_evict_space config T u)) (λ r g',
    ∃ decided, decided.*1 ≡ₚ tasks ∧ Forall (λ d, task_verdict d.1 d.2) decided ∧
      trace g' = trace g ++ (evicted decided ≫= λ t, [Deleted KTask (Task.id t); DeletedFromScheduler (Task.id t)])) g.
Proof.
  intros Hval HT Hu Hlt Hok Hget Hpos Hsum. pose proof (percent_inverted config T u Hval HT Hu Hlt) as Hneed.
  eapply wp_mono; [eapply space_eviction_greedy_spec; [done|exact Hget|done|unfold u_max; lia]|].
  intros r g' (_ & order & decided & Hperm & _ & [(rest & Hord & Hrest) Hv _] & Ht).
  exists decided. split; [|done]. rewrite <- Hperm, Hord. destruct Hrest as [->|Hrest]; [by rewrite app_nil_r|]. exfalso.
  pose proof (freed_bound order decided rest Hord Hv) as Hb.
  rewrite (sum_perm _ _ (fmap_Permutation (λ t, default 0 (Task.content_length t)) _ _ Hperm)) in Hb.
  specialize (Hb (λ t Ht, Hpos t (proj1 (elem_of_Permutation_proper t _ _ Hperm) Ht))). lia.
Qed.

(** A tick always comes to its end, whatever the storage, the file system and the
    other tasks answer, as long as the disk has a size: a pass that fails never
    keeps the later ones from running, and the cache stays well formed. *)
Theorem tick_ends g :
  disk_sized → storage_ok (storage g) →
  ∃ r g', tick clock others fadvise_dontneed usage_space statvfs config g = Some (r, g') ∧ storage_ok (storage g').
Proof.
  intros Hsz Hok. pose proof (tick_total Hsz g Hok) as Hw. unfold wp in Hw.
  destruct (tick _ _ _ _ _ _ g) as [[r g']|]; [|done]. by exists r, g'.
Qed.
End passes.

(** After an eviction that frees what is asked for, the disk usage is at the low
    threshold, up to one percent of rounding: the product of the total space and
    the percentage, computed in double precision, is never short by more. *)
Theorem eviction_reaches_low config T a a' u :
  0 ≤ disk_low_threshold_percent config → 2 ^ 7 ≤ T < 2 ^ 53 → 0 ≤ a ≤ T →
  usage_percent a T = Some u → disk_low_threshold_percent config ≤ u →
  a + need_evict_space config T u ≤ a' ≤ T →
  ∃ u', usage_percent a' T = Some u' ∧ u' ≤ disk_low_threshold_percent config + 1.
Proof. apply percent_reached. Qed.
End GCFacts.

(** ** Witnesses: the in-memory engine and disk *)

From S2P Require Import MemEngine.

Module GCWitness.
Import GC GCFacts MetadataWitness StorageWitness.
#[local] Existing Instance mem_content.

Definition policy : Policy := mkPolicy 0 0 1000 80 60.
Definition inverted : Policy := mkPolicy 0 0 1000 50 90.
Definition quiet (n : nat) (s : S) : S := s.
Definition no_fadvise (_ : Kind) (_ : string) : ST Disk DFError unit := λ d, (Ok tt, d).
Definition used (_ : Disk) : Z := 700.
Definition no_statvfs (_ : Disk) : Result (Z * Z) := Ok (0, 0).

(** A finished task of ten bytes. *)
Definition finished_task : Metadata.Metadata MemDB := after (Metadata.download_task_finished clock tid) started.
Definition g0 : GC (E := MemDB) (L := LCache) (C := Disk) := mkGC (with_metadata finished_task) [].

Lemma quiet_ok (n : nat) (s : S) : storage_ok s → storage_ok (quiet n s).
Proof. done. Qed.
Lemma g0_ok : storage_ok (storage g0).
Proof. destruct cache_one_inv as (t & Hinv & _). by exists [(tid, t)]. Qed.

(** An old task that is being uploaded. *)
Definition uploading_task : Task := Task.mkTask tid None (Some 10) ∅ 1 0 (-1000) (-1000) None None (Some 0).

Lemma ttl_evicts_uploading_witness :
  Task.is_uploading uploading_task = true ∧
  wp (evict_task_by_ttl clock quiet policy [uploading_task]) (λ r g', Deleted KTask tid ∈ trace g') g0.
Proof.
  split; [reflexivity|].
  eapply wp_mono; [apply (ttl_evicts_uploading clock quiet policy quiet_ok [uploading_task] g0 g0_ok)|].
  intros r g' (_ & _ & Hup). apply (Hup uploading_task); [by left|reflexivity|].
  intros n. apply Z.ltb_lt. unfold clock, secs. simpl. lia.
Defined.

(** The tasks of the store. *)
Definition stored : list Task := value [] Metadata.get_tasks finished_task.
Lemma stored_read : Metadata.get_tasks (Storage.metadata (storage g0)) = (Ok stored, after Metadata.get_tasks finished_task).
Proof. apply (run_ok []). vm_compute. reflexivity. Qed.
Lemma stored_lengths : (Task.content_length <$> stored) = [Some 10].
Proof. vm_compute. reflexivity. Qed.
Lemma stored_positive t : t ∈ stored → 0 ≤ default 0 (Task.content_length t).
Proof.
  intros Hin. assert (Task.content_length t ∈ [Some 10]) as Hl.
  { rewrite <- stored_lengths. apply list_elem_of_fmap. by exists t. }
  apply list_elem_of_singleton in Hl as ->. simpl. lia.
Qed.
Lemma stored_sum : foldr Z.add 0 ((λ t, default 0 (Task.content_length t)) <$> stored) = 10.
Proof. vm_compute. reflexivity. Qed.

Lemma space_eviction_greedy_witness :
  ∃ order decided, wp (evict_task_space clock quiet 5) (λ r g', trace g' = [Deleted KTask tid; DeletedFromScheduler tid]) g0 ∧
    order ≡ₚ stored ∧ greedy (task_verdict clock) 5 0 order decided.
Proof.
  pose proof (space_eviction_greedy clock quiet quiet_ok 5 stored _ g0 g0_ok stored_read stored_positive) as Hw.
  rewrite stored_sum in Hw. specialize (Hw ltac:(by vm_compute)).
  assert (option_map (λ x, trace x.2) (evict_task_space clock quiet 5 g0) = Some [Deleted KTask tid; DeletedFromScheduler tid]) as Ht
    by (vm_compute; reflexivity).
  unfold wp in *. destruct (evict_task_space clock quiet 5 g0) as [[r g']|]; [|done].
  destruct Hw as (_ & order & decided & Hperm & _ & Hg & _). injection Ht as Ht. exists order, decided. done.
Defined.

Lemma inverted_thresholds_evict_all_witness :
  Policy_validate inverted = true ∧ usage_percent 300 1000 = Some 70 ∧
  wp (evict_task_space clock quiet (need_evict_space inverted 1000 70)) (λ r g', Deleted KTask tid ∈ trace g') g0.
Proof.
  split; [reflexivity|]. split; [reflexivity|].
  pose proof (inverted_thresholds_evict_all clock quiet inverted quiet_ok 1000 70 stored _ g0 eq_refl
    ltac:(by vm_compute) ltac:(by vm_compute) ltac:(by vm_compute) g0_ok stored_read stored_positive) as Hw.
  rewrite stored_sum in Hw. specialize (Hw ltac:(by vm_compute)).
  assert (option_map (λ x, trace x.2) (evict_task_space clock quiet (need_evict_space inverted 1000 70) g0) =
    Some [Deleted KTask tid; DeletedFromScheduler tid]) as Ht by (vm_compute; reflexivity).
  unfold wp in *. destruct (evict_task_space _ _ _ g0) as [[r g']|]; [|done]. injection Ht as ->. by left.
Defined.

Lemma tick_ends_witness :
  ∃ r g', tick clock quiet no_fadvise used no_statvfs policy g0 = Some (r, g') ∧ storage_ok (storage g').
Proof.
  apply (tick_ends clock quiet no_fadvise used no_statvfs policy quiet_ok g0); [|exact g0_ok]. left. simpl. lia.
Defined.

Lemma eviction_reaches_low_witness : ∃ u', usage_percent 450 1000 = Some u' ∧ u' ≤ 61.
Proof.
  apply (eviction_reaches_low policy 1000 150 450 85);
    [simpl; lia|lia|lia|reflexivity|simpl; lia|vm_compute; split; congruence].
Defined.
End GCWitness.
