(* ===== verification/UrmaControl.v ===== *)
(** * The control dispatcher of a lane

    Models [src/dragonfly-client-storage/src/urma/control.rs]: one reader and one
    writer task own the control connection of a lane, and every piece transfer has
    an inbox of its own.

    The tasks interleave at their awaits and locks: [act] is one uninterrupted run
    of one of them, and [None] means it has to wait.  Dropping a [TransferControl]
    takes two locks one after the other and is two actions, and so is finishing one,
    which removes its route twice.  The reader is the exception: it looks up the route
    of a frame and hands the frame over in one action, so that no control is dropped
    between the two.  [reads] and [received] only record what happened. *)

From S2P Require Import Prelude Errors Engine Wire UrmaBuffer UrmaLane UrmaCompletion UrmaSession.
From Stdlib Require Import ZArith Lia String.
From stdpp Require Import base tactics numbers list gmap strings pretty.
Local Open Scope Z_scope.

Module Control.
Import Urma Session.

Definition FRAME_QUEUE_CAPACITY : nat := 16.

(** [enum TransferEvent]. *)
Inductive TransferEvent : Type := EFrame (frame : Frame) | Closed (message : string).

(** [struct TransferControl]; [since] counts the frames read before it was registered;
    [stage] says whether it is still owned, or the drop of a cancelled or of a completed
    one is under way. *)
Inductive Stage : Type := Owned | Cancelled | Completed.
Record TransferControl := mkControl {
  control_id : TransferId;
  inbox : list TransferEvent;
  received : list Frame;
  since : nat;
  stage : Stage;
}.
Definition dropping (c : TransferControl) : bool := match stage c with Owned => false | _ => true end.

(** [struct LaneControl] with its tasks: the controls in existence by the identity of
    their channel, the free permits of the admission. *)
Record LaneControl := mkLane {
  routes : gmap TransferId nat;
  retired : gset TransferId;
  controls : gmap nat TransferControl;
  incoming : list (PieceRequest * nat);
  admission : Z;
  writer : list Frame;
  shutdown : bool;
  next_channel : nat;
  reads : list Frame;
}.

(** [LaneControl::spawn]. *)
Definition spawn (max_concurrent_transfers : Z) : Result LaneControl :=
  if max_concurrent_transfers =? 0 then
    Err (Protocol "URMA lane must allow at least one concurrent transfer")
  else Ok (mkLane ∅ ∅ ∅ [] max_concurrent_transfers [] false 0 []).

Definition set_routes (r : gmap TransferId nat) (l : LaneControl) : LaneControl :=
  mkLane r (retired l) (controls l) (incoming l) (admission l) (writer l) (shutdown l) (next_channel l) (reads l).
Definition set_retired (r : gset TransferId) (l : LaneControl) : LaneControl :=
  mkLane (routes l) r (controls l) (incoming l) (admission l) (writer l) (shutdown l) (next_channel l) (reads l).
Definition set_controls (c : gmap nat TransferControl) (l : LaneControl) : LaneControl :=
  mkLane (routes l) (retired l) c (incoming l) (admission l) (writer l) (shutdown l) (next_channel l) (reads l).
Definition set_incoming (i : list (PieceRequest * nat)) (l : LaneControl) : LaneControl :=
  mkLane (routes l) (retired l) (controls l) i (admission l) (writer l) (shutdown l) (next_channel l) (reads l).
Definition set_admission (n : Z) (l : LaneControl) : LaneControl :=
  mkLane (routes l) (retired l) (controls l) (incoming l) n (writer l) (shutdown l) (next_channel l) (reads l).
Definition set_writer (w : list Frame) (l : LaneControl) : LaneControl :=
  mkLane (routes l) (retired l) (controls l) (incoming l) (admission l) w (shutdown l) (next_channel l) (reads l).
Definition set_shutdown (l : LaneControl) : LaneControl :=
  mkLane (routes l) (retired l) (controls l) (incoming l) (admission l) (writer l) true (next_channel l) (reads l).
Definition set_reads (r : list Frame) (l : LaneControl) : LaneControl :=
  mkLane (routes l) (retired l) (controls l) (incoming l) (admission l) (writer l) (shutdown l) (next_channel l) r.

Definition push (e : TransferEvent) (c : TransferControl) : TransferControl :=
  mkControl (control_id c) (inbox c ++ [e]) (received c) (since c) (stage c).
(** [Sender::try_send]: a full inbox drops the event. *)
Definition try_push (e : TransferEvent) (c : TransferControl) : TransferControl :=
  if (List.length (inbox c) <? FRAME_QUEUE_CAPACITY)%nat then push e c else c.

(** [close_all]. *)
Definition close_all (message : string) (l : LaneControl) : LaneControl :=
  set_routes ∅ (set_controls
    (map_imap (λ n c, Some (if bool_decide (routes l !! control_id c = Some n) then try_push (Closed message) c else c))
       (controls l)) l).
(** [close_all(..); shutdown.send(true); return]. *)
Definition stop (message : string) (l : LaneControl) : LaneControl := set_shutdown (close_all message l).

(** [register_transfer]; a permit that is not kept returns. *)
Definition register_transfer (id : TransferId) (l : LaneControl) : Result nat * LaneControl :=
  if bool_decide (id ∈ retired l) then
    (Err (Protocol ("retired URMA transfer id " +:+ pretty id +:+ " cannot be reused")),
     set_admission (admission l + 1) l)
  else if bool_decide (is_Some (routes l !! id)) then
    (Err (Protocol ("duplicate URMA transfer id " +:+ pretty id)), set_admission (admission l + 1) l)
  else
    let n := next_channel l in
    (Ok n, mkLane (<[id := n]> (routes l)) (retired l)
             (<[n := mkControl id [] [] (List.length (reads l)) Owned]> (controls l)) (incoming l) (admission l) (writer l)
             (shutdown l) (S n) (reads l)).

(** [LaneControl::register]. *)
Definition register (id : TransferId) (l : LaneControl) : Result nat * LaneControl :=
  if id =? 0 then (Err (Protocol "transfer_id 0 is reserved for the lane"), l)
  else if admission l <=? 0 then
    (Err (PeerRejected ERROR_CODE_BUSY "URMA lane transfer admission is full"), l)
  else register_transfer id (set_admission (admission l - 1) l).

Section reader.
Context (show_frame : Frame → string).

(** [writer.send(frame).await]: waits while the queue is full, and loses the frame when
    the writer has stopped. *)
Definition send_frame (frame : Frame) (l : LaneControl) : option LaneControl :=
  if shutdown l then Some l
  else if (List.length (writer l) <? FRAME_QUEUE_CAPACITY)%nat then Some (set_writer (writer l ++ [frame]) l)
  else None.

(** The reader task after it has read [frame].  The queue of incoming transfers has
    room for as many as there are permits, and is open while the lane exists. *)
Definition read_one (frame : Frame) (l : LaneControl) : option LaneControl :=
  let l := set_reads (reads l ++ [frame]) l in
  match frame with
  | Wire.Request id request =>
      if id =? 0 then Some (stop "received an URMA Piece request with transfer_id 0" l)
      else if admission l <=? 0 then
        send_frame (Wire.FError id (Wire.mkRendezvousError ERROR_CODE_BUSY "URMA lane transfer admission is full")) l
      else
        match register_transfer id (set_admission (admission l - 1) l) with
        | (Err error, l) => Some (stop (Error_fmt error) l)
        | (Ok n, l) => Some (set_incoming (incoming l ++ [(request, n)]) l)
        end
  | _ =>
      match Wire.transfer_id frame with
      | None => Some (stop ("unexpected lane control frame: " +:+ show_frame frame) l)
      | Some id =>
          match routes l !! id with
          | None =>
              if bool_decide (id ∈ retired l) then Some l
              else Some (stop ("control frame for unknown URMA transfer " +:+ pretty id) l)
          | Some n =>
              match controls l !! n with
              | None => Some (set_routes (delete id (routes l)) l)
              | Some c =>
                  if (List.length (inbox c) <? FRAME_QUEUE_CAPACITY)%nat
                  then Some (set_controls (<[n := push (EFrame frame) c]> (controls l)) l)
                  else None
              end
          end
      end
  end.

(** ** Actions *)

Inductive Action : Type :=
| Register (id : TransferId)
| ReadFrame (frame : Frame)
| ReadFailed (error : string)
| Accept
| Send (n : nat) (frame : Frame)
| WriteFrame
| WriteFailed (error : string)
| Receive (n : nat)
| FinishRoute (n : nat)
| FinishDrop (n : nat)
| DropRoute (n : nat)
| DropRetire (n : nat)
| AbortLane (message : string).

(** [TransferControl::receive]. *)
Definition receive (n : nat) (c : TransferControl) (l : LaneControl) : option (Result Frame * LaneControl) :=
  match inbox c with
  | EFrame f :: rest =>
      Some (Ok f, set_controls (<[n := mkControl (control_id c) rest (received c ++ [f]) (since c) (stage c)]> (controls l)) l)
  | Closed message :: rest =>
      Some (Err (Protocol message), set_controls (<[n := mkControl (control_id c) rest (received c) (since c) (stage c)]> (controls l)) l)
  | [] =>
      if bool_decide (routes l !! control_id c = Some n) then None
      else Some (Err (Protocol "URMA transfer control inbox is closed"), l)
  end.

(** [TransferControl::send]. *)
Definition send (frame : Frame) (c : TransferControl) (l : LaneControl) : option LaneControl :=
  if bool_decide (Wire.transfer_id frame = Some (control_id c)) then send_frame frame l else Some l.

(** [TransferControl::finish], and the drop at its end, which removes the route again;
    the permit returns with it. *)
Definition finish (n : nat) (c : TransferControl) (l : LaneControl) : LaneControl :=
  set_controls (<[n := mkControl (control_id c) (inbox c) (received c) (since c) Completed]> (controls l))
    (set_routes (delete (control_id c) (routes l)) l).
Definition finish_drop (n : nat) (c : TransferControl) (l : LaneControl) : LaneControl :=
  set_admission (admission l + 1)
    (set_controls (delete n (controls l)) (set_routes (delete (control_id c) (routes l)) l)).

(** [Drop for TransferControl] of a transfer that was not finished, its first lock and the
    rest. *)
Definition drop_route (n : nat) (c : TransferControl) (l : LaneControl) : LaneControl :=
  set_controls (<[n := mkControl (control_id c) (inbox c) (received c) (since c) Cancelled]> (controls l))
    (set_routes (delete (control_id c) (routes l)) l).
Definition drop_retire (n : nat) (c : TransferControl) (l : LaneControl) : LaneControl :=
  set_admission (admission l + 1)
    (set_controls (delete n (controls l)) (set_retired ({[control_id c]} ∪ retired l) l)).

(** The control [n] while its owner has it. *)
Definition owned (n : nat) (l : LaneControl) : option TransferControl :=
  c ← controls l !! n; if dropping c then None else Some c.

Definition act (a : Action) (l : LaneControl) : option LaneControl :=
  match a with
  | Register id => Some (register id l).2
  | ReadFrame frame => if shutdown l then None else read_one frame l
  | ReadFailed error => if shutdown l then None else Some (stop ("URMA control read failed: " +:+ error) l)
  | Accept => match incoming l with [] => None | _ :: rest => Some (set_incoming rest l) end
  | Send n frame => c ← owned n l; send frame c l
  | WriteFrame => match writer l with [] => None | _ :: rest => if shutdown l then None else Some (set_writer rest l) end
  | WriteFailed error => if shutdown l then None else Some (stop ("URMA control write failed: " +:+ error) l)
  | Receive n => c ← owned n l; snd <$> receive n c l
  | FinishRoute n => c ← owned n l; Some (finish n c l)
  | FinishDrop n => c ← controls l !! n; match stage c with Completed => Some (finish_drop n c l) | _ => None end
  | DropRoute n => c ← owned n l; Some (drop_route n c l)
  | DropRetire n => c ← controls l !! n; match stage c with Cancelled => Some (drop_retire n c l) | _ => None end
  | AbortLane message => Some (stop message l)
  end.
End reader.
End Control.
