(* ===== verification/UrmaControlFacts.v ===== *)
(** * Correctness of the control dispatcher

    Every transfer sees its own frames, in order, as if it had a connection of its
    own; no permit is lost; and what a late frame does. *)

From S2P Require Import Prelude Errors Engine Wire UrmaBuffer UrmaLane UrmaCompletion UrmaSession UrmaControl.
From Stdlib Require Import ZArith Lia String.
From stdpp Require Import base tactics numbers list gmap strings pretty.
Local Open Scope Z_scope.

Module ControlFacts.
Import Urma Session Control.
Section control.
Context (show_frame : Frame → string).
Implicit Types (l : LaneControl) (c : TransferControl).

(** The frames of transfer [id] among those read; a request opens a transfer and is
    not one of its frames. *)
Definition is_request (f : Frame) : bool := match f with Wire.Request _ _ => true | _ => false end.
Definition belongs (id : TransferId) (f : Frame) : bool :=
  bool_decide (Wire.transfer_id f = Some id) && negb (is_request f).
Definition mine (id : TransferId) (fs : list Frame) : list Frame := filter (λ f, belongs id f = true) fs.

(** The frames a control has got. *)
Definition event_frame (e : TransferEvent) : option Frame := match e with EFrame f => Some f | Closed _ => None end.
Definition got c : list Frame := received c ++ omap event_frame (inbox c).
(** Those that were read for it. *)
Definition due l c : list Frame := mine (control_id c) (drop (since c) (reads l)).

Record lane_inv (max : Z) l : Prop := {
  li_routed : ∀ id n, routes l !! id = Some n → ∃ c, controls l !! n = Some c ∧ control_id c = id ∧
                dropping c = false ∧ got c = due l c;
  li_prefix : ∀ n c, controls l !! n = Some c → got c `prefix_of` due l c ∧ (n < next_channel l)%nat ∧
                (since c ≤ List.length (reads l))%nat;
  li_permits : admission l + Z.of_nat (size (controls l)) = max;
  li_free : 0 ≤ admission l;
}.

Lemma mine_app id a b : mine id (a ++ b) = mine id a ++ mine id b.
Proof. apply filter_app. Qed.

Lemma due_read l c f :
  (since c ≤ List.length (reads l))%nat →
  due (set_reads (reads l ++ [f]) l) c = due l c ++ (if belongs (control_id c) f then [f] else []).
Proof.
  intros Hs. unfold due. simpl. rewrite drop_app_le by done. rewrite mine_app. f_equal. unfold mine.
  rewrite filter_cons, filter_nil. destruct (belongs (control_id c) f); [by rewrite decide_True|by rewrite decide_False].
Qed.

(** A change of one control that keeps what it got. *)
Lemma got_push e c : got (push e c) = got c ++ omap event_frame [e].
Proof. unfold got. simpl. by rewrite omap_app, app_assoc. Qed.
Lemma got_try_push m c : got (try_push (Closed m) c) = got c ∧ control_id (try_push (Closed m) c) = control_id c ∧
  since (try_push (Closed m) c) = since c.
Proof. unfold try_push. destruct (_ <? _)%nat; [|done]. split; [|done]. rewrite got_push. apply app_nil_r. Qed.

(** Stopping keeps every control and what it got. *)
Lemma stop_inv max l m :
  (∀ n c, controls l !! n = Some c → got c `prefix_of` due l c ∧ (n < next_channel l)%nat ∧ (since c ≤ List.length (reads l))%nat) →
  admission l + Z.of_nat (size (controls l)) = max → 0 ≤ admission l → lane_inv max (stop m l).
Proof.
  intros Hp Hperm Hf. split; simpl.
  - intros id n Hn. by rewrite lookup_empty in Hn.
  - intros n c Hc. rewrite map_lookup_imap in Hc. destruct (controls l !! n) as [c0|] eqn:H0; [|done]. simpl in Hc.
    injection Hc as <-. destruct (Hp n c0 H0) as (Hpre & Hn & Hs).
    case_bool_decide; [|done]. destruct (got_try_push m c0) as (Hg & Hid & Hsi). unfold due in *. simpl.
    rewrite Hg, Hid, Hsi. done.
  - rewrite <- Hperm. f_equal. f_equal. rewrite <- !size_dom. f_equal. apply set_eq. intros n. rewrite !elem_of_dom.
    rewrite map_lookup_imap. destruct (controls l !! n); simpl; split; intros [? ?]; by eauto.
  - done.
Qed.

(** Registering with a permit in hand. *)
Lemma register_transfer_inv max id l :
  lane_inv max l → 1 ≤ admission l →
  lane_inv max (register_transfer id (set_admission (admission l - 1) l)).2.
Proof.
  intros [Hr Hp Hperm Hf] H1.
  assert (lane_inv max (set_admission (admission l - 1 + 1) (set_admission (admission l - 1) l))) as Hback.
  { split; simpl; [exact Hr|exact Hp|lia|lia]. }
  unfold register_transfer. simpl. case_bool_decide; [exact Hback|]. case_bool_decide as Hroute; [exact Hback|]. simpl.
  assert (controls l !! next_channel l = None) as Hnew.
  { destruct (controls l !! next_channel l) eqn:Hc; [|done]. apply Hp in Hc as (_ & ? & _). lia. }
  assert (∀ c, since c = List.length (reads l) → due l c = []) as Hdue.
  { intros c Hs. unfold due. by rewrite Hs, drop_all. }
  split; simpl.
  - intros id' n [[<- <-]|[Hne Hn]]%lookup_insert_Some.
    + eexists. rewrite lookup_insert_eq. split; [done|]. split; [done|]. split; [done|]. symmetry. by apply Hdue.
    + destruct (Hr id' n Hn) as (c & Hc & Hrest). exists c. split; [|exact Hrest].
      rewrite lookup_insert_ne; [done|]. intros <-. by rewrite Hnew in Hc.
  - intros n c [[<- <-]|[Hne Hn]]%lookup_insert_Some.
    + split; [apply prefix_nil|]. simpl. lia.
    + destruct (Hp n c Hn) as (? & ? & ?). split; [done|]. split; [lia|done].
  - rewrite map_size_insert_None by done. lia.
  - lia.
Qed.

(** Reading a frame that belongs to no routed control keeps the invariant. *)
Lemma read_unrouted_inv max f l :
  lane_inv max l → (∀ id n, routes l !! id = Some n → belongs id f = false) →
  lane_inv max (set_reads (reads l ++ [f]) l).
Proof.
  intros [Hr Hp Hperm Hf] Hun. split; simpl; [| |done|done].
  - intros id n Hn. destruct (Hr id n Hn) as (c & Hc & Hid & Hd & Hg). exists c. split; [done|]. split; [done|]. split; [done|].
    destruct (Hp n c Hc) as (_ & _ & Hs). rewrite due_read by done. by rewrite Hid, (Hun id n Hn), app_nil_r.
  - intros n c Hc. destruct (Hp n c Hc) as (Hpre & Hn & Hs). rewrite due_read by done. rewrite length_app. split; [|simpl; lia].
    by apply prefix_app_r.
Qed.

(** Replacing one control by one that got the same frames. *)
Lemma control_step_inv max l n c c' :
  lane_inv max l → controls l !! n = Some c → got c' = got c → control_id c' = control_id c → since c' = since c →
  stage c' = stage c → lane_inv max (set_controls (<[n := c']> (controls l)) l).
Proof.
  intros [Hr Hp Hperm Hf] Hc Hg Hid Hs Hst. assert (dropping c' = dropping c) as Hd by (unfold dropping; by rewrite Hst). assert (due l c' = due l c) as Hdue by (unfold due; by rewrite Hid, Hs).
  split; simpl.
  - intros id m Hm. destruct (Hr id m Hm) as (c0 & Hc0 & H1 & H2 & H3). destruct (decide (n = m)) as [<-|Hne].
    + rewrite Hc in Hc0. injection Hc0 as <-. exists c'. rewrite lookup_insert_eq. split; [done|]. split; [congruence|].
      split; [congruence|]. change (got c' = due l c'). congruence.
    + exists c0. rewrite lookup_insert_ne by done. done.
  - intros m c0 [[<- <-]|[Hne Hm]]%lookup_insert_Some; [|by apply Hp].
    destruct (Hp n c Hc) as (? & ? & ?). change (got c' `prefix_of` due l c' ∧ (n < next_channel l)%nat ∧ (since c' ≤ List.length (reads l))%nat).
    rewrite Hg, Hdue, Hs. done.
  - rewrite map_size_insert_Some by by eexists. done.
  - done.
Qed.

(** A frame of a routed transfer goes to its inbox. *)
Lemma control_deliver_inv max f id n c l :
  lane_inv max l → routes l !! id = Some n → controls l !! n = Some c → belongs id f = true →
  lane_inv max (set_controls (<[n := push (EFrame f) c]> (controls l)) (set_reads (reads l ++ [f]) l)).
Proof.
  intros [Hr Hp Hperm Hf] Hrt Hc Hb. destruct (Hr id n Hrt) as (c0 & Hc0 & Hid & Hd & Hg).
  rewrite Hc in Hc0. injection Hc0 as <-. destruct (Hp n c Hc) as (Hpre & Hn & Hs).
  assert (got (push (EFrame f) c) = due (set_reads (reads l ++ [f]) l) (push (EFrame f) c)) as Hnew.
  { change (due (set_reads (reads l ++ [f]) l) (push (EFrame f) c)) with (due (set_reads (reads l ++ [f]) l) c).
    rewrite got_push, due_read by done. by rewrite Hid, Hb, Hg. }
  split; simpl.
  - intros id' m Hm. destruct (Hr id' m Hm) as (c0 & Hc0 & H1 & H2 & H3). destruct (decide (n = m)) as [<-|Hne].
    + rewrite Hc in Hc0. injection Hc0 as <-. exists (push (EFrame f) c). rewrite lookup_insert_eq. done.
    + exists c0. rewrite lookup_insert_ne by done. split; [done|]. split; [done|]. split; [done|].
      destruct (Hp m c0 Hc0) as (_ & _ & Hs0). change (got c0 = due (set_reads (reads l ++ [f]) l) c0). rewrite due_read by done.
      assert (belongs (control_id c0) f = false) as ->; [|by rewrite app_nil_r].
      destruct (belongs (control_id c0) f) eqn:Hb'; [|done]. exfalso. apply Hne.
      unfold belongs in Hb, Hb'. apply andb_true_iff in Hb as [Hb%bool_decide_eq_true _].
      apply andb_true_iff in Hb' as [Hb'%bool_decide_eq_true _]. rewrite Hb in Hb'. injection Hb' as Heq. rewrite <- Heq in H1. subst id'.
      rewrite Hrt in Hm. by injection Hm.
  - intros m c0 [[<- <-]|[Hne Hm]]%lookup_insert_Some.
    + rewrite length_app. simpl. split; [|lia]. exists []. rewrite app_nil_r. symmetry. exact Hnew.
    + destruct (Hp m c0 Hm) as (Hpre0 & Hn0 & Hs0). rewrite length_app. simpl. split; [|lia].
      change (got c0 `prefix_of` due (set_reads (reads l ++ [f]) l) c0). rewrite due_read by done. by apply prefix_app_r.
  - rewrite map_size_insert_Some by by eexists. done.
  - done.
Qed.

Lemma send_frame_inv max f l l' : lane_inv max l → send_frame f l = Some l' → lane_inv max l'.
Proof.
  intros Hl. unfold send_frame. destruct (shutdown l); [by intros [= <-]|]. destruct (_ <? _)%nat; [|done].
  intros [= <-]. destruct Hl as [Hr Hp Hperm Hf]. by split.
Qed.

Lemma read_one_inv max f l l' : lane_inv max l → read_one show_frame f l = Some l' → lane_inv max l'.
Proof.
  intros Hl. pose proof Hl as [Hr Hp Hperm Hf]. set (l1 := set_reads (reads l ++ [f]) l).
  assert (∀ m, lane_inv max (stop m l1)) as Hstop.
  { intros m. apply stop_inv; [|done|done]. intros n c Hc. destruct (Hp n c Hc) as (Hpre & Hn & Hs). unfold l1. rewrite due_read by done.
    split; [by apply prefix_app_r|]. simpl. rewrite length_app. simpl. lia. }
  assert (is_request f = true → lane_inv max l1) as Hreq.
  { intros H. apply read_unrouted_inv; [done|]. intros id n _. unfold belongs. by rewrite H, andb_false_r. }
  assert (∀ id, is_request f = false → Wire.transfer_id f = Some id →
    match routes l1 !! id with
    | None => if bool_decide (id ∈ retired l1) then Some l1
              else Some (stop ("control frame for unknown URMA transfer " +:+ pretty id) l1)
    | Some n =>
        match controls l1 !! n with
        | None => Some (set_routes (delete id (routes l1)) l1)
        | Some c =>
            if (List.length (inbox c) <? FRAME_QUEUE_CAPACITY)%nat
            then Some (set_controls (<[n := push (EFrame f) c]> (controls l1)) l1) else None
        end
    end = Some l' → lane_inv max l') as Hroute.
  { intros id Hq Hid. destruct (routes l1 !! id) as [n|] eqn:Hn; simpl in Hn.
    - destruct (Hr id n Hn) as (c & Hc & _). change (controls l1 !! n) with (controls l !! n). rewrite Hc.
      destruct (_ <? _)%nat; [|done]. intros [= <-]. eapply control_deliver_inv; [done|done|done|].
      unfold belongs. by rewrite Hq, bool_decide_true.
    - case_bool_decide; intros [= <-]; [|done]. apply read_unrouted_inv; [done|]. intros id' n Hn'. unfold belongs.
      rewrite bool_decide_false; [done|]. rewrite Hid. intros [= ->]. by rewrite Hn in Hn'. }
  unfold read_one. fold l1. destruct f; simpl in Hroute |- *; try (intros [= <-]; apply Hstop); try by apply (Hroute _ eq_refl eq_refl).
  destruct (transfer_id =? 0); [intros [= <-]; apply Hstop|]. specialize (Hreq eq_refl).
  destruct (Z.leb_spec (admission l) 0); [by apply send_frame_inv|].
  pose proof (register_transfer_inv max transfer_id l1 Hreq ltac:(simpl; lia)) as Hreg. simpl in Hreg.
  destruct (register_transfer _ _) as [[n|e] l2]; simpl in Hreg; intros [= <-].
  - destruct Hreg as [Hr2 Hp2 Hperm2 Hf2]. by split.
  - destruct Hreg as [Hr2 Hp2 Hperm2 Hf2]. by apply stop_inv.
Qed.

Lemma owned_Some n l c : owned n l = Some c ↔ controls l !! n = Some c ∧ dropping c = false.
Proof.
  unfold owned. destruct (controls l !! n) as [c0|]; simpl; [|by split; [|intros [? ?]]].
  destruct (dropping c0) eqn:Hd; split; [done|intros [[= <-] ?]; congruence|by intros [= <-]|by intros [[= <-] _]].
Qed.

Lemma remove_route_inv max l id : lane_inv max l → lane_inv max (set_routes (delete id (routes l)) l).
Proof.
  intros [Hr Hp Hperm Hf]. split; [|done..]. intros id' n Hn. simpl in Hn.
  apply lookup_delete_Some in Hn as [_ Hn]. by apply Hr.
Qed.

Lemma remove_control_inv max l n c :
  lane_inv max l → controls l !! n = Some c → (∀ id, routes l !! id ≠ Some n) →
  lane_inv max (set_admission (admission l + 1) (set_controls (delete n (controls l)) l)).
Proof.
  intros [Hr Hp Hperm Hf] Hc Hno. split; simpl.
  - intros id m Hm. destruct (Hr id m Hm) as (c0 & Hc0 & Hrest). exists c0. rewrite lookup_delete_ne; [done|].
    intros <-. by apply (Hno id).
  - intros m c0 [_ Hm]%lookup_delete_Some. by apply Hp.
  - rewrite map_size_delete_Some by by eexists. assert (size (controls l) ≠ 0%nat) by (eapply map_size_ne_0_lookup_2; eauto). lia.
  - lia.
Qed.

(** The first half of a drop: the route of the control goes and the control stays. *)
Lemma dropping_inv max l n c st :
  lane_inv max l → controls l !! n = Some c →
  lane_inv max (set_controls (<[n := mkControl (control_id c) (inbox c) (received c) (since c) st]> (controls l))
                  (set_routes (delete (control_id c) (routes l)) l)).
Proof.
  intros Hl Hc. pose proof (remove_route_inv max l (control_id c) Hl) as [Hr1 Hp1 Hperm1 Hf1]. split; simpl in *.
  - intros id m Hm. destruct (Hr1 id m Hm) as (c0 & Hc0 & Hid & Hrest). exists c0. rewrite lookup_insert_ne; [done|].
    intros <-. rewrite Hc in Hc0. injection Hc0 as <-. apply lookup_delete_Some in Hm as [Hne _]. by destruct Hne.
  - intros m c0 [[<- <-]|[_ Hm]]%lookup_insert_Some; [|by apply Hp1]. by apply (Hp1 n c).
  - rewrite map_size_insert_Some by by eexists. done.
  - done.
Qed.

Lemma act_inv max a l l' : lane_inv max l → act show_frame a l = Some l' → lane_inv max l'.
Proof.
  intros Hl. pose proof Hl as [Hr Hp Hperm Hf].
  assert (∀ m, lane_inv max (stop m l)) as Hstop by (intros; by apply stop_inv).
  assert (∀ n c, controls l !! n = Some c → ∀ id, delete (control_id c) (routes l) !! id ≠ Some n) as Hgone.
  { intros n c Hc id [Hne Hid]%lookup_delete_Some. destruct (Hr id n Hid) as (c0 & Hc0 & <- & _). by rewrite Hc in Hc0; injection Hc0 as ->. }
  destruct a; simpl.
  - intros [= <-]. unfold register. destruct (id =? 0); [done|]. destruct (Z.leb_spec (admission l) 0); [done|].
    apply register_transfer_inv; [done|lia].
  - destruct (shutdown l); [done|]. by apply read_one_inv.
  - destruct (shutdown l); [done|]. by intros [= <-].
  - destruct (incoming l); [done|]. intros [= <-]. by split.
  - intros (c & Hc & Hs)%bind_Some. unfold send in Hs. case_bool_decide; [by eapply send_frame_inv|]. by injection Hs as <-.
  - destruct (writer l); [done|]. destruct (shutdown l); [done|]. intros [= <-]. by split.
  - destruct (shutdown l); [done|]. by intros [= <-].
  - intros (c & [Hc Hd]%owned_Some & Hrc)%bind_Some. unfold receive in Hrc.
    destruct (inbox c) as [|[f|m] rest] eqn:Hi; [case_bool_decide; [done|]; by injection Hrc as <-| |];
      injection Hrc as <-; eapply control_step_inv; try done; unfold got; simpl; rewrite Hi; csimpl; [by rewrite <- app_assoc|done].
  - intros (c & [Hc Hd]%owned_Some & [= <-])%bind_Some. by apply dropping_inv.
  - intros (c & Hc & Hx)%bind_Some. destruct (stage c) eqn:Hst; [done..|]. injection Hx as <-. unfold finish_drop.
    apply (remove_control_inv max (set_routes (delete (control_id c) (routes l)) l) n c); [by apply remove_route_inv|done|by apply Hgone].
  - intros (c & [Hc Hd]%owned_Some & [= <-])%bind_Some. by apply dropping_inv.
  - intros (c & Hc & Hx)%bind_Some. destruct (stage c) eqn:Hst; [done| |done]. injection Hx as <-. unfold drop_retire.
    apply (remove_control_inv max (set_retired ({[control_id c]} ∪ retired l) l) n c); [by split|done|].
    intros id Hid. destruct (Hr id n Hid) as (c0 & Hc0 & _ & Hd0 & _). rewrite Hc in Hc0. injection Hc0 as <-.
    unfold dropping in Hd0. by rewrite Hst in Hd0.
  - by intros [= <-].
Qed.

(** ** Reachable lanes *)
Inductive reaches (max : Z) : LaneControl → Prop :=
| reaches_spawn l : spawn max = Ok l → reaches max l
| reaches_act l a l' : reaches max l → act show_frame a l = Some l' → reaches max l'.

Lemma control_reaches_inv max l : 0 ≤ max → reaches max l → lane_inv max l.
Proof.
  intros Hm. induction 1 as [l Hs|l a l' _ IH Ha]; [|by eapply act_inv].
  unfold spawn in Hs. destruct (max =? 0); [done|]. injection Hs as <-. split; simpl.
  - intros ? ? Hn. by rewrite lookup_empty in Hn.
  - intros ? ? Hn. by rewrite lookup_empty in Hn.
  - rewrite map_size_empty. lia.
  - lia.
Qed.

(** C32: Whatever the peer sends and however the tasks interleave, a transfer sees only
    its own frames, in the order they came: what its control got, received or still
    in its inbox, is a prefix of the frames that were read for it since it was
    registered, and all of them as long as it is routed.  No permit of the lane is
    lost or made up. *)
Theorem transfers_isolated max l :
  0 ≤ max → reaches max l →
  (∀ n c, controls l !! n = Some c → got c `prefix_of` due l c) ∧
  (∀ id n, routes l !! id = Some n → ∃ c, controls l !! n = Some c ∧ control_id c = id ∧ got c = due l c) ∧
  admission l + Z.of_nat (size (controls l)) = max ∧ 0 ≤ admission l.
Proof.
  intros Hm Hl. destruct (control_reaches_inv max l Hm Hl) as [Hr Hp Hperm Hf]. split_and!; [|..|done|done].
  - intros n c Hc. by apply (Hp n c Hc).
  - intros id n Hn. destruct (Hr id n Hn) as (c & ? & ? & _ & ?). by exists c.
Qed.

Lemma read_one_routed f id l :
  is_request f = false → Wire.transfer_id f = Some id →
  let l1 := set_reads (reads l ++ [f]) l in
  read_one show_frame f l =
    match routes l !! id with
    | None => if bool_decide (id ∈ retired l) then Some l1
              else Some (stop ("control frame for unknown URMA transfer " +:+ pretty id) l1)
    | Some n =>
        match controls l !! n with
        | None => Some (set_routes (delete id (routes l)) l1)
        | Some c =>
            if (List.length (inbox c) <? FRAME_QUEUE_CAPACITY)%nat
            then Some (set_controls (<[n := push (EFrame f) c]> (controls l)) l1) else None
        end
    end.
Proof. intros Hq Hid. destruct f; try done; injection Hid as <-; done. Qed.

(** A frame that arrives for a transfer that was dropped is ignored, and its
    siblings keep their routes, as the comment of the reader says; but a frame that
    is read between the two locks of the drop stops the whole lane: no route is
    left, and every sibling is told that the lane is closed. *)
Theorem dropped_transfer_race max l n c f :
  0 ≤ max → reaches max l → shutdown l = false →
  controls l !! n = Some c → dropping c = false → control_id c ∉ retired l →
  Wire.transfer_id f = Some (control_id c) → is_request f = false →
  (∃ l1 l2 l3, act show_frame (DropRoute n) l = Some l1 ∧ act show_frame (DropRetire n) l1 = Some l2 ∧
     act show_frame (ReadFrame f) l2 = Some l3 ∧ shutdown l3 = false ∧ routes l3 = delete (control_id c) (routes l)) ∧
  (∃ l1 l2, act show_frame (DropRoute n) l = Some l1 ∧ act show_frame (ReadFrame f) l1 = Some l2 ∧
     shutdown l2 = true ∧ routes l2 = ∅ ∧
     ∀ id m, routes l !! id = Some m → id ≠ control_id c →
       controls l2 !! m =
         try_push (Closed ("control frame for unknown URMA transfer " +:+ pretty (control_id c))) <$> controls l !! m).
Proof.
  intros Hm Hl Hsd Hc Hd Hret Hid Hq. destruct (control_reaches_inv max l Hm Hl) as [Hr _ _ _].
  assert (owned n l = Some c) as Ho by by apply owned_Some. split.
  - unfold act at 1. rewrite Ho. cbn [mbind option_bind]. do 3 eexists. split; [reflexivity|].
    unfold drop_route. simpl. rewrite lookup_insert_eq. simpl. split; [reflexivity|]. unfold drop_retire. simpl. rewrite Hsd.
    rewrite (read_one_routed f (control_id c)) by done. simpl. rewrite lookup_delete_eq, bool_decide_true by set_solver.
    split; [reflexivity|]. done.
  - unfold act at 1. rewrite Ho. cbn [mbind option_bind]. do 2 eexists. split; [reflexivity|].
    unfold drop_route. simpl. rewrite Hsd. rewrite (read_one_routed f (control_id c)) by done. simpl.
    rewrite lookup_delete_eq, bool_decide_false by done. split; [reflexivity|]. simpl. split; [done|]. split; [done|].
    intros id m Hidm Hne. destruct (Hr id m Hidm) as (c0 & Hc0 & Hcid & _).
    assert (n ≠ m) as Hnm by congruence. rewrite map_lookup_imap, lookup_insert_ne, Hc0 by done. simpl.
    rewrite Hcid, lookup_delete_ne, bool_decide_true by done. done.
Qed.
End control.
End ControlFacts.

(** ** Witnesses: a lane with two transfers *)
Module ControlWitness.
Import Urma Session Control ControlFacts.

Definition text (f : Frame) : string := "frame".
Definition window_of (id : TransferId) : Frame := Wire.RecvPosted id (Wire.mkReceiveWindow 0 1).
Definition run (actions : list Action) : option LaneControl :=
  foldl (λ l a, l ← l; act text a l) (match spawn 2 with Ok l => Some l | Err _ => None end) actions.
Definition two_transfers : list Action :=
  [Register 1; Register 2; ReadFrame (window_of 1); ReadFrame (window_of 2); Receive 0].

Lemma run_reaches actions l : run actions = Some l → reaches text 2 l.
Proof.
  unfold run. destruct (spawn 2) as [l0|e] eqn:Hs; [|by destruct actions].
  assert (reaches text 2 l0) as H0 by by constructor. clear Hs. revert l0 H0.
  induction actions as [|a actions IH]; simpl; intros l0 H0 Hr; [by injection Hr as <-|].
  destruct (act text a l0) as [l1|] eqn:Ha; [by apply (IH l1); [eapply reaches_act|]|].
  exfalso. clear -Hr. induction actions as [|b actions IH]; simpl in Hr; [done|by apply IH].
Qed.

Lemma transfers_isolated_witness :
  ∃ l, run two_transfers = Some l ∧
    (got <$> controls l !! 0%nat) = Some [window_of 1] ∧
    (∀ n c, controls l !! n = Some c → got c `prefix_of` due l c) ∧ admission l + Z.of_nat (size (controls l)) = 2.
Proof.
  destruct (run two_transfers) as [l|] eqn:Hl; [|exfalso; vm_compute in Hl; done]. exists l. split; [done|].
  assert (match run two_transfers with Some l => got <$> controls l !! 0%nat | None => None end = Some [window_of 1]) as Hg
    by (vm_compute; reflexivity).
  rewrite Hl in Hg. split; [done|].
  destruct (transfers_isolated text 2 l ltac:(lia) (run_reaches _ _ Hl)) as (Hp & _ & Hperm & _). done.
Defined.

Lemma dropped_transfer_race_witness :
  ∃ l l1 l2, run two_transfers = Some l ∧ act text (DropRoute 0) l = Some l1 ∧
    act text (ReadFrame (window_of 1)) l1 = Some l2 ∧ shutdown l2 = true ∧ routes l2 = ∅.
Proof.
  destruct (run two_transfers) as [l|] eqn:Hl; [|exfalso; vm_compute in Hl; done].
  assert (match run two_transfers with
          | Some l => (shutdown l, (λ c, (control_id c, dropping c)) <$> controls l !! 0%nat, elements (retired l))
          | None => (true, None, []) end = (false, Some (1, false), [])) as Hb by (vm_compute; reflexivity).
  rewrite Hl in Hb. injection Hb as Hsd Hc Hret.
  destruct (controls l !! 0%nat) as [c|] eqn:Hc0; [|done]. injection Hc as Hid Hd.
  assert (control_id c ∉ retired l) as Hnr.
  { rewrite <- elem_of_elements, Hret. apply not_elem_of_nil. }
  destruct (dropped_transfer_race text 2 l 0 c (window_of 1) ltac:(lia) (run_reaches _ _ Hl) Hsd Hc0 Hd Hnr)
    as [_ (l1 & l2 & H1 & H2 & H3 & H4 & _)]; [simpl; by rewrite Hid|reflexivity|].
  exists l, l1, l2. done.
Defined.
End ControlWitness.
