(* ===== verification/FileIO.v ===== *)
(** * Reading and writing ranges of files

    Models [src/dragonfly-client-storage/src/io.rs] (the range reader and the two
    ways of writing a range) and the buffer pool of
    [src/dragonfly-client-util/src/buffer_pool/mod.rs].

    A file is its bytes.  What the kernel and the source of the data do is input: a
    positional read may be short or fail, a write may be partial, interrupted or
    fail, and the reader delivers its bytes in any portions.  Sizes and offsets are
    natural numbers, bounded by the sizes of files and buffers.  A hasher is the
    bytes it was fed, in order: the hash depends on nothing else. *)

From S2P Require Import Prelude Errors Cache.
From Stdlib Require Import ZArith Lia String Strings.Byte.
From stdpp Require Import base tactics list strings pretty.

Module FileIO.

(** ** Buffers *)

(** A [BytesMut]: [mem] are the initialised bytes of its memory from the start on,
    [len] of them readable. *)
Record Buffer := mkBuffer { mem : Bytes; cap : nat; len : nat }.
Definition no_buffer : Buffer := mkBuffer [] 0 0.
Definition contents (b : Buffer) : Bytes := take (len b) (mem b).

(** [BytesMut::zeroed], [clear], [truncate], and [set_len], which is undefined
    behaviour past the initialised bytes. *)
Definition zeroed (n : nat) : Buffer := mkBuffer (replicate n x00) n n.
Definition clear (b : Buffer) : Buffer := mkBuffer (mem b) (cap b) 0.
Definition truncate (n : nat) (b : Buffer) : Buffer := mkBuffer (mem b) (cap b) (n `min` len b).
Definition set_len (n : nat) (b : Buffer) : option Buffer :=
  if bool_decide (n ≤ List.length (mem b) ∧ n ≤ cap b) then Some (mkBuffer (mem b) (cap b) n) else None.

(** The bytes [bs] overwrite the memory from [at_] on. *)
Definition overwrite (at_ : nat) (bs : Bytes) (b : Buffer) : Buffer :=
  mkBuffer (take at_ (mem b) ++ bs ++ drop (at_ + List.length bs) (mem b)) (cap b) (len b).
(** Bytes appended within the capacity. *)
Definition append (bs : Bytes) (b : Buffer) : Buffer :=
  mkBuffer (mem (overwrite (len b) bs b)) (cap b) (len b + List.length bs).

(** [struct BufferPool], [struct Inner]: the last idle buffer is the first to go. *)
Record BufferPool := mkPool { idle : list Buffer; idle_bytes : nat; max_idle_bytes : nat }.

(** [BufferPool::new]. *)
Definition pool_new (max_idle_bytes : nat) : BufferPool := mkPool [] 0 max_idle_bytes.

(** The loop of [checkout] over the idle buffers, last first. *)
Fixpoint pop_idle (capacity : nat) (rev_idle : list Buffer) (bytes : nat) : option Buffer * list Buffer * nat :=
  match rev_idle with
  | [] => (None, [], bytes)
  | b :: rest =>
      if (capacity <=? cap b)%nat then (Some b, rest, bytes - cap b) else pop_idle capacity rest (bytes - cap b)
  end.

(** [BufferPool::checkout]. *)
Definition checkout (capacity : nat) (p : BufferPool) : Buffer * BufferPool :=
  let '(b, rest, bytes) := pop_idle capacity (reverse (idle p)) (idle_bytes p) in
  (match b with Some b => b | None => clear (zeroed capacity) end,
   mkPool (reverse rest) bytes (max_idle_bytes p)).

(** [BufferPool::checkout_for_read]. *)
Definition checkout_for_read (n : nat) (p : BufferPool) : option (Buffer * BufferPool) :=
  let '(b, p) := checkout n p in
  b ← set_len n b; Some (b, p).

(** [BufferPool::give_back]. *)
Definition give_back (b : Buffer) (p : BufferPool) : BufferPool :=
  let b := clear b in
  if (idle_bytes p + cap b <=? max_idle_bytes p)%nat
  then mkPool (idle p ++ [b]) (idle_bytes p + cap b) (max_idle_bytes p) else p.

(** ** Files *)

(** What [pread] does: it fails, or reads some bytes, and none only at the end. *)
Inductive ReadOutcome : Type := ReadFails (e : DFError) | Reads (count : nat).
Definition read_at (file : Bytes) (offset n : nat) (o : ReadOutcome) : Result Bytes :=
  match o with
  | ReadFails e => Err e
  | Reads count => Ok (take (1 `max` count) (take n (drop offset file)))
  end.

(** The file after [bs] was written at [offset]; a hole reads as zeros, and a write of no
    bytes does not extend the file. *)
Definition write_at (offset : nat) (bs : Bytes) (file : Bytes) : Bytes :=
  match bs with
  | [] => file
  | _ => take offset (file ++ replicate (offset - List.length file) x00) ++ bs ++ drop (offset + List.length bs) file
  end.

(** ** The range reader *)

(** [enum RangeReaderState]: a read in flight owns the buffer. *)
Inductive RangeReaderState : Type := Idle | Reading (b : Buffer).

(** [struct RangeReader]. *)
Record RangeReader := mkReader {
  offset : nat;
  remaining : nat;
  capacity : nat;
  buffer : Buffer;
  pos : nat;
  filled : nat;
  state : RangeReaderState;
}.

(** [RangeReader::new]. *)
Definition reader_new (offset length buffer_size : nat) : RangeReader :=
  mkReader offset length ((buffer_size `max` 1) `min` length) no_buffer 0 0 Idle.

(** [RangeReader::into_parts]. *)
Definition into_parts (r : RangeReader) : nat * nat :=
  (offset r - (filled r - pos r), remaining r + (filled r - pos r)).

(** The slice [self.buffer[self.pos..self.filled]]; out of range it panics. *)
Definition buffered (r : RangeReader) : option Bytes :=
  if bool_decide (pos r ≤ filled r ∧ filled r ≤ List.length (contents (buffer r)))
  then Some (drop (pos r) (take (filled r) (contents (buffer r)))) else None.

Section reader.
Context (file : Bytes).

(** [RangeReader::read_chunk]; [None] is a panic or undefined behaviour.  The chunk is its bytes,
    and its buffer returns to the pool when the chunk is dropped. *)
Definition read_chunk (o : ReadOutcome) (r : RangeReader) (p : BufferPool)
    : option (Result (Bytes * option Buffer) * RangeReader * BufferPool) :=
  if (pos r <? filled r)%nat then
    chunk ← buffered r;
    Some (Ok (chunk, None),
          mkReader (offset r) (remaining r) (capacity r) (buffer r) (filled r) (filled r) (state r), p)
  else if (remaining r =? 0)%nat then Some (Ok ([], None), r, p)
  else
    '(b, p) ← checkout_for_read (capacity r `min` remaining r) p;
    match read_at file (offset r) (len b) o with
    | Err e => Some (Err e, r, p)
    | Ok bs =>
        let n := List.length bs in
        let r := mkReader (offset r + n) (if (n =? 0)%nat then 0 else remaining r - n) (capacity r) (buffer r)
                   (pos r) (filled r) (state r) in
        Some (Ok (contents (truncate n (overwrite 0 bs b)), Some (truncate n (overwrite 0 bs b))), r, p)
    end.

(** [poll_fill_buf], its first half: start a read when there is nothing buffered and
    none in flight. *)
Definition start_fill (r : RangeReader) (p : BufferPool) : option (RangeReader * BufferPool) :=
  match state r with
  | Reading _ => Some (r, p)
  | Idle =>
      if (pos r <? filled r)%nat || (remaining r =? 0)%nat then Some (r, p)
      else
        let n := capacity r `min` remaining r in
        '(b, p) ← (if (cap (buffer r) =? 0)%nat then checkout_for_read n p
                   else Some (truncate n (buffer r), p));
        Some (mkReader (offset r) (remaining r) (capacity r) no_buffer (pos r) (filled r) (Reading b), p)
  end.

(** [poll_fill_buf]: [done] is the outcome of the read in flight, when it has completed.
    A result of [None] is [Poll::Pending]; the outer [None] is a panic or undefined
    behaviour. *)
Definition poll_fill_buf (done : option ReadOutcome) (r : RangeReader) (p : BufferPool)
    : option (option (Result Bytes) * RangeReader * BufferPool) :=
  '(r, p) ← start_fill r p;
  match state r with
  | Idle => chunk ← buffered r; Some (Some (Ok chunk), r, p)
  | Reading b =>
      match done with
      | None => Some (None, r, p)
      | Some o =>
          match read_at file (offset r) (len b) o with
          | Err e => Some (Some (Err e), mkReader (offset r) (remaining r) (capacity r) (buffer r) (pos r) (filled r) Idle, p)
          | Ok bs =>
              let n := List.length bs in
              let r := mkReader (offset r + n) (if (n =? 0)%nat then 0 else remaining r - n) (capacity r)
                         (overwrite 0 bs b) 0 n Idle in
              chunk ← buffered r;
              Some (Some (Ok chunk), r, p)
          end
      end
  end.

(** [consume], [poll_read] with room for [room] bytes, and the drop. *)
Definition consume (amt : nat) (r : RangeReader) : RangeReader :=
  mkReader (offset r) (remaining r) (capacity r) (buffer r) ((pos r + amt) `min` filled r) (filled r) (state r).
Definition poll_read (room : nat) (done : option ReadOutcome) (r : RangeReader) (p : BufferPool)
    : option (option (Result Bytes) * RangeReader * BufferPool) :=
  '(x, r, p) ← poll_fill_buf done r p;
  match x with
  | Some (Ok inner) =>
      let amt := List.length inner `min` room in
      Some (Some (Ok (take amt inner)), consume amt r, p)
  | x => Some (x, r, p)
  end.
Definition drop_reader (r : RangeReader) (p : BufferPool) : BufferPool :=
  if (0 <? cap (buffer r))%nat then give_back (buffer r) p else p.
End reader.

(** ** Writing from a reader *)

(** The portions in which the reader delivers its bytes; an empty portion is its end. *)
Abbreviation Source := (list (Result Bytes)).

(** The inner loop of [write_range] over [reader.take(..).read_buf(&mut buffer)]: at most
    [limit] more bytes; returns the filled buffer, the rest of the source and the limit. *)
Fixpoint fill (buffer_size : nat) (src : Source) (limit : nat) (b : Buffer) : Result (Buffer * Source * nat) :=
  if (buffer_size <=? len b)%nat || (limit =? 0)%nat then Ok (b, src, limit)
  else
    match src with
    | [] => Ok (b, src, limit)
    | Err e :: _ => Err e
    | Ok bs :: rest =>
        let room := limit `min` (cap b - len b) in
        match bs with
        | [] => Ok (b, src, limit)
        | _ =>
            if (List.length bs <=? room)%nat then fill buffer_size rest (limit - List.length bs) (append bs b)
            else Ok (append (take room bs) b, Ok (drop room bs) :: rest, limit - room)
        end
    end.

(** How a positional write of a whole buffer ends: an error comes after some bytes. *)
Inductive WriteOutcome : Type := Written | WriteFails (e : DFError) (count : nat).
Definition write_all_at (o : WriteOutcome) (bs : Bytes) (offset : nat) (file : Bytes) : Result unit * Bytes :=
  match o with
  | Written => (Ok tt, write_at offset bs file)
  | WriteFails e count => (Err e, write_at offset (take count bs) file)
  end.

(** The state of [write_range]; a write in flight has its outcome and its buffer. *)
Record Writing := mkWriting {
  w_file : Bytes;
  w_pool : BufferPool;
  w_offset : nat;
  w_length : nat;
  w_hashed : Bytes;
  w_buffer : Buffer;
  w_in_flight : option (Result unit * Buffer);
  w_writes : nat;
}.

(** [io::WriteRangeResponse] with the bytes its hash is of. *)
Record Response := mkResponse { r_length : nat; r_hashed : Bytes }.

Section writer.
(** The outcome of the [n]-th write. *)
Context (writes : nat → WriteOutcome).

(** The outer loop of [write_range]; every round takes at least a byte. *)
Fixpoint write_loop (fuel buffer_size : nat) (src : Source) (limit : nat) (w : Writing) : option (Result unit * Writing) :=
  match fuel with
  | O => None
  | S fuel =>
      match fill buffer_size src limit (w_buffer w) with
      | Err e => Some (Err e, w)
      | Ok (b, src, limit) =>
          if (len b =? 0)%nat then
            Some (Ok tt, mkWriting (w_file w) (w_pool w) (w_offset w) (w_length w) (w_hashed w) b (w_in_flight w) (w_writes w))
          else
            let hashed := w_hashed w ++ contents b in
            match (match w_in_flight w with
                   | Some (Ok _, recycled) => (Ok recycled, w_pool w)
                   | Some (Err e, _) => (Err e, w_pool w)
                   | None => let '(recycled, p) := checkout buffer_size (w_pool w) in (Ok recycled, p)
                   end) with
            | (Err e, p) =>
                Some (Err e, mkWriting (w_file w) p (w_offset w) (w_length w) hashed b None (w_writes w))
            | (Ok recycled, p) =>
                let n := len b in
                let '(r, file) := write_all_at (writes (w_writes w)) (contents b) (w_offset w) (w_file w) in
                write_loop fuel buffer_size src limit
                  (mkWriting file p (w_offset w + n) (w_length w + n) hashed recycled (Some (r, clear b)) (S (w_writes w)))
            end
      end
  end.

(** [write_range]. *)
Definition write_range (fuel offset expected_length buffer_size : nat) (src : Source) (file : Bytes) (p : BufferPool)
    : option (Result Response * Bytes * BufferPool) :=
  let buffer_size := buffer_size `max` 1 in
  let '(b, p) := checkout buffer_size p in
  '(r, w) ← write_loop fuel buffer_size src expected_length (mkWriting file p offset 0 [] b None 0);
  match r with
  | Err e => Some (Err e, w_file w, w_pool w)
  | Ok _ =>
      let finish (p : BufferPool) :=
        if (w_length w =? expected_length)%nat then Ok (mkResponse (w_length w) (w_hashed w))
        else Err (Unknown ("expected length " +:+ pretty (N.of_nat expected_length) +:+ " but got " +:+
                           pretty (N.of_nat (w_length w)))) in
      match w_in_flight w with
      | Some (Err e, _) => Some (Err e, w_file w, w_pool w)
      | Some (Ok _, recycled) =>
          let p := give_back (w_buffer w) (give_back recycled (w_pool w)) in Some (finish p, w_file w, p)
      | None => let p := give_back (w_buffer w) (w_pool w) in Some (finish p, w_file w, p)
      end
  end.
End writer.

(** ** Writing from a stream of chunks *)

(** What [pwritev] does: some bytes, an interruption, or an error. *)
Inductive PWrite : Type := Wrote (count : nat) | Interrupted | PWriteFails (e : DFError).

Definition MAX_WRITE_IOVECS : nat := 1024.

(** The inner loop of [write_all_vectored_at]: [n] more bytes are written; [chunks] are
    those not fully written, [written] bytes of the first one are. *)
Fixpoint advance (n : nat) (chunks : list Bytes) (written : nat) : list Bytes * nat :=
  match chunks with
  | [] => ([], written)
  | c :: rest =>
      if (n <? List.length c - written)%nat then (chunks, written + n)
      else advance (n - (List.length c - written)) rest 0
  end.

(** [write_all_vectored_at]: a list of outcomes that ends too early gives [None]. *)
Fixpoint write_all_vectored_at (outcomes : list PWrite) (chunks : list Bytes) (written : nat) (offset : nat) (file : Bytes)
    : option (Result unit * Bytes) :=
  match chunks with
  | [] => Some (Ok tt, file)
  | c :: rest =>
      let buffers := drop written c ++ concat (take (MAX_WRITE_IOVECS - 1) rest) in
      match outcomes with
      | [] => None
      | Interrupted :: outcomes => write_all_vectored_at outcomes chunks written offset file
      | PWriteFails e :: _ => Some (Err e, file)
      | Wrote count :: outcomes =>
          let n := count `min` List.length buffers in
          if (n =? 0)%nat then Some (Err (IO "failed to write whole buffer"), file)
          else
            let '(chunks, written) := advance n chunks written in
            write_all_vectored_at outcomes chunks written (offset + n) (write_at offset (take n buffers) file)
      end
  end.

(** The state of [write_range_from_stream]. *)
Record Streaming := mkStreaming {
  s_file : Bytes;
  s_offset : nat;
  s_length : nat;
  s_hashed : Bytes;
  s_batch : list Bytes;
  s_batch_size : nat;
  s_in_flight : option (Result unit);
  s_writes : nat;
}.

(** The inner loop: stages chunks until [buffer_size] bytes, the expected length or the
    end. *)
Fixpoint stage (buffer_size expected_length : nat) (src : Source) (s : Streaming) : Result (Streaming * Source) :=
  if (buffer_size <=? s_batch_size s)%nat || (expected_length <=? s_length s)%nat then Ok (s, src)
  else
    match src with
    | [] => Ok (s, [])
    | Err e :: _ => Err e
    | Ok chunk :: rest =>
        match chunk with
        | [] => stage buffer_size expected_length rest s
        | _ =>
            let chunk := take (expected_length - s_length s) chunk in
            let n := List.length chunk in
            stage buffer_size expected_length rest
              (mkStreaming (s_file s) (s_offset s) (s_length s + n) (s_hashed s ++ chunk) (s_batch s ++ [chunk])
                 (s_batch_size s + n) (s_in_flight s) (s_writes s))
        end
    end.

Section stream_writer.
(** The outcomes of the [pwritev] calls of the [n]-th write. *)
Context (writes : nat → list PWrite).

Fixpoint stream_loop (fuel buffer_size expected_length : nat) (src : Source) (s : Streaming)
    : option (Result unit * Streaming) :=
  match fuel with
  | O => None
  | S fuel =>
      match stage buffer_size expected_length src s with
      | Err e => Some (Err e, s)
      | Ok (s, src) =>
          match s_batch s with
          | [] => Some (Ok tt, s)
          | _ =>
              match s_in_flight s with
              | Some (Err e) => Some (Err e, s)
              | _ =>
                  '(r, file) ← write_all_vectored_at (writes (s_writes s)) (s_batch s) 0 (s_offset s) (s_file s);
                  stream_loop fuel buffer_size expected_length src
                    (mkStreaming file (s_offset s + s_batch_size s) (s_length s) (s_hashed s) [] 0 (Some r) (S (s_writes s)))
              end
          end
      end
  end.

(** [write_range_from_stream]. *)
Definition write_range_from_stream (fuel offset expected_length buffer_size : nat) (src : Source) (file : Bytes)
    : option (Result Response * Bytes) :=
  let buffer_size := buffer_size `max` 1 in
  '(r, s) ← stream_loop fuel buffer_size expected_length src (mkStreaming file offset 0 [] [] 0 None 0);
  match r, s_in_flight s with
  | Err e, _ | Ok _, Some (Err e) => Some (Err e, s_file s)
  | Ok _, _ =>
      Some (if (s_length s =? expected_length)%nat then Ok (mkResponse (s_length s) (s_hashed s))
            else Err (Unknown ("expected length " +:+ pretty (N.of_nat expected_length) +:+ " but got " +:+
                               pretty (N.of_nat (s_length s)))), s_file s)
  end.
End stream_writer.
End FileIO.
