(* ===== verification/FileIOFacts.v ===== *)
(** * Facts about file ranges and the buffer pool

    The pool invariant that its unchecked [set_len] relies on, kept by every interleaving of
    its clients; the range reader, which yields exactly the bytes of its range however short
    the reads are; and the two writers, which end and write and hash the same bytes. *)

From S2P Require Import Prelude Errors Cache FileIO.
From Stdlib Require Import ZArith Lia String Strings.Byte.
From stdpp Require Import base tactics list strings pretty relations.
From Stdlib Require Import ssreflect.

Module FileIOFacts.
Import FileIO.

(** ** The buffer pool *)

(** "its full capacity initialized". *)
Definition initialized (b : Buffer) : Prop := List.length (mem b) = cap b ∧ len b ≤ cap b.
Definition empty (b : Buffer) : Prop := initialized b ∧ len b = 0.
Definition pool_ok (p : BufferPool) : Prop :=
  Forall empty (idle p) ∧ idle_bytes p = sum_list_with cap (idle p) ∧ idle_bytes p ≤ max_idle_bytes p.

Lemma zeroed_empty n : empty (clear (zeroed n)).
Proof. rewrite /empty /initialized /= length_replicate; lia. Qed.
Lemma no_buffer_ok : initialized no_buffer.
Proof. by rewrite /initialized /=. Qed.
Lemma clear_empty b : initialized b → empty (clear b).
Proof. rewrite /empty /initialized /=; lia. Qed.
Lemma truncate_ok n b : initialized b → initialized (truncate n b).
Proof. rewrite /initialized /=; lia. Qed.
Lemma overwrite_ok at_ bs b : initialized b → at_ + List.length bs ≤ cap b → initialized (overwrite at_ bs b).
Proof.
  rewrite /initialized /= => -[Hm Hl] Hb.
  rewrite !length_app length_take length_drop; lia.
Qed.
Lemma append_ok bs b : initialized b → len b + List.length bs ≤ cap b → initialized (append bs b).
Proof. move=> Hb Hl. have [Hm _] := overwrite_ok (len b) bs b Hb Hl. split; [exact Hm|exact Hl]. Qed.

Lemma length_contents b : initialized b → List.length (contents b) = len b.
Proof. rewrite /initialized /contents => -[??]. rewrite length_take; lia. Qed.

Lemma contents_append bs b : initialized b → len b + List.length bs ≤ cap b →
  contents (append bs b) = contents b ++ bs.
Proof.
  rewrite /initialized /contents /= => -[Hm Hl] Hb.
  rewrite app_assoc take_app_length' //. rewrite length_app length_take; lia.
Qed.

Lemma contents_read bs b : initialized b → List.length bs ≤ len b →
  contents (truncate (List.length bs) (overwrite 0 bs b)) = bs.
Proof.
  rewrite /contents /= => -[_ Hl] Hb. rewrite Nat.min_l //. by rewrite take_app_length.
Qed.

Lemma set_len_ok n b : initialized b → n ≤ cap b →
  ∃ b', set_len n b = Some b' ∧ initialized b' ∧ len b' = n ∧ cap b' = cap b.
Proof.
  rewrite /initialized /set_len => -[Hm Hl] Hn. rewrite bool_decide_eq_true_2; first lia.
  eexists; split; [done|]; simpl; lia.
Qed.

Lemma pop_idle_spec n l bytes : Forall empty l → bytes = sum_list_with cap l →
  let '(b, rest, bytes') := pop_idle n l bytes in
  Forall empty rest ∧ bytes' = sum_list_with cap rest ∧ bytes' ≤ bytes ∧
  (∀ b', b = Some b' → empty b' ∧ n ≤ cap b').
Proof.
  elim: l bytes => [|b l IH] bytes /= Hl ->; first done.
  apply Forall_cons in Hl as [Hb Hl]. case: Nat.leb_spec => Hc.
  - split_and!; [done|lia|lia|]. by move=> ? [<-].
  - rewrite (_ : cap b + sum_list_with cap l - cap b = sum_list_with cap l); first lia.
    move: (IH _ Hl eq_refl). case: (pop_idle _ _ _) => [[b' rest] bytes'] [? [-> [? ?]]]. split_and!; auto; lia.
Qed.

Lemma sum_caps_reverse (l : list Buffer) : sum_list_with cap (reverse l) = sum_list_with cap l.
Proof. by elim: l => [|b l IH] //=; rewrite reverse_cons sum_list_with_app /= IH; lia. Qed.

Lemma checkout_spec n p : pool_ok p →
  ∃ b p', checkout n p = (b, p') ∧ pool_ok p' ∧ max_idle_bytes p' = max_idle_bytes p ∧ empty b ∧ n ≤ cap b.
Proof.
  rewrite /checkout => -[Hi [Hb Hm]].
  have := pop_idle_spec n (reverse (idle p)) (idle_bytes p).
  case: (pop_idle _ _ _) => [[b rest] bytes'] [|| Hr [-> [Hle Hs]]].
  - by rewrite Forall_reverse.
  - by rewrite sum_caps_reverse.
  - eexists _, _; split; first done. split_and!; simpl.
    + split_and!; simpl; [by rewrite Forall_reverse|by rewrite sum_caps_reverse|lia].
    + done.
    + case: b Hs => [b|] Hs; [by case: (Hs b eq_refl)|apply zeroed_empty].
    + case: b Hs => [b|] Hs; [by case: (Hs b eq_refl)|simpl; lia].
Qed.

Lemma checkout_for_read_spec n p : pool_ok p →
  ∃ b p', checkout_for_read n p = Some (b, p') ∧ pool_ok p' ∧ max_idle_bytes p' = max_idle_bytes p ∧
    initialized b ∧ len b = n.
Proof.
  rewrite /checkout_for_read => /(checkout_spec n) [b [p' [-> [Hp [Hm [[Hb _] Hc]]]]]].
  have [b' [-> [? [? ?]]]] := set_len_ok n b Hb Hc.
  by exists b', p'.
Qed.

Lemma give_back_spec b p : pool_ok p → initialized b → pool_ok (give_back b p).
Proof.
  rewrite /give_back => -[Hi [Hs Hm]] Hb /=. case: Nat.leb_spec => Hc; last done.
  split_and!; simpl; [|rewrite sum_list_with_app /=; lia|done].
  apply Forall_app; split; [done|]. constructor; [by apply clear_empty|constructor].
Qed.

(** The clients of a pool: they check buffers out, overwrite them in place, shorten them or
    read into them, and give them back or drop them. *)
Inductive pool_step : BufferPool * list Buffer → BufferPool * list Buffer → Prop :=
  | step_checkout n p b p' out : checkout n p = (b, p') → pool_step (p, out) (p', b :: out)
  | step_checkout_for_read n p b p' out :
      checkout_for_read n p = Some (b, p') → pool_step (p, out) (p', b :: out)
  | step_overwrite p pre b post at_ bs :
      at_ + List.length bs ≤ len b → pool_step (p, pre ++ b :: post) (p, pre ++ overwrite at_ bs b :: post)
  | step_append p pre b post bs :
      len b + List.length bs ≤ cap b → pool_step (p, pre ++ b :: post) (p, pre ++ append bs b :: post)
  | step_truncate p pre b post n : pool_step (p, pre ++ b :: post) (p, pre ++ truncate n b :: post)
  | step_give_back p pre b post : pool_step (p, pre ++ b :: post) (give_back b p, pre ++ post)
  | step_drop p pre b post : pool_step (p, pre ++ b :: post) (p, pre ++ post).

Definition pool_inv (max : nat) (s : BufferPool * list Buffer) : Prop :=
  pool_ok s.1 ∧ max_idle_bytes s.1 = max ∧ Forall initialized s.2.

Lemma give_back_max b p : max_idle_bytes (give_back b p) = max_idle_bytes p.
Proof. by rewrite /give_back /=; case: Nat.leb_spec. Qed.

Lemma pool_step_inv max s s' : pool_step s s' → pool_inv max s → pool_inv max s'.
Proof.
  rewrite /pool_inv; destruct 1 as [n p b p' out H|n p b p' out H|p pre b post at_ bs H|p pre b post bs H|p pre b post n
    |p pre b post|p pre b post]; simpl; rewrite ?Forall_app ?Forall_cons; move=> [Hp [Hm Ho]].
  - have [? [? [E [? [? [[? ?] ?]]]]]] := checkout_spec n p Hp. rewrite H in E; simplify_eq. split_and!; auto; congruence.
  - have [? [? [E [? [? [? ?]]]]]] := checkout_for_read_spec n p Hp.
    rewrite H in E; simplify_eq. split_and!; auto; congruence.
  - destruct Ho as [? [Hb ?]]; split_and!; auto. apply overwrite_ok; [done|]. destruct Hb; lia.
  - destruct Ho as [? [Hb ?]]; split_and!; auto using append_ok.
  - destruct Ho as [? [Hb ?]]; split_and!; auto using truncate_ok.
  - destruct Ho as [? [Hb ?]]; split_and!; auto using give_back_spec. by rewrite give_back_max.
  - destruct Ho as [? [Hb ?]]; split_and!; auto.
Qed.

Lemma pool_new_ok n : pool_ok (pool_new n).
Proof. split_and!; simpl; [constructor|done|lia]. Qed.

(** From a new pool, whatever its clients do with the buffers in whatever order, no
    [set_len] of [checkout_for_read] exposes an uninitialised byte or passes the
    capacity, a checkout has at least the capacity asked for and starts empty, and the idle
    capacity is accounted exactly and stays within [max_idle_bytes]. *)
Theorem buffer_pool_initialized max p out :
  rtc pool_step (pool_new max, []) (p, out) →
  idle_bytes p = sum_list_with cap (idle p) ∧ sum_list_with cap (idle p) ≤ max ∧
  Forall initialized out ∧
  (∀ n, ∃ b p', checkout_for_read n p = Some (b, p') ∧ len b = n ∧ n ≤ List.length (mem b)) ∧
  (∀ n, len (checkout n p).1 = 0 ∧ n ≤ cap (checkout n p).1).
Proof.
  move=> Hr.
  have Hinv : pool_inv max (p, out).
  { apply (rtc_ind_r (R := pool_step) (pool_inv max) (pool_new max, [])); [| |exact Hr].
    - split_and!; [apply pool_new_ok|done|constructor].
    - move=> s s' _. apply pool_step_inv. }
  destruct Hinv as [Hp [<- Ho]]; simpl in *.
  split_and!; [apply Hp|rewrite -(proj1 (proj2 Hp)); apply Hp|done| |].
  - move=> n. have [b [p' [-> [_ [_ [[Hm Hl] <-]]]]]] := checkout_for_read_spec n p Hp. exists b, p'. split_and!; auto; lia.
  - move=> n. have [b [p' [-> [_ [_ [[_ ?] ?]]]]]] := checkout_spec n p Hp. done.
Qed.

(** ** The range reader *)
Lemma take_drop_take {A} (n m o : nat) (l : list A) :
  take n (drop o l) ++ take m (drop (o + n) l) = take (n + m) (drop o l).
Proof. by rewrite -drop_drop take_take_drop. Qed.

Lemma take_its_length {A} n (l : list A) : take n l = take (List.length (take n l)) l.
Proof.
  rewrite length_take. case: (Nat.le_ge_cases n (List.length l)) => H; [by rewrite Nat.min_l|].
  by rewrite Nat.min_r // take_ge // firstn_all.
Qed.

Section reader.
Context (file : Bytes).

(** The bytes of the range not yet delivered: the buffered ones and those to be read. *)
Definition ahead (r : RangeReader) : nat := filled r - pos r.
Definition unread (r : RangeReader) : Bytes := take (ahead r) (drop (offset r - ahead r) file).
Definition rest (r : RangeReader) : Bytes := unread r ++ take (remaining r) (drop (offset r) file).

Definition idle_ok (r : RangeReader) : Prop :=
  initialized (buffer r) ∧
  (cap (buffer r) = 0 ∨ capacity r `min` remaining r ≤ len (buffer r)) ∧
  ((filled r ≤ len (buffer r) ∧ drop (pos r) (take (filled r) (contents (buffer r))) = unread r)
   ∨ (pos r = filled r ∧ remaining r ≠ 0 ∧ cap (buffer r) = 0)).
Definition state_ok (r : RangeReader) : Prop :=
  match state r with
  | Idle => idle_ok r
  | Reading b => initialized b ∧ len b = capacity r `min` remaining r ∧ remaining r ≠ 0 ∧ pos r = filled r ∧
                 buffer r = no_buffer
  end.

(** The invariant of a reader that has delivered [out] of the range of bytes [range]. *)
Definition reader_ok (range : Bytes) (r : RangeReader) (out : Bytes) : Prop :=
  pos r ≤ filled r ∧ ahead r ≤ offset r ∧ (remaining r ≠ 0 → capacity r ≠ 0) ∧ state_ok r ∧ out ++ rest r = range.

Lemma reader_new_ok off n buffer_size : reader_ok (take n (drop off file)) (reader_new off n buffer_size) [].
Proof.
  rewrite /reader_ok /state_ok /idle_ok /rest /unread /ahead /=. split_and!; auto using no_buffer_ok; try lia.
Qed.

Lemma read_at_spec off n k : ∃ bs, read_at file off n (Reads k) = Ok bs ∧
  bs = take (List.length bs) (drop off file) ∧ List.length bs ≤ n ∧ (n ≠ 0 → bs = [] → drop off file = []).
Proof.
  eexists; split; [done|]. split_and!.
  - rewrite take_take. apply take_its_length.
  - rewrite !length_take; lia.
  - move=> Hn /(f_equal List.length). rewrite !length_take length_drop /=. move=> H.
    apply nil_length_inv. rewrite length_drop. lia.
Qed.

(** A read of the next [bs] bytes into [b] keeps the invariant. *)
Lemma read_done_ok range r out bs b : reader_ok range r out → pos r = filled r →
  initialized b → len b = capacity r `min` remaining r → remaining r ≠ 0 →
  bs = take (List.length bs) (drop (offset r) file) → List.length bs ≤ len b →
  (bs = [] → drop (offset r) file = []) →
  reader_ok range (mkReader (offset r + List.length bs) (if (List.length bs =? 0)%nat then 0 else remaining r - List.length bs)
                     (capacity r) (overwrite 0 bs b) 0 (List.length bs) Idle) out.
Proof.
  move=> [_ [_ [Hcap [_ Hout]]]] Hpos Hb Hlen Hrem Hbs Hle Hnil.
  have Hov : initialized (overwrite 0 bs b) by apply overwrite_ok; [done|destruct Hb; lia].
  have Hun : take (List.length bs) (drop (offset r + List.length bs - List.length bs) file) = bs.
  { by rewrite Nat.add_sub. }
  split_and!.
  - simpl; lia.
  - rewrite /ahead /=; lia.
  - simpl. case: Nat.eqb_spec => H; [done|]. move=> _. by apply Hcap.
  - rewrite /state_ok /idle_ok /=. split_and!; [done|right; case: Nat.eqb_spec; lia|].
    left. split; [done|]. rewrite /unread /ahead /= Nat.sub_0_r Hun drop_0.
    rewrite /contents /= take_take Nat.min_l //. by rewrite take_app_length.
  - rewrite -Hout /rest /unread /ahead /= Nat.sub_0_r Hun Hpos Nat.sub_diag /=. f_equal.
    case: Nat.eqb_spec => H.
    + have E : bs = [] by apply nil_length_inv. by rewrite (Hnil E) E /= take_nil.
    + rewrite {1}Hbs take_drop_take. do 2 f_equal. lia.
Qed.

Lemma start_fill_ok range r p out : reader_ok range r out → pool_ok p →
  ∃ r' p', start_fill r p = Some (r', p') ∧ pool_ok p' ∧ reader_ok range r' out ∧
    (state r' = Idle → (pos r' < filled r' ∨ remaining r' = 0) ∧ r' = r).
Proof.
  move=> Hr Hp. rewrite /start_fill. case Es: (state r) => [|b]; last first.
  { exists r, p. split_and!; auto. by rewrite Es. }
  have [Hpf [Hah [Hcap [Hst Hout]]]] := Hr. rewrite /state_ok Es in Hst.
  case: Nat.ltb_spec => Hlt /=; first by exists r, p; split_and!; auto.
  case: Nat.eqb_spec => Hrem; first by exists r, p; split_and!; auto.
  have Hpos : pos r = filled r by lia.
  have [b [p' [E [Hp' [Hb Hlen]]]]] : ∃ b p', (if (cap (buffer r) =? 0)%nat then checkout_for_read (capacity r `min` remaining r) p
      else Some (truncate (capacity r `min` remaining r) (buffer r), p)) = Some (b, p') ∧ pool_ok p' ∧ initialized b ∧
      len b = capacity r `min` remaining r.
  { destruct Hst as [Hi [Hl _]]. case: Nat.eqb_spec => Hc.
    - have [b [p' [E [? [_ [? ?]]]]]] := checkout_for_read_spec (capacity r `min` remaining r) p Hp. by exists b, p'.
    - eexists _, _; split_and!; [done|done|by apply truncate_ok|]. simpl. destruct Hl; [done|lia]. }
  rewrite E /=. eexists _, _; split_and!; [done|done| |done].
  by split_and!.
Qed.

(** Polling never panics, keeps the invariant, and yields the buffered bytes, none only at
    the end of the range. *)
Lemma poll_fill_buf_ok range r p out done : reader_ok range r out → pool_ok p →
  ∃ x r' p', poll_fill_buf file done r p = Some (x, r', p') ∧ pool_ok p' ∧ reader_ok range r' out ∧
    (∀ k, done = Some (Reads k) → ∃ bs, x = Some (Ok bs)) ∧
    (∀ bs, x = Some (Ok bs) → state r' = Idle ∧ bs = unread r' ∧ List.length bs = ahead r' ∧
                              (bs = [] → rest r' = [])).
Proof.
  move=> Hr Hp. rewrite /poll_fill_buf.
  have [r' [p' [-> [Hp' [Hr' Hidle]]]]] := start_fill_ok range r p out Hr Hp. simpl.
  have [Hpf [Hah [Hcap [Hst Hout]]]] := Hr'. rewrite /state_ok in Hst.
  case Es: (state r') Hst => [|b] Hst.
  - have [Hor ?] := Hidle Es; subst r'. destruct Hst as [Hi [_ [[Hfl Hun]|[? [? ?]]]]]; last lia.
    rewrite /buffered bool_decide_eq_true_2; first by rewrite length_contents.
    simpl. eexists _, _, _; split; [done|]. split_and!; [done|done|by eauto|].
    move=> bs [<-]. have Hlen : List.length (unread r) = ahead r.
    { rewrite -Hun length_drop length_take length_contents // /ahead. lia. }
    rewrite Hun. split_and!; auto. move=> Hnil. rewrite Hnil /= in Hlen. rewrite /rest Hnil /=.
    rewrite /ahead in Hlen. by have -> : remaining r = 0 by lia.
  - destruct Hst as [Hb [Hlen [Hrem [Hpos Hbuf]]]]. case: done => [[e|k]|] /=.
    + eexists _, _, _; split; [done|]. split_and!; [done| |done|done].
      split_and!; [done|done|done| |done]. rewrite /state_ok /idle_ok /= Hbuf.
      split_and!; [apply no_buffer_ok|by left|by right].
    + have [bs [E [Hbs [Hle Hnil]]]] := read_at_spec (offset r') (len b) k.
      rewrite /= in E. case: E => E. rewrite E.
      have Hn : len b ≠ 0 by rewrite Hlen; have := Hcap Hrem; lia.
      have Hok := read_done_ok range r' out bs b Hr' Hpos Hb Hlen Hrem Hbs Hle (Hnil Hn).
      have [_ [_ [_ [[Hi [_ [[Hfl Hun]|[Hx [Hy Hz]]]]] _]]]] := Hok; last first.
      { simpl in Hx, Hy, Hz. destruct Hb. lia. }
      simpl in Hfl, Hun. rewrite /buffered bool_decide_eq_true_2 /=; first by rewrite length_contents //=; lia.
      eexists _, _, _; split; [done|]. split_and!; [done|exact Hok|by eauto|].
      move=> bs' [<-]. rewrite Hun. have Hu : unread (mkReader (offset r' + List.length bs) (if (List.length bs =? 0)%nat then 0
        else remaining r' - List.length bs) (capacity r') (overwrite 0 bs b) 0 (List.length bs) Idle) = bs.
      { by rewrite /unread /ahead /= Nat.sub_0_r Nat.add_sub. }
      rewrite Hu /ahead /= Nat.sub_0_r. split_and!; auto. move=> ->. by rewrite /rest /unread /=.
    + eexists _, _, _; split; [done|]. by split_and!.
Qed.

Lemma consume_ok range r out amt : reader_ok range r out → state r = Idle → amt ≤ ahead r →
  reader_ok range (consume amt r) (out ++ take amt (unread r)).
Proof.
  move=> [Hpf [Hah [Hcap [Hst Hout]]]] Es Hamt. rewrite /state_ok Es in Hst. rewrite /ahead in Hah, Hamt.
  have Hpos : (pos r + amt) `min` filled r = pos r + amt by lia.
  have Hun : unread (consume amt r) = drop amt (unread r).
  { rewrite /unread /ahead /= Hpos skipn_firstn_comm drop_drop. f_equal; [lia|f_equal; lia]. }
  split_and!; rewrite /ahead /=; [lia|lia|done| |].
  - rewrite /state_ok /= Es. destruct Hst as [Hi [Hl Hc]]. split_and!; [done|done|].
    destruct Hc as [[Hf Hd]|[? [? ?]]]; [left|right; simpl; split_and!; auto; lia].
    split; [done|]. by rewrite Hun -Hd /= Hpos drop_drop.
  - rewrite -Hout /rest Hun /= -!app_assoc. f_equal. by rewrite app_assoc take_drop.
Qed.

Lemma poll_read_ok range r p out room done : reader_ok range r out → pool_ok p →
  ∃ x r' p', poll_read file room done r p = Some (x, r', p') ∧ pool_ok p' ∧
    (∀ k, done = Some (Reads k) → ∃ bs, x = Some (Ok bs)) ∧
    match x with
    | Some (Ok bs) => reader_ok range r' (out ++ bs) ∧ (bs = [] → room ≠ 0 → rest r' = [])
    | _ => reader_ok range r' out
    end.
Proof.
  move=> Hr Hp. rewrite /poll_read.
  have [x [r' [p' [-> [Hp' [Hr' [Hk Hx]]]]]]] := poll_fill_buf_ok range r p out done Hr Hp. simpl.
  case: x Hk Hx => [[bs|e]|] Hk Hx; try by eexists _, _, _; split_and!.
  have [Es [-> [Hlen Hnil]]] := Hx bs eq_refl.
  eexists _, _, _; split; [done|]. split_and!; [done|by eauto| |].
  - apply consume_ok; [done|done|]. rewrite -Hlen in Hx *. have [_ [E [Hl _]]] := Hx _ eq_refl. subst. lia.
  - move=> Hb Hroom. have E : unread r' = [].
    { destruct (unread r') eqn:E; [done|]. move: Hb. rewrite /=. by destruct room. }
    have [_ [Eb _]] := Hx bs eq_refl. rewrite E in Eb. subst bs.
    have Hz : rest (consume (List.length (unread r') `min` room) r') = rest r'.
    { rewrite E /=. rewrite /consume Nat.add_0_r. destruct Hr' as [Hpf _]. by rewrite Nat.min_l. }
    by rewrite Hz Hnil.
Qed.

(** [read_chunk] is for a reader without a buffered read in flight or failed. *)
Definition chunk_ready (r : RangeReader) : Prop := state r = Idle ∧ (filled r = 0 ∨ cap (buffer r) ≠ 0).

Lemma chunk_ready_idle r : chunk_ready r → state_ok r → pos r ≤ filled r →
  initialized (buffer r) ∧ (cap (buffer r) = 0 ∨ capacity r `min` remaining r ≤ len (buffer r)) ∧
  filled r ≤ len (buffer r) ∧ drop (pos r) (take (filled r) (contents (buffer r))) = unread r.
Proof.
  move=> [Es Hf]. rewrite /state_ok Es => -[Hi [Hl [[? ?]|[E [? ?]]]]] Hpf; [done|].
  destruct Hf as [Hf|Hf]; last lia. split_and!; auto; [lia|].
  by rewrite /unread /ahead Hf drop_nil.
Qed.

Lemma read_chunk_ok range r p out o : reader_ok range r out → pool_ok p → chunk_ready r →
  ∃ x r' p', read_chunk file o r p = Some (x, r', p') ∧ pool_ok p' ∧
    match x with
    | Ok (bs, b) => reader_ok range r' (out ++ bs) ∧ (bs = [] → rest r' = []) ∧ (∀ b', b = Some b' → initialized b')
    | Err _ => reader_ok range r' out
    end.
Proof.
  move=> Hr Hp Hready. have [Hpf [Hah [Hcap [Hst Hout]]]] := Hr.
  have [Hi [Hl [Hfl Hun]]] := chunk_ready_idle r Hready Hst Hpf. rewrite /read_chunk.
  case: Nat.ltb_spec => Hlt.
  - rewrite /buffered bool_decide_eq_true_2; first by rewrite length_contents.
    have Hlen : List.length (unread r) = ahead r by rewrite -Hun length_drop length_take length_contents // /ahead; lia.
    rewrite /= Hun. eexists _, _, _; split; [done|]. split; [done|]. split_and!; [| |done].
    + have := consume_ok range r out (ahead r) Hr (proj1 Hready) (Nat.le_refl _).
      rewrite take_ge; first by rewrite Hlen. rewrite /consume /ahead.
      by rewrite (_ : (pos r + (filled r - pos r)) `min` filled r = filled r); first lia.
    + move=> E. rewrite E /ahead /= in Hlen. lia.
  - have Hpos : pos r = filled r by lia.
    case: Nat.eqb_spec => Hrem.
    { eexists _, _, _; split; [done|]. split; [done|]. split_and!; [by rewrite app_nil_r| |done].
      move=> _. by rewrite /rest /unread /ahead Hpos Nat.sub_diag Hrem. }
    have [b [p' [-> [Hp' [_ [Hb Hlen]]]]]] := checkout_for_read_spec (capacity r `min` remaining r) p Hp. simpl.
    case: o => [e|k]; first by eexists _, _, _; split_and!.
    have [bs [E [Hbs [Hle Hnil]]]] := read_at_spec (offset r) (len b) k. rewrite E contents_read //.
    have Hn : len b ≠ 0 by rewrite Hlen; have := Hcap Hrem; lia.
    have Hrest : take (remaining r) (drop (offset r) file) = bs ++ take (if (List.length bs =? 0)%nat then 0
      else remaining r - List.length bs) (drop (offset r + List.length bs) file).
    { case: Nat.eqb_spec => H.
      + have E' : bs = [] by apply nil_length_inv. by rewrite (Hnil Hn E') E' /= take_nil.
      + rewrite {1}Hbs take_drop_take. f_equal. lia. }
    have Hnone : unread r = [] by rewrite /unread /ahead Hpos Nat.sub_diag.
    eexists _, _, _; split; [done|]. split_and!; [done| | |].
    + split_and!; rewrite /ahead /=; [lia|lia| | |].
      * case: Nat.eqb_spec => H; [done|]. move=> _. by apply Hcap.
      * rewrite /state_ok /= (proj1 Hready) /idle_ok /=. split_and!; [done| |].
        { destruct Hl as [?|Hl]; [by left|right]. case: Nat.eqb_spec; lia. }
        left. split; [done|]. by rewrite Hun Hnone /unread /ahead /= Hpos Nat.sub_diag.
      * rewrite -Hout /rest Hnone Hrest /unread /ahead /= Hpos Nat.sub_diag /= -!app_assoc //.
    + move=> ->. by rewrite /rest /unread /ahead /= Hpos Nat.sub_diag.
    + move=> b' [<-]. apply truncate_ok, overwrite_ok; [done|]. destruct Hb; lia.
Qed.

(** A client of the reader: it polls, takes chunks and lets others use the pool; [out] is
    what it received. *)
Inductive read_step : RangeReader * BufferPool * Bytes → RangeReader * BufferPool * Bytes → Prop :=
  | step_poll room done r p x r' p' out :
      poll_read file room done r p = Some (x, r', p') →
      read_step (r, p, out) (r', p', out ++ match x with Some (Ok bs) => bs | _ => [] end)
  | step_chunk o r p x r' p' out :
      chunk_ready r → read_chunk file o r p = Some (x, r', p') →
      read_step (r, p, out) (r', p', out ++ match x with Ok (bs, _) => bs | Err _ => [] end)
  | step_others r p p' out : pool_ok p' → read_step (r, p, out) (r, p', out).

Lemma read_step_ok range s s' : read_step s s' →
  reader_ok range s.1.1 s.2 ∧ pool_ok s.1.2 → reader_ok range s'.1.1 s'.2 ∧ pool_ok s'.1.2.
Proof.
  destruct 1 as [room done r p x r' p' out H|o r p x r' p' out Hc H|]; simpl; move=> [Hr Hp].
  - have [? [? [? [E [? [_ Hx]]]]]] := poll_read_ok range r p out room done Hr Hp. rewrite H in E; case: E => ???; subst.
    split; [|done]. case_match; [case_match|]; rewrite ?app_nil_r //. by destruct Hx.
  - have [? [? [? [E [? Hx]]]]] := read_chunk_ok range r p out o Hr Hp Hc. rewrite H in E; case: E => ???; subst.
    split; [|done]. case_match; [case_match|]; rewrite ?app_nil_r //. by destruct Hx.
  - done.
Qed.

(** Reads to the end: polls with room until one yields nothing. *)
Fixpoint read_all (script : list (nat * nat)) (r : RangeReader) (p : BufferPool) : option Bytes :=
  match script with
  | [] => None
  | (room, k) :: script =>
      match poll_read file (S room) (Some (Reads k)) r p with
      | Some (Some (Ok []), _, _) => Some []
      | Some (Some (Ok bs), r, p) => app bs <$> read_all script r p
      | _ => None
      end
  end.

Lemma read_all_ok range script r p out : reader_ok range r out → pool_ok p →
  List.length range < List.length out + List.length script →
  ∃ bs, read_all script r p = Some bs ∧ out ++ bs = range.
Proof.
  elim: script r p out => [|[room k] script IH] r p out Hr Hp Hlen.
  { destruct Hr as [_ [_ [_ [_ Hout]]]]. rewrite -Hout length_app /= in Hlen. lia. }
  simpl. have [x [r' [p' [-> [Hp' [Hk Hx]]]]]] := poll_read_ok range r p out (S room) (Some (Reads k)) Hr Hp.
  have [bs E] := Hk k eq_refl. subst x. destruct Hx as [Hr' Hnil]. case: bs {Hk} Hr' Hnil => [|b bs] Hr' Hnil.
  - exists []. split; [done|]. destruct Hr' as [_ [_ [_ [_ <-]]]]. rewrite Hnil // !app_nil_r //.
  - have [bs' [-> <-]] := IH r' p' (out ++ b :: bs) Hr' Hp' ltac:(rewrite length_app /= in Hlen *; lia).
    eexists; split; [done|]. by rewrite -app_assoc.
Qed.
End reader.

Lemma read_new_all file off n buffer_size p script : pool_ok p → n < List.length script →
  read_all file script (reader_new off n buffer_size) p = Some (take n (drop off file)).
Proof.
  move=> Hp Hn. have Hlen : List.length (take n (drop off file)) < 0 + List.length script by rewrite length_take; lia.
  have [bs [-> E]] := read_all_ok file _ script _ p [] (reader_new_ok file off n buffer_size) Hp Hlen.
  by rewrite -E.
Qed.

(** Whatever the client of a range reader does, polling with any room, taking chunks or
    waiting, and however the reads of the file end (short, failed, still running), what it has
    received is a prefix of the range, [into_parts] names exactly the rest of it, the next
    poll neither panics nor touches uninitialised memory, and it yields nothing only when the
    whole range has been delivered. *)
Theorem range_reader_delivers file off n buffer_size p0 r p out :
  pool_ok p0 → rtc (read_step file) (reader_new off n buffer_size, p0, []) (r, p, out) →
  out ++ take (into_parts r).2 (drop (into_parts r).1 file) = take n (drop off file) ∧
  ∀ room done, ∃ x r' p', poll_read file room done r p = Some (x, r', p') ∧
    (room ≠ 0 → x = Some (Ok []) → out = take n (drop off file)).
Proof.
  move=> Hp0 Hr.
  have [Hok Hp] : reader_ok file (take n (drop off file)) r out ∧ pool_ok p.
  { apply (rtc_ind_r (R := read_step file) (λ s, reader_ok file (take n (drop off file)) s.1.1 s.2 ∧ pool_ok s.1.2)
      (reader_new off n buffer_size, p0, []) ltac:(split; [apply reader_new_ok|done])
      (λ s s' _ Hs, read_step_ok file _ s s' Hs) _ Hr). }
  have [Hpf [Hah [_ [_ Hout]]]] := Hok. split.
  - rewrite -Hout /into_parts /rest /unread /= -/(ahead r). f_equal.
    rewrite Nat.add_comm -take_drop_take. do 3 f_equal. lia.
  - move=> room done. have [x [r' [p' [-> [_ [_ Hx]]]]]] := poll_read_ok file _ r p out room done Hok Hp.
    eexists _, _, _; split; [done|]. move=> Hroom E; subst x. destruct Hx as [[_ [_ [_ [_ E]]]] Hnil].
    by rewrite Hnil // !app_nil_r in E.
Qed.

(** Reading a range to its end takes at most one poll per byte and one more, whatever
    the room of each poll and however short each read of the file is, and gives exactly the
    bytes of the range that the file has. *)
Theorem range_reader_ends file off n buffer_size p script :
  pool_ok p → n < List.length script →
  read_all file script (reader_new off n buffer_size) p = Some (take n (drop off file)).
Proof.
  exact: read_new_all.
Qed.
End FileIOFacts.

(** ** Witnesses *)

Module FileIOWitness.
Import FileIO FileIOFacts.

Definition bytes : Bytes := [x61; x62; x63; x64; x65].
Definition one_out : BufferPool * list Buffer := (pool_new 100, [clear (zeroed 10)]).
Definition returned : BufferPool := give_back (clear (zeroed 10)) (pool_new 100).

(** A buffer of ten bytes goes out and comes back. *)
Lemma buffer_pool_initialized_witness :
  rtc pool_step (pool_new 100, []) (returned, []) ∧
  idle_bytes returned = 10 ∧ ∃ b p', checkout_for_read 7 returned = Some (b, p') ∧ len b = 7 ∧ 7 ≤ List.length (mem b).
Proof.
  assert (rtc pool_step (pool_new 100, []) (returned, [])) as H.
  { eapply rtc_l; [apply (step_checkout 10 (pool_new 100) (clear (zeroed 10)) (pool_new 100) []); reflexivity|].
    eapply rtc_l; [apply (step_give_back (pool_new 100) [] (clear (zeroed 10)) [])|]. apply rtc_refl. }
  split; [exact H|]. pose proof (buffer_pool_initialized 100 returned [] H) as (H1 & _ & _ & H2 & _).
  split; [exact H1|]. exact (H2 7).
Defined.

(** Three bytes from the second on through a buffer of two: the first read is short. *)
Definition reader : RangeReader := reader_new 1 3 2.
Definition polled : RangeReader :=
  match poll_read bytes 5 (Some (Reads 1)) reader (pool_new 100) with Some (_, r, _) => r | None => reader end.

Lemma range_reader_delivers_witness :
  rtc (read_step bytes) (reader, pool_new 100, []) (polled, pool_new 100, [x62]) ∧
  [x62] ++ take (into_parts polled).2 (drop (into_parts polled).1 bytes) = [x62; x63; x64].
Proof.
  assert (rtc (read_step bytes) (reader, pool_new 100, []) (polled, pool_new 100, [x62])) as H.
  { eapply rtc_l; [|apply rtc_refl].
    exact (step_poll bytes 5 (Some (Reads 1)) reader (pool_new 100) (Some (Ok [x62])) polled (pool_new 100) [] eq_refl). }
  split; [exact H|].
  exact (proj1 (range_reader_delivers bytes 1 3 2 (pool_new 100) polled (pool_new 100) [x62] (pool_new_ok 100) H)).
Defined.

Lemma range_reader_ends_witness :
  read_all bytes [(0, 0); (4, 9); (1, 1); (0, 2)] reader (pool_new 100) = Some [x62; x63; x64].
Proof. apply (range_reader_ends bytes 1 3 2 (pool_new 100)); [apply pool_new_ok|simpl; lia]. Defined.
End FileIOWitness.
