(* ===== verification/FileWriteFacts.v ===== *)
(** * Facts about writing file ranges

    The two writers of [io.rs], one fed by a reader through pooled buffers and one by a
    stream of chunks through vectored writes, end, write and hash exactly the expected prefix
    of their source, and agree; what they wrote is what the range reader reads back. *)

From S2P Require Import Prelude Errors Cache FileIO FileIOFacts.
From Stdlib Require Import ZArith Lia String Strings.Byte.
From stdpp Require Import base tactics list strings pretty relations.
From Stdlib Require Import ssreflect.
Open Scope general_if_scope.

Module FileWriteFacts.
Import FileIO FileIOFacts.
Local Arguments Nat.leb : simpl never.

(** ** Positional writes *)
Lemma lookup_write_at off bs file i : bs ≠ [] →
  write_at off bs file !! i =
    if decide (i < off) then (file ++ replicate (off - List.length file) x00) !! i
    else if decide (i < off + List.length bs) then bs !! (i - off) else file !! i.
Proof.
  move=> Hb. rewrite /write_at. case: bs Hb => [//|b bs] _. set l := b :: bs.
  have Hlen : List.length (take off (file ++ replicate (off - List.length file) x00)) = off.
  { rewrite length_take length_app length_replicate. lia. }
  repeat case_decide.
  - rewrite lookup_app_l; first lia. by rewrite lookup_take_lt.
  - rewrite lookup_app_r; first lia. rewrite Hlen lookup_app_l //. lia.
  - rewrite lookup_app_r; first lia. rewrite Hlen lookup_app_r; first lia. rewrite lookup_drop. f_equal. lia.
Qed.

Lemma length_write_at off bs file : bs ≠ [] →
  List.length (write_at off bs file) = (off + List.length bs) `max` List.length file.
Proof.
  rewrite /write_at. case: bs => [//|b bs] _.
  rewrite !length_app length_take length_app length_replicate length_drop. lia.
Qed.

Lemma write_at_app off a b file : write_at (off + List.length a) b (write_at off a file) = write_at off (a ++ b) file.
Proof.
  case: (decide (a = [])) => [->|Ha]; first by rewrite /= Nat.add_0_r.
  case: (decide (b = [])) => [->|Hb]; first by rewrite app_nil_r.
  apply list_eq => i. rewrite !lookup_write_at //; first by case: a Ha.
  rewrite length_write_at // length_app.
  rewrite (_ : off + List.length a - (off + List.length a) `max` List.length file = 0); first lia.
  rewrite app_nil_r lookup_write_at //.
  repeat case_decide; try lia; try done.
  - rewrite lookup_app_l //. lia.
  - rewrite lookup_app_r; first lia. f_equal. lia.
Qed.

Lemma read_written off bs file : take (List.length bs) (drop off (write_at off bs file)) = bs.
Proof.
  case: (decide (bs = [])) => [->|Hb]; first by rewrite take_0.
  apply list_eq => i. case: (decide (i < List.length bs)) => Hi.
  - rewrite lookup_take_lt // lookup_drop lookup_write_at //. repeat case_decide; try lia. f_equal. lia.
  - rewrite lookup_take_ge; first lia. by rewrite lookup_ge_None_2 //; lia.
Qed.

Lemma read_elsewhere off bs file o n : o + n ≤ List.length file →
  o + n ≤ off ∨ off + List.length bs ≤ o → take n (drop o (write_at off bs file)) = take n (drop o file).
Proof.
  move=> Hf Hd. case: (decide (bs = [])) => [->|Hb] //.
  apply list_eq => i. case: (decide (i < n)) => Hi; last by rewrite !lookup_take_ge //; lia.
  rewrite !lookup_take_lt // !lookup_drop lookup_write_at //. repeat case_decide; try lia; try done.
  rewrite lookup_app_l //. lia.
Qed.

(** ** Writing from a reader *)

(** The bytes a source delivers before it ends or fails. *)
Fixpoint delivered (src : Source) : Bytes :=
  match src with
  | Ok (b :: bs) :: rest => b :: bs ++ delivered rest
  | _ => []
  end.

Lemma write_fill_spec buffer_size src limit b : initialized b → buffer_size ≤ cap b →
  match fill buffer_size src limit b with
  | Ok (b', src', limit') =>
      ∃ x, contents b' = contents b ++ x ∧ len b' = len b + List.length x ∧ delivered src = x ++ delivered src' ∧
        limit = List.length x + limit' ∧ initialized b' ∧ cap b' = cap b ∧
        (buffer_size ≤ len b' ∨ limit' = 0 ∨ delivered src' = [])
  | Err _ => List.length (delivered src) < limit
  end.
Proof.
  elim: src limit b => [|r src IH] limit b Hb Hc /=.
  { case: Nat.leb_spec => Hl /=; [|case: Nat.eqb_spec => He /=]; exists []; rewrite ?app_nil_r /=; split_and!; auto; lia. }
  case: Nat.leb_spec => Hl /=; first by exists []; rewrite app_nil_r /=; split_and!; auto; lia.
  case: Nat.eqb_spec => He /=; first by exists []; rewrite app_nil_r /=; split_and!; auto; lia.
  case: r => [[|b0 bs]|e] /=; [by exists []; rewrite app_nil_r /=; split_and!; auto; lia| |lia].
  set room := limit `min` (cap b - len b). have Er : room = limit `min` (cap b - len b) by []. have Hlb : len b ≤ cap b by destruct Hb.
  case: Nat.leb_spec => Hr.
  - have Hfit : len b + List.length (b0 :: bs) ≤ cap b by simpl; lia.
    have := IH (limit - S (List.length bs)) (append (b0 :: bs) b) (append_ok _ _ Hb Hfit) Hc.
    case: (fill _ _ _ _) => [[[b' src'] limit']|e] /=.
    + move=> [x [Hx [Hlen [Hd [Hli [Hi [Hcap Hstop]]]]]]]. simpl in Hlen, Hcap. exists (b0 :: bs ++ x).
      rewrite Hx contents_append // Hd -!app_assoc /= length_app. split_and!; auto; try lia. by rewrite app_assoc.
    + rewrite length_app /=. lia.
  - have Hlen : List.length (take room (b0 :: bs)) = room by rewrite length_take /=; lia.
    have Hfit : len b + List.length (take room (b0 :: bs)) ≤ cap b by rewrite Hlen; lia.
    exists (take room (b0 :: bs)). rewrite contents_append // Hlen.
    split_and!; [done|simpl; lia| |lia|by apply append_ok|done|simpl; lia].
    have Hne : drop room (b0 :: bs) ≠ [] by move=> /(f_equal List.length); rewrite length_drop /=; lia.
    rewrite app_comm_cons -{1}(take_drop room (b0 :: bs)) -app_assoc. f_equal.
    by case: (drop room (b0 :: bs)) Hne.
Qed.

Section write_range.
Context (writes : nat → WriteOutcome) (off expected buffer_size : nat) (file data : Bytes).

(** What it takes to succeed: the source has the bytes and every write completes. *)
Definition write_succeeds : Prop := List.length data = expected ∧ ∀ n, writes n = Written.

Definition in_flight_ok (w : Writing) : Prop :=
  match w_in_flight w with
  | None => w_file w = write_at off (w_hashed w) file
  | Some (r, b) => empty b ∧ buffer_size ≤ cap b ∧
                   match r with Ok _ => w_file w = write_at off (w_hashed w) file | Err _ => ¬ write_succeeds end
  end.
Definition writing_ok (src : Source) (limit : nat) (w : Writing) : Prop :=
  pool_ok (w_pool w) ∧ empty (w_buffer w) ∧ buffer_size ≤ cap (w_buffer w) ∧
  w_hashed w ++ take limit (delivered src) = data ∧ w_length w = List.length (w_hashed w) ∧
  w_offset w = off + w_length w ∧ w_length w + limit = expected ∧ in_flight_ok w.

Lemma write_all_at_ok (o : WriteOutcome) at_ bs f r f' : write_all_at o bs at_ f = (r, f') →
  match r with Ok _ => f' = write_at at_ bs f | Err _ => o ≠ Written end.
Proof. by case: o => [|e k] /= [<- Hf]. Qed.

Lemma write_loop_spec fuel src limit w : buffer_size ≠ 0 → writing_ok src limit w → limit < fuel →
  ∃ r w', write_loop writes fuel buffer_size src limit w = Some (r, w') ∧ pool_ok (w_pool w') ∧
    match r with
    | Ok _ => empty (w_buffer w') ∧ w_hashed w' = data ∧ w_length w' = List.length data ∧ in_flight_ok w'
    | Err _ => ¬ write_succeeds
    end.
Proof.
  move=> Hbs. elim: fuel src limit w => [|fuel IH] src limit w Hw Hf; first lia.
  destruct Hw as [Hp [[Hb Hb0] [Hcap [Hdata [Hlen [Hoff [Hexp Hfl]]]]]]]. simpl.
  have := write_fill_spec buffer_size src limit (w_buffer w) Hb Hcap.
  case: (fill _ _ _ _) => [[[b' src'] limit']|e]; last first.
  { move=> Hs. eexists _, _; split_and!; [done|done|]. move=> [Hl _].
    rewrite -Hdata length_app length_take in Hl. lia. }
  move=> [x [Hx [Hxl [Hd [Hli [Hb' [Hcap' Hstop]]]]]]].
  have Hx' : contents b' = x by rewrite Hx /contents Hb0 take_0.
  have Hdata' : w_hashed w ++ x ++ take limit' (delivered src') = data.
  { rewrite -Hdata Hd Hli. f_equal. by rewrite take_app_add. }
  case: Nat.eqb_spec => Hl0.
  { have Ex : x = [] by apply nil_length_inv; lia.
    have Et : take limit' (delivered src') = [] by destruct Hstop as [?|[->| ->]]; [lia|by rewrite take_0|by rewrite take_nil].
    rewrite Ex Et /= app_nil_r in Hdata'.
    eexists _, _; split_and!; [done|done|]. split_and!; [done|done|by rewrite -Hdata'|exact Hfl]. }
  have Hrec : ∃ rec p', pool_ok p' ∧ (match w_in_flight w with
                   | Some (Ok _, recycled) => (Ok recycled, w_pool w)
                   | Some (Err e, _) => (Err e, w_pool w)
                   | None => let '(recycled, p) := checkout buffer_size (w_pool w) in (Ok recycled, p)
                   end) = (rec, p') ∧
     match rec with Ok b => empty b ∧ buffer_size ≤ cap b ∧ w_file w = write_at off (w_hashed w) file
                  | Err _ => ¬ write_succeeds end.
  { rewrite /in_flight_ok in Hfl. case: (w_in_flight w) Hfl => [[[[]|e] b]|]; last first.
    - have [b [p' [-> [? [_ [? ?]]]]]] := checkout_spec buffer_size (w_pool w) Hp. move=> ?. by exists (Ok b), p'.
    - move=> [? [? ?]]. by exists (Err e), (w_pool w).
    - move=> [? [? ?]]. by exists (Ok b), (w_pool w). }
  have [rec [p' [Hp' [-> Hr]]]] := Hrec. case: rec Hr => [rec|e] Hr; last by eexists _, _; split_and!.
  destruct Hr as [He [Hc Hfile]].
  case E: (write_all_at _ _ _ _) => [r f]. have Hwr := write_all_at_ok _ _ _ _ _ _ E. rewrite Hx' in Hwr.
  apply IH; last lia. split_and!; simpl; [done|done|done| | | | |].
  - by rewrite Hx' -app_assoc.
  - rewrite Hx' length_app; lia.
  - lia.
  - lia.
  - rewrite /in_flight_ok /=. split_and!; [by apply clear_empty|lia|]. case: r Hwr {E} => [_|e] Hwr.
    + rewrite Hwr Hfile Hx' Hoff Hlen. apply write_at_app.
    + move=> [_ Hall]. by apply Hwr.
Qed.
End write_range.

Lemma write_range_spec writes fuel off expected buffer_size src file p : pool_ok p → expected < fuel →
  let data := take expected (delivered src) in
  ∃ res file' p', write_range writes fuel off expected buffer_size src file p = Some (res, file', p') ∧ pool_ok p' ∧
    match res with
    | Ok resp => resp = mkResponse expected data ∧ List.length data = expected ∧ file' = write_at off data file
    | Err _ => ¬ write_succeeds writes expected data
    end.
Proof.
  move=> Hp Hf data. rewrite /write_range.
  have [b [p1 [-> [Hp1 [_ [Hb Hcap]]]]]] := checkout_spec (buffer_size `max` 1) p Hp.
  have Hw : writing_ok writes off expected (buffer_size `max` 1) file data src expected (mkWriting file p1 off 0 [] b None 0).
  { rewrite /writing_ok /in_flight_ok /=. split_and!; auto; lia. }
  have [r [w [-> [Hpw Hr]]]] := write_loop_spec writes off expected (buffer_size `max` 1) file data fuel src expected _
    ltac:(lia) Hw Hf. simpl.
  case: r Hr => [_|e] Hr; last by eexists _, _, _; split_and!.
  destruct Hr as [[Hi _] [Hh [-> Hfl]]]. rewrite /in_flight_ok Hh in Hfl. rewrite Hh.
  have Hfin : ∀ f, f = write_at off data file →
    match (if (List.length data =? expected)%nat then Ok (mkResponse (List.length data) data)
        else Err (Unknown ("expected length " +:+ pretty (N.of_nat expected) +:+ " but got " +:+
                           pretty (N.of_nat (List.length data))))) with
    | Ok resp => resp = mkResponse expected data ∧ List.length data = expected ∧ f = write_at off data file
    | Err _ => ¬ write_succeeds writes expected data
    end.
  { move=> f ->. case: Nat.eqb_spec => [<-|Hne] //. by move=> [? _]. }
  case: (w_in_flight w) Hfl => [[[[]|e] b']|] Hfl.
  - destruct Hfl as [[Hb' _] [_ Hfile]]. eexists _, _, _; split; [done|]. split; [|exact (Hfin _ Hfile)].
    by apply give_back_spec; [apply give_back_spec|].
  - destruct Hfl as [_ [_ Hno]]. by eexists _, _, _; split_and!.
  - eexists _, _, _; split; [done|]. split; [by apply give_back_spec|]. by apply Hfin.
Qed.

(** ** Writing from a stream *)

(** A [pwritev] call that does not fail. *)
Definition progresses (o : PWrite) : bool := match o with Interrupted => false | _ => true end.
Definition good (o : PWrite) : Prop := match o with Interrupted => True | Wrote k => k ≠ 0 | PWriteFails _ => False end.
Definition chunks_ok (chunks : list Bytes) (written : nat) : Prop :=
  Forall (λ c, c ≠ []) chunks ∧ match chunks with [] => written = 0 | c :: _ => written < List.length c end.

Lemma advance_spec n chunks written : chunks_ok chunks written → n ≤ List.length (drop written (concat chunks)) →
  let '(chunks', written') := advance n chunks written in
  drop written' (concat chunks') = drop (written + n) (concat chunks) ∧ chunks_ok chunks' written'.
Proof.
  elim: chunks n written => [|c chunks IH] n written [Hne Hw] Hn /=; first by rewrite !drop_nil.
  have Hlen : List.length c ≠ 0. { apply Forall_cons in Hne as [Hc _]. by destruct c. }
  case: Nat.ltb_spec => Hlt /=; first by split; [|split; [|lia]].
  apply Forall_cons in Hne as [_ Hne].
  have Hok : chunks_ok chunks 0. { split; [done|]. case: chunks {IH Hn} Hne => [//|c' ?] /Forall_cons [? _]. by destruct c'; simpl; [|lia]. }
  rewrite /= length_drop length_app in Hn.
  have := IH (n - (List.length c - written)) 0 Hok. rewrite drop_0 => /(_ ltac:(lia)).
  case: (advance _ _ _) => [chunks' written'] [-> ?]. split; [|done].
  rewrite [RHS]drop_app_ge; first lia. f_equal. lia.
Qed.

Lemma write_all_vectored_at_spec outcomes chunks written off file : chunks_ok chunks written →
  let data := drop written (concat chunks) in
  List.length data ≤ List.length (filter progresses outcomes) →
  ∃ r file', write_all_vectored_at outcomes chunks written off file = Some (r, file') ∧
    match r with Ok _ => file' = write_at off data file | Err _ => ¬ Forall good outcomes end.
Proof.
  elim: outcomes chunks written off file => [|o outcomes IH] chunks written off file Hok /= Hlen.
  - case: chunks Hok Hlen => [|c chunks] [Hne Hw] /= Hlen.
    + eexists _, _; split; [done|]. by rewrite drop_nil.
    + rewrite length_drop length_app in Hlen. lia.
  - case: chunks Hok Hlen => [|c chunks] Hok Hlen.
    { eexists _, _; split; [done|]. by rewrite drop_nil. }
    have [Hne Hw] := Hok. set buffers := drop written c ++ _.
    have [k Hk] : ∃ k, drop written (concat (c :: chunks)) = buffers ++ k.
    { exists (concat (drop (MAX_WRITE_IOVECS - 1) chunks)).
      rewrite /buffers -app_assoc -concat_app take_drop /= drop_app_le //. lia. }
    have Hbl : List.length buffers ≠ 0 by rewrite /buffers length_app length_drop; lia.
    case: o Hlen => [count| |e] Hlen.
    + set n := count `min` List.length buffers. case: Nat.eqb_spec => Hn.
      { eexists _, _; split; [done|]. move=> /Forall_cons [Hg _]. simpl in Hg. lia. }
      have Hnl : n ≤ List.length (drop written (concat (c :: chunks))) by rewrite Hk length_app; lia.
      have := advance_spec n (c :: chunks) written Hok Hnl. case: (advance _ _ _) => [chunks' written'] [Hd Hok'].
      rewrite filter_cons_True // in Hlen. have {}Hlen : List.length (drop written' (concat chunks')) ≤
        List.length (filter progresses outcomes) by rewrite Hd -drop_drop length_drop; simpl in Hlen |- *; lia.
      have [r [f [-> Hr]]] := IH chunks' written' (off + n) (write_at off (take n buffers) file) Hok' Hlen.
      eexists _, _; split; [done|]. case: r Hr => [_|e] Hr; last by move=> /Forall_cons [_ ?].
      rewrite Hr Hd -drop_drop Hk. have Htl : List.length (take n buffers) = n by rewrite length_take; lia.
      rewrite -{1}Htl write_at_app. f_equal. rewrite drop_app_le; first lia. by rewrite app_assoc take_drop.
    + rewrite filter_cons_False // in Hlen. have [r [f [-> Hr]]] := IH (c :: chunks) written off file Hok Hlen.
      eexists _, _; split; [done|]. case: r Hr => [//|e] Hr. by move=> /Forall_cons [_ ?].
    + eexists _, _; split; [done|]. by move=> /Forall_cons [? _].
Qed.

(** The bytes a stream yields before it ends or fails; an empty chunk is skipped. *)
Fixpoint streamed (src : Source) : Bytes :=
  match src with
  | Ok bs :: rest => bs ++ streamed rest
  | _ => []
  end.

Lemma stage_spec buffer_size expected src s : s_length s ≤ expected →
  match stage buffer_size expected src s with
  | Ok (s', src') =>
      ∃ xs, s' = mkStreaming (s_file s) (s_offset s) (s_length s + List.length (concat xs)) (s_hashed s ++ concat xs)
                   (s_batch s ++ xs) (s_batch_size s + List.length (concat xs)) (s_in_flight s) (s_writes s) ∧
        Forall (λ c, c ≠ []) xs ∧ s_length s' ≤ expected ∧
        take (expected - s_length s) (streamed src) = concat xs ++ take (expected - s_length s') (streamed src') ∧
        (buffer_size ≤ s_batch_size s' ∨ s_length s' = expected ∨ streamed src' = [])
  | Err _ => List.length (streamed src) < expected - s_length s
  end.
Proof.
  have Hstop : ∀ s src, s_length s ≤ expected →
      (buffer_size ≤ s_batch_size s ∨ s_length s = expected ∨ streamed src = []) →
      ∃ xs, s = mkStreaming (s_file s) (s_offset s) (s_length s + List.length (concat xs)) (s_hashed s ++ concat xs)
                   (s_batch s ++ xs) (s_batch_size s + List.length (concat xs)) (s_in_flight s) (s_writes s) ∧
        Forall (λ c, c ≠ []) xs ∧ s_length s ≤ expected ∧
        take (expected - s_length s) (streamed src) = concat xs ++ take (expected - s_length s) (streamed src) ∧
        (buffer_size ≤ s_batch_size s ∨ s_length s = expected ∨ streamed src = []).
  { move=> s0 src0 Hle Hwhy. exists []. rewrite /= !app_nil_r !Nat.add_0_r. split_and!; [by destruct s0|constructor|done|done|done]. }
  elim: src s => [|r src IH] s Hle /=.
  { case: Nat.leb_spec => Hb /=; [|case: Nat.leb_spec => He /=]; apply (Hstop s []); auto. }
  case: Nat.leb_spec => Hb /=; first by apply (Hstop s (r :: src)); auto.
  case: Nat.leb_spec => He /=; first by apply (Hstop s (r :: src)); auto; right; left; lia.
  case: r => [[|b bs]|e] /=; [exact: IH| |lia].
  set c := take (expected - s_length s) (b :: bs).
  have Hc0 : c ≠ [] by move=> /(f_equal List.length); rewrite length_take /=; lia.
  have Hcl : List.length c = (expected - s_length s) `min` S (List.length bs) by rewrite length_take.
  have Hsplit : take (expected - s_length s) (b :: bs ++ streamed src) =
      c ++ take (expected - (s_length s + List.length c)) (streamed src).
  { rewrite app_comm_cons take_app /c. f_equal. f_equal. rewrite Hcl /=. lia. }
  move: (IH (mkStreaming (s_file s) (s_offset s) (s_length s + List.length c) (s_hashed s ++ c) (s_batch s ++ [c])
    (s_batch_size s + List.length c) (s_in_flight s) (s_writes s)) ltac:(simpl; lia)).
  case: (stage _ _ _ _) => [[s' src']|e] /=.
  - move=> [xs [-> [Hne [Hle' [Ht Hwhy]]]]]. exists (c :: xs). simpl in *. rewrite length_app.
    split_and!; [|by constructor|lia| |done].
    + by rewrite -!app_assoc !Nat.add_assoc.
    + by rewrite Hsplit Ht app_assoc.
  - rewrite length_app. lia.
Qed.

Section stream.
Context (writes : nat → list PWrite) (off expected buffer_size : nat) (file data : Bytes).
Context (enough : ∀ n, expected ≤ List.length (filter progresses (writes n))).

Definition stream_succeeds : Prop := List.length data = expected ∧ ∀ n, Forall good (writes n).

Definition stream_flight_ok (s : Streaming) : Prop :=
  match s_in_flight s with
  | Some (Err _) => ¬ stream_succeeds
  | _ => s_file s = write_at off (s_hashed s) file
  end.
Definition streaming_ok (src : Source) (s : Streaming) : Prop :=
  s_batch s = [] ∧ s_batch_size s = 0 ∧ s_length s ≤ expected ∧ s_length s = List.length (s_hashed s) ∧
  s_offset s = off + s_length s ∧ s_hashed s ++ take (expected - s_length s) (streamed src) = data ∧
  stream_flight_ok s.

Lemma stream_loop_spec fuel src s : buffer_size ≠ 0 → streaming_ok src s → expected - s_length s < fuel →
  ∃ r s', stream_loop writes fuel buffer_size expected src s = Some (r, s') ∧
    match r with
    | Ok _ => s_hashed s' = data ∧ s_length s' = List.length data ∧ stream_flight_ok s'
    | Err _ => ¬ stream_succeeds
    end.
Proof.
  move=> Hbs. elim: fuel src s => [|fuel IH] src s Hs Hf; first lia.
  destruct Hs as [Hb [Hbz [Hle [Hlen [Hoff [Hdata Hfl]]]]]]. simpl.
  have := stage_spec buffer_size expected src s Hle.
  case: (stage _ _ _ _) => [[s1 src']|e]; last first.
  { move=> Hshort. eexists _, _; split; [done|]. move=> [Hl _]. rewrite -Hdata length_app length_take in Hl. lia. }
  move=> [xs [-> [Hne [Hle' [Ht Hwhy]]]]]. simpl in *. rewrite Hb Hbz /= in Hwhy *.
  rewrite Ht app_assoc in Hdata. case: xs Hne Hle' Ht Hwhy Hdata => [|x xs] Hne Hle' Ht Hwhy Hdata.
  { have Et : take (expected - (s_length s + List.length (concat []))) (streamed src') = [].
    { simpl in *. destruct Hwhy as [?|[H| ->]]; [lia|by rewrite H Nat.sub_diag take_0|by rewrite take_nil]. }
    rewrite Et /= !app_nil_r in Hdata. eexists _, _; split; [done|]. rewrite /= !app_nil_r Nat.add_0_r.
    split_and!; [done|congruence|exact Hfl]. }
  have Hx : x ≠ [] by apply Forall_cons in Hne as [? _].
  have Hcok : chunks_ok (x :: xs) 0 by split; [done|]; destruct x; simpl; [done|lia].
  have Hpos : List.length (concat (x :: xs)) ≠ 0 by rewrite /= length_app; destruct x; simpl; [done|lia].
  have Hbig : List.length (drop 0 (concat (x :: xs))) ≤ List.length (filter progresses (writes (s_writes s))).
  { have := enough (s_writes s). rewrite drop_0. lia. }
  rewrite /stream_flight_ok in Hfl.
  have [r [f [Ew Hr]]] := write_all_vectored_at_spec (writes (s_writes s)) (x :: xs) 0 (s_offset s) (s_file s) Hcok Hbig.
  rewrite Ew drop_0 in Hr *. move: Hle' Hdata Hpos Hr Ew. move: (concat (x :: xs)) => bytes Hle' Hdata Hpos Hr Ew.
  have Hnext : s_file s = write_at off (s_hashed s) file →
    streaming_ok src' (mkStreaming f (s_offset s + List.length bytes) (s_length s + List.length bytes) (s_hashed s ++ bytes)
                         [] 0 (Some r) (S (s_writes s))).
  { move=> Hfile. rewrite /streaming_ok /stream_flight_ok /= length_app. split_and!; auto; try lia.
    case: r Hr {Ew} => [_|e] Hr; [rewrite Hr Hfile Hoff Hlen; apply write_at_app|by move=> [_ Hall]]. }
  case Efl: (s_in_flight s) Hfl => [[u|e]|] Hfl; [|by eexists _, _|]; (apply IH; [by apply Hnext|simpl; lia]).
Qed.
End stream.

Lemma write_range_from_stream_spec writes fuel off expected buffer_size src file :
  (∀ n, expected ≤ List.length (filter progresses (writes n))) → expected < fuel →
  let data := take expected (streamed src) in
  ∃ res file', write_range_from_stream writes fuel off expected buffer_size src file = Some (res, file') ∧
    match res with
    | Ok resp => resp = mkResponse expected data ∧ List.length data = expected ∧ file' = write_at off data file
    | Err _ => ¬ stream_succeeds writes expected data
    end.
Proof.
  move=> Henough Hf data. rewrite /write_range_from_stream.
  have Hs : streaming_ok writes off expected file data src (mkStreaming file off 0 [] [] 0 None 0).
  { rewrite /streaming_ok /stream_flight_ok /= Nat.sub_0_r. split_and!; auto; lia. }
  have [r [s [-> Hr]]] := stream_loop_spec writes off expected (buffer_size `max` 1) file data Henough fuel src _
    ltac:(lia) Hs ltac:(simpl; lia). simpl.
  case: r Hr => [u|e] Hr; last by eexists _, _.
  destruct Hr as [Hh [-> Hfl]]. rewrite Hh. rewrite /stream_flight_ok Hh in Hfl.
  case: (s_in_flight s) Hfl => [[v|e]|] Hfl; try (by eexists _, _);
    (eexists _, _; split; [done|]; case: Nat.eqb_spec => [H|Hne] /=; [by rewrite H|by move=> [? _]]).
Qed.

(** Writing a range from a reader always ends: it succeeds when the reader delivers at
    least the expected number of bytes and no write fails, and only then; success means that
    exactly the first [expected] bytes were written at the offset and hashed, however the
    reader cuts them into portions and whatever the size of the buffers, and every outcome
    leaves the buffer pool sound. *)
Theorem write_range_exact writes fuel off expected buffer_size src file p : pool_ok p → expected < fuel →
  let data := take expected (delivered src) in
  ∃ res file' p', write_range writes fuel off expected buffer_size src file p = Some (res, file', p') ∧ pool_ok p' ∧
    (∀ resp, res = Ok resp →
       resp = mkResponse expected data ∧ List.length data = expected ∧ file' = write_at off data file) ∧
    (expected ≤ List.length (delivered src) → (∀ n, writes n = Written) → ∃ resp, res = Ok resp).
Proof.
  move=> Hp Hf data. have [res [file' [p' [-> [Hp' Hres]]]]] := write_range_spec writes fuel off expected buffer_size src file p Hp Hf.
  eexists _, _, _; split_and!; [done|done| |].
  - by move=> resp E; subst res.
  - move=> Hlen Hall. case: res Hres => [resp _|e Hno]; first by exists resp.
    exfalso. apply Hno. split; [|done]. rewrite length_take. lia.
Qed.

(** C26: Fed the same bytes, in whatever portions, empty chunks included, and with whatever
    partial and interrupted writes, the buffered writer and the streaming writer give the same
    answer and leave the same file; both refuse a source that is too short. *)
Theorem writers_agree writes pwrites fuel off expected buffer_size buffer_size' src chunks file p :
  pool_ok p → expected < fuel → (∀ n, writes n = Written) →
  (∀ n, Forall good (pwrites n) ∧ expected ≤ List.length (filter progresses (pwrites n))) →
  delivered src = streamed chunks →
  ∃ res file' p' res' file'',
    write_range writes fuel off expected buffer_size src file p = Some (res, file', p') ∧
    write_range_from_stream pwrites fuel off expected buffer_size' chunks file = Some (res', file'') ∧
    if decide (expected ≤ List.length (streamed chunks))
    then res = res' ∧ file' = file'' ∧ res = Ok (mkResponse expected (take expected (streamed chunks)))
    else (∃ e, res = Err e) ∧ (∃ e, res' = Err e).
Proof.
  move=> Hp Hf Hw Hpw Hsrc.
  have [res [file' [p' [E1 [_ H1]]]]] := write_range_spec writes fuel off expected buffer_size src file p Hp Hf.
  have [res' [file'' [E2 H2]]] := write_range_from_stream_spec pwrites fuel off expected buffer_size' chunks file
    (λ n, proj2 (Hpw n)) Hf.
  exists res, file', p', res', file''. split; [done|]. split; [done|]. rewrite Hsrc in H1.
  case_decide as Hlen.
  - have Hl : List.length (take expected (streamed chunks)) = expected by rewrite length_take; lia.
    case: res H1 {E1} => [resp [-> [_ ->]]|e []]; last by split.
    case: res' H2 {E2} => [resp' [-> [_ ->]]|e []]; first done. split; [done|]. move=> n. apply Hpw.
  - case: res H1 {E1} => [resp [_ [Hl _]]|e _]; first by rewrite length_take in Hl; lia.
    case: res' H2 {E2} => [resp [_ [Hl _]]|e' _]; first by rewrite length_take in Hl; lia. by eauto.
Qed.

(** C27: What a successful write put at its offset is what a range reader of that range then
    reads, however short its reads are, the bytes the response hashed; every other range of
    the file reads as before. *)
Theorem written_range_reads_back writes fuel off expected buffer_size src file p resp file' p' :
  pool_ok p → expected < fuel →
  write_range writes fuel off expected buffer_size src file p = Some (Ok resp, file', p') →
  (∀ script size, expected < List.length script →
     read_all file' script (reader_new off expected size) p' = Some (r_hashed resp)) ∧
  (∀ o n script size, o + n ≤ List.length file → o + n ≤ off ∨ off + expected ≤ o → n < List.length script →
     read_all file' script (reader_new o n size) p' = read_all file script (reader_new o n size) p').
Proof.
  move=> Hp Hf E.
  have [? [? [? [E' [Hp' Hres]]]]] := write_range_spec writes fuel off expected buffer_size src file p Hp Hf.
  rewrite E in E'; case: E' => ???; subst. destruct Hres as [-> [Hlen ->]].
  split.
  - move=> script size Hs. rewrite read_new_all // -{1}Hlen read_written //.
  - move=> o n script size Hb Hd Hs. rewrite !read_new_all // read_elsewhere //. by rewrite Hlen.
Qed.
End FileWriteFacts.

(** ** Witnesses *)

Module FileWriteWitness.
Import FileIO FileIOFacts FileWriteFacts.

Definition old : Bytes := [x61; x62; x63; x64; x65].
Definition source : Source := [Ok [x78]; Ok [x79; x7a; x7a]].
Definition chunks : Source := [Ok [x78; x79]; Ok []; Ok [x7a]; Ok [x7a]].
Definition pwrites (n : nat) : list PWrite := [Interrupted; Wrote 1; Wrote 1; Wrote 1].
Definition all_written (n : nat) : WriteOutcome := Written.

(** Three of four bytes are written over the file through buffers of two. *)
Lemma write_range_exact_witness :
  ∃ res file' p', write_range all_written 4 1 3 2 source old (pool_new 100) = Some (res, file', p') ∧
    pool_ok p' ∧ ∃ resp, res = Ok resp.
Proof.
  destruct (write_range_exact all_written 4 1 3 2 source old (pool_new 100) (pool_new_ok 100) ltac:(lia))
    as (res & file' & p' & E & Hp & _ & H).
  exists res, file', p'. split; [exact E|]. split; [exact Hp|]. apply H; [simpl; lia|reflexivity].
Defined.

Lemma writers_agree_witness :
  ∃ res file' p' res' file'',
    write_range all_written 4 1 3 2 source old (pool_new 100) = Some (res, file', p') ∧
    write_range_from_stream pwrites 4 1 3 2 chunks old = Some (res', file'') ∧ res = res' ∧ file' = file''.
Proof.
  destruct (writers_agree all_written pwrites 4 1 3 2 2 source chunks old (pool_new 100) (pool_new_ok 100) ltac:(lia)
    (λ n, eq_refl)) as (res & file' & p' & res' & file'' & E1 & E2 & H).
  - intros n. split; [repeat constructor; simpl; lia|]. vm_compute. lia.
  - reflexivity.
  - exists res, file', p', res', file''. vm_compute in H. destruct H as (H1 & H2 & _). auto.
Defined.

Definition new : Bytes := [x61; x78; x79; x7a; x65].
Definition pool_after : BufferPool :=
  match write_range all_written 4 1 3 2 source old (pool_new 100) with Some (_, _, p) => p | None => pool_new 100 end.

Lemma written_range_reads_back_witness :
  read_all new [(0, 0); (0, 0); (0, 0); (0, 0)] (reader_new 1 3 2) pool_after = Some [x78; x79; x7a].
Proof.
  apply (proj1 (written_range_reads_back all_written 4 1 3 2 source old (pool_new 100)
    (mkResponse 3 [x78; x79; x7a]) new pool_after (pool_new_ok 100) ltac:(lia) eq_refl)); simpl; lia.
Defined.
End FileWriteWitness.
