(* ===== verification/ParentSelector.v ===== *)
(** * Selecting a parent

    Models [src/dragonfly-client/src/resource/parent_selector.rs]: the weights of the
    hosts of the parents, the reference counts of their connections, and the choice of a
    parent.  The three selectors ([ParentSelector], [PersistentParentSelector],
    [PersistentCacheParentSelector]) differ in the type of their peers, of which they read
    the identifier and the host.

    The network is input: which connections succeed, and what a host reports.  [register]
    and [unregister] are calls that nothing interrupts; [run_thread] takes the same code
    apart into its accesses to the shared maps, for the interleavings of downloads.  The
    random numbers are input too; [rand]'s [WeightedIndex] is a parameter. *)

From S2P Require Import Prelude Errors.
From Stdlib Require Import ZArith Lia String.
From stdpp Require Import base tactics numbers list gmap strings.
Local Open Scope Z_scope.

(** [common::v2::Network] and [Host], the fields that are read. *)
Record Network := mkNetwork { tx_bandwidth : option Z; max_tx_bandwidth : Z }.
Record Host := mkHost { host_id : string; ip : string; port : Z; network : option Network }.

(** [common::v2::Peer], [PersistentPeer] and [PersistentCachePeer]. *)
Record Peer := mkPeer { peer_id : string; peer_host : option Host }.

(** [struct CollectedParent] of [piece_collector.rs]. *)
Record CollectedParent := mkParent {
  id : string;
  host : option Host;
  download_ip : option string;
  download_tcp_port : option Z;
  download_quic_port : option Z;
}.

Module Selector.

Definition DEFAULT_NETWORK_WEIGHT : Z := 10000000000.

(** [struct ParentSelector]: the weights and the active requests per host. *)
Record ParentSelector := mkSelector { weights : gmap string Z; connections : gmap string Z }.

(** [ParentSelector::new]. *)
Definition new : ParentSelector := mkSelector ∅ ∅.

(** [Connection::new], [increment_request], [decrement_request]: the counter wraps. *)
Definition connection_new : Z := 0.
Definition increment_request (n : Z) : Z := u64_add n 1.
Definition decrement_request (n : Z) : Z := u64_sub n 1.

(** [calculate_weight_by_network]. *)
Definition calculate_weight_by_network (n : Network) : Z :=
  let tx_bw := default 0 (tx_bandwidth n) in
  let max_bw := max_tx_bandwidth n in
  if max_bw =? 0 then DEFAULT_NETWORK_WEIGHT else ((max_bw - tx_bw) `max` 0) `max` (max_bw / 10).

Definition weight_of (n : option Network) : Z :=
  match n with Some n => calculate_weight_by_network n | None => DEFAULT_NETWORK_WEIGHT end.

(** The weight of a candidate. *)
Definition weight (s : ParentSelector) (parent : CollectedParent) : Z :=
  match host parent with
  | None => 0
  | Some h => default 0 (weights s !! host_id h)
  end.

Section selector.
(** [WeightedIndex::new(weights)] with [sample]: [None] when the weights are refused; and
    [fastrand::usize(..n)], which panics on zero. *)
Context (weighted_index : list Z → option nat) (fastrand : nat → nat).

(** [ParentSelector::select]; [None] is a panic. *)
Definition select (parents : list CollectedParent) (s : ParentSelector) : option CollectedParent :=
  match weighted_index (weight s <$> parents) with
  | Some index => parents !! index
  | None => if decide (parents = []) then None else parents !! fastrand (List.length parents)
  end.

(** [IpAddr::from_str], and whether the host can be connected to. *)
Context (parse_ip : string → Result unit) (connects : Host → bool).

(** [ParentSelector::register] on one parent. *)
Definition register_one (parent : Peer) (s : ParentSelector) : Result unit * ParentSelector :=
  match peer_host parent with
  | None => (Ok tt, s)
  | Some h =>
      match connections s !! host_id h with
      | Some n => (Ok tt, mkSelector (weights s) (<[host_id h := increment_request n]> (connections s)))
      | None =>
          match parse_ip (ip h) with
          | Err e => (Err e, s)
          | Ok _ =>
              if connects h then
                let w := default (weight_of (network h)) (weights s !! host_id h) in
                (Ok tt, mkSelector (<[host_id h := w]> (weights s))
                          (<[host_id h := increment_request connection_new]> (connections s)))
              else (Ok tt, s)
          end
      end
  end.

(** [ParentSelector::register]: an address that does not parse returns at once. *)
Fixpoint register (parents : list Peer) (s : ParentSelector) : Result unit * ParentSelector :=
  match parents with
  | [] => (Ok tt, s)
  | parent :: parents =>
      match register_one parent s with
      | (Ok _, s) => register parents s
      | (Err e, s) => (Err e, s)
      end
  end.

(** [ParentSelector::unregister]. *)
Definition unregister_one (parent : Peer) (s : ParentSelector) : ParentSelector :=
  match peer_host parent with
  | None => s
  | Some h =>
      match connections s !! host_id h with
      | None => s
      | Some n =>
          let n := decrement_request n in
          if n =? 0 then mkSelector (delete (host_id h) (weights s)) (delete (host_id h) (connections s))
          else mkSelector (weights s) (<[host_id h := n]> (connections s))
      end
  end.
Definition unregister (parents : list Peer) (s : ParentSelector) : ParentSelector :=
  foldl (λ s parent, unregister_one parent s) s parents.

(** [sync_host] on a message of the host. *)
Definition sync_host (h : string) (n : option Network) (s : ParentSelector) : ParentSelector :=
  mkSelector (<[h := weight_of n]> (weights s)) (connections s).

(** ** Interleavings

    A download that registers a host and unregisters it later, before each of its accesses
    to the maps: [get], the connection, [weights.entry] and [connections.entry] of
    [register]; [get] with the decrement, the test for zero, [weights.remove] and
    [connections.remove] of [unregister].  A host that could not be connected to is
    unregistered as well; an address that does not parse ends the download. *)
Inductive Thread : Type :=
| RegisterGet (h : Host)
| RegisterConnect (h : Host)
| RegisterWeight (h : Host)
| RegisterEntry (h : Host)
| Registered (h : Host)
| Skipped (h : Host)
| UnregisterCheck (h : Host)
| UnregisterWeight (h : Host)
| UnregisterRemove (h : Host)
| Ended.

Definition run_thread (t : Thread) (s : ParentSelector) : Thread * ParentSelector :=
  match t with
  | RegisterGet h =>
      match connections s !! host_id h with
      | Some n => (Registered h, mkSelector (weights s) (<[host_id h := increment_request n]> (connections s)))
      | None => (RegisterConnect h, s)
      end
  | RegisterConnect h =>
      match parse_ip (ip h) with
      | Err _ => (Ended, s)
      | Ok _ => (if connects h then RegisterWeight h else Skipped h, s)
      end
  | RegisterWeight h =>
      (RegisterEntry h,
       mkSelector (<[host_id h := default (weight_of (network h)) (weights s !! host_id h)]> (weights s)) (connections s))
  | RegisterEntry h =>
      (Registered h,
       mkSelector (weights s)
         (<[host_id h := increment_request (default connection_new (connections s !! host_id h))]> (connections s)))
  | Registered h | Skipped h =>
      match connections s !! host_id h with
      | Some n => (UnregisterCheck h, mkSelector (weights s) (<[host_id h := decrement_request n]> (connections s)))
      | None => (Ended, s)
      end
  | UnregisterCheck h => (if decide (connections s !! host_id h = Some 0) then UnregisterWeight h else Ended, s)
  | UnregisterWeight h => (UnregisterRemove h, mkSelector (delete (host_id h) (weights s)) (connections s))
  | UnregisterRemove h => (Ended, mkSelector (weights s) (delete (host_id h) (connections s)))
  | Ended => (Ended, s)
  end.

(** [connections.entry] and [connections.remove] wait while the reference that [unregister]
    tests is held. *)
Definition checks (h : string) (t : Thread) : bool :=
  match t with UnregisterCheck h' => bool_decide (host_id h' = h) | _ => false end.
Definition blocked (t : Thread) (threads : list Thread) : bool :=
  match t with
  | RegisterEntry h | UnregisterRemove h => existsb (checks (host_id h)) threads
  | _ => false
  end.
End selector.

(** The selectors of the persistent kinds. *)
Definition persistent_select := select.
Definition persistent_register := register.
Definition persistent_unregister := unregister.
Definition persistent_sync_host := sync_host.
Definition persistent_calculate_weight_by_network := calculate_weight_by_network.
Definition persistent_cache_select := select.
Definition persistent_cache_register := register.
Definition persistent_cache_unregister := unregister.
Definition persistent_cache_sync_host := sync_host.
Definition persistent_cache_calculate_weight_by_network := calculate_weight_by_network.
End Selector.
