(* ===== verification/ParentSelectorFacts.v ===== *)
(** * Facts about the parent selector

    The connections count the registrations, in the calls one after the other and in the
    interleavings of downloads, while every connection succeeds and no host is registered
    while it is cleaned up; a failed or refused registration breaks the balance; the
    selection is a weighted choice among the candidates. *)

From S2P Require Import Prelude Errors ParentSelector.
From Stdlib Require Import ZArith Lia String.
From stdpp Require Import base tactics numbers list gmap strings.
Local Open Scope Z_scope.

Module SelectorFacts.
Import Selector.

(** ** Reference counting *)

(** The hosts a call registers, one entry per peer. *)
Definition hosts (parents : list Peer) : list string := omap (λ p, host_id <$> peer_host p) parents.
Lemma hosts_cons p ps : hosts (p :: ps) = hosts [p] ++ hosts ps.
Proof. unfold hosts. simpl. by destruct (host_id <$> peer_host p). Qed.
Definition count (h : string) (l : list string) : Z := Z.of_nat (List.length (filter (h =.) l)).

Lemma count_cons h x l : count h (x :: l) = (if decide (h = x) then 1 else 0) + count h l.
Proof. unfold count. rewrite filter_cons. destruct (decide (h = x)); simpl; lia. Qed.
Lemma count_cons_eq h l : count h (h :: l) = 1 + count h l.
Proof. by rewrite count_cons, decide_True. Qed.
Lemma count_app h l1 l2 : count h (l1 ++ l2) = count h l1 + count h l2.
Proof. unfold count. rewrite filter_app, length_app. lia. Qed.
Lemma count_perm h l1 l2 : l1 ≡ₚ l2 → count h l1 = count h l2.
Proof. unfold count. intros ->. done. Qed.
Lemma count_bound h l : 0 ≤ count h l ≤ Z.of_nat (List.length l).
Proof. unfold count. pose proof (length_filter (h =.) l). lia. Qed.
Lemma count_elem h l : count h l ≠ 0 ↔ h ∈ l.
Proof.
  induction l as [|x l IH]; [split; [done|set_solver]|]. rewrite count_cons.
  pose proof (count_bound h l). destruct (decide (h = x)) as [->|]; set_solver by lia.
Qed.

(** [live] are the registrations that have not been undone. *)
Definition counted (live : list string) (s : ParentSelector) : Prop :=
  ∀ h, (connections s !! h = if decide (count h live = 0) then None else Some (count h live)) ∧
       (is_Some (weights s !! h) ↔ count h live ≠ 0).

Lemma counted_perm l1 l2 s : l1 ≡ₚ l2 → counted l1 s → counted l2 s.
Proof. intros Hp Hc h. specialize (Hc h). by rewrite !(count_perm h _ _ Hp) in Hc. Qed.

(** A registration whose address parses and whose host can be connected to. *)
Definition reachable (parse_ip : string → Result unit) (connects : Host → bool) (p : Peer) : Prop :=
  ∀ h, peer_host p = Some h → connects h = true ∧ parse_ip (ip h) = Ok tt.

Lemma register_one_counted parse_ip connects p live s :
  counted live s → reachable parse_ip connects p → Z.of_nat (List.length (hosts [p] ++ live)) < 2 ^ 64 →
  ∃ s', register_one parse_ip connects p s = (Ok tt, s') ∧ counted (hosts [p] ++ live) s'.
Proof.
  intros Hc Hr Hb. unfold register_one, hosts in *. simpl in *. destruct (peer_host p) as [h|] eqn:Eh; simpl in *; [|by eexists].
  destruct (Hr h Eh) as [Hcon Hip]. rewrite Hip, Hcon. destruct (Hc (host_id h)) as [Hn Hw]. pose proof (count_bound (host_id h) live) as Hbd.
  rewrite Hn. destruct (decide (count (host_id h) live = 0)) as [Hz|Hz].
  - eexists; split; [done|]. intros x. simpl. rewrite count_cons. destruct (Hc x) as [Hx Hwx].
    destruct (decide (x = host_id h)) as [->|Hne].
    + rewrite Hz, !lookup_insert_eq. simpl. split; [done|]. split; [lia|by eexists].
    + rewrite !lookup_insert_ne by done. done.
  - eexists; split; [done|]. intros x. simpl. rewrite count_cons. destruct (Hc x) as [Hx Hwx].
    destruct (decide (x = host_id h)) as [->|Hne].
    + rewrite lookup_insert_eq. rewrite decide_False by lia. unfold increment_request.
      rewrite u64_add_id by (unfold u_in, u_max; lia). rewrite (Z.add_comm _ 1).
      split; [done|]. split; [lia|]. intros _. by apply Hw.
    + rewrite !lookup_insert_ne by done. done.
Qed.

Lemma register_counted parse_ip connects ps live s :
  counted live s → Forall (reachable parse_ip connects) ps → Z.of_nat (List.length (hosts ps ++ live)) < 2 ^ 64 →
  ∃ s', register parse_ip connects ps s = (Ok tt, s') ∧ counted (hosts ps ++ live) s'.
Proof.
  revert live s. induction ps as [|p ps IH]; intros live s Hc Hr Hb; cbn [register]; [by eexists|].
  apply Forall_cons in Hr as [Hp Hr]. rewrite hosts_cons in Hb |- *. rewrite !length_app in Hb.
  destruct (register_one_counted parse_ip connects p live s Hc Hp) as (s1 & -> & H1); [rewrite length_app; lia|].
  destruct (IH (hosts [p] ++ live) s1 H1 Hr) as (s2 & -> & H2); [rewrite !length_app; lia|].
  exists s2. split; [done|]. eapply counted_perm; [|exact H2].
  rewrite app_assoc. apply Permutation_app_tail, Permutation_app_comm.
Qed.

Lemma unregister_one_counted p live s :
  counted (hosts [p] ++ live) s → Z.of_nat (List.length (hosts [p] ++ live)) < 2 ^ 64 → counted live (unregister_one p s).
Proof.
  intros Hc Hb. unfold unregister_one, hosts in *. simpl in *. destruct (peer_host p) as [h|] eqn:Eh; simpl in *; [|done].
  destruct (Hc (host_id h)) as [Hn Hw]. rewrite count_cons_eq in Hn, Hw.
  pose proof (count_bound (host_id h) live) as Hbd. rewrite decide_False in Hn by lia. rewrite Hn. unfold decrement_request.
  rewrite u64_sub_id by (unfold u_in, u_max; lia). replace (1 + count (host_id h) live - 1) with (count (host_id h) live) by lia.
  destruct (Z.eqb_spec (count (host_id h) live) 0) as [Hz|Hz]; intros x; simpl; destruct (Hc x) as [Hx Hwx];
    rewrite count_cons in Hx, Hwx; destruct (decide (x = host_id h)) as [->|Hne].
  - rewrite !lookup_delete_eq, decide_True by done. split; [done|]. split; [by intros []|lia].
  - rewrite !lookup_delete_ne by done. done.
  - rewrite lookup_insert_eq, decide_False by done. split; [done|]. split; [lia|]. intros _. apply Hwx. lia.
  - rewrite lookup_insert_ne by done. done.
Qed.

Lemma unregister_counted ps live s :
  counted (hosts ps ++ live) s → Z.of_nat (List.length (hosts ps ++ live)) < 2 ^ 64 → counted live (unregister ps s).
Proof.
  revert live s. induction ps as [|p ps IH]; intros live s Hc Hb; [done|]; cbn [unregister foldl].
  rewrite hosts_cons, <-app_assoc in Hc, Hb.
  apply IH; [|rewrite !length_app in *; lia]. by apply unregister_one_counted.
Qed.

Lemma counted_new : counted [] new.
Proof. intros h. simpl. rewrite !lookup_empty. split; [done|]. split; [by intros []|done]. Qed.

(** ** Interleaved downloads *)

Record Concurrent := mkConcurrent { selector : ParentSelector; threads : list Thread }.

(** A thread holds a registration of [h], cleans [h] up, is about to count a registration of
    [h]. *)
Definition holds (h : string) (t : Thread) : bool :=
  match t with Registered h' => bool_decide (host_id h' = h) | _ => false end.
Definition cleans (h : string) (t : Thread) : bool :=
  match t with
  | UnregisterCheck h' | UnregisterWeight h' | UnregisterRemove h' => bool_decide (host_id h' = h)
  | _ => false
  end.
Definition counts (h : string) (t : Thread) : bool :=
  match t with RegisterGet h' | RegisterEntry h' => bool_decide (host_id h' = h) | _ => false end.

(** The registrations of [h] that are held, and whether [h] is being cleaned up. *)
Definition held (h : string) (ts : list Thread) : Z := foldr (λ t n, Z.b2z (holds h t) + n) 0 ts.
Definition cleaning (h : string) (ts : list Thread) : Prop := ∃ t, t ∈ ts ∧ cleans h t = true.

Lemma held_app h l1 l2 : held h (l1 ++ l2) = held h l1 + held h l2.
Proof. induction l1 as [|t l1 IH]; simpl; [done|]. rewrite IH. lia. Qed.
Lemma held_insert h ts i t t' :
  ts !! i = Some t → held h (<[i := t']> ts) = held h ts - Z.b2z (holds h t) + Z.b2z (holds h t').
Proof.
  intros Hi. rewrite <-(take_drop_middle ts i t Hi) at 2. rewrite (insert_take_drop ts i t') by (by eapply lookup_lt_Some).
  rewrite !held_app. simpl. lia.
Qed.
Lemma held_nonneg h ts : 0 ≤ held h ts ≤ Z.of_nat (List.length ts).
Proof. induction ts as [|t ts IH]; simpl; [lia|]. destruct (holds h t); simpl; lia. Qed.
Lemma held_lookup h ts i t : ts !! i = Some t → holds h t = true → 1 ≤ held h ts.
Proof.
  intros Hi Ht. rewrite <-(take_drop_middle ts i t Hi), held_app. simpl. rewrite Ht.
  pose proof (held_nonneg h (take i ts)). pose proof (held_nonneg h (drop (S i) ts)). simpl. lia.
Qed.
Lemma cleaning_insert h ts i t t' :
  ts !! i = Some t → (cleans h t = true → cleans h t' = true) → cleaning h ts → cleaning h (<[i := t']> ts).
Proof.
  intros Hi Hc (x & Hx & Hcx). apply list_elem_of_lookup in Hx as [j Hj]. destruct (decide (i = j)) as [->|Hne].
  - exists t'. split; [|apply Hc; congruence]. apply (list_elem_of_lookup_2 _ j). apply list_lookup_insert_eq. by eapply lookup_lt_Some.
  - exists x. split; [|done]. apply (list_elem_of_lookup_2 _ j). by rewrite list_lookup_insert_ne.
Qed.

Section interleaving.
Context (parse_ip : string → Result unit) (connects : Host → bool).

(** A thread that nothing interrupts does what the calls do. *)
Definition alone (ts : Thread * ParentSelector) : Thread * ParentSelector := run_thread parse_ip connects ts.1 ts.2.
Lemma registers_alone n h s :
  parse_ip (ip h) = Ok tt → connects h = true →
  Nat.iter (if decide (connections s !! host_id h = None) then 4 else 1) alone (RegisterGet h, s) =
    (Registered h, (register_one parse_ip connects (mkPeer n (Some h)) s).2).
Proof.
  intros Hip Hcon. unfold register_one. simpl. destruct (connections s !! host_id h) as [k|] eqn:E; simpl; unfold alone; simpl; rewrite E;
    [done|]. simpl. rewrite Hip, Hcon. simpl. by rewrite E.
Qed.
Lemma unregisters_alone n h s :
  Nat.iter 4 alone (Registered h, s) = (Ended, unregister_one (mkPeer n (Some h)) s).
Proof.
  unfold unregister_one. simpl. unfold alone. simpl. destruct (connections s !! host_id h) as [k|] eqn:E; simpl; [|done].
  rewrite lookup_insert_eq. destruct (Z.eqb_spec (decrement_request k) 0) as [->|Hne].
  - rewrite decide_True by done. simpl. by rewrite delete_insert_eq.
  - rewrite decide_False by congruence. done.
Qed.

(** Any number of downloads, one access after the other in any order, and reports of hosts at
    any time.  With [orderly], no registration of a host is counted while the host is being
    cleaned up. *)
Inductive reaches (orderly : bool) : Concurrent → Prop :=
| reaches_new : reaches orderly (mkConcurrent new [])
| reaches_spawn c h : reaches orderly c → reaches orderly (mkConcurrent (selector c) (threads c ++ [RegisterGet h]))
| reaches_report c h n : reaches orderly c → reaches orderly (mkConcurrent (sync_host h n (selector c)) (threads c))
| reaches_step c i t :
    reaches orderly c → threads c !! i = Some t → blocked t (threads c) = false →
    (orderly = true → ∀ h, counts h t = true → ¬ cleaning h (threads c)) →
    reaches orderly (mkConcurrent (run_thread parse_ip connects t (selector c)).2
                       (<[i := (run_thread parse_ip connects t (selector c)).1]> (threads c))).

(** The connection of a host of which [n] registrations are held. *)
Definition exact (clean : Prop) (n : Z) (conn : option Z) : Prop :=
  (n = 0 ∧ conn = None) ∨ (n = 0 ∧ conn = Some 0 ∧ clean) ∨ (n ≠ 0 ∧ conn = Some n).
Record orderly_inv (c : Concurrent) : Prop := {
  oi_exact h : exact (cleaning h (threads c)) (held h (threads c)) (connections (selector c) !! h);
  oi_clean h t : t ∈ threads c → t = UnregisterWeight h ∨ t = UnregisterRemove h → held (host_id h) (threads c) = 0;
  oi_skipped h : Skipped h ∉ threads c;
}.

Context (Hip : ∀ h, parse_ip (ip h) = Ok tt) (Hconnects : ∀ h, connects h = true).

Lemma exact_kept (clean clean' : Prop) n n' conn :
  exact clean n conn → (clean → clean') → n' = n → exact clean' n' conn.
Proof. intros [H|[(? & ? & ?)|H]] Hc ->; [by left|right; left; auto|by right; right]. Qed.

(** What an access does to the host [x]. *)
Lemma step_exact c i t x :
  orderly_inv c → threads c !! i = Some t → Z.of_nat (List.length (threads c)) < 2 ^ 64 →
  (∀ h, counts h t = true → ¬ cleaning h (threads c)) →
  exact (cleaning x (<[i := (run_thread parse_ip connects t (selector c)).1]> (threads c)))
    (held x (<[i := (run_thread parse_ip connects t (selector c)).1]> (threads c)))
    (connections (run_thread parse_ip connects t (selector c)).2 !! x).
Proof.
  intros Hinv Hi Hlen Hord. destruct (run_thread parse_ip connects t (selector c)) as [t' s'] eqn:Hrun. simpl.
  pose proof (held_insert x _ _ _ t' Hi) as Hheld. pose proof (held_nonneg x (threads c)) as Hnn.
  pose proof (cleaning_insert x _ _ _ t' Hi) as Hclean. pose proof (oi_exact _ Hinv x) as Hx.
  assert (cleans x t' = true → cleaning x (<[i := t']> (threads c))) as Hcl'.
  { intros Ht'. exists t'. split; [|done]. apply (list_elem_of_lookup_2 _ i), list_lookup_insert_eq. by eapply lookup_lt_Some. }
  pose proof (held_nonneg x (<[i := t']> (threads c))) as Hnn'. rewrite length_insert, Hheld in Hnn'. rewrite Hheld. clear Hheld.
  (* an access that touches neither the connection nor the registrations of [x] *)
  assert (connections s' !! x = connections (selector c) !! x → holds x t' = holds x t →
    (cleans x t = true → cleans x t' = true) →
    exact (cleaning x (<[i := t']> (threads c))) (held x (threads c) - Z.b2z (holds x t) + Z.b2z (holds x t')) (connections s' !! x)) as Hsame.
  { intros -> -> Hc. eapply exact_kept; [exact Hx|by apply Hclean|lia]. }
  destruct t as [h|h|h|h|h|h|h|h|h|]; simpl in Hrun, Hord.
  - destruct (connections (selector c) !! host_id h) as [n|] eqn:En; injection Hrun as <- <-; [|by apply Hsame].
    destruct (decide (host_id h = x)) as [Heq|Hne]; [|apply Hsame; simpl; [by rewrite lookup_insert_ne|by rewrite bool_decide_false|done]].
    specialize (Hord x ltac:(by apply bool_decide_eq_true)). simpl in Hnn' |- *. rewrite Heq in *. rewrite bool_decide_true in Hnn' |- * by done. rewrite lookup_insert_eq. simpl in Hnn'.
    destruct Hx as [[_ Hx]|[(_ & _ & ?)|[Hn Hx]]]; [congruence|done|]. assert (n = held x (threads c)) as -> by congruence.
    right. right. unfold increment_request. rewrite u64_add_id by (unfold u_in, u_max; lia). simpl. split; [lia|f_equal; lia].
  - rewrite Hip, Hconnects in Hrun. injection Hrun as <- <-. by apply Hsame.
  - injection Hrun as <- <-. by apply Hsame.
  - injection Hrun as <- <-.
    destruct (decide (host_id h = x)) as [Heq|Hne]; [|apply Hsame; simpl; [by rewrite lookup_insert_ne|by rewrite bool_decide_false|done]].
    specialize (Hord x ltac:(by apply bool_decide_eq_true)). simpl in Hnn' |- *. rewrite Heq in *. rewrite bool_decide_true in Hnn' |- * by done. rewrite lookup_insert_eq. simpl in Hnn'.
    right. right. unfold increment_request, connection_new. destruct Hx as [[Hn Hx]|[(_ & _ & ?)|[Hn Hx]]]; [|done|]; rewrite Hx; simpl.
    + rewrite u64_add_id by (unfold u_in, u_max; lia). split; [lia|f_equal; lia].
    + rewrite u64_add_id by (unfold u_in, u_max; lia). split; [lia|f_equal; lia].
  - destruct (decide (host_id h = x)) as [Heq|Hne].
    + assert (holds x (Registered h) = true) as Hh by (by apply bool_decide_eq_true).
      pose proof (held_lookup x _ _ _ Hi Hh) as Hpos. rewrite Hh, Heq in *.
      destruct Hx as [[Hn _]|[(Hn & _)|[Hn Hx]]]; [lia|lia|]. rewrite Hx in Hrun. injection Hrun as <- <-. simpl.
      rewrite lookup_insert_eq. unfold decrement_request. rewrite u64_sub_id by (unfold u_in, u_max; lia).
      destruct (decide (held x (threads c) = 1)) as [H1|H1].
      * right. left. rewrite H1. split; [done|]. split; [done|]. apply Hcl'. by apply bool_decide_eq_true.
      * right. right. split; [lia|f_equal; lia].
    + destruct (connections (selector c) !! host_id h) as [n|] eqn:En; injection Hrun as <- <-;
        apply Hsame; simpl; try done; [by rewrite lookup_insert_ne|by rewrite bool_decide_false..].
  - destruct (oi_skipped _ Hinv h). by eapply list_elem_of_lookup_2.
  - destruct (decide (connections (selector c) !! host_id h = Some 0)) as [H0|H0]; injection Hrun as <- <-; [by apply Hsame|].
    destruct (decide (host_id h = x)) as [Heq|Hne]; [|apply Hsame; simpl; [done|done|by rewrite bool_decide_false]].
    rewrite Heq in H0. simpl. destruct Hx as [[Hn Hx]|[(_ & Hx & _)|[Hn Hx]]]; [left|congruence|right; right]; (split; [lia|]); [done|].
    rewrite Hx. f_equal. lia.
  - injection Hrun as <- <-. by apply Hsame.
  - injection Hrun as <- <-. destruct (decide (host_id h = x)) as [Heq|Hne].
    + simpl. rewrite Heq, lookup_delete_eq. left. split; [|done].
      pose proof (oi_clean _ Hinv h _ ltac:(by eapply list_elem_of_lookup_2) ltac:(by right)) as Hz. rewrite Heq in Hz. lia.
    + apply Hsame; simpl; [by rewrite lookup_delete_ne|done|by rewrite bool_decide_false].
  - injection Hrun as <- <-. by apply Hsame.
Qed.

Lemma step_inv c i t :
  orderly_inv c → threads c !! i = Some t → Z.of_nat (List.length (threads c)) < 2 ^ 64 →
  (∀ h, counts h t = true → ¬ cleaning h (threads c)) →
  orderly_inv (mkConcurrent (run_thread parse_ip connects t (selector c)).2
                 (<[i := (run_thread parse_ip connects t (selector c)).1]> (threads c))).
Proof.
  intros Hinv Hi Hlen Hord. split; simpl.
  - intros x. by apply step_exact.
  - intros h t0 Ht0 Hwr.
    assert (cleaning (host_id h) (threads c) → held (host_id h) (threads c) = 0 →
      held (host_id h) (<[i := (run_thread parse_ip connects t (selector c)).1]> (threads c)) = 0) as Hkeep.
    { intros Hcl H0. rewrite (held_insert _ _ _ _ _ Hi). pose proof (held_nonneg (host_id h) (threads c)).
      assert (holds (host_id h) (run_thread parse_ip connects t (selector c)).1 = false) as ->.
      { destruct (holds _ _) eqn:Hh; [|done]. destruct (Hord (host_id h)); [|done].
        destruct t as [h'|h'|h'|h'|h'|h'|h'|h'|h'|]; simpl in Hh |- *; repeat case_match; simpl in *; try done. }
      destruct (holds (host_id h) t) eqn:Hh; [pose proof (held_lookup _ _ _ _ Hi Hh); lia|]. simpl. lia. }
    apply list_elem_of_lookup in Ht0 as [k Hk]. destruct (decide (i = k)) as [<-|Hne].
    + rewrite list_lookup_insert_eq in Hk by (by eapply lookup_lt_Some). injection Hk as Hk.
      destruct t as [h'|h'|h'|h'|h'|h'|h'|h'|h'|]; simpl in Hk; repeat case_match; subst t0; destruct Hwr as [Hwr|Hwr]; try done;
        injection Hwr as ->.
      * apply Hkeep; [exists (UnregisterCheck h); split; [by eapply list_elem_of_lookup_2|by apply bool_decide_eq_true]|].
        destruct (oi_exact _ Hinv (host_id h)) as [[? _]|[[? _]|[? Hx]]]; [done|done|congruence].
      * apply Hkeep; [exists (UnregisterWeight h); split; [by eapply list_elem_of_lookup_2|by apply bool_decide_eq_true]|].
        eapply (oi_clean _ Hinv); [by eapply list_elem_of_lookup_2|by left].
    + rewrite list_lookup_insert_ne in Hk by done. apply Hkeep.
      * exists t0. split; [by eapply list_elem_of_lookup_2|]. destruct Hwr as [-> | ->]; by apply bool_decide_eq_true.
      * eapply (oi_clean _ Hinv); [by eapply list_elem_of_lookup_2|done].
  - intros h [k Hk]%list_elem_of_lookup. destruct (decide (i = k)) as [<-|Hne].
    + rewrite list_lookup_insert_eq in Hk by (by eapply lookup_lt_Some). injection Hk as Hk.
      destruct t as [h'|h'|h'|h'|h'|h'|h'|h'|h'|]; simpl in Hk; rewrite ?Hip, ?Hconnects in Hk; repeat case_match; done.
    + rewrite list_lookup_insert_ne in Hk by done. apply (oi_skipped _ Hinv h). by eapply list_elem_of_lookup_2.
Qed.

Lemma interleaved_inv c : reaches true c → Z.of_nat (List.length (threads c)) < 2 ^ 64 → orderly_inv c.
Proof.
  induction 1 as [|c h _ IH|c h n _ IH|c i t _ IH Hi _ Hord]; simpl; intros Hlen.
  - split; simpl; [|by intros ? ? ?%not_elem_of_nil|by intros ? ?%not_elem_of_nil]. intros h. left. by rewrite lookup_empty.
  - rewrite length_app in Hlen. destruct (IH ltac:(lia)) as [He Hc Hs]. split; simpl.
    + intros x. eapply exact_kept; [apply He| |rewrite held_app; simpl; lia]. intros (t & Ht & Hx). exists t.
      split; [|done]. apply elem_of_app. by left.
    + intros x t [Ht|[= ->]%list_elem_of_singleton]%elem_of_app Hx; [|by destruct Hx].
      rewrite held_app. simpl. rewrite (Hc x t Ht Hx). done.
    + intros x [Ht|[=]%list_elem_of_singleton]%elem_of_app. by eapply Hs.
  - destruct (IH Hlen) as [He Hc Hs]. by split.
  - rewrite length_insert in Hlen. by apply step_inv; [apply IH| | |apply Hord].
Qed.

(** A schedule: the threads that make an access, one after the other; [None] where the thread
    waits, or where the schedule is not [orderly]. *)
Fixpoint schedule (orderly : bool) (l : list nat) (c : Concurrent) : option Concurrent :=
  match l with
  | [] => Some c
  | i :: l =>
      match threads c !! i with
      | Some t =>
          if blocked t (threads c) || (orderly && match t with
                 | RegisterGet h | RegisterEntry h => existsb (cleans (host_id h)) (threads c)
                 | _ => false
                 end) then None
          else let '(t', s') := run_thread parse_ip connects t (selector c) in
               schedule orderly l (mkConcurrent s' (<[i := t']> (threads c)))
      | None => None
      end
  end.
Lemma not_cleaning h ts : existsb (cleans h) ts = false → ¬ cleaning h ts.
Proof.
  intros He (t & Ht & Hc). assert (existsb (cleans h) ts = true) as Ht'; [|congruence].
  apply existsb_exists. exists t. split; [by apply list_elem_of_In|done].
Qed.
Lemma schedule_reaches orderly l c c' : reaches orderly c → schedule orderly l c = Some c' → reaches orderly c'.
Proof.
  induction l as [|i l IH] in c |- *; simpl; [by intros ? [= <-]|]. intros Hc.
  destruct (threads c !! i) as [t|] eqn:Hi; [|done].
  destruct (blocked t (threads c) || _) eqn:Hb; [done|]. apply orb_false_iff in Hb as [Hb Ho].
  assert (orderly = true → ∀ h, counts h t = true → ¬ cleaning h (threads c)) as Hord.
  { intros ->. simpl in Ho. intros h Hh. destruct t; simpl in Hh; try done; apply bool_decide_eq_true in Hh as <-; by apply not_cleaning. }
  pose proof (reaches_step orderly c i t Hc Hi Hb Hord) as Hstep.
  destruct (run_thread parse_ip connects t (selector c)) as [t' s']. by apply IH.
Qed.
End interleaving.

Lemma held_ended h ts : (∀ t, t ∈ ts → t = Ended) → held h ts = 0.
Proof.
  induction ts as [|t ts IH]; intros Hend; [done|]. simpl. rewrite (Hend t) by (by left). simpl. apply IH.
  intros t' Ht'. apply Hend. by right.
Qed.

(** Two downloads of the same host: the second one registers it between the test and the
    removal of the first one. *)
Definition a_host : Host := mkHost "h" "10.0.0.1" 4000 None.
Definition two_downloads : Concurrent := mkConcurrent new [RegisterGet a_host; RegisterGet a_host].
Lemma two_reached parse_ip connects orderly : reaches parse_ip connects orderly two_downloads.
Proof.
  exact (reaches_spawn _ _ _ (mkConcurrent new [RegisterGet a_host]) a_host
    (reaches_spawn _ _ _ (mkConcurrent new []) a_host (reaches_new _ _ _))).
Qed.
Definition overlap : list nat := [0; 0; 0; 0; 0; 0; 1; 0; 0]%nat.
Lemma overlap_loses : ∃ c, schedule (λ _, Ok tt) (λ _, true) false overlap two_downloads = Some c ∧ Registered a_host ∈ threads c ∧
  connections (selector c) !! "h" = None ∧ weights (selector c) !! "h" = None.
Proof.
  eexists. split; [vm_compute; reflexivity|]. split; [|split; reflexivity]. right. by left.
Qed.

(** C36: Downloads register and unregister hosts concurrently, one access to the shared maps
    after the other in any order, with reports of hosts at any time; all addresses parse, all
    connections succeed, and there are fewer than 2^64 downloads.
    If no registration of a host is counted while the host is being cleaned up, then a host
    has a connection whenever some download has registered it and not unregistered it, the
    connection counts these registrations exactly, and when all downloads have ended no
    connection is left (a late report may leave a weight).  Without that proviso, which nothing in the code ensures, a
    registration can be lost: a host that a download has just registered is left without a
    connection and without a weight by another download that cleans it up. *)
Theorem registrations_counted parse_ip connects :
  (∀ h, parse_ip (ip h) = Ok tt) → (∀ h, connects h = true) →
  (∀ c, reaches parse_ip connects true c → Z.of_nat (List.length (threads c)) < 2 ^ 64 →
     (∀ h, held h (threads c) ≠ 0 → connections (selector c) !! h = Some (held h (threads c))) ∧
     ((∀ t, t ∈ threads c → t = Ended) → connections (selector c) = ∅)) ∧
  (∃ h c, reaches (λ _, Ok tt) (λ _, true) false c ∧ Registered h ∈ threads c ∧
     connections (selector c) !! host_id h = None ∧ weights (selector c) !! host_id h = None).
Proof.
  intros Hip Hconnects. split.
  - intros c Hc Hlen. pose proof (interleaved_inv parse_ip connects Hip Hconnects c Hc Hlen) as [He _ _]. split.
    + intros h Hh. by destruct (He h) as [[? _]|[[? _]|[_ ?]]].
    + intros Hend. apply map_eq. intros h. rewrite lookup_empty.
      pose proof (held_ended h _ Hend) as H0.
      destruct (He h) as [[_ ?]|[(_ & _ & t & Ht & Hcl)|[? _]]]; [done| |done]. by rewrite (Hend t Ht) in Hcl.
  - destruct overlap_loses as (c & Hs & Hrest). exists a_host, c. split; [|exact Hrest].
    eapply schedule_reaches; [apply two_reached|exact Hs].
Qed.

(** A registration that fails breaks the balance.  A host that could not be connected
    to is not counted, but the download unregisters it all the same: it removes the
    connection and the weight that another download still uses.  And a parent whose address
    does not parse ends the registration with an error before the caller arranges to
    unregister: the parents registered before it stay for ever. *)
Theorem failed_registration_unbalances parse_ip (h bad : Host) e :
  parse_ip (ip h) = Ok tt → parse_ip (ip bad) = Err e → host_id h ≠ host_id bad →
  let used := (register parse_ip (λ _, true) [mkPeer "b" (Some h)] new).2 in
  (register parse_ip (λ _, false) [mkPeer "a" (Some h)] new = (Ok tt, new) ∧
   connections used !! host_id h = Some 1 ∧
   unregister [mkPeer "a" (Some h)] used = new) ∧
  (register parse_ip (λ _, true) [mkPeer "a" (Some h); mkPeer "b" (Some bad)] new = (Err e, used)).
Proof.
  intros Hip Hbad Hne. simpl. unfold register_one, unregister_one. simpl. rewrite lookup_empty, Hip. simpl.
  rewrite lookup_insert_eq. split_and!; try done.
  - unfold increment_request, connection_new, decrement_request.
    rewrite (u64_add_id 0 1), (u64_sub_id (0 + 1) 1) by (unfold u_in, u_max; lia). simpl. rewrite !delete_insert_id by done. done.
  - rewrite lookup_insert_ne by done. rewrite lookup_empty, Hbad. done.
Qed.

(** ** The choice *)

(** What [WeightedIndex] documents: no weights, only zeros or a total that overflows are
    refused, and an index of weight zero is never drawn. *)
Definition sum (ws : list Z) : Z := foldr Z.add 0 ws.
Definition weighted_index_spec (weighted_index : list Z → option nat) : Prop :=
  ∀ ws, Forall (λ w, 0 ≤ w) ws →
    (weighted_index ws = None ↔ ws = [] ∨ Forall (λ w, w = 0) ws ∨ 2 ^ 64 ≤ sum ws) ∧
    (∀ i, weighted_index ws = Some i → ∃ w, ws !! i = Some w ∧ w ≠ 0).
Definition fastrand_spec (fastrand : nat → nat) : Prop := ∀ n, n ≠ 0%nat → (fastrand n < n)%nat.

Definition weights_ok (s : ParentSelector) : Prop := ∀ h w, weights s !! h = Some w → 0 ≤ w.

Lemma weight_nonneg s p : weights_ok s → 0 ≤ weight s p.
Proof.
  unfold weight. intros Hs. destruct (host p) as [h|]; [|done]. destruct (weights s !! host_id h) eqn:E; simpl; [|done]. by eapply Hs.
Qed.

(** [select] panics only without a candidate; otherwise it returns one of them, and one
    with bandwidth left whenever a candidate is known to have some and the weights do not
    overflow together. *)
Theorem select_weighted weighted_index fastrand parents s :
  weighted_index_spec weighted_index → fastrand_spec fastrand → weights_ok s →
  (select weighted_index fastrand parents s = None ↔ parents = []) ∧
  (∀ p, select weighted_index fastrand parents s = Some p → p ∈ parents ∧
     (sum (weight s <$> parents) < 2 ^ 64 → Exists (λ q, weight s q ≠ 0) parents → weight s p ≠ 0)).
Proof.
  intros Hw Hf Hs. unfold select.
  assert (Forall (λ w, 0 ≤ w) (weight s <$> parents)) as Hnn.
  { apply Forall_fmap, Forall_true. intros p. by apply weight_nonneg. }
  destruct (Hw _ Hnn) as [Hnone Hsome]. destruct (weighted_index _) as [i|].
  - destruct (Hsome i eq_refl) as (w & Hi & Hpos). rewrite list_lookup_fmap in Hi.
    destruct (parents !! i) as [q|] eqn:Eq; [|done]. simplify_eq/=. split.
    + split; [done|]. intros ->. done.
    + intros p [= ->]. split; [by eapply list_elem_of_lookup_2|done].
  - destruct (decide (parents = [])) as [->|Hne]; [done|].
    assert (fastrand (List.length parents) < List.length parents)%nat as Hlt.
    { apply Hf. by destruct parents. }
    destruct (lookup_lt_is_Some_2 _ _ Hlt) as [q Hq]. split; [rewrite Hq; done|].
    intros p Hp. split; [by eapply list_elem_of_lookup_2|]. intros Hsum Hex. exfalso.
    destruct Hnone as [[Hn|[Hn|Hn]] _]; [done|by apply fmap_nil_inv in Hn| |lia].
    apply Exists_exists in Hex as (x & Hx & Hxw). rewrite Forall_fmap, Forall_forall in Hn. by apply Hxw, Hn.
Qed.

(** The weight of a host is its idle bandwidth, never less than a tenth of its maximum
    and never more than it; a host without a known maximum has the default weight. *)
Theorem weight_bounds n :
  0 ≤ max_tx_bandwidth n → 0 ≤ default 0 (tx_bandwidth n) →
  (max_tx_bandwidth n = 0 → calculate_weight_by_network n = DEFAULT_NETWORK_WEIGHT) ∧
  (max_tx_bandwidth n ≠ 0 →
     max_tx_bandwidth n / 10 ≤ calculate_weight_by_network n ≤ max_tx_bandwidth n ∧
     (10 * default 0 (tx_bandwidth n) ≤ 9 * max_tx_bandwidth n →
        calculate_weight_by_network n = max_tx_bandwidth n - default 0 (tx_bandwidth n))).
Proof.
  intros Hm Ht. unfold calculate_weight_by_network. destruct (Z.eqb_spec (max_tx_bandwidth n) 0) as [E|E]; [done|].
  split; [done|]. intros _. set (t := default 0 _) in *. set (m := max_tx_bandwidth n) in *.
  assert (10 * (m / 10) ≤ m < 10 * (m / 10) + 10) as Hd by (pose proof (Z.div_mod m 10); pose proof (Z.mod_pos_bound m 10); lia).
  split; [|intros]; lia.
Qed.
End SelectorFacts.

(** ** Witnesses *)

Module SelectorWitness.
Import Selector SelectorFacts.

Definition h1 : Host := mkHost "h1" "10.0.0.1" 4000 (Some (mkNetwork (Some 300) 1000)).
Definition h2 : Host := mkHost "h2" "no address" 4000 None.
Definition parse (s : string) : Result unit := if decide (s = "no address") then Err (Unknown s) else Ok tt.
Definition always (h : Host) : bool := true.
Definition p1 : Peer := mkPeer "p1" (Some h1).

Lemma p1_reachable : Forall (reachable parse always) [p1; p1].
Proof. assert (reachable parse always p1) by (intros h [= <-]; done). auto using Forall_cons_2, Forall_nil_2. Qed.

(** Both downloads find no connection and connect; the second one to get to the entry counts
    on. *)
Definition both : list nat := [0; 1; 0; 1; 0; 1; 1; 0]%nat.
Lemma both_register : ∃ c, schedule (λ _, Ok tt) (λ _, true) true both two_downloads = Some c ∧
  threads c = [Registered a_host; Registered a_host].
Proof. eexists. split; [vm_compute; reflexivity|reflexivity]. Qed.
Lemma registrations_counted_witness : ∃ c,
  reaches (λ _, Ok tt) (λ _, true) true c ∧ connections (selector c) !! "h" = Some 2.
Proof.
  destruct both_register as (c & Hs & Ht). exists c.
  assert (reaches (λ _, Ok tt) (λ _, true) true c) as Hc by (eapply schedule_reaches; [apply two_reached|exact Hs]).
  split; [exact Hc|].
  destruct (registrations_counted (λ _, Ok tt) (λ _, true) ltac:(done) ltac:(done)) as [Hcount _].
  destruct (Hcount c Hc) as [Hh _]; [rewrite Ht; simpl; lia|]. specialize (Hh "h"). rewrite Ht in Hh. exact (Hh ltac:(done)).
Defined.

Lemma failed_registration_unbalances_witness :
  register parse (λ _, false) [mkPeer "a" (Some h1)] new = (Ok tt, new) ∧
  unregister [mkPeer "a" (Some h1)] (register parse always [mkPeer "b" (Some h1)] new).2 = new.
Proof.
  destruct (failed_registration_unbalances parse h1 h2 (Unknown "no address") eq_refl eq_refl ltac:(done)) as [(H1 & _ & H2) _].
  split; [exact H1|exact H2].
Defined.

(** The first candidate with a weight. *)
Definition first_positive (ws : list Z) : option nat :=
  if decide (2 ^ 64 ≤ sum ws) then None else fst <$> list_find (λ w, w ≠ 0) ws.

Lemma first_positive_spec : weighted_index_spec first_positive.
Proof.
  intros ws _. unfold first_positive. split.
  - destruct (decide (2 ^ 64 ≤ sum ws)) as [Hs|Hs]; [tauto|]. rewrite fmap_None. split.
    + intros Hn. right; left. apply list_find_None in Hn. eapply Forall_impl; [exact Hn|]. simpl. intros w Hw. lia.
    + intros [->|[Hz|?]]; [done| |lia]. apply list_find_None. eapply Forall_impl; [exact Hz|]. simpl. intros w Hw. lia.
  - intros i Hi. destruct (decide _); [done|]. apply fmap_Some in Hi as ([j w] & Hf & ->).
    apply list_find_Some in Hf as (? & ? & _). eauto.
Qed.

Definition candidates : list CollectedParent :=
  [mkParent "x" None None None None; mkParent "p1" (Some h1) None None None].
Definition registered : ParentSelector := (register parse always [p1] new).2.

Lemma select_weighted_witness :
  ∃ p, select first_positive pred candidates registered = Some p ∧ weight registered p ≠ 0.
Proof.
  destruct (select_weighted first_positive pred candidates registered first_positive_spec) as [_ H].
  - intros n Hn. destruct n; [done|simpl; lia].
  - intros h w Hw. change (weights registered) with ({["h1" := 700]} : gmap string Z) in Hw.
    apply lookup_singleton_Some in Hw. lia.
  - exists (mkParent "p1" (Some h1) None None None). split; [done|].
    apply (H (mkParent "p1" (Some h1) None None None) eq_refl); [by vm_compute|].
    apply Exists_cons; right. apply Exists_cons; left. by vm_compute.
Defined.

Lemma weight_bounds_witness : calculate_weight_by_network (mkNetwork (Some 300) 1000) = 700.
Proof.
  destruct (weight_bounds (mkNetwork (Some 300) 1000)) as [_ H]; [simpl; lia|simpl; lia|].
  destruct (H ltac:(simpl; lia)) as [_ H']. apply H'. simpl; lia.
Defined.
End SelectorWitness.
