(* ===== verification/PieceCollector.v ===== *)
(** * Collecting pieces from parents

    Models [src/dragonfly-client/src/resource/piece_collector.rs]: one task per parent
    reads the pieces the parent reports, a timer per piece bounds the wait for the other
    parents, and the collector joins the tasks; they share the map of the pieces still to be
    collected, and send each piece to the downloader through a bounded channel.  The
    collectors of the two persistent kinds are the same code over other messages.

    The tasks interleave at their awaits and at the locks of the map: [act] is one
    uninterrupted run of one of them, and [None] means it has to wait.  A task that is
    aborted runs on to its next await that waits: a send with room in the channel does not
    ([Sending]), one that found the channel full does ([Waiting]) and may be aborted from then
    on, also after room was made and before it is polled again.  That tokio makes a task yield
    now and then though it need not wait is left out.  What the parents report and when their
    streams end is input.  [lost] and [discarded] only record what happened. *)

From S2P Require Import Prelude Errors MetadataTypes ParentSelector.
From Stdlib Require Import ZArith Lia String.
From stdpp Require Import base tactics numbers list gmap strings.

(** [struct CollectedPiece]. *)
Record CollectedPiece := mkCollected {
  number : Z;
  offset : Z;
  length : Z;
  parents : list CollectedParent;
}.

Module Collector.

(** The capacity of the channel of [run]. *)
Definition CHANNEL_CAPACITY : nat := 1024.

(** Where a task of [sync_pieces], a timer of [send_piece_after_timeout] and the collector
    are. *)
Inductive TaskPc : Type :=
| Syncing
| Removing (n : Z)
| Sending (piece : CollectedPiece)
| Waiting (piece : CollectedPiece)
| Finished.
Inductive TimerPc : Type := Sleeping (n : Z) | TimerSending (piece : CollectedPiece) | TimerDone.
Inductive MainPc : Type :=
| Joining
| Flushing (numbers : list Z)
| FlushSending (piece : CollectedPiece) (numbers : list Z)
| Stopping
| Returned.

(** The state the tasks share, and their own. *)
Record State := mkState {
  collected_pieces : gmap Z CollectedPiece;
  live : gset string;
  tasks : gmap string (CollectedParent * TaskPc);
  timers : list TimerPc;
  main : MainPc;
  sent : list CollectedPiece;
  received : nat;
  closed : bool;
  lost : list CollectedPiece;
  discarded : list CollectedPiece;
}.

Definition set_pieces (m : gmap Z CollectedPiece) (s : State) : State :=
  mkState m (live s) (tasks s) (timers s) (main s) (sent s) (received s) (closed s) (lost s) (discarded s).
Definition set_live (l : gset string) (s : State) : State :=
  mkState (collected_pieces s) l (tasks s) (timers s) (main s) (sent s) (received s) (closed s) (lost s) (discarded s).
Definition set_tasks (t : gmap string (CollectedParent * TaskPc)) (s : State) : State :=
  mkState (collected_pieces s) (live s) t (timers s) (main s) (sent s) (received s) (closed s) (lost s) (discarded s).
Definition set_timers (t : list TimerPc) (s : State) : State :=
  mkState (collected_pieces s) (live s) (tasks s) t (main s) (sent s) (received s) (closed s) (lost s) (discarded s).
Definition set_main (m : MainPc) (s : State) : State :=
  mkState (collected_pieces s) (live s) (tasks s) (timers s) m (sent s) (received s) (closed s) (lost s) (discarded s).
Definition push_sent (c : CollectedPiece) (s : State) : State :=
  mkState (collected_pieces s) (live s) (tasks s) (timers s) (main s) (sent s ++ [c]) (received s) (closed s) (lost s)
    (discarded s).
Definition push_lost (c : CollectedPiece) (s : State) : State :=
  mkState (collected_pieces s) (live s) (tasks s) (timers s) (main s) (sent s) (received s) (closed s) (lost s ++ [c])
    (discarded s).
Definition push_discarded (c : CollectedPiece) (s : State) : State :=
  mkState (collected_pieces s) (live s) (tasks s) (timers s) (main s) (sent s) (received s) (closed s) (lost s)
    (discarded s ++ [c]).

(** [PieceCollector::new]: the pieces to collect, without parents. *)
Definition interested (pieces : list Piece.Piece) : gmap Z CollectedPiece :=
  foldl (λ m p, <[Piece.number p := mkCollected (Piece.number p) (Piece.offset p) (Piece.length p) []]> m) ∅ pieces.

(** [PieceCollector::run]: a task per parent; of parents with the same identifier the last
    one counts. *)
Definition run (pieces : list Piece.Piece) (ps : list CollectedParent) : State :=
  let tasks := foldl (λ m p, <[id p := (p, Syncing)]> m) ∅ ps in
  mkState (interested pieces) (dom tasks) tasks [] Joining [] 0 false [] [].

(** Room in the channel. *)
Definition room (s : State) : bool := (List.length (sent s) <? received s + CHANNEL_CAPACITY)%nat.

(** [collected_pieces.remove(&number)]. *)
Definition remove (n : Z) (s : State) : option CollectedPiece * State :=
  (collected_pieces s !! n, set_pieces (delete n (collected_pieces s)) s).

(** A message of [parent]: [ip], [tcp_port] and [quic_port] are the address it announces. *)
Definition message (p : string) (parent : CollectedParent) (n : Z) (ip : string) (tcp_port quic_port : option Z)
    (s : State) : State :=
  match collected_pieces s !! n with
  | None => s
  | Some piece =>
      let parent := mkParent (id parent) (host parent) (Some ip) tcp_port quic_port in
      let piece := mkCollected (number piece) (offset piece) (length piece) (parents piece ++ [parent]) in
      let s := set_pieces (<[n := piece]> (collected_pieces s)) s in
      if (List.length (parents piece) <? size (live s))%nat then
        let s := set_tasks (<[p := (parent, Syncing)]> (tasks s)) s in
        if (List.length (parents piece) =? 1)%nat then set_timers (timers s ++ [Sleeping n]) s else s
      else set_tasks (<[p := (parent, Removing n)]> (tasks s)) s
  end.

(** The end of the body of the join loop. *)
Definition check_collected (s : State) : State :=
  set_main (if decide (collected_pieces s = ∅) then Stopping else Joining) s.

(** The collector after it joined the task of [p]. *)
Definition joined (p : string) (s : State) : State :=
  let s := set_live (live s ∖ {[p]}) (set_tasks (delete p (tasks s)) s) in
  if decide (live s = ∅) then
    set_main (Flushing (omap (λ '(n, c), match parents c with [] => None | _ => Some n end)
                             (map_to_list (collected_pieces s)))) s
  else check_collected s.

Inductive Action : Type :=
| Message (p : string) (n : Z) (ip : string) (tcp_port quic_port : option Z)
| Remove (p : string)
| Send (p : string)
| Wait (p : string)
| EndOfStream (p : string)
| TimerFires (i : nat)
| TimerSends (i : nat)
| Join (p : string)
| Flush
| FlushSend
| Abort (p : string)
| Return
| Receive
| CloseReceiver.

Definition act (a : Action) (s : State) : option State :=
  match a with
  | Message p n ip tcp_port quic_port =>
      match tasks s !! p with
      | Some (parent, Syncing) => Some (message p parent n ip tcp_port quic_port s)
      | _ => None
      end
  | Remove p =>
      match tasks s !! p with
      | Some (parent, Removing n) =>
          let '(removed, s) := remove n s in
          Some (set_tasks (<[p := (parent, match removed with Some c => Sending c | None => Syncing end)]> (tasks s)) s)
      | _ => None
      end
  | Send p =>
      match tasks s !! p with
      | Some (parent, Sending c) | Some (parent, Waiting c) =>
          if closed s then Some (push_discarded c (set_tasks (<[p := (parent, Finished)]> (tasks s)) s))
          else if room s then Some (push_sent c (set_tasks (<[p := (parent, Syncing)]> (tasks s)) s))
          else None
      | _ => None
      end
  | Wait p =>
      match tasks s !! p with
      | Some (parent, Sending c) =>
          if closed s || room s then None else Some (set_tasks (<[p := (parent, Waiting c)]> (tasks s)) s)
      | _ => None
      end
  | EndOfStream p =>
      match tasks s !! p with
      | Some (parent, Syncing) => Some (set_tasks (<[p := (parent, Finished)]> (tasks s)) s)
      | _ => None
      end
  | TimerFires i =>
      match timers s !! i with
      | Some (Sleeping n) =>
          let '(removed, s) := remove n s in
          Some (set_timers (<[i := match removed with Some c => TimerSending c | None => TimerDone end]> (timers s)) s)
      | _ => None
      end
  | TimerSends i =>
      match timers s !! i with
      | Some (TimerSending c) =>
          if closed s then Some (push_discarded c (set_timers (<[i := TimerDone]> (timers s)) s))
          else if room s then Some (push_sent c (set_timers (<[i := TimerDone]> (timers s)) s))
          else None
      | _ => None
      end
  | Join p =>
      match main s, tasks s !! p with
      | Joining, Some (_, Finished) => Some (joined p s)
      | _, _ => None
      end
  | Flush =>
      match main s with
      | Flushing [] => Some (check_collected s)
      | Flushing (n :: ns) =>
          let '(removed, s) := remove n s in
          Some (set_main (match removed with Some c => FlushSending c ns | None => Flushing ns end) s)
      | _ => None
      end
  | FlushSend =>
      match main s with
      | FlushSending c ns =>
          if closed s then Some (push_discarded c (set_main Returned s))
          else if room s then Some (push_sent c (set_main (Flushing ns) s))
          else None
      | _ => None
      end
  | Abort p =>
      match main s, tasks s !! p with
      | Stopping, Some (_, Syncing) | Stopping, Some (_, Finished) => Some (set_tasks (delete p (tasks s)) s)
      | Stopping, Some (_, Waiting c) => Some (push_lost c (set_tasks (delete p (tasks s)) s))
      | _, _ => None
      end
  | Return =>
      match main s with
      | Joining | Stopping => if decide (tasks s = ∅) then Some (set_main Returned s) else None
      | _ => None
      end
  | Receive =>
      if (received s <? List.length (sent s))%nat then
        Some (mkState (collected_pieces s) (live s) (tasks s) (timers s) (main s) (sent s) (S (received s)) (closed s)
                (lost s) (discarded s))
      else None
  | CloseReceiver =>
      Some (mkState (collected_pieces s) (live s) (tasks s) (timers s) (main s) (sent s) (received s) true
              (lost s) (discarded s))
  end.

(** Any interleaving from the start. *)
Fixpoint acts (l : list Action) (s : State) : option State :=
  match l with
  | [] => Some s
  | a :: l => s ← act a s; acts l s
  end.

(** The collectors of the persistent kinds run the same code over their own streams. *)
Definition persistent_interested := interested.
Definition persistent_run := run.
Definition persistent_act := act.
Definition persistent_message := message.
Definition persistent_cache_interested := interested.
Definition persistent_cache_run := run.
Definition persistent_cache_act := act.
Definition persistent_cache_message := message.
End Collector.
