(* ===== verification/PieceCollectorFacts.v ===== *)
(** * Facts about the piece collector

    Whatever the parents report and however the tasks interleave, a piece reaches the
    downloader at most once, with the parents that reported it; nothing that was reported is
    left behind when the collector has ended, except a piece whose sender found the channel
    full and is aborted while it waits. *)

From S2P Require Import Prelude Errors MetadataTypes ParentSelector PieceCollector.
From Stdlib Require Import ZArith Lia String.
From stdpp Require Import base tactics numbers list gmap strings.

Module CollectorFacts.
Import Collector.

(** ** The pieces that have left the map *)

Definition in_task (t : CollectedParent * TaskPc) : option CollectedPiece :=
  match t.2 with Sending c | Waiting c => Some c | _ => None end.
Definition in_timer (t : TimerPc) : option CollectedPiece :=
  match t with TimerSending c => Some c | _ => None end.
Definition in_main (m : MainPc) : option CollectedPiece :=
  match m with FlushSending c _ => Some c | _ => None end.
Definition task_pieces (m : gmap string (CollectedParent * TaskPc)) : list CollectedPiece :=
  omap (λ x, in_task x.2) (map_to_list m).
Definition out (s : State) : list CollectedPiece :=
  option_list (in_main (main s)) ++ task_pieces (tasks s) ++ omap in_timer (timers s) ++ sent s ++ lost s ++ discarded s.
Definition keys (m : gmap Z CollectedPiece) : list Z := (map_to_list m).*1.

Lemma keys_delete n m c : m !! n = Some c → keys m ≡ₚ n :: keys (delete n m).
Proof.
  intros H. unfold keys. rewrite <-(insert_delete_id m n c) at 1 by done.
  rewrite map_to_list_insert by apply lookup_delete_eq. done.
Qed.
Lemma keys_insert n m c c' : m !! n = Some c → keys (<[n := c']> m) ≡ₚ keys m.
Proof.
  intros H. rewrite (keys_delete n m c H). rewrite (keys_delete n _ c') by apply lookup_insert_eq.
  by rewrite delete_insert_eq.
Qed.
Lemma keys_elem n m : n ∈ keys m ↔ is_Some (m !! n).
Proof.
  unfold keys. rewrite list_elem_of_fmap. split.
  - intros ([k c] & -> & Hx). apply elem_of_map_to_list in Hx. by eexists.
  - intros [c Hc]. exists (n, c). split; [done|]. by apply elem_of_map_to_list.
Qed.
Lemma keys_NoDup m : NoDup (keys m).
Proof. apply NoDup_fst_map_to_list. Qed.

Lemma task_pieces_lookup m p t : m !! p = Some t → task_pieces m ≡ₚ option_list (in_task t) ++ task_pieces (delete p m).
Proof.
  intros H. unfold task_pieces. rewrite <-(insert_delete_id m p t) at 1 by done.
  rewrite map_to_list_insert by apply lookup_delete_eq. simpl. by destruct (in_task t).
Qed.
Lemma task_pieces_insert m p t : task_pieces (<[p := t]> m) ≡ₚ option_list (in_task t) ++ task_pieces (delete p m).
Proof. rewrite (task_pieces_lookup _ p t) by apply lookup_insert_eq. by rewrite delete_insert_eq. Qed.

Lemma perm_mid {A} (x y M R : list A) : x ++ M ++ y ++ R ≡ₚ y ++ M ++ x ++ R.
Proof.
  rewrite !app_assoc. apply Permutation_app_tail. transitivity (y ++ (x ++ M)); [apply Permutation_app_comm|].
  rewrite <-app_assoc. apply Permutation_app_head, Permutation_app_comm.
Qed.
Lemma perm_front {A} (x M R : list A) : x ++ M ++ R ≡ₚ M ++ x ++ R.
Proof. rewrite !app_assoc. apply Permutation_app_tail, Permutation_app_comm. Qed.

Lemma timers_insert l i t t' : l !! i = Some t →
  option_list (in_timer t) ++ omap in_timer (<[i := t']> l) ≡ₚ option_list (in_timer t') ++ omap in_timer l.
Proof.
  intros H. rewrite (insert_take_drop l i t') by (by eapply lookup_lt_Some).
  replace (omap in_timer l) with (omap in_timer (take i l ++ t :: drop (S i) l)) by (by rewrite take_drop_middle).
  assert (∀ x R, omap in_timer (x :: R) = option_list (in_timer x) ++ omap in_timer R) as Hc.
  { intros x R. simpl. by destruct (in_timer x). }
  rewrite !omap_app, !Hc. apply perm_mid.
Qed.

(** How [out] changes with each part of the state. *)
Lemma out_tasks s p t t' : tasks s !! p = Some t →
  option_list (in_task t) ++ out (set_tasks (<[p := t']> (tasks s)) s) ≡ₚ option_list (in_task t') ++ out s.
Proof.
  intros H. unfold out. cbn [main tasks timers sent lost discarded set_tasks].
  rewrite (task_pieces_insert _ p t'), (task_pieces_lookup _ p t H), <-!app_assoc. apply perm_mid.
Qed.
Lemma out_delete s p t : tasks s !! p = Some t →
  option_list (in_task t) ++ out (set_tasks (delete p (tasks s)) s) ≡ₚ out s.
Proof.
  intros H. unfold out. cbn [main tasks timers sent lost discarded set_tasks].
  rewrite (task_pieces_lookup _ p t H), <-!app_assoc. apply perm_front.
Qed.
Lemma out_timers s i t t' : timers s !! i = Some t →
  option_list (in_timer t) ++ out (set_timers (<[i := t']> (timers s)) s) ≡ₚ option_list (in_timer t') ++ out s.
Proof.
  intros H. unfold out. cbn [main tasks timers sent lost discarded set_timers].
  do 2 (etransitivity; [apply perm_front|]; symmetry; etransitivity; [apply perm_front|]; apply Permutation_app_head; symmetry).
  rewrite !app_assoc. do 3 apply Permutation_app_tail. by apply timers_insert.
Qed.
Lemma out_main s m : option_list (in_main (main s)) ++ out (set_main m s) ≡ₚ option_list (in_main m) ++ out s.
Proof. unfold out. cbn [main tasks timers sent lost discarded set_main]. apply perm_front. Qed.
Lemma out_sleeping s n : out (set_timers (timers s ++ [Sleeping n]) s) = out s.
Proof. unfold out. simpl. by rewrite omap_app, app_nil_r. Qed.
Lemma out_sent s c : out (push_sent c s) ≡ₚ c :: out s.
Proof. unfold out. cbn [main tasks timers sent lost discarded push_sent]. rewrite <-!app_assoc. simpl. by rewrite <-!Permutation_middle. Qed.
Lemma out_lost s c : out (push_lost c s) ≡ₚ c :: out s.
Proof. unfold out. cbn [main tasks timers sent lost discarded push_lost]. rewrite <-!app_assoc. simpl. by rewrite <-!Permutation_middle. Qed.
Lemma out_discarded s c : out (push_discarded c s) ≡ₚ c :: out s.
Proof. unfold out. cbn [main tasks timers sent lost discarded push_discarded]. etransitivity; [|symmetry; apply Permutation_cons_append]. by rewrite <-!app_assoc. Qed.

(** ** The invariant *)

Section collector.
Context (wanted : list Piece.Piece) (ps : list CollectedParent).

(** A candidate parent; an interested piece with parents that reported it. *)
Definition known (q : CollectedParent) : Prop := ∃ q0, q0 ∈ ps ∧ id q0 = id q ∧ host q0 = host q.
Definition piece_ok (c : CollectedPiece) : Prop :=
  (∃ c0, interested wanted !! number c = Some c0 ∧ offset c = offset c0 ∧ PieceCollector.length c = PieceCollector.length c0) ∧
  Forall (λ q, known q ∧ is_Some (download_ip q)) (parents c).
Definition reported (c : CollectedPiece) : Prop := parents c ≠ [].

(** Someone is about to take the piece [n]. *)
Definition flushing (m : MainPc) : list Z := match m with Flushing ns | FlushSending _ ns => ns | _ => [] end.
Definition pending (n : Z) (s : State) : Prop :=
  Sleeping n ∈ timers s ∨ ∃ p q, tasks s !! p = Some (q, Removing n).

Definition accounted (m : gmap Z CollectedPiece) (l : list CollectedPiece) : Prop :=
  keys m ++ (number <$> l) ≡ₚ keys (interested wanted) ∧ Forall (λ c, piece_ok c ∧ reported c) l.

Record inv (s : State) : Prop := {
  inv_accounted : accounted (collected_pieces s) (out s);
  inv_map : ∀ n c, collected_pieces s !! n = Some c → number c = n ∧ piece_ok c;
  inv_tasks : ∀ p t, tasks s !! p = Some t → id t.1 = p ∧ known t.1;
  inv_pending : ∀ n c, collected_pieces s !! n = Some c → reported c → pending n s;
  inv_reported : ∀ n c, collected_pieces s !! n = Some c → pending n s ∨ n ∈ flushing (main s) → reported c;
  inv_lost : size (interested wanted) ≤ CHANNEL_CAPACITY → lost s = [];
  inv_closed : discarded s ≠ [] → closed s = true;
}.

Lemma accounted_perm m l l' : l ≡ₚ l' → accounted m l → accounted m l'.
Proof. intros Hp [H1 H2]. split; [by rewrite <-Hp|by rewrite <-Hp]. Qed.

(** Taking a reported piece out of the map. *)
Lemma accounted_remove s n c : inv s → collected_pieces s !! n = Some c → reported c →
  accounted (delete n (collected_pieces s)) (c :: out s).
Proof.
  intros Hi Hc Hr. destruct (inv_accounted s Hi) as [H1 H2]. destruct (inv_map s Hi n c Hc) as [Hn Hok].
  split; [|by constructor]. rewrite (keys_delete n _ c Hc) in H1. simpl. by rewrite <-Permutation_middle, Hn.
Qed.

(** Forgetting the pieces of a smaller map. *)
Lemma lookup_delete_inv n n' (m : gmap Z CollectedPiece) c :
  delete n m !! n' = Some c → n' ≠ n ∧ m !! n' = Some c.
Proof. rewrite lookup_delete_Some. naive_solver. Qed.

Lemma pending_task s n n' p q t : pending n' s → n' ≠ n → tasks s !! p = Some (q, Removing n) →
  pending n' (set_tasks (<[p := t]> (tasks s)) s).
Proof.
  intros [Hs|(p' & q' & Hp)] Hne Ht; [by left|]. right. exists p', q'. simpl.
  rewrite lookup_insert_ne; [done|]. intros ->. congruence.
Qed.
Lemma pending_other s n p q pc t : pending n s → tasks s !! p = Some (q, pc) → (∀ k, pc ≠ Removing k) →
  pending n (set_tasks (<[p := t]> (tasks s)) s).
Proof.
  intros [Hs|(p' & q' & Hp)] Ht Hpc; [by left|]. right. exists p', q'. simpl.
  rewrite lookup_insert_ne; [done|]. intros ->. simplify_eq. by eapply Hpc.
Qed.
Lemma pending_other_inv s n p t pc : pending n (set_tasks (<[p := (t, pc)]> (tasks s)) s) → (∀ k, pc ≠ Removing k) →
  pending n s.
Proof.
  intros [Hs|(p' & q' & Hp)] Hpc; [by left|]. right. simpl in Hp. exists p', q'.
  apply lookup_insert_Some in Hp as [[-> ?]|[_ ?]]; [|done]. simplify_eq. by edestruct Hpc.
Qed.
Lemma pending_delete s n p q pc : pending n s → tasks s !! p = Some (q, pc) → (∀ k, pc ≠ Removing k) →
  pending n (set_tasks (delete p (tasks s)) s).
Proof.
  intros [Hs|(p' & q' & Hp)] Ht Hpc; [by left|]. right. exists p', q'. simpl.
  rewrite lookup_delete_ne; [done|]. intros ->. simplify_eq. by eapply Hpc.
Qed.
Lemma pending_delete_inv s n p : pending n (set_tasks (delete p (tasks s)) s) → pending n s.
Proof. intros [Hs|(p' & q' & Hp)]; [by left|]. right. exists p', q'. simpl in Hp. by apply lookup_delete_Some in Hp as [_ ?]. Qed.

(** A task, other than one about to remove, changes and neither the map nor the pieces out do. *)
Lemma inv_set_task s p q pc q' pc' : inv s → tasks s !! p = Some (q, pc) →
  (∀ k, pc ≠ Removing k) → (∀ k, pc' ≠ Removing k) → in_task (q, pc) = None → in_task (q', pc') = None →
  id q' = p → known q' → inv (set_tasks (<[p := (q', pc')]> (tasks s)) s).
Proof.
  intros Hi Ht Hr Hr' Hn Hn' Hid Hk. destruct Hi as [Ha Hm Htk Hp Hrep Hl Hc]. split; simpl; try done.
  - eapply accounted_perm; [|exact Ha]. pose proof (out_tasks s p _ (q', pc') Ht) as E. rewrite Hn, Hn' in E. done.
  - intros p' t Hp'. apply lookup_insert_Some in Hp' as [[-> <-]|[_ Hp']]; [done|by eapply Htk].
  - intros n c Hlk Hc'. eapply pending_other; eauto.
  - intros n c Hlk [Hpd|Hf]; eapply Hrep; eauto. left. by eapply pending_other_inv.
Qed.

(** *** A message *)
Lemma inv_message s p q n ip tcp quic : inv s → tasks s !! p = Some (q, Syncing) →
  inv (message p q n ip tcp quic s).
Proof.
  intros Hi Ht. unfold message. destruct (collected_pieces s !! n) as [c|] eqn:Ec; [|done].
  destruct (inv_tasks s Hi p _ Ht) as [Hid (q0 & Hq0 & Hid0 & Hh0)]. simpl in Hid, Hid0, Hh0.
  set (q' := mkParent (id q) (host q) (Some ip) tcp quic).
  set (c' := mkCollected (number c) (offset c) (PieceCollector.length c) (parents c ++ [q'])).
  set (s1 := set_pieces (<[n := c']> (collected_pieces s)) s).
  assert (known q') as Hkn by (exists q0; done).
  destruct (inv_map s Hi n c Ec) as [Hn [(c0 & Hc0) Hps]].
  assert (piece_ok c') as Hok.
  { split; [by exists c0|]. apply Forall_app. split; [done|]. constructor; [|done]. split; [done|]. by eexists. }
  assert (reported c') as Hrep by (unfold reported; simpl; by destruct (parents c)).
  assert (∀ n' d, collected_pieces s1 !! n' = Some d → (n' = n ∧ d = c') ∨ (n' ≠ n ∧ collected_pieces s !! n' = Some d)) as Hlk.
  { intros n' d Hd. simpl in Hd. apply lookup_insert_Some in Hd as [[<- <-]|[Hne ?]]; auto. }
  assert (accounted (collected_pieces s1) (out s1)) as Ha.
  { destruct (inv_accounted s Hi) as [H1 H2]. split; [|exact H2]. simpl. by rewrite (keys_insert n _ c c' Ec). }
  assert (∀ n' d, collected_pieces s1 !! n' = Some d → number d = n' ∧ piece_ok d) as Hm.
  { intros n' d Hd. destruct (Hlk n' d Hd) as [[-> ->]|[_ Hd']]; [done|]. by eapply inv_map. }
  assert (∀ pc p' t, <[p := (q', pc)]> (tasks s) !! p' = Some t → id t.1 = p' ∧ known t.1) as Htk.
  { intros pc p' t Hp'. apply lookup_insert_Some in Hp' as [[<- <-]|[_ Hp']]; [done|by eapply inv_tasks]. }
  assert (∀ pc, out (set_tasks (<[p := (q', pc)]> (tasks s1)) s1) ≡ₚ option_list (in_task (q', pc)) ++ out s1) as Hout.
  { intros pc. by apply (out_tasks s1 p (q, Syncing) (q', pc)). }
  destruct Hi as [_ _ _ Hp Hrp Hl Hcl].
  destruct (Nat.ltb_spec (List.length (parents c')) (size (live s1))) as [Hlt|Hge].
  - assert (∀ n' d, collected_pieces s1 !! n' = Some d → pending n' s ∨ n' ∈ flushing (main s) → reported d) as Hrp'.
    { intros n' d Hd Hpd. destruct (Hlk n' d Hd) as [[-> ->]|[_ Hd']]; [done|eauto]. }
    destruct (Nat.eqb_spec (List.length (parents c')) 1) as [H1|H1]; split; try (exact Hm || exact Hl || exact Hcl || exact (Htk Syncing)).
    + eapply accounted_perm; [|exact Ha]. rewrite out_sleeping. symmetry. apply Hout.
    + intros n' d Hd Hdr. destruct (Hlk n' d Hd) as [[-> _]|[_ Hd']].
      * left. simpl. set_solver.
      * assert (pending n' (set_tasks (<[p := (q', Syncing)]> (tasks s)) s)) as [Hs|Hs] by (eapply pending_other; eauto).
        -- left. simpl in *. set_solver.
        -- right. done.
    + intros n' d Hd Hpd. destruct (Hlk n' d Hd) as [[-> ->]|[Hne Hd']]; [done|]. eapply Hrp'; [done|].
      destruct Hpd as [[Hs|Hs]|Hf]; [|left|by right].
      * left. left. simpl in Hs. set_solver.
      * apply (pending_other_inv s n' p q' Syncing); [right; exact Hs|done].
    + eapply accounted_perm; [|exact Ha]. symmetry. apply Hout.
    + intros n' d Hd Hdr. simpl. destruct (Hlk n' d Hd) as [[-> _]|[_ Hd']].
      * apply (pending_other s n p q Syncing); [|done|done]. eapply Hp; [done|]. simpl in H1. rewrite length_app in H1. simpl in H1.
        unfold reported. intros E. rewrite E in H1. done.
      * by apply (pending_other s n' p q Syncing); [eapply Hp| |].
    + intros n' d Hd Hpd. eapply Hrp'; [done|]. destruct Hpd as [Hpd|Hf]; [left|by right].
      by apply (pending_other_inv s n' p q' Syncing).
  - split; try (exact Hm || exact Hl || exact Hcl || exact (Htk (Removing n))).
    + eapply accounted_perm; [|exact Ha]. symmetry. apply Hout.
    + intros n' d Hd Hdr. destruct (Hlk n' d Hd) as [[-> _]|[_ Hd']].
      * right. exists p, q'. simpl. apply lookup_insert_eq.
      * by apply (pending_other s n' p q Syncing); [eapply Hp| |].
    + intros n' d Hd Hpd. destruct (Hlk n' d Hd) as [[-> ->]|[Hne Hd']]; [done|]. eapply Hrp; [done|].
      destruct Hpd as [[Hs|(p' & q1 & Hs)]|Hf]; [by left; left| |by right]. left; right. exists p', q1. simpl in Hs.
      apply lookup_insert_Some in Hs as [[_ ?]|[_ ?]]; [congruence|done].
Qed.

(** *** The other steps: pieces only leave the map *)
Lemma inv_step s s' : inv s →
  (∀ n c, collected_pieces s' !! n = Some c → collected_pieces s !! n = Some c) →
  accounted (collected_pieces s') (out s') →
  (∀ p t, tasks s' !! p = Some t → ∃ t0, tasks s !! p = Some t0 ∧ t0.1 = t.1) →
  (∀ n c, collected_pieces s' !! n = Some c → pending n s → pending n s') →
  (∀ n c, collected_pieces s' !! n = Some c → pending n s' ∨ n ∈ flushing (main s') →
     pending n s ∨ n ∈ flushing (main s) ∨ reported c) →
  (size (interested wanted) ≤ CHANNEL_CAPACITY → lost s = [] → lost s' = []) →
  (discarded s' ≠ [] → discarded s ≠ [] ∨ closed s' = true) → (closed s = true → closed s' = true) →
  inv s'.
Proof.
  intros Hi Hm Ha Ht Hp Hr Hl Hd Hc. destruct Hi as [_ Hm0 Ht0 Hp0 Hr0 Hl0 Hc0]. split; eauto.
  - intros p t Hpt. destruct (Ht p t Hpt) as (t0 & H0 & <-). eauto.
  - intros n c Hn Hpd. destruct (Hr n c Hn Hpd) as [?|[?|?]]; eauto.
  - intros H. destruct (Hd H); eauto.
Qed.

Lemma tasks_insert_same s p q pc pc' : tasks s !! p = Some (q, pc) →
  ∀ p' t, <[p := (q, pc')]> (tasks s) !! p' = Some t → ∃ t0, tasks s !! p' = Some t0 ∧ t0.1 = t.1.
Proof. intros Ht p' t Hp. apply lookup_insert_Some in Hp as [[<- <-]|[_ Hp]]; eauto. Qed.
Lemma tasks_delete_same s p : ∀ p' t, delete p (tasks s) !! p' = Some t → ∃ t0, tasks s !! p' = Some t0 ∧ t0.1 = t.1.
Proof. intros p' t Hp. apply lookup_delete_Some in Hp as [_ Hp]. eauto. Qed.

Lemma inv_remove_task s p q n : inv s → tasks s !! p = Some (q, Removing n) →
  inv (set_tasks (<[p := (q, match collected_pieces s !! n with Some c => Sending c | None => Syncing end)]> (tasks s))
         (set_pieces (delete n (collected_pieces s)) s)).
Proof.
  intros Hi Ht. set (pc := match collected_pieces s !! n with Some c => Sending c | None => Syncing end).
  assert (pending n s) as Hpn by (right; by exists p, q).
  assert (∀ k, pc ≠ Removing k) as Hpc by (intros k; unfold pc; by destruct (collected_pieces s !! n)).
  apply (inv_step s); try done; simpl; auto.
  - intros n' c Hn'. by apply lookup_delete_inv in Hn' as [_ ?].
  - pose proof (out_tasks (set_pieces (delete n (collected_pieces s)) s) p _ (q, pc) Ht) as E. simpl in E.
    eapply accounted_perm; [symmetry; exact E|]. change (out (set_pieces (delete n (collected_pieces s)) s)) with (out s).
    unfold pc. destruct (collected_pieces s !! n) as [c|] eqn:Ec; simpl.
    + apply accounted_remove; [done|done|]. eapply inv_reported; eauto.
    + rewrite delete_id by done. by apply inv_accounted.
  - by eapply tasks_insert_same.
  - intros n' c Hn' Hpd. apply lookup_delete_inv in Hn' as [Hne _]. exact (pending_task s n n' p q _ Hpd Hne Ht).
  - intros n' c Hn' [Hpd|Hf]; [left|by right; left]. by apply (pending_other_inv s n' p q pc).
Qed.

Lemma inv_send s p q c pc0 pc (push : CollectedPiece → State → State) : inv s → tasks s !! p = Some (q, pc0) →
  pc0 = Sending c ∨ pc0 = Waiting c →
  pc = Syncing ∨ pc = Finished →
  push = push_sent ∨ (push = push_discarded ∧ closed s = true) →
  inv (push c (set_tasks (<[p := (q, pc)]> (tasks s)) s)).
Proof.
  intros Hi Ht Hpc0 Hpc Hpush. assert (∀ k, pc0 ≠ Removing k) as Hnr0 by (intros k; by destruct Hpc0 as [-> | ->]).
  assert (in_task (q, pc0) = Some c) as Hin by (by destruct Hpc0 as [-> | ->]).
  assert (∀ k, pc ≠ Removing k) as Hnr by (intros k; by destruct Hpc as [-> | ->]).
  assert (in_task (q, pc) = None) as Hnt by (by destruct Hpc as [-> | ->]).
  set (s1 := set_tasks (<[p := (q, pc)]> (tasks s)) s).
  assert (out (push c s1) ≡ₚ out s) as Hout.
  { transitivity (c :: out s1). { destruct Hpush as [-> |[-> _]]; [apply out_sent|apply out_discarded]. }
    pose proof (out_tasks s p _ (q, pc) Ht) as E. rewrite Hnt, Hin in E. exact E. }
  assert (accounted (collected_pieces s) (out (push c s1))) as Ha.
  { eapply accounted_perm; [symmetry; exact Hout|]. by apply inv_accounted. }
  assert (∀ n, pending n s → pending n s1) as Hp1 by (intros n Hn; by eapply pending_other).
  assert (∀ n, pending n s1 → pending n s) as Hp2 by (intros n Hn; by eapply pending_other_inv).
  destruct Hpush as [-> |[-> Hcl]]; apply (inv_step s); try done; simpl; try (by eapply tasks_insert_same); auto.
  all: intros n d _ Hn; first [exact (Hp1 n Hn) | destruct Hn as [Hn|Hn]; [left; exact (Hp2 n Hn)|by right; left]].
Qed.

Lemma pending_timer s i t n : timers s !! i = Some t → (∀ k, t = Sleeping k → k ≠ n) →
  ∀ t', pending n s → pending n (set_timers (<[i := t']> (timers s)) s).
Proof.
  intros Ht Hne t' [Hs|Hs]; [left|by right]. simpl. apply list_elem_of_lookup in Hs as [j Hj].
  apply list_elem_of_lookup. exists j. rewrite list_lookup_insert_ne; [done|]. intros ->. simplify_eq. by eapply Hne.
Qed.
Lemma pending_timer_inv s i n t' : (∀ k, t' ≠ Sleeping k) → pending n (set_timers (<[i := t']> (timers s)) s) → pending n s.
Proof.
  intros Hne [Hs|Hs]; [left|by right]. simpl in Hs. apply list_elem_of_lookup in Hs as [j Hj].
  apply list_lookup_insert_Some in Hj as [(-> & E & _)|[_ Hj]]; [|by eapply list_elem_of_lookup_2]. by edestruct Hne.
Qed.

Lemma inv_timer_fires s i n : inv s → timers s !! i = Some (Sleeping n) →
  inv (set_timers (<[i := match collected_pieces s !! n with Some c => TimerSending c | None => TimerDone end]> (timers s))
         (set_pieces (delete n (collected_pieces s)) s)).
Proof.
  intros Hi Ht. set (t' := match collected_pieces s !! n with Some c => TimerSending c | None => TimerDone end).
  assert (pending n s) as Hpn by (left; by eapply list_elem_of_lookup_2).
  assert (∀ k, t' ≠ Sleeping k) as Hpc by (intros k; unfold t'; by destruct (collected_pieces s !! n)).
  apply (inv_step s); try done; simpl; eauto.
  - intros n' c Hn'. by apply lookup_delete_inv in Hn' as [_ ?].
  - pose proof (out_timers (set_pieces (delete n (collected_pieces s)) s) i _ t' Ht) as E. simpl in E.
    eapply accounted_perm; [symmetry; exact E|]. change (out (set_pieces (delete n (collected_pieces s)) s)) with (out s).
    unfold t'. destruct (collected_pieces s !! n) as [c|] eqn:Ec; simpl.
    + apply accounted_remove; [done|done|]. eapply inv_reported; eauto.
    + rewrite delete_id by done. by apply inv_accounted.
  - intros n' c Hn' Hpd. apply lookup_delete_inv in Hn' as [Hne _].
    apply (pending_timer s i _ n' Ht) with (t' := t') in Hpd; [exact Hpd|]. intros k [= <-]. done.
  - intros n' c Hn' [Hpd|Hf]; [left|by right; left]. by apply (pending_timer_inv s i n' t').
Qed.

Lemma inv_timer_sends s i c (push : CollectedPiece → State → State) : inv s → timers s !! i = Some (TimerSending c) →
  push = push_sent ∨ (push = push_discarded ∧ closed s = true) →
  inv (push c (set_timers (<[i := TimerDone]> (timers s)) s)).
Proof.
  intros Hi Ht Hpush. set (s1 := set_timers (<[i := TimerDone]> (timers s)) s).
  assert (out (push c s1) ≡ₚ out s) as Hout.
  { transitivity (c :: out s1). { destruct Hpush as [-> |[-> _]]; [apply out_sent|apply out_discarded]. }
    exact (out_timers s i _ TimerDone Ht). }
  assert (accounted (collected_pieces s) (out (push c s1))) as Ha.
  { eapply accounted_perm; [symmetry; exact Hout|]. by apply inv_accounted. }
  assert (∀ n, pending n s → pending n s1) as Hp1 by (intros n Hn; by apply (pending_timer s i (TimerSending c) n)).
  assert (∀ n, pending n s1 → pending n s) as Hp2 by (intros n Hn; by apply (pending_timer_inv s i n TimerDone)).
  destruct Hpush as [-> |[-> Hcl]]; apply (inv_step s); try done; simpl; eauto.
  all: intros n d _ Hn; first [exact (Hp1 n Hn) | destruct Hn as [Hn|Hn]; [left; exact (Hp2 n Hn)|by right; left]].
Qed.

(** A step of the collector or of the receiver that keeps the map and the pieces out. *)
Lemma inv_same s s' : inv s → collected_pieces s' = collected_pieces s → out s' ≡ₚ out s →
  tasks s' = tasks s → timers s' = timers s →
  (∀ n c, collected_pieces s !! n = Some c → n ∈ flushing (main s') → n ∈ flushing (main s) ∨ reported c) →
  lost s' = lost s → discarded s' = discarded s → (closed s = true → closed s' = true) → inv s'.
Proof.
  intros Hi Em Eo Et Eti Hf El Ed Hc. apply (inv_step s); try done.
  - by rewrite Em.
  - rewrite Em. eapply accounted_perm; [symmetry; exact Eo|]. by apply inv_accounted.
  - rewrite Et. eauto.
  - intros n c _. unfold pending. by rewrite Et, Eti.
  - intros n c Hn. unfold pending. rewrite Et, Eti. rewrite Em in Hn. intros [?|?]; [by left|]. right. eauto.
  - by rewrite El.
  - rewrite Ed. auto.
Qed.

Lemma inv_delete s p t : inv s → tasks s !! p = Some t → in_task t = None → (∀ k, t.2 ≠ Removing k) →
  inv (set_tasks (delete p (tasks s)) s).
Proof.
  intros Hi Ht Hn Hr. destruct t as [q pc]. apply (inv_step s); simpl; auto.
  - pose proof (out_delete s p _ Ht) as E. rewrite Hn in E. eapply accounted_perm; [symmetry; exact E|]. by apply inv_accounted.
  - by apply tasks_delete_same.
  - intros n c _ Hp. by eapply pending_delete.
  - intros n c _ [Hp|?]; [left|by right; left]. by eapply pending_delete_inv.
Qed.

Lemma inv_check s : inv s → in_main (main s) = None → inv (check_collected s).
Proof.
  intros Hi Hm. apply (inv_same s); try done.
  - pose proof (out_main s (if decide (collected_pieces s = ∅) then Stopping else Joining)) as E. rewrite Hm in E.
    unfold check_collected. revert E. by destruct (decide (collected_pieces s = ∅)).
  - intros n c _. simpl. destruct (decide _); simpl; set_solver.
Qed.

Lemma inv_joined s p q : inv s → main s = Joining → tasks s !! p = Some (q, Finished) → inv (joined p s).
Proof.
  intros Hi Hm Ht. unfold joined.
  assert (inv (set_live (live s ∖ {[p]}) (set_tasks (delete p (tasks s)) s))) as H1.
  { apply (inv_same (set_tasks (delete p (tasks s)) s)); auto. by apply (inv_delete s p (q, Finished)). }
  set (s1 := set_live _ _) in *. assert (in_main (main s1) = None) as Hm1 by (simpl; by rewrite Hm).
  destruct (decide (live s1 = ∅)); [|by apply inv_check].
  apply (inv_same s1); try done.
  - pose proof (out_main s1 (Flushing (omap (λ '(n, c), match parents c with [] => None | _ => Some n end)
      (map_to_list (collected_pieces s1))))) as E. rewrite Hm1 in E. exact E.
  - intros n c Hn Hf. right. cbn [flushing main set_main] in Hf. apply list_elem_of_omap in Hf as ([k d] & Hk & Hd).
    apply elem_of_map_to_list in Hk. destruct (parents d) eqn:E; [done|]. simplify_eq. unfold reported. by rewrite E.
Qed.

Lemma inv_flush s n ns : inv s → main s = Flushing (n :: ns) →
  inv (set_main (match collected_pieces s !! n with Some c => FlushSending c ns | None => Flushing ns end)
         (set_pieces (delete n (collected_pieces s)) s)).
Proof.
  intros Hi Hm. set (m' := match collected_pieces s !! n with Some c => FlushSending c ns | None => Flushing ns end).
  assert (flushing m' = ns) as Hfl by (unfold m'; by destruct (collected_pieces s !! n)).
  apply (inv_step s); try done; simpl; auto.
  - intros n' c Hn'. by apply lookup_delete_inv in Hn' as [_ ?].
  - pose proof (out_main (set_pieces (delete n (collected_pieces s)) s) m') as E. simpl in E. rewrite Hm in E. simpl in E.
    eapply accounted_perm; [symmetry; exact E|]. change (out (set_pieces (delete n (collected_pieces s)) s)) with (out s).
    unfold m'. destruct (collected_pieces s !! n) as [c|] eqn:Ec; simpl.
    + apply accounted_remove; [done|done|]. eapply inv_reported; [done|done|]. right. rewrite Hm. simpl. set_solver.
    + rewrite delete_id by done. by apply inv_accounted.
  - eauto.
  - intros n' c _ [?|Hf]; [by left|]. rewrite Hfl in Hf. right; left. rewrite Hm. simpl. set_solver.
Qed.

Lemma inv_flush_send s c ns m' (push : CollectedPiece → State → State) : inv s → main s = FlushSending c ns →
  m' = Returned ∨ m' = Flushing ns → push = push_sent ∨ (push = push_discarded ∧ closed s = true) →
  inv (push c (set_main m' s)).
Proof.
  intros Hi Hm Hm' Hpush. assert (in_main m' = None) as Hin by (by destruct Hm' as [-> | ->]).
  assert (out (push c (set_main m' s)) ≡ₚ out s) as Hout.
  { transitivity (c :: out (set_main m' s)). { destruct Hpush as [-> |[-> _]]; [apply out_sent|apply out_discarded]. }
    pose proof (out_main s m') as E. rewrite Hm, Hin in E. exact E. }
  assert (accounted (collected_pieces s) (out (push c (set_main m' s)))) as Ha.
  { eapply accounted_perm; [symmetry; exact Hout|]. by apply inv_accounted. }
  assert (∀ n, n ∈ flushing m' → n ∈ flushing (main s)) as Hf.
  { intros n. rewrite Hm. by destruct Hm' as [-> | ->]; simpl; [set_solver|]. }
  destruct Hpush as [-> |[-> Hcl]]; apply (inv_step s); try done; simpl; eauto.
  - intros n d _ [Hn|Hn]; [by left|]. right; left. by apply Hf.
  - intros n d _ [Hn|Hn]; [by left|]. right; left. by apply Hf.
Qed.

(** The channel is full. *)
Lemma inv_wait s p q c : inv s → tasks s !! p = Some (q, Sending c) → inv (set_tasks (<[p := (q, Waiting c)]> (tasks s)) s).
Proof.
  intros Hi Ht. apply (inv_step s); simpl; auto.
  - eapply accounted_perm; [|by apply inv_accounted]. apply (Permutation_cons_inv (a := c)). symmetry.
    exact (out_tasks s p _ (q, Waiting c) Ht).
  - by eapply tasks_insert_same.
  - intros n d _ Hp. by eapply pending_other.
  - intros n d _ [Hp|?]; [left|by right; left]. by eapply pending_other_inv.
Qed.

(** A blocked sender means that more pieces than the channel holds have been sent. *)
Lemma blocked_many s p q c : inv s → tasks s !! p = Some (q, Sending c) → room s = false →
  CHANNEL_CAPACITY < size (interested wanted).
Proof.
  intros Hi Ht Hroom. unfold room in Hroom. apply Nat.ltb_ge in Hroom.
  destruct (inv_accounted s Hi) as [Hp _]. apply Permutation_length in Hp.
  rewrite length_app, length_fmap in Hp. unfold keys in Hp at 2. rewrite length_fmap, length_map_to_list in Hp.
  unfold out in Hp. rewrite !length_app in Hp.
  pose proof (Permutation_length (task_pieces_lookup _ p _ Ht)) as E. simpl in E. lia.
Qed.

Definition waited_ok (s : State) : Prop :=
  ∀ p q c, tasks s !! p = Some (q, Waiting c) → CHANNEL_CAPACITY < size (interested wanted).

Lemma waited_insert s s' p q pc : waited_ok s → tasks s' = <[p := (q, pc)]> (tasks s) →
  (∀ c, pc = Waiting c → CHANNEL_CAPACITY < size (interested wanted)) → waited_ok s'.
Proof.
  intros Hw Et Hc p' q' c. rewrite Et. intros [[_ ?]|[_ ?]]%lookup_insert_Some; [|by eapply Hw].
  simplify_eq. by eapply Hc.
Qed.
Lemma waited_delete s s' p : waited_ok s → tasks s' = delete p (tasks s) → waited_ok s'.
Proof. intros Hw Et p' q' c. rewrite Et. intros [_ ?]%lookup_delete_Some. by eapply Hw. Qed.
Lemma waited_same s s' : waited_ok s → tasks s' = tasks s → waited_ok s'.
Proof. intros Hw Et p' q' c. rewrite Et. by eapply Hw. Qed.

Lemma act_waited a s s' : inv s → waited_ok s → act a s = Some s' → waited_ok s'.
Proof.
  intros Hi Hw Ha. destruct a; simpl in Ha.
  4: { repeat (case_match; simplify_eq/=). eapply waited_insert; [done|done|]. intros _ _.
       match goal with H : _ || _ = false |- _ => apply orb_false_elim in H as [_ ?] end. by eapply blocked_many. }
  all: unfold message, joined, check_collected in *; repeat (case_match; simplify_eq/=; try done); simplify_eq.
  all: try (by eapply waited_same); try (by eapply waited_delete).
  all: eapply waited_insert; [exact Hw|simpl; reflexivity|]; intros; done.
Qed.

Lemma inv_abort_sending s p q c : inv s → waited_ok s → tasks s !! p = Some (q, Waiting c) →
  inv (push_lost c (set_tasks (delete p (tasks s)) s)).
Proof.
  intros Hi Hw Ht. pose proof (Hw p q c Ht) as Hbig.
  apply (inv_step s); simpl; auto.
  - eapply accounted_perm; [|by apply inv_accounted]. rewrite out_lost. symmetry. exact (out_delete s p _ Ht).
  - by apply tasks_delete_same.
  - intros n d _ Hp. exact (pending_delete s n p q _ Hp Ht ltac:(done)).
  - intros n d _ [Hp|?]; [left|by right; left]. exact (pending_delete_inv s n p Hp).
  - intros. lia.
Qed.

Lemma inv_act a s s' : inv s → waited_ok s → act a s = Some s' → inv s'.
Proof.
  intros Hi Hw Ha. destruct a as [p n ip tcp quic|p|p|p|p|i|i|p| | |p| | |]; simpl in Ha.
  - destruct (tasks s !! p) as [[q []]|] eqn:Ht; simplify_eq. by apply inv_message.
  - destruct (tasks s !! p) as [[q []]|] eqn:Ht; simplify_eq. by apply inv_remove_task.
  - destruct (tasks s !! p) as [[q []]|] eqn:Ht; simplify_eq; (destruct (closed s) eqn:Hcl; [|destruct (room s)]); simplify_eq;
      (eapply (inv_send s p q piece _ _ push_discarded) + eapply (inv_send s p q piece _ _ push_sent)); eauto.
  - destruct (tasks s !! p) as [[q []]|] eqn:Ht; simplify_eq. destruct (closed s || room s); simplify_eq. by apply inv_wait.
  - destruct (tasks s !! p) as [[q []]|] eqn:Ht; simplify_eq. destruct (inv_tasks s Hi p _ Ht).
    by apply (inv_set_task s p q Syncing).
  - destruct (timers s !! i) as [[]|] eqn:Ht; simplify_eq. by apply inv_timer_fires.
  - destruct (timers s !! i) as [[]|] eqn:Ht; simplify_eq. destruct (closed s) eqn:Hcl; [|destruct (room s)]; simplify_eq.
    + apply (inv_timer_sends s i piece push_discarded); auto.
    + apply (inv_timer_sends s i piece push_sent); auto.
  - destruct (main s) eqn:Hm; simplify_eq. destruct (tasks s !! p) as [[q []]|] eqn:Ht; simplify_eq. by eapply inv_joined.
  - destruct (main s) as [|[|n ns]| | |] eqn:Hm; simplify_eq; [by apply inv_check; [|rewrite Hm]|by apply inv_flush].
  - destruct (main s) as [|[|n ns]| | |] eqn:Hm; simplify_eq. destruct (closed s) eqn:Hcl; [|destruct (room s)]; simplify_eq.
    + apply (inv_flush_send s piece numbers Returned push_discarded); auto.
    + apply (inv_flush_send s piece numbers (Flushing numbers) push_sent); auto.
  - destruct (main s) eqn:Hm; simplify_eq. destruct (tasks s !! p) as [[q []]|] eqn:Ht; simplify_eq; try by eapply inv_delete.
    by eapply inv_abort_sending.
  - assert (in_main (main s) = None → inv (set_main Returned s)) as Hret.
    { intros Hn. apply (inv_same s); try done. - pose proof (out_main s Returned) as E. by rewrite Hn in E. - set_solver. }
    destruct (main s) eqn:Hm; simplify_eq; destruct (decide (tasks s = ∅)); simplify_eq; by apply Hret.
  - destruct (received s <? List.length (sent s)) eqn:Hr; simplify_eq. apply (inv_same s); auto.
  - simplify_eq. apply (inv_same s); auto.
Qed.

(** ** The start *)
Lemma interested_inv n c : interested wanted !! n = Some c →
  ∃ w, w ∈ wanted ∧ Piece.number w = n ∧ c = mkCollected n (Piece.offset w) (Piece.length w) [].
Proof.
  unfold interested. induction wanted as [|w l IH] using rev_ind; [done|]. rewrite foldl_app. simpl.
  intros [[<- <-]|[_ H]]%lookup_insert_Some; [exists w; set_solver|].
  destruct (IH H) as (w' & ? & ? & ?). exists w'. set_solver.
Qed.
Lemma interested_is_Some w : w ∈ wanted → is_Some (interested wanted !! Piece.number w).
Proof.
  unfold interested. induction wanted as [|w' l IH] using rev_ind; [set_solver|]. rewrite foldl_app. simpl.
  intros Hw. destruct (decide (Piece.number w' = Piece.number w)) as [->|Hne]; [rewrite lookup_insert_eq; by eexists|].
  rewrite lookup_insert_ne by done. apply IH. set_solver.
Qed.
Lemma interested_size : size (interested wanted) ≤ List.length wanted.
Proof.
  unfold interested. induction wanted as [|w l IH] using rev_ind; [done|]. rewrite foldl_app, length_app. simpl.
  rewrite map_size_insert. case_match; simpl; lia.
Qed.

Lemma run_tasks p t : tasks (run wanted ps) !! p = Some t → id t.1 = p ∧ known t.1 ∧ t.2 = Syncing.
Proof.
  unfold known. simpl. induction ps as [|q l IH] using rev_ind; [done|]. rewrite foldl_app. simpl.
  intros [[<- <-]|[_ H]]%lookup_insert_Some; [simpl; split_and!; [done| |done]; exists q; set_solver|].
  destruct (IH H) as (? & (q0 & ? & ? & ?) & ?). split_and!; [done| |done]. exists q0. set_solver.
Qed.

Lemma run_no_task_pieces : task_pieces (tasks (run wanted ps)) = [].
Proof.
  unfold task_pieces. assert (∀ l, (∀ x, x ∈ l → x.2.2 = Syncing) → omap (λ x : string * (CollectedParent * TaskPc), in_task x.2) l = []) as H.
  { induction l as [|[p [q pc]] l IH]; intros Hl; [done|]. simpl. pose proof (Hl (p, (q, pc)) ltac:(set_solver)) as E. simpl in E.
    rewrite E. simpl. apply IH. set_solver. }
  apply H. intros [p t] Hx. apply elem_of_map_to_list in Hx. by apply run_tasks in Hx as (_ & _ & ?).
Qed.

Lemma run_inv : inv (run wanted ps).
Proof.
  assert (out (run wanted ps) = []) as Ho by (unfold out; rewrite run_no_task_pieces; done).
  split; try done.
  - rewrite Ho. split; [by rewrite app_nil_r|constructor].
  - intros n c Hc. simpl in Hc. pose proof (interested_inv n c Hc) as (w & _ & _ & ->). split; [done|].
    split; [by eexists|constructor].
  - intros p t Hp. by apply run_tasks in Hp as (? & ? & _).
  - intros n c Hc Hr. pose proof (interested_inv n c Hc) as (w & _ & _ & ->). done.
  - intros n c Hc [[Hs|(p & q & Hp)]|Hf]; [simpl in Hs; set_solver| |simpl in Hf; set_solver].
    apply run_tasks in Hp as (_ & _ & ?). done.
Qed.

Lemma run_waited : waited_ok (run wanted ps).
Proof. intros p q c Hp. by apply run_tasks in Hp as (_ & _ & ?). Qed.

Lemma acts_inv l s s' : inv s → waited_ok s → acts l s = Some s' → inv s'.
Proof.
  revert s. induction l as [|a l IH]; simpl; intros s Hi Hw Ha; [by simplify_eq|].
  apply bind_Some in Ha as (s1 & H1 & H2). eauto using inv_act, act_waited.
Qed.

(** The collector returns only when no task is left. *)
Definition returned_ok (s : State) : Prop := main s = Returned → tasks s = ∅ ∨ closed s = true.

Lemma act_returned a s s' : returned_ok s → act a s = Some s' → returned_ok s'.
Proof.
  unfold returned_ok. intros Hr Ha. destruct a; simpl in Ha; repeat (case_match; simplify_eq/=; auto); intros Hm; try done.
  all: try (destruct (Hr Hm) as [E|?]; [exfalso; rewrite E, lookup_empty in *; done|by right]).
  all: try (unfold joined, check_collected in Hm; by repeat (case_decide; simpl in Hm)).
  all: try (destruct (Hr Hm) as [?|?]; [by left|by right]).
  all: try congruence.
  - unfold message in *. repeat (case_match; simplify_eq/=; auto); destruct (Hr Hm) as [E|?]; auto; rewrite E, lookup_empty in *; done.
  - simplify_eq. by right.
Qed.

Lemma acts_returned l s s' : returned_ok s → acts l s = Some s' → returned_ok s'.
Proof.
  revert s. induction l as [|a l IH]; simpl; intros s Hi Ha; [by simplify_eq|].
  apply bind_Some in Ha as (s1 & H1 & H2). eauto using act_returned.
Qed.
End collector.

(** C33: However the reports, timers, ends of streams and the receiver interleave, the
    collector sends a piece at most once, only a piece that was asked for, with its offset
    and length, and with at least one parent; every parent it names is one of the candidates
    and has announced its address. *)
Theorem collected_at_most_once wanted ps l s : acts l (run wanted ps) = Some s →
  NoDup (number <$> sent s) ∧
  ∀ c, c ∈ sent s →
    (∃ w, w ∈ wanted ∧ Piece.number w = number c ∧ Piece.offset w = offset c ∧ Piece.length w = PieceCollector.length c) ∧
    parents c ≠ [] ∧
    ∀ q, q ∈ parents c → is_Some (download_ip q) ∧ ∃ q0, q0 ∈ ps ∧ id q0 = id q ∧ host q0 = host q.
Proof.
  intros Ha. pose proof (acts_inv wanted ps l _ s (run_inv wanted ps) (run_waited wanted ps) Ha) as Hi.
  destruct (inv_accounted _ _ s Hi) as [Hp Hf]. split.
  - pose proof (keys_NoDup (interested wanted)) as Hnd. rewrite <-Hp in Hnd.
    apply NoDup_app in Hnd as (_ & _ & Hnd). unfold out in Hnd. rewrite !fmap_app in Hnd.
    do 3 apply NoDup_app in Hnd as (_ & _ & Hnd). by apply NoDup_app in Hnd as (? & _ & _).
  - intros c Hc. rewrite Forall_forall in Hf. destruct (Hf c) as [[(c0 & Hc0 & Ho & Hl) Hps] Hr]; [unfold out; set_solver|].
    destruct (interested_inv wanted _ _ Hc0) as (w & Hw & Hn & ->). split; [exists w; by rewrite Ho, Hl|].
    split; [done|]. intros q Hq. rewrite Forall_forall in Hps. destruct (Hps q Hq) as [(q0 & ?) ?]. split; [done|]. by exists q0.
Qed.

(** The steps that wait neither for a parent nor for the receiver. *)
Definition internal (a : Action) : bool :=
  match a with Message _ _ _ _ _ | EndOfStream _ | Receive | CloseReceiver => false | _ => true end.
Definition quiet (s : State) : Prop := ∀ a, internal a = true → act a s = None.

(** When nothing is left to do, the collector has returned. *)
Lemma quiet_done s : returned_ok s → quiet s → closed s = false → room s = true →
  (∀ p q, tasks s !! p ≠ Some (q, Syncing)) →
  main s = Returned ∧ tasks s = ∅ ∧ ∀ t, t ∈ timers s → t = TimerDone.
Proof.
  intros Hret Hq Hcl Hroom Hsync.
  assert (∀ p t, tasks s !! p = Some t → t.2 = Finished) as Hfin.
  { intros p [q []] Hp; simpl.
    - by edestruct Hsync.
    - pose proof (Hq (Remove p) eq_refl) as H. simpl in H. rewrite Hp in H. done.
    - pose proof (Hq (Send p) eq_refl) as H. simpl in H. rewrite Hp, Hcl, Hroom in H. done.
    - pose proof (Hq (Send p) eq_refl) as H. simpl in H. rewrite Hp, Hcl, Hroom in H. done.
    - done. }
  assert (main s = Returned) as Hm.
  { destruct (main s) as [|[|n ns]|c ns| |] eqn:Hm; [| | | | |done].
    - destruct (decide (tasks s = ∅)) as [E|E].
      + pose proof (Hq Return eq_refl) as H. simpl in H. by rewrite Hm, decide_True in H.
      + apply map_choose in E as (p & [q pc] & Hp). pose proof (Hfin p _ Hp) as Ef. simpl in Ef; subst pc.
        pose proof (Hq (Join p) eq_refl) as H. simpl in H. by rewrite Hm, Hp in H.
    - pose proof (Hq Flush eq_refl) as H. simpl in H. by rewrite Hm in H.
    - pose proof (Hq Flush eq_refl) as H. simpl in H. by rewrite Hm in H.
    - pose proof (Hq FlushSend eq_refl) as H. simpl in H. by rewrite Hm, Hcl, Hroom in H.
    - destruct (decide (tasks s = ∅)) as [E|E].
      + pose proof (Hq Return eq_refl) as H. simpl in H. by rewrite Hm, decide_True in H.
      + apply map_choose in E as (p & [q pc] & Hp). pose proof (Hfin p _ Hp) as Ef. simpl in Ef; subst pc.
        pose proof (Hq (Abort p) eq_refl) as H. simpl in H. by rewrite Hm, Hp in H. }
  split_and!; [done|destruct (Hret Hm); [done|congruence]|].
  intros t Ht. apply list_elem_of_lookup in Ht as [i Hi]. destruct t as [n|c|]; [| |done].
  - pose proof (Hq (TimerFires i) eq_refl) as H. simpl in H. by rewrite Hi in H.
  - pose proof (Hq (TimerSends i) eq_refl) as H. simpl in H. by rewrite Hi, Hcl, Hroom in H.
Qed.

(** C34: When the parents' streams have ended and no task can go on, the collector has
    returned and nothing is left behind: every piece asked for was sent, or no parent
    reported it, or its sender found the channel full and was aborted while it waited, which
    needs more pieces than the channel holds. *)
Theorem collector_completes wanted ps l s : acts l (run wanted ps) = Some s →
  quiet s → (∀ p q, tasks s !! p ≠ Some (q, Syncing)) → closed s = false → room s = true →
  main s = Returned ∧
  (List.length wanted ≤ CHANNEL_CAPACITY → lost s = []) ∧
  ∀ w, w ∈ wanted →
    (∃ c, c ∈ sent s ∧ number c = Piece.number w) ∨
    (∃ c, collected_pieces s !! Piece.number w = Some c ∧ parents c = []) ∨
    (∃ c, c ∈ lost s ∧ number c = Piece.number w).
Proof.
  intros Ha Hq Hsync Hcl Hroom. pose proof (acts_inv wanted ps l _ s (run_inv wanted ps) (run_waited wanted ps) Ha) as Hi.
  assert (returned_ok s) as Hret by (eapply acts_returned; [|exact Ha]; done).
  destruct (quiet_done s Hret Hq Hcl Hroom Hsync) as (Hm & Ht & Htm). split_and!; [done| |].
  { intros Hw. apply (inv_lost _ _ s Hi). pose proof (interested_size wanted). lia. }
  intros w Hw. destruct (inv_accounted _ _ s Hi) as [Hp _].
  pose proof (proj2 (keys_elem _ _) (interested_is_Some wanted w Hw)) as Hk. rewrite <-Hp in Hk.
  apply elem_of_app in Hk as [Hk|Hk].
  - right; left. apply keys_elem in Hk as [c Hc]. exists c. split; [done|].
    destruct (parents c) eqn:E; [done|]. exfalso.
    destruct (inv_pending _ _ s Hi _ c Hc) as [Hs|(p & q & Hpq)]; [unfold reported; by rewrite E| |].
    + by apply Htm in Hs.
    + by rewrite Ht in Hpq.
  - apply list_elem_of_fmap in Hk as (c & Hn & Hc). unfold out in Hc. rewrite Hm, Ht in Hc.
    assert (omap in_timer (timers s) = []) as Et.
    { clear -Htm. induction (timers s) as [|t l IH]; [done|]. simpl. rewrite (Htm t) by set_solver. simpl. apply IH. set_solver. }
    assert (discarded s = []) as Ed.
    { destruct (discarded s) eqn:E; [done|]. pose proof (inv_closed _ _ s Hi) as H. rewrite E in H. rewrite H in Hcl by done. done. }
    rewrite Et, Ed in Hc. unfold task_pieces in Hc. rewrite map_to_list_empty in Hc. simpl in Hc.
    rewrite app_nil_r in Hc. apply elem_of_app in Hc as [Hc|Hc]; [left|right; right]; eauto.
Qed.

(** A download of one piece more than the channel holds, from two parents. *)
Definition piece_of (n : Z) : Piece.Piece :=
  Piece.mkPiece n (n * 4) 4 "" None 0 0 0 0 None.
Definition many : list Piece.Piece := (λ n, piece_of (Z.of_nat n)) <$> seq 0 (S CHANNEL_CAPACITY).
Definition two : list CollectedParent := [mkParent "a" None None None None; mkParent "b" None None None None].

(** [a] reports every piece; all but the last time out and fill the channel; [b] reports the
    last one and waits for room; the stream of [a] ends. *)
Definition filling (n : nat) : list Action :=
  [Message "a" (Z.of_nat n) "10.0.0.1" (Some 1%Z) None; TimerFires n; TimerSends n].
Definition losing : list Action :=
  concat (filling <$> seq 0 CHANNEL_CAPACITY) ++
  [Message "a" (Z.of_nat CHANNEL_CAPACITY) "10.0.0.1" (Some 1%Z) None;
   Message "b" (Z.of_nat CHANNEL_CAPACITY) "10.0.0.2" (Some 1%Z) None; Remove "b"; Wait "b";
   EndOfStream "a"; Join "a"; Abort "b"; Return; TimerFires CHANNEL_CAPACITY].

Definition is_nil {A} (l : list A) : bool := match l with [] => true | _ => false end.
Lemma is_nil_true {A} (l : list A) : is_nil l = true → l = [].
Proof. by destruct l. Qed.
Definition lost_last (s : State) : bool :=
  match main s with Returned => true | _ => false end &&
  is_nil (map_to_list (tasks s)) && is_nil (map_to_list (collected_pieces s)) &&
  bool_decide ((number <$> lost s) = [1024%Z]) && bool_decide ((List.length <$> (parents <$> lost s)) = [2]) &&
  bool_decide (1024%Z ∉ (number <$> sent s)).

(** C38: The collector loses a piece that two parents have reported: the task that removed
    it from the map waits for room in the channel, the map is empty, and the end of the other
    stream makes the collector abort the waiting task.  The piece is in no map, no task and
    not in the channel, and the collector has returned. *)
Theorem collected_piece_lost : ∃ s, acts losing (run many two) = Some s ∧
  main s = Returned ∧ tasks s = ∅ ∧ collected_pieces s = ∅ ∧
  (number <$> lost s) = [1024%Z] ∧ (List.length <$> (parents <$> lost s)) = [2] ∧ 1024%Z ∉ (number <$> sent s).
Proof.
  assert (match acts losing (run many two) with Some s => lost_last s | None => false end = true) as H by by vm_compute.
  destruct (acts losing (run many two)) as [s|]; [|done]. exists s. unfold lost_last in H.
  repeat (apply andb_prop in H; destruct H as [H ?]). split_and!; try done; try by eapply bool_decide_eq_true_1.
  - by destruct (main s).
  - by apply map_to_list_empty_iff, is_nil_true.
  - by apply map_to_list_empty_iff, is_nil_true.
Qed.
End CollectorFacts.

(** ** Witnesses *)

Module CollectorWitness.
Import Collector CollectorFacts.

(** Both parents report the first of two pieces, then the streams end. *)
Definition wanted : list Piece.Piece := [piece_of 0; piece_of 1].
Definition both : list Action :=
  [Message "a" 0 "10.0.0.1" (Some 1%Z) None; Message "b" 0 "10.0.0.2" (Some 1%Z) None; Remove "b"; Send "b";
   EndOfStream "a"; EndOfStream "b"; Join "a"; Join "b"; Flush; Return; TimerFires 0].
Definition final : State := default (run wanted two) (acts both (run wanted two)).

Lemma both_runs : acts both (run wanted two) = Some final.
Proof. unfold final. destruct (acts both (run wanted two)) eqn:E; [done|]. by vm_compute in E. Qed.

Lemma collected_at_most_once_witness : NoDup (number <$> sent final) ∧ (number <$> sent final) = [0%Z].
Proof. split; [exact (proj1 (collected_at_most_once wanted two both final both_runs))|by vm_compute]. Defined.

Lemma returned_quiet s : main s = Returned → tasks s = ∅ → timers s = [TimerDone] → quiet s.
Proof.
  intros Hm Ht Hti a Ha.
  destruct a as [| p | p | p | | i | i | p | | | p | | |]; try done; simpl; rewrite ?Hm, ?Ht, ?Hti; try done.
  - destruct i as [|[]]; done.
  - destruct i as [|[]]; done.
Qed.
Lemma final_tasks : tasks final = ∅.
Proof. apply map_to_list_empty_iff. by vm_compute. Qed.
Lemma final_lost c : c ∉ lost final.
Proof. assert (lost final = []) as -> by by vm_compute. apply not_elem_of_nil. Qed.
Lemma final_quiet : quiet final.
Proof. apply returned_quiet; [by vm_compute|exact final_tasks|by vm_compute]. Qed.
Lemma final_zero : collected_pieces final !! 0%Z = None.
Proof. by vm_compute. Qed.

Lemma collector_completes_witness : main final = Returned ∧ ∃ c, c ∈ sent final ∧ number c = 0%Z.
Proof.
  destruct (collector_completes wanted two both final both_runs final_quiet) as (Hm & _ & H).
  - intros p q. by rewrite final_tasks.
  - by vm_compute.
  - by vm_compute.
  - split; [exact Hm|]. destruct (H (piece_of 0)) as [Hs|[(c & Hc & _)|(c & Hc & _)]].
    + left.
    + exact Hs.
    + change (collected_pieces final !! 0%Z = Some c) in Hc. rewrite final_zero in Hc. discriminate Hc.
    + destruct (final_lost c Hc).
Defined.
End CollectorWitness.
