(* ===== verification/TaskDownload.v ===== *)
(** * Downloading a task

    Models the download of [src/dragonfly-client/src/resource/task.rs]: the pieces found
    locally, the ones in flight elsewhere, the ones fetched from parents or from the source
    under the direction of the scheduler, and the ones fetched from the source directly.

    The piece manager is the interface [PieceApi]; PieceManager implements it over the
    storage.  The scheduler's stream, the pieces the collector yields, the room in the
    channels, whether the scheduler closes its stream, and the order in which the tasks of a
    [JoinSet] complete are input.  The tasks of a [JoinSet] run one after the other in that
    order; what others do at an await is up to the piece manager.  A download is [None] if it
    panics or waits for ever. *)

From S2P Require Import Prelude Errors MetadataTypes Cache PieceCalc ParentSelector PieceCollector.
From Stdlib Require Import ZArith Lia String.
From stdpp Require Import base tactics numbers list gmap strings pretty.
Local Open Scope Z_scope.

(** The piece manager ([resource/piece.rs]) and what the task reads of the storage. *)
Class PieceApi (W : Type) := {
  piece_id : string → Z → string;
  (** [get], [get_persistent] and [get_persistent_cache]. *)
  piece_get : string → PR W DFError (option Piece.Piece);
  get_by_ids : list string → PR W DFError (list (option Piece.Piece));
  (** [download_from_local_into_range_reader] and [read_exact]. *)
  read_piece : string → string → Z → PR W DFError Bytes;
  (** piece, host, task, number, offset, length, parent, prefetch. *)
  download_from_parent : string → string → string → Z → Z → Z → CollectedParent → bool → PR W DFError Piece.Piece;
  (** piece, task, number, url, offset, length, prefetch. *)
  download_from_source : string → string → Z → string → Z → Z → bool → PR W DFError Piece.Piece;
  in_flight_notifier : string → W → bool;
  is_prefetched : string → W → bool;
  (** What happens while a task waits for one of the pieces. *)
  select_all : list string → W → W;
}.

(** [enum SchedulingPolicy]. *)
Inductive SchedulingPolicy : Type := Auto | Always.

(** [common::v2::Download], the fields that are read. *)
Record Download := mkDownload {
  url : string;
  range : option Range;
  scheduling_policy : SchedulingPolicy;
  disable_back_to_source : bool;
  need_piece_content : bool;
  is_prefetch : bool;
  (** [(&request.request_header).try_into()]. *)
  request_header : Result unit;
}.

(** [common::v2::Piece]. *)
Inductive TrafficType : Type := LocalPeer | RemotePeer | BackToSource.
Record PieceMessage := mkMessage {
  m_number : Z;
  m_parent_id : option string;
  m_offset : Z;
  m_length : Z;
  m_digest : string;
  m_content : option Bytes;
  m_traffic_type : option TrafficType;
}.
Definition to_message (parent_id : option string) (traffic : option TrafficType) (p : Piece.Piece) : PieceMessage :=
  mkMessage (Piece.number p) parent_id (Piece.offset p) (Piece.length p) (Piece.digest p) None traffic.
Definition with_content (content : Bytes) (m : PieceMessage) : PieceMessage :=
  mkMessage (m_number m) (m_parent_id m) (m_offset m) (m_length m) (m_digest m) (Some content) (m_traffic_type m).

(** [DownloadTaskResponse]. *)
Inductive Progress : Type :=
| DownloadTaskStarted (content_length : Z) (pieces : list PieceMessage) (is_finished : bool)
| DownloadPieceFinished (piece : PieceMessage).

(** [AnnouncePeerRequest]. *)
Inductive Announce : Type :=
| RegisterPeer (metadata_only : bool)
| DownloadPeerStarted
| DownloadPeerFinished
| DownloadPeerFailed
| ReschedulePeer (candidate_parents : list Peer)
| DownloadPeerBackToSourceStarted
| DownloadPeerBackToSourceFinished
| DownloadPeerBackToSourceFailed
| APieceFinished (piece : PieceMessage)
| APieceFailed (number : Z) (parent_id : string)
| APieceBackToSourceFinished (piece : PieceMessage)
| APieceBackToSourceFailed.

(** [announce_peer_response::Response], and an item of the stream of the scheduler. *)
Inductive Response : Type :=
| EmptyTaskResponse
| NormalTaskResponse (candidate_parents : list Peer)
| NeedBackToSourceResponse
| MetadataOnlyResponse.
Inductive StreamItem : Type := Elapsed | Status (e : DFError) | Message (response : option Response).

(** The error of a download from parents: all of them failed, or another one. *)
Inductive FromParentError : Type :=
| DownloadFromParentFailed_ (piece_number : Z) (parent_id : string)
| OtherError (e : DFError).

Module TaskDownload.
Section task.
Context {W : Type} `{PieceApi W} (clock : nat → NaiveDateTime).

(** The state a download works on; a message of [progress] comes with the state of the piece
    manager when it was sent; [sends] and [announces] count the sends. *)
Record World := mkWorld {
  manager : W;
  selector : Selector.ParentSelector;
  progress : list (Progress * W);
  announced : list Announce;
  sends : nat;
  announces : nat;
}.
Definition set_manager (w : W) (s : World) : World :=
  mkWorld w (selector s) (progress s) (announced s) (sends s) (announces s).
Definition set_selector (x : Selector.ParentSelector) (s : World) : World :=
  mkWorld (manager s) x (progress s) (announced s) (sends s) (announces s).

Definition TM (A : Type) : Type := PR World DFError A.
#[global] Instance tm_mret : MRet TM := λ A, pr_mret A.
#[global] Instance tm_mbind : MBind TM := λ A B, pr_mbind A B.

(** A method of the piece manager. *)
Definition in_manager {A} (m : PR W DFError A) : TM A := pr_zoom manager set_manager m.

(** The room in the channels. *)
Context (progress_ok announce_ok : nat → bool).

(** [download_progress_tx.send(..)], [send_timeout(..)] and [in_stream_tx.send_timeout(..)];
    [e] is the error of a closed or full channel. *)
Definition send_progress (e : DFError) (m : Progress) : TM unit := λ s,
  if progress_ok (sends s)
  then Some (Ok tt, mkWorld (manager s) (selector s) (progress s ++ [(m, manager s)]) (announced s) (S (sends s)) (announces s))
  else Some (Err e, mkWorld (manager s) (selector s) (progress s) (announced s) (S (sends s)) (announces s)).
Definition announce (m : Announce) : TM unit := λ s,
  if announce_ok (announces s)
  then Some (Ok tt, mkWorld (manager s) (selector s) (progress s) (announced s ++ [m]) (sends s) (S (announces s)))
  else Some (Err SendTimeout, mkWorld (manager s) (selector s) (progress s) (announced s) (sends s) (S (announces s))).
(** [.unwrap_or_else(|err| error!(..))]. *)
Definition log_error (m : TM unit) : TM unit := _ ← pr_catch m; mret tt.

(** The delivery of a finished piece, the same code on every path: with its content when it
    is needed, and then a failure to deliver it is an error; otherwise the failure is only
    logged.  Returns whether it was delivered.  [read] is the reader of the piece. *)
Definition deliver_with (read : string → string → Z → PR W DFError Bytes) (need : bool) (pid tid : string)
    (piece : PieceMessage) : TM bool :=
  if need then
    content ← in_manager (read pid tid (m_length piece));
    _ ← send_progress (MpscSend "channel closed") (DownloadPieceFinished (with_content content piece));
    mret true
  else
    r ← pr_catch (send_progress (MpscSend "channel closed") (DownloadPieceFinished piece));
    mret (is_ok r).
Definition deliver : bool → string → string → PieceMessage → TM bool := deliver_with read_piece.

(** The configuration and the request. *)
Context (max_schedule_count : Z).
Context (host_id : string) (request : Download).

(** ** From the local storage *)

Fixpoint local_loop (tid : string) (l : list (option Piece.Piece * Piece.Piece)) (finished : list Piece.Piece)
    : TM (list Piece.Piece) :=
  match l with
  | [] => mret finished
  | (Some piece, interested_piece) :: l =>
      if Piece.is_finished piece then
        _ ← deliver (need_piece_content request) (piece_id tid (Piece.number interested_piece)) tid
              (to_message None (Some LocalPeer) piece);
        local_loop tid l (finished ++ [interested_piece])
      else local_loop tid l finished
  | (None, _) :: l => local_loop tid l finished
  end.

(** [Task::download_partial_from_local]. *)
Definition download_partial_from_local (tid : string) (interested_pieces : list Piece.Piece) : TM (list Piece.Piece) :=
  r ← pr_catch (in_manager (get_by_ids ((λ p, piece_id tid (Piece.number p)) <$> interested_pieces)));
  let pieces := match r with Ok pieces => pieces | Err _ => (λ _, None) <$> interested_pieces end in
  local_loop tid (zip pieces interested_pieces) [].

(** [Task::wait_for_in_flight_pieces]; [wakes] is the number of completions it waits for
    before [wait_timeout]. *)
Fixpoint wait_for_in_flight_pieces (wakes : nat) (tid : string) (interested_pieces finished_pieces : list Piece.Piece)
    : TM (list Piece.Piece) :=
  notifiers ← pr_gets (λ s, filter (λ p, in_flight_notifier (piece_id tid (Piece.number p)) (manager s) = true)
                              interested_pieces);
  partial ← download_partial_from_local tid interested_pieces;
  let interested_pieces := PieceCalc.remove_finished_from_interested partial interested_pieces in
  let finished_pieces := PieceCalc.merge_finished_pieces finished_pieces partial in
  match interested_pieces with
  | [] => mret finished_pieces
  | _ =>
      let notifieds := filter (λ p, Exists (λ q, Piece.number q = Piece.number p) interested_pieces) notifiers in
      match notifieds with
      | [] => mret finished_pieces
      | _ =>
          _ ← pr_modify (λ s, set_manager (select_all ((λ p, piece_id tid (Piece.number p)) <$> notifieds) (manager s)) s);
          match wakes with
          | O => mret finished_pieces
          | S wakes => wait_for_in_flight_pieces wakes tid interested_pieces finished_pieces
          end
      end
  end.

(** ** From the source *)

(** The order in which the tasks of a [JoinSet] complete. *)
Context (completion : list Piece.Piece → list Piece.Piece).

(** [download_from_source] of [download_partial_from_source]. *)
Definition source_piece (tid : string) (p : Piece.Piece) : TM Piece.Piece :=
  let pid := piece_id tid (Piece.number p) in
  metadata ← in_manager (download_from_source pid tid (Piece.number p) (url request) (Piece.offset p) (Piece.length p)
                           (is_prefetch request));
  _ ← deliver (need_piece_content request) pid tid (to_message None (Some BackToSource) metadata);
  mret metadata.

Fixpoint join_source (tid : string) (l : list Piece.Piece) (finished : list Piece.Piece) : TM (list Piece.Piece) :=
  match l with
  | [] => mret finished
  | p :: l => metadata ← source_piece tid p; join_source tid l (finished ++ [metadata])
  end.

(** [Task::download_partial_from_source]. *)
Definition download_partial_from_source (tid : string) (interested_pieces : list Piece.Piece) : TM (list Piece.Piece) :=
  _ ← pr_lift (or_err ParseError (request_header request));
  finished_pieces ← join_source tid (completion interested_pieces) [];
  if negb (List.length finished_pieces =? List.length interested_pieces)%nat
  then pr_throw (Unknown "not all pieces are downloaded from source") else mret finished_pieces.

(** [download_from_source] of [download_partial_with_scheduler_from_source]; [read] is the
    reader it uses. *)
Definition scheduled_source_piece (read : string → string → Z → PR W DFError Bytes) (tid : string) (p : Piece.Piece) : TM Piece.Piece :=
  let pid := piece_id tid (Piece.number p) in
  metadata ← in_manager (download_from_source pid tid (Piece.number p) (url request) (Piece.offset p) (Piece.length p)
                           (is_prefetch request));
  let piece := to_message (Piece.parent_id metadata) (Some BackToSource) metadata in
  _ ← deliver_with read (need_piece_content request) pid tid piece;
  _ ← log_error (announce (APieceBackToSourceFinished piece));
  mret metadata.

Fixpoint join_scheduled_source (read : string → string → Z → PR W DFError Bytes) (tid : string)
    (l finished : list Piece.Piece) : TM (list Piece.Piece) :=
  match l with
  | [] => mret finished
  | p :: l =>
      r ← pr_catch (scheduled_source_piece read tid p);
      match r with
      | Ok metadata => join_scheduled_source read tid l (finished ++ [metadata])
      | Err err =>
          _ ← log_error (announce APieceBackToSourceFailed);
          match err with SendTimeout => mret finished | _ => pr_throw err end
      end
  end.

(** [Task::download_partial_with_scheduler_from_source]. *)
Definition download_partial_with_scheduler_from_source (read : string → string → Z → PR W DFError Bytes)
    (tid : string) (interested_pieces : list Piece.Piece) : TM (list Piece.Piece) :=
  _ ← pr_lift (or_err ParseError (request_header request));
  join_scheduled_source read tid (completion interested_pieces) [].

(** ** From parents *)

Context (weighted_index : list Z → option nat) (fastrand : nat → nat).
Context (parse_ip : string → Result unit) (connects : Host → bool).

(** The loop of [download_from_parent] over the parents of a piece. *)
Fixpoint try_parents (fuel : nat) (tid : string) (c : CollectedPiece) (collected_parents : list CollectedParent)
    : TM (result FromParentError Piece.Piece) :=
  match fuel with
  | O => λ _, None
  | S fuel =>
      s ← pr_gets selector;
      parent ← pr_expect (Selector.select weighted_index fastrand collected_parents s);
      r ← pr_catch (in_manager (download_from_parent (piece_id tid (PieceCollector.number c)) host_id tid
                                  (PieceCollector.number c) (PieceCollector.offset c) (PieceCollector.length c) parent
                                  (is_prefetch request)));
      match r with
      | Ok metadata => mret (Ok metadata)
      | Err _ =>
          let collected_parents := filter (λ p, ParentSelector.id p ≠ ParentSelector.id parent) collected_parents in
          match collected_parents with
          | [] => mret (Err (DownloadFromParentFailed_ (PieceCollector.number c) (ParentSelector.id parent)))
          | _ => try_parents fuel tid c collected_parents
          end
      end
  end.

(** [download_from_parent]: the outcome, whether the collector is to be interrupted, and
    the piece that was finished. *)
Definition parent_piece (tid : string) (c : CollectedPiece)
    : TM (result FromParentError Piece.Piece * bool) :=
  r ← try_parents (S (List.length (parents c))) tid c (parents c);
  match r with
  | Err e => mret (Err e, false)
  | Ok metadata =>
      let pid := piece_id tid (PieceCollector.number c) in
      let piece := to_message (Piece.parent_id metadata) (Some RemotePeer) metadata in
      d ← pr_catch (deliver (need_piece_content request) pid tid piece);
      match d with
      | Err e => mret (Err (OtherError e), true)
      | Ok delivered =>
          a ← pr_catch (announce (APieceFinished piece));
          mret (Ok metadata, negb delivered || negb (is_ok a))
      end
  end.

(** The collector loop with its tasks.  [interrupt] keeps pieces that were not spawned yet
    from being downloaded; the second component says whether a piece was. *)
Fixpoint collect_loop (tid : string) (l : list (CollectedPiece * bool)) (interrupt : bool)
    (finished : list Piece.Piece) (results : list (result FromParentError Piece.Piece))
    : TM (list Piece.Piece * list (result FromParentError Piece.Piece)) :=
  match l with
  | [] => mret (finished, results)
  | (c, spawned) :: l =>
      if interrupt && negb spawned then collect_loop tid l interrupt finished results
      else
        '(r, i) ← parent_piece tid c;
        collect_loop tid l (interrupt || i)
          (match r with Ok metadata => finished ++ [metadata] | Err _ => finished end) (results ++ [r])
  end.

(** The join loop. *)
Fixpoint join_parents (l : list (result FromParentError Piece.Piece)) : TM unit :=
  match l with
  | [] => mret tt
  | Err (DownloadFromParentFailed_ n parent) :: l => _ ← log_error (announce (APieceFailed n parent)); join_parents l
  | Err (OtherError SendTimeout) :: _ => mret tt
  | _ :: l => join_parents l
  end.

(** The two loops. *)
Definition download_from_collected (tid : string) (collected : list (CollectedPiece * bool)) : TM (list Piece.Piece) :=
  '(finished, results) ← collect_loop tid collected false [] [];
  _ ← join_parents results;
  mret finished.

(** [Task::download_partial_with_scheduler_from_parent]; [collected] are the pieces of the
    collector in the order in which their tasks complete. *)
Definition download_partial_with_scheduler_from_parent (tid : string) (ps : list Peer)
    (collected : list (CollectedPiece * bool)) : TM (list Piece.Piece) := λ s,
  let '(r, x) := Selector.register parse_ip connects ps (selector s) in
  let s := set_selector x s in
  match r with
  | Err e => Some (Err e, s)
  | Ok _ =>
      match download_from_collected tid collected s with
      | Some (r, s) => Some (r, set_selector (Selector.unregister ps (selector s)) s)
      | None => None
      end
  end.

(** ** With the scheduler *)

(** [in_stream_tx.closed().await], which has no timeout: it returns when the receiver of the
    channel, the request stream of [announce_peer], is dropped, and never if the scheduler
    keeps the call open. *)
Context (stream_closes : bool).
Definition closed : TM unit := if stream_closes then mret tt else λ _, None.

(** The pieces the collector yields at the [n]-th scheduling, of those it is asked for. *)
Context (collected : Z → list Piece.Piece → list (CollectedPiece * bool)).

(** The loop of [download_partial_with_scheduler] over the stream of the scheduler. *)
Fixpoint schedule_loop (tid : string) (interested_pieces : list Piece.Piece) (stream : list StreamItem)
    (schedule_count : Z) (finished_pieces : list Piece.Piece) : TM (list Piece.Piece) :=
  match stream with
  | [] => mret finished_pieces
  | Elapsed :: _ => pr_throw (TokioStreamElapsed "deadline has elapsed")
  | item :: stream =>
      let schedule_count := schedule_count + 1 in
      if max_schedule_count <? schedule_count then
        _ ← log_error (announce DownloadPeerFailed); _ ← closed; mret finished_pieces
      else
        match item with
        | Elapsed => pr_throw (TokioStreamElapsed "deadline has elapsed")
        | Status e => pr_throw e
        | Message None => pr_throw UnexpectedResponse
        | Message (Some MetadataOnlyResponse) => pr_throw UnexpectedResponse
        | Message (Some EmptyTaskResponse) =>
            _ ← announce DownloadPeerStarted;
            _ ← announce DownloadPeerFinished;
            _ ← closed;
            mret []
        | Message (Some (NormalTaskResponse candidate_parents)) =>
            a ← pr_catch (announce DownloadPeerStarted);
            match a with
            | Err _ => mret finished_pieces
            | Ok _ =>
                let remaining := PieceCalc.remove_finished_from_interested finished_pieces interested_pieces in
                r ← pr_catch (download_partial_with_scheduler_from_parent tid candidate_parents
                                (collected schedule_count remaining));
                let partial := match r with Ok partial => partial | Err _ => [] end in
                let finished_pieces := PieceCalc.merge_finished_pieces finished_pieces partial in
                if (List.length finished_pieces =? List.length interested_pieces)%nat then
                  _ ← log_error (announce DownloadPeerFinished); _ ← closed; mret finished_pieces
                else
                  a ← pr_catch (announce (ReschedulePeer candidate_parents));
                  match a with
                  | Err _ => mret finished_pieces
                  | Ok _ => schedule_loop tid interested_pieces stream schedule_count finished_pieces
                  end
            end
        | Message (Some NeedBackToSourceResponse) =>
            a ← pr_catch (announce DownloadPeerBackToSourceStarted);
            match a with
            | Err _ => mret finished_pieces
            | Ok _ =>
                let remaining := PieceCalc.remove_finished_from_interested finished_pieces interested_pieces in
                r ← pr_catch (download_partial_with_scheduler_from_source read_piece tid remaining);
                match r with
                | Err _ => _ ← log_error (announce DownloadPeerBackToSourceFailed); _ ← closed; mret finished_pieces
                | Ok partial =>
                    let finished_pieces := PieceCalc.merge_finished_pieces finished_pieces partial in
                    if (List.length partial =? List.length remaining)%nat then
                      _ ← log_error (announce DownloadPeerBackToSourceFinished); _ ← closed; mret finished_pieces
                    else
                      _ ← log_error (announce DownloadPeerBackToSourceFailed); _ ← closed; mret finished_pieces
                end
            end
        end
  end.

(** The stream of [announce_peer], or its error. *)
Context (announce_peer : Result (list StreamItem)).

(** [Task::download_partial_with_scheduler]. *)
Definition download_partial_with_scheduler (tid : string) (interested_pieces : list Piece.Piece) : TM (list Piece.Piece) :=
  _ ← announce (RegisterPeer false);
  stream ← pr_lift announce_peer;
  schedule_loop tid interested_pieces stream 0 [].

(** [Task::download_partial_with_scheduler_from_local]. *)
Definition download_partial_with_scheduler_from_local : TM unit :=
  _ ← announce (RegisterPeer true);
  stream ← pr_lift announce_peer;
  match stream with
  | [] => pr_throw (Unknown "stream is finished abnormally")
  | Elapsed :: _ => pr_throw (TokioStreamElapsed "deadline has elapsed")
  | Status e :: _ => pr_throw e
  | Message (Some MetadataOnlyResponse) :: _ =>
      _ ← announce DownloadPeerStarted;
      _ ← announce DownloadPeerFinished;
      closed
  | Message _ :: _ => pr_throw UnexpectedResponse
  end.

(** ** The whole download *)

(** [Task::should_bypass_scheduler]. *)
Definition should_bypass_scheduler (content_length : Z) : bool :=
  match scheduling_policy request with Auto => true | Always => false end &&
  negb (disable_back_to_source request) &&
  (match range request with Some r => r_length r <=? PieceCalc.MIN_PIECE_LENGTH | None => false end ||
   (content_length <=? PieceCalc.MIN_PIECE_LENGTH)).

(** The last resort of [download]. *)
Definition back_to_source (tid : string) (interested_pieces : list Piece.Piece) : TM unit :=
  _ ← download_partial_from_source tid interested_pieces; mret tt.

(** [download] once the pieces to download are known. *)
Definition download_rest (tid : string) (content_length : Z) (interested_pieces : list Piece.Piece) : TM unit :=
  if should_bypass_scheduler content_length then back_to_source tid interested_pieces
  else
    r ← pr_catch (download_partial_with_scheduler tid interested_pieces);
    match r with
    | Err _ =>
        if disable_back_to_source request then pr_throw (Unknown "download failed")
        else back_to_source tid interested_pieces
    | Ok finished_pieces =>
        let interested_pieces := PieceCalc.remove_finished_from_interested finished_pieces interested_pieces in
        match interested_pieces with
        | [] => mret tt
        | _ =>
            if disable_back_to_source request then pr_throw (Unknown "download failed")
            else back_to_source tid interested_pieces
        end
    end.

(** [Task::download]; [fuel] is for the piece arithmetic. *)
Definition download (fuel wakes : nat) (task : Task) : TM unit :=
  let tid := Task.id task in
  content_length ← pr_lift (match Task.content_length task with Some n => Ok n | None => Err InvalidContentLength end);
  piece_length ← pr_lift (match Task.piece_length task with Some n => Ok n | None => Err InvalidPieceLength end);
  r ← pr_expect (PieceCalc.calculate_interested clock fuel piece_length content_length (range request));
  interested_pieces ← pr_lift r;
  _ ← send_progress SendTimeout (DownloadTaskStarted content_length
        ((λ p, to_message (Piece.parent_id p) None p) <$> interested_pieces) (Task.is_finished task));
  finished_pieces ← download_partial_from_local tid interested_pieces;
  let interested_pieces := PieceCalc.remove_finished_from_interested finished_pieces interested_pieces in
  match interested_pieces with
  | [] => mret tt
  | _ =>
      prefetched ← pr_gets (λ s, is_prefetched tid (manager s));
      if negb (is_prefetch request) && (prefetched : bool) then
        finished_pieces ← wait_for_in_flight_pieces wakes tid interested_pieces [];
        let interested_pieces := PieceCalc.remove_finished_from_interested finished_pieces interested_pieces in
        match interested_pieces with
        | [] => mret tt
        | _ => download_rest tid content_length interested_pieces
        end
      else download_rest tid content_length interested_pieces
  end.

(** [Task::download_with_scheduler]. *)
Definition download_with_scheduler (fuel wakes : nat) (task : Task) : TM unit :=
  if Task.is_finished task then download_partial_with_scheduler_from_local else download fuel wakes task.
End task.
End TaskDownload.
