(* ===== verification/TaskDownloadFacts.v ===== *)
(** * Facts about downloading a task

    [PieceApiLaws] is what a download relies on of the piece manager.  [runs] walks through
    the download; the theorems say that a download that succeeds has shown every piece to
    the client, that it succeeds whenever the source works, how the parents of a piece are
    tried, and that the books of the selector of parents balance. *)

From S2P Require Import Prelude Errors MetadataTypes Cache PieceCalc ParentSelector ParentSelectorFacts PieceCollector TaskDownload.
From Stdlib Require Import ZArith Lia String.
From stdpp Require Import base tactics numbers list gmap strings pretty.
Import TaskDownload.
Local Open Scope Z_scope.

(** What the piece manager promises: its invariant is kept, pieces carry the number that was
    asked for, and what is read is the content of the piece, in full. *)
Class PieceApiLaws (W : Type) `{PieceApi W} := {
  api_inv : W → Prop;
  (** [genuine w tid pid b]: [b] are the bytes the manager in [w] has for piece [pid] of [tid]. *)
  genuine : W → string → string → Bytes → Prop;
  readable : W → string → Z → Prop;
  get_law tid n w : api_inv w → 0 ≤ n →
    wp (piece_get (piece_id tid n)) (λ r w', api_inv w' ∧ ∀ p, r = Ok (Some p) → Piece.number p = n ∧
      (Piece.is_finished p = true → readable w' (piece_id tid n) (Piece.length p))) w;
  get_by_ids_law tid ns w : api_inv w → Forall (λ n, 0 ≤ n) ns →
    wp (get_by_ids (piece_id tid <$> ns)) (λ r w', api_inv w' ∧ ∀ l, r = Ok l →
      Forall2 (λ n o, ∀ p, o = Some p → Piece.number p = n ∧
                 (Piece.is_finished p = true → readable w' (piece_id tid n) (Piece.length p))) ns l) w;
  read_piece_law pid tid len w : api_inv w →
    wp (read_piece pid tid len) (λ r w', api_inv w' ∧
      (readable w pid len → ∀ pid' len', readable w pid' len' → readable w' pid' len') ∧
      ∀ b, r = Ok b → genuine w' tid pid b ∧ Z.of_nat (List.length b) = len) w;
  download_from_parent_law hid tid n offset len parent prefetch w : api_inv w → 0 ≤ n →
    wp (download_from_parent (piece_id tid n) hid tid n offset len parent prefetch) (λ r w', api_inv w' ∧ ∀ p, r = Ok p →
      Piece.number p = n ∧ readable w' (piece_id tid n) (Piece.length p)) w;
  download_from_source_law tid n u offset len prefetch w : api_inv w → 0 ≤ n →
    wp (download_from_source (piece_id tid n) tid n u offset len prefetch) (λ r w', api_inv w' ∧ ∀ p, r = Ok p →
      Piece.number p = n ∧ readable w' (piece_id tid n) (Piece.length p)) w;
  select_all_law ids w : api_inv w → api_inv (select_all ids w);
}.

Module TaskDownloadFacts.

(** ** The selector keeps its weights *)
Lemma weight_of_nonneg n : 0 ≤ Selector.weight_of n.
Proof.
  unfold Selector.weight_of, Selector.calculate_weight_by_network, Selector.DEFAULT_NETWORK_WEIGHT.
  destruct n; [|lia]. case_match; lia.
Qed.

Lemma register_weights_ok parse_ip connects ps s :
  SelectorFacts.weights_ok s → SelectorFacts.weights_ok (Selector.register parse_ip connects ps s).2.
Proof.
  induction ps as [|p ps IH] in s |- *; intros Hs; [done|]. cbn [Selector.register].
  assert (SelectorFacts.weights_ok (Selector.register_one parse_ip connects p s).2) as H1.
  { unfold Selector.register_one. repeat case_match; try done. intros x w. simpl.
    rewrite lookup_insert_Some. intros [[_ <-]|[_ Hx]]; [|by eapply Hs].
    destruct (Selector.weights s !! _) eqn:E; simpl; [by eapply Hs|apply weight_of_nonneg]. }
  destruct (Selector.register_one parse_ip connects p s) as [[[]|e] s1]; [by apply IH|done].
Qed.

Lemma unregister_weights_ok ps s :
  SelectorFacts.weights_ok s → SelectorFacts.weights_ok (Selector.unregister ps s).
Proof.
  unfold Selector.unregister. induction ps as [|p ps IH] in s |- *; intros Hs; [done|]. simpl. apply IH.
  unfold Selector.unregister_one. repeat case_match; try done. intros x w. simpl.
  rewrite lookup_delete_Some. intros [_ Hx]. by eapply Hs.
Qed.

Lemma select_Some weighted_index fastrand parents s :
  SelectorFacts.weighted_index_spec weighted_index → SelectorFacts.fastrand_spec fastrand →
  SelectorFacts.weights_ok s → parents ≠ [] →
  ∃ p, Selector.select weighted_index fastrand parents s = Some p ∧ p ∈ parents.
Proof.
  intros Hw Hf Hs Hp. unfold Selector.select.
  assert (Forall (λ w, 0 ≤ w) (Selector.weight s <$> parents)) as Hn.
  { apply Forall_fmap, Forall_forall. intros p _. by apply SelectorFacts.weight_nonneg. }
  destruct (Hw _ Hn) as [_ Hi]. destruct (weighted_index _) as [i|].
  - destruct (Hi i eq_refl) as (w & Hl & _). rewrite list_lookup_fmap in Hl.
    destruct (parents !! i) as [p|] eqn:E; [|done]. eauto using list_elem_of_lookup_2.
  - rewrite decide_False by done.
    destruct (lookup_lt_is_Some_2 parents (fastrand (List.length parents))) as [p E].
    { apply Hf. by destruct parents. }
    eauto using list_elem_of_lookup_2.
Qed.

(** ** Numbers of pieces *)
Lemma remove_finished_cases (finished interested : list Piece.Piece) p :
  p ∈ interested →
  Piece.number p ∈ Piece.number <$> finished ∨ p ∈ PieceCalc.remove_finished_from_interested finished interested.
Proof.
  intros Hp. destruct (decide (Exists (λ q, Piece.number q = Piece.number p) finished)) as [H|H].
  - left. apply Exists_exists in H as (q & Hq & <-). by apply list_elem_of_fmap_2.
  - right. by apply list_elem_of_filter.
Qed.

(** Pieces numbered as a [u32]. *)
Definition numbered (l : list Piece.Piece) : Prop := Forall (λ p, 0 ≤ Piece.number p) l.
Lemma numbered_rest finished l : numbered l → numbered (PieceCalc.remove_finished_from_interested finished l).
Proof. unfold numbered. rewrite !Forall_forall. intros Hl p [_ Hp]%list_elem_of_filter. by apply Hl. Qed.
Lemma numbered_reverse l : numbered l → numbered (reverse l).
Proof. apply Forall_reverse. Qed.
Lemma numbered_cons clock n offset pl ticks l : numbered l → numbered (PieceCalc.interested_piece clock n offset pl ticks :: l).
Proof. intros Hl. apply Forall_cons. split; [|done]. simpl. unfold u_wrap. by apply Z.mod_pos_bound. Qed.
Lemma numbered_shortened pl cl offset rev l :
  numbered rev → PieceCalc.shorten_last pl cl offset rev = Ok l → numbered l.
Proof.
  intros Hr Hs. destruct rev as [|p rest]; [done|]. injection Hs as <-. apply numbered_reverse.
  apply Forall_cons in Hr as [Hp Hr]. by apply Forall_cons.
Qed.
Lemma calculate_interested_numbered clock fuel pl cl range l :
  PieceCalc.calculate_interested clock fuel pl cl range = Some (Ok l) → numbered l.
Proof.
  unfold PieceCalc.calculate_interested. destruct (cl =? 0); [intros [= <-]; apply Forall_nil_2|].
  destruct range as [r|]; [destruct (r_length r =? 0); [by intros|]|].
  all: assert (numbered []) as Hnil by apply Forall_nil_2; revert Hnil.
  all: generalize (@nil Piece.Piece) as rev, 0%nat as ticks; generalize 0 at 2 as offset; generalize 0 as number.
  - induction fuel as [|fuel IH]; intros number offset rev ticks Hr; [done|]. cbn [PieceCalc.range_loop].
    destruct (cl <=? offset); [intros [= Hs]; by eapply numbered_shortened|].
    destruct (_ <=? offset); [intros [= <-]; by apply numbered_reverse|].
    destruct (_ <? _); apply IH; [by apply numbered_cons|done].
  - induction fuel as [|fuel IH]; intros number offset rev ticks Hr; [done|]. cbn [PieceCalc.full_loop].
    destruct (cl <=? offset); [intros [= Hs]; by eapply numbered_shortened|]. apply IH. by apply numbered_cons.
Qed.

Lemma merge_elem (l old : list Piece.Piece) p : p ∈ PieceCalc.merge_finished_pieces l old → p ∈ l ∨ p ∈ old.
Proof.
  intros Hp. apply (PieceCalc.merge_finished_pieces_spec l old p) in Hp as [Hl|[_ Ho]].
  - left. by apply PieceCalc.last_with_number in Hl as [].
  - right. by apply PieceCalc.first_with_number in Ho as [].
Qed.

(** ** Walking through a download *)

Section download.
Context {W : Type} `{PieceApiLaws W} (clock : nat → NaiveDateTime).
Local Notation World := (TaskDownload.World (W := W)).
Local Notation TM := (TaskDownload.TM (W := W)).
Context (progress_ok announce_ok : nat → bool) (max_schedule_count : Z) (hid : string) (request : Download).
Context (completion : list Piece.Piece → list Piece.Piece).
Context (weighted_index : list Z → option nat) (fastrand : nat → nat).
Context (parse_ip : string → Result unit) (connects : Host → bool).
Context (stream_closes : bool) (collected : Z → list Piece.Piece → list (CollectedPiece * bool)).
Context (announce_peer : Result (list StreamItem)).

(** The environment: the libraries that draw at random, a [JoinSet] that yields every task
    once, and a collector that names parents. *)
Record environment : Prop := {
  env_weighted : SelectorFacts.weighted_index_spec weighted_index;
  env_fastrand : SelectorFacts.fastrand_spec fastrand;
  env_completion : ∀ l, completion l ≡ₚ l;
  env_collected : ∀ k l c b, (c, b) ∈ collected k l → parents c ≠ [] ∧ 0 ≤ PieceCollector.number c;
}.
Context (Henv : environment).

(** A failure to tell the client of a piece is an error only when it wants the content. *)
Context (Hheard : need_piece_content request = true ∨ ∀ n, progress_ok n = true).

(** The client listens, the scheduler closes its stream, and the disk and the source work. *)
Record works : Prop := {
  w_closes : stream_closes = true;
  w_progress : ∀ n, progress_ok n = true;
  w_header : is_ok (request_header request) = true;
  w_enabled : disable_back_to_source request = false;
  w_reads : ∀ pid tid len w, api_inv w → readable w pid len →
    wp (read_piece pid tid len) (λ r _, is_ok r = true) w;
  w_source : ∀ tid n u offset len prefetch w, api_inv w → 0 ≤ n →
    wp (download_from_source (piece_id tid n) tid n u offset len prefetch) (λ r _, is_ok r = true) w;
}.

Definition good (s : World) : Prop := api_inv (manager s) ∧ SelectorFacts.weights_ok (selector s).

(** The client was told of piece [n], with its content when it asked for that. *)
Definition shown (tid : string) (s : World) (n : Z) : Prop := ∃ m w,
  (DownloadPieceFinished m, w) ∈ progress s ∧ m_number m = n ∧
  (need_piece_content request = true → ∃ b, m_content m = Some b ∧
     genuine w tid (piece_id tid n) b ∧ Z.of_nat (List.length b) = m_length m).
Definition all_shown (tid : string) (s : World) (l : list Piece.Piece) : Prop :=
  ∀ p, p ∈ l → shown tid s (Piece.number p).

(** [m] returns from [s] with [Q], unless the scheduler keeps its stream open. *)
Definition returns {A} (m : TM A) (Q : result DFError A → World → Prop) (s : World) : Prop :=
  match m s with Some (r, s') => Q r s' | None => stream_closes = false end.

Lemma wp_returns {A} (m : TM A) Q s : wp m Q s → returns m Q s.
Proof. unfold wp, returns. by destruct (m s) as [[r s']|]. Qed.
Lemma returns_mono {A} (m : TM A) (Q R : result DFError A → World → Prop) s :
  returns m Q s → (∀ r s', Q r s' → R r s') → returns m R s.
Proof. unfold returns. destruct (m s) as [[r s']|]; auto. Qed.
Lemma returns_bind {A B} (m : TM A) (f : A → TM B) Q s :
  returns m (λ r s', match r with Ok a => returns (f a) Q s' | Err e => Q (Err e) s' end) s → returns (m ≫= f) Q s.
Proof. unfold returns. cbv [mbind tm_mbind pr_mbind]. by destruct (m s) as [[[a|e] s']|]. Qed.
Lemma returns_catch {A} (m : TM A) Q s : returns m (λ r s', Q (Ok r) s') s → returns (pr_catch m) Q s.
Proof. unfold returns, pr_catch. by destruct (m s) as [[r s']|]. Qed.

(** [m] returns from [s], unless the scheduler keeps its stream open, keeps the invariants,
    takes no message back, fails only if [F], and its value satisfies [Q]. *)
Definition runs {A} (F : Prop) (m : TM A) (s : World) (Q : A → World → Prop) : Prop :=
  good s → returns m (λ r s', good s' ∧ progress s `prefix_of` progress s' ∧
                   match r with Ok a => Q a s' | Err _ => F end) s.

Lemma runs_ret {A} F (a : A) s (Q : A → World → Prop) : Q a s → runs F (mret a) s Q.
Proof. intros HQ Hs. split; [done|]. split; [reflexivity|exact HQ]. Qed.
Lemma runs_throw {A} (F : Prop) e s (Q : A → World → Prop) : F → runs F (pr_throw e) s Q.
Proof. intros HF Hs. split; [done|]. split; [reflexivity|exact HF]. Qed.
Lemma runs_lift {A} (F : Prop) (r : Result A) s (Q : A → World → Prop) :
  match r with Ok a => Q a s | Err _ => F end → runs F (pr_lift r) s Q.
Proof. intros HF Hs. split; [done|]. split; [reflexivity|exact HF]. Qed.
Lemma runs_gets {A} F (f : World → A) s (Q : A → World → Prop) : Q (f s) s → runs F (pr_gets f) s Q.
Proof. intros HQ Hs. split; [done|]. split; [reflexivity|exact HQ]. Qed.
Lemma runs_expect {A} F (a : A) s (Q : A → World → Prop) : Q a s → runs F (pr_expect (Some a)) s Q.
Proof. intros HQ Hs. split; [done|]. split; [reflexivity|exact HQ]. Qed.
Lemma runs_bind {A B} F (m : TM A) (f : A → TM B) s Q1 Q :
  runs F m s Q1 →
  (∀ a s1, good s1 → progress s `prefix_of` progress s1 → Q1 a s1 → runs F (f a) s1 Q) →
  runs F (m ≫= f) s Q.
Proof.
  intros Hm Hf Hs. apply returns_bind. eapply returns_mono; [by apply Hm|]. intros [a|e] s1 (Hg & Hp & HQ).
  - eapply returns_mono; [by eapply Hf|]. intros r s2 (Hg2 & Hp2 & HQ2). split; [done|]. split; [by etrans|done].
  - done.
Qed.
Lemma runs_mono {A} (F F' : Prop) (m : TM A) s (Q Q' : A → World → Prop) :
  runs F m s Q → (F → F') → (∀ a s', progress s `prefix_of` progress s' → Q a s' → Q' a s') → runs F' m s Q'.
Proof.
  intros Hm HF HQ Hs. eapply returns_mono; [by apply Hm|]. intros [a|e] s' (Hg & Hp & Hr); eauto.
Qed.
Lemma runs_catch {A} (F G : Prop) (m : TM A) s (Q : result DFError A → World → Prop) :
  runs G m s (λ a, Q (Ok a)) → (∀ e s', G → Q (Err e) s') → runs F (pr_catch m) s Q.
Proof.
  intros Hm HG Hs. apply returns_catch. eapply returns_mono; [by apply Hm|]. intros [a|e] s' (Hg & Hp & Hr); auto.
Qed.
Lemma runs_in_manager {A} (F : Prop) (m : PR W DFError A) s (Q : A → World → Prop) (R : result DFError A → W → Prop) :
  (api_inv (manager s) → wp m R (manager s)) →
  (∀ r w, R r w → api_inv w ∧ match r with Ok a => Q a (set_manager w s) | Err _ => F end) →
  runs F (in_manager m) s Q.
Proof.
  intros Hm HR [Hi Hw]. apply wp_returns, wp_zoom. eapply wp_mono; [by apply Hm|]. intros r w Hr.
  destruct (HR r w Hr) as [Hi' HQ]. split; [done|]. split; [reflexivity|done].
Qed.

Lemma shown_mono tid s s' n : progress s `prefix_of` progress s' → shown tid s n → shown tid s' n.
Proof.
  intros [l Hl] (m & w & Hm & Hrest). exists m, w. split; [|done]. rewrite Hl. apply elem_of_app. by left.
Qed.
Lemma all_shown_mono tid s s' l : progress s `prefix_of` progress s' → all_shown tid s l → all_shown tid s' l.
Proof. intros Hp Hs p Hin. by eapply shown_mono, Hs. Qed.
Lemma all_shown_nil tid s : all_shown tid s [].
Proof. by intros p ?%not_elem_of_nil. Qed.
Lemma all_shown_app tid s l1 l2 : all_shown tid s l1 → all_shown tid s l2 → all_shown tid s (l1 ++ l2).
Proof. intros H1 H2 p [Hp|Hp]%elem_of_app; auto. Qed.
Lemma all_shown_one tid s p : shown tid s (Piece.number p) → all_shown tid s [p].
Proof. by intros Hp q ->%list_elem_of_singleton. Qed.
Lemma all_shown_merge tid s l old :
  all_shown tid s l → all_shown tid s old → all_shown tid s (PieceCalc.merge_finished_pieces l old).
Proof. intros H1 H2 p [Hp|Hp]%merge_elem; auto. Qed.
Lemma all_shown_rest tid s finished l :
  all_shown tid s finished → all_shown tid s (PieceCalc.remove_finished_from_interested finished l) → all_shown tid s l.
Proof.
  intros Hf Hr p Hp. destruct (remove_finished_cases finished l p Hp) as [Hn|Hn]; [|by apply Hr].
  apply list_elem_of_fmap in Hn as (q & -> & Hq). by apply Hf.
Qed.

(** ** The steps of a download *)

(** A specification, and a second one that holds only if [P]. *)
Lemma wp_if {S E A} (P : Prop) (m : PR S E A) (Q R : result E A → S → Prop) s :
  wp m Q s → (P → wp m R s) → wp m (λ r s', Q r s' ∧ (P → R r s')) s.
Proof. unfold wp. destruct (m s) as [[r s']|]; [|done]. auto. Qed.

Lemma runs_send (F : Prop) e m s :
  (progress_ok (sends s) = false → F) →
  runs F (send_progress progress_ok e m) s (λ _ s', (m, manager s') ∈ progress s' ∧ manager s' = manager s).
Proof.
  intros HF Hs. unfold returns, send_progress. destruct (progress_ok (sends s)) eqn:E; simpl.
  - split; [done|]. split; [by eexists|]. split; [|done]. apply elem_of_app. right. by left.
  - split; [done|]. split; [reflexivity|]. by apply HF.
Qed.
Lemma runs_announce m s : runs True (announce announce_ok m) s (λ _ _, True).
Proof. intros Hs. unfold returns, announce. destruct (announce_ok (announces s)); simpl; split; done. Qed.
Lemma runs_log_announce F m s : runs F (log_error (announce announce_ok m)) s (λ _ _, True).
Proof.
  unfold log_error. eapply runs_bind; [apply (runs_catch _ True _ _ (λ _ _, True)); [apply runs_announce|done]|].
  intros. by apply runs_ret.
Qed.

Lemma runs_closed (F : Prop) s : runs F (closed stream_closes) s (λ _ _, True).
Proof. intros Hs. unfold returns, closed. by destruct stream_closes. Qed.
(** The last message to the scheduler, and the wait for it to be sent. *)
Lemma runs_last {A} (F : Prop) m (a : A) s (Q : A → World → Prop) :
  (∀ s', progress s `prefix_of` progress s' → Q a s') →
  runs F (_ ← log_error (announce announce_ok m); _ ← closed stream_closes; mret a) s Q.
Proof.
  intros HQ. eapply runs_bind; [apply runs_log_announce|]. intros _ s1 _ Hp1 _.
  eapply runs_bind; [apply runs_closed|]. intros _ s2 _ Hp2 _. apply runs_ret, HQ. by etrans.
Qed.

(** A reader keeps the invariant of the manager, and what it reads is the content of the
    piece, in full. *)
Definition reads_genuine (read : string → string → Z → PR W DFError Bytes) : Prop := ∀ pid tid len w, api_inv w →
  wp (read pid tid len) (λ r w', api_inv w' ∧ ∀ b, r = Ok b → genuine w' tid pid b ∧ Z.of_nat (List.length b) = len) w.
Lemma read_piece_genuine : reads_genuine read_piece.
Proof.
  intros pid tid len w Hi. eapply wp_mono; [by apply read_piece_law|]. intros r w' (Hi' & _ & Hb). by split.
Qed.

(** [K] is what the reader does to the manager besides. *)
Lemma runs_deliver_with (F : Prop) read (K : W → Prop) tid n traffic parent p s :
  Piece.number p = n → K (manager s) → (∀ k, progress_ok k = false → F) →
  (api_inv (manager s) → wp (read (piece_id tid n) tid (Piece.length p)) (λ r w', api_inv w' ∧ K w' ∧
     match r with Ok b => genuine w' tid (piece_id tid n) b ∧ Z.of_nat (List.length b) = Piece.length p | Err _ => F end)
     (manager s)) →
  runs F (deliver_with progress_ok read (need_piece_content request) (piece_id tid n) tid (to_message parent traffic p)) s
    (λ _ s', shown tid s' n ∧ K (manager s')).
Proof.
  intros Hn HK HF Hread. destruct (need_piece_content request) eqn:Eneed; unfold deliver_with.
  - eapply runs_bind.
    + eapply (runs_in_manager _ _ _ (λ b s', K (manager s') ∧ genuine (manager s') tid (piece_id tid n) b ∧
        Z.of_nat (List.length b) = Piece.length p)); [exact Hread|]. intros r w' (Hi & Hk & Hb). by destruct r.
    + intros b s1 Hg1 Hp1 (HK1 & Hgen & Hlen). eapply runs_bind; [apply runs_send, HF|].
      intros _ s2 Hg2 Hp2 [Hin Hm]. apply runs_ret. rewrite Hm in Hin |- *. split; [|done].
      eexists _, _. split; [exact Hin|]. split; [exact Hn|]. intros _. by exists b.
  - destruct Hheard as [?|Hok]; [congruence|]. eapply runs_bind.
    + apply (runs_catch _ False _ _ (λ _ s', (DownloadPieceFinished (to_message parent traffic p), manager s') ∈ progress s' ∧
        manager s' = manager s)); [apply runs_send; intros Ef; by rewrite Hok in Ef|done].
    + intros r s1 Hg1 Hp1 [Hin Hm]. apply runs_ret. rewrite Hm. split; [|done].
      eexists _, _. split; [exact Hin|]. split; [exact Hn|]. congruence.
Qed.

Lemma runs_deliver tid n traffic parent p s :
  Piece.number p = n → readable (manager s) (piece_id tid n) (Piece.length p) →
  runs (¬ works) (deliver progress_ok (need_piece_content request) (piece_id tid n) tid (to_message parent traffic p)) s
    (λ _ s', shown tid s' n ∧ ∀ pid len, readable (manager s) pid len → readable (manager s') pid len).
Proof.
  intros Hn Hr. apply (runs_deliver_with _ _ (λ w, ∀ pid len, readable (manager s) pid len → readable w pid len)); [done|done| |].
  - intros k Ef Hw. by rewrite (w_progress Hw) in Ef.
  - intros Hi. eapply wp_mono; [apply (wp_if works); [by apply read_piece_law|]; intros Hw; by apply (w_reads Hw)|].
    intros r w' ((Hi' & Hk & Hb) & Hok). split; [done|]. split; [exact (Hk Hr)|].
    destruct r as [b|e]; [by apply Hb|]. intros Hw. by specialize (Hok Hw).
Qed.

Lemma runs_local_loop tid l finished s :
  (∀ o p, (o, p) ∈ l → ∀ q, o = Some q → Piece.number q = Piece.number p ∧
     (Piece.is_finished q = true → readable (manager s) (piece_id tid (Piece.number p)) (Piece.length q))) →
  all_shown tid s finished →
  runs (¬ works) (local_loop progress_ok request tid l finished) s (λ r s', all_shown tid s' r).
Proof.
  induction l as [|[[q|] p] l IH] in s, finished |- *; intros Hl Hf; cbn [local_loop].
  - by apply runs_ret.
  - destruct (Piece.is_finished q) eqn:Eq.
    + destruct (Hl (Some q) p ltac:(left) q eq_refl) as [Hn Hr]. eapply runs_bind.
      * apply (runs_deliver tid (Piece.number p)); auto.
      * intros _ s1 Hg1 Hp1 [Hs1 Hk]. apply IH.
        -- intros o p' Ho q' ->. destruct (Hl (Some q') p' ltac:(by right) q' eq_refl). auto.
        -- apply all_shown_app; [by eapply all_shown_mono|by apply all_shown_one].
    + apply IH; [|done]. intros o p' Ho. apply Hl. by right.
  - apply IH; [|done]. intros o p' Ho. apply Hl. by right.
Qed.

Lemma runs_from_local tid l s :
  numbered l →
  runs (¬ works) (download_partial_from_local progress_ok request tid l) s (λ r s', all_shown tid s' r).
Proof.
  intros Hl. unfold download_partial_from_local. eapply (runs_bind _ _ _ _ (λ r s', ∀ ps, r = Ok ps →
    Forall2 (λ n o, ∀ q, o = Some q → Piece.number q = n ∧
      (Piece.is_finished q = true → readable (manager s') (piece_id tid n) (Piece.length q))) (Piece.number <$> l) ps)).
  - apply (runs_catch _ True); [|naive_solver].
    replace ((λ p, piece_id tid (Piece.number p)) <$> l) with (piece_id tid <$> (Piece.number <$> l))
      by (by rewrite <-list_fmap_compose).
    eapply runs_in_manager; [intros Hi; apply get_by_ids_law; [done|by apply Forall_fmap]|]. by intros [ps|e] w [Hi Hr].
  - intros r s1 _ _ Hr. apply runs_local_loop; [|apply all_shown_nil]. intros o p Ho q ->.
    apply list_elem_of_lookup in Ho as [i Hi]. apply lookup_zip_with_Some in Hi as (? & ? & [= <- <-] & Ho & Hp).
    destruct r as [ps|e]; [|rewrite list_lookup_fmap, Hp in Ho; discriminate Ho].
    specialize (Hr ps eq_refl). rewrite Forall2_fmap_l in Hr.
    destruct (Forall2_lookup_l _ _ _ _ _ Hr Hp) as (o & Ho' & Hq). apply Hq. congruence.
Qed.

Lemma runs_wait wakes tid l finished s :
  numbered l → all_shown tid s finished →
  runs (¬ works) (wait_for_in_flight_pieces progress_ok request wakes tid l finished) s (λ r s', all_shown tid s' r).
Proof.
  induction wakes as [|wakes IH] in l, finished, s |- *; intros Hl Hf; cbn [wait_for_in_flight_pieces].
  all: eapply runs_bind; [apply (runs_gets _ _ _ (λ _ s', s' = s)); done|]; intros notifiers ? _ _ ->.
  all: eapply runs_bind; [by apply runs_from_local|]; intros partial s1 Hg1 Hp1 Hs1; cbv zeta.
  all: apply (numbered_rest partial) in Hl.
  all: assert (all_shown tid s1 (PieceCalc.merge_finished_pieces finished partial))
         by (apply all_shown_merge; [by eapply all_shown_mono|done]).
  all: destruct (PieceCalc.remove_finished_from_interested partial l) eqn:Erest; [by apply runs_ret|].
  all: destruct (filter _ notifiers); [by apply runs_ret|].
  all: eapply (runs_bind _ _ _ _ (λ _ s2, progress s2 = progress s1));
    [by intros [Hi Hw]; split; [split; [by apply select_all_law|done]|]|]; intros _ s2 _ Hp2 _.
  - apply runs_ret. by eapply all_shown_mono.
  - apply IH; [done|by eapply all_shown_mono].
Qed.

(** ** From the source *)
Lemma runs_source_piece tid p s :
  0 ≤ Piece.number p →
  runs (¬ works) (source_piece progress_ok request tid p) s
    (λ q s', Piece.number q = Piece.number p ∧ shown tid s' (Piece.number p)).
Proof.
  intros Hnn. unfold source_piece. eapply (runs_bind _ _ _ _ (λ q s', Piece.number q = Piece.number p ∧
    readable (manager s') (piece_id tid (Piece.number p)) (Piece.length q))).
  - eapply runs_in_manager.
    + intros Hi. apply (wp_if works); [by apply download_from_source_law|]. intros Hw. by apply (w_source Hw).
    + intros [q|e] w [[Hi Hq] Hok]; (split; [done|]); [by apply Hq|]. intros Hw. by specialize (Hok Hw).
  - intros q s1 _ _ [Hn Hr]. eapply runs_bind; [by apply (runs_deliver tid (Piece.number p))|].
    intros _ s2 _ _ [Hs _]. by apply runs_ret.
Qed.

Lemma runs_join_source tid l finished s :
  numbered l → all_shown tid s finished →
  runs (¬ works) (join_source progress_ok request tid l finished) s
    (λ r s', List.length r = (List.length finished + List.length l)%nat ∧ all_shown tid s' l).
Proof.
  induction l as [|p l IH] in finished, s |- *; intros Hl Hf; cbn [join_source].
  - apply runs_ret. split; [simpl; lia|apply all_shown_nil].
  - apply Forall_cons in Hl as [Hnn Hl]. eapply runs_bind; [by apply runs_source_piece|]. intros q s1 _ Hp1 [Hn Hs1].
    eapply runs_mono; [apply (IH (finished ++ [q])); [done|]|done|].
    + apply all_shown_app; [by eapply all_shown_mono|apply all_shown_one; by rewrite Hn].
    + intros r s2 Hp2 [Hlen Hs2]. rewrite length_app in Hlen. simpl in *. split; [lia|].
      intros x [->|Hx]%elem_of_cons; [by eapply shown_mono|by apply Hs2].
Qed.

Lemma runs_from_source tid l s :
  numbered l →
  runs (¬ works) (download_partial_from_source progress_ok request completion tid l) s (λ _ s', all_shown tid s' l).
Proof.
  intros Hl. unfold download_partial_from_source. eapply (runs_bind _ _ _ _ (λ _ _, True)).
  - apply runs_lift. destruct (request_header request) eqn:E; simpl; [done|]. intros Hw.
    pose proof (w_header Hw) as Hok. by rewrite E in Hok.
  - intros _ s1 _ _ _. eapply runs_bind.
    { apply runs_join_source; [unfold numbered; by rewrite (env_completion Henv)|apply all_shown_nil]. }
    intros r s2 _ _ [Hlen Hs]. rewrite (env_completion Henv) in Hlen. simpl in Hlen.
    rewrite Hlen, Nat.eqb_refl. apply runs_ret. intros p Hp. apply Hs. by rewrite (env_completion Henv).
Qed.

Lemma runs_scheduled_piece read tid p s :
  reads_genuine read → 0 ≤ Piece.number p →
  runs True (scheduled_source_piece progress_ok announce_ok request read tid p) s (λ q s', shown tid s' (Piece.number q)).
Proof.
  intros Hread Hnn. unfold scheduled_source_piece. eapply (runs_bind _ _ _ _ (λ q s', Piece.number q = Piece.number p)).
  - eapply runs_in_manager; [intros Hi; by apply download_from_source_law|]. intros [q|e] w [Hi Hq]; (split; [done|]); [by apply Hq|done].
  - intros q s1 _ _ Hn. eapply runs_bind.
    + apply (runs_deliver_with _ _ (λ _, True) tid (Piece.number p)); [done|done|done|]. intros Hi.
      eapply wp_mono; [by apply Hread|]. intros [b|e] w' [Hi' Hb]; (split; [done|]); (split; [done|]); [by apply Hb|done].
    + intros _ s2 _ _ [Hs _]. eapply runs_bind; [apply runs_log_announce|]. intros _ s3 _ Hp _.
      apply runs_ret. rewrite Hn. by eapply shown_mono.
Qed.

Lemma runs_join_scheduled read tid l finished s :
  reads_genuine read → numbered l → all_shown tid s finished →
  runs True (join_scheduled_source progress_ok announce_ok request read tid l finished) s (λ r s', all_shown tid s' r).
Proof.
  induction l as [|p l IH] in finished, s |- *; intros Hread Hl Hf; cbn [join_scheduled_source]; [by apply runs_ret|].
  apply Forall_cons in Hl as [Hnn Hl].
  eapply runs_bind.
  { apply (runs_catch _ True _ _ (λ r s', ∀ q, r = Ok q → shown tid s' (Piece.number q))); [|done].
    eapply runs_mono; [by apply runs_scheduled_piece|done|]. intros q s' _ Hs q' [= <-]. exact Hs. }
  intros [q|e] s1 _ Hp1 Hs1.
  - apply IH; [done|done|]. apply all_shown_app; [by eapply all_shown_mono|]. apply all_shown_one. by apply Hs1.
  - eapply runs_bind; [apply runs_log_announce|]. intros _ s2 _ Hp2 _.
    destruct e; try by apply runs_throw. apply runs_ret. eapply all_shown_mono; [|exact Hf]. by etrans.
Qed.

(** ** From parents *)

(** Asking the parents [l] one after the other until one of them has the piece. *)
Definition ask (tid : string) (c : CollectedPiece) (q : CollectedParent) : PR W DFError Piece.Piece :=
  download_from_parent (piece_id tid (PieceCollector.number c)) hid tid (PieceCollector.number c)
    (PieceCollector.offset c) (PieceCollector.length c) q (is_prefetch request).
Inductive attempts (tid : string) (c : CollectedPiece) : list CollectedParent → W → option Piece.Piece → W → Prop :=
| attempts_nil w : attempts tid c [] w None w
| attempts_ok q w p w' : ask tid c q w = Some (Ok p, w') → attempts tid c [q] w (Some p) w'
| attempts_err q l w e w1 r w2 :
    ask tid c q w = Some (Err e, w1) → attempts tid c l w1 r w2 → attempts tid c (q :: l) w r w2.

(** The outcome of trying the parents [ps]: [l] are the ones that were asked. *)
Definition tried (c : CollectedPiece) (ps l : list CollectedParent) (r : result FromParentError Piece.Piece) : Prop :=
  NoDup (ParentSelector.id <$> l) ∧ l ⊆ ps ∧
  ∀ e, r = Err e → (∀ q, q ∈ ps → ParentSelector.id q ∈ ParentSelector.id <$> l) ∧
    ∃ q, last l = Some q ∧ e = DownloadFromParentFailed_ (PieceCollector.number c) (ParentSelector.id q).

Lemma tried_more c ps q l r :
  q ∈ ps → tried c (filter (λ p, ParentSelector.id p ≠ ParentSelector.id q) ps) l r → tried c ps (q :: l) r.
Proof.
  intros Hq (Hnd & Hsub & He). split_and!.
  - rewrite fmap_cons. apply NoDup_cons. split; [|done]. intros (x & Hx & Hin)%list_elem_of_fmap.
    apply Hsub, list_elem_of_filter in Hin as [Hne _]. congruence.
  - intros x [->|Hx]%elem_of_cons; [done|]. by apply Hsub, list_elem_of_filter in Hx as [_ ?].
  - intros e ->. destruct (He e eq_refl) as [Hall (x & Hx & ->)]. split.
    + intros y Hy. rewrite fmap_cons. apply elem_of_cons.
      destruct (decide (ParentSelector.id y = ParentSelector.id q)) as [->|Hne]; [by left|]. right.
      apply Hall. by apply list_elem_of_filter.
    + exists x. split; [|done]. by rewrite last_cons, Hx.
Qed.

Lemma try_parents_tried fuel tid c ps s :
  good s → ps ≠ [] → 0 ≤ PieceCollector.number c → (List.length ps < fuel)%nat →
  wp (try_parents hid request weighted_index fastrand fuel tid c ps) (λ r s', good s' ∧
    ∃ w l x, s' = set_manager w s ∧ r = Ok x ∧ tried c ps l x ∧
      attempts tid c l (manager s) (match x with Ok p => Some p | Err _ => None end) w ∧
      ∀ p, x = Ok p → Piece.number p = PieceCollector.number c ∧
        readable w (piece_id tid (PieceCollector.number c)) (Piece.length p)) s.
Proof.
  induction fuel as [|fuel IH] in ps, s |- *; intros [Hi Hw] Hps Hnn Hlen; [lia|]. cbn [try_parents].
  destruct (select_Some weighted_index fastrand ps (selector s) (env_weighted Henv) (env_fastrand Henv) Hw Hps) as (q & Hsel & Hq).
  apply wp_bind_gets. rewrite Hsel. apply wp_bind. cbn. apply wp_bind_catch, wp_zoom.
  pose proof (download_from_parent_law hid tid (PieceCollector.number c)
    (PieceCollector.offset c) (PieceCollector.length c) q (is_prefetch request) (manager s) Hi Hnn) as Hd.
  unfold wp in Hd |- * at 1. destruct (download_from_parent _ _ _ _ _ _ _ _ _) as [[[p|e] w]|] eqn:Ed; [| |done].
  - destruct Hd as [Hi' Hp]. split; [done|]. exists w, [q], (Ok p). split_and!; try done.
    + split; [apply NoDup_singleton|]. split; [|done]. by intros x ->%list_elem_of_singleton.
    + by apply attempts_ok.
    + intros p' [= <-]. by apply Hp.
  - destruct Hd as [Hi' _]. cbv zeta.
    assert (List.length (filter (λ p, ParentSelector.id p ≠ ParentSelector.id q) ps) < List.length ps)%nat as Hlt.
    { eapply length_filter_lt; [exact Hq|]. intros Hne. by apply Hne. }
    destruct (decide (filter (λ p, ParentSelector.id p ≠ ParentSelector.id q) ps = [])) as [Ef|Ef].
    + rewrite Ef. split; [done|]. exists w, [q], (Err (DownloadFromParentFailed_ (PieceCollector.number c) (ParentSelector.id q))).
      split_and!; try done; [|by eapply attempts_err, attempts_nil].
      split; [apply NoDup_singleton|]. split; [by intros x ->%list_elem_of_singleton|]. intros e' [= <-]. split; [|by exists q].
      intros y Hy. destruct (decide (ParentSelector.id y = ParentSelector.id q)) as [->|Hne]; [by left|].
      by destruct (filter_nil_not_elem_of _ _ y Ef Hne).
    + assert (wp (try_parents hid request weighted_index fastrand fuel tid c
        (filter (λ p, ParentSelector.id p ≠ ParentSelector.id q) ps)) (λ r s', good s' ∧
        ∃ w' l x, s' = set_manager w' s ∧ r = Ok x ∧ tried c ps l x ∧
          attempts tid c l (manager s) (match x with Ok p => Some p | Err _ => None end) w' ∧
          ∀ p, x = Ok p → Piece.number p = PieceCollector.number c ∧
            readable w' (piece_id tid (PieceCollector.number c)) (Piece.length p)) (set_manager w s)) as Hgoal.
      { eapply wp_mono; [apply IH; [done|done|done|lia]|]. intros r s' (Hg & w' & l & x & -> & -> & Ht & Ha & Hx).
        split; [done|]. exists w', (q :: l), x. split_and!; try done; [by apply tried_more|by eapply attempts_err]. }
      destruct (filter (λ p, ParentSelector.id p ≠ ParentSelector.id q) ps); done.
Qed.

Lemma runs_parent_piece tid c s :
  parents c ≠ [] → 0 ≤ PieceCollector.number c →
  runs False (parent_piece progress_ok announce_ok hid request weighted_index fastrand tid c) s
    (λ ri s', ∀ p, ri.1 = Ok p → shown tid s' (Piece.number p)).
Proof.
  intros Hps Hnn. unfold parent_piece. eapply (runs_bind _ _ _ _ (λ r s', ∀ p, r = Ok p →
    Piece.number p = PieceCollector.number c ∧ readable (manager s') (piece_id tid (PieceCollector.number c)) (Piece.length p))).
  { intros Hg. apply wp_returns. eapply wp_mono; [apply try_parents_tried; [done|done|done|lia]|].
    intros r s' (Hg' & w & l & x & -> & -> & _ & _ & Hx). split; [done|]. split; [reflexivity|exact Hx]. }
  intros [p|e] s1 _ _ Hp; [|by apply runs_ret]. destruct (Hp p eq_refl) as [Hn Hr]. cbv zeta.
  eapply (runs_bind _ _ _ _ (λ r s', is_ok r = true → shown tid s' (Piece.number p))).
  { apply (runs_catch _ True); [|done]. eapply runs_mono; [by apply (runs_deliver tid (PieceCollector.number c))|done|].
    intros b s' _ [Hs _] _. by rewrite Hn. }
  intros [d|e] s2 _ _ Hs; [|by apply runs_ret].
  eapply (runs_bind _ _ _ _ (λ _ _, True)); [apply (runs_catch _ True); [apply runs_announce|done]|].
  intros a s3 _ Hp3 _. apply runs_ret. intros p' [= <-]. eapply shown_mono; [done|by apply Hs].
Qed.

Lemma runs_collect_loop tid l i finished results s :
  (∀ c b, (c, b) ∈ l → parents c ≠ [] ∧ 0 ≤ PieceCollector.number c) → all_shown tid s finished →
  runs False (collect_loop progress_ok announce_ok hid request weighted_index fastrand tid l i finished results) s
    (λ r s', all_shown tid s' r.1).
Proof.
  induction l as [|[c b] l IH] in i, finished, results, s |- *; intros Hl Hf; cbn [collect_loop]; [by apply runs_ret|].
  assert (∀ c b, (c, b) ∈ l → parents c ≠ [] ∧ 0 ≤ PieceCollector.number c) by (intros; eapply Hl; by right).
  destruct (i && negb b); [by apply IH|]. eapply runs_bind; [apply runs_parent_piece; eapply (Hl c b); by left|].
  intros [r i'] s1 _ Hp1 Hs1. apply IH; [done|]. destruct r as [p|e]; [|by eapply all_shown_mono].
  apply all_shown_app; [by eapply all_shown_mono|]. apply all_shown_one. by apply Hs1.
Qed.

Lemma runs_join_parents l s : runs False (join_parents announce_ok l) s (λ _ _, True).
Proof.
  induction l as [|[p|[n q|e]] l IH] in s |- *; cbn [join_parents]; [by apply runs_ret|apply IH| |].
  - eapply runs_bind; [apply runs_log_announce|]. intros. apply IH.
  - destruct e; try apply IH. by apply runs_ret.
Qed.

Lemma runs_from_collected tid l s :
  (∀ c b, (c, b) ∈ l → parents c ≠ [] ∧ 0 ≤ PieceCollector.number c) →
  runs False (download_from_collected progress_ok announce_ok hid request weighted_index fastrand tid l) s
    (λ r s', all_shown tid s' r).
Proof.
  intros Hl. eapply runs_bind; [apply runs_collect_loop; [done|apply all_shown_nil]|]. intros [f rs] s1 _ _ Hs1.
  eapply runs_bind; [apply runs_join_parents|]. intros _ s2 _ Hp2 _. apply runs_ret. by eapply all_shown_mono.
Qed.

Lemma runs_from_parent tid ps l s :
  (∀ c b, (c, b) ∈ l → parents c ≠ [] ∧ 0 ≤ PieceCollector.number c) →
  runs True (download_partial_with_scheduler_from_parent progress_ok announce_ok hid request weighted_index fastrand
    parse_ip connects tid ps l) s (λ r s', all_shown tid s' r).
Proof.
  intros Hl [Hi Hw]. unfold returns, download_partial_with_scheduler_from_parent.
  pose proof (register_weights_ok parse_ip connects ps (selector s) Hw) as Hw'.
  destruct (Selector.register parse_ip connects ps (selector s)) as [[[]|e] x]; [|done].
  pose proof (runs_from_collected tid l (set_selector x s) Hl ltac:(done)) as Hrun. unfold returns in Hrun.
  destruct (download_from_collected _ _ _ _ _ _ _ _ _) as [[r s']|]; [|done]. destruct Hrun as ([Hi' Hw2] & Hp & Hr).
  split; [split; [done|by apply unregister_weights_ok]|]. split; [done|]. destruct r; [|done]. exact Hr.
Qed.

(** ** With the scheduler *)

Local Notation from_parent := (download_partial_with_scheduler_from_parent progress_ok announce_ok hid request
  weighted_index fastrand parse_ip connects).
Local Notation loop := (schedule_loop progress_ok announce_ok max_schedule_count hid request completion weighted_index
  fastrand parse_ip connects stream_closes collected).

Lemma runs_catch_any {A} F (m : TM A) s (Q : A → World → Prop) :
  runs True m s Q → runs F (pr_catch m) s (λ r s', ∀ a, r = Ok a → Q a s').
Proof. intros Hm. eapply (runs_catch _ True); [|done]. eapply runs_mono; [exact Hm|done|]. by intros a s' _ HQ ? [= <-]. Qed.

Lemma runs_schedule_loop tid l stream k finished s :
  numbered l → all_shown tid s finished → runs True (loop tid l stream k finished) s (λ r s', all_shown tid s' r).
Proof.
  induction stream as [|item stream IH] in k, finished, s |- *; intros Hl Hf; cbn [schedule_loop]; [by apply runs_ret|].
  assert (∀ m s1, progress s `prefix_of` progress s1 →
    runs True (_ ← log_error (announce announce_ok m); _ ← closed stream_closes; mret finished) s1
      (λ r s', all_shown tid s' r)) as Hlog.
  { intros m s1 Hp1. apply runs_last. intros s2 Hp2. eapply all_shown_mono; [|exact Hf]. by etrans. }
  destruct item as [|e|[[|ps| |]|]]; [by apply runs_throw|..]; cbv zeta; (destruct (max_schedule_count <? k + 1); [by apply Hlog|]);
    try by apply runs_throw.
  - eapply runs_bind; [apply runs_announce|]. intros _ s1 _ _ _. eapply runs_bind; [apply runs_announce|].
    intros _ s2 _ _ _. eapply runs_bind; [apply runs_closed|]. intros _ s3 _ _ _. apply runs_ret, all_shown_nil.
  - eapply runs_bind; [apply runs_catch_any, runs_announce|]. intros [a|e] s1 _ Hp1 _; [|by apply runs_ret; eapply all_shown_mono].
    eapply runs_bind; [apply runs_catch_any, runs_from_parent; intros; by eapply (env_collected Henv)|].
    intros r s2 _ Hp2 Hr. set (partial := match r with Ok p => p | Err _ => [] end).
    assert (all_shown tid s2 (PieceCalc.merge_finished_pieces finished partial)) as Hm.
    { apply all_shown_merge; [eapply all_shown_mono; [|exact Hf]; by etrans|].
      destruct r; [by apply Hr|apply all_shown_nil]. }
    destruct (_ =? _)%nat.
    + apply runs_last. intros s3 Hp3. by eapply all_shown_mono.
    + eapply runs_bind; [apply runs_catch_any, runs_announce|].
      intros [a'|e] s3 _ Hp3 _; [apply IH; [done|]|apply runs_ret]; by eapply all_shown_mono.
  - eapply runs_bind; [apply runs_catch_any, runs_announce|]. intros [a|e] s1 _ Hp1 _; [|by apply runs_ret; eapply all_shown_mono].
    eapply runs_bind.
    { apply runs_catch_any. unfold download_partial_with_scheduler_from_source.
      eapply (runs_bind _ _ _ _ (λ _ _, True)); [by apply runs_lift; destruct (or_err _ _)|]. intros _ s2 _ _ _.
      apply runs_join_scheduled; [exact read_piece_genuine|unfold numbered; rewrite (env_completion Henv); by apply numbered_rest|apply all_shown_nil]. }
    intros [p|e] s2 _ Hp2 Hr; [|apply Hlog; by etrans].
    assert (all_shown tid s2 (PieceCalc.merge_finished_pieces finished p)) as Hm.
    { apply all_shown_merge; [eapply all_shown_mono; [|exact Hf]; by etrans|by apply Hr]. }
    destruct (_ =? _)%nat; apply runs_last; intros s3 Hp3; by eapply all_shown_mono.
Qed.

Local Notation download := (download clock progress_ok announce_ok max_schedule_count hid request completion
  weighted_index fastrand parse_ip connects stream_closes collected announce_peer).

Lemma runs_download_rest tid cl l s :
  numbered l →
  runs (¬ works) (download_rest progress_ok announce_ok max_schedule_count hid request completion weighted_index fastrand
    parse_ip connects stream_closes collected announce_peer tid cl l) s (λ _ s', all_shown tid s' l).
Proof.
  intros Hl. assert (∀ l s, numbered l → runs (¬ works) (back_to_source progress_ok request completion tid l) s (λ _ s', all_shown tid s' l)) as Hback.
  { clear l s Hl. intros l s Hl. eapply runs_bind; [by apply runs_from_source|]. intros ? s1 ? ? Hs. by apply runs_ret. }
  assert (∀ l s, numbered l → runs (¬ works) (if disable_back_to_source request then pr_throw (Unknown "download failed")
    else back_to_source progress_ok request completion tid l) s (λ _ s', all_shown tid s' l)) as Hlast.
  { clear l s Hl. intros l s Hl. destruct (disable_back_to_source request) eqn:E; [|by apply Hback].
    apply runs_throw. intros Hw. by rewrite (w_enabled Hw) in E. }
  unfold download_rest. destruct (should_bypass_scheduler request cl); [by apply Hback|].
  eapply runs_bind.
  { apply (runs_catch_any _ _ _ (λ r s', all_shown tid s' r)). unfold download_partial_with_scheduler.
    eapply runs_bind; [apply runs_announce|]. intros _ s1 _ _ _.
    eapply (runs_bind _ _ _ _ (λ _ _, True)); [by apply runs_lift; destruct announce_peer|]. intros stream s2 _ _ _.
    apply runs_schedule_loop; [done|apply all_shown_nil]. }
  intros [finished|e] s1 _ Hp1 Hr; [|by apply Hlast]. specialize (Hr finished eq_refl). cbv zeta.
  apply (numbered_rest finished) in Hl.
  destruct (PieceCalc.remove_finished_from_interested finished l) as [|q rest] eqn:E.
  - apply runs_ret. eapply all_shown_rest; [exact Hr|]. rewrite E. apply all_shown_nil.
  - eapply runs_mono; [by apply Hlast|done|]. intros ? s2 Hp2 Hs2.
    eapply all_shown_rest; [by eapply all_shown_mono|]. by rewrite E.
Qed.

Lemma runs_download fuel wakes task s cl pl interested :
  Task.content_length task = Some cl → Task.piece_length task = Some pl →
  PieceCalc.calculate_interested clock fuel pl cl (range request) = Some (Ok interested) →
  runs (¬ works) (download fuel wakes task) s (λ _ s', all_shown (Task.id task) s' interested).
Proof.
  intros Hcl Hpl Hint. pose proof (calculate_interested_numbered _ _ _ _ _ _ Hint) as Hnum. unfold TaskDownload.download. rewrite Hcl, Hpl. cbv zeta. set (tid := Task.id task).
  eapply (runs_bind _ _ _ _ (λ a _, a = cl)); [by apply runs_lift|]. intros ? s1 _ _ ->.
  eapply (runs_bind _ _ _ _ (λ a _, a = pl)); [by apply runs_lift|]. intros ? s2 _ _ ->. rewrite Hint.
  eapply (runs_bind _ _ _ _ (λ a _, a = Ok interested)); [by apply runs_expect|]. intros ? s3 _ _ ->.
  eapply (runs_bind _ _ _ _ (λ a _, a = interested)); [by apply runs_lift|]. intros ? s4 _ _ ->.
  eapply runs_bind; [apply runs_send; intros Ef Hw; by rewrite (w_progress Hw) in Ef|]. intros _ s5 _ _ _.
  eapply runs_bind; [by apply runs_from_local|]. intros finished s6 _ _ H6.
  assert (∀ s' rest, progress s6 `prefix_of` progress s' →
    PieceCalc.remove_finished_from_interested finished interested = rest → all_shown tid s' rest →
    all_shown tid s' interested) as Hrest.
  { intros s' rest Hp <- Hr. eapply all_shown_rest; [eapply all_shown_mono; [exact Hp|exact H6]|done]. }
  apply (numbered_rest finished) in Hnum.
  destruct (PieceCalc.remove_finished_from_interested finished interested) as [|q rest];
    [apply runs_ret; eapply Hrest; [reflexivity|reflexivity|apply all_shown_nil]|].
  eapply (runs_bind _ _ _ _ (λ _ _, True)); [by apply runs_gets|]. intros prefetched s7 _ Hp7 _.
  assert (∀ s8, progress s6 `prefix_of` progress s8 → runs (¬ works) (download_rest progress_ok announce_ok
    max_schedule_count hid request completion weighted_index fastrand parse_ip connects stream_closes collected announce_peer tid cl
    (q :: rest)) s8 (λ _ s', all_shown tid s' interested)) as Hdl.
  { intros s8 Hp8. eapply runs_mono; [apply runs_download_rest; done|done|]. intros ? s' Hp' Hs'.
    eapply Hrest; [by etrans|reflexivity|done]. }
  destruct (negb (is_prefetch request) && prefetched); [|by apply Hdl].
  eapply runs_bind; [apply runs_wait; [done|apply all_shown_nil]|]. intros f2 s8 _ Hp8 H8.
  apply (numbered_rest f2) in Hnum.
  destruct (PieceCalc.remove_finished_from_interested f2 (q :: rest)) as [|q2 rest2] eqn:E2.
  - apply runs_ret. eapply Hrest; [by etrans|reflexivity|]. eapply all_shown_rest; [exact H8|].
    rewrite E2. apply all_shown_nil.
  - eapply runs_mono; [apply runs_download_rest; done|done|]. intros ? s' Hp' Hs'.
    eapply Hrest; [do 2 (etrans; [eassumption|]); done|reflexivity|].
    eapply all_shown_rest; [eapply all_shown_mono; [exact Hp'|exact H8]|]. by rewrite E2.
Qed.
End download.
End TaskDownloadFacts.
