(* ===== verification/TaskDownloadTheorems.v ===== *)
(** * Theorems about downloading a task

    What the client is shown, when a download succeeds, how the parents of a piece are
    tried, how often the scheduler is asked, and the books of the selector of parents;
    and a concrete piece manager on which the hypotheses hold. *)

From S2P Require Import Prelude Errors MetadataTypes Cache PieceCalc ParentSelector ParentSelectorFacts PieceCollector TaskDownload TaskDownloadFacts.
From Stdlib Require Import ZArith Lia String Strings.Byte.
From stdpp Require Import base tactics numbers list gmap strings pretty.
Import TaskDownload TaskDownloadFacts.
Local Open Scope Z_scope.

Module TaskDownloadTheorems.
Section download.
Context {W : Type} `{PieceApiLaws W} (clock : nat → NaiveDateTime).
Local Notation World := (TaskDownload.World (W := W)).
Local Notation TM := (TaskDownload.TM (W := W)).
Context (progress_ok announce_ok : nat → bool) (max_schedule_count : Z) (hid : string) (request : Download).
Context (completion : list Piece.Piece → list Piece.Piece).
Context (weighted_index : list Z → option nat) (fastrand : nat → nat).
Context (parse_ip : string → Result unit) (connects : Host → bool).
Context (stream_closes : bool) (collected : Z → list Piece.Piece → list (CollectedPiece * bool)).
Context (announce_peer : Result (list StreamItem)).
Local Notation environment := (environment completion weighted_index fastrand collected).
Local Notation download := (download clock progress_ok announce_ok max_schedule_count hid request completion
  weighted_index fastrand parse_ip connects stream_closes collected announce_peer).
Local Notation loop := (schedule_loop progress_ok announce_ok max_schedule_count hid request completion weighted_index
  fastrand parse_ip connects stream_closes collected).

Lemma bind_ext {A B} (m : TM A) (f g : A → TM B) s :
  (∀ a s, f a s = g a s) → (m ≫= f) s = (m ≫= g) s.
Proof. intros Hfg. cbv [mbind tm_mbind pr_mbind]. by destruct (m s) as [[[a|e] s']|]. Qed.

(** ** The client *)


(** C2: Whatever the scheduler answers, whichever parents fail, and whatever the local
    storage has, a download succeeds when the client takes every message, the scheduler
    closes its stream, the header of the request parses, stored pieces can be read, the
    source delivers, and going back to the source is allowed.  The rest of the environment
    is as for the pieces that are shown: the laws of the piece manager, random generators
    that draw an index in range, a [JoinSet] that yields every task once, and collected
    pieces with at least one parent. *)
Theorem download_survives fuel wakes task s cl pl interested :
  environment → works progress_ok request stream_closes → good s →
  Task.content_length task = Some cl → Task.piece_length task = Some pl →
  PieceCalc.calculate_interested clock fuel pl cl (range request) = Some (Ok interested) →
  ∃ s', download fuel wakes task s = Some (Ok tt, s').
Proof.
  intros Henv Hworks Hs Hcl Hpl Hint.
  pose proof (runs_download clock progress_ok announce_ok max_schedule_count hid request completion weighted_index
    fastrand parse_ip connects stream_closes collected announce_peer Henv (or_intror (w_progress _ _ _ Hworks)) fuel wakes
    task s cl pl interested Hcl Hpl Hint Hs) as Hrun.
  unfold returns in Hrun. destruct (download fuel wakes task s) as [[[[]|e] s']|]; [by exists s'| |].
  - by destruct Hrun as (_ & _ & []).
  - by rewrite (w_closes _ _ _ Hworks) in Hrun.
Qed.

(** ** The parents *)

(** C35: A piece is asked of its parents one after the other, of none twice, until one has
    it; it is given up only when all of them have failed, and then the last one is blamed. *)
Theorem parents_tried_once tid c s :
  environment → good s → parents c ≠ [] → 0 ≤ PieceCollector.number c →
  ∃ w l r,
    try_parents hid request weighted_index fastrand (S (List.length (parents c))) tid c (parents c) s
      = Some (Ok r, set_manager w s) ∧
    attempts hid request tid c l (manager s) (match r with Ok p => Some p | Err _ => None end) w ∧
    NoDup (ParentSelector.id <$> l) ∧ l ⊆ parents c ∧
    (∀ e, r = Err e → (∀ q, q ∈ parents c → ParentSelector.id q ∈ ParentSelector.id <$> l) ∧
       ∃ q, last l = Some q ∧ e = DownloadFromParentFailed_ (PieceCollector.number c) (ParentSelector.id q)).
Proof.
  intros Henv Hs Hps Hnn.
  pose proof (try_parents_tried hid request completion weighted_index fastrand collected Henv
    (S (List.length (parents c))) tid c (parents c) s Hs Hps Hnn ltac:(lia)) as Hrun.
  unfold wp in Hrun. destruct (try_parents _ _ _ _ _ _ _ _ _) as [[r s']|]; [|done].
  destruct Hrun as (_ & w & l & x & -> & -> & (Hnd & Hsub & He) & Ha & _). by exists w, l, x.
Qed.

(** The answers of the scheduler that come after [max_schedule_count] ones are not even
    looked at, except that one more shows that the limit is exceeded. *)
Theorem schedule_bounded tid l stream s :
  0 ≤ max_schedule_count →
  loop tid l stream 0 [] s = loop tid l (take (S (Z.to_nat max_schedule_count)) stream) 0 [] s.
Proof.
  intros Hmax.
  assert (∀ k finished s, 0 ≤ k ≤ max_schedule_count →
    loop tid l stream k finished s = loop tid l (take (S (Z.to_nat (max_schedule_count - k))) stream) k finished s) as Hgen.
  { induction stream as [|item stream IH]; intros k finished s1 Hk; [done|]. rewrite firstn_cons.
    destruct item as [|e|[[|ps| |]|]]; [done|done|done| |done|done|done]. cbn [schedule_loop].
    destruct (max_schedule_count <? k + 1) eqn:E; [done|]. apply Z.ltb_ge in E.
    replace (Z.to_nat (max_schedule_count - k)) with (S (Z.to_nat (max_schedule_count - (k + 1)))) by lia.
    apply bind_ext. intros [a|e] s2; [|done]. apply bind_ext. intros r s3. cbv zeta.
    destruct (_ =? _)%nat; [done|]. apply bind_ext. intros [a'|e] s4; [|done]. apply IH. lia. }
  rewrite (Hgen 0 [] s) by lia. by rewrite Z.sub_0_r.
Qed.

(** ** The books of the selector *)

Definition same_selector (s s' : World) : Prop := selector s' = selector s.
#[local] Instance same_selector_preorder : PreOrder same_selector.
Proof. split; [done|]. intros s1 s2 s3 H1 H2. unfold same_selector in *. congruence. Qed.

Lemma manager_same {A} (m : PR W DFError A) : respects same_selector (in_manager m).
Proof. apply (respects_zoom _ (λ _ _, True)); [done|]. by intros s r s'. Qed.
Lemma send_same e m : respects same_selector (send_progress (W := W) progress_ok e m).
Proof. intros s r s'. unfold send_progress. destruct (progress_ok _); intros [= _ <-]; done. Qed.
Lemma announce_same m : respects same_selector (announce (W := W) announce_ok m).
Proof. intros s r s'. unfold announce. destruct (announce_ok _); intros [= _ <-]; done. Qed.
#[local] Hint Resolve manager_same send_same announce_same : respects.

Lemma deliver_with_same read need pid tid m :
  respects same_selector (deliver_with (W := W) progress_ok read need pid tid m).
Proof. unfold deliver_with. respects. Qed.
Lemma deliver_same need pid tid m : respects same_selector (deliver (W := W) progress_ok need pid tid m).
Proof. apply deliver_with_same. Qed.
#[local] Hint Resolve deliver_same deliver_with_same : respects.
Lemma log_same m : respects same_selector (log_error (announce (W := W) announce_ok m)).
Proof. unfold log_error. respects. Qed.
#[local] Hint Resolve log_same : respects.
Lemma local_same tid l : respects same_selector (download_partial_from_local (W := W) progress_ok request tid l).
Proof.
  unfold download_partial_from_local. respects. generalize (@nil Piece.Piece) as finished.
  match goal with |- ∀ _, respects _ (local_loop _ _ _ ?z _) => generalize z as ps end.
  intros ps. induction ps as [|[[q|] p] ps IH]; intros finished; cbn [local_loop]; respects.
Qed.
Lemma modify_same (f : World → W) : respects same_selector (pr_modify (E := DFError) (λ s, set_manager (f s) s)).
Proof. by apply respects_modify. Qed.
#[local] Hint Resolve local_same modify_same : respects.
Lemma wait_same wakes tid l finished :
  respects same_selector (wait_for_in_flight_pieces (W := W) progress_ok request wakes tid l finished).
Proof. revert l finished. induction wakes as [|wakes IH]; intros l finished; cbn [wait_for_in_flight_pieces]; respects. Qed.
Lemma join_source_same tid l finished : respects same_selector (join_source (W := W) progress_ok request tid l finished).
Proof. revert finished. induction l as [|p l IH]; intros finished; cbn [join_source]; unfold source_piece; respects. Qed.
#[local] Hint Resolve join_source_same : respects.
Lemma from_source_same tid l : respects same_selector (download_partial_from_source (W := W) progress_ok request completion tid l).
Proof. unfold download_partial_from_source. respects. Qed.
Lemma join_scheduled_same tid l finished :
  respects same_selector (join_scheduled_source (W := W) progress_ok announce_ok request read_piece tid l finished).
Proof.
  revert finished. induction l as [|p l IH]; intros finished; cbn [join_scheduled_source]; unfold scheduled_source_piece; respects.
Qed.
#[local] Hint Resolve join_scheduled_same : respects.
Lemma scheduler_source_same tid l : respects same_selector
  (download_partial_with_scheduler_from_source (W := W) progress_ok announce_ok request completion read_piece tid l).
Proof. unfold download_partial_with_scheduler_from_source. respects. Qed.
Lemma try_parents_same fuel tid c ps :
  respects same_selector (try_parents (W := W) hid request weighted_index fastrand fuel tid c ps).
Proof. revert ps. induction fuel as [|fuel IH]; intros ps; cbn [try_parents]; [by intros ? ? ?|]. respects. Qed.
#[local] Hint Resolve try_parents_same : respects.
Lemma parent_piece_same tid c :
  respects same_selector (parent_piece (W := W) progress_ok announce_ok hid request weighted_index fastrand tid c).
Proof. unfold parent_piece. respects. Qed.
#[local] Hint Resolve parent_piece_same : respects.
Lemma collected_same tid l : respects same_selector
  (download_from_collected (W := W) progress_ok announce_ok hid request weighted_index fastrand tid l).
Proof.
  unfold download_from_collected. respects.
  - generalize false as i, (@nil Piece.Piece) as finished, (@nil (result FromParentError Piece.Piece)) as results.
    induction l as [|[c b] l IH]; intros i finished results; cbn [collect_loop]; respects.
  - match goal with |- respects _ (join_parents _ ?z) => generalize z as rs end.
    intros rs. induction rs as [|[p|[n q|e]] rs IH]; cbn [join_parents]; respects.
Qed.

(** [live] are the registrations of others. *)
Definition balanced (live : list string) (s s' : World) : Prop :=
  SelectorFacts.counted live (selector s) → SelectorFacts.counted live (selector s').
#[local] Instance balanced_preorder live : PreOrder (balanced live).
Proof. split; [intros s Hs; exact Hs|]. intros s1 s2 s3 H1 H2. unfold balanced in *. auto. Qed.

Lemma same_balanced {A} live (m : TM A) : respects same_selector m → respects (balanced live) m.
Proof. intros Hm s r s' Hs Hc. by rewrite (Hm s r s' Hs). Qed.

(** The candidate parents the scheduler may send. *)
Definition usable (live : list string) (item : StreamItem) : Prop :=
  ∀ ps, item = Message (Some (NormalTaskResponse ps)) →
    Forall (SelectorFacts.reachable parse_ip connects) ps ∧
    Z.of_nat (List.length (SelectorFacts.hosts ps ++ live)) < 2 ^ 64.

Lemma from_parent_balanced live tid ps l :
  usable live (Message (Some (NormalTaskResponse ps))) →
  respects (balanced live) (download_partial_with_scheduler_from_parent (W := W) progress_ok announce_ok hid request
    weighted_index fastrand parse_ip connects tid ps l).
Proof.
  intros Hu s r s' Hs Hc. destruct (Hu ps eq_refl) as [Hreach Hlen].
  unfold download_partial_with_scheduler_from_parent in Hs.
  destruct (SelectorFacts.register_counted parse_ip connects ps live (selector s) Hc Hreach Hlen) as (x & Hreg & Hx).
  rewrite Hreg in Hs.
  destruct (download_from_collected _ _ _ _ _ _ _ _ _) as [[r1 s1]|] eqn:E; [|done]. injection Hs as <- <-. simpl.
  apply collected_same in E. unfold same_selector in E. rewrite E. by apply SelectorFacts.unregister_counted.
Qed.

Lemma loop_balanced live tid l stream k finished :
  Forall (usable live) stream → respects (balanced live) (loop tid l stream k finished).
Proof.
  assert (∀ m, respects (balanced live) (announce (W := W) announce_ok m)) by (intros; apply same_balanced, announce_same).
  assert (∀ m, respects (balanced live) (log_error (announce (W := W) announce_ok m))) by (intros; apply same_balanced, log_same).
  assert (∀ tid l, respects (balanced live) (download_partial_with_scheduler_from_source (W := W) progress_ok announce_ok
    request completion read_piece tid l)) by (intros; apply same_balanced, scheduler_source_same).
  assert (respects (balanced live) (closed (W := W) stream_closes))
    by (unfold closed; destruct stream_closes; [respects|by intros ? ? ?]).
  revert k finished. induction stream as [|item stream IH]; intros k finished Hst; cbn [schedule_loop]; [respects|].
  apply Forall_cons in Hst as [Hi Hst].
  destruct item as [|e|[[|ps| |]|]]; respects. by apply from_parent_balanced.
Qed.

(** C37: When the hosts of the candidate parents can be connected to, a download leaves the
    registrations of the selector as it found them, whatever its outcome. *)
Theorem download_balances_selector live fuel wakes task s r s' :
  SelectorFacts.counted live (selector s) →
  (∀ stream, announce_peer = Ok stream → Forall (usable live) stream) →
  download fuel wakes task s = Some (r, s') →
  SelectorFacts.counted live (selector s') ∧
  Selector.connections (selector s') = Selector.connections (selector s).
Proof.
  intros Hc Hu Hd. assert (respects (balanced live) (download fuel wakes task)) as Hb.
  { assert (∀ e m, respects (balanced live) (send_progress (W := W) progress_ok e m)) by (intros; apply same_balanced, send_same).
    assert (∀ m, respects (balanced live) (announce (W := W) announce_ok m)) by (intros; apply same_balanced, announce_same).
    assert (∀ tid l, respects (balanced live) (download_partial_from_local (W := W) progress_ok request tid l))
      by (intros; apply same_balanced, local_same).
    assert (∀ w tid l f, respects (balanced live) (wait_for_in_flight_pieces (W := W) progress_ok request w tid l f))
      by (intros; apply same_balanced, wait_same).
    assert (∀ tid l, respects (balanced live) (download_partial_from_source (W := W) progress_ok request completion tid l))
      by (intros; apply same_balanced, from_source_same).
    assert (∀ tid l, respects (balanced live) (download_partial_with_scheduler (W := W) progress_ok announce_ok
      max_schedule_count hid request completion weighted_index fastrand parse_ip connects stream_closes collected announce_peer tid l)).
    { intros tid l. unfold download_partial_with_scheduler. apply respects_bind; [exact _|auto|]. intros _ s1 r1 s2.
      destruct announce_peer as [stream|e]; [|by intros [= _ <-]]. by apply loop_balanced, Hu. }
    unfold TaskDownload.download, download_rest, back_to_source. respects. }
  specialize (Hb s r s' Hd Hc). split; [exact Hb|]. apply map_eq. intros h. by rewrite (proj1 (Hb h)), (proj1 (Hc h)).
Qed.
End download.
End TaskDownloadTheorems.

(** ** A concrete download

    A content of ten bytes in pieces of four.  The scheduler names a parent and then goes
    back to the source; of the two parents of the first piece one fails. *)
Module TaskDownloadWitness.
Import TaskDownloadTheorems.

Definition stored (parent : option string) (n offset len : Z) : Piece.Piece :=
  Piece.mkPiece n offset (0 `max` len) "" parent 0 0 0 0 (Some 0).

(** The manager counts its downloads. *)
#[local] Instance manager_api : PieceApi nat := {|
  piece_id tid n := String.append tid (pretty n);
  piece_get pid := mret None;
  get_by_ids ids := mret ((λ _, None) <$> ids);
  read_piece _ _ len := if decide (0 ≤ len) then mret (replicate (Z.to_nat len) x00) else pr_throw (Unknown "length");
  download_from_parent _ _ _ n offset len parent _ := λ w,
    if decide (ParentSelector.id parent = "bad") then Some (Err (Unknown "bad"), w)
    else Some (Ok (stored (Some (ParentSelector.id parent)) n offset len), S w);
  download_from_source _ _ n _ offset len _ := λ w, Some (Ok (stored None n offset len), S w);
  in_flight_notifier _ _ := false;
  is_prefetched _ _ := false;
  select_all _ w := w;
|}.

#[local] Instance manager_laws : PieceApiLaws nat.
Proof.
  refine {| api_inv := λ _, True; genuine := λ _ _ _ b, Forall (x00 =.) b; readable := λ _ _ len, 0 ≤ len |}.
  - done.
  - intros tid ns w _ _. split; [done|]. intros l [= <-]. rewrite <-list_fmap_compose.
    apply Forall2_fmap_r, Forall_Forall2_diag, Forall_true. done.
  - intros pid tid len w _. cbn. destruct (decide (0 ≤ len)); (split; [done|]); (split; [done|]); [|done].
    intros b [= <-]. split; [by apply Forall_replicate|]. rewrite length_replicate. lia.
  - intros h tid n offset len parent prefetch w _ _. cbn. unfold wp. destruct (decide _); (split; [done|]); [done|].
    intros p [= <-]. simpl. split; [done|lia].
  - intros tid n u offset len prefetch w _ _. cbn. unfold wp. split; [done|]. intros p [= <-]. simpl. split; [done|lia].
  - done.
Defined.

Definition host1 : Host := SelectorWitness.h1.
Definition peers : list Peer := [SelectorWitness.p1].
Definition request : Download := mkDownload "http://x" None Always false true false (Ok tt).
Definition bad : CollectedParent := mkParent "bad" None None None None.
Definition parent : CollectedParent := mkParent "p1" (Some host1) None None None.
Definition first : CollectedPiece := mkCollected 0 0 4 [bad; parent].
Definition collected (k : Z) (l : list Piece.Piece) : list (CollectedPiece * bool) := [(first, true)].
Definition stream : list StreamItem :=
  [Message (Some (NormalTaskResponse peers)); Message (Some NeedBackToSourceResponse)].
Definition task : Task := Task.set_lengths (Some 4) (Some 10) Task.default.
Definition world : World := mkWorld 0%nat Selector.new [] [] 0 0.
Definition in_order (l : list Piece.Piece) : list Piece.Piece := l.
Definition yes (n : nat) : bool := true.
Definition interested : list Piece.Piece :=
  match PieceCalc.calculate_interested PieceCalcWitness.clock 4 4 10 None with Some (Ok l) => l | _ => [] end.

Lemma env : environment in_order SelectorWitness.first_positive pred collected.
Proof.
  split; [apply SelectorWitness.first_positive_spec| |done|].
  - intros [|n] ?; simpl; [done|lia].
  - by intros k l c b [= -> ->]%list_elem_of_singleton.
Qed.
Lemma working : works yes request true.
Proof.
  split; try done. intros pid tid len w _ Hr. cbn in *. by rewrite decide_True.
Qed.
Lemma world_good : good world.
Proof. split; [done|]. intros h w Hw. cbn in Hw. by rewrite lookup_empty in Hw. Qed.

Definition run : option (result DFError unit * World) :=
  TaskDownload.download PieceCalcWitness.clock yes yes 5 "h" request in_order SelectorWitness.first_positive pred
    SelectorWitness.parse SelectorWitness.always true collected (Ok stream) 4 0 task world.


(** A scheduler that keeps its stream open: the same download never returns. *)
Lemma open_stream_hangs :
  TaskDownload.download PieceCalcWitness.clock yes yes 5 "h" request in_order SelectorWitness.first_positive pred
    SelectorWitness.parse SelectorWitness.always false collected (Ok stream) 4 0 task world = None.
Proof. vm_compute. reflexivity. Qed.

Lemma download_survives_witness : ∃ s', run = Some (Ok tt, s').
Proof.
  exact (download_survives PieceCalcWitness.clock yes yes 5 "h" request in_order SelectorWitness.first_positive pred
    SelectorWitness.parse SelectorWitness.always true collected (Ok stream) 4 0 task world 10 4 interested env working world_good
    eq_refl eq_refl eq_refl).
Defined.

(** The parent that failed is asked once, then the other one. *)
Lemma parents_tried_once_witness : ∃ w l r,
  try_parents "h" request SelectorWitness.first_positive pred 3 "" first (parents first) world
    = Some (Ok r, set_manager w world) ∧ NoDup (ParentSelector.id <$> l).
Proof.
  destruct (parents_tried_once "h" request in_order SelectorWitness.first_positive pred collected "" first world env world_good
    ltac:(done) ltac:(done)) as (w & l & r & Hrun & _ & Hnd & _). exists w, l, r. split; [exact Hrun|exact Hnd].
Defined.

Lemma schedule_bounded_witness :
  schedule_loop yes yes 1 "h" request in_order SelectorWitness.first_positive pred SelectorWitness.parse SelectorWitness.always
    true collected "" interested (stream ++ [Elapsed]) 0 [] world =
  schedule_loop yes yes 1 "h" request in_order SelectorWitness.first_positive pred SelectorWitness.parse SelectorWitness.always
    true collected "" interested stream 0 [] world.
Proof. rewrite schedule_bounded; [reflexivity|lia]. Defined.

Lemma download_balances_selector_witness : ∃ r s', run = Some (r, s') ∧
  Selector.connections (selector s') = ∅.
Proof.
  destruct run as [[r s']|] eqn:E; [|by vm_compute in E]. exists r, s'. split; [done|].
  destruct (download_balances_selector PieceCalcWitness.clock yes yes 5 "h" request in_order SelectorWitness.first_positive pred
    SelectorWitness.parse SelectorWitness.always true collected (Ok stream) [] 4 0 task world r s') as [_ Hc]; [| |exact E|exact Hc].
  - exact SelectorFacts.counted_new.
  - intros ? [= <-]. apply Forall_cons. split; [|apply Forall_cons; split; [|done]].
    + intros ps [= <-]. split; [|simpl; lia]. pose proof SelectorWitness.p1_reachable as Hr. by apply Forall_cons in Hr as [_ ?].
    + by intros ps [=].
Defined.
End TaskDownloadWitness.
