(* ===== verification/PieceDownload.v ===== *)
(** * Downloading a piece

    Models the downloads of [src/dragonfly-client/src/resource/piece.rs] over the storage
    facade: from a parent over URMA, TCP or QUIC and from the source, for the three kinds of
    tasks.  The downloaders and the back-ends are input; at every await other tasks may run.
    The guard that fails the piece when the download returns early is [guarded]. *)

From S2P Require Import Prelude Errors LruCache MetadataTypes Cache Engine Metadata Wire Storage StorageFacts ParentSelector.
From Stdlib Require Import ZArith Lia String Strings.Byte.
From stdpp Require Import base tactics list gmap strings.
Import Storage.
Local Open Scope Z_scope.

(** [backend::GetResponse], the fields that are read. *)
Record GetResponse := mkGetResponse { success : bool; reader : Bytes; error_message : option string }.

(** What a downloader returns: the stream, the offset and the digest the parent names. *)
Definition Download : Type := Bytes * Z * string.

Module PieceDownload.
Section download.
Context {E : Type} `{Operations E} `{MetadataBincode} (clock : nat → NaiveDateTime).
Context {L : Type} `{LruApi string Cache.CTask L}.
Context {C : Type} `{Content C}.
Local Notation Storage := (Storage (E := E) (L := L) (C := C)).
Local Notation R := (R (E := E) (L := L) (C := C)).
Context (env : nat → Storage → Storage * Wake) (fuel : nat).

(** [config.download.protocol]; whether the build has the feature [urma]. *)
Context (protocol : string) (urma_feature : bool).
(** [format_socket_addr(IpAddr::from_str(ip)?, port)]. *)
Context (socket_addr : string → Z → Result string).
(** The downloaders, at the [n]-th await: kind, address, number, host, task. *)
Context (tcp_download_piece quic_download_piece : nat → Wire.PieceKind → string → Z → string → string → Result Download).
(** [urma_direct_downloader]: kind, address, number, task. *)
Context (urma_direct_downloader : option (nat → Wire.PieceKind → string → Z → string → Result Download)).
(** [backend_factory.build(url)] and [backend.get(..)]: url, offset, length. *)
Context (build_backend : string → Result unit) (backend_get : nat → string → Z → Z → Result GetResponse).
(** [config.storage.write_piece_timeout], and whether it passes before the piece is written. *)
Context (write_piece_timeout : Duration) (timed : nat → option (C → C)).

(** An await of this task: a rate limiter, a network read. *)
Definition yield : R unit := _ ← await_ env; mret tt.
(** An awaited network operation, whose outcome depends on when it runs. *)
Definition network {A} (f : nat → Result A) : R A :=
  n ← pr_gets awaits; _ ← yield; give (f n).
Definition acquire : R unit := yield.

(** [scopeguard::guard(.., download_piece_failed)], defused when the download succeeds. *)
Definition guarded (pid : string) (m : R Piece) : R Piece :=
  r ← attempt m;
  match r with
  | Ok piece => mret piece
  | Err e => _ ← attempt (download_piece_failed pid); fail e
  end.

(** [Piece::download_piece_from_parent_over_urma]. *)
Definition download_piece_from_parent_over_urma (kind : Wire.PieceKind) (pid tid : string) (number length : Z)
    (parent_id tcp_addr : string) : R Piece :=
  match urma_direct_downloader with
  | None => fail (Unknown "urma downloader is disabled")
  | Some downloader =>
      '(reader, offset, digest) ← network (λ n, downloader n kind tcp_addr number tid);
      download_piece_from_parent_finished_urma clock (kind_of kind) pid tid offset length digest parent_id reader
        write_piece_timeout
  end.

(** The attempt over URMA: [None] when the piece is still to be downloaded. *)
Definition try_urma (kind : Wire.PieceKind) (pid tid : string) (number length : Z) (parent : CollectedParent)
    : R (option Piece) :=
  if urma_feature && bool_decide (protocol = "urma") then
    match download_ip parent, download_tcp_port parent with
    | Some ip, Some port =>
        addr ← give (socket_addr ip (u_wrap 16 port));
        r ← attempt (download_piece_from_parent_over_urma kind pid tid number length (ParentSelector.id parent) addr);
        match r with Ok piece => mret (Some piece) | Err _ => mret None end
    | _, _ => mret None
    end
  else mret None.

(** The choice of the downloader; without the ports of the protocol it is the one for TCP, on
    the port of the host. *)
Definition fetch (kind : Wire.PieceKind) (hid tid : string) (number : Z) (parent : CollectedParent) : R Download :=
  let over (download : nat → Wire.PieceKind → string → Z → string → string → Result Download) ip port : R Download :=
    addr ← give (socket_addr ip (u_wrap 16 port)); network (λ n, download n kind addr number hid tid) in
  let fall_back : R Download :=
    match host parent with
    | None => fail (InvalidPeer (ParentSelector.id parent))
    | Some h => over tcp_download_piece (ip h) (port h)
    end in
  if bool_decide (protocol = "tcp" ∨ protocol = "urma") then
    match download_ip parent, download_tcp_port parent with
    | Some ip, Some port => over tcp_download_piece ip port
    | _, _ => fall_back
    end
  else if bool_decide (protocol = "quic") then
    match download_ip parent, download_quic_port parent with
    | Some ip, Some port => over quic_download_piece ip port
    | _, _ => fall_back
    end
  else fall_back.

(** The limiters: a task acquires them once it has the claim, a persistent one before. *)
Definition limit_first (kind : Wire.PieceKind) : R unit :=
  match kind with Wire.KPiece => mret tt | _ => acquire end.
Definition limit_claimed (kind : Wire.PieceKind) (is_prefetch : bool) : R unit :=
  match kind with
  | Wire.KPiece => _ ← (if is_prefetch then acquire else mret tt); acquire
  | _ => mret tt
  end.

(** [Piece::download_from_parent], [download_persistent_from_parent] and
    [download_persistent_cache_from_parent]; the write of a persistent piece has no timeout. *)
Definition download_from_parent (kind : Wire.PieceKind) (pid hid tid : string) (number offset length : Z)
    (parent : CollectedParent) (is_prefetch : bool) : R Piece :=
  _ ← limit_first kind;
  piece ← download_piece_started clock env fuel pid number offset length;
  if Piece.is_finished piece then mret piece
  else
    guarded pid (
      _ ← limit_claimed kind is_prefetch;
      urma ← try_urma kind pid tid number length parent;
      match urma with
      | Some piece => mret piece
      | None =>
          '(stream, offset, digest) ← fetch kind hid tid number parent;
          n ← pr_gets awaits;
          download_piece_from_parent_finished clock (kind_of kind) pid tid offset length digest (ParentSelector.id parent)
            stream (match kind with Wire.KPiece => timed n | _ => None end)
      end).

Definition download_persistent_from_parent := download_from_parent Wire.KPersistentPiece.
Definition download_persistent_cache_from_parent := download_from_parent Wire.KPersistentCachePiece.

(** [Piece::download_from_source] and [download_persistent_from_source]. *)
Definition download_from_source (kind : Wire.PieceKind) (pid tid : string) (number : Z) (url : string)
    (offset length : Z) (is_prefetch : bool) : R Piece :=
  piece ← download_piece_started clock env fuel pid number offset length;
  if Piece.is_finished piece then mret piece
  else
    guarded pid (
      _ ← (if is_prefetch then acquire else mret tt);
      _ ← acquire;
      _ ← acquire;
      _ ← give (build_backend url);
      response ← network (λ n, backend_get n url offset length);
      if negb (success response) then fail (BackendError (default "" (error_message response)))
      else
        n ← pr_gets awaits;
        download_piece_from_source_finished clock (kind_of kind) pid tid offset length (reader response) (timed n)).

Definition download_persistent_from_source (pid tid : string) (number : Z) (url : string) (offset length : Z) : R Piece :=
  download_from_source Wire.KPersistentPiece pid tid number url offset length false.

(** [Piece::download_from_local_into_range_reader] and its two variants: the bytes of the reader. *)
Definition download_from_local_into_range_reader (kind : Wire.PieceKind) (pid tid : string) (range : option Range)
    : R Bytes :=
  '(_, reader) ← upload_piece env fuel (kind_of kind) pid tid range; mret reader.
Definition download_persistent_from_local_into_async_read :=
  download_from_local_into_range_reader Wire.KPersistentPiece.
Definition download_persistent_cache_from_local_into_async_read :=
  download_from_local_into_range_reader Wire.KPersistentCachePiece.

(** [Piece::create_persistent], [register_persistent] and the two of the cache. *)
Definition create_persistent (k : PersistentKind) := create_ppiece (L := L) clock k.
Definition register_persistent (k : PersistentKind) := register_ppiece (L := L) (C := C) clock k.
End download.
End PieceDownload.
