(* ===== verification/PieceDownloadFacts.v ===== *)
(** * Facts about downloading a piece

    A download ends with a finished, recorded piece or with its claim released; a failed
    attempt over URMA keeps the claim for the fall-back. *)

From S2P Require Import Prelude Errors LruCache MetadataTypes Cache Engine Metadata MetadataFacts Wire Storage StorageFacts ParentSelector PieceDownload.
From Stdlib Require Import ZArith Lia String Strings.Byte.
From stdpp Require Import base tactics list gmap strings.
Import Storage.
Local Open Scope Z_scope.

Module PieceDownloadFacts.
Import StorageFacts PieceDownload.
Section facts.
Context {E : Type} `{OperationsLaws E} `{MetadataBincodeLaws} (clock : nat → NaiveDateTime).
Context {L : Type} `{!LruApi string Cache.CTask L} `{!LruSpec string Cache.CTask L}.
Context {C : Type} `{!Content C}.
Local Notation Storage := (Storage.Storage (E := E) (L := L) (C := C)).
Local Notation R := (Storage.R (E := E) (L := L) (C := C)).
Local Notation holds s pid p := (MetadataFacts.holds (metadata s) pid p).
Context (env : nat → Storage → Storage * Wake) (fuel : nat).
Implicit Types (s : Storage).

(** A finished piece on record. *)
Definition stored (pid : string) (p : Piece) s : Prop := holds s pid p ∧ Piece.is_finished p = true.

(** [m] returns only pieces that are stored. *)
Definition stores (pid : string) (m : R Piece) : Prop :=
  ∀ s p s', m s = Some (Ok p, s') → stored pid p s'.

Lemma stores_bind {A} pid (m : R A) (f : A → R Piece) : (∀ a, stores pid (f a)) → stores pid (m ≫= f).
Proof. intros Hf s p s' (a & s1 & _ & Hrun)%r_bind_Ok. by eapply Hf. Qed.
Lemma stores_fail pid e : stores pid (fail e).
Proof. by intros s p s'. Qed.

Lemma stores_parent_finished kind pid tid off len expected parent stream t :
  stores pid (download_piece_from_parent_finished clock kind pid tid off len expected parent stream t).
Proof.
  intros s p s' Hrun. pose proof (parent_piece_digest_checked clock kind pid tid off len expected parent stream t 0
    _ s s' (Ok p) (or_introl (conj Hrun eq_refl))) as [(_ & _ & _ & _ & Hh & Hf & _) _]. done.
Qed.
Lemma stores_urma_finished kind pid tid off len expected parent stream timeout :
  stores pid (download_piece_from_parent_finished_urma clock kind pid tid off len expected parent stream timeout).
Proof.
  intros s p s' Hrun. pose proof (parent_piece_digest_checked clock kind pid tid off len expected parent stream None timeout
    _ s s' (Ok p) (or_intror (conj Hrun (conj eq_refl eq_refl)))) as [(_ & _ & _ & _ & Hh & Hf & _) _]. done.
Qed.
Lemma stores_source_finished kind pid tid off len stream t :
  stores pid (download_piece_from_source_finished clock kind pid tid off len stream t).
Proof.
  intros s p s' (q & s1 & Hw & [= <- <-])%r_bind_Ok. unfold or_timeout in Hw. destruct t; [done|].
  apply r_bind_Ok in Hw as (resp & s2 & _ & (m' & Hm & ->)%in_metadata_inv).
  apply download_piece_finished_Ok in Hm as (Hh & Hf & _). done.
Qed.

(** The guard: an error leaves no claim. *)
Lemma guarded_outcome pid m s r s' :
  guarded pid m s = Some (r, s') → stores pid m →
  match r with Ok p => stored pid p s' | Err _ => pid ∉ notifiers s' end.
Proof.
  intros Hrun Hm. unfold guarded in Hrun. apply r_bind_Some in Hrun as [(x & s1 & Ha & Hrun)|(e & Ha & ->)].
  2:{ unfold attempt in Ha. by destruct (m s) as [[]|]. }
  unfold attempt in Ha. destruct (m s) as [[x' s1']|] eqn:Em; [|done]. injection Ha as -> ->.
  destruct x as [p|e]; [injection Hrun as <- <-; by eapply Hm|].
  apply r_bind_Some in Hrun as [(y & s2 & Hf & [= <- <-])|(e' & Hf & _)].
  - unfold attempt in Hf. destruct (download_piece_failed pid s1) as [[y' s2']|] eqn:Ef; [|done].
    injection Hf as -> ->. unfold download_piece_failed in Ef.
    apply r_bind_Some in Ef as [(z & s3 & _ & Ef)|(e' & Ef & _)].
    + injection Ef as <- <-. simpl. set_solver.
    + unfold attempt in Ef. by destruct (in_metadata _ s1) as [[]|].
  - unfold attempt in Hf. by destruct (download_piece_failed pid s1) as [[]|].
Qed.

(** Starting, and then the guarded download. *)
Lemma started_outcome pid n off len m s r s' :
  (piece ← download_piece_started clock env fuel pid n off len;
   if Piece.is_finished piece then mret piece else guarded pid m) s = Some (r, s') →
  stores pid m →
  match r with Ok p => stored pid p s' | Err _ => pid ∉ notifiers s' end.
Proof.
  intros Hrun Hm. apply r_bind_Some in Hrun as [(p & s1 & Hst & Hrun)|(e & Hst & ->)];
    pose proof (download_piece_started_outcome clock env fuel pid n off len s _ _ Hst) as Ho; [|exact Ho].
  destruct (Piece.is_finished p) eqn:Hf; [|by eapply guarded_outcome].
  injection Hrun as <- <-. split; [by destruct Ho|done].
Qed.

(** ** From parents and from the source *)

Context (protocol : string) (urma_feature : bool) (socket_addr : string → Z → Result string).
Context (tcp_download_piece quic_download_piece : nat → Wire.PieceKind → string → Z → string → string → Result Download).
Context (urma_direct_downloader : option (nat → Wire.PieceKind → string → Z → string → Result Download)).
Context (build_backend : string → Result unit) (backend_get : nat → string → Z → Z → Result GetResponse).
Context (write_piece_timeout : Duration) (timed : nat → option (C → C)).
Local Notation from_parent := (download_from_parent clock env fuel protocol urma_feature socket_addr tcp_download_piece
  quic_download_piece urma_direct_downloader write_piece_timeout timed).
Local Notation from_source := (download_from_source clock env fuel build_backend backend_get timed).
Local Notation over_urma := (download_piece_from_parent_over_urma clock env urma_direct_downloader write_piece_timeout).

Lemma stores_over_urma kind pid tid n len parent addr : stores pid (over_urma kind pid tid n len parent addr).
Proof.
  unfold download_piece_from_parent_over_urma. destruct urma_direct_downloader; [|apply stores_fail].
  apply stores_bind. intros [[reader off] digest]. apply stores_urma_finished.
Qed.

Lemma from_parent_outcome kind pid hid tid n off len parent prefetch s r s' :
  from_parent kind pid hid tid n off len parent prefetch s = Some (r, s') →
  match r with Ok p => stored pid p s' | Err _ => pid ∉ notifiers s' end.
Proof.
  clear build_backend backend_get.
  intros Hrun. apply r_bind_Some in Hrun as [(? & s1 & _ & Hrun)|(e & Hrun & _)].
  - eapply started_outcome; [exact Hrun|]. apply stores_bind. intros _.
    intros s0 p s0' (o & s2 & Ho & Hrun')%r_bind_Ok. destruct o as [q|].
    + injection Hrun' as <- <-. revert Ho. unfold try_urma.
      destruct (urma_feature && bool_decide (protocol = "urma")); [|done].
      destruct (download_ip parent) as [a|]; [|done]. destruct (download_tcp_port parent) as [b|]; [|done].
      intros Hu. apply r_bind_Ok in Hu as (addr & s3 & _ & Hu). apply r_bind_Ok in Hu as (y & s4 & Hx & Hr). unfold attempt in Hx.
      destruct (over_urma _ _ _ _ _ _ _ _) as [[y' s4']|] eqn:Eu; [|done]. injection Hx as -> ->.
      destruct y; [|done]. injection Hr as <- <-. by eapply stores_over_urma.
    + revert Hrun'. apply stores_bind. intros [[stream o'] digest]. apply stores_bind. intros k. apply stores_parent_finished.
  - unfold limit_first, acquire, yield, await_ in Hrun. destruct kind; [done| |];
      cbv [mbind r_mbind pr_mbind] in Hrun; by destruct (env _ _).
Qed.

Lemma from_source_outcome kind pid tid url n off len prefetch s r s' :
  from_source kind pid tid n url off len prefetch s = Some (r, s') →
  match r with Ok p => stored pid p s' | Err _ => pid ∉ notifiers s' end.
Proof.
  clear protocol urma_feature socket_addr tcp_download_piece quic_download_piece urma_direct_downloader write_piece_timeout.
  intros Hrun. eapply started_outcome; [exact Hrun|]. repeat (apply stores_bind; intros ?).
  case_match; [apply stores_fail|]. apply stores_bind. intros k. apply stores_source_finished.
Qed.

(** C4: A download of a piece, of any kind, from a parent or from the source, whatever the
    network, the back-end and the other tasks do: when it returns a piece, that piece is on
    record and finished; when it fails, the claim of the piece has been released, so that
    others can download it. *)
Theorem piece_download_outcome kind pid hid tid url n off len parent prefetch s r s' :
  from_parent kind pid hid tid n off len parent prefetch s = Some (r, s') ∨
  from_source kind pid tid n url off len prefetch s = Some (r, s') →
  match r with
  | Ok p => holds s' pid p ∧ Piece.is_finished p = true
  | Err _ => pid ∉ notifiers s'
  end.
Proof. intros [Hrun%from_parent_outcome|Hrun%from_source_outcome]; exact Hrun. Qed.

(** A failed attempt over URMA keeps the claim of the piece as long as no other task
    takes it away, so that no other download starts before the fall-back over TCP. *)
Theorem urma_failure_keeps_claim kind pid tid n len parent addr s e s' :
  (∀ k s, pid ∈ notifiers s → pid ∈ notifiers (env k s).1) →
  pid ∈ notifiers s →
  over_urma kind pid tid n len parent addr s = Some (Err e, s') →
  pid ∈ notifiers s'.
Proof.
  intros Henv Hs. unfold download_piece_from_parent_over_urma. destruct urma_direct_downloader as [d|]; [|by intros [= _ <-]].
  assert (∀ s1 x s2, network env (λ k, d k kind addr n tid) s1 = Some (x, s2) → pid ∈ notifiers s1 → pid ∈ notifiers s2) as Hnet.
  { intros s1 x s2 Hn Hin. specialize (Henv (awaits s1) s1 Hin). revert Hn. cbv [network yield await_ mbind r_mbind pr_mbind pr_gets mret r_mret pr_mret give].
    destruct (env (awaits s1) s1) as [s3 w]. by intros [= _ <-]. }
  intros [([[reader off] digest] & s1 & Hn & Hf)|(e' & Hn & _)]%r_bind_Some; [|by eapply Hnet].
  pose proof (parent_piece_digest_checked clock (kind_of kind) pid tid off len digest parent reader None write_piece_timeout
    _ s1 s' (Err e) (or_intror (conj Hf (conj eq_refl eq_refl)))) as [Heq _]. rewrite Heq. by eapply Hnet.
Qed.
End facts.
End PieceDownloadFacts.
