(* ===== verification/PieceManager.v ===== *)
(** * The piece manager over the storage

    [storage_api] is the interface [PieceApi] of the task downloads, implemented by the piece
    downloads of PieceDownload over the storage facade.  The records of the store keep the
    number in their identifier ([numbered_store]); with waits that end, this discharges
    [PieceApiLaws], and a download of a task over the storage shows every piece. *)

From S2P Require Import Prelude Errors LruCache MetadataTypes Cache Engine Metadata MetadataFacts Wire Storage StorageFacts PieceCalc ParentSelector ParentSelectorFacts PieceCollector TaskDownload TaskDownloadFacts PieceDownload PieceDownloadFacts.
From Stdlib Require Import ZArith Lia String Ascii Strings.Byte.
From stdpp Require Import base tactics numbers list gmap strings pretty.
Local Open Scope Z_scope.

Module PieceManager.

(** ** The number in a piece identifier *)
Lemma digit_no_dash n : Ascii.byte_of_ascii (pretty_N_char n) ≠ x2d.
Proof. unfold pretty_N_char. by repeat case_match. Qed.

Lemma pretty_go_no_dash (n : N) (s : string) : x2d ∉ as_bytes s → x2d ∉ as_bytes (pretty_N_go n s).
Proof.
  revert s. induction (N.lt_wf_0 n) as [n _ IH]. intros s Hs.
  destruct (decide (n = 0)%N) as [->|Hn]; [by rewrite pretty_N_go_0|].
  rewrite pretty_N_go_step by lia. apply IH; [apply N.div_lt; lia|].
  intros [Hd|Hin]%elem_of_cons; [|done]. by eapply digit_no_dash.
Qed.

Lemma pretty_no_dash (n : N) : x2d ∉ as_bytes (pretty n).
Proof.
  unfold pretty, pretty_N. case_decide; [|by apply pretty_go_no_dash; intros ?%not_elem_of_nil].
  intros Hin. vm_compute in Hin. by apply list_elem_of_singleton in Hin.
Qed.

(** The part after the last separator is unique. *)
Lemma after_last {A} (x : A) l l' d d' : x ∉ d → x ∉ d' → l ++ x :: d = l' ++ x :: d' → d = d'.
Proof.
  revert l'. induction l as [|y l IH]; intros [|y' l'] Hd Hd' Heq; simpl in Heq.
  - congruence.
  - injection Heq as -> ->. destruct Hd. apply elem_of_app. right. by left.
  - injection Heq as <- <-. destruct Hd'. apply elem_of_app. right. by left.
  - injection Heq as _ Heq. by eapply IH.
Qed.

Lemma piece_id_number t t' n n' :
  0 ≤ n → 0 ≤ n' → Metadata.piece_id t n = Metadata.piece_id t' n' → n = n'.
Proof.
  intros Hn Hn' Heq%(f_equal as_bytes). rewrite !PieceId.piece_id_bytes, !as_bytes_app in Heq.
  apply after_last in Heq; [|apply pretty_no_dash..]. apply as_bytes_inj, (inj pretty) in Heq. lia.
Qed.

(** ** Records with the number of their identifier *)

Section store.
Context {E : Type} `{OperationsLaws E} `{MetadataBincodeLaws} (clock : nat → NaiveDateTime).
Local Notation Meta := (Metadata.Metadata E).

Definition numbered_store (m : Meta) : Prop :=
  ∀ t n p, 0 ≤ n → MetadataFacts.holds m (Metadata.piece_id t n) p → Piece.number p = n.

Lemma numbered_raw m m' : MetadataFacts.raw m' = MetadataFacts.raw m → numbered_store m → numbered_store m'.
Proof. intros Hr Hm t n p Hn (b & Hb & Hp). eapply Hm; [done|]. exists b. by rewrite <-Hr. Qed.

Lemma keeps_put t n p : 0 ≤ n → Piece.number p = n → keeps numbered_store (Metadata.db_put (Metadata.piece_id t n) p).
Proof.
  intros Hn Hp m Hm. destruct (Metadata.db_put (Metadata.piece_id t n) p m) as [r m'] eqn:Hput. simpl.
  apply MetadataFacts.db_put_inv in Hput as (_ & _ & [[_ Hr]|(b & Hb & Hr)]); [by eapply numbered_raw|].
  intros t' n' q Hn' (b' & Hb' & Hq). rewrite Hr in Hb'. apply lookup_insert_Some in Hb' as [[Hk <-]|[_ Hb']].
  - injection Hk as Hk%as_bytes_inj. assert (n = n') as <- by (by eapply piece_id_number).
    apply deserialize_serialized in Hb. congruence.
  - eapply Hm; [done|]. by exists b'.
Qed.
Lemma keeps_delete pid : keeps numbered_store (Metadata.db_delete Piece pid).
Proof.
  intros m Hm. destruct (Metadata.db_delete Piece pid m) as [r m'] eqn:Hd. simpl.
  apply MetadataFacts.db_delete_inv in Hd as (_ & [[_ Hr]|Hr]); [by eapply numbered_raw|].
  intros t n p Hn (b & Hb & Hp). rewrite Hr in Hb. apply lookup_delete_Some in Hb as [_ Hb].
  eapply Hm; [done|]. by exists b.
Qed.
Lemma keeps_get pid : keeps numbered_store (Metadata.db_get (O := Piece) pid).
Proof. by intros m Hm. Qed.
Lemma keeps_tick : keeps numbered_store (Metadata.now clock).
Proof. by intros m Hm. Qed.
#[local] Hint Resolve keeps_delete keeps_get keeps_tick : keeps.

Lemma keeps_started t n off len : 0 ≤ n →
  keeps numbered_store (Metadata.download_piece_started clock (Metadata.piece_id t n) n off len).
Proof.
  intros Hn. unfold Metadata.download_piece_started. do 2 (apply keeps_bind; [auto with keeps|]; intros ?).
  apply keeps_bind; [by apply keeps_put|]. auto with keeps.
Qed.
Lemma keeps_failed pid : keeps numbered_store (Metadata.download_piece_failed pid).
Proof. unfold Metadata.download_piece_failed. apply keeps_bind; [apply keeps_get|]. intros [p|]; [case_match|]; first [apply keeps_ret|apply keeps_delete]. Qed.
Lemma keeps_wait_failed pid : keeps numbered_store (Metadata.wait_for_piece_finished_failed pid).
Proof. apply keeps_failed. Qed.
Lemma keeps_finished t n off len dig parent : 0 ≤ n →
  keeps numbered_store (Metadata.download_piece_finished clock (Metadata.piece_id t n) off len dig parent).
Proof.
  intros Hn m Hm. unfold Metadata.download_piece_finished. cbv [mbind st_mbind].
  destruct (Metadata.db_get (O := Piece) (Metadata.piece_id t n) m) as [[o|e] m1] eqn:Hg;
    [|by pose proof (keeps_get (Metadata.piece_id t n) m Hm) as Hk; rewrite Hg in Hk].
  apply MetadataFacts.db_get_Ok in Hg as [-> Ho]. destruct o as [p|]; [|done]. cbv [mret st_mret Metadata.now].
  match goal with |- context [Metadata.db_put ?i ?q ?x] =>
    assert (numbered_store (Metadata.db_put i q x).2) as Hk; [|by destruct (Metadata.db_put i q x) as [[[]|] ?]] end.
  apply keeps_put; [done| |done]. simpl. by eapply Hm.
Qed.
End store.

(** ** The operations of the storage *)

Section manager.
Import Storage.
Context {E : Type} `{OperationsLaws E} `{MetadataBincodeLaws} (clock : nat → NaiveDateTime).
Context {L : Type} `{!LruApi string Cache.CTask L} `{!LruSpec string Cache.CTask L}.
Context {C : Type} `{!Content C}.
Local Notation Storage := (Storage.Storage (E := E) (L := L) (C := C)).
Local Notation R := (Storage.R (E := E) (L := L) (C := C)).
Context (env : nat → Storage → Storage * Wake) (fuel : nat).

Definition inv (s : Storage) : Prop := numbered_store (metadata s).
Definition kept (s s' : Storage) : Prop := inv s → inv s'.
#[local] Instance kept_preorder : PreOrder kept.
Proof. split; [by intros s Hs|]. intros s1 s2 s3 H12 H23 Hs. by apply H23, H12. Qed.

(** The other tasks keep the invariant. *)
Context (Henv : ∀ n s, inv s → inv (env n s).1).

Lemma kept_metadata {A} (m : ST (Metadata.Metadata E) DFError A) : keeps numbered_store m → respects kept (in_metadata (L := L) (C := C) m).
Proof.
  intros Hm s r s'. unfold in_metadata. specialize (Hm (metadata s)). destruct (m (metadata s)) as [r1 m1].
  intros [= _ <-] Hs. by apply Hm.
Qed.
Lemma kept_content {A} (m : ST C DFError A) : respects kept (in_content (E := E) (L := L) m).
Proof. intros s r s'. unfold in_content. destruct (m (content s)). intros [= _ <-] Hs. exact Hs. Qed.
Lemma kept_update f : (∀ m, MetadataFacts.raw (f m) = MetadataFacts.raw m) → respects kept (update_metadata (E := E) (L := L) (C := C) f).
Proof. intros Hf s r s' [= _ <-] Hs. eapply numbered_raw; [apply Hf|exact Hs]. Qed.
Lemma kept_remove pid : respects kept (remove_and_notify (E := E) (L := L) (C := C) pid).
Proof. intros s r s' [= _ <-] Hs. exact Hs. Qed.
Lemma kept_claim pid : respects kept (claim (E := E) (L := L) (C := C) pid).
Proof. intros s r s'. unfold claim. case_decide; intros [= _ <-] Hs; exact Hs. Qed.
Lemma kept_in_flight pid : respects kept (in_flight (E := E) (L := L) (C := C) pid).
Proof. intros s r s' [= _ <-] Hs. exact Hs. Qed.
Lemma kept_await : respects kept (await_ env).
Proof.
  intros s r s'. unfold await_. specialize (Henv (awaits s) s). destruct (env (awaits s) s) as [s1 w].
  intros [= _ <-] Hs. by apply Henv.
Qed.
Lemma kept_attempt {A} (m : R A) : respects kept m → respects kept (attempt m).
Proof. intros Hm s r s'. unfold attempt. destruct (m s) as [[x s1]|] eqn:Em; [|done]. intros [= _ <-]. by eapply Hm. Qed.
Lemma kept_log m : respects kept m → respects kept (log_err (E := E) (L := L) (C := C) m).
Proof. intros Hm s r s'. unfold log_err. destruct (m s) as [[x s1]|] eqn:Em; [|done]. intros [= _ <-]. by eapply Hm. Qed.
Lemma kept_releasing {A} pid (m : R A) : respects kept m → respects kept (releasing pid m).
Proof.
  intros Hm s r s'. unfold releasing. destruct (m s) as [[[x|e] s1]|] eqn:Em; [| |done]; intros [= _ <-] Hs;
    exact (Hm _ _ _ Em Hs).
Qed.
Lemma kept_fail {A} e : respects kept (fail (E := E) (L := L) (C := C) (A := A) e).
Proof. intros s r s' [= _ <-] Hs. exact Hs. Qed.
Lemma kept_give {A} (x : Result A) : respects kept (give (E := E) (L := L) (C := C) x).
Proof. intros s r s' [= _ <-] Hs. exact Hs. Qed.
#[local] Hint Resolve kept_content kept_remove kept_claim kept_in_flight kept_await kept_fail kept_give : respects.
#[local] Hint Resolve kept_attempt kept_log kept_releasing kept_metadata keeps_get keeps_failed keeps_wait_failed : respects.

Lemma kept_get_existing pid : respects kept (get_existing (E := E) (L := L) (C := C) pid).
Proof. unfold get_existing. respects. apply kept_metadata, keeps_get. Qed.
#[local] Hint Resolve kept_get_existing : respects.
Lemma kept_wait k pid : respects kept (wait_for_piece_finished env k pid).
Proof.
  assert (respects kept (wait_loop env k pid)) as Hloop.
  { induction k as [|k IH]; cbn [wait_loop]; [by intros s r s'|]. respects.
    all: apply kept_log, kept_metadata, keeps_wait_failed. }
  unfold wait_for_piece_finished. respects.
Qed.
#[local] Hint Resolve kept_wait : respects.

Lemma kept_started k t n off len : 0 ≤ n →
  respects kept (download_piece_started clock env k (Metadata.piece_id t n) n off len).
Proof.
  intros Hn.
  assert (respects kept (releasing (Metadata.piece_id t n) (in_metadata (L := L) (C := C)
    (Metadata.download_piece_started clock (Metadata.piece_id t n) n off len)))) by (by apply kept_releasing, kept_metadata, keeps_started).
  assert (respects kept (releasing (Metadata.piece_id t n) (in_metadata (L := L) (C := C)
    (Metadata.get_piece (Metadata.piece_id t n))))) by (apply kept_releasing, kept_metadata, keeps_get).
  induction k as [|k IH]; cbn [download_piece_started]; [by intros s r s'|]. cbv zeta. respects.
Qed.

(** ** The operations of the piece manager *)

Import PieceDownload.
Context (protocol : string) (urma_feature : bool) (socket_addr : string → Z → Result string).
Context (tcp_download_piece quic_download_piece : nat → Wire.PieceKind → string → Z → string → string → Result PieceDownload.Download).
Context (urma_direct_downloader : option (nat → Wire.PieceKind → string → Z → string → Result PieceDownload.Download)).
Context (build_backend : string → Result unit) (backend_get : nat → string → Z → Z → Result GetResponse).
Context (write_piece_timeout : Duration) (timed : nat → option (C → C)).
Local Notation from_parent := (PieceDownload.download_from_parent clock env fuel protocol urma_feature socket_addr
  tcp_download_piece quic_download_piece urma_direct_downloader write_piece_timeout timed).
Local Notation from_source := (PieceDownload.download_from_source clock env fuel build_backend backend_get timed).

(** [Task::wait_for_in_flight_pieces] waits at [select_all]: other tasks run. *)
Definition other_tasks (s : Storage) : Storage := match await_ env s with Some (_, s') => s' | None => s end.

(** [read_exact] of [len] bytes from the reader of the piece. *)
Definition read_exact (len : Z) (bytes : Bytes) : Result Bytes :=
  if decide (0 ≤ len ≤ Z.of_nat (List.length bytes)) then Ok (take (Z.to_nat len) bytes) else Err (IO "early eof").

(** The piece manager as the tasks use it. *)
#[local] Instance storage_api : PieceApi Storage := {|
  piece_id := Metadata.piece_id;
  piece_get pid := in_metadata (Metadata.get_piece pid);
  get_by_ids ids := in_metadata (Metadata.get_pieces_by_ids ids);
  read_piece pid tid len :=
    bytes ← download_from_local_into_range_reader env fuel Wire.KPiece pid tid None; give (read_exact len bytes);
  TaskDownload.download_from_parent pid hid tid n off len parent prefetch := from_parent Wire.KPiece pid hid tid n off len parent prefetch;
  TaskDownload.download_from_source pid tid n u off len prefetch := from_source Wire.KPiece pid tid n u off len prefetch;
  in_flight_notifier pid s := bool_decide (pid ∈ notifiers s);
  is_prefetched tid s := match (Metadata.get_task tid (metadata s)).1 with Ok (Some t) => Task.is_prefetched t | _ => false end;
  select_all _ := other_tasks;
|}.

Lemma kept_yield : respects kept (yield env).
Proof. unfold yield. respects. Qed.
#[local] Hint Resolve kept_yield : respects.
Lemma kept_network {A} (f : nat → Result A) : respects kept (network env f).
Proof. unfold network. respects. Qed.
#[local] Hint Resolve kept_network : respects.
Lemma kept_finish_parent t n off expected parent response : 0 ≤ n →
  respects kept (finish_parent_piece (L := L) (C := C) clock (Metadata.piece_id t n) off expected parent response).
Proof.
  intros Hn. unfold finish_parent_piece, check_digest. respects. by apply kept_metadata, keeps_finished.
Qed.
Lemma kept_parent_finished kind t n tid off len expected parent stream w : 0 ≤ n →
  respects kept (download_piece_from_parent_finished (L := L) clock kind (Metadata.piece_id t n) tid off len expected parent stream w).
Proof.
  intros Hn. pose proof (kept_finish_parent t n off expected parent) as Hf.
  unfold download_piece_from_parent_finished, or_timeout, handle_downloaded_piece_from_parent_finished. respects.
  intros s r s' [= _ <-] Hs. exact Hs.
Qed.
Lemma kept_urma_finished kind t n tid off len expected parent stream w : 0 ≤ n →
  respects kept (download_piece_from_parent_finished_urma (L := L) clock kind (Metadata.piece_id t n) tid off len expected parent stream w).
Proof.
  intros Hn. unfold download_piece_from_parent_finished_urma. respects. by apply kept_finish_parent.
Qed.
Lemma kept_source_finished kind t n tid off len stream w : 0 ≤ n →
  respects kept (download_piece_from_source_finished (L := L) clock kind (Metadata.piece_id t n) tid off len stream w).
Proof.
  intros Hn. unfold download_piece_from_source_finished, or_timeout, handle_downloaded_from_source_finished. respects.
  - intros s r s' [= _ <-] Hs. exact Hs.
  - by apply kept_metadata, keeps_finished.
Qed.
Lemma kept_guarded pid m : respects kept m → respects kept (guarded (E := E) (L := L) (C := C) pid m).
Proof.
  intros Hm. unfold guarded, download_piece_failed. respects.
  apply kept_attempt. respects. apply kept_attempt, kept_metadata, keeps_failed.
Qed.

Lemma kept_from_parent hid t n off len parent prefetch : 0 ≤ n →
  respects kept (from_parent Wire.KPiece (Metadata.piece_id t n) hid t n off len parent prefetch).
Proof.
  intros Hn. unfold PieceDownload.download_from_parent, limit_first. respects; [by apply kept_started|].
  apply kept_guarded. unfold limit_claimed, acquire, try_urma, fetch. respects; try by apply kept_parent_finished.
  apply kept_attempt. unfold download_piece_from_parent_over_urma. respects. by apply kept_urma_finished.
Qed.
Lemma kept_from_source t n u off len prefetch : 0 ≤ n →
  respects kept (from_source Wire.KPiece (Metadata.piece_id t n) t n u off len prefetch).
Proof.
  intros Hn. unfold PieceDownload.download_from_source. respects; [by apply kept_started|].
  apply kept_guarded. unfold acquire. respects. by apply kept_source_finished.
Qed.

(** ** The waits end *)

Definition total {A} (m : R A) : Prop := ∀ s, m s ≠ None.
Record waits_end : Prop := {
  we_wait : ∀ pid s, wait_for_piece_finished env fuel pid s ≠ None;
  we_start : ∀ pid n off len s, download_piece_started clock env fuel pid n off len s ≠ None;
}.
Context (Hends : waits_end).

Lemma manager_total_bind {A B} (m : R A) (f : A → R B) : total m → (∀ a, total (f a)) → total (m ≫= f).
Proof. intros Hm Hf s. cbv [mbind r_mbind pr_mbind]. specialize (Hm s). destruct (m s) as [[[a|e] s1]|]; [apply Hf|done|done]. Qed.
Lemma total_attempt {A} (m : R A) : total m → total (attempt m).
Proof. intros Hm s. unfold attempt. specialize (Hm s). by destruct (m s) as [[]|]. Qed.
Lemma manager_total_metadata {A} (m : ST (Metadata.Metadata E) DFError A) : total (in_metadata m).
Proof. intros s. unfold in_metadata. by destruct (m (metadata s)). Qed.
Lemma total_content {A} (m : ST C DFError A) : total (in_content m).
Proof. intros s. unfold in_content. by destruct (m (content s)). Qed.
Lemma total_network {A} (f : nat → Result A) : total (network env f).
Proof.
  intros s. cbv [network yield await_ mbind r_mbind pr_mbind pr_gets mret r_mret pr_mret give].
  by destruct (env (awaits s) s).
Qed.
Lemma total_yield : total (yield env).
Proof. intros s. cbv [yield await_ mbind r_mbind pr_mbind mret r_mret pr_mret]. by destruct (env (awaits s) s). Qed.
Lemma total_simple {A} (m : R A) : (∀ s, is_Some (m s)) → total m.
Proof. intros Hm s. destruct (Hm s) as [x ->]. done. Qed.

(** Walks through an operation. *)
Ltac total_step :=
  lazymatch goal with
  | |- ∀ _, _ => intros ?
  | |- total (_ ≫= _) => apply manager_total_bind
  | |- total (attempt _) => apply total_attempt
  | |- total (in_metadata _) => apply manager_total_metadata
  | |- total (in_content _) => apply total_content
  | |- total (network _ _) => apply total_network
  | |- total (yield _) => apply total_yield
  | |- total (acquire _) => apply total_yield
  | |- total (match _ with _ => _ end) => case_match
  | |- total _ => apply total_simple; intros; eexists; reflexivity
  end.

Lemma total_guarded pid m : total m → total (guarded pid m).
Proof. intros Hm. unfold guarded, download_piece_failed. repeat first [assumption|total_step]. Qed.

Lemma total_from_parent hid pid tid n off len parent prefetch : total (from_parent Wire.KPiece pid hid tid n off len parent prefetch).
Proof.
  unfold PieceDownload.download_from_parent, limit_first. apply manager_total_bind; [total_step|]. intros _.
  apply manager_total_bind; [intros s; apply (we_start Hends)|]. intros p. case_match; [total_step|]. apply total_guarded.
  unfold limit_claimed, try_urma, fetch, download_piece_from_parent_over_urma, download_piece_from_parent_finished_urma,
    download_piece_from_parent_finished, finish_parent_piece, check_digest, or_timeout,
    handle_downloaded_piece_from_parent_finished, finish_parent_piece, check_digest.
  repeat total_step.
Qed.
Lemma total_from_source pid tid n u off len prefetch : total (from_source Wire.KPiece pid tid n u off len prefetch).
Proof.
  unfold PieceDownload.download_from_source. apply manager_total_bind; [intros s; apply (we_start Hends)|].
  intros p. case_match; [total_step|]. apply total_guarded.
  unfold download_piece_from_source_finished, or_timeout, handle_downloaded_from_source_finished. repeat total_step.
Qed.
Lemma total_read pid tid len : total (read_piece (W := Storage) pid tid len).
Proof.
  cbn. unfold download_from_local_into_range_reader, upload_piece, upload_started, upload_finished, upload_failed.
  apply manager_total_bind; [|repeat total_step]. apply manager_total_bind; [|repeat total_step].
  apply manager_total_bind; [intros s; apply (we_wait Hends)|]. repeat total_step.
Qed.

(** ** The laws *)

(** Piece [pid] is on record as finished in [s], and [b] is what the content store returned,
    or its beginning, for the place of that record in the content of task [tid], by the read
    that left the store as it is in [s]. *)
Definition read_back (s : Storage) (tid pid : string) (b : Bytes) : Prop :=
  ∃ p c rest, PieceDownloadFacts.stored pid p s ∧
    content_read_piece (C := C) KTask tid (Piece.offset p) (Piece.length p) None c = (Ok (b ++ rest), content s).
(** A finished piece of that length is on record. *)
Definition on_record (s : Storage) (pid : string) (len : Z) : Prop :=
  ∃ p, PieceDownloadFacts.stored pid p s ∧ Piece.length p = len.

Lemma on_record_raw s s' pid len :
  MetadataFacts.raw (metadata s') = MetadataFacts.raw (metadata s) → on_record s pid len → on_record s' pid len.
Proof.
  intros Hr (p & [(b & Hb & Hp) Hf] & Hl). exists p. split; [|done]. split; [|done]. exists b. by rewrite Hr.
Qed.

Lemma total_wp {A} (m : R A) (Q : result DFError A → Storage → Prop) s :
  total m → (∀ r s', m s = Some (r, s') → Q r s') → wp m Q s.
Proof. intros Hm HQ. unfold wp. specialize (Hm s). destruct (m s) as [[r s']|]; [by apply HQ|done]. Qed.

(** What a download returns. *)
Lemma download_law (m : R Piece) t n s :
  total m → respects kept m →
  (∀ s r s', m s = Some (r, s') → match r with Ok p => PieceDownloadFacts.stored (Metadata.piece_id t n) p s' | Err _ => Metadata.piece_id t n ∉ notifiers s' end) →
  inv s → 0 ≤ n →
  wp m (λ r s', inv s' ∧ ∀ p, r = Ok p → Piece.number p = n ∧ on_record s' (Metadata.piece_id t n) (Piece.length p)) s.
Proof.
  intros Ht Hk Ho Hs Hn. apply total_wp; [done|]. intros r s' Hrun.
  assert (inv s') as Hs' by (exact (Hk _ _ _ Hrun Hs)). split; [done|]. intros p ->.
  destruct (Ho _ _ _ Hrun) as [Hh Hf]. split; [by eapply Hs'|]. by exists p.
Qed.

(** Reading a finished piece changes no record. *)
Definition same_records (s s' : Storage) : Prop := MetadataFacts.raw (metadata s') = MetadataFacts.raw (metadata s).
#[local] Instance same_records_preorder : PreOrder same_records.
Proof. split; [done|]. intros s1 s2 s3 H12 H23. unfold same_records in *. congruence. Qed.

Lemma upload_same_records (m : Metadata.Metadata E → Metadata.Metadata E) :
  (∀ x, MetadataFacts.raw (m x) = MetadataFacts.raw x) → respects same_records (update_metadata (L := L) (C := C) m).
Proof. intros Hm s r s' [= _ <-]. apply Hm. Qed.
Lemma content_same_records {A} (m : ST C DFError A) : respects same_records (in_content (E := E) (L := L) m).
Proof. intros s r s'. unfold in_content. destruct (m (content s)). by intros [= _ <-]. Qed.

(** A continuation that leaves the state alone. *)
Lemma bind_pure {A B} (m : R A) (f : A → R B) s r s' :
  (∀ a s, ∃ r, f a s = Some (r, s)) → (m ≫= f) s = Some (r, s') → ∃ r', m s = Some (r', s').
Proof.
  intros Hf [(x & s1 & Hm & Hr)|(e & Hm & _)]%StorageFacts.r_bind_Some; [|eauto].
  destruct (Hf x s1) as [r' Hr']. rewrite Hr' in Hr. injection Hr as _ ->. eauto.
Qed.

Lemma read_uploads pid tid len s r s' : read_piece (W := Storage) pid tid len s = Some (r, s') →
  ∃ r', upload_piece env fuel KTask pid tid None s = Some (r', s') ∧
    ∀ b, r = Ok b → ∃ p bytes, r' = Ok (p, bytes) ∧ read_exact len bytes = Ok b.
Proof.
  cbn. intros Hrun. pose proof Hrun as (r1 & Hr1)%bind_pure; [|by intros; eexists].
  pose proof Hr1 as (r2 & Hr2)%bind_pure; [|intros [] ?; by eexists]. exists r2. split; [exact Hr2|]. intros b ->.
  apply StorageFacts.r_bind_Ok in Hrun as (bytes & s1 & Hb & [= Hx _]).
  apply StorageFacts.r_bind_Ok in Hb as ([p bytes'] & s2 & Hu & [= <- _]).
  rewrite Hr2 in Hu. injection Hu as -> _. by exists p, bytes'.
Qed.

Lemma upload_tail_same (p : Piece) tid : respects same_records (
  _ ← upload_started KTask tid;
  x ← attempt (in_content (E := E) (L := L) (content_read_piece KTask tid (Piece.offset p) (Piece.length p) None));
  match x with
  | Ok bytes => _ ← upload_finished KTask tid; mret (p, bytes)
  | Err err => _ ← upload_failed KTask tid; fail err
  end).
Proof.
  respects; try (by apply upload_same_records).
  - intros s r s' Hr. unfold attempt in Hr. destruct (in_content _ s) as [[y s1]|] eqn:Ec; [|done].
    injection Hr as _ <-. by eapply content_same_records.
  - by intros s r s' [= _ <-].
Qed.

Lemma read_keeps_records pid tid len s r s' :
  read_piece (W := Storage) pid tid len s = Some (r, s') → on_record s pid len → same_records s s'.
Proof.
  intros (r' & Hu & _)%read_uploads (p & [Hh Hf] & _).
  apply StorageFacts.r_bind_Some in Hu as [(q & s1 & Hw & Hrest)|(e & Hw & _)];
    pose proof (StorageFacts.wait_finished _ _ _ _ _ _ _ Hh Hf Hw) as [-> _]; [|reflexivity].
  by eapply upload_tail_same.
Qed.

Lemma stored_same_records pid p s s' : same_records s s' → PieceDownloadFacts.stored pid p s → PieceDownloadFacts.stored pid p s'.
Proof. intros Hr [(b & Hb & Hp) Hf]. split; [|done]. exists b. by rewrite Hr. Qed.

Lemma read_was_stored pid tid len s b s' :
  read_piece (W := Storage) pid tid len s = Some (Ok b, s') → read_back s' tid pid b ∧ Z.of_nat (List.length b) = len.
Proof.
  intros (r' & Hu & Hb)%read_uploads. destruct (Hb b eq_refl) as (p & bytes & -> & Hx).
  unfold read_exact in Hx. case_decide as Hlen; [|done]. injection Hx as <-. split; [|rewrite length_take; lia].
  apply StorageFacts.r_bind_Ok in Hu as (q & s1 & Hw & Hu).
  pose proof (upload_tail_same _ _ _ _ _ Hu) as Hsame.
  apply (proj1 (StorageFacts.wait_for_piece_finished_spec env fuel pid s)) in Hw as [Hf Hh].
  apply StorageFacts.r_bind_Ok in Hu as (? & s2 & _ & Hu).
  apply StorageFacts.r_bind_Ok in Hu as (z & s3 & Hc & Hu). unfold attempt, in_content in Hc.
  destruct (content_read_piece KTask tid (Piece.offset q) (Piece.length q) None (content s2)) as [y c] eqn:Ec.
  injection Hc as <- <-. destruct y as [bytes'|e]; [|by apply StorageFacts.r_bind_Ok in Hu as (? & ? & _ & ?)].
  apply StorageFacts.r_bind_Ok in Hu as (? & s4 & [= _ <-] & [= _ -> <-]).
  exists q, (content s2), (drop (Z.to_nat len) bytes). split; [by eapply stored_same_records|]. by rewrite take_drop.
Qed.

Lemma kept_read pid tid len : respects kept (read_piece (W := Storage) pid tid len).
Proof.
  cbn. unfold download_from_local_into_range_reader, upload_piece, upload_started, upload_finished, upload_failed.
  respects; by apply kept_update.
Qed.

#[local] Instance storage_laws : PieceApiLaws Storage.
Proof.
  refine {| api_inv := inv; genuine := read_back; readable := on_record |}.
  - intros tid n s Hs Hn. apply total_wp; [apply manager_total_metadata|].
    intros r s' (m & Hm & ->)%StorageFacts.in_metadata_inv. destruct r as [o|e].
    + apply MetadataFacts.db_get_Ok in Hm as [-> Ho]. split; [exact Hs|]. intros p [= ->].
      split; [by eapply Hs|]. intros Hf. by exists p.
    + injection Hm as Hm <-. split; [exact Hs|done].
  - intros tid ns s Hs Hns. apply total_wp; [apply manager_total_metadata|].
    intros r s' (m & Hm & ->)%StorageFacts.in_metadata_inv. unfold Metadata.get_pieces_by_ids, reads in Hm.
    injection Hm as Hm <-. split; [exact Hs|]. intros l ->. apply op_multi_get_ok in Hm.
    rewrite <-list_fmap_compose, Forall2_fmap_l in Hm. induction Hm as [|n o ns l Hd _ IH]; [apply Forall2_nil_2|].
    apply Forall_cons in Hns as [Hn Hns]. apply Forall2_cons. split; [|by apply IH]. intros p ->. simpl in Hd.
    assert (MetadataFacts.holds (metadata s) (Metadata.piece_id tid n) p) as Hh.
    { unfold decodes in Hd. unfold MetadataFacts.holds, MetadataFacts.raw. destruct (contents _ !! _) as [b|]; [|done].
      exists b. split; [done|]. destruct Hd as (o & Ho & [= <-]). exact Ho. }
    split; [by eapply Hs|]. intros Hf. exists p. done.
  - intros pid tid len s Hs. apply total_wp; [apply total_read|]. intros r s' Hrun.
    split; [exact (kept_read _ _ _ _ _ _ Hrun Hs)|]. split.
    + intros Hrec pid' len'. apply on_record_raw. by eapply read_keeps_records.
    + intros b ->. by eapply read_was_stored.
  - intros hid tid n off len parent prefetch s Hs Hn. apply download_law; [apply total_from_parent|by apply kept_from_parent| |done|done].
    intros s1 r s2 Hrun. eapply PieceDownloadFacts.from_parent_outcome. exact Hrun.
  - intros tid n u off len prefetch s Hs Hn. apply download_law; [apply total_from_source|by apply kept_from_source| |done|done].
    intros s1 r s2 Hrun. eapply PieceDownloadFacts.from_source_outcome. exact Hrun.
  - intros ids s Hs. cbn. unfold other_tasks. pose proof kept_await as Hk. specialize (Hk s).
    destruct (await_ env s) as [[r s']|]; [|exact Hs]. by eapply Hk.
Defined.

(** ** A task over the storage *)

Context (progress_ok announce_ok : nat → bool) (max_schedule_count : Z) (hid : string) (request : TaskDownload.Download).
Context (completion : list Piece → list Piece) (weighted_index : list Z → option nat) (fastrand : nat → nat).
Context (parse_ip : string → Result unit) (connects : Host → bool).
Context (stream_closes : bool) (collected : Z → list Piece → list (CollectedPiece * bool)) (announce_peer : Result (list StreamItem)).

End manager.
End PieceManager.

From S2P Require Import MemEngine TaskDownloadTheorems.

(** ** A concrete manager *)

Module PieceManagerWitness.
Import Storage StorageFacts StorageWitness MetadataWitness PieceManager.
#[local] Existing Instance mem_content.

(** Other tasks release every claim. *)
Definition release (n : nat) (s : S) : S * Wake := (set_notifiers ∅ s, WaitTimeout).

Lemma release_inv n s : inv s → inv (release n s).1.
Proof. done. Qed.

Lemma wait_ends (k : nat) (pid : string) (s : S) : ∃ r s', wait_for_piece_finished release (Datatypes.S k) pid s = Some (r, s') ∧
  (notifiers s = ∅ → is_ok r = false → notifiers s' = ∅).
Proof.
  unfold wait_for_piece_finished. cbv [mbind r_mbind pr_mbind].
  destruct (get_existing pid s) as [[[p|e] s1]|] eqn:G.
  - pose proof (get_existing_inv pid s _ _ G) as [-> _].
    destruct (Piece.is_finished p) eqn:Ef; [by eexists _, _|]. cbn [wait_loop]. cbv [mbind r_mbind pr_mbind in_flight].
    destruct (bool_decide (pid ∈ notifiers s)) eqn:Eb.
    + rewrite G, Ef. unfold await_, release. rewrite log_err_metadata. eexists _, _. split; [reflexivity|]. intros Hn. rewrite Hn in Eb. apply bool_decide_eq_true in Eb. set_solver.
    + rewrite G, Ef, Eb, G, Ef, Eb. rewrite log_err_metadata. eexists _, _. split; [reflexivity|]. simpl. done.
  - pose proof (get_existing_inv pid s _ _ G) as [-> _]. eexists _, _. split; [reflexivity|done].
  - unfold get_existing in G. cbv [mbind r_mbind pr_mbind in_metadata] in G. destruct (Metadata.get_piece pid (metadata s)) as [[[p|]|] m]; done.
Qed.

Lemma claimed_ends (k : nat) (pid : string) (n off len : Z) (s : S) : notifiers s = ∅ →
  download_piece_started clock release (Datatypes.S k) pid n off len s ≠ None.
Proof.
  intros Hs. cbn [download_piece_started]. cbv [mbind r_mbind pr_mbind attempt].
  destruct (wait_ends k pid s) as (r & s1 & -> & Hn). destruct r as [p|e]; [done|].
  unfold claim. rewrite decide_False by (rewrite (Hn Hs eq_refl); set_solver).
  cbv [releasing in_metadata]. destruct (Metadata.get_piece pid _) as [[[p|]|] m]; [case_match; [done|]| |done].
  all: by destruct (Metadata.download_piece_started _ _ _ _ _ _) as [[] ?].
Qed.

Lemma release_ends : waits_end clock release 2.
Proof.
  split.
  - intros pid s. destruct (wait_ends 1 pid s) as (r & s' & -> & _). done.
  - intros pid n off len s. pose proof (claimed_ends 0 pid n off len) as Hc.
    cbn [download_piece_started] in Hc |- *. cbv [mbind r_mbind pr_mbind attempt] in Hc |- *.
    destruct (wait_ends 1 pid s) as (r & s1 & -> & _). destruct r as [p|e]; [done|]. unfold claim at 1.
    case_decide.
    + by apply Hc.
    + cbv [releasing in_metadata]. destruct (Metadata.get_piece pid _) as [[[p|]|] m]; [case_match; [done|]| |done].
      all: by destruct (Metadata.download_piece_started _ _ _ _ _ _) as [[] ?].
Qed.

(** An empty storage, a source that serves zeroes, and no parent that answers. *)
Definition storage : S := mkStorage empty ∅ (Cache.new 100) ∅ 0.
Lemma storage_inv : inv storage.
Proof. intros t n p _ (b & Hb & _). discriminate Hb. Qed.
Definition no_addr (ip : string) (port : Z) : Result string := Err (NetAddrParseError ip).
Definition no_parent (n : nat) (k : Wire.PieceKind) (addr : string) (number : Z) (hid tid : string)
  : Result PieceDownload.Download := Err (Unknown addr).
Definition a_backend (url : string) : Result unit := Ok tt.
Definition zeroes (n : nat) (url : string) (off len : Z) : Result GetResponse :=
  Ok (mkGetResponse true (replicate (Z.to_nat len) x00) None).
Definition in_time (n : nat) : option (Disk → Disk) := None.

Definition world : TaskDownload.World := TaskDownload.mkWorld storage Selector.new [] [] 0 0.

Lemma weights_new : SelectorFacts.weights_ok (TaskDownload.selector world).
Proof. intros h w Hw. cbn in Hw. by rewrite lookup_empty in Hw. Qed.

#[local] Instance api : PieceApi S := storage_api clock release 2 "tcp" false no_addr no_parent no_parent None a_backend zeroes 0 in_time.

Definition run : option (result DFError unit * TaskDownload.World) :=
  TaskDownload.download clock TaskDownloadWitness.yes TaskDownloadWitness.yes 5 "h" TaskDownloadWitness.request
    TaskDownloadWitness.in_order SelectorWitness.first_positive pred SelectorWitness.parse SelectorWitness.always
    true TaskDownloadWitness.collected (Ok TaskDownloadWitness.stream) 4 0 TaskDownloadWitness.task world.

Definition interested : list Piece :=
  match PieceCalc.calculate_interested clock 4 4 10 None with Some (Ok l) => l | _ => [] end.


Lemma piece_download_outcome_witness : ∃ p s',
  PieceDownload.download_from_source clock release 2 a_backend zeroes in_time Wire.KPiece pid tid 0 "http://x" 0 4 false storage
    = Some (Ok p, s') ∧ Piece.is_finished p = true.
Proof.
  destruct (succeeds_ok (PieceDownload.download_from_source clock release 2 a_backend zeroes in_time Wire.KPiece pid tid 0
    "http://x" 0 4 false) storage) as (p & s' & Hrun); [vm_compute; reflexivity|].
  exists p, s'. split; [exact Hrun|].
  exact (proj2 (PieceDownloadFacts.piece_download_outcome clock release 2 "tcp" false no_addr no_parent no_parent None a_backend
    zeroes 0 in_time Wire.KPiece pid "h" tid "http://x" 0 0 4 TaskDownloadWitness.bad false storage (Ok p) s' (or_intror Hrun))).
Defined.

(** A parent whose bytes do not match its digest. *)
Definition wrong (n : nat) (k : Wire.PieceKind) (addr : string) (number : Z) (tid : string) : Result PieceDownload.Download :=
  Ok (data, 0, "crc32:0").
Definition urma_run : M Piece :=
  PieceDownload.download_piece_from_parent_over_urma clock idle (Some wrong) 0 Wire.KPiece pid tid 0 4 "peer" "addr".
Definition fails (o : option (Result Piece * S)) : bool := match o with Some (Err _, _) => true | _ => false end.

Lemma urma_failure_keeps_claim_witness : ∃ e s', urma_run s0 = Some (Err e, s') ∧ pid ∈ notifiers s'.
Proof.
  assert (fails (urma_run s0) = true) as Hf by (vm_compute; reflexivity).
  destruct (urma_run s0) as [[[p|e] s']|] eqn:E; try discriminate Hf. exists e, s'. split; [reflexivity|].
  apply (PieceDownloadFacts.urma_failure_keeps_claim clock idle (Some wrong) 0 Wire.KPiece pid tid 0 4 "peer" "addr" s0 e s').
  - intros k s Hs. exact Hs.
  - by apply elem_of_singleton.
  - exact E.
Defined.
End PieceManagerWitness.

