(* ===== verification/PersistentDownload.v ===== *)
(** * Downloading persistent tasks

    Models the downloads of [src/dragonfly-client/src/resource/persistent_task.rs], its
    replication, and of [persistent_cache_task.rs].  They repeat the code of [task.rs]; where
    they do not differ the definitions of TaskDownload are used.  The conventions are those
    of that file.  After a download from the source that the scheduler asked for, the code
    reads the content of a persistent piece with the reader of ordinary tasks; that reader is
    a parameter of its own ([read_regular]). *)

From S2P Require Import Prelude Errors MetadataTypes Cache PieceCalc ParentSelector PieceCollector TaskDownload.
From Stdlib Require Import ZArith Lia String.
From stdpp Require Import base tactics numbers list gmap strings pretty.
Local Open Scope Z_scope.

(** [DownloadPersistentTaskRequest] and [DownloadPersistentCacheTaskRequest], the fields that
    are read; the source is asked without headers and nothing is prefetched. *)
Record PersistentRequest := mkPersistentRequest { p_url : string; p_need_piece_content : bool }.
Definition as_download (r : PersistentRequest) : Download :=
  mkDownload (p_url r) None Always false (p_need_piece_content r) false (Ok tt).

(** [announce_persistent_peer_response::Response] and the one of the cache. *)
Inductive PersistentResponse : Type :=
| EmptyPersistentTaskResponse
| NormalPersistentTaskResponse (candidate_parents : list Peer)
| NeedBackToSourceResponse_.
Inductive PersistentCacheResponse : Type :=
| EmptyPersistentCacheTaskResponse
| NormalPersistentCacheTaskResponse (candidate_cache_parents : list Peer).
Inductive Item (A : Type) : Type := ItemElapsed | ItemStatus (e : DFError) | ItemMessage (response : option A).
Arguments ItemElapsed {A}.
Arguments ItemStatus {A} e.
Arguments ItemMessage {A} response.

Module PersistentDownload.
Import TaskDownload.
Section persistent.
Context {W : Type} `{PieceApi W} (clock : nat → NaiveDateTime).
Local Notation World := (TaskDownload.World (W := W)).
Local Notation TM := (TaskDownload.TM (W := W)).
Context (progress_ok announce_ok : nat → bool) (max_schedule_count : Z) (host_id : string) (request : PersistentRequest).
Context (completion : list Piece.Piece → list Piece.Piece).
Context (weighted_index : list Z → option nat) (fastrand : nat → nat).
Context (parse_ip : string → Result unit) (connects : Host → bool).
Context (stream_closes : bool) (collected : Z → list Piece.Piece → list (CollectedPiece * bool)).

(** [Piece::download_from_local_into_range_reader] and [read_exact], which read the content of
    regular tasks; [read_piece] is the reader of the tasks of this file. *)
Context (read_regular : string → string → Z → PR W DFError Bytes).


Local Notation announce := (TaskDownload.announce announce_ok).
Local Notation closed := (TaskDownload.closed stream_closes).
Local Notation deliver := (TaskDownload.deliver progress_ok (p_need_piece_content request)).

(** ** From the local storage *)

(** [download_partial_from_local]; [checked] is whether a piece that is not finished is
    skipped, which the one of the cache does not ask. *)
Fixpoint download_partial_from_local (checked : bool) (tid : string) (l finished : list Piece.Piece)
    : TM (list Piece.Piece) :=
  match l with
  | [] => mret finished
  | interested_piece :: l =>
      let pid := piece_id tid (Piece.number interested_piece) in
      r ← pr_catch (in_manager (piece_get pid));
      match r with
      | Ok (Some piece) =>
          if checked && negb (Piece.is_finished piece) then download_partial_from_local checked tid l finished
          else
            _ ← deliver pid tid (to_message None (Some LocalPeer) piece);
            download_partial_from_local checked tid l (finished ++ [interested_piece])
      | _ => download_partial_from_local checked tid l finished
      end
  end.

Definition cache_download_partial_from_local (tid : string) (l : list Piece.Piece) : TM (list Piece.Piece) :=
  download_partial_from_local false tid l [].

(** ** From parents *)

(** [download_partial_with_scheduler_from_parent] of a persistent task. *)
Definition from_parent := download_partial_with_scheduler_from_parent progress_ok announce_ok host_id
  (as_download request) weighted_index fastrand parse_ip connects.

(** The join loop of the cache: the first failure ends the download. *)
Fixpoint join_cache_parents (l : list (result FromParentError Piece.Piece)) : TM unit :=
  match l with
  | [] => mret tt
  | Ok _ :: l => join_cache_parents l
  | Err (DownloadFromParentFailed_ n parent) :: _ =>
      _ ← log_error (announce (APieceFailed n parent));
      pr_throw (DownloadFromParentFailed parent)
  | Err (OtherError e) :: _ => pr_throw e
  end.

(** [download_partial_with_scheduler_from_parent] of a persistent cache task. *)
Definition cache_from_parent (tid : string) (ps : list Peer) (collected : list (CollectedPiece * bool))
    : TM (list Piece.Piece) := λ s,
  let '(r, x) := Selector.register parse_ip connects ps (selector s) in
  let s := set_selector x s in
  match r with
  | Err e => Some (Err e, s)
  | Ok _ =>
      match ('(finished, results) ← collect_loop progress_ok announce_ok host_id (as_download request) weighted_index
               fastrand tid collected false [] [];
             _ ← join_cache_parents results; mret finished : TM (list Piece.Piece)) s with
      | Some (r, s) => Some (r, set_selector (Selector.unregister ps (selector s)) s)
      | None => None
      end
  end.

(** ** From the source *)

(** [download_partial_with_scheduler_from_source] and [download_partial_from_source] of a
    persistent task; the first one reads the content with the reader of regular tasks. *)
Definition with_scheduler_from_source :=
  download_partial_with_scheduler_from_source progress_ok announce_ok (as_download request) completion read_regular.
Definition from_source := download_partial_from_source progress_ok (as_download request) completion.

(** ** With the scheduler *)

(** A [NormalTaskResponse]: [download] asks the parents, [next] waits for the next answer. *)
Definition normal_response (download : TM (list Piece.Piece)) (ps : list Peer) (interested_pieces finished_pieces : list Piece.Piece)
    (next : list Piece.Piece → TM (list Piece.Piece)) : TM (list Piece.Piece) :=
  a ← pr_catch (announce DownloadPeerStarted);
  match a with
  | Err _ => mret finished_pieces
  | Ok _ =>
      r ← pr_catch download;
      let partial := match r with Ok partial => partial | Err _ => [] end in
      let finished_pieces := PieceCalc.merge_finished_pieces finished_pieces partial in
      if (List.length finished_pieces =? List.length interested_pieces)%nat then
        _ ← log_error (announce DownloadPeerFinished); _ ← closed; mret finished_pieces
      else
        a ← pr_catch (announce (ReschedulePeer ps));
        match a with Err _ => mret finished_pieces | Ok _ => next finished_pieces end
  end.

(** A [NeedBackToSourceResponse] of a persistent task. *)
Definition back_to_source_response (tid : string) (interested_pieces finished_pieces : list Piece.Piece)
    : TM (list Piece.Piece) :=
  a ← pr_catch (announce DownloadPeerBackToSourceStarted);
  match a with
  | Err _ => mret finished_pieces
  | Ok _ =>
      let remaining := PieceCalc.remove_finished_from_interested finished_pieces interested_pieces in
      r ← pr_catch (with_scheduler_from_source tid remaining);
      match r with
      | Err _ => _ ← log_error (announce DownloadPeerBackToSourceFailed); _ ← closed; mret finished_pieces
      | Ok partial =>
          let finished_pieces := PieceCalc.merge_finished_pieces finished_pieces partial in
          if (List.length partial =? List.length remaining)%nat then
            _ ← log_error (announce DownloadPeerBackToSourceFinished); _ ← closed; mret finished_pieces
          else _ ← log_error (announce DownloadPeerBackToSourceFailed); _ ← closed; mret finished_pieces
      end
  end.

(** [download_partial_with_scheduler], and with [replication] the one for replication, which
    does not go back to the source. *)
Fixpoint schedule_loop (replication : bool) (tid : string) (interested_pieces : list Piece.Piece)
    (stream : list (Item PersistentResponse)) (schedule_count : Z) (finished_pieces : list Piece.Piece)
    : TM (list Piece.Piece) :=
  match stream with
  | [] => mret finished_pieces
  | ItemElapsed :: _ => pr_throw (TokioStreamElapsed "deadline has elapsed")
  | item :: stream =>
      let schedule_count := schedule_count + 1 in
      if max_schedule_count <? schedule_count then
        _ ← log_error (announce DownloadPeerFailed); _ ← closed; mret finished_pieces
      else
        match item with
        | ItemElapsed => pr_throw (TokioStreamElapsed "deadline has elapsed")
        | ItemStatus e => pr_throw e
        | ItemMessage None => pr_throw UnexpectedResponse
        | ItemMessage (Some EmptyPersistentTaskResponse) =>
            _ ← announce DownloadPeerFinished;
            _ ← announce DownloadPeerStarted;
            _ ← closed;
            mret []
        | ItemMessage (Some (NormalPersistentTaskResponse ps)) =>
            let remaining := PieceCalc.remove_finished_from_interested finished_pieces interested_pieces in
            normal_response (from_parent tid ps (collected schedule_count remaining)) ps interested_pieces finished_pieces
              (schedule_loop replication tid interested_pieces stream schedule_count)
        | ItemMessage (Some NeedBackToSourceResponse_) =>
            if replication then _ ← log_error (announce DownloadPeerBackToSourceFailed); _ ← closed; mret finished_pieces
            else back_to_source_response tid interested_pieces finished_pieces
        end
  end.

(** [download_partial_with_scheduler] of a persistent cache task. *)
Fixpoint cache_schedule_loop (tid : string) (interested_pieces : list Piece.Piece)
    (stream : list (Item PersistentCacheResponse)) (schedule_count : Z) (finished_pieces : list Piece.Piece)
    : TM (list Piece.Piece) :=
  match stream with
  | [] => mret finished_pieces
  | ItemElapsed :: _ => pr_throw (TokioStreamElapsed "deadline has elapsed")
  | item :: stream =>
      let schedule_count := schedule_count + 1 in
      if max_schedule_count <? schedule_count then
        _ ← log_error (announce DownloadPeerFailed); _ ← closed; mret finished_pieces
      else
        match item with
        | ItemElapsed => pr_throw (TokioStreamElapsed "deadline has elapsed")
        | ItemStatus e => pr_throw e
        | ItemMessage None => pr_throw UnexpectedResponse
        | ItemMessage (Some EmptyPersistentCacheTaskResponse) =>
            _ ← announce DownloadPeerStarted;
            _ ← announce DownloadPeerFinished;
            _ ← closed;
            mret []
        | ItemMessage (Some (NormalPersistentCacheTaskResponse ps)) =>
            let remaining := PieceCalc.remove_finished_from_interested finished_pieces interested_pieces in
            normal_response (cache_from_parent tid ps (collected schedule_count remaining)) ps interested_pieces finished_pieces
              (cache_schedule_loop tid interested_pieces stream schedule_count)
        end
  end.

Context (announce_persistent_peer : Result (list (Item PersistentResponse))).
Context (announce_persistent_cache_peer : Result (list (Item PersistentCacheResponse))).

Definition download_partial_with_scheduler (replication : bool) (tid : string) (interested_pieces : list Piece.Piece)
    : TM (list Piece.Piece) :=
  _ ← announce (RegisterPeer false);
  stream ← pr_lift announce_persistent_peer;
  schedule_loop replication tid interested_pieces stream 0 [].
Definition download_partial_for_replication_with_scheduler := download_partial_with_scheduler true.
Definition cache_download_partial_with_scheduler (tid : string) (interested_pieces : list Piece.Piece)
    : TM (list Piece.Piece) :=
  _ ← announce (RegisterPeer false);
  stream ← pr_lift announce_persistent_cache_peer;
  cache_schedule_loop tid interested_pieces stream 0 [].

(** ** The whole downloads *)

(** The beginning they share: the pieces, the message that the download started, and the
    pieces that are local; [rest] downloads the others. *)
Definition begin_download (fuel : nat) (from_local : string → list Piece.Piece → TM (list Piece.Piece)) (tid : string) (piece_length content_length : Z)
    (rest : list Piece.Piece → TM unit) : TM unit :=
  r ← pr_expect (PieceCalc.calculate_interested clock fuel piece_length content_length None);
  interested_pieces ← pr_lift r;
  _ ← send_progress progress_ok SendTimeout (DownloadTaskStarted content_length [] false);
  finished_pieces ← from_local tid interested_pieces;
  match PieceCalc.remove_finished_from_interested finished_pieces interested_pieces with
  | [] => mret tt
  | interested_pieces => rest interested_pieces
  end.

(** [PersistentTask::download]. *)
Definition download (fuel : nat) (task : PersistentTask) : TM unit :=
  let tid := PTask.id task in
  begin_download fuel (λ tid l, download_partial_from_local true tid l []) tid (PTask.piece_length task) (PTask.content_length task) (λ interested_pieces,
    r ← pr_catch (download_partial_with_scheduler false tid interested_pieces);
    let back l := _ ← from_source tid l; mret tt in
    match r with
    | Err _ => back interested_pieces
    | Ok finished_pieces =>
        match PieceCalc.remove_finished_from_interested finished_pieces interested_pieces with
        | [] => mret tt
        | rest => back rest
        end
    end).

(** What the downloads without a source do at the end. *)
Definition all_or_fail (tid : string) (message : string) (scheduled : list Piece.Piece → TM (list Piece.Piece))
    (interested_pieces : list Piece.Piece) : TM unit :=
  finished_pieces ← scheduled interested_pieces;
  match PieceCalc.remove_finished_from_interested finished_pieces interested_pieces with
  | [] => mret tt
  | _ => pr_throw (Unknown message)
  end.

(** [PersistentTask::download_for_replication]. *)
Definition download_for_replication (fuel : nat) (task : PersistentTask) : TM unit :=
  let tid := PTask.id task in
  begin_download fuel (λ tid l, download_partial_from_local true tid l []) tid (PTask.piece_length task) (PTask.content_length task)
    (all_or_fail tid "not all persistent pieces are downloaded with scheduler" (download_partial_for_replication_with_scheduler tid)).

(** [PersistentCacheTask::download]. *)
Definition cache_download (fuel : nat) (task : PersistentCacheTask) : TM unit :=
  let tid := PTask.id task in
  begin_download fuel cache_download_partial_from_local tid (PTask.piece_length task) (PTask.content_length task)
    (all_or_fail tid "not all persistent cache pieces are downloaded with scheduler" (cache_download_partial_with_scheduler tid)).
End persistent.
End PersistentDownload.
