(* ===== verification/PersistentDownloadFacts.v ===== *)
(** * Facts about downloading persistent tasks

    A download of a persistent task, and its replication, that succeeds has shown every piece
    to the client; without a reader of ordinary tasks that finds persistent pieces, the
    download from the source that the scheduler asks for finishes none of them; the download
    of a persistent cache task trusts records of pieces that are not finished. *)

From S2P Require Import Prelude Errors MetadataTypes Cache PieceCalc ParentSelector ParentSelectorFacts PieceCollector TaskDownload TaskDownloadFacts TaskDownloadTheorems PersistentDownload.
From Stdlib Require Import ZArith Lia String Strings.Byte.
From stdpp Require Import base tactics numbers list gmap strings pretty.
Import TaskDownload TaskDownloadFacts.
Local Open Scope Z_scope.

Module PersistentDownloadFacts.
Section facts.
Context {W : Type} `{PieceApiLaws W} (clock : nat → NaiveDateTime).
Local Notation World := (TaskDownload.World (W := W)).
Local Notation TM := (TaskDownload.TM (W := W)).
Context (progress_ok announce_ok : nat → bool) (max_schedule_count : Z) (hid : string) (request : PersistentRequest).
Context (completion : list Piece.Piece → list Piece.Piece).
Context (weighted_index : list Z → option nat) (fastrand : nat → nat).
Context (parse_ip : string → Result unit) (connects : Host → bool).
Context (stream_closes : bool) (collected : Z → list Piece.Piece → list (CollectedPiece * bool)).
Context (read_regular : string → string → Z → PR W DFError Bytes).
Context (announce_persistent_peer : Result (list (Item PersistentResponse))).
Context (announce_persistent_cache_peer : Result (list (Item PersistentCacheResponse))).
Local Notation environment := (environment completion weighted_index fastrand collected).
Local Notation works := (works progress_ok (as_download request) stream_closes).
Local Notation runs := (runs stream_closes).
Local Notation all_shown := (all_shown (as_download request)).
Context (Henv : environment) (Hheard : p_need_piece_content request = true ∨ ∀ n, progress_ok n = true).
Context (Hregular : reads_genuine read_regular).

Local Notation local := (PersistentDownload.download_partial_from_local progress_ok request).
Local Notation loop := (PersistentDownload.schedule_loop progress_ok announce_ok max_schedule_count hid request completion
  weighted_index fastrand parse_ip connects stream_closes collected read_regular).

Local Notation download := (PersistentDownload.download clock progress_ok announce_ok max_schedule_count hid request completion
  weighted_index fastrand parse_ip connects stream_closes collected read_regular announce_persistent_peer).
Local Notation replicate := (PersistentDownload.download_for_replication clock progress_ok announce_ok max_schedule_count hid
  request completion weighted_index fastrand parse_ip connects stream_closes collected read_regular announce_persistent_peer).

Lemma runs_local tid l finished s :
  numbered l → all_shown tid s finished →
  runs (¬ works) (local true tid l finished) s (λ r s', all_shown tid s' r).
Proof.
  induction l as [|p l IH] in finished, s |- *; intros Hl Hf; cbn [PersistentDownload.download_partial_from_local]; [by apply runs_ret|].
  apply Forall_cons in Hl as [Hn Hl].
  eapply (runs_bind _ _ _ _ _ (λ r s', ∀ q, r = Ok (Some q) → Piece.number q = Piece.number p ∧
    (Piece.is_finished q = true → readable (manager s') (piece_id tid (Piece.number p)) (Piece.length q)))).
  - apply (runs_catch _ _ True); [|done]. eapply runs_in_manager; [intros Hi; by apply get_law|].
    intros [o|e] w [Hi Hq]; (split; [done|]); [|done]. intros q [= ->]. by apply Hq.
  - intros r s1 _ Hp1 Hr. assert (all_shown tid s1 finished) as Hf1 by (by eapply all_shown_mono).
    destruct r as [[q|]|e]; [|by apply IH..]. destruct (Hr q eq_refl) as [Hnum Hread].
    destruct (Piece.is_finished q) eqn:Eq; [|by apply IH]. cbn [andb negb].
    eapply runs_bind; [by apply (runs_deliver progress_ok (as_download request) stream_closes Hheard tid (Piece.number p)); auto|].
    intros _ s2 _ Hp2 [Hs _]. apply IH; [done|]. apply all_shown_app; [by eapply all_shown_mono|by apply all_shown_one].
Qed.

Lemma runs_normal_response tid (download : TM (list Piece.Piece)) ps l finished next s :
  (∀ s, runs True download s (λ r s', all_shown tid s' r)) →
  (∀ f s, all_shown tid s f → runs True (next f) s (λ r s', all_shown tid s' r)) →
  all_shown tid s finished →
  runs True (PersistentDownload.normal_response announce_ok stream_closes download ps l finished next) s (λ r s', all_shown tid s' r).
Proof.
  intros Hd Hnext Hf. unfold PersistentDownload.normal_response.
  eapply runs_bind; [apply runs_catch_any, runs_announce|]. intros [a|e] s1 _ Hp1 _; [|by apply runs_ret; eapply all_shown_mono].
  eapply runs_bind; [apply runs_catch_any, Hd|]. intros r s2 _ Hp2 Hr.
  set (partial := match r with Ok p => p | Err _ => [] end).
  assert (all_shown tid s2 (PieceCalc.merge_finished_pieces finished partial)) as Hm.
  { apply all_shown_merge; [eapply all_shown_mono; [|exact Hf]; by etrans|]. destruct r; [by apply Hr|apply all_shown_nil]. }
  destruct (_ =? _)%nat.
  - apply runs_last. intros s3 Hp3. by eapply all_shown_mono.
  - eapply runs_bind; [apply runs_catch_any, runs_announce|].
    intros [a'|e] s3 _ Hp3 _; [apply Hnext|apply runs_ret]; by eapply all_shown_mono.
Qed.

Lemma runs_log_ret F tid m finished s :
  all_shown tid s finished → runs F (_ ← log_error (announce announce_ok m); _ ← closed stream_closes; mret finished) s
    (λ r s', all_shown tid s' r).
Proof.
  intros Hf. apply runs_last. intros s1 Hp. by eapply all_shown_mono.
Qed.

Lemma runs_back_response tid l finished s :
  numbered l → all_shown tid s finished →
  runs True (PersistentDownload.back_to_source_response progress_ok announce_ok request completion stream_closes read_regular tid l finished) s
    (λ r s', all_shown tid s' r).
Proof.
  intros Hl Hf. unfold PersistentDownload.back_to_source_response.
  eapply runs_bind; [apply runs_catch_any, runs_announce|]. intros [a|e] s1 _ Hp1 _; [|by apply runs_ret; eapply all_shown_mono].
  assert (all_shown tid s1 finished) as Hf1 by (by eapply all_shown_mono).
  eapply runs_bind.
  { apply (runs_catch_any _ _ _ _ (λ r s', all_shown tid s' r)). unfold PersistentDownload.with_scheduler_from_source, download_partial_with_scheduler_from_source.
    eapply (runs_bind _ _ _ _ _ (λ _ _, True)); [by apply runs_lift|]. intros _ s2 _ _ _.
    apply runs_join_scheduled; [exact Hheard|exact Hregular|unfold numbered; rewrite (env_completion _ _ _ _ Henv); by apply numbered_rest|apply all_shown_nil]. }
  intros [p|e] s2 _ Hp2 Hr; [|apply runs_log_ret; by eapply all_shown_mono].
  assert (all_shown tid s2 (PieceCalc.merge_finished_pieces finished p)) as Hm
    by (apply all_shown_merge; [by eapply all_shown_mono|by apply Hr]).
  cbv zeta. destruct (_ =? _)%nat; by apply runs_log_ret.
Qed.

Lemma runs_loop replication tid l stream k finished s :
  numbered l → all_shown tid s finished →
  runs True (loop replication tid l stream k finished) s (λ r s', all_shown tid s' r).
Proof.
  induction stream as [|item stream IH] in k, finished, s |- *; intros Hl Hf; cbn [PersistentDownload.schedule_loop]; [by apply runs_ret|].
  destruct item as [|e|[[|ps|]|]]; [by apply runs_throw|..]; cbv zeta;
    (destruct (max_schedule_count <? k + 1); [by apply runs_log_ret|]); try by apply runs_throw.
  - eapply runs_bind; [apply runs_announce|]. intros _ s1 _ _ _. eapply runs_bind; [apply runs_announce|].
    intros _ s2 _ _ _. eapply runs_bind; [apply runs_closed|]. intros _ s3 _ _ _. apply runs_ret, all_shown_nil.
  - apply runs_normal_response; [|intros; by apply IH|done]. intros s1. eapply runs_from_parent; [exact Henv|exact Hheard|].
    intros. by eapply (env_collected _ _ _ _ Henv).
  - destruct replication; [by apply runs_log_ret|by apply runs_back_response].
Qed.

Lemma runs_with_scheduler replication tid l s :
  numbered l →
  runs True (PersistentDownload.download_partial_with_scheduler progress_ok announce_ok max_schedule_count hid request completion
    weighted_index fastrand parse_ip connects stream_closes collected read_regular announce_persistent_peer replication tid l) s (λ r s', all_shown tid s' r).
Proof.
  intros Hl. unfold PersistentDownload.download_partial_with_scheduler.
  eapply runs_bind; [apply runs_announce|]. intros _ s1 _ _ _.
  eapply (runs_bind _ _ _ _ _ (λ _ _, True)); [by apply runs_lift; destruct announce_persistent_peer|]. intros stream s2 _ _ _.
  apply runs_loop; [done|apply all_shown_nil].
Qed.

Lemma runs_begin F fuel tid pl cl rest interested s :
  (¬ works → F) →
  PieceCalc.calculate_interested clock fuel pl cl None = Some (Ok interested) →
  (∀ l s, numbered l → runs F (rest l) s (λ _ s', all_shown tid s' l)) →
  runs F (PersistentDownload.begin_download clock progress_ok fuel (λ tid l, local true tid l []) tid pl cl rest) s
    (λ _ s', all_shown tid s' interested).
Proof.
  intros HF Hint Hrest. pose proof (calculate_interested_numbered _ _ _ _ _ _ Hint) as Hnum.
  unfold PersistentDownload.begin_download. rewrite Hint.
  eapply (runs_bind _ _ _ _ _ (λ a _, a = Ok interested)); [by apply runs_expect|]. intros ? s3 _ _ ->.
  eapply (runs_bind _ _ _ _ _ (λ a _, a = interested)); [by apply runs_lift|]. intros ? s4 _ _ ->.
  eapply runs_bind; [apply runs_send; intros Ef; apply HF; intros Hw; by rewrite (w_progress _ _ _ Hw) in Ef|]. intros _ s5 _ _ _.
  eapply runs_bind; [eapply runs_mono; [by apply runs_local, all_shown_nil|exact HF|intros r s' _ Hr; exact Hr]|].
  intros finished s6 _ _ H6. apply (numbered_rest finished) in Hnum.
  assert (∀ s', progress s6 `prefix_of` progress s' →
    all_shown tid s' (PieceCalc.remove_finished_from_interested finished interested) → all_shown tid s' interested) as Hall.
  { intros s' Hp Hr. eapply all_shown_rest; [eapply all_shown_mono; [exact Hp|exact H6]|done]. }
  destruct (PieceCalc.remove_finished_from_interested finished interested) as [|q rest'].
  - apply runs_ret. apply Hall; [reflexivity|apply all_shown_nil].
  - eapply runs_mono; [by apply Hrest|done|]. intros ? s' Hp Hs. by apply Hall.
Qed.

Lemma runs_scheduled_or_source fuel task interested s :
  PieceCalc.calculate_interested clock fuel (PTask.piece_length task) (PTask.content_length task) None = Some (Ok interested) →
  runs (¬ works) (download fuel task) s (λ _ s', all_shown (PTask.id task) s' interested).
Proof.
  intros Hint. apply runs_begin; [done|done|]. intros l s1 Hl. set (tid := PTask.id task).
  assert (∀ l s, numbered l → runs (¬ works) (_ ← download_partial_from_source progress_ok (as_download request) completion tid l;
    mret tt) s (λ _ s', all_shown tid s' l)) as Hback.
  { clear l s1 Hl. intros l s1 Hl. eapply runs_bind; [by eapply runs_from_source|]. intros ? s2 ? ? Hs. by apply runs_ret. }
  eapply runs_bind; [by apply runs_catch_any, (runs_with_scheduler false tid)|]. intros [finished|e] s2 _ Hp2 Hr; [|by apply Hback].
  specialize (Hr finished eq_refl). apply (numbered_rest finished) in Hl.
  destruct (PieceCalc.remove_finished_from_interested finished l) as [|q rest] eqn:E.
  - apply runs_ret. eapply all_shown_rest; [exact Hr|]. rewrite E. apply all_shown_nil.
  - eapply runs_mono; [by apply Hback|done|]. intros ? s3 Hp3 Hs3.
    eapply all_shown_rest; [by eapply all_shown_mono|]. by rewrite E.
Qed.

Lemma runs_replication fuel task interested s :
  PieceCalc.calculate_interested clock fuel (PTask.piece_length task) (PTask.content_length task) None = Some (Ok interested) →
  runs True (replicate fuel task) s (λ _ s', all_shown (PTask.id task) s' interested).
Proof.
  intros Hint. apply runs_begin; [done|done|]. intros l s1 Hl. unfold PersistentDownload.all_or_fail.
  eapply runs_bind; [by apply (runs_with_scheduler true (PTask.id task))|]. intros finished s2 _ _ Hr.
  destruct (PieceCalc.remove_finished_from_interested finished l) as [|q rest] eqn:E; [|by apply runs_throw].
  apply runs_ret. eapply all_shown_rest; [exact Hr|]. rewrite E. apply all_shown_nil.
Qed.
End facts.

Section theorems.
Context {W : Type} `{PieceApiLaws W} (clock : nat → NaiveDateTime).
Local Notation World := (TaskDownload.World (W := W)).
Context (progress_ok announce_ok : nat → bool) (max_schedule_count : Z) (hid : string) (request : PersistentRequest).
Context (completion : list Piece.Piece → list Piece.Piece).
Context (weighted_index : list Z → option nat) (fastrand : nat → nat).
Context (parse_ip : string → Result unit) (connects : Host → bool).
Context (stream_closes : bool) (collected : Z → list Piece.Piece → list (CollectedPiece * bool)).
Context (read_regular : string → string → Z → PR W DFError Bytes).
Context (announce_persistent_peer : Result (list (Item PersistentResponse))).
Context (announce_persistent_cache_peer : Result (list (Item PersistentCacheResponse))).
Local Notation environment := (environment completion weighted_index fastrand collected).
Local Notation download := (PersistentDownload.download clock progress_ok announce_ok max_schedule_count hid request completion
  weighted_index fastrand parse_ip connects stream_closes collected read_regular announce_persistent_peer).
Local Notation replicate := (PersistentDownload.download_for_replication clock progress_ok announce_ok max_schedule_count hid
  request completion weighted_index fastrand parse_ip connects stream_closes collected read_regular announce_persistent_peer).

Local Notation cache_download := (PersistentDownload.cache_download clock progress_ok announce_ok max_schedule_count hid request
  weighted_index fastrand parse_ip connects stream_closes collected announce_persistent_cache_peer).


(** The wrong reader: when the client asks for the content and the reader of regular tasks
    fails, the scheduled download of a persistent task from the source shows no piece and
    finishes none, whatever the source delivers. *)
Theorem scheduled_source_finishes_nothing tid l s r s' :
  p_need_piece_content request = true →
  (∀ pid tid len w, ∃ e w', read_regular pid tid len w = Some (Err e, w')) →
  PersistentDownload.with_scheduler_from_source progress_ok announce_ok request completion read_regular tid l s
    = Some (r, s') → progress s' = progress s ∧ ∀ q, r = Ok q → q = [].
Proof.
  intros Hneed Hfail. unfold PersistentDownload.with_scheduler_from_source, download_partial_with_scheduler_from_source.
  cbv [mbind tm_mbind pr_mbind pr_lift]. cbn [or_err request_header as_download]. generalize (completion l) as ps. intros [|p ps].
  { intros [= <- <-]. split; [done|]. by intros q [= <-]. }
  cbn [join_scheduled_source]. cbv [mbind tm_mbind pr_mbind pr_catch scheduled_source_piece in_manager pr_zoom].
  destruct (download_from_source _ _ _ _ _ _ _ (manager s)) as [[[q|e] w]|]; [| |done].
  - unfold deliver_with. cbn [need_piece_content as_download]. rewrite Hneed. cbv [mbind tm_mbind pr_mbind in_manager pr_zoom].
    match goal with |- context [read_regular ?a ?b ?c ?d] => destruct (Hfail a b c d) as (e & w' & ->) end.
    unfold log_error, announce. cbv [mbind tm_mbind pr_mbind pr_catch mret tm_mret pr_mret pr_throw]. simpl.
    destruct (announce_ok _); destruct e; intros [= <- <-]; (split; [done|]); by intros q' [= <-].
  - unfold log_error, announce. cbv [mbind tm_mbind pr_mbind pr_catch mret tm_mret pr_mret pr_throw]. simpl.
    destruct (announce_ok _); destruct e; intros [= <- <-]; (split; [done|]); by intros q' [= <-].
Qed.

(** ** The cache does not ask whether a local piece is finished *)
Lemma remove_finished_self l : PieceCalc.remove_finished_from_interested ([] ++ l) l = [].
Proof.
  destruct (PieceCalc.remove_finished_from_interested ([] ++ l) l) as [|p rest] eqn:E; [done|].
  assert (p ∈ p :: rest) as Hp by (by left). rewrite <-E in Hp. apply list_elem_of_filter in Hp as [Hn Hp].
  destruct Hn. apply Exists_exists. by exists p.
Qed.

(** The client was told that piece [q], found locally, is finished. *)
Definition told (s : World) (q : Piece.Piece) : Prop :=
  ∃ w, (DownloadPieceFinished (to_message None (Some LocalPeer) q), w) ∈ progress s.

Lemma trusting_local tid l finished s :
  p_need_piece_content request = false →
  (∀ p, p ∈ l → ∃ q, piece_get (piece_id tid (Piece.number p)) (manager s) = Some (Ok (Some q), manager s)) →
  ∃ s', PersistentDownload.download_partial_from_local progress_ok request false tid l finished s = Some (Ok (finished ++ l), s') ∧
    manager s' = manager s ∧ announced s' = announced s ∧ progress s `prefix_of` progress s' ∧
    ((∀ n, progress_ok n = true) → ∀ p q, p ∈ l →
      piece_get (piece_id tid (Piece.number p)) (manager s) = Some (Ok (Some q), manager s) → told s' q).
Proof.
  intros Hneed. induction l as [|p l IH] in finished, s |- *; intros Hl; cbn [PersistentDownload.download_partial_from_local].
  { exists s. rewrite app_nil_r. do 4 (split; [done|]). by intros _ p q ?%not_elem_of_nil. }
  destruct (Hl p ltac:(by left)) as [q Hq].
  unfold in_manager, deliver, deliver_with. rewrite Hneed. cbv [mbind tm_mbind pr_mbind pr_catch pr_zoom]. rewrite Hq. simpl.
  unfold send_progress. simpl. destruct (progress_ok (sends s)) eqn:Eok; cbv [mret tm_mret pr_mret];
    match goal with |- context [PersistentDownload.download_partial_from_local _ _ _ _ _ _ ?s1] =>
      destruct (IH (finished ++ [p]) s1) as (s' & Hrun & Hm & Ha & Hp & Ht); [intros p' Hp'; apply Hl; by right|] end;
    exists s'; rewrite Hrun, <-app_assoc; (split; [done|]); (split; [done|]); (split; [done|]); simpl in Hp.
  - split; [etrans; [|exact Hp]; by apply prefix_app_r|]. intros Hok p' q' [->|Hin]%elem_of_cons Hq'; [|by eapply Ht].
    assert (q' = q) as -> by congruence. exists (manager s). destruct Hp as [k ->]. apply elem_of_app. left.
    apply elem_of_app. right. by left.
  - split; [exact Hp|]. intros Hok. by rewrite Hok in Eok.
Qed.

(** C39: A download of a persistent cache task that does not ask for the content (and whose
    first message, that it started, can be sent) is a success when all of its pieces have a
    record, although none of these records is of a finished piece: nothing is asked of the
    scheduler or the parents and the storage stays as it is; and if the channel to the client
    takes the messages, the client is told of every one of these pieces that it is
    finished. *)
Theorem cache_download_trusts_unfinished fuel task s interested :
  p_need_piece_content request = false → progress_ok (sends s) = true →
  PieceCalc.calculate_interested clock fuel (PTask.piece_length task) (PTask.content_length task) None = Some (Ok interested) →
  (∀ p, p ∈ interested → ∃ q,
     piece_get (piece_id (PTask.id task) (Piece.number p)) (manager s) = Some (Ok (Some q), manager s) ∧
     Piece.is_finished q = false) →
  ∃ s', cache_download fuel task s = Some (Ok tt, s') ∧ manager s' = manager s ∧ announced s' = announced s ∧
    ((∀ n, progress_ok n = true) → ∀ p, p ∈ interested → ∃ q,
       piece_get (piece_id (PTask.id task) (Piece.number p)) (manager s) = Some (Ok (Some q), manager s) ∧
       Piece.is_finished q = false ∧ told s' q).
Proof.
  intros Hneed Hsend Hint Hrec. unfold PersistentDownload.cache_download, PersistentDownload.begin_download, PersistentDownload.cache_download_partial_from_local. rewrite Hint.
  cbv [mbind tm_mbind pr_mbind pr_expect pr_lift]. simpl. unfold send_progress. rewrite Hsend.
  match goal with |- context [PersistentDownload.download_partial_from_local _ _ _ ?tid ?l ?f ?s1] =>
    destruct (trusting_local tid l f s1 Hneed) as (s' & Hrun & Hm & Ha & _ & Ht) end.
  { intros p Hp. destruct (Hrec p Hp) as (q & Hq & _). by exists q. }
  rewrite Hrun. exists s'. rewrite remove_finished_self. do 3 (split; [done|]). intros Hok p Hp.
  destruct (Hrec p Hp) as (q & Hq & Hf). exists q. split; [done|]. split; [done|]. by eapply Ht.
Qed.
End theorems.
End PersistentDownloadFacts.

(** ** A concrete persistent task *)
Module PersistentDownloadWitness.
Import PersistentDownloadFacts TaskDownloadWitness.

#[local] Existing Instance manager_api.
#[local] Existing Instance manager_laws.

Definition persistent_request : PersistentRequest := mkPersistentRequest "http://x" true.
Definition persistent_stream : list (Item PersistentResponse) :=
  [ItemMessage (Some (NormalPersistentTaskResponse peers)); ItemMessage (Some NeedBackToSourceResponse_)].
Definition sample {k} : PTask.PTask k := PTask.mkPTask "" false 0 4 10 0 0 0 0 None None.

(** There is no regular task: its reader fails. *)
Definition no_regular (pid tid : string) (len : Z) : PR nat DFError Bytes := pr_throw (Unknown "no such file").
Lemma no_regular_genuine : reads_genuine no_regular.
Proof. intros pid tid len w Hw. by split. Qed.


(** The source delivers, and yet nothing is finished. *)
Lemma scheduled_source_finishes_nothing_witness : ∃ r s',
  PersistentDownload.with_scheduler_from_source yes yes persistent_request in_order no_regular "" interested world = Some (r, s') ∧
  (manager s' = 1%nat) ∧ progress s' = [].
Proof.
  destruct (PersistentDownload.with_scheduler_from_source yes yes persistent_request in_order no_regular "" interested world)
    as [[r s']|] eqn:E; [|by vm_compute in E]. exists r, s'. split; [done|].
  split; [vm_compute in E; by injection E as _ <-|].
  exact (proj1 (scheduled_source_finishes_nothing yes yes persistent_request in_order no_regular "" interested world r s' eq_refl
    (λ pid tid len w, ex_intro _ _ (ex_intro _ w eq_refl)) E)).
Defined.

(** A manager that has started every piece and finished none. *)
Definition started_api : PieceApi nat := {|
  piece_id := piece_id;
  piece_get pid := mret (Some (Piece.mkPiece 0 0 4 "" None 0 0 0 0 None));
  get_by_ids := get_by_ids;
  read_piece := read_piece;
  download_from_parent := download_from_parent;
  download_from_source := download_from_source;
  in_flight_notifier := in_flight_notifier;
  is_prefetched := is_prefetched;
  select_all := select_all;
|}.

Lemma cache_download_trusts_unfinished_witness : ∃ s' : World,
  PersistentDownload.cache_download (H := started_api) PieceCalcWitness.clock yes yes 5 "h" (mkPersistentRequest "http://x" false)
    SelectorWitness.first_positive pred SelectorWitness.parse SelectorWitness.always true collected (Ok []) 4 sample world
    = Some (Ok tt, s') ∧ manager s' = 0%nat.
Proof.
  destruct (cache_download_trusts_unfinished (H := started_api) PieceCalcWitness.clock yes yes 5 "h"
    (mkPersistentRequest "http://x" false) SelectorWitness.first_positive pred SelectorWitness.parse SelectorWitness.always
    true collected (Ok []) 4 sample world interested eq_refl eq_refl eq_refl) as (s' & Hrun & Hm & _).
  - intros p _. eexists. split; reflexivity.
  - exists s'. split; [exact Hrun|exact Hm].
Defined.
End PersistentDownloadWitness.
