(* ===== verification/RateLimiter.v ===== *)
(** * The adaptive rate limiter

    Models [src/dragonfly-client-util/src/ratelimiter/bbr.rs]: the rolling window of
    response times, the collector of the load of the machine, and the limiter that refuses
    requests, as operations and as steps of any number of interleaved requests.

    Instants and durations are nanoseconds.  What the machine reports is the input [Usage];
    the ring buffer of the library is the class [RingBuf]. *)

From S2P Require Import Prelude Float64.
From Stdlib Require Import ZArith Lia.
From stdpp Require Import base tactics numbers list gmap.
Local Open Scope Z_scope.

(** [struct Sample]. *)
Record Sample := mkSample { pass : Z; min_rt : Z }.

(** [ringbuf::HeapRb]: a push that drops the oldest element of a full buffer. *)
Class RingBuf := push_overwrite : nat → list Sample → Sample → list Sample.
Class RingBufLaws `{RingBuf} := push_overwrite_law : ∀ capacity l x,
  (0 < capacity)%nat → (List.length l ≤ capacity)%nat →
  push_overwrite capacity l x = (if decide (List.length l < capacity)%nat then l else tail l) ++ [x].

Module Bbr.
Section bbr.
Context `{RingBuf}.

(** ** The rolling window *)

(** [struct RollingWindow]; the current bucket is its start, its count and its minimum. *)
Record RollingWindow := mkWindow {
  ring : list Sample;
  bucket_count : Z;
  bucket_interval : Z;
  current_bucket : Z * Z * Z;
  in_flight : Z;
}.
Definition set_buckets (r : list Sample) (b : Z * Z * Z) (w : RollingWindow) : RollingWindow :=
  mkWindow r (bucket_count w) (bucket_interval w) b (in_flight w).
Definition set_in_flight (n : Z) (w : RollingWindow) : RollingWindow :=
  mkWindow (ring w) (bucket_count w) (bucket_interval w) (current_bucket w) n.

(** [RollingWindow::new]. *)
Definition window_new (now bucket_count bucket_interval : Z) : RollingWindow :=
  mkWindow [] bucket_count bucket_interval (now, 0, u_max 64) 0.

(** [Instant::duration_since], which is zero for a later instant. *)
Definition duration_since (now earlier : Z) : Z := 0 `max` (now - earlier).

(** [RollingWindow::add]. *)
Definition add (now rt : Z) (w : RollingWindow) : RollingWindow :=
  let '(started_at, passed, minimum) := current_bucket w in
  let '(ring, (started_at, passed, minimum)) :=
    if bucket_interval w <=? duration_since now started_at then
      (if 0 <? passed then push_overwrite (Z.to_nat (bucket_count w)) (ring w) (mkSample passed minimum) else ring w,
       (now, 0, u_max 64))
    else (ring w, (started_at, passed, minimum)) in
  set_buckets ring (started_at, u64_add passed 1, minimum `min` rt) w.

(** [RollingWindow::get_stats]. *)
Definition get_stats (w : RollingWindow) : Z * Z * Z :=
  let '(max_pass, minimum) :=
    foldl (λ '(max_pass, minimum) s, (max_pass `max` pass s, minimum `min` min_rt s)) (0, u_max 64) (ring w) in
  (max_pass, (if minimum =? u_max 64 then 1 else minimum), in_flight w).

(** [add_in_flight] and [sub_in_flight]. *)
Definition add_in_flight (w : RollingWindow) : RollingWindow := set_in_flight (u64_add (in_flight w) 1) w.
Definition sub_in_flight (w : RollingWindow) : RollingWindow := set_in_flight (u64_sub (in_flight w) 1) w.

(** ** The load of the machine *)

(** What the samplers report: the control group's usage if there is one, and the process's. *)
Record Usage := mkUsage {
  cpu_cgroup : option F64.f64; cpu_process : F64.f64;
  memory_cgroup : option F64.f64; memory_process : F64.f64;
}.

(** [struct OverloadCollector], without the samplers. *)
Record OverloadCollector := mkCollector {
  is_overloaded : bool;
  cpu_threshold : Z;
  cpu_used_percent : Z;
  memory_threshold : Z;
  memory_used_percent : Z;
  is_running_in_container : bool;
}.

Definition used (in_container : bool) (cgroup : option F64.f64) (process : F64.f64) : Z :=
  F64.as_uint 8 (F64.round (if in_container then match cgroup with Some p => p | None => process end else process)).

(** [OverloadCollector::is_memory_overloaded]. *)
Definition is_memory_overloaded (u : Usage) (c : OverloadCollector) : bool * OverloadCollector :=
  if memory_threshold c =? 100 then (false, c)
  else
    let used_percent := used (is_running_in_container c) (memory_cgroup u) (memory_process u) in
    (memory_threshold c <=? used_percent,
     mkCollector (is_overloaded c) (cpu_threshold c) (cpu_used_percent c) (memory_threshold c) used_percent
       (is_running_in_container c)).

(** [OverloadCollector::is_cpu_overloaded]. *)
Definition is_cpu_overloaded (u : Usage) (c : OverloadCollector) : bool * OverloadCollector :=
  if cpu_threshold c =? 100 then (false, c)
  else
    let used_percent := used (is_running_in_container c) (cpu_cgroup u) (cpu_process u) in
    (cpu_threshold c <=? used_percent,
     mkCollector (is_overloaded c) (cpu_threshold c) used_percent (memory_threshold c) (memory_used_percent c)
       (is_running_in_container c)).

(** [OverloadCollector::collect_overloaded]; the memory is not asked when the CPU is
    overloaded. *)
Definition collect_overloaded (u : Usage) (c : OverloadCollector) : OverloadCollector :=
  let '(cpu, c) := is_cpu_overloaded u c in
  let '(over, c) := if cpu then (true, c) else is_memory_overloaded u c in
  mkCollector over (cpu_threshold c) (cpu_used_percent c) (memory_threshold c) (memory_used_percent c)
    (is_running_in_container c).

(** ** The limiter *)

(** [struct BBRConfig] with its defaults. *)
Record BBRConfig := mkConfig {
  c_bucket_count : Z; c_bucket_interval : Z; c_cpu_threshold : Z; c_memory_threshold : Z; c_shed_cooldown : Z;
}.
Definition default_config : BBRConfig := mkConfig 50 200000000 100 90 5000000000.

(** [struct BBR]. *)
Record BBR := mkBBR {
  rolling_window : RollingWindow;
  overload_collector : OverloadCollector;
  shed_cooldown : Z;
  shed_at : option Z;
}.
Definition set_window (w : RollingWindow) (b : BBR) : BBR := mkBBR w (overload_collector b) (shed_cooldown b) (shed_at b).
Definition set_collector (c : OverloadCollector) (b : BBR) : BBR := mkBBR (rolling_window b) c (shed_cooldown b) (shed_at b).
Definition set_shed_at (t : Z) (b : BBR) : BBR :=
  mkBBR (rolling_window b) (overload_collector b) (shed_cooldown b) (Some t).

(** [OverloadCollector::new] and [BBR::new]. *)
Definition collector_new (in_container : bool) (config : BBRConfig) : OverloadCollector :=
  mkCollector false (c_cpu_threshold config) 0 (c_memory_threshold config) 0 in_container.
Definition bbr_new (in_container : bool) (u : Usage) (now : Z) (config : BBRConfig) : BBR :=
  mkBBR (window_new now (c_bucket_count config) (c_bucket_interval config))
    (collect_overloaded u (collector_new in_container config)) (c_shed_cooldown config) None.

(** [BBR::is_in_cooldown]. *)
Definition is_in_cooldown (now : Z) (b : BBR) : bool :=
  match shed_at b with Some t => duration_since now t <? shed_cooldown b | None => false end.

(** The estimate of [BBR::should_shed]. *)
Definition estimated_limit (max_pass min_rt bucket_count : Z) : Z :=
  F64.as_uint 64 (F64.round (F64.div (F64.mul (F64.mul (F64.of_u64 max_pass) (F64.of_u64 min_rt)) (F64.of_u64 bucket_count))
    (F64.of_u64 1000))).

(** Its last test, on the statistics. *)
Definition exceeds (b : BBR) : bool :=
  let '(max_pass, min_rt, in_flight) := get_stats (rolling_window b) in
  if (max_pass =? 0) || (in_flight =? 0) then false
  else negb (in_flight <=? estimated_limit max_pass min_rt (bucket_count (rolling_window b))).

(** [BBR::should_shed]; the clock is read for the cooldown and when shedding begins. *)
Definition should_shed (now now' : Z) (b : BBR) : bool * BBR :=
  if is_in_cooldown now b then (true, b)
  else if negb (is_overloaded (overload_collector b)) then (false, b)
  else if exceeds b then (true, set_shed_at now' b) else (false, b).

(** [BBR::acquire]: the creation time of the guard, or nothing when the request is shed. *)
Definition acquire (now now' : Z) (b : BBR) : option Z * BBR :=
  let '(shed, b) := should_shed now now' (set_window (add_in_flight (rolling_window b)) b) in
  if shed then (None, set_window (sub_in_flight (rolling_window b)) b) else (Some now', b).

(** The response time a guard records, in milliseconds. *)
Definition response_time (now created_at : Z) : Z := u_wrap 64 ((duration_since now created_at / 1000000) `max` 1).

(** [RequestGuard::drop]. *)
Definition guard_drop (now created_at : Z) (b : BBR) : BBR :=
  set_window (sub_in_flight (add now (response_time now created_at) (rolling_window b))) b.

(** [BBRService::call] of [src/dragonfly-client/src/grpc/middleware.rs]: the answer of the
    inner service, or none when the request is refused with [resource_exhausted]. *)
Definition call {A} (now now' finished : Z) (inner : A) (b : BBR) : option A * BBR :=
  let '(guard, b) := acquire now now' b in
  match guard with
  | None => (None, b)
  | Some created_at => (Some inner, guard_drop finished created_at b)
  end.

(** ** Interleaved requests *)

(** Where a request is: before the cooldown, the flag, the statistics, the note of the
    shedding, or the decrement of a refusal; then the creation of the guard, the handling,
    and the decrement at its end. *)
Inductive Pc : Type :=
| Checking | Loading | Counting | Shedding | Refusing | Granted | Handling (created_at : Z) | Leaving.

Record State := mkState { bbr : BBR; pcs : gmap nat Pc; time : Z }.

(** The next atomic access of request [i]. *)
Definition step_of (now : Z) (i : nat) (s : State) : State :=
  let b := bbr s in
  let goto pc b := mkState b (<[i := pc]> (pcs s)) now in
  let leave b := mkState b (delete i (pcs s)) now in
  match pcs s !! i with
  | None => goto Checking (set_window (add_in_flight (rolling_window b)) b)
  | Some Checking => goto (if is_in_cooldown now b then Refusing else Loading) b
  | Some Loading => goto (if is_overloaded (overload_collector b) then Counting else Granted) b
  | Some Counting => goto (if exceeds b then Shedding else Granted) b
  | Some Shedding => goto Refusing (set_shed_at now b)
  | Some Refusing => leave (set_window (sub_in_flight (rolling_window b)) b)
  | Some Granted => goto (Handling now) b
  | Some (Handling created_at) =>
      goto Leaving (set_window (add now (response_time now created_at) (rolling_window b)) b)
  | Some Leaving => leave (set_window (sub_in_flight (rolling_window b)) b)
  end.

(** A request moves on, there being fewer than 2^64 of them, or the collector samples. *)
Inductive step : State → State → Prop :=
| step_request now i s :
    time s ≤ now → Z.of_nat (size (pcs s)) < u_max 64 → step s (step_of now i s)
| step_collect u s :
    step s (mkState (set_collector (collect_overloaded u (overload_collector (bbr s))) (bbr s)) (pcs s) (time s)).
End bbr.
End Bbr.
