(* ===== verification/RateLimiterFacts.v ===== *)
(** * Facts about the adaptive rate limiter

    The rolling window keeps the statistics of the last closed buckets of the history of
    requests; when a request is admitted and when it is refused; the counter of requests in
    flight is exact under every interleaving; and an estimate of zero refuses everything for
    as long as the overload lasts. *)

From S2P Require Import Prelude Float64 RateLimiter.
From Stdlib Require Import ZArith Lia.
From stdpp Require Import base tactics numbers list gmap relations.
Import Bbr.
Local Open Scope Z_scope.

Module BbrFacts.

(** ** The estimate *)

(** The estimate is the integer nearest to [max_pass * min_rt * bucket_count / 1000]. *)
Lemma estimated_limit_exact p m b :
  0 < p → 0 ≤ m → 0 < b → p * m * b < 2 ^ 52 →
  estimated_limit p m b = (2 * (p * m * b) + 1000) / 2000.
Proof.
  intros Hp Hm Hb Hlt. unfold estimated_limit. destruct (decide (m = 0)) as [->|Hne].
  { rewrite Z.mul_0_r, Z.mul_0_l. unfold F64.of_u64 at 1 3, F64.of_ratio at 1 2.
    destruct (Z.eqb_spec p 0); [lia|]. destruct (Z.eqb_spec b 0); [lia|].
    destruct (F64.exponent p 1 <=? 0), (F64.exponent b 1 <=? 0); cbn; rewrite ?Z.mul_0_r; done. }
  destruct (F64.of_u64_exact p ltac:(nia)) as (k1 & Hk1 & ->). destruct (F64.of_u64_exact m ltac:(nia)) as (k2 & Hk2 & ->).
  destruct (F64.of_u64_exact b ltac:(nia)) as (k3 & Hk3 & ->). destruct (F64.of_u64_exact 1000 ltac:(lia)) as (k4 & Hk4 & ->).
  destruct (F64.mul_exact p m k1 k2 ltac:(lia) ltac:(lia) ltac:(nia) Hk1 Hk2) as (j1 & Hj1 & ->).
  destruct (F64.mul_exact (p * m) b j1 k3 ltac:(nia) ltac:(lia) ltac:(nia) Hj1 Hk3) as (j2 & Hj2 & ->).
  destruct (F64.div_exact_rounds (p * m * b) 1000 j2 k4 ltac:(nia) ltac:(lia) Hj2 Hk4) as (q & e & -> & Hr).
  rewrite (F64.rounds_round 64 (p * m * b) 1000 q e) by (nia || done).
  apply Z.min_r. unfold u_max. apply Z.div_le_upper_bound; lia.
Qed.

(** ** The window and the history *)

Section window.
Context `{RingBufLaws}.

(** The response times of the buckets that are closed, and of the one that is open. *)
Record History := mkHistory { closed : list (list Z); start : Z; opened : list Z }.
Definition record (interval : Z) (h : History) (ev : Z * Z) : History :=
  if interval <=? duration_since ev.1 (start h)
  then mkHistory (if decide (opened h = []) then closed h else closed h ++ [opened h]) ev.1 [ev.2]
  else mkHistory (closed h) (start h) (opened h ++ [ev.2]).

Definition minimum (l : list Z) : Z := foldr Z.min (u_max 64) l.
Definition maximum (l : list Z) : Z := foldl Z.max 0 l.
Definition count (l : list Z) : Z := Z.of_nat (List.length l).
Definition sample_of (rts : list Z) : Sample := mkSample (count rts) (minimum rts).
(** The last [n] elements. *)
Definition recent {A} (n : nat) (l : list A) : list A := drop (List.length l - n) l.

Definition tracks (w : RollingWindow) (h : History) : Prop :=
  ring w = sample_of <$> recent (Z.to_nat (bucket_count w)) (closed h) ∧
  current_bucket w = (start h, count (opened h), minimum (opened h)).

Lemma minimum_snoc l x : minimum (l ++ [x]) = minimum l `min` x `min` u_max 64.
Proof. unfold minimum. induction l as [|y l IH]; simpl; [lia|]. rewrite IH. lia. Qed.
Lemma minimum_le l : minimum l ≤ u_max 64.
Proof. unfold minimum. induction l as [|y l IH]; simpl; lia. Qed.

Lemma recent_snoc {A} n (l : list A) x :
  (0 < n)%nat → recent n (l ++ [x]) = (if decide (List.length (recent n l) < n)%nat then recent n l else tail (recent n l)) ++ [x].
Proof.
  intros Hn. unfold recent. rewrite length_app, length_drop. simpl. case_decide as Hl.
  - replace (List.length l + 1 - n)%nat with 0%nat by lia. replace (List.length l - n)%nat with 0%nat by lia. by rewrite !drop_0.
  - assert (∀ l : list A, tail l = drop 1 l) as -> by (by intros []). rewrite drop_drop. replace (List.length l + 1 - n)%nat with (List.length l - n + 1)%nat by lia.
    by rewrite drop_app_le by lia.
Qed.

Lemma add_tracks w h now rt :
  0 < bucket_count w → 0 ≤ rt < 2 ^ 64 → count (opened h) < u_max 64 → tracks w h →
  tracks (add now rt w) (record (bucket_interval w) h (now, rt)).
Proof.
  intros Hb Hrt Hc [Hr Hcur]. unfold tracks, add, record. rewrite Hcur. simpl.
  destruct (bucket_interval w <=? duration_since now (start h)); simpl.
  - assert (u_max 64 `min` rt = minimum [rt]) as -> by (unfold minimum; simpl; unfold u_max; lia). split; [|done].
    destruct (decide (opened h = [])) as [->|Hne]; [done|].
    destruct (Z.ltb_spec 0 (count (opened h))) as [_|Hz]; [|unfold count in Hz; destruct (opened h); simpl in *; (done || lia)].
    rewrite Hr, push_overwrite_law; [|lia|unfold recent; rewrite length_fmap, length_drop; lia].
    rewrite recent_snoc, length_fmap by lia. case_decide; by rewrite fmap_app, ?fmap_tail.
  - split; [done|]. rewrite minimum_snoc. pose proof (minimum_le (opened h)). f_equal; [f_equal|].
    + unfold u64_add, count in *. rewrite length_app. simpl. rewrite u_wrap_small; unfold u_in, u_max in *; lia.
    + unfold u_max in *. lia.
Qed.

Lemma minimum_app l k : minimum (l ++ k) = minimum l `min` minimum k.
Proof. unfold minimum. induction l as [|y l IH]; simpl; [pose proof (minimum_le k); unfold minimum in *; lia|]. rewrite IH. lia. Qed.
Lemma minimum_lt l : l ≠ [] → Forall (λ x, x < u_max 64) l → minimum l < u_max 64.
Proof. destruct l as [|x l]; [done|]. intros _ [Hx _]%Forall_cons. unfold minimum. simpl. lia. Qed.

Lemma stats_fold kept a b :
  foldl (λ '(max_pass, m) s, (max_pass `max` pass s, m `min` min_rt s)) (a, b `min` u_max 64) (sample_of <$> kept) =
  (foldl Z.max a (count <$> kept), b `min` minimum (concat kept)).
Proof.
  induction kept as [|l kept IH] in a, b |- *; [done|]. cbn [fmap list_fmap foldl concat]. rewrite minimum_app.
  replace (b `min` u_max 64 `min` min_rt (sample_of l)) with ((b `min` minimum l) `min` u_max 64)
    by (cbn [sample_of min_rt]; lia).
  rewrite IH. f_equal. lia.
Qed.

(** Batches as the history makes them. *)
Definition proper (l : list Z) : Prop := l ≠ [] ∧ Forall (λ x, x < u_max 64) l.

Lemma fold_tracks n interval evs w h :
  tracks w h → bucket_count w = n → bucket_interval w = interval → 0 < n →
  Forall (λ ev, 0 ≤ ev.2 < u_max 64) evs → count (opened h) + Z.of_nat (List.length evs) < u_max 64 →
  Forall proper (closed h) → Forall (λ x, x < u_max 64) (opened h) →
  let w' := foldl (λ w ev, add ev.1 ev.2 w) w evs in
  let h' := foldl (record interval) h evs in
  tracks w' h' ∧ bucket_count w' = n ∧ in_flight w' = in_flight w ∧ Forall proper (closed h').
Proof.
  induction evs as [|[now rt] evs IH] in w, h |- *; [done|]. intros Ht Hn Hi Hpos Hev Hlen Hc Ho.
  apply Forall_cons in Hev as [Hrt Hev]. simpl in Hrt. cbn [foldl fst snd].
  assert (tracks (add now rt w) (record interval h (now, rt))) as Ht'.
  { rewrite <-Hi. apply add_tracks; [lia|unfold u_max in *; lia|cbn [List.length] in Hlen; lia|done]. }
  assert (∀ w', add now rt w = w' → bucket_count w' = n ∧ bucket_interval w' = interval ∧ in_flight w' = in_flight w) as Hsame.
  { intros w' <-. unfold add. destruct (current_bucket w) as [[? ?] ?]. destruct (_ <=? _); done. }
  destruct (Hsame _ eq_refl) as (Hn' & Hi' & Hf'). rewrite <-Hf'.
  apply IH; [done|done|done|done|done|..].
  - unfold record, count in *. cbn [List.length] in Hlen. destruct (_ <=? _); cbn [opened]; rewrite ?length_app; simpl; lia.
  - unfold record. destruct (_ <=? _); [|done]. cbn [closed]. case_decide; [done|]. apply Forall_app. split; [done|].
    apply Forall_singleton. done.
  - unfold record. destruct (_ <=? _); cbn [opened]; [apply Forall_singleton; simpl; lia|].
    apply Forall_app. split; [done|]. apply Forall_singleton. simpl. lia.
Qed.

(** C29: The rolling window is what the history of finished requests makes of it: its ring
    holds the counts and least response times of the last [bucket_count] closed buckets,
    oldest first, and its statistics are the largest count and the least response time
    among them, and 1 when there is none. *)
Theorem window_refines_history t0 n interval evs :
  0 < n → Forall (λ ev, 0 ≤ ev.2 < u_max 64) evs → Z.of_nat (List.length evs) < u_max 64 →
  let w := foldl (λ w ev, add ev.1 ev.2 w) (window_new t0 n interval) evs in
  let h := foldl (record interval) (mkHistory [] t0 []) evs in
  let kept := recent (Z.to_nat n) (closed h) in
  tracks w h ∧
  get_stats w = (maximum (count <$> kept), (if decide (kept = []) then 1 else minimum (concat kept)), 0).
Proof.
  intros Hn Hev Hlen w h kept.
  destruct (fold_tracks n interval evs (window_new t0 n interval) (mkHistory [] t0 [])) as (Ht & Hb & Hf & Hp); try done.
  fold w h in Ht, Hb, Hf, Hp. split; [done|]. destruct Ht as [Hr _]. unfold get_stats. rewrite Hr, Hb, Hf.
  fold kept. pose proof (stats_fold kept 0 (u_max 64)) as Hfold. rewrite Z.min_id in Hfold. rewrite Hfold. pose proof (minimum_le (concat kept)).
  f_equal. f_equal. rewrite Z.min_r by done. case_decide as Hk; [by rewrite Hk|].
  destruct (Z.eqb_spec (minimum (concat kept)) (u_max 64)) as [He|]; [|done]. exfalso.
  assert (Forall proper kept) as Hpk by (by apply Forall_drop). apply Z.lt_irrefl with (u_max 64). rewrite <-He at 1.
  apply minimum_lt; destruct kept as [|l kept']; try done; apply Forall_cons in Hpk as [[Hne Hl] Hpk].
  - simpl. by destruct l.
  - simpl. apply Forall_app. split; [done|]. apply Forall_concat. eapply Forall_impl; [exact Hpk|]. by intros ? [].
Qed.
End window.

(** ** Admission *)

Section limiter.
Context `{RingBufLaws}.

Definition sound (x : Sample) : Prop := 0 < pass x ∧ 0 ≤ min_rt x.

Lemma stats_sound w p m f :
  Forall sound (ring w) → get_stats w = (p, m, f) →
  f = in_flight w ∧ 0 ≤ m ∧ 0 ≤ p ∧ (p = 0 ↔ ring w = []).
Proof.
  intros Hs. unfold get_stats.
  assert (∀ a b, 0 ≤ a → 0 ≤ b → ∃ p m, foldl (λ '(max_pass, m) s, (max_pass `max` pass s, m `min` min_rt s)) (a, b) (ring w)
    = (p, m) ∧ a ≤ p ∧ 0 ≤ m ∧ (ring w ≠ [] → 0 < p)) as Hfold.
  { induction (ring w) as [|x l IH]; intros a b Ha Hb; [by exists a, b|]. apply Forall_cons in Hs as [[Hx Hx'] Hs].
    destruct (IH Hs (a `max` pass x) (b `min` min_rt x)) as (p' & m' & Hf & ? & ? & _); [lia|lia|].
    exists p', m'. simpl. rewrite Hf. split_and!; [done|lia|done|lia]. }
  destruct (Hfold 0 (u_max 64)) as (p' & m' & Hf & Hp & Hm & Hpos); [done|unfold u_max; lia|].
  pose proof Hf as Hf'. rewrite Hf. intros [= <- <- <-]. split; [done|]. split; [destruct (_ =? _); lia|]. split; [done|].
  split; [|intros Hn; by rewrite Hn in Hf'; injection Hf'].
  destruct (ring w); [done|]. intros ->. specialize (Hpos ltac:(done)). lia.
Qed.

Lemma exceeds_iff b p m f :
  Forall sound (ring (rolling_window b)) → 0 < bucket_count (rolling_window b) → 0 < in_flight (rolling_window b) →
  get_stats (rolling_window b) = (p, m, f) → p * m * bucket_count (rolling_window b) < 2 ^ 52 →
  exceeds b = true ↔ ring (rolling_window b) ≠ [] ∧
    (2 * (p * m * bucket_count (rolling_window b)) + 1000) / 2000 < in_flight (rolling_window b).
Proof.
  intros Hs Hb Hf Hst Hlt. destruct (stats_sound _ _ _ _ Hs Hst) as (-> & Hm & Hp & Hz). unfold exceeds. rewrite Hst.
  destruct (Z.eqb_spec p 0) as [Hp0|Hp0]; [simpl; naive_solver|].
  destruct (Z.eqb_spec (in_flight (rolling_window b)) 0); [lia|]. simpl. rewrite estimated_limit_exact by (done || lia).
  rewrite negb_true_iff, Z.leb_gt. naive_solver.
Qed.

Lemma in_flight_added w : 0 ≤ in_flight w < u_max 64 → in_flight (add_in_flight w) = in_flight w + 1.
Proof. intros Hf. simpl. unfold u64_add. apply u_wrap_small. unfold u_max in *. lia. Qed.
Lemma in_flight_removed w : 0 < in_flight w ≤ u_max 64 → in_flight (sub_in_flight w) = in_flight w - 1.
Proof. intros Hf. simpl. unfold u64_sub. apply u_wrap_small. unfold u_max in *. lia. Qed.
Lemma in_flight_restored b :
  0 ≤ in_flight (rolling_window b) < u_max 64 → set_window (sub_in_flight (add_in_flight (rolling_window b))) b = b.
Proof.
  intros Hf. destruct b as [w c cd t]. simpl in *. unfold set_window. f_equal.
  unfold sub_in_flight, set_in_flight at 1. rewrite in_flight_added by done. unfold u64_sub.
  rewrite u_wrap_small by (unfold u_max in *; lia). replace (in_flight w + 1 - 1) with (in_flight w) by lia. by destruct w.
Qed.

(** C28: A request is refused exactly when an earlier refusal is more recent than the
    cooldown, or when the machine is overloaded, some bucket was closed, and the requests in
    flight, this one included, are more than the estimate: the integer nearest to
    [max_pass * min_rt * bucket_count / 1000].  A refusal outside of the cooldown begins a
    new one; nothing else changes but the count of the requests in flight. *)
Theorem acquire_decision now now' b p m f :
  let w := rolling_window b in
  Forall sound (ring w) → 0 < bucket_count w → 0 ≤ in_flight w < u_max 64 →
  get_stats w = (p, m, f) → p * m * bucket_count w < 2 ^ 52 →
  let over := is_overloaded (overload_collector b) = true ∧ ring w ≠ [] ∧
    (2 * (p * m * bucket_count w) + 1000) / 2000 < in_flight w + 1 in
  (is_in_cooldown now b = true → acquire now now' b = (None, b)) ∧
  (is_in_cooldown now b = false → over → acquire now now' b = (None, set_shed_at now' b)) ∧
  (is_in_cooldown now b = false → ¬ over → acquire now now' b = (Some now', set_window (set_in_flight (in_flight w + 1) w) b)).
Proof.
  intros w Hs Hb Hf Hst Hlt over. unfold acquire. fold w. set (b1 := set_window (add_in_flight w) b).
  assert (in_flight (rolling_window b1) = in_flight w + 1) as Hf1 by (by apply in_flight_added).
  assert (get_stats (rolling_window b1) = (p, m, in_flight w + 1)) as Hst1.
  { revert Hst. unfold get_stats. simpl. destruct (foldl _ _ _) as [x y]. intros [= <- <- _]. f_equal. exact Hf1. }
  pose proof (exceeds_iff b1 p m _ Hs Hb ltac:(lia) Hst1 Hlt) as He. rewrite Hf1 in He. unfold should_shed.
  change (is_in_cooldown now b1) with (is_in_cooldown now b). change (overload_collector b1) with (overload_collector b).
  assert (set_window (sub_in_flight (rolling_window b1)) b = b) as Hback by (by apply in_flight_restored).
  split; [intros ->; f_equal; exact Hback|]. split; intros ->.
  - intros (-> & Hr & Hl). assert (exceeds b1 = true) as -> by (by apply He). simpl. f_equal.
    change (set_shed_at now' (set_window (sub_in_flight (rolling_window b1)) b) = set_shed_at now' b). by rewrite Hback.
  - intros Hn. assert (b1 = set_window (set_in_flight (in_flight w + 1) w) b) as Hb1.
    { unfold b1, add_in_flight. by rewrite <-Hf1. }
    destruct (is_overloaded _) eqn:Eo; [|simpl; by rewrite Hb1]. destruct (exceeds b1) eqn:Ee; [|simpl; by rewrite Hb1].
    destruct Hn. split; [done|]. by apply He.
Qed.

(** A call that is over has left the count of requests in flight as it was. *)
Lemma call_balanced {A} now now' finished (inner : A) b :
  0 ≤ in_flight (rolling_window b) < u_max 64 →
  in_flight (rolling_window (call now now' finished inner b).2) = in_flight (rolling_window b).
Proof.
  intros Hf. unfold call, acquire, should_shed. set (b1 := set_window (add_in_flight (rolling_window b)) b).
  assert (in_flight (rolling_window b1) = in_flight (rolling_window b) + 1) as Hf1 by (by apply in_flight_added).
  assert (∀ w, in_flight w = in_flight (rolling_window b) + 1 → in_flight (sub_in_flight w) = in_flight (rolling_window b)) as Hsub.
  { intros w Hw. rewrite in_flight_removed by lia. lia. }
  assert (∀ w t rt, in_flight (add t rt w) = in_flight w) as Hadd.
  { intros w t rt. unfold add. destruct (current_bucket w) as [[? ?] ?]. by destruct (_ <=? _). }
  destruct (is_in_cooldown now b1); [by apply Hsub|]. destruct (negb _); [apply Hsub; by rewrite Hadd|].
  destruct (exceeds b1); apply Hsub; by rewrite ?Hadd.
Qed.

(** ** Interleaved requests *)

(** What holds of every reachable state. *)
Record consistent (n : Z) (s : State) : Prop := {
  c_count : in_flight (rolling_window (bbr s)) = Z.of_nat (size (pcs s));
  c_size : Z.of_nat (size (pcs s)) ≤ u_max 64;
  c_buckets : bucket_count (rolling_window (bbr s)) = n;
  c_bounded : Z.of_nat (List.length (ring (rolling_window (bbr s)))) ≤ n;
  c_sound : Forall sound (ring (rolling_window (bbr s)));
  c_open : 0 ≤ (current_bucket (rolling_window (bbr s))).2;
}.

Lemma add_kept now rt w :
  0 < bucket_count w → 0 ≤ rt → Z.of_nat (List.length (ring w)) ≤ bucket_count w → Forall sound (ring w) →
  0 ≤ (current_bucket w).2 →
  in_flight (add now rt w) = in_flight w ∧ bucket_count (add now rt w) = bucket_count w ∧
  Z.of_nat (List.length (ring (add now rt w))) ≤ bucket_count w ∧ Forall sound (ring (add now rt w)) ∧
  0 ≤ (current_bucket (add now rt w)).2.
Proof.
  intros Hn Hrt Hlen Hs Ho. unfold add. destruct (current_bucket w) as [[t p] m]. simpl in Ho.
  destruct (_ <=? _); simpl; [|split_and!; (done || lia)].
  destruct (Z.ltb_spec 0 p); [|split_and!; (done || unfold u_max; lia)].
  rewrite push_overwrite_law by lia. split_and!; try done; [| |unfold u_max; lia].
  - rewrite length_app. simpl. case_decide; [lia|]. destruct (ring w); simpl in *; lia.
  - apply Forall_app. split; [|by apply Forall_singleton]. case_decide; [done|].
    destruct (ring w); [done|]. by apply Forall_cons in Hs as [_ ?].
Qed.

(** A step of a request that is inside. *)
Lemma size_moved (m : gmap nat Pc) i x y : m !! i = Some x → size (<[i := y]> m) = size m.
Proof. intros Hi. by rewrite map_size_insert, Hi. Qed.
Lemma size_left (m : gmap nat Pc) i x : m !! i = Some x → Z.of_nat (size (delete i m)) = Z.of_nat (size m) - 1.
Proof.
  intros Hi. rewrite map_size_delete, Hi. assert (size m ≠ 0%nat); [|lia]. intros Hz%map_size_empty_iff. by rewrite Hz in Hi.
Qed.

Lemma step_consistent n s s' : 0 < n → consistent n s → step s s' → consistent n s'.
Proof.
  intros Hn Hcons Hstep. destruct Hstep as [now i s1 Ht Hroom|u s1]; destruct Hcons as [Hc Hsz Hb Hl Hs Ho]; [|by split].
  unfold step_of. destruct (pcs s1 !! i) as [pc|] eqn:Hi.
  2:{ split; try done; simpl; rewrite map_size_insert, Hi; [|lia].
      change (in_flight (add_in_flight (rolling_window (bbr s1))) = Z.of_nat (S (size (pcs s1)))).
      rewrite in_flight_added by lia. lia. }
  assert (∀ pc', size (<[i := pc']> (pcs s1)) = size (pcs s1)) as Hmove by (intros; by eapply size_moved).
  assert (consistent n (mkState (set_window (sub_in_flight (rolling_window (bbr s1))) (bbr s1)) (delete i (pcs s1)) now)) as Hleave.
  { split; try done; cbn [pcs bbr]; rewrite (size_left _ _ _ Hi); [|lia].
    change (in_flight (sub_in_flight (rolling_window (bbr s1))) = Z.of_nat (size (pcs s1)) - 1).
    assert (Z.of_nat (size (pcs s1)) ≠ 0).
    { pose proof (size_left _ _ _ Hi). lia. }
    rewrite in_flight_removed by lia. lia. }
  assert (∀ pc' b, rolling_window b = rolling_window (bbr s1) → consistent n (mkState b (<[i := pc']> (pcs s1)) now)) as Hgoto.
  { intros pc' b Hw. split; cbn [pcs bbr]; rewrite ?Hw, ?Hmove; done. }
  destruct pc; try (by apply Hgoto); try exact Hleave.
  assert (0 ≤ response_time now created_at) as Hrt by (unfold response_time, u_wrap; apply Z.mod_pos_bound; lia).
  destruct (add_kept now (response_time now created_at) (rolling_window (bbr s1))) as (H1 & H2 & H3 & H4 & H5); try done; try lia.
  split; cbn [pcs bbr set_window rolling_window]; rewrite ?Hmove; (done || lia).
Qed.

(** C30: Whatever requests and samples interleave, the counter of requests in flight is the
    number of requests that have entered and not left; the ring never holds more than
    [bucket_count] samples, each of a bucket with at least one request. *)
Theorem in_flight_exact in_container u now config s :
  0 < c_bucket_count config →
  rtc step (mkState (bbr_new in_container u now config) ∅ now) s →
  in_flight (rolling_window (bbr s)) = Z.of_nat (size (pcs s)) ∧
  Z.of_nat (List.length (ring (rolling_window (bbr s)))) ≤ c_bucket_count config ∧
  Forall (λ x, 0 < pass x) (ring (rolling_window (bbr s))).
Proof.
  intros Hn Hrtc. assert (consistent (c_bucket_count config) s) as [Hc _ _ Hl Hs _].
  { revert Hrtc. apply (rtc_ind_r (λ s, consistent (c_bucket_count config) s)).
    - split; simpl; try done; (rewrite ?map_size_empty; unfold u_max; lia).
    - intros s1 s2 _ Hstep Hcons. by eapply step_consistent. }
  split_and!; [done|done|]. eapply Forall_impl; [exact Hs|]. by intros x [? _].
Qed.

(** A request that nothing interleaves with does what [acquire] does. *)
Lemma acquire_steps now now' i s :
  pcs s !! i = None → time s ≤ now ≤ now' → Z.of_nat (size (pcs s)) + 1 < u_max 64 →
  let '(r, b) := acquire now now' (bbr s) in
  rtc step s (mkState b (match r with Some t => <[i := Handling t]> (pcs s) | None => pcs s end) now').
Proof.
  intros Hi Ht Hroom.
  assert (∀ b pc t t' s', t ≤ t' → rtc step (step_of t' i (mkState b (<[i := pc]> (pcs s)) t)) s' →
    rtc step (mkState b (<[i := pc]> (pcs s)) t) s') as Hgo.
  { intros b pc t t' s' Htt Hrtc. eapply rtc_l; [|exact Hrtc]. apply step_request; [done|]. simpl. rewrite map_size_insert, Hi. lia. }
  assert (∀ (P : gmap nat Pc → Prop) pc, P (pcs s) → P (delete i (<[i := pc]> (pcs s)))) as Hdel.
  { intros P pc HP. by rewrite delete_insert_id. }
  unfold acquire, should_shed. set (b1 := set_window (add_in_flight (rolling_window (bbr s))) (bbr s)).
  destruct (is_in_cooldown now b1) eqn:Ecool; [|destruct (is_overloaded (overload_collector b1)) eqn:Eo; [destruct (exceeds b1) eqn:Ee|]]; cbn [negb].
  all: eapply rtc_l; [apply (step_request now i); lia|]; unfold step_of at 1; rewrite Hi; fold b1.
  all: apply (Hgo _ _ _ now); [lia|]; unfold step_of at 1; cbn [pcs bbr]; rewrite lookup_insert_eq, insert_insert_eq, Ecool.
  - apply (Hgo _ _ _ now'); [lia|]. unfold step_of. cbn [pcs bbr]. rewrite lookup_insert_eq. by apply (Hdel (λ m, rtc step (mkState _ m _) _)).
  - apply (Hgo _ _ _ now); [lia|]; unfold step_of at 1; cbn [pcs bbr]; rewrite lookup_insert_eq, insert_insert_eq, Eo.
    apply (Hgo _ _ _ now); [lia|]; unfold step_of at 1; cbn [pcs bbr]; rewrite lookup_insert_eq, insert_insert_eq, Ee.
    apply (Hgo _ _ _ now'); [lia|]; unfold step_of at 1; cbn [pcs bbr]; rewrite lookup_insert_eq, insert_insert_eq.
    apply (Hgo _ _ _ now'); [lia|]. unfold step_of. cbn [pcs bbr]. rewrite lookup_insert_eq. by apply (Hdel (λ m, rtc step (mkState _ m _) _)).
  - apply (Hgo _ _ _ now); [lia|]; unfold step_of at 1; cbn [pcs bbr]; rewrite lookup_insert_eq, insert_insert_eq, Eo.
    apply (Hgo _ _ _ now); [lia|]; unfold step_of at 1; cbn [pcs bbr]; rewrite lookup_insert_eq, insert_insert_eq, Ee.
    apply (Hgo _ _ _ now'); [lia|]; unfold step_of at 1; cbn [pcs bbr]; by rewrite lookup_insert_eq, insert_insert_eq.
  - apply (Hgo _ _ _ now); [lia|]; unfold step_of at 1; cbn [pcs bbr]; rewrite lookup_insert_eq, insert_insert_eq, Eo.
    apply (Hgo _ _ _ now'); [lia|]; unfold step_of at 1; cbn [pcs bbr]; by rewrite lookup_insert_eq, insert_insert_eq.
Qed.

(** ** An estimate of zero *)

(** The requests that have not been admitted. *)
Definition waiting (pc : Pc) : Prop := match pc with Granted | Handling _ | Leaving => False | _ => True end.

Record starved (r : list Sample) (n : Z) (s : State) : Prop := {
  s_count : in_flight (rolling_window (bbr s)) = Z.of_nat (size (pcs s));
  s_size : Z.of_nat (size (pcs s)) ≤ u_max 64;
  s_ring : ring (rolling_window (bbr s)) = r;
  s_buckets : bucket_count (rolling_window (bbr s)) = n;
  s_waiting : map_Forall (λ _, waiting) (pcs s);
}.

Lemma starved_exceeds r n p m s i :
  (∀ w, ring w = r → ∃ f, get_stats w = (p, m, f)) → p ≠ 0 → estimated_limit p m n = 0 →
  starved r n s → is_Some (pcs s !! i) → exceeds (bbr s) = true.
Proof.
  intros Hst Hp He [Hc Hsz Hr Hb Hw] [pc Hi]. pose proof (size_left _ _ _ Hi) as Hsl. unfold exceeds.
  destruct (Hst _ Hr) as [f Hf]. rewrite Hf, Hb, He.
  assert (f = in_flight (rolling_window (bbr s))) as -> by (revert Hf; unfold get_stats; destruct (foldl _ _ _); by intros [= _ _ <-]).
  destruct (Z.eqb_spec p 0); [done|]. destruct (Z.eqb_spec (in_flight (rolling_window (bbr s))) 0); [lia|]. simpl.
  apply negb_true_iff, Z.leb_gt. lia.
Qed.

Lemma step_starved r n p m s s' :
  (∀ w, ring w = r → ∃ f, get_stats w = (p, m, f)) → p ≠ 0 → estimated_limit p m n = 0 →
  is_overloaded (overload_collector (bbr s)) = true → starved r n s → step s s' → starved r n s'.
Proof.
  intros Hst Hp He Hover Hstarved Hstep. pose proof (λ i, starved_exceeds r n p m s i Hst Hp He Hstarved) as Hex.
  destruct Hstep as [now i s1 Ht Hroom|u s1]; destruct Hstarved as [Hc Hsz Hr Hb Hw]; [|by split].
  unfold step_of. destruct (pcs s1 !! i) as [pc|] eqn:Hi.
  2:{ split; try done; cbn [pcs bbr]; rewrite ?map_size_insert, ?Hi; [|lia|].
      - change (in_flight (add_in_flight (rolling_window (bbr s1))) = Z.of_nat (S (size (pcs s1)))).
        rewrite in_flight_added by lia. lia.
      - by apply map_Forall_insert_2. }
  assert (∀ pc' b, rolling_window b = rolling_window (bbr s1) → waiting pc' →
    starved r n (mkState b (<[i := pc']> (pcs s1)) now)) as Hgoto.
  { intros pc' b Hwin Hpc. split; cbn [pcs bbr]; rewrite ?Hwin, ?(size_moved _ _ _ _ Hi); try done. by apply map_Forall_insert_2. }
  pose proof (Hw i pc Hi) as Hpc. destruct pc; try done; try (by apply Hgoto).
  - apply Hgoto; [done|]. by destruct (is_in_cooldown _ _).
  - apply Hgoto; [done|]. by rewrite Hover.
  - apply Hgoto; [done|]. by rewrite (Hex i) by (by rewrite Hi).
  - pose proof (size_left _ _ _ Hi) as Hsl. split; try done; cbn [pcs bbr]; rewrite ?Hsl; [|lia|by apply map_Forall_delete].
    change (in_flight (sub_in_flight (rolling_window (bbr s1))) = Z.of_nat (size (pcs s1)) - 1).
    rewrite in_flight_removed by lia. lia.
Qed.

End limiter.

(** ** A concrete limiter *)
Module BbrWitness.
#[local] Instance keep_last : RingBuf := λ capacity l x,
  (if decide (List.length l < capacity)%nat then l else tail l) ++ [x].
#[local] Instance keep_last_laws : RingBufLaws.
Proof. by intros capacity l x _ _. Qed.

(** Three requests of 80, 50 and 20 milliseconds, the third in a bucket of its own. *)
Definition events : list (Z * Z) := [(10, 80); (20, 50); (300000000, 20)].
Lemma window_refines_history_witness :
  get_stats (foldl (λ w ev, add ev.1 ev.2 w) (window_new 0 50 200000000) events) = (2, 50, 0).
Proof.
  destruct (window_refines_history 0 50 200000000 events) as [_ Hst]; [done| |unfold u_max; simpl; lia|].
  - unfold u_max. repeat (apply Forall_cons; split; [simpl; lia|]). apply Forall_nil_2.
  - rewrite Hst. reflexivity.
Defined.

(** A quiet limiter on a machine whose memory is in use to 95 percent. *)
Definition usage : Usage := mkUsage None (F64.of_u64 5) None (F64.of_u64 95).
Definition quiet : BBR :=
  set_window (mkWindow [mkSample 9 1] 50 200000000 (0, 0, u_max 64) 0) (bbr_new false usage 0 default_config).

Lemma acquire_decision_witness : ∃ b, acquire 1 2 quiet = (None, b) ∧ shed_at b = Some 2.
Proof.
  exists (set_shed_at 2 quiet). split; [|reflexivity]. eapply (acquire_decision 1 2 quiet 9 1 0).
  - by apply Forall_singleton.
  - done.
  - unfold u_max. simpl. lia.
  - reflexivity.
  - simpl. lia.
  - reflexivity.
  - split; [vm_compute; reflexivity|]. split; [done|]. vm_compute. reflexivity.
Defined.

Lemma in_flight_exact_witness :
  in_flight (rolling_window (bbr (step_of 1 0 (mkState (bbr_new false usage 0 default_config) ∅ 0)))) = 1.
Proof.
  destruct (in_flight_exact false usage 0 default_config (step_of 1 0 (mkState (bbr_new false usage 0 default_config) ∅ 0)))
    as [Hin _]; [done| |exact Hin].
  apply rtc_once, step_request; [done|]. simpl. rewrite map_size_empty. unfold u_max. lia.
Defined.

End BbrWitness.
End BbrFacts.
