(* ===== verification/PersistentUpload.v ===== *)
(** * Uploading persistent tasks

    Models [upload] and [upload_content] of
    [src/dragonfly-client/src/resource/persistent_task.rs] and [persistent_cache_task.rs]: a
    local file becomes a persistent task, with its pieces in the storage and, for a
    persistent task, its content at the source.

    The file, the space on the disk, the hard link, the back-end and the answers of the
    scheduler are input.  The tasks of a [JoinSet] run one after the other in the order in
    which they complete.  A [JoinSet] that is shut down or dropped aborts its other tasks, but
    an abort takes effect only when a task yields: some of them ([late]) complete all the
    same, before [shutdown] returns, or, since a drop does not wait, after the code that runs
    next. *)

From S2P Require Import Prelude Errors LruCache MetadataTypes Cache Engine Metadata Storage PieceCalc PieceDownload.
From Stdlib Require Import ZArith Lia String Strings.Byte.
From stdpp Require Import base tactics list gmap strings.
Import Storage.
Local Open Scope Z_scope.

(** [UploadPersistentTaskRequest] and [UploadPersistentCacheTaskRequest], the fields that are
    read; only the one of the cache has a piece length. *)
Record UploadRequest := mkUploadRequest {
  ttl : option (Result Duration);
  fixed_piece_length : option Z;
}.

(** What the scheduler is told. *)
Inductive Report : Type :=
| UploadStarted (content_length piece_count : Z)
| UploadFinished
| UploadFailed (e : DFError).

(** [backend::PutResponse], the fields that are read. *)
Record PutResponse := mkPutResponse { put_success : bool; put_error_message : option string }.

Module PersistentUpload.
Section upload.
Context {E : Type} `{Operations E} `{MetadataBincode} (clock : nat → NaiveDateTime).
Context {L : Type} `{LruApi string Cache.CTask L}.
Context {C : Type} `{Content C}.
Local Notation Storage := (Storage.Storage (E := E) (L := L) (C := C)).
Local Notation R := (Storage.R (E := E) (L := L) (C := C)).

(** [config.gc.policy.persistent_cache_task_ttl], and [prost_wkt_types::Duration::try_from]. *)
Context (default_ttl : Duration) (to_prost : Duration → Result unit).
(** The metadata of the file, and opening it at an offset. *)
Context (file_length : Result Z) (open_at : Z → Result Bytes).
(** [Content::has_enough_space] and the hard link of the file into the task. *)
Context (has_enough_space : C → Z → Result bool) (hard_link : PersistentKind → string → ST C DFError unit).
(** The answer of the scheduler to its [n]-th report; what it says of a finished task. *)
Context (scheduler : nat → Report → Result unit).
(** The order in which the tasks of a [JoinSet] complete. *)
Context (completion : list Piece → list Piece) (fuel : nat).

(** The storage, and the reports so far. *)
Record World := mkWorld { store : Storage; reports : list Report }.
Definition UM (A : Type) : Type := PR World DFError A.
#[global] Instance um_mret : MRet UM := λ A, pr_mret A.
#[global] Instance um_mbind : MBind UM := λ A B, pr_mbind A B.

Definition in_store {A} (m : R A) : UM A := pr_zoom store (λ x s, mkWorld x (reports s)) m.
Definition report (m : Report) : UM unit := λ s,
  Some (scheduler (List.length (reports s)) m, mkWorld (store s) (reports s ++ [m])).

(** ** The pieces *)

(** [register_persistent_piece] and [register_persistent_cache_piece]. *)
Definition register_piece (k : PersistentKind) (tid : string) (p : Piece) : UM Piece :=
  in_store (PieceDownload.register_persistent clock k (Metadata.piece_id tid (Piece.number p)) (Piece.number p)
              (Piece.offset p) (Piece.length p)).

(** [create_persistent_piece] and [create_persistent_cache_piece]. *)
Definition create_piece (k : PersistentKind) (tid : string) (p : Piece) : UM Piece :=
  bytes ← pr_lift (open_at (Piece.offset p));
  in_store (PieceDownload.create_persistent clock k (Metadata.piece_id tid (Piece.number p)) tid (Piece.number p)
              (Piece.offset p) (Piece.length p) (take (Z.to_nat (Piece.length p)) bytes)).

(** Of the tasks that are aborted, the ones that complete all the same. *)
Context (late : list nat).
Definition complete_late (running : list (UM Piece)) : UM unit :=
  pr_for (λ task, _ ← pr_catch task; mret tt) (omap (λ i, running !! i) late).

(** The join loop: all pieces, or the tasks that run when the import is dropped; [budget] is
    how many more tasks complete before it is, if it is. *)
Inductive Import : Type := AllPieces (finished : list Piece) | Dropped (running : list (UM Piece)).
Fixpoint import (one : Piece → UM Piece) (l : list Piece) (budget : option nat) (finished : list Piece) : UM Import :=
  match l with
  | [] => mret (AllPieces finished)
  | p :: rest =>
      match budget with
      | Some O => mret (Dropped (one <$> l))
      | _ =>
          r ← pr_catch (one p);
          match r with
          | Ok metadata => import one rest (pred <$> budget) (finished ++ [metadata])
          | Err err => _ ← complete_late (one <$> rest); pr_throw err
          end
      end
  end.

Definition import_all (one : Piece → UM Piece) (interested_pieces : list Piece) (budget : option nat) (message : string)
    : UM Import :=
  r ← import one (completion interested_pieces) budget [];
  match r with
  | Dropped running => mret r
  | AllPieces finished_pieces =>
      if negb (List.length finished_pieces =? List.length interested_pieces)%nat then pr_throw (Unknown message)
      else mret r
  end.

(** [upload_content_to_local] of a persistent task and [upload_content] of a persistent cache
    task. *)
Definition upload_content_to_local (k : PersistentKind) (tid : string) (piece_length content_length : Z)
    (budget : option nat) (message : string) : UM Import :=
  r ← pr_expect (PieceCalc.calculate_interested clock fuel piece_length content_length None);
  interested_pieces ← pr_lift r;
  match budget with
  | Some O => mret (Dropped [])
  | _ =>
      linked ← pr_catch (in_store (in_content (hard_link k tid)));
      if is_ok linked then import_all (register_piece k tid) interested_pieces (pred <$> budget) message
      else
        _ ← in_store (create_ptask k tid content_length);
        import_all (create_piece k tid) interested_pieces (pred <$> budget) message
  end.

(** [upload_content_to_source]. *)
Context (put : Result PutResponse).
Definition upload_content_to_source : Result unit :=
  match put with
  | Err e => Err e
  | Ok response =>
      if put_success response then Ok tt else Err (BackendError (default "" (put_error_message response)))
  end.

(** [PersistentTask::upload_content]: [try_join!] of the two, where a failure of the source
    drops the import after [budget] of its steps; with the tasks that were running then. *)
Definition upload_content (tid : string) (piece_length content_length : Z) (budget : nat)
    : UM (Result unit * list (UM Piece)) :=
  let source := upload_content_to_source in
  r ← pr_catch (upload_content_to_local KPersistent tid piece_length content_length
                  (if is_ok source then None else Some budget) "not all persistent pieces are imported");
  mret (match r with
        | Err e => (Err e, [])
        | Ok (AllPieces _) => (source, [])
        | Ok (Dropped running) => (source, running)
        end).

(** [PersistentCacheTask::upload_content]. *)
Definition cache_upload_content (tid : string) (piece_length content_length : Z) : UM (Result unit) :=
  r ← pr_catch (upload_content_to_local KPersistentCache tid piece_length content_length None
                  "not all persistent cache pieces are imported");
  mret (match r with Err e => Err e | Ok _ => Ok tt end).

(** ** The whole upload *)

(** A failure: the task is deleted and the scheduler told; [running] are tasks that were
    aborted just before. *)
Definition abandon (k : PersistentKind) (tid : string) (e : DFError) (running : list (UM Piece)) : UM (PTask.PTask k) :=
  _ ← in_store (create_ptask_failed k tid);
  _ ← complete_late running;
  _ ← report (UploadFailed e);
  pr_throw e.

Definition content_of (k : PersistentKind) (tid : string) (piece_length content_length : Z) (budget : nat)
    : UM (Result unit * list (UM Piece)) :=
  match k with
  | KPersistent => upload_content tid piece_length content_length budget
  | KPersistentCache => r ← cache_upload_content tid piece_length content_length; mret (r, [])
  end.

(** The piece length; only the cache lets the client fix it. *)
Definition chosen_piece_length (k : PersistentKind) (request : UploadRequest) (content_length : Z) : Z :=
  PieceCalc.calculate_piece_length
    (match k, fixed_piece_length request with
     | KPersistentCache, Some piece_length => PieceCalc.FixedPieceLength piece_length
     | _, _ => PieceCalc.OptimizeByFileLength content_length
     end).

(** [PersistentTask::upload] and [PersistentCacheTask::upload]. *)
Definition upload (k : PersistentKind) (tid : string) (request : UploadRequest) (budget : nat) : UM (PTask.PTask k) :=
  ttl ← pr_lift (match ttl request with Some r => or_err ParseError r | None => Ok default_ttl end);
  content_length ← pr_lift file_length;
  let piece_length := chosen_piece_length k request content_length in
  _ ← pr_lift (or_err ParseError (to_prost ttl));
  _ ← report (UploadStarted content_length (PieceCalc.calculate_piece_count piece_length content_length));
  enough ← ((λ s, Some (has_enough_space (content (store s)) content_length, s)) : UM bool);
  if negb (enough : bool) then pr_throw (NoSpace "not enough space to store the task")
  else
    _ ← in_store (create_ptask_started clock k tid ttl piece_length content_length);
    '(r, running) ← content_of k tid piece_length content_length budget;
    match r with
    | Err e => abandon k tid e running
    | Ok _ =>
        finished ← pr_catch (in_store (create_ptask_finished clock k tid));
        match finished with
        | Err e => abandon k tid e []
        | Ok metadata =>
            a ← pr_catch (report UploadFinished);
            match a with
            | Err e => abandon k tid e []
            | Ok _ => mret metadata
            end
        end
    end.
Definition persistent_upload := upload KPersistent.
Definition cache_upload := upload KPersistentCache.
End upload.
End PersistentUpload.
