(* ===== verification/PersistentUploadFacts.v ===== *)
(** * Facts about uploading persistent tasks

    An upload that succeeds has its task and every piece on record and finished, and the
    scheduler knows; one that fails once it has begun to write deletes what it
    wrote, if the database can, and tells the scheduler, which is not told when there is no space.  Pieces whose
    import outlives the dropped [JoinSet] may stay on record. *)

From S2P Require Import Prelude Errors LruCache MetadataTypes Cache Engine Metadata MetadataFacts Storage StorageFacts PieceCalc TaskDownloadFacts PieceDownload PersistentUpload.
From Stdlib Require Import ZArith Lia String Strings.Byte.
From stdpp Require Import base tactics list gmap strings.
Import Storage.
Local Open Scope Z_scope.

Module PersistentUploadFacts.
Import StorageFacts PersistentUpload.
Section facts.
Context {E : Type} `{OperationsLaws E} `{MetadataBincodeLaws} (clock : nat → NaiveDateTime).
Context {L : Type} `{!LruApi string Cache.CTask L} `{!LruSpec string Cache.CTask L}.
Context {C : Type} `{!Content C}.
Local Notation Storage := (Storage.Storage (E := E) (L := L) (C := C)).
Local Notation World := (PersistentUpload.World (E := E) (L := L) (C := C)).
Local Notation UM := (PersistentUpload.UM (E := E) (L := L) (C := C)).
Local Notation Metadata := (Metadata.Metadata E).
Context (default_ttl : Duration) (to_prost : Duration → Result unit) (file_length : Result Z) (open_at : Z → Result Bytes).
Context (has_enough_space : C → Z → Result bool) (hard_link : PersistentKind → string → ST C DFError unit).
Context (scheduler : nat → Report → Result unit).
Context (completion : list Piece → list Piece) (fuel : nat) (late : list nat) (put : Result PutResponse).
Local Notation md s := (metadata (store s)).

(** ** One piece *)

(** [q] is the finished record of the interested piece [p]. *)
Definition record_of (p q : Piece) : Prop :=
  Piece.is_finished q = true ∧ Piece.number q = Piece.number p ∧ Piece.offset q = Piece.offset p ∧
  Piece.length q = Piece.length p.
Definition pid (tid : string) (p : Piece) : string := Metadata.piece_id tid (Piece.number p).

Lemma create_piece_Ok k id n off len dig (m m' : Metadata) q :
  (match k with
   | KPersistent => Metadata.create_persistent_piece
   | KPersistentCache => Metadata.create_persistent_cache_piece
   end clock id n off len dig) m = (Ok q, m') →
  MetadataFacts.holds m' id q ∧ MetadataFacts.only_at "piece" (as_bytes id) m m' ∧
  Piece.is_finished q = true ∧ Piece.number q = n ∧ Piece.offset q = off ∧ Piece.length q = len.
Proof.
  intros Hrun. destruct k; unfold Metadata.create_persistent_piece, Metadata.create_persistent_cache_piece in Hrun;
    cbv [mbind st_mbind Metadata.now] in Hrun; simpl in Hrun;
    destruct (Metadata.db_put id _ _) as [[[]|e] m1] eqn:Hput; try done; injection Hrun as <- <-;
    apply MetadataFacts.db_put_Ok in Hput as (Hh & Ho & _); (split; [exact Hh|]); (split; [exact Ho|done]).
Qed.

Lemma create_piece_only k id n off len dig (m m' : Metadata) r :
  (match k with
   | KPersistent => Metadata.create_persistent_piece
   | KPersistentCache => Metadata.create_persistent_cache_piece
   end clock id n off len dig) m = (r, m') → MetadataFacts.only_at "piece" (as_bytes id) m m'.
Proof.
  intros Hrun. destruct k; unfold Metadata.create_persistent_piece, Metadata.create_persistent_cache_piece in Hrun;
    cbv [mbind st_mbind Metadata.now] in Hrun; simpl in Hrun;
    match type of Hrun with context [Metadata.db_put ?i ?o ?x] => destruct (Metadata.db_put i o x) as [x1 m1] eqn:Hput end;
    assert (m' = m1) as -> by (by destruct x1; injection Hrun as _ <-);
    apply MetadataFacts.db_put_inv in Hput as (_ & _ & [[_ Hr]|(b & _ & Hr)]); intros key Hkey; rewrite Hr;
    [done|by rewrite lookup_insert_ne|done|by rewrite lookup_insert_ne].
Qed.

(** What importing the piece [p] does. *)
Definition adds (tid : string) (p : Piece) (s s' : World) : Prop :=
  (∃ q, MetadataFacts.holds (md s') (pid tid p) q ∧ record_of p q) ∧
  MetadataFacts.only_at "piece" (as_bytes (pid tid p)) (md s) (md s').
Definition importer (tid : string) (one : Piece → UM Piece) : Prop := ∀ p s,
  wp (one p) (λ r s', reports s' = reports s ∧ MetadataFacts.only_at "piece" (as_bytes (pid tid p)) (md s) (md s') ∧
    ∀ q, r = Ok q → adds tid p s s') s.

Lemma register_imports k tid : importer tid (register_piece clock k tid).
Proof.
  intros p s. unfold register_piece, in_store. apply wp_zoom. unfold wp, PieceDownload.register_persistent, register_ppiece, in_metadata.
  match goal with |- context [?f (metadata (store s))] => destruct (f (metadata (store s))) as [r m'] eqn:Hm end. split; [done|].
  split; [by eapply create_piece_only|]. intros q ->. apply create_piece_Ok in Hm as (Hh & Ho & Hq). split; [by exists q|done].
Qed.

Lemma create_imports k tid : importer tid (create_piece clock open_at k tid).
Proof.
  intros p s. unfold create_piece. apply wp_bind_lift; [|done]. intros bytes _. unfold in_store. apply wp_zoom.
  unfold wp, PieceDownload.create_persistent, create_ppiece. cbv [mbind r_mbind pr_mbind in_content].
  destruct (content_write_piece _ _ _ _ _ _) as [[resp|e] c]; [|done]. unfold in_metadata. cbn [metadata set_content].
  match goal with |- context [?f (metadata (store s))] => destruct (f (metadata (store s))) as [r m'] eqn:Hm end. split; [done|].
  split; [by eapply create_piece_only|]. intros q ->. apply create_piece_Ok in Hm as (Hh & Ho & Hq). split; [by exists q|done].
Qed.

(** ** Tasks that complete although they were aborted *)

(** Nothing but records of the pieces [l] of the task is written. *)
Definition touches (tid : string) (l : list Piece) (s s' : World) : Prop :=
  reports s' = reports s ∧
  ∀ key, MetadataFacts.raw (md s') !! key = MetadataFacts.raw (md s) !! key ∨
    ∃ p, p ∈ l ∧ key = ("piece", as_bytes (pid tid p)).
#[local] Instance touches_preorder tid l : PreOrder (touches tid l).
Proof.
  split; [split; [done|by left]|]. intros s1 s2 s3 [Hr1 Hk1] [Hr2 Hk2]. split; [congruence|]. intros key.
  destruct (Hk2 key) as [->|?]; [|by right]. apply Hk1.
Qed.

Definition tasks_of (tid : string) (l : list Piece) (running : list (UM Piece)) : Prop :=
  ∃ one ps, importer tid one ∧ running = one <$> ps ∧ ps ⊆ l.

Lemma wp_complete_late tid l running s :
  (late ≠ [] → tasks_of tid l running) → wp (complete_late late running) (λ r s', r = Ok tt ∧ touches tid l s s') s.
Proof.
  intros Hrun. unfold complete_late. destruct (decide (late = [])) as [->|Hne]; [by split|].
  destruct (Hrun Hne) as (one & ps & Hone & -> & Hps).
  eapply wp_mono; [apply (wp_for _ _ (λ s', touches tid l s s') (λ _ _, False)); [reflexivity|]|by intros [[]|e] s'].
  intros task s1 (i & _ & Hi)%list_elem_of_omap Ht. rewrite list_lookup_fmap in Hi.
  destruct (ps !! i) as [p|] eqn:Ep; [|done]. injection Hi as <-.
  apply wp_bind_catch. eapply wp_mono; [apply Hone|]. intros r s2 (Hr & Ho & _). unfold wp, mret, um_mret, pr_mret. etrans; [exact Ht|]. split; [done|].
  intros key. destruct (decide (key = ("piece", as_bytes (pid tid p)))) as [->|Hk]; [|left; by apply Ho].
  right. exists p. split; [|done]. by eapply Hps, list_elem_of_lookup_2.
Qed.

(** ** All pieces *)

Definition imported (tid : string) (l : list Piece) (s : World) : Prop :=
  ∀ p, p ∈ l → ∃ q, MetadataFacts.holds (md s) (pid tid p) q ∧ record_of p q.

Lemma imported_adds tid p l s s' :
  0 ≤ Piece.number p → TaskDownloadFacts.numbered l → Piece.number p ∉ Piece.number <$> l →
  imported tid l s → adds tid p s s' → imported tid (l ++ [p]) s'.
Proof.
  intros Hp Hl Hnew Hi [Hq Ho] p' [Hin| ->%list_elem_of_singleton]%elem_of_app; [|done].
  destruct (Hi p' Hin) as (q & (b & Hb & Hd) & Hr). exists q. split; [|done]. exists b. split; [|done].
  rewrite <-Hb. apply Ho. intros [= Heq%as_bytes_inj].
  apply (proj1 (PieceId.piece_id_unambiguous tid tid _ _ eq_refl (proj1 (Forall_forall _ _) Hl p' Hin) Hp)) in Heq as [_ Heq].
  apply Hnew. rewrite <-Heq. by apply list_elem_of_fmap_2.
Qed.

(** What an import gives: every piece of [l], or, if it can be dropped, the tasks that run. *)
Definition import_post (tid : string) (l : list Piece) (budget : option nat) (s : World) (r : Result Import) (s' : World) : Prop :=
  reports s' = reports s ∧
  match r with
  | Ok (AllPieces f) => imported tid l s' ∧ List.length f = List.length l
  | Ok (Dropped running) => budget ≠ None ∧ tasks_of tid l running
  | Err _ => True
  end.

Lemma wp_import tid one l budget finished done_ s :
  importer tid one → TaskDownloadFacts.numbered (done_ ++ l) → NoDup (Piece.number <$> done_ ++ l) →
  imported tid done_ s → List.length finished = List.length done_ →
  wp (import late one l budget finished) (import_post tid (done_ ++ l) budget s) s.
Proof.
  intros Hone. induction l as [|p l IH] in budget, finished, done_, s |- *; intros Hnum Hnd Hi Hlen; cbn [import].
  { rewrite app_nil_r. split; [done|]. by split. }
  assert (∀ budget, wp (r ← pr_catch (one p);
      match r with
      | Ok metadata => import late one l budget (finished ++ [metadata])
      | Err err => _ ← complete_late late (one <$> l); pr_throw err
      end) (import_post tid (done_ ++ p :: l) budget s) s) as Hgo.
  { intros b. apply wp_bind_catch. eapply wp_mono; [apply Hone|]. intros [q|e] s1 (Hr & _ & Ha).
    - specialize (Ha q eq_refl). replace (done_ ++ p :: l) with ((done_ ++ [p]) ++ l) in * by (by rewrite <-app_assoc).
      eapply wp_mono; [apply (IH b (finished ++ [q]) (done_ ++ [p])); try done|].
      + apply Forall_app in Hnum as [Hn _]. apply Forall_app in Hn as [Hn Hp]. apply Forall_cons in Hp as [Hp _].
        rewrite fmap_app in Hnd. apply NoDup_app in Hnd as [Hnd _]. rewrite fmap_app in Hnd. apply NoDup_app in Hnd as (_ & Hnd & _).
        apply (imported_adds tid p done_ s s1 Hp Hn); [|exact Hi|exact Ha]. intros Hin. eapply Hnd; [exact Hin|]. apply list_elem_of_fmap_2. by left.
      + rewrite !length_app. simpl. lia.
      + intros r s2 [Hr2 Hf]. split; [by rewrite Hr2|done].
    - apply wp_bind. eapply wp_mono; [apply (wp_complete_late tid l); by exists one, l|]. intros r s2 [-> [Hr2 _]].
      split; [by rewrite Hr2|done]. }
  destruct budget as [[|b]|]; [|eapply wp_mono; [apply Hgo|]; intros [[f|running]|e] s' [? Hx]; (split; [done|]);
    [exact Hx|split; [done|apply Hx]|done]|apply Hgo].
  split; [done|]. split; [done|]. exists one, (p :: l). split; [done|]. split; [done|]. intros x Hx. apply elem_of_app. by right.
Qed.

Context (Hcompletion : ∀ l, completion l ≡ₚ l).

Lemma wp_import_all tid one l budget msg s :
  importer tid one → TaskDownloadFacts.numbered l → NoDup (Piece.number <$> l) →
  wp (import_all completion late one l budget msg) (import_post tid l budget s) s.
Proof.
  intros Hone Hnum Hnd. unfold import_all. apply wp_bind.
  eapply wp_mono; [apply (wp_import tid one (completion l) budget [] [] s Hone); simpl|].
  - unfold TaskDownloadFacts.numbered. by rewrite Hcompletion.
  - by rewrite Hcompletion.
  - by intros p ?%not_elem_of_nil.
  - done.
  - simpl. intros [[f|running]|e] s1 [Hr Hf]; [| |done].
    + destruct Hf as [Hi Hl]. rewrite Hcompletion in Hl. rewrite Hl, Nat.eqb_refl. split; [done|]. split; [|done].
      intros p Hp. apply Hi. by rewrite Hcompletion.
    + split; [done|]. destruct Hf as [Hb (one' & ps & Ho & -> & Hps)]. split; [done|]. exists one', ps.
      split; [done|]. split; [done|]. intros x Hx%Hps. by rewrite <-Hcompletion.
Qed.

Local Notation to_local := (upload_content_to_local clock open_at hard_link completion fuel late).

Lemma wp_to_local k tid pl cl budget msg interested s :
  PieceCalc.calculate_interested clock fuel pl cl None = Some (Ok interested) → NoDup (Piece.number <$> interested) →
  wp (to_local k tid pl cl budget msg) (import_post tid interested budget s) s.
Proof.
  intros Hint Hnd. pose proof (TaskDownloadFacts.calculate_interested_numbered _ _ _ _ _ _ Hint) as Hnum.
  unfold upload_content_to_local. rewrite Hint. apply wp_bind. cbn.
  assert (∀ budget, wp (linked ← pr_catch (in_store (in_content (hard_link k tid)));
    if is_ok linked then import_all completion late (register_piece clock k tid) interested budget msg
    else _ ← in_store (create_ptask k tid cl); import_all completion late (create_piece clock open_at k tid) interested budget msg)
    (import_post tid interested budget s) s) as Hgo.
  { intros b. apply wp_bind_catch, wp_zoom. unfold wp at 1, in_content. destruct (hard_link k tid _) as [linked c].
    destruct (is_ok linked).
    - eapply wp_mono; [apply (wp_import_all tid); [apply register_imports|done|done]|]. done.
    - apply wp_bind, wp_zoom. unfold wp at 1, create_ptask, in_content. destruct (content_create_task _ _ _ _) as [[[]|e] c']; [|done].
      eapply wp_mono; [apply (wp_import_all tid); [apply create_imports|done|done]|]. done. }
  destruct budget as [[|b]|]; [|eapply wp_mono; [apply Hgo|]; intros [[f|running]|e] s' [? Hx]; (split; [done|]);
    [exact Hx|split; [done|apply Hx]|done]|apply Hgo].
  split; [done|]. split; [done|]. exists (register_piece clock k tid), []. split; [apply register_imports|]. split; [done|].
  by intros x ?%not_elem_of_nil.
Qed.

(** ** The end of an upload *)
Lemma ptask_namespace k : NAMESPACE (O := PTask.PTask k) ≠ "piece".
Proof. by destruct k. Qed.

Lemma finished_Ok k tid (m m' : Metadata) t :
  Metadata.create_ptask_finished clock k tid m = (Ok t, m') →
  MetadataFacts.holds m' tid t ∧ is_Some (PTask.finished_at t) ∧
  MetadataFacts.only_at (NAMESPACE (O := PTask.PTask k)) (as_bytes tid) m m'.
Proof.
  intros (t0 & m1 & _ & Hf & Hh & Ho & _)%MetadataFacts.update_task_Ok.
  apply st_bind_Ok in Hf as (x & m2 & Hnow & Hf). cbv [Metadata.now] in Hnow. injection Hnow as _ <-.
  pose proof (MetadataFacts.finish_if_unfinished_spec clock _ _ _ _ Hf) as (Hfin & _ & _). split; [done|]. split; [done|].
  intros key Hkey. rewrite (Ho key Hkey). unfold Metadata.finish_if_unfinished in Hf.
  destruct (PTask.finished_at _); cbv [mbind st_mbind Metadata.now mret st_mret] in Hf; simpl in Hf; by injection Hf as _ <-.
Qed.

Lemma imported_only k tid l (s : World) m :
  imported tid l s → MetadataFacts.only_at (NAMESPACE (O := PTask.PTask k)) (as_bytes tid) (md s) m →
  imported tid l (mkWorld (set_metadata m (store s)) (reports s)).
Proof.
  intros Hi Ho p Hp. destruct (Hi p Hp) as (q & (b & Hb & Hd) & Hr). exists q. split; [|done]. exists b. split; [|done].
  rewrite <-Hb. apply Ho. intros [= Hns _]. by destruct (ptask_namespace k).
Qed.

(** The database can delete the task and its pieces. *)
Definition deletes (k : PersistentKind) (tid : string) : Prop := ∀ m : Metadata,
  (Metadata.delete_ptask k tid m).1 = Ok tt ∧ (Metadata.delete_pieces tid m).1 = Ok tt.

(** The record of the task is gone, and so is every record of a piece of it, except for
    those of the pieces [left]. *)
Definition removed (k : PersistentKind) (tid : string) (left : list Piece) (m' : Metadata) : Prop :=
  MetadataFacts.absent (PTask.PTask k) m' tid ∧
  ∀ key, as_bytes tid `prefix_of` key → MetadataFacts.raw m' !! ("piece", key) = None ∨
    ∃ p, p ∈ left ∧ key = as_bytes (pid tid p).

Lemma removed_touches k tid left s s' : removed k tid [] (md s) → touches tid left s s' → removed k tid left (md s').
Proof.
  intros [Ha Hp] [_ Ht]. split.
  - unfold MetadataFacts.absent in *. destruct (Ht (NAMESPACE (O := PTask.PTask k), as_bytes tid)) as [->|(p & _ & [= Hns _])]; [done|].
    by destruct (ptask_namespace k).
  - intros key Hkey. destruct (Ht ("piece", key)) as [->|(p & Hin & [= ->])]; [|right; by exists p].
    left. destruct (Hp key Hkey) as [?|(p & Hnil & _)]; [done|]. by apply not_elem_of_nil in Hnil.
Qed.

Lemma wp_abandon k tid e running left (s : World) :
  String.length tid = 64%nat → deletes k tid → (late ≠ [] → tasks_of tid left running) →
  wp (abandon scheduler late k tid e running) (λ r s', is_ok r = false ∧ reports s' = reports s ++ [UploadFailed e] ∧
    removed k tid left (md s')) s.
Proof.
  intros Hlen Hdel Hrun. unfold abandon. apply wp_bind, wp_zoom. unfold wp at 1, create_ptask_failed, delete_ptask.
  cbv [mbind r_mbind pr_mbind]. rewrite log_err_metadata. cbn [metadata set_metadata]. rewrite log_err_metadata, log_err_content.
  pose proof (proj1 (Hdel (md s))) as Hok1.
  destruct (Metadata.delete_ptask k tid (md s)) as [r1 m1] eqn:Hd1. cbn [snd metadata set_metadata set_content].
  pose proof (proj2 (Hdel m1)) as Hok2.
  destruct (Metadata.delete_pieces tid m1) as [r2 m2] eqn:Hd2. cbn [snd fst] in *. subst r1 r2.
  assert (removed k tid [] m2) as Hrem.
  { pose proof (MetadataFacts.delete_pieces_only _ _ _ _ Hd2) as [_ Hother]. unfold Metadata.delete_ptask in Hd1.
    cbv [mbind st_mbind modify] in Hd1. pose proof (MetadataFacts.db_delete_inv _ _ _ _ _ Hd1) as [_ Hraw]. split.
    - destruct Hraw as [[? _]|Hraw]; [done|]. unfold MetadataFacts.absent.
      rewrite Hother by (apply ptask_namespace). by rewrite Hraw, lookup_delete_eq.
    - intros key Hkey. left. rewrite (MetadataFacts.delete_pieces_raw _ _ _ Hlen Hd2). by rewrite decide_True. }
  apply wp_bind. eapply wp_mono; [by apply (wp_complete_late tid left)|]. intros ? s2 [-> Ht].
  assert (removed k tid left (md s2)) as Hrem2 by (eapply removed_touches; [|exact Ht]; exact Hrem).
  destruct Ht as [Hr2 _].
  unfold wp, report. cbn. rewrite Hr2. by destruct (scheduler _ _).
Qed.

Local Notation upload := (upload clock default_ttl to_prost file_length open_at has_enough_space hard_link scheduler completion fuel late put).
Local Notation content_of := (content_of clock open_at hard_link completion fuel late put).

(** The pieces whose records an aborted upload may leave: those of a persistent task whose
    upload to the source failed, if tasks complete although they were aborted. *)
Definition stragglers (k : PersistentKind) (interested : list Piece) : list Piece :=
  match k, late with
  | KPersistent, _ :: _ => if is_ok (upload_content_to_source put) then [] else interested
  | _, _ => []
  end.

Lemma tasks_none tid l : tasks_of tid l [].
Proof.
  exists (register_piece clock KPersistent tid), []. split; [apply register_imports|]. split; [done|]. by intros x ?%not_elem_of_nil.
Qed.

Lemma wp_content_of k tid pl cl budget interested s :
  PieceCalc.calculate_interested clock fuel pl cl None = Some (Ok interested) → NoDup (Piece.number <$> interested) →
  wp (content_of k tid pl cl budget) (λ r s', reports s' = reports s ∧ ∃ x running, r = Ok (x, running) ∧
    match x with
    | Ok _ => imported tid interested s' ∧ (k = KPersistent → upload_content_to_source put = Ok tt)
    | Err _ => tasks_of tid (if is_ok (upload_content_to_source put) then [] else interested) running ∧
        (k = KPersistentCache → running = [])
    end) s.
Proof.
  intros Hint Hnd. unfold PersistentUpload.content_of, upload_content, cache_upload_content. destruct k; cbv zeta.
  - apply wp_bind_catch. eapply wp_mono; [by apply wp_to_local|]. intros [[f|running]|e] s1 [Hr Hx]; (split; [done|]); eexists _, _; (split; [done|]).
    + destruct (upload_content_to_source put) as [[]|e] eqn:Es; [|split; [apply tasks_none|done]]. split; [by apply Hx|done].
    + destruct (upload_content_to_source put) as [[]|e] eqn:Es; simpl in Hx; [by destruct Hx|]. by destruct Hx.
    + split; [apply tasks_none|done].
  - apply wp_bind, wp_bind_catch. eapply wp_mono; [by apply wp_to_local|]. intros [[f|running]|e] s1 [Hr Hx]; (split; [done|]); eexists _, _; (split; [done|]).
    + split; [by apply Hx|done].
    + by destruct Hx.
    + split; [apply tasks_none|done].
Qed.

(** What an upload leaves behind. *)
Definition outcome (k : PersistentKind) (tid : string) (started : Report) (interested : list Piece) (s : World)
    (r : Result (PTask.PTask k)) (s' : World) : Prop :=
  match r with
  | Ok t =>
      reports s' = reports s ++ [started; UploadFinished] ∧ MetadataFacts.holds (md s') tid t ∧
      is_Some (PTask.finished_at t) ∧ imported tid interested s' ∧
      (k = KPersistent → upload_content_to_source put = Ok tt)
  | Err _ =>
      s' = s ∨ reports s' = reports s ++ [started] ∨
      ∃ l e, reports s' = reports s ++ started :: l ++ [UploadFailed e] ∧ (l = [] ∨ l = [UploadFinished]) ∧
        removed k tid (stragglers k interested) (md s')
  end.

Lemma tasks_stragglers k tid interested running :
  tasks_of tid (if is_ok (upload_content_to_source put) then [] else interested) running →
  (k = KPersistentCache → running = []) → late ≠ [] → tasks_of tid (stragglers k interested) running.
Proof.
  intros Ht Hc Hl. unfold stragglers. destruct k; [|rewrite (Hc eq_refl); apply tasks_none].
  destruct late; [done|]. exact Ht.
Qed.

Lemma wp_upload k tid request budget s cl interested :
  file_length = Ok cl → String.length tid = 64%nat → deletes k tid →
  let pl := chosen_piece_length k request cl in
  PieceCalc.calculate_interested clock fuel pl cl None = Some (Ok interested) → NoDup (Piece.number <$> interested) →
  wp (upload k tid request budget) (outcome k tid (UploadStarted cl (PieceCalc.calculate_piece_count pl cl)) interested s) s.
Proof.
  intros Hcl Htid Hdel pl Hint Hnd. unfold PersistentUpload.upload. apply wp_bind_lift; [|by intros; left]. intros ttl_ _.
  apply wp_bind_lift; [|by intros; left]. rewrite Hcl. intros ? [= <-]. fold pl. cbv zeta.
  apply wp_bind_lift; [|by intros; left]. intros _ _.
  set (started := UploadStarted cl (PieceCalc.calculate_piece_count pl cl)).
  apply wp_bind. unfold wp at 1, report. destruct (scheduler _ started) as [[]|e]; [|by right; left].
  set (s1 := mkWorld (store s) (reports s ++ [started])).
  assert (∀ e running l s2, reports s2 = reports s ++ started :: l → l = [] ∨ l = [UploadFinished] →
    (late ≠ [] → tasks_of tid (stragglers k interested) running) →
    wp (abandon scheduler late k tid e running) (outcome k tid started interested s) s2) as Habandon.
  { intros e running l s2 Hr Hl Ht. eapply wp_mono; [by apply (wp_abandon k tid e running (stragglers k interested))|].
    intros [t|e'] s3 (Hok & Hr3 & Hrem); [done|]. right. right. exists l, e. rewrite Hr3, Hr, <-app_assoc. done. }
  apply wp_bind. unfold wp at 1. destruct (has_enough_space _ cl) as [[|]|e]; [|by right; left..]. cbn [negb].
  apply wp_bind, wp_zoom. unfold wp at 1. destruct (create_ptask_started clock k tid ttl_ pl cl (store s1)) as [[[t|e] x]|] eqn:Hcr;
    [|by right; left|].
  2:{ exfalso. revert Hcr. unfold create_ptask_started. cbv [mbind r_mbind pr_mbind in_metadata].
      destruct (Metadata.create_ptask_started _ _ _ _ _ _ _) as [[t|e] m]; [|done]. unfold in_content.
      by destruct (content_create_dir _ _ _) as [[[]|e] c]. }
  apply wp_bind. eapply wp_mono; [by apply wp_content_of|]. intros r s2 (Hr2 & y & running & -> & Hy).
  destruct y as [[]|e].
  2:{ destruct Hy as [Ht Hc]. apply (Habandon e running []); [by rewrite Hr2|by left|by apply tasks_stragglers]. }
  destruct Hy as [Himp Hsrc]. apply wp_bind_catch, wp_zoom. unfold wp at 1, create_ptask_finished, in_metadata.
  destruct (Metadata.create_ptask_finished clock k tid (md s2)) as [[t'|e] m] eqn:Hfin;
    [|by apply (Habandon e [] []); [simpl; rewrite Hr2|left|intros _; apply tasks_none]].
  apply finished_Ok in Hfin as (Hh & Hf & Ho). apply wp_bind_catch. unfold wp at 1, report.
  destruct (scheduler _ UploadFinished) as [[]|e];
    [|by apply (Habandon e [] [UploadFinished]); [cbn [reports]; rewrite Hr2; cbn [reports]; unfold s1; cbn [reports]; rewrite <-app_assoc|right|intros _; apply tasks_none]].
  split; [cbn [reports]; rewrite Hr2; cbn [reports]; unfold s1; cbn [reports]; by rewrite <-app_assoc|]. split; [exact Hh|]. split; [exact Hf|]. split; [|exact Hsrc].
  exact (imported_only k tid interested s2 m Himp Ho).
Qed.


(** When the disk has no room for the content, the upload fails after it has told the
    scheduler that it started; nothing tells the scheduler that it is over. *)
Theorem no_space_unreported k tid request budget (s : World) cl d :
  (ttl request = None ∧ d = default_ttl ∨ ttl request = Some (Ok d)) → to_prost d = Ok tt → file_length = Ok cl →
  let started := UploadStarted cl (PieceCalc.calculate_piece_count (chosen_piece_length k request cl) cl) in
  scheduler (List.length (reports s)) started = Ok tt → has_enough_space (content (store s)) cl = Ok false →
  upload k tid request budget s =
    Some (Err (NoSpace "not enough space to store the task"), mkWorld (store s) (reports s ++ [started])).
Proof.
  intros Httl Hprost Hcl started Hsched Hspace. unfold PersistentUpload.upload.
  destruct Httl as [[Ht Hd]|Ht]; [rewrite Hd in Hprost|]; rewrite Ht, Hcl; cbv [mbind um_mbind pr_mbind pr_lift or_err]; cbv zeta;
    rewrite Hprost; unfold report;
    fold started; rewrite Hsched; cbn [store]; rewrite Hspace; done.
Qed.
End facts.
End PersistentUploadFacts.

(** ** A concrete upload: ten bytes in pieces of four *)

From S2P Require Import MemEngine.

Module PersistentUploadWitness.
Import Storage StorageFacts StorageWitness MetadataWitness PersistentUpload PersistentUploadFacts.
#[local] Existing Instance mem_content.

Definition file : Bytes := replicate 10 x01.
Definition fits (d : Duration) : Result unit := Ok tt.
Definition request : UploadRequest := mkUploadRequest None (Some 4).
Definition enough (d : Disk) (n : Z) : Result bool := Ok true.
Definition full (d : Disk) (n : Z) : Result bool := Ok false.
Definition no_link (k : PersistentKind) (tid : string) : ST Disk DFError unit := λ d, (Err (Unknown "another device"), d).
Definition agrees (n : nat) (r : Report) : Result unit := Ok tt.
Definition in_order (l : list Piece) : list Piece := l.
Definition open (offset : Z) : Result Bytes := Ok (drop (Z.to_nat offset) file).
Definition nothing : World := mkWorld (mkStorage empty ∅ (Cache.new 100) ∅ 0 : S) [].
Definition interested : list Piece :=
  match PieceCalc.calculate_interested clock 4 4 10 None with Some (Ok l) => l | _ => [] end.

Local Notation run := (
  upload clock 0 fits (Ok 10) open enough no_link agrees in_order 4 [] (Ok (mkPutResponse true None)) KPersistentCache tid request 0 nothing).

Lemma three_pieces : PieceCalc.calculate_piece_count (chosen_piece_length KPersistentCache request 10) 10 = 3.
Proof. vm_compute. reflexivity. Qed.
Lemma interested_pieces :
  PieceCalc.calculate_interested clock 4 (chosen_piece_length KPersistentCache request 10) 10 None = Some (Ok interested).
Proof. vm_compute. reflexivity. Qed.
Lemma interested_distinct : NoDup (Piece.number <$> interested).
Proof. apply (bool_decide_unpack _). vm_compute. exact I. Qed.
Lemma tid_length : String.length tid = 64%nat.
Proof. reflexivity. Qed.
Lemma in_order_permutes l : in_order l ≡ₚ l.
Proof. done. Qed.
Lemma memory_deletes : deletes KPersistentCache tid.
Proof.
  intros m. split; [reflexivity|]. unfold Metadata.delete_pieces. cbv [mbind st_mbind reads lift zoom].
  set (p := as_bytes tid). match goal with |- context [op_prefix_iter_raw ?O ?e p] =>
    change (op_prefix_iter_raw O e p) with (Ok (E := DFError) (or_err StorageError <$> (Ok (E := string) <$> mem_items e "piece" p))) end.
  generalize (mem_items (Metadata.db m) "piece" p) as l. intros l.
  assert (collect (λ ele : Result (bytes * bytes), fst <$> ele) (or_err StorageError <$> (Ok (E := string) <$> l)) = Ok (l.*1)) as ->.
  { clear. induction l as [|[k v] l IH]; [done|]. rewrite !fmap_cons. cbn [collect]. rewrite IH. reflexivity. }
  reflexivity.
Qed.
Lemma upload_runs_ok : match run with Some (r, _) => is_ok r | None => false end = true.
Proof. vm_compute. reflexivity. Qed.


(** The source refuses the content; the task of the only piece completes after the records
    were deleted, and its record is left behind. *)
Lemma late_piece_survives :
  match upload clock 0 fits (Ok 10) open enough no_link agrees in_order 4 [0%nat] (Ok (mkPutResponse false None)) KPersistent tid
      request 1 nothing with
  | Some (r, s') => negb (is_ok r) && bool_decide (is_Some (MetadataFacts.raw (metadata (store s')) !! ("piece", as_bytes MetadataWitness.pid)))
  | None => false
  end = true.
Proof. vm_compute. reflexivity. Qed.

Lemma no_space_unreported_witness :
  upload clock 0 fits (Ok 10) open full no_link agrees in_order 4 [] (Ok (mkPutResponse true None)) KPersistentCache tid request 0 nothing
    = Some (Err (NoSpace "not enough space to store the task"), mkWorld (store nothing) [UploadStarted 10 3]).
Proof.
  rewrite (no_space_unreported clock 0 fits (Ok 10) open full no_link agrees in_order 4 [] (Ok (mkPutResponse true None))
    KPersistentCache tid request 0 nothing 10 0); [reflexivity|by left|done|done|done|done].
Defined.
End PersistentUploadWitness.
